(* ===== verification/_CoqProject ===== *)
-Q . S2P
Prelude.v
GoStrings.v
Sha256.v
GoTime.v
GoErrors.v
Json.v
Url.v
Unstructured.v
Resources.v
Names.v
MountArgs.v
Kube.v
Effects.v
History.v
MountInfo.v
HFMount.v
Sweeper.v
SweeperRun.v
PodMounter.v
RefMutex.v
PodMounterSpec.v
PodLifecycle.v
MountPodSpec.v
Mounter.v
TargetTable.v
PodSafety.v
PodHeal.v
Descriptors.v
FdChannel.v
Sidecar.v
SidecarSpec.v
Node.v
NodeSpec.v
VolumeCycle.v
Webhook.v
WebhookSpec.v
VolData.v
StartupTaint.v
Driver.v
Main.v
