(* ===== verification/Prelude.v ===== *)
(** * Verification of hf-csi-driver

    A Kubernetes CSI driver that mounts Hugging Face buckets and repositories with
    FUSE.  kubelet asks the node plugin to publish a volume at a target path.  In
    sidecar mode the plugin opens /dev/fuse, mounts it there and hands the
    descriptor to a container in the workload pod; in mount-pod mode it creates a
    pod of its own per source, waits for that pod's mount and bind-mounts it.  A
    second mode of the binary is an admission webhook that injects the sidecar.

    ** Modelling

    A Go function that only computes is a Rocq function.  One that acts is a [prog]
    (Effects.v): it returns, panics, uses the memory the goroutines share, or makes
    a [call] (to the kernel, the file system, the API server, the clock, another
    goroutine, a lock) and continues with the answer.  The environment that answers
    is arbitrary; it may change the shared memory at every call, which is what the
    other goroutines do meanwhile.  What a theorem assumes about it is a [rely]:
    [any] (nothing), [quiet] (no other goroutine touches the memory), or a stated
    piece of documented behaviour (the API server's versions in HFMount.v, the
    kernel's mounts at one target in TargetTable.v, the node's taints
    and the patches to them in StartupTaint.v).  Errors are values of [gerror]; a nil error is [None].  Results
    are read off the [run] of a program: how it ended, the memory, the world, and
    the trace of calls with their answers.

    Strings are byte strings, as Go's; int is unbounded Z (counters and streaks of
    the code stay far below 2^63), machine words of SHA-256 and of control messages
    are kept at their width.  The order in which Go ranges over a map is chosen by
    the environment ([range_order] below).

    ** Files

    Go's libraries, as far as they are used: GoStrings.v (strings, strconv,
    path/filepath, net/url escapes), Sha256.v, GoTime.v (RFC 3339), GoErrors.v,
    Json.v, Url.v; Unstructured.v and Kube.v (the objects of the API).

    Data: Names.v (identifiers, labels, paths: podmounter.go, node.go, hfmount.go),
    Resources.v (resources.go), MountArgs.v (mounter.go, resources.go).

    Effects.v and History.v: programs, weakest preconditions over a rely, predicates
    on the calls of a program ([emits], [simple], [returns], [respects]);
    Descriptors.v: ownership of file descriptors.

    Node plugin (pkg/driver):
    - MountInfo.v: fuse_mountinfo.go, mount_linux.go, unmount_linux.go;
    - HFMount.v: hfmount.go;
    - Sweeper.v, SweeperRun.v: fuse_sweeper.go, fuse_sweeper_linux.go;
    - PodMounter.v and PodLifecycle.v: podmounter.go (locks, pods, waits, Mount,
      Unmount; watching, repair, clean-up, recovery), specified in RefMutex.v,
      PodMounterSpec.v, MountPodSpec.v, PodSafety.v and PodHeal.v;
    - Mounter.v: the interface of mounter.go, with PodMounter as an instance, and
      TargetTable.v: the laws the node service needs of a mounter;
    - Sidecar.v: sidecar_mounter_linux.go, specified in SidecarSpec.v;
    - Node.v: node.go and the token files of mounter.go, specified in NodeSpec.v and,
      over whole histories of requests, in VolumeCycle.v;
    - VolData.v: voldata_reconciler.go;  StartupTaint.v: startup_taint.go;
    - Driver.v: driver.go, identity.go, controller.go and node mode of main.go.

    Main.v: the flags and the modes of cmd/hf-csi-driver/main.go.

    FdChannel.v: pkg/util/fdchannel.go.  Webhook.v and WebhookSpec.v: pkg/webhook.

    ** What is shown

    - Mounting in pods: which failures keep or delete the mount pod and its object,
      that Mount ends, that Unmount gives a pod up only with its last target, that
      clean-up spares what live pods use, that the pod healed from the object a
      Mount stored is the pod that Mount made, that pods are well formed, and that
      one goroutine at a time works on a source.
    - Sidecar volumes: a mount is all or nothing, a handoff is always resolved, no
      descriptor leaks, unpublishing cannot block on the daemon, a republish mounts
      nothing twice; and over any history of requests and restarts the target
      carries at most one mount and the answers are true.
    - Requests: exactly the ill-formed ones are invalid arguments; credentials do
      not survive an unpublish.
    - HFMount objects: no update is lost, and stale attachments go, no others.
    - The sweeper aborts only confirmed orphans, once, recognises the daemons the
      driver itself started, and a run on a node refines this specification.
    - The reconciler writes only for volumes it owns, all or nothing; the startup
      taint is lifted only after registration, by patches that lose no other change.
    - The webhook's admission in every case, that it is idempotent, and how far it
      agrees with the driver on read-only volumes.
    - Codecs: mount tables, RFC 3339, control messages, JSON, command lines.

    ** Fuel and bounds

    [fuel] counts the iterations of a loop that waits: polls of a deadline loop, ticks
    of a background loop.  [Exhausted] is the result of running out.  [Mount_returns]
    gives the fuel that suffices for Mount when timers fire; the background loops
    run until the process ends, and their theorems hold of every prefix.  Other
    recursions with fuel are given the length of their input.  32 (unmounts of a
    stack, descriptors) and 5 (retries of an update) are the program's own limits.

    ** Parameters

    Code that is not in the repository: quantities ([QuantityLib], with the laws
    [QuantityLaws]), the general case of time.Parse ([TimeLib]), mount-utils'
    IsCorruptedMnt ([MountLib]), lower case outside ASCII ([UnicodeLower]), encoding
    of pods ([PodCodec]), URL authorities with user information or brackets
    ([AuthorityLib]).

    ** Not modelled

    The parsing of the command line (package flag), gRPC, client-go and
    controller-runtime themselves (their results are parameters or answers), the
    stubs for other platforms, logging, and the daemon in the containers. *)
From stdpp Require Export base tactics option list gmap strings fin_maps.
From Stdlib Require Export ZArith Lia.
From Stdlib Require Export Sorting.Permutation.

#[export] Set Default Goal Selector "!".

(** ** Scope and notations of the development *)

Declare Scope go_scope.
Delimit Scope go_scope with go.

(** [s +++ t]: Go's string concatenation [s + t]. *)
Infix "+++" := String.append (at level 60, right associativity) : go_scope.
#[global] Open Scope go_scope.
#[global] Arguments String.append !_ _ / : simpl nomatch.

(** ** Hint databases *)

(** [go_str]: rewriting with Go's string helpers; [go_eff]: rewriting of effectful
    programs; [go_trace]: closure properties of trace predicates. *)
Create Rewrite HintDb go_str.
Create Rewrite HintDb go_eff.
Create HintDb go_trace.

(** ** Iteration over a Go map

    Go leaves the iteration order of a map unspecified and varies it from one
    [range] statement to the next.  A loop over a map is modelled by a list of
    choices [code]: the next key visited is the one at position [c mod length]
    of those that remain.  Every list of choices yields a permutation of the
    entries, and every permutation is the result of some choices. *)
Fixpoint remove_nth {A} (n : nat) (l : list A) : list A :=
  match l, n with
  | [], _ => []
  | _ :: l', 0 => l'
  | x :: l', S n' => x :: remove_nth n' l'
  end.

Fixpoint shuffle {A} (fuel : nat) (code : list nat) (l : list A) : list A :=
  match fuel with
  | 0 => l
  | S fuel' =>
      let i := default 0 (head code) `mod` length l in
      match l !! i with
      | None => l
      | Some x => x :: shuffle fuel' (tail code) (remove_nth i l)
      end
  end.

(** The entries of a map in the order a [range] statement visits them. *)
Definition range_order {A} (code : list nat) (l : list A) : list A :=
  shuffle (length l) code l.

(** ** Machine integers *)

(** Two's complement wrap-around at 32 and 64 bits. *)
Definition wrap32 (z : Z) : Z := ((z + 2^31) `mod` 2^32 - 2^31)%Z.
Definition in_int64 (z : Z) : bool := bool_decide (-(2^63) ≤ z < 2^63)%Z.

(** ** Tactics *)

(** Splits every conjunction, pair and existential of the context. *)
Ltac go_destruct :=
  repeat match goal with
  | H : _ ∧ _ |- _ => destruct H
  | H : ∃ _, _ |- _ => destruct H
  | H : (_, _) = (_, _) |- _ => injection H as H
  | H : Some _ = Some _ |- _ => injection H as H
  end; subst.

(** Case analysis on the scrutinee of the first [match] or [if] of the goal. *)
Ltac go_case :=
  match goal with
  | |- context [match ?x with _ => _ end] =>
      lazymatch x with
      | context [match _ with _ => _ end] => fail
      | _ => destruct x eqn:?
      end
  end.

(** ** Generic lemmas *)

Lemma remove_nth_perm {A} (l : list A) i x :
  l !! i = Some x → x :: remove_nth i l ≡ₚ l.
Proof.
  revert i. induction l as [|y l IH]; intros [|i] H; simplify_eq/=; [done|].
  rewrite <- (IH i H) at 2. apply perm_swap.
Qed.

Lemma shuffle_perm {A} n code (l : list A) : shuffle n code l ≡ₚ l.
Proof.
  revert code l. induction n as [|n IH]; intros code l; simpl; [done|].
  destruct (l !! _) as [x|] eqn:E; [|done].
  rewrite IH. by apply remove_nth_perm.
Qed.

Lemma range_order_perm {A} code (l : list A) : range_order code l ≡ₚ l.
Proof. apply shuffle_perm. Qed.

Lemma elem_of_range_order {A} code (l : list A) x :
  x ∈ range_order code l ↔ x ∈ l.
Proof. by rewrite range_order_perm. Qed.

Lemma NoDup_range_order {A} code (l : list A) :
  NoDup (range_order code l) ↔ NoDup l.
Proof. by rewrite range_order_perm. Qed.

Lemma wrap32_small z : (-(2^31) ≤ z < 2^31)%Z → wrap32 z = z.
Proof. intros H. unfold wrap32. rewrite Z.mod_small; lia. Qed.

Lemma wrap32_bounds z : (-(2^31) ≤ wrap32 z < 2^31)%Z.
Proof.
  unfold wrap32. pose proof (Z.mod_pos_bound (z + 2^31) (2^32)). lia.
Qed.
