(* ===== verification/GoStrings.v ===== *)
(** * Go strings, numbers and file paths

    The functions of the Go standard library packages [strings], [strconv],
    [unicode/utf8], [net/url] and [path/filepath] (Unix) that the driver calls,
    on [string] read as Go's byte strings.  A byte index that Go returns as an
    [int] with [-1] for "absent" is an [option nat] here. *)
From S2P Require Import Prelude.
From Stdlib Require Import Ascii.

Local Open Scope Z_scope.

(** ** Bytes *)

Definition byte (c : ascii) : Z := Z.of_N (N_of_ascii c).
Definition chr (z : Z) : ascii := ascii_of_N (Z.to_N z).
Definition in_range (lo hi z : Z) : bool := (lo <=? z) && (z <=? hi).

Definition is_digit (c : ascii) : bool := in_range 48 57 (byte c).
Definition is_lower (c : ascii) : bool := in_range 97 122 (byte c).
Definition is_upper (c : ascii) : bool := in_range 65 90 (byte c).
Definition is_ascii (c : ascii) : bool := byte c <? 128.

(** The one-byte string [c]. *)
Definition str1 (c : ascii) : string := String c "".

(** ** Slices: [s[n:]], [s[:n]] (both in range in the source) *)

Fixpoint s_drop (n : nat) (s : string) : string :=
  match n, s with
  | O, _ => s
  | S n', String _ s' => s_drop n' s'
  | S _, EmptyString => ""
  end.

Fixpoint s_take (n : nat) (s : string) : string :=
  match n, s with
  | S n', String c s' => String c (s_take n' s')
  | _, _ => ""
  end.

(** ** package strings: search *)

Fixpoint HasPrefix (s p : string) {struct p} : bool :=
  match p, s with
  | EmptyString, _ => true
  | String c p', String d s' => Ascii.eqb c d && HasPrefix s' p'
  | String _ _, EmptyString => false
  end.

(** [strings.CutPrefix]: the rest after the prefix, [None] for [ok = false]. *)
Definition CutPrefix (s p : string) : option string :=
  if HasPrefix s p then Some (s_drop (String.length p) s) else None.

Fixpoint Index (s sub : string) : option nat :=
  if HasPrefix s sub then Some 0%nat
  else match s with
       | EmptyString => None
       | String _ s' => S <$> Index s' sub
       end.

Definition Contains (s sub : string) : bool :=
  match Index s sub with Some _ => true | None => false end.

Fixpoint IndexByte (s : string) (c : ascii) : option nat :=
  match s with
  | EmptyString => None
  | String d s' => if Ascii.eqb c d then Some 0%nat else S <$> IndexByte s' c
  end.

(** ** package strings: splitting and joining *)

(** [strings.Split(s, sep)] for a one-byte separator: never empty. *)
Fixpoint Split (s : string) (sep : ascii) : list string :=
  match s with
  | EmptyString => [""%string]
  | String c s' =>
      if Ascii.eqb sep c then ""%string :: Split s' sep
      else match Split s' sep with
           | [] => [str1 c]
           | w :: ws => String c w :: ws
           end
  end.

(** [strings.SplitN(s, sep, 2)] for a one-byte separator. *)
Definition SplitN2 (s : string) (sep : ascii) : list string :=
  match IndexByte s sep with
  | None => [s]
  | Some i => [s_take i s; s_drop (S i) s]
  end.

Fixpoint Join (elems : list string) (sep : string) : string :=
  match elems with
  | [] => ""
  | [x] => x
  | x :: xs => x +++ sep +++ Join xs sep
  end.

(** [strings.ReplaceAll] with a one-byte pattern. *)
Fixpoint ReplaceByte (s : string) (c : ascii) (by_ : string) : string :=
  match s with
  | EmptyString => ""
  | String d s' =>
      (if Ascii.eqb c d then by_ else str1 d) +++ ReplaceByte s' c by_
  end.

(** ** White space ([unicode.IsSpace]) *)

(** The UTF-8 encodings of the white-space runes, longest prefix unique. *)
Definition space_runes : list string :=
  ((λ c, str1 (chr c)) <$> [9; 10; 11; 12; 13; 32]) ++
  ((λ c, str1 (chr 194) +++ str1 (chr c)) <$> [133; 160]) ++
  ((λ l, String (chr l.1.1) (String (chr l.1.2) (str1 (chr l.2)))) <$>
     [(225, 154, 128); (226, 128, 128); (226, 128, 129); (226, 128, 130);
      (226, 128, 131); (226, 128, 132); (226, 128, 133); (226, 128, 134);
      (226, 128, 135); (226, 128, 136); (226, 128, 137); (226, 128, 138);
      (226, 128, 168); (226, 128, 169); (226, 128, 175); (226, 129, 159);
      (227, 128, 128)]).

(** Width of the white-space rune at the head of [s], 0 when there is none. *)
Definition space_width (s : string) : nat :=
  default 0%nat (String.length <$> head (filter (λ r, HasPrefix s r = true) space_runes)).

Fixpoint trim_left (n : nat) (s : string) : string :=
  match n with
  | O => s
  | S n' => match space_width s with
            | O => s
            | w => trim_left n' (s_drop w s)
            end
  end.

(** Trailing white space: [s] ends with the rune [r]. *)
Definition HasSuffix (s r : string) : bool :=
  let n := String.length s in
  let k := String.length r in
  (k <=? n)%nat && String.eqb (s_drop (n - k) s) r.

Definition tail_space_width (s : string) : nat :=
  default 0%nat (String.length <$> head (filter (λ r, HasSuffix s r = true) space_runes)).

Fixpoint trim_right (n : nat) (s : string) : string :=
  match n with
  | O => s
  | S n' => match tail_space_width s with
            | O => s
            | w => trim_right n' (s_take (String.length s - w) s)
            end
  end.

(** [strings.TrimSpace]; one pass per byte is enough. *)
Definition TrimSpace (s : string) : string :=
  let s1 := trim_left (String.length s) s in
  trim_right (String.length s1) s1.

(** [strings.Fields]: [skip] bytes of a white-space rune are still to be passed,
    [cur] is the field being read. *)
Fixpoint fields_go (skip : nat) (cur s : string) : list string :=
  match s with
  | EmptyString => if String.eqb cur "" then [] else [cur]
  | String c s' =>
      match skip with
      | S k => fields_go k cur s'
      | O => match space_width s with
             | O => fields_go 0 (cur +++ str1 c) s'
             | S k => (if String.eqb cur "" then [] else [cur]) ++ fields_go k "" s'
             end
      end
  end.
Definition Fields (s : string) : list string := fields_go 0 "" s.

(** ** package strings: trimming and mapping by byte

    [strings.TrimFunc] and [strings.Trim] with a predicate on one-byte runes,
    as the driver uses them (on ASCII text, and to strip NUL bytes). *)
Fixpoint trim_left_by (f : ascii → bool) (s : string) : string :=
  match s with
  | EmptyString => ""
  | String c s' => if f c then trim_left_by f s' else s
  end.

Fixpoint trim_right_by (f : ascii → bool) (s : string) : string :=
  match s with
  | EmptyString => ""
  | String c s' =>
      match trim_right_by f s' with
      | EmptyString => if f c then "" else str1 c
      | t => String c t
      end
  end.

Definition TrimFunc (f : ascii → bool) (s : string) : string :=
  trim_right_by f (trim_left_by f s).

Fixpoint str_all (f : ascii → bool) (s : string) : bool :=
  match s with
  | EmptyString => true
  | String c s' => f c && str_all f s'
  end.

Fixpoint map_bytes (f : ascii → ascii) (s : string) : string :=
  match s with
  | EmptyString => ""
  | String c s' => String (f c) (map_bytes f s')
  end.

Definition lower_byte (c : ascii) : ascii :=
  if is_upper c then chr (byte c + 32) else c.

(** ** package unicode/utf8

    Bytes of the rune at the head of [s] as [utf8.DecodeRune] delimits it; an
    invalid sequence is a one-byte [RuneError]. *)
Definition byte_at (s : string) (n : nat) : Z :=
  match s_drop n s with String c _ => byte c | EmptyString => -1 end.
Definition cont (z : Z) : bool := in_range 128 191 z.

Definition rune_width (s : string) : nat :=
  let b0 := byte_at s 0 in
  let b1 := byte_at s 1 in
  let b2 := byte_at s 2 in
  let b3 := byte_at s 3 in
  if b0 <? 128 then 1%nat
  else if in_range 194 223 b0 then (if cont b1 then 2%nat else 1%nat)
  else if in_range 224 239 b0 then
    let lo := if b0 =? 224 then 160 else 128 in
    let hi := if b0 =? 237 then 159 else 191 in
    if in_range lo hi b1 && cont b2 then 3%nat else 1%nat
  else if in_range 240 244 b0 then
    let lo := if b0 =? 240 then 144 else 128 in
    let hi := if b0 =? 244 then 143 else 191 in
    if in_range lo hi b1 && cont b2 && cont b3 then 4%nat else 1%nat
  else 1%nat.

(** [strings.Map] with a mapping that keeps the one-byte runes of [keep] and
    sends every other rune to the one-byte rune [other]. *)
Fixpoint map_runes_go (keep : ascii → bool) (other : ascii) (skip : nat) (s : string)
  : string :=
  match s with
  | EmptyString => ""
  | String c s' =>
      match skip with
      | S k => map_runes_go keep other k s'
      | O => if is_ascii c && keep c
             then String c (map_runes_go keep other 0 s')
             else String other (map_runes_go keep other (Nat.pred (rune_width s)) s')
      end
  end.
Definition map_runes (keep : ascii → bool) (other : ascii) (s : string) : string :=
  map_runes_go keep other 0 s.

(** ** package strconv *)

Definition digit_val (c : ascii) : Z := byte c - 48.

Fixpoint digits_go (base acc : Z) (s : string) : option Z :=
  match s with
  | EmptyString => Some acc
  | String c s' =>
      if is_digit c && (digit_val c <? base)
      then digits_go base (acc * base + digit_val c) s'
      else None
  end.

(** An unsigned number in a base up to ten: at least one digit, only digits. *)
Definition digits (base : Z) (s : string) : option Z :=
  if String.eqb s "" then None else digits_go base 0 s.

(** One optional sign, then decimal digits. *)
Definition signed_dec (s : string) : option Z :=
  match s with
  | String c s' =>
      if Ascii.eqb c "-" then Z.opp <$> digits 10 s'
      else if Ascii.eqb c "+" then digits 10 s'
      else digits 10 s
  | EmptyString => None
  end.

(** [strconv.Atoi] and [strconv.ParseInt(s, 10, 64)]: the value must be in range. *)
Definition Atoi (s : string) : option Z :=
  match signed_dec s with
  | Some z => if in_int64 z then Some z else None
  | None => None
  end.

(** [strconv.ParseUint(s, 8, 8)]. *)
Definition ParseUint8 (s : string) : option Z :=
  match digits 8 s with
  | Some z => if z <? 256 then Some z else None
  | None => None
  end.

(** Decimal digits of a nonnegative number, least significant last. *)
Fixpoint dec_go (fuel : nat) (z : Z) (acc : string) : string :=
  match fuel with
  | O => acc
  | S f =>
      let acc' := String (chr (48 + z `mod` 10)) acc in
      if z <? 10 then acc' else dec_go f (z / 10) acc'
  end.

(** [strconv.Itoa] and the [%d] verb. *)
Definition Itoa (z : Z) : string :=
  let n := Z.abs z in
  let d := dec_go (S (Z.to_nat (Z.log2 n))) n "" in
  if z <? 0 then "-" +++ d else d.

(** The [%x] verb on bytes: two lower-case hexadecimal digits each. *)
Definition hex_digit (z : Z) : ascii := if z <? 10 then chr (48 + z) else chr (87 + z).
Definition hex_byte (z : Z) : string :=
  String (hex_digit (z / 16)) (str1 (hex_digit (z `mod` 16))).
Fixpoint hex (bs : list Z) : string :=
  match bs with [] => "" | b :: bs' => hex_byte b +++ hex bs' end.

(** ** package net/url: [PathEscape] *)

Definition upper_hex_digit (z : Z) : ascii :=
  if z <? 10 then chr (48 + z) else chr (55 + z).

Definition is_alnum (c : ascii) : bool := is_digit c || is_lower c || is_upper c.

(** Bytes [shouldEscape] leaves alone in a path segment: the unreserved ones and
    the reserved ones other than [/ ; , ?]. *)
Definition path_segment_byte (c : ascii) : bool :=
  is_alnum c ||
  existsb (Ascii.eqb c) ["-"; "_"; "."; "~"; "$"; "&"; "+"; ":"; "="; "@"]%char.

Fixpoint PathEscape (s : string) : string :=
  match s with
  | EmptyString => ""
  | String c s' =>
      if path_segment_byte c then String c (PathEscape s')
      else String "%" (String (upper_hex_digit (byte c / 16))
             (String (upper_hex_digit (byte c `mod` 16)) (PathEscape s')))
  end.

(** ** package path/filepath (Unix) *)

Definition rooted (p : string) : bool := HasPrefix p "/".

(** One step of [Clean] on the components kept so far, innermost first. *)
Definition clean_step (root : bool) (st : list string) (c : string) : list string :=
  if String.eqb c "" || String.eqb c "." then st
  else if String.eqb c ".." then
    match st with
    | [] => if root then [] else [".."%string]
    | x :: st' => if String.eqb x ".." then ".."%string :: st else st'
    end
  else c :: st.

Definition clean_comps (root : bool) (cs : list string) : list string :=
  reverse (fold_left (clean_step root) cs []).

Definition render (root : bool) (cs : list string) : string :=
  if root then "/" +++ Join cs "/"
  else match cs with [] => "." | _ => Join cs "/" end.

Definition Clean (p : string) : string :=
  render (rooted p) (clean_comps (rooted p) (Split p "/")).

(** [filepath.Join]: leading empty elements are dropped, the rest is joined and
    cleaned. *)
Fixpoint JoinPath (elems : list string) : string :=
  match elems with
  | [] => ""
  | e :: es => if String.eqb e "" then JoinPath es else Clean (Join elems "/")
  end.

(** [filepath.Base]: the last component. *)
Definition Base (p : string) : string :=
  if String.eqb p "" then "."
  else match trim_right_by (Ascii.eqb "/") p with
       | EmptyString => "/"
       | q => default "" (last (Split q "/"))
       end.

(** [filepath.Dir]: everything up to the last separator, cleaned. *)
Definition Dir (p : string) : string :=
  match reverse (Split p "/") with
  | _ :: [] | [] => Clean ""
  | _ :: up => Clean (Join (reverse up) "/" +++ "/")
  end.

(** ** Notions the facts are stated with *)

(** A path component [Join] adds unchanged. *)
Definition good_comp (c : string) : Prop :=
  c ≠ ""%string ∧ c ≠ "."%string ∧ c ≠ ".."%string ∧ IndexByte c "/" = None.

Definition is_lower_hex (c : ascii) : bool := is_digit c || in_range 97 102 (byte c).

(** What [clean_comps] returns: leading [..] (only in a relative path), then
    good components. *)
Definition normal (root : bool) (cs : list string) : Prop :=
  ∃ n gs, cs = replicate n ".."%string ++ gs ∧ (root = true → n = 0%nat) ∧ Forall good_comp gs.

(** A nonempty component: no slash, so not rooted. *)
Definition piece (x : string) : Prop :=
  x ≠ ""%string ∧ IndexByte x "/" = None ∧ rooted x = false.

(** No white space anywhere in the string. *)
Fixpoint spaceless (s : string) : bool :=
  match s with
  | EmptyString => true
  | String c s' => Nat.eqb (space_width s) 0 && spaceless s'
  end.

(** ** Facts: concatenation and slices *)

Lemma sapp_assoc (a b c : string) : (a +++ b) +++ c = a +++ b +++ c.
Proof. induction a as [|x a IH]; [done|]. simpl. by rewrite IH. Qed.

Lemma sapp_nil_r (a : string) : a +++ "" = a.
Proof. induction a as [|x a IH]; [done|]. simpl. by rewrite IH. Qed.

Lemma sapp_cons c (a b : string) : String c a +++ b = String c (a +++ b).
Proof. done. Qed.

Lemma sapp_nil_l (a : string) : "" +++ a = a.
Proof. done. Qed.
#[export] Hint Rewrite sapp_assoc sapp_nil_r sapp_cons sapp_nil_l : go_str.

Lemma sapp_inj_l (p a b : string) : p +++ a = p +++ b → a = b.
Proof. induction p as [|x p IH]; simpl; [done|]. intros [= H]. by apply IH. Qed.

Lemma slength_app (a b : string) :
  String.length (a +++ b) = (String.length a + String.length b)%nat.
Proof. induction a as [|x a IH]; simpl; [done|]. by rewrite IH. Qed.

Lemma s_drop_app (a b : string) : s_drop (String.length a) (a +++ b) = b.
Proof. by induction a. Qed.

Lemma s_take_app (a b : string) : s_take (String.length a) (a +++ b) = a.
Proof. induction a as [|x a IH]; simpl; [by destruct b|]. by rewrite IH. Qed.

Lemma s_take_drop n (s : string) : s_take n s +++ s_drop n s = s.
Proof. revert n. induction s as [|c s IH]; intros [|n]; simpl; try done. by rewrite IH. Qed.

Lemma HasPrefix_spec (s p : string) : HasPrefix s p = true ↔ ∃ t, s = p +++ t.
Proof.
  revert s. induction p as [|c p IH]; intros s; simpl.
  { split; [by exists s|done]. }
  destruct s as [|d s]; [split; [done|by intros [t ?]]|].
  rewrite andb_true_iff, Ascii.eqb_eq, IH. split.
  - intros [-> [t ->]]. by exists t.
  - intros [t [= -> ->]]. eauto.
Qed.

Lemma HasPrefix_app (p t : string) : HasPrefix (p +++ t) p = true.
Proof. apply HasPrefix_spec. eauto. Qed.
#[export] Hint Rewrite HasPrefix_app s_drop_app s_take_app : go_str.

Lemma CutPrefix_app (p t : string) : CutPrefix (p +++ t) p = Some t.
Proof. unfold CutPrefix. by rewrite HasPrefix_app, s_drop_app. Qed.

Lemma Index_Some (s sub : string) n :
  Index s sub = Some n → s = s_take n s +++ sub +++ s_drop (n + String.length sub) s.
Proof.
  revert n. induction s as [|c s IH]; intros n; simpl.
  - destruct (HasPrefix "" sub) eqn:E; [|done].
    apply HasPrefix_spec in E as [t Ht]. intros [= <-].
    destruct sub; [|done]. done.
  - destruct (HasPrefix (String c s) sub) eqn:E.
    + apply HasPrefix_spec in E as [t ->]. intros [= <-]. simpl.
      by rewrite s_drop_app; destruct (sub +++ t).
    + destruct (Index s sub) as [m|] eqn:Em; intros [= <-]; simpl.
      f_equal. by apply IH.
Qed.

Lemma Index_app_Some (a sub b : string) : is_Some (Index (a +++ sub +++ b) sub).
Proof.
  induction a as [|c a IH].
  - rewrite sapp_nil_l. destruct (sub +++ b) eqn:E; simpl.
    + destruct sub; [eauto|done].
    + rewrite <- E, HasPrefix_app. eauto.
  - simpl. destruct (HasPrefix _ _); [eauto|]. destruct IH as [n Hn]. rewrite Hn. simpl. eauto.
Qed.

Lemma Contains_spec (s sub : string) :
  Contains s sub = true ↔ ∃ a b, s = a +++ sub +++ b.
Proof.
  unfold Contains. split.
  - destruct (Index s sub) as [n|] eqn:E; [|done]. apply Index_Some in E. eauto.
  - intros (a & b & ->). destruct (Index_app_Some a sub b) as [n Hn]; by rewrite Hn.
Qed.

Lemma IndexByte_None (s : string) c : IndexByte s c = None ↔ str_all (λ d, negb (Ascii.eqb c d)) s = true.
Proof.
  induction s as [|d s IH]; simpl; [done|].
  destruct (Ascii.eqb c d); simpl; [done|]. rewrite <- IH.
  by destruct (IndexByte s c).
Qed.

Lemma IndexByte_Some_app (a b : string) c :
  IndexByte a c = None → IndexByte (a +++ String c b) c = Some (String.length a).
Proof.
  induction a as [|d a IH]; simpl.
  - by rewrite Ascii.eqb_refl.
  - destruct (Ascii.eqb c d); [done|].
    destruct (IndexByte a c); [done|]. intros _. by rewrite IH.
Qed.

Lemma str_all_app f (a b : string) : str_all f (a +++ b) = str_all f a && str_all f b.
Proof. induction a as [|c a IH]; simpl; [done|]. by rewrite IH, andb_assoc. Qed.

Lemma str_all_impl (f g : ascii → bool) (s : string) :
  (∀ c, f c = true → g c = true) → str_all f s = true → str_all g s = true.
Proof.
  intros Hfg. induction s as [|c s IH]; simpl; [done|].
  rewrite !andb_true_iff. intros [Hc Hs]. auto.
Qed.

(** ** Facts: Split and Join *)

Lemma Split_nonempty (s : string) c : Split s c ≠ [].
Proof. destruct s as [|d s]; simpl; [done|]. destruct (Ascii.eqb c d); [done|]. by destruct (Split s c). Qed.

Lemma Split_no_sep (s : string) c : IndexByte s c = None → Split s c = [s].
Proof.
  induction s as [|d s IH]; simpl; [done|].
  destruct (Ascii.eqb c d); [done|]. destruct (IndexByte s c) eqn:E; [done|].
  intros _. by rewrite IH.
Qed.

Lemma Split_app (a b : string) c : Split (a +++ String c b) c = Split a c ++ Split b c.
Proof.
  induction a as [|d a IH]; simpl.
  - by rewrite Ascii.eqb_refl.
  - destruct (Ascii.eqb c d); [by rewrite IH|]. rewrite IH.
    pose proof (Split_nonempty a c). by destruct (Split a c).
Qed.

Lemma Join_Split (s : string) c : Join (Split s c) (str1 c) = s.
Proof.
  induction s as [|d s IH]; simpl; [done|].
  pose proof (Split_nonempty s c).
  destruct (Ascii.eqb_spec c d) as [->|Hne].
  - destruct (Split s d) as [|w ws] eqn:E; [done|]. simpl in *. by rewrite IH.
  - destruct (Split s c) as [|w ws] eqn:E; [done|].
    destruct ws; simpl in *; by rewrite IH.
Qed.

Lemma Join_snoc (l : list string) x sep :
  l ≠ [] → Join (l ++ [x]) sep = Join l sep +++ sep +++ x.
Proof.
  induction l as [|y l IH]; [done|]. intros _. destruct l as [|z l]; [done|].
  change (y +++ sep +++ Join ((z :: l) ++ [x]) sep = (y +++ sep +++ Join (z :: l) sep) +++ sep +++ x).
  rewrite IH by done. by rewrite !sapp_assoc.
Qed.

Lemma Join_elem (l : list string) x sep :
  x ∈ l → ∃ a b, Join l sep = a +++ x +++ b.
Proof.
  induction l as [|y l IH]; [by intros ?%elem_of_nil|].
  rewrite elem_of_cons. intros [->|Hx].
  - destruct l; [exists "", ""; by rewrite sapp_nil_r|]. exists "". eexists. simpl. done.
  - destruct (IH Hx) as (a & b & E). destruct l as [|z l]; [by apply elem_of_nil in Hx|].
    exists (y +++ sep +++ a), b. change (y +++ sep +++ Join (z :: l) sep = (y +++ sep +++ a) +++ x +++ b).
    by rewrite E, !sapp_assoc.
Qed.

Lemma Split_Join (l : list string) c :
  l ≠ [] → Forall (λ x, IndexByte x c = None) l → Split (Join l (str1 c)) c = l.
Proof.
  intros Hne Hl. induction Hl as [|x l Hx Hl IH]; [done|].
  destruct l as [|y l]; [by apply Split_no_sep|].
  change (Split (x +++ String c (Join (y :: l) (str1 c))) c = x :: y :: l).
  rewrite Split_app, Split_no_sep, IH by done. done.
Qed.

Lemma Split_pieces (s : string) c : Forall (λ x, IndexByte x c = None) (Split s c).
Proof.
  induction s as [|d s IH]; simpl; [by repeat constructor|].
  destruct (Ascii.eqb c d) eqn:E; [by constructor|].
  destruct (Split s c) as [|w ws]; [by constructor; simpl; [rewrite E|]|].
  inversion IH as [|?? Hw Hws]; subst. constructor; [|done]. simpl. by rewrite E, Hw.
Qed.

Lemma s_drop_S_app (a b : string) c : s_drop (S (String.length a)) (a +++ String c b) = b.
Proof. induction a as [|d a IH]; [done|exact IH]. Qed.

Lemma SplitN2_app (a b : string) c :
  IndexByte a c = None → SplitN2 (a +++ String c b) c = [a; b].
Proof. intros H. unfold SplitN2. by rewrite IndexByte_Some_app, s_take_app, s_drop_S_app. Qed.

(** ** Facts: trimming *)

Lemma trim_right_by_noop f (a b : string) :
  b ≠ ""%string → str_all (λ c, negb (f c)) b = true → trim_right_by f (a +++ b) = a +++ b.
Proof.
  intros Hb Hf. assert (Hbb : trim_right_by f b = b).
  { clear a Hb. induction b as [|c b IH]; [done|]. simpl in *.
    apply andb_true_iff in Hf as [Hc Hf]. rewrite (IH Hf).
    destruct b; [by destruct (f c)|done]. }
  induction a as [|c a IH]; [done|]. simpl. rewrite IH.
  destruct (a +++ b) eqn:E; [|done]. by destruct a, b.
Qed.

Lemma trim_left_by_spec f (s : string) :
  trim_left_by f s = ""%string ∨ ∃ c t, trim_left_by f s = String c t ∧ f c = false.
Proof.
  induction s as [|c s IH]; simpl; [by left|]. destruct (f c) eqn:E; [done|]. eauto 6.
Qed.

(** What is left of a trimmed string starts and ends with a byte [f] refuses. *)
Lemma trim_right_by_spec f (s : string) :
  trim_right_by f s = ""%string ∨ ∃ t c, trim_right_by f s = t +++ str1 c ∧ f c = false.
Proof.
  induction s as [|c s IH]; simpl; [by left|].
  destruct IH as [->|(t & d & -> & Hd)].
  - destruct (f c) eqn:E; [by left|]. right. by exists "", c.
  - right. exists (String c t), d. split; [|done]. by destruct t.
Qed.

Lemma trim_right_by_head f c (s : string) :
  f c = false → ∃ t, trim_right_by f (String c s) = String c t.
Proof. intros H. simpl. destruct (trim_right_by f s); rewrite ?H; eauto. Qed.

Lemma str_all_trim_left f g (s : string) : str_all g s = true → str_all g (trim_left_by f s) = true.
Proof.
  induction s as [|c s IH]; simpl; [done|]. intros [Hc Hs]%andb_true_iff.
  destruct (f c); [by apply IH|]. simpl. by rewrite Hc, Hs.
Qed.

Lemma str_all_trim_right f g (s : string) : str_all g s = true → str_all g (trim_right_by f s) = true.
Proof.
  induction s as [|c s IH]; simpl; [done|]. intros [Hc Hs]%andb_true_iff.
  specialize (IH Hs). destruct (trim_right_by f s) eqn:E.
  - destruct (f c); simpl; [done|]. by rewrite Hc.
  - simpl in *. by rewrite Hc, IH.
Qed.

Lemma length_trim_left f (s : string) : (String.length (trim_left_by f s) ≤ String.length s)%nat.
Proof. induction s as [|c s IH]; simpl; [lia|]. destruct (f c); simpl; lia. Qed.

Lemma length_trim_right f (s : string) : (String.length (trim_right_by f s) ≤ String.length s)%nat.
Proof.
  induction s as [|c s IH]; simpl; [lia|].
  destruct (trim_right_by f s); simpl in *; [destruct (f c); simpl; lia|lia].
Qed.

Lemma length_s_take n (s : string) : (String.length (s_take n s) ≤ n)%nat.
Proof. revert n. induction s as [|c s IH]; intros [|n]; simpl; try lia. specialize (IH n). lia. Qed.

Lemma str_all_s_take f n (s : string) : str_all f s = true → str_all f (s_take n s) = true.
Proof.
  revert n. induction s as [|c s IH]; intros [|n]; simpl; try done.
  intros [-> Hs]%andb_true_iff. by apply IH.
Qed.

Lemma str_all_map_runes (keep : ascii → bool) (other : ascii) (s : string) :
  str_all (λ c, keep c || Ascii.eqb c other) (map_runes keep other s) = true.
Proof.
  unfold map_runes. generalize 0%nat as k.
  induction s as [|c s IH]; intros [|k]; simpl; try done.
  destruct (is_ascii c && keep c) eqn:E; simpl; rewrite IH.
  - apply andb_true_iff in E as [_ ->]. done.
  - by rewrite Ascii.eqb_refl, orb_true_r.
Qed.

(** ** Facts: file paths *)

Lemma clean_step_good root st c : good_comp c → clean_step root st c = c :: st.
Proof.
  intros (H1 & H2 & H3 & _). unfold clean_step.
  apply String.eqb_neq in H1, H2, H3. by rewrite H1, H2, H3.
Qed.

Lemma clean_comps_app root cs gs :
  Forall good_comp gs → clean_comps root (cs ++ gs) = clean_comps root cs ++ gs.
Proof.
  intros Hg. unfold clean_comps. rewrite fold_left_app.
  generalize (fold_left (clean_step root) cs []) as st.
  induction Hg as [|g gs Hg1 Hg IH]; intros st; simpl; [by rewrite app_nil_r|].
  rewrite clean_step_good, IH by done. by rewrite reverse_cons, <- app_assoc.
Qed.

Lemma clean_comps_pieces root cs :
  Forall (λ x, IndexByte x "/" = None) cs →
  Forall (λ x, IndexByte x "/" = None) (clean_comps root cs).
Proof.
  intros H. unfold clean_comps. apply Forall_reverse.
  assert (G : ∀ st, Forall (λ x, IndexByte x "/" = None) st →
    Forall (λ x, IndexByte x "/" = None) (fold_left (clean_step root) cs st)); [|by apply G].
  induction H as [|c cs Hc Hcs IH]; intros st Hst; simpl; [done|].
  apply IH. unfold clean_step.
  destruct (_ || _); [done|]. destruct (String.eqb c ".."); [|by constructor].
  destruct st as [|x st]; [destruct root; by repeat constructor|].
  destruct (String.eqb x ".."); [by constructor|by inversion Hst].
Qed.

Lemma Split_Join_good b gs :
  Forall good_comp gs → Split (Join (b :: gs) "/") "/" = Split b "/" ++ gs.
Proof.
  intros Hg. revert b. induction Hg as [|g gs Hg1 Hg IH]; intros b; [by rewrite app_nil_r|].
  change (Split (b +++ String "/" (Join (g :: gs) "/")) "/" = Split b "/" ++ g :: gs).
  rewrite Split_app, IH, (Split_no_sep g) by apply Hg1. done.
Qed.

(** [Join] below any nonempty base appends good components to the clean base. *)
Lemma JoinPath_good b gs :
  b ≠ ""%string → Forall good_comp gs →
  JoinPath (b :: gs) = render (rooted b) (clean_comps (rooted b) (Split b "/") ++ gs).
Proof.
  intros Hb Hg. assert (JoinPath (b :: gs) = Clean (Join (b :: gs) "/")) as ->.
  { simpl. by rewrite (proj2 (String.eqb_neq _ _) Hb). }
  unfold Clean.
  assert (rooted (Join (b :: gs) "/") = rooted b) as Hr.
  { destruct b as [|x b]; [done|]. by destruct gs. }
  rewrite Hr, Split_Join_good, clean_comps_app by done. done.
Qed.

Lemma good_no_slash gs : Forall good_comp gs → Forall (λ x, IndexByte x "/" = None) gs.
Proof. intros H. eapply Forall_impl; [exact H|]. by intros x (_ & _ & _ & ?). Qed.

Lemma render_inj root cs cs' :
  cs ≠ [] → cs' ≠ [] →
  Forall (λ x, IndexByte x "/" = None) cs → Forall (λ x, IndexByte x "/" = None) cs' →
  render root cs = render root cs' → cs = cs'.
Proof.
  intros H1 H2 F1 F2 E.
  assert (Join cs "/" = Join cs' "/") as EJ.
  { unfold render in E. destruct root; [by apply sapp_inj_l in E|]. by destruct cs, cs'. }
  rewrite <- (Split_Join cs "/"), <- (Split_Join cs' "/") by done. by f_equal.
Qed.

Lemma JoinPath_good_inj b gs gs' :
  b ≠ ""%string → gs ≠ [] → gs' ≠ [] → Forall good_comp gs → Forall good_comp gs' →
  JoinPath (b :: gs) = JoinPath (b :: gs') → gs = gs'.
Proof.
  intros Hb N N' F F'. rewrite !JoinPath_good by done. intros E.
  apply render_inj in E.
  - by apply app_inv_head in E.
  - by destruct gs, (clean_comps (rooted b) (Split b "/")).
  - by destruct gs', (clean_comps (rooted b) (Split b "/")).
  - apply Forall_app; auto using clean_comps_pieces, Split_pieces, good_no_slash.
  - apply Forall_app; auto using clean_comps_pieces, Split_pieces, good_no_slash.
Qed.

(** Below an absolute path without special components, [Join] only appends. *)
Lemma JoinPath_abs cs gs :
  cs ≠ [] → Forall good_comp cs → Forall good_comp gs →
  JoinPath (("/" +++ Join cs "/") :: gs) = "/" +++ Join (cs ++ gs) "/".
Proof.
  intros Hne Hc Hg. rewrite JoinPath_good by done.
  assert (Split ("/" +++ Join cs "/") "/" = [""%string] ++ cs) as ->.
  { change (""%string :: Split (Join cs "/") "/" = ""%string :: cs).
    f_equal. apply (Split_Join cs "/"); [done|by apply good_no_slash]. }
  by rewrite clean_comps_app.
Qed.

Lemma Base_app (a c : string) :
  c ≠ ""%string → IndexByte c "/" = None → Base (a +++ String "/" c) = c.
Proof.
  intros Hc Hs. unfold Base.
  assert (a +++ String "/" c ≠ ""%string) as E%String.eqb_neq by (by destruct a).
  rewrite E. change (String "/" c) with (str1 "/" +++ c). rewrite <- sapp_assoc.
  rewrite trim_right_by_noop by (done || by apply IndexByte_None).
  rewrite sapp_assoc. change (str1 "/" +++ c) with (String "/" c).
  destruct (a +++ String "/" c) eqn:E'; [by destruct a|].
  by rewrite <- E', Split_app, (Split_no_sep c), last_snoc by done.
Qed.

Lemma Base_good c : good_comp c → Base c = c.
Proof.
  intros (H1 & _ & _ & Hs). unfold Base. rewrite (proj2 (String.eqb_neq _ _) H1).
  rewrite (trim_right_by_noop _ "" c) by (done || by apply IndexByte_None).
  rewrite sapp_nil_l. destruct c eqn:E; [done|]. rewrite <- E in *. by rewrite Split_no_sep.
Qed.

Lemma render_snoc root cs c :
  cs ≠ [] → render root (cs ++ [c]) = render root cs +++ String "/" c.
Proof.
  intros Hne. unfold render. rewrite Join_snoc by done.
  destruct root; [by rewrite sapp_assoc|]. by destruct cs.
Qed.

(** The last component of a joined path is the last element joined. *)
Lemma Base_JoinPath b gs c :
  b ≠ ""%string → Forall good_comp gs → good_comp c → Base (JoinPath (b :: gs ++ [c])) = c.
Proof.
  intros Hb Hg Hc. rewrite JoinPath_good by (done || by apply Forall_app; auto).
  rewrite app_assoc. generalize (clean_comps (rooted b) (Split b "/") ++ gs) as cs. intros cs.
  destruct Hc as (Hc1 & Hc2 & Hc3 & Hc4).
  destruct cs as [|x cs].
  - simpl. destruct (rooted b); [by apply (Base_app "" c)|apply Base_good; unfold good_comp; auto].
  - rewrite render_snoc by done. by apply Base_app.
Qed.

(** ** Facts: PathEscape *)

Lemma upper_hex_digit_inj a b :
  0 ≤ a < 16 → 0 ≤ b < 16 → upper_hex_digit a = upper_hex_digit b → a = b.
Proof.
  intros Ha Hb.
  assert (forallb (λ x, forallb (λ y,
    implb (Ascii.eqb (upper_hex_digit x) (upper_hex_digit y)) (x =? y)) (seqZ 0 16)) (seqZ 0 16) = true)
    as H by done.
  rewrite forallb_forall in H. specialize (H a). rewrite forallb_forall in H.
  rewrite <- list_elem_of_In in H. specialize (H ltac:(apply elem_of_seqZ; lia) b).
  rewrite <- list_elem_of_In in H. specialize (H ltac:(apply elem_of_seqZ; lia)).
  intros E. rewrite E, Ascii.eqb_refl in H. by apply Z.eqb_eq.
Qed.

Lemma byte_bounds c : 0 ≤ byte c < 256.
Proof. unfold byte. pose proof (N_ascii_bounded c). lia. Qed.

Lemma byte_inj c d : byte c = byte d → c = d.
Proof. unfold byte. intros H. apply N2Z.inj in H. by rewrite <- (ascii_N_embedding c), H, ascii_N_embedding. Qed.

Lemma upper_hex_digit_alnum z : 0 ≤ z < 16 → is_alnum (upper_hex_digit z) = true.
Proof.
  intros H. assert (forallb (λ z, is_alnum (upper_hex_digit z)) (seqZ 0 16) = true) as F by done.
  rewrite forallb_forall in F. apply F, list_elem_of_In, elem_of_seqZ. lia.
Qed.

Lemma nibble_bounds c : 0 ≤ byte c / 16 < 16 ∧ 0 ≤ byte c `mod` 16 < 16.
Proof.
  pose proof (byte_bounds c). split; [|by apply Z.mod_pos_bound].
  split; [apply Z.div_pos; lia|apply Z.div_lt_upper_bound; lia].
Qed.

Lemma PathEscape_inj s t : PathEscape s = PathEscape t → s = t.
Proof.
  revert t. induction s as [|c s IH]; intros [|d t]; simpl; try done.
  - by destruct (path_segment_byte d).
  - by destruct (path_segment_byte c).
  - destruct (path_segment_byte c) eqn:Ec, (path_segment_byte d) eqn:Ed.
    + intros [= -> H]. f_equal. by apply IH.
    + intros [= -> _]. done.
    + intros [= <- _]. done.
    + intros [= H1 H2 H3].
      destruct (nibble_bounds c), (nibble_bounds d).
      apply upper_hex_digit_inj in H1, H2; [|done..].
      rewrite (IH t H3). f_equal. apply byte_inj.
      rewrite (Z.div_mod (byte c) 16), (Z.div_mod (byte d) 16) by lia. by rewrite H1, H2.
Qed.

Lemma PathEscape_bytes s :
  str_all (λ c, path_segment_byte c || Ascii.eqb c "%") (PathEscape s) = true.
Proof.
  induction s as [|c s IH]; simpl; [done|].
  destruct (path_segment_byte c) eqn:E; simpl; rewrite ?E, IH; [done|].
  destruct (nibble_bounds c). unfold path_segment_byte.
  by rewrite !upper_hex_digit_alnum.
Qed.

Lemma PathEscape_no_slash s : IndexByte (PathEscape s) "/" = None.
Proof.
  apply IndexByte_None. eapply str_all_impl, PathEscape_bytes. intros c H. simpl in H.
  destruct (Ascii.eqb_spec "/" c) as [<-|]; done.
Qed.

Lemma PathEscape_nil s : PathEscape s = ""%string → s = ""%string.
Proof. destruct s as [|c s]; simpl; [done|]. by destruct (path_segment_byte c). Qed.

(** ** Facts: hexadecimal *)

Lemma length_hex bs : String.length (hex bs) = (2 * length bs)%nat.
Proof. induction bs as [|b bs IH]; simpl in *; [done|]. rewrite IH. lia. Qed.

(** Cutting the hexadecimal digits cuts the bytes. *)
Lemma s_take_hex n bs : s_take (2 * n) (hex bs) = hex (take n bs).
Proof.
  revert n. induction bs as [|b bs IH]; intros [|n]; [done..|].
  replace (2 * S n)%nat with (S (S (2 * n))) by lia. simpl. simpl in IH. by rewrite IH.
Qed.

Lemma hex_digit_lower z : 0 ≤ z < 16 → is_lower_hex (hex_digit z) = true.
Proof.
  intros H. assert (forallb (λ z, is_lower_hex (hex_digit z)) (seqZ 0 16) = true) as F by done.
  rewrite forallb_forall in F. apply F, list_elem_of_In, elem_of_seqZ. lia.
Qed.

Lemma hex_bytes bs : Forall (λ b, 0 ≤ b < 256) bs → str_all is_lower_hex (hex bs) = true.
Proof.
  induction 1 as [|b bs Hb _ IH]; simpl; [done|]. rewrite IH.
  rewrite !hex_digit_lower; [done|by apply Z.mod_pos_bound|].
  split; [apply Z.div_pos; lia|apply Z.div_lt_upper_bound; lia].
Qed.

(** ** Facts: decimal numbers *)

Lemma chr_byte z : 0 ≤ z < 256 → byte (chr z) = z.
Proof.
  intros H. unfold byte, chr. rewrite N_ascii_embedding by lia. by rewrite Z2N.id by lia.
Qed.

Lemma digit_ok d : 0 ≤ d < 10 → is_digit (chr (48 + d)) = true ∧ digit_val (chr (48 + d)) = d.
Proof.
  intros H. unfold is_digit, digit_val, in_range. rewrite chr_byte by lia.
  split; [|lia]. apply andb_true_iff. lia.
Qed.

Lemma digits_go_dec f z s :
  0 ≤ z < 2 ^ Z.of_nat f → digits_go 10 0 (dec_go f z s) = digits_go 10 z s.
Proof.
  revert z s. induction f as [|f IH]; intros z s Hz.
  { simpl in *. by replace z with 0 by lia. }
  cbn [dec_go]. pose proof (Z.mod_pos_bound z 10 ltac:(lia)) as Hm.
  destruct (digit_ok (z `mod` 10) Hm) as [H1 H2].
  assert (∀ a, digits_go 10 a (String (chr (48 + z `mod` 10)) s) = digits_go 10 (a * 10 + z `mod` 10) s) as Hstep.
  { intros a. cbn [digits_go]. rewrite H1, H2. by rewrite (proj2 (Z.ltb_lt _ _) (proj2 Hm)). }
  destruct (Z.ltb_spec z 10).
  - rewrite Hstep. by rewrite Z.mod_small by lia.
  - rewrite IH, Hstep; [by rewrite Z.mul_comm, <- Z.div_mod by lia|].
    rewrite Nat2Z.inj_succ, Z.pow_succ_r in Hz by lia.
    split; [apply Z.div_pos; lia|]. apply Z.div_lt_upper_bound; lia.
Qed.

Lemma dec_go_head f z s : ∃ d t, 0 ≤ d < 10 ∧ dec_go (S f) z s = String (chr (48 + d)) t.
Proof.
  revert z s. induction f as [|f IH]; intros z s; cbn [dec_go].
  - exists (z `mod` 10). pose proof (Z.mod_pos_bound z 10 ltac:(lia)).
    destruct (z <? 10); eauto.
  - destruct (z <? 10); [|apply IH]. exists (z `mod` 10).
    pose proof (Z.mod_pos_bound z 10 ltac:(lia)). eauto.
Qed.

Lemma signed_dec_Itoa z : signed_dec (Itoa z) = Some z.
Proof.
  unfold Itoa. set (n := Z.abs z). set (f := Z.to_nat (Z.log2 n)).
  assert (digits 10 (dec_go (S f) n "") = Some n) as Hd.
  { unfold digits. destruct (dec_go_head f n "") as (d & t & Hd & E).
    rewrite E. simpl (String.eqb _ _). rewrite <- E, digits_go_dec; [done|].
    unfold f. rewrite Nat2Z.inj_succ, Z2Nat.id by apply Z.log2_nonneg.
    destruct (decide (n = 0)) as [->|]; [done|]. pose proof (Z.log2_spec n). lia. }
  destruct (Z.ltb_spec z 0).
  - change (Z.opp <$> digits 10 (dec_go (S f) n "") = Some z). rewrite Hd. simpl. f_equal. lia.
  - destruct (dec_go_head f n "") as (d & t & Hd' & E). rewrite E in *. unfold signed_dec.
    destruct (digit_ok d Hd') as [H1 _].
    destruct (Ascii.eqb_spec (chr (48 + d)) "-") as [Hc|]; [by rewrite Hc in H1|].
    destruct (Ascii.eqb_spec (chr (48 + d)) "+") as [Hc|]; [by rewrite Hc in H1|].
    rewrite Hd. f_equal. lia.
Qed.

Lemma Atoi_Itoa z : -(2^63) ≤ z < 2^63 → Atoi (Itoa z) = Some z.
Proof.
  intros H. unfold Atoi. rewrite signed_dec_Itoa. unfold in_int64.
  by rewrite bool_decide_eq_true_2.
Qed.

Lemma Itoa_inj a b : Itoa a = Itoa b → a = b.
Proof. intros H. pose proof (signed_dec_Itoa a) as E. rewrite H, signed_dec_Itoa in E. by injection E. Qed.

Lemma Itoa_nonempty z : Itoa z ≠ ""%string.
Proof. intros H. pose proof (signed_dec_Itoa z) as E. by rewrite H in E. Qed.

Lemma HasSuffix_app a b : HasSuffix (a +++ b) b = true.
Proof.
  unfold HasSuffix. rewrite slength_app, (proj2 (Nat.leb_le _ _)) by lia.
  replace (String.length a + String.length b - String.length b)%nat with (String.length a) by lia.
  rewrite s_drop_app. apply String.eqb_refl.
Qed.

(** ** Facts: [Clean] is idempotent, [Dir] undoes [Join] *)

Lemma clean_step_normal root st c :
  IndexByte c "/" = None → normal root (reverse st) → normal root (reverse (clean_step root st c)).
Proof.
  intros Hc (n & gs & E & Hr & Hg). unfold clean_step.
  destruct (String.eqb_spec c ""); [by exists n, gs|].
  destruct (String.eqb_spec c "."); [by exists n, gs|]. simpl.
  destruct (String.eqb_spec c ".."); subst.
  - destruct st as [|x st].
    + destruct root; [by exists n, gs|]. exists 1%nat, []. by repeat constructor.
    + rewrite reverse_cons in E. destruct (String.eqb_spec x ".."); subst.
      * destruct gs as [|g gs _] using rev_ind.
        -- rewrite app_nil_r in E. exists (S n), []. rewrite reverse_cons, reverse_cons, E.
           split_and!; [by rewrite replicate_S_end, app_nil_r| |done].
           intros ->. rewrite Hr in E by done. by destruct (reverse st).
        -- rewrite app_assoc in E. apply app_inj_tail in E as [_ <-].
           apply Forall_app in Hg as [_ Hg]. inversion Hg as [|?? Hd]; subst. by destruct Hd as (_ & _ & ? & _).
      * destruct gs as [|g gs _] using rev_ind.
        -- rewrite app_nil_r in E. destruct n as [|n]; [by destruct (reverse st)|].
           rewrite replicate_S_end in E. by apply app_inj_tail in E as [_ ->].
        -- rewrite app_assoc in E. apply app_inj_tail in E as [E ->].
           apply Forall_app in Hg as [Hg _]. exists n, gs. done.
  - exists n, (gs ++ [c]). rewrite reverse_cons, E, app_assoc. split_and!; [done..|].
    apply Forall_app. split; [done|]. by repeat constructor.
Qed.

Lemma clean_comps_normal root cs :
  Forall (λ x, IndexByte x "/" = None) cs → normal root (clean_comps root cs).
Proof.
  intros Hc. unfold clean_comps.
  assert (G : ∀ st, normal root (reverse st) → normal root (reverse (fold_left (clean_step root) cs st))).
  { induction Hc as [|c cs Hc1 Hc IH]; intros st Hst; simpl; [done|].
    by apply IH, clean_step_normal. }
  apply G. exists 0%nat, []. by repeat constructor.
Qed.

Lemma clean_comps_id root cs : normal root cs → clean_comps root cs = cs.
Proof.
  intros (n & gs & -> & Hr & Hg). rewrite clean_comps_app by done. f_equal.
  destruct root; [by rewrite Hr|]. unfold clean_comps.
  rewrite <- (reverse_replicate n ".."%string) at 2. f_equal. clear Hr Hg.
  assert (G : ∀ k, fold_left (clean_step false) (replicate n ".."%string) (replicate k ".."%string)
                   = replicate (n + k) ".."%string); [|by specialize (G 0%nat); rewrite Nat.add_0_r in G].
  induction n as [|n IH]; intros k; [done|]. simpl replicate.
  cbn [fold_left]. transitivity (fold_left (clean_step false) (replicate n ".."%string) (replicate (S k) ".."%string)).
  - f_equal. by destruct k.
  - by rewrite IH, Nat.add_succ_r.
Qed.

Lemma rooted_render root cs : Forall piece cs → rooted (render root cs) = root.
Proof.
  intros Hc. destruct root; [done|]. destruct Hc as [|c cs (Hn & _ & Hc) _]; [done|].
  unfold render. destruct cs; [exact Hc|]. by destruct c.
Qed.

Lemma normal_pieces root cs : normal root cs → Forall piece cs.
Proof.
  intros (n & gs & -> & _ & Hg). apply Forall_app. split.
  - by apply Forall_replicate.
  - eapply Forall_impl; [exact Hg|]. intros c (Hn & _ & _ & Hc). split_and!; [done..|].
    destruct c as [|a c]; [done|]. unfold rooted. cbn [HasPrefix IndexByte] in *. destruct (Ascii.eqb "/" a); [discriminate|reflexivity].
Qed.

(** Cleaning a clean path with a slash appended gives it back. *)
Lemma Clean_slash root cs :
  normal root cs → cs ≠ [] → Clean (render root cs +++ "/") = render root cs.
Proof.
  intros Hn Hne. pose proof (normal_pieces _ _ Hn) as Hp. unfold Clean.
  assert (rooted (render root cs +++ "/") = root) as ->.
  { rewrite <- (rooted_render root cs Hp) at 2.
    destruct root; [done|]. destruct Hp as [|c cs (Hc & _) _]; [done|].
    unfold render. destruct c; [done|]. by destruct cs. }
  change "/"%string with (String "/" ""). rewrite Split_app. change (Split "" "/") with [""%string].
  assert (Forall (λ x, IndexByte x "/" = None) cs) as Hs by (eapply Forall_impl; [exact Hp|]; by intros c (_ & ? & _)).
  assert (clean_comps root (Split (render root cs) "/" ++ [""%string]) = clean_comps root cs) as ->.
  { unfold clean_comps. rewrite fold_left_app. simpl. unfold clean_step at 1. simpl. f_equal.
    unfold render. destruct root.
    - change ("/" +++ Join cs "/") with ("" +++ String "/" (Join cs "/")).
      rewrite Split_app. change "/"%string with (str1 "/"). by rewrite Split_Join.
    - change "/"%string with (str1 "/"). destruct cs; [done|]. by rewrite Split_Join. }
  by rewrite clean_comps_id.
Qed.

Lemma Dir_JoinPath b gs c :
  b ≠ ""%string → gs ≠ [] → Forall good_comp gs → good_comp c →
  Dir (JoinPath (b :: gs ++ [c])) = JoinPath (b :: gs).
Proof.
  intros Hb Hne Hg Hc. rewrite !JoinPath_good by (done || by apply Forall_app; auto).
  pose proof (clean_comps_normal (rooted b) _ (Split_pieces b "/")) as Hn.
  set (cs := clean_comps (rooted b) (Split b "/") ++ gs).
  assert (normal (rooted b) cs) as Hcs.
  { destruct Hn as (n & gs' & E & Hr & Hg'). exists n, (gs' ++ gs). subst cs. rewrite E, app_assoc.
    split_and!; [done..|]. apply Forall_app; auto. }
  assert (cs ≠ []) as Hcs'. { subst cs. destruct gs; [done|]. by destruct (clean_comps _ _). }
  rewrite app_assoc. fold cs. rewrite render_snoc by done.
  unfold Dir. rewrite Split_app, (Split_no_sep c), reverse_app by apply Hc. simpl.
  destruct (reverse (Split (render (rooted b) cs) "/")) as [|u us] eqn:E.
  { apply (f_equal length) in E. rewrite length_reverse in E.
    pose proof (Split_nonempty (render (rooted b) cs) "/") as Hs.
    by destruct (Split (render (rooted b) cs) "/"). }
  rewrite <- E, reverse_involutive. change "/"%string with (str1 "/") at 2.
  rewrite Join_Split. by apply Clean_slash.
Qed.

(** ** Facts: Fields *)

Lemma space_width_0 s : space_width s = 0%nat ↔ ∀ r, r ∈ space_runes → HasPrefix s r = false.
Proof.
  unfold space_width.
  destruct (filter (λ r, HasPrefix s r = true) space_runes) as [|r rs] eqn:E; simpl.
  - split; [|done]. intros _ r Hr. destruct (HasPrefix s r) eqn:Hp; [|done].
    assert (r ∈ filter (λ r, HasPrefix s r = true) space_runes) as Hin by by apply list_elem_of_filter.
    rewrite E in Hin. by apply elem_of_nil in Hin.
  - assert (r ∈ filter (λ r, HasPrefix s r = true) space_runes) as Hin by (rewrite E; apply elem_of_cons; by left).
    apply list_elem_of_filter in Hin as [Hp Hr]. split.
    + intros Hl. exfalso. destruct r; [|done]. clear -Hr. vm_compute in Hr.
      repeat (apply elem_of_cons in Hr as [Hr|Hr]; [done|]). by apply elem_of_nil in Hr.
    + intros Hall. by rewrite Hall in Hp.
Qed.

Lemma HasPrefix_app_space u t r :
  u ≠ ""%string → str_all (λ c, negb (Ascii.eqb " " c)) (s_drop 1 r) = true →
  HasPrefix (u +++ String " " t) r = true → HasPrefix u r = true.
Proof.
  destruct u as [|c u]; [done|]. intros _. destruct r as [|d r]; [done|]. simpl.
  destruct (Ascii.eqb d c); [|done]. simpl. intros Hr. revert r Hr.
  induction u as [|c' u IH]; intros [|d' r] Hr; simpl in *; try done.
  - intros [H _]%andb_true_iff. apply Ascii.eqb_eq in H as ->. done.
  - destruct (Ascii.eqb d' c'); [|done]. simpl. apply andb_true_iff in Hr as [_ Hr]. by apply IH.
Qed.

Lemma space_runes_tail r : r ∈ space_runes → str_all (λ c, negb (Ascii.eqb " " c)) (s_drop 1 r) = true.
Proof.
  intros Hr. assert (forallb (λ r, str_all (λ c, negb (Ascii.eqb " " c)) (s_drop 1 r)) space_runes = true) as H
    by by vm_compute.
  rewrite forallb_forall in H. by apply H, list_elem_of_In.
Qed.

Lemma space_width_app u t :
  u ≠ ""%string → space_width u = 0%nat → space_width (u +++ String " " t) = 0%nat.
Proof.
  intros Hu. rewrite !space_width_0. intros H r Hr.
  destruct (HasPrefix (u +++ String " " t) r) eqn:E; [|done].
  apply HasPrefix_app_space in E; [|done|by apply space_runes_tail]. by rewrite H in E.
Qed.

Lemma fields_go_word w cur t :
  spaceless w = true → t = ""%string ∨ (∃ t', t = String " " t') →
  fields_go 0 cur (w +++ t) = fields_go 0 (cur +++ w) t.
Proof.
  revert cur. induction w as [|c w IH]; intros cur Hw Ht; [by rewrite sapp_nil_l, sapp_nil_r|].
  cbn [spaceless] in Hw. apply andb_true_iff in Hw as [Hc%Nat.eqb_eq Hw]. rewrite sapp_cons. cbn [fields_go].
  assert (space_width (String c (w +++ t)) = 0%nat) as ->.
  { destruct Ht as [->|[t' ->]]; [by rewrite sapp_nil_r|].
    rewrite <- sapp_cons. by apply space_width_app. }
  rewrite IH by done. f_equal. rewrite sapp_assoc. done.
Qed.

Lemma space_width_space t : space_width (String " " t) = 1%nat.
Proof. done. Qed.

(** Fields without white space, joined by single spaces, are read back. *)
Lemma Fields_Join ws : Forall (λ w, w ≠ ""%string ∧ spaceless w = true) ws → Fields (Join ws " ") = ws.
Proof.
  unfold Fields. induction 1 as [|w ws [Hn Hw] Hws IH]; [done|].
  destruct ws as [|v ws].
  - change (Join [w] " ") with w. rewrite <- (sapp_nil_r w) at 1. rewrite fields_go_word by auto.
    rewrite sapp_nil_l. simpl. by rewrite (proj2 (String.eqb_neq _ _) Hn).
  - change (Join (w :: v :: ws) " ") with (w +++ String " " (Join (v :: ws) " ")).
    rewrite fields_go_word by eauto. rewrite sapp_nil_l. cbn [fields_go]. rewrite space_width_space.
    rewrite (proj2 (String.eqb_neq _ _) Hn). simpl app. f_equal. exact IH.
Qed.

Lemma spaceless_byte w c :
  c ∈ [chr 10; chr 13] → spaceless w = true → str_all (λ d, negb (Ascii.eqb c d)) w = true.
Proof.
  intros Hc. induction w as [|d w IH]; [done|]. cbn [spaceless]. intros [Hd%Nat.eqb_eq Hw]%andb_true_iff. simpl. rewrite (IH Hw), andb_true_r.
  destruct (Ascii.eqb_spec c d) as [->|]; [|done]. exfalso.
  rewrite !elem_of_cons, elem_of_nil in Hc. by destruct Hc as [->|[->|[]]].
Qed.

Lemma str_all_Join f ws sep :
  str_all f sep = true → Forall (λ w, str_all f w = true) ws → str_all f (Join ws sep) = true.
Proof.
  intros Hs. induction 1 as [|w ws Hw Hws IH]; [done|]. destruct ws as [|v ws]; [done|].
  change (Join (w :: v :: ws) sep) with (w +++ sep +++ Join (v :: ws) sep).
  by rewrite !str_all_app, Hw, Hs, IH.
Qed.

Lemma Itoa_bytes z : str_all (λ c, is_digit c || Ascii.eqb c "-") (Itoa z) = true.
Proof.
  assert (G : ∀ f n s, str_all (λ c, is_digit c || Ascii.eqb c "-") s = true →
    str_all (λ c, is_digit c || Ascii.eqb c "-") (dec_go f n s) = true).
  { intros f. induction f as [|f IH]; intros n s Hs; [done|]. cbn [dec_go].
    pose proof (Z.mod_pos_bound n 10 ltac:(lia)) as Hm. destruct (digit_ok _ Hm) as [Hd _].
    destruct (n <? 10); [|apply IH]; simpl; by rewrite Hd. }
  unfold Itoa. destruct (z <? 0); [|by apply G]. change (str_all (λ c, is_digit c || Ascii.eqb c "-") (str1 "-" +++ dec_go (S (Z.to_nat (Z.log2 (Z.abs z)))) (Z.abs z) "") = true).
  by rewrite str_all_app, G.
Qed.

Lemma Itoa_no_byte z c : is_digit c = false → c ≠ "-"%char → IndexByte (Itoa z) c = None.
Proof.
  intros Hd Hm. apply IndexByte_None. eapply str_all_impl, Itoa_bytes. intros d H. simpl in H.
  destruct (Ascii.eqb_spec c d) as [->|]; [|done].
  rewrite Hd in H. simpl in H. by apply Ascii.eqb_eq in H.
Qed.

Lemma HasSuffix_spec s r : HasSuffix s r = true → ∃ a, s = a +++ r.
Proof.
  unfold HasSuffix. intros [_ H]%andb_true_iff. apply String.eqb_eq in H.
  exists (s_take (String.length s - String.length r) s). rewrite <- H at 2. by rewrite s_take_drop.
Qed.

(** ** Facts: what survives trimming and replacing *)

Lemma trim_right_by_app f (p y : string) :
  trim_right_by f (p +++ y) =
    match trim_right_by f y with EmptyString => trim_right_by f p | t => p +++ t end.
Proof.
  induction p as [|c p IH]; simpl; [by destruct (trim_right_by f y)|].
  rewrite IH. destruct (trim_right_by f y) as [|d t] eqn:E; [done|].
  by destruct p.
Qed.

Lemma trim_left_by_app f (x a : string) c y :
  f c = false → ∃ x', trim_left_by f (x +++ String c a +++ y) = x' +++ String c a +++ y.
Proof.
  intros Hc. induction x as [|d x [x' IH]]; simpl.
  - rewrite Hc. by exists "".
  - destruct (f d); [by exists x'|]. by exists (String d x).
Qed.

(** Trimming keeps every substring made of bytes that are not trimmed. *)
Lemma Contains_TrimFunc f (x a y : string) :
  str_all (λ c, negb (f c)) a = true → Contains (TrimFunc f (x +++ a +++ y)) a = true.
Proof.
  destruct a as [|c a]; [by intros _; apply Contains_spec; exists "", (TrimFunc f (x +++ y))|].
  intros Ha. apply Contains_spec. unfold TrimFunc.
  pose proof Ha as [Hc _]%andb_true_iff. apply negb_true_iff in Hc.
  destruct (trim_left_by_app f x a c y Hc) as [x' ->].
  rewrite <- sapp_assoc, trim_right_by_app.
  destruct (trim_right_by f y) as [|d t].
  - rewrite trim_right_by_noop by done. exists x', "". by rewrite sapp_nil_r.
  - exists x', (String d t). by rewrite sapp_assoc.
Qed.

Lemma ReplaceByte_app (a b : string) c r :
  ReplaceByte (a +++ b) c r = ReplaceByte a c r +++ ReplaceByte b c r.
Proof. induction a as [|d a IH]; simpl; [done|]. by rewrite IH, sapp_assoc. Qed.

Lemma ReplaceByte_none (a : string) c r :
  str_all (λ d, negb (Ascii.eqb c d)) a = true → ReplaceByte a c r = a.
Proof.
  induction a as [|d a IH]; simpl; [done|]. intros [Hd Ha]%andb_true_iff.
  apply negb_true_iff in Hd. by rewrite Hd, IH.
Qed.

Lemma map_bytes_app f (a b : string) : map_bytes f (a +++ b) = map_bytes f a +++ map_bytes f b.
Proof. induction a as [|c a IH]; simpl; [done|]. by rewrite IH. Qed.

#[global] Arguments HasPrefix : simpl never.
#[global] Arguments String.eqb : simpl never.
#[global] Arguments Index : simpl never.
#[global] Arguments Itoa : simpl never.
#[global] Arguments JoinPath : simpl never.
