(* ===== verification/Sha256.v ===== *)
(** * crypto/sha256

    FIPS 180-4 SHA-256 on byte strings, as the driver uses it to name mounts
    and handoff directories after volumes.  Words are 32-bit, kept as [Z] in
    [[0, 2^32)]; the digest is a list of 32 byte values. *)
From S2P Require Import Prelude GoStrings.

Local Open Scope Z_scope.

(** ** 32-bit words *)

Definition w32 (x : Z) : Z := Z.land x 0xffffffff.
Definition rotr (n x : Z) : Z := Z.lor (Z.shiftr x n) (w32 (Z.shiftl x (32 - n))).
Definition not32 (x : Z) : Z := Z.lxor x 0xffffffff.
Definition Ch (x y z : Z) : Z := Z.lxor (Z.land x y) (Z.land (not32 x) z).
Definition Maj (x y z : Z) : Z :=
  Z.lxor (Z.lxor (Z.land x y) (Z.land x z)) (Z.land y z).
Definition Sigma0 (x : Z) : Z := Z.lxor (Z.lxor (rotr 2 x) (rotr 13 x)) (rotr 22 x).
Definition Sigma1 (x : Z) : Z := Z.lxor (Z.lxor (rotr 6 x) (rotr 11 x)) (rotr 25 x).
Definition sigma0 (x : Z) : Z := Z.lxor (Z.lxor (rotr 7 x) (rotr 18 x)) (Z.shiftr x 3).
Definition sigma1 (x : Z) : Z := Z.lxor (Z.lxor (rotr 17 x) (rotr 19 x)) (Z.shiftr x 10).

(** The constants as the standard defines them: the first 32 bits of the
    fractional parts of the square roots of the first 8 primes, and of the cube
    roots of the first 64. *)
Definition is_prime (n : nat) : bool :=
  (2 <=? n)%nat && forallb (λ d, negb (n `mod` d =? 0)%nat) (seq 2 (n - 2)).
Definition primes : list Z :=
  Eval vm_compute in Z.of_nat <$> List.filter is_prime (seq 0 312).

(** The largest [r] with [acc <= r < acc + 2^bits] and [r^3 <= n]. *)
Fixpoint cube_root (bits : nat) (acc n : Z) : Z :=
  match bits with
  | O => acc
  | S b =>
      let r := acc + Z.shiftl 1 (Z.of_nat b) in
      cube_root b (if r * r * r <=? n then r else acc) n
  end.

Definition sha_k : list Z :=
  Eval vm_compute in (λ p, w32 (cube_root 36 0 (Z.shiftl p 96))) <$> primes.
Definition sha_h : list Z :=
  Eval vm_compute in (λ p, w32 (Z.sqrt (Z.shiftl p 64))) <$> take 8 primes.

(** ** Padding and blocks *)

Fixpoint str_bytes (s : string) : list Z :=
  match s with EmptyString => [] | String c s' => byte c :: str_bytes s' end.

Fixpoint be_bytes (n : nat) (z : Z) : list Z :=
  match n with
  | O => []
  | S n' => Z.land (Z.shiftr z (8 * Z.of_nat n')) 255 :: be_bytes n' z
  end.

Definition pad (m : list Z) : list Z :=
  let l := Z.of_nat (length m) in
  m ++ 0x80 :: replicate (Z.to_nat ((55 - l) `mod` 64)) 0 ++ be_bytes 8 (8 * l).

Fixpoint words (n : nat) (m : list Z) : list Z :=
  match n, m with
  | S n', a :: b :: c :: d :: m' =>
      Z.lor (Z.lor (Z.shiftl a 24) (Z.shiftl b 16)) (Z.lor (Z.shiftl c 8) d) :: words n' m'
  | _, _ => []
  end.

(** Message schedule, newest word first. *)
Fixpoint schedule (n : nat) (w : list Z) : list Z :=
  match n with
  | O => w
  | S n' =>
      let at_ i := default 0 (w !! i) in
      schedule n' (w32 (sigma1 (at_ 1%nat) + at_ 6%nat + sigma0 (at_ 14%nat) + at_ 15%nat) :: w)
  end.

(** ** Compression *)

Record sha_st := Sha { ha : Z; hb : Z; hc : Z; hd : Z; he : Z; hf : Z; hg : Z; hh : Z }.

Definition sha_round (s : sha_st) (kw : Z * Z) : sha_st :=
  let t1 := w32 (hh s + Sigma1 (he s) + Ch (he s) (hf s) (hg s) + kw.1 + kw.2) in
  let t2 := w32 (Sigma0 (ha s) + Maj (ha s) (hb s) (hc s)) in
  Sha (w32 (t1 + t2)) (ha s) (hb s) (hc s) (w32 (hd s + t1)) (he s) (hf s) (hg s).

Definition sha_block (s : sha_st) (blk : list Z) : sha_st :=
  let w := reverse (schedule 48 (reverse (words 16 blk))) in
  let t := fold_left sha_round (zip sha_k w) s in
  Sha (w32 (ha s + ha t)) (w32 (hb s + hb t)) (w32 (hc s + hc t)) (w32 (hd s + hd t))
      (w32 (he s + he t)) (w32 (hf s + hf t)) (w32 (hg s + hg t)) (w32 (hh s + hh t)).

Fixpoint sha_blocks (fuel : nat) (s : sha_st) (m : list Z) : sha_st :=
  match fuel, m with
  | S f, _ :: _ => sha_blocks f (sha_block s (take 64 m)) (drop 64 m)
  | _, _ => s
  end.

Definition sha_init : sha_st :=
  Eval vm_compute in
  let h i := default 0 (sha_h !! i) in
  Sha (h 0%nat) (h 1%nat) (h 2%nat) (h 3%nat) (h 4%nat) (h 5%nat) (h 6%nat) (h 7%nat).

(** [sha256.Sum256] on the bytes of a string: one block per 64 bytes of padded
    message, so the length of the padded message is enough fuel. *)
Definition Sum256 (s : string) : list Z :=
  let m := pad (str_bytes s) in
  let t := sha_blocks (length m) sha_init m in
  be_bytes 4 (ha t) ++ be_bytes 4 (hb t) ++ be_bytes 4 (hc t) ++ be_bytes 4 (hd t) ++
  be_bytes 4 (he t) ++ be_bytes 4 (hf t) ++ be_bytes 4 (hg t) ++ be_bytes 4 (hh t).

(** ** Facts *)

Example Sum256_abc :
  hex (Sum256 "abc") = "ba7816bf8f01cfea414140de5dae2223b00361a396177a9cb410ff61f20015ad"%string.
Proof. vm_compute. reflexivity. Qed.

Example Sum256_two_blocks :
  hex (Sum256 "abcdbcdecdefdefgefghfghighijhijkijkljklmklmnlmnomnopnopq")
  = "248d6a61d20638b8e5c026930c3e6039a33ce45964ff2167f6ecedd419db06c1"%string.
Proof. vm_compute. reflexivity. Qed.

Lemma be_bytes_bounds n z : Forall (λ b, 0 ≤ b < 256) (be_bytes n z).
Proof.
  induction n as [|n IH]; simpl; constructor; [|done].
  change 255 with (Z.ones 8). rewrite Z.land_ones by lia. by apply Z.mod_pos_bound.
Qed.

Lemma length_be_bytes n z : length (be_bytes n z) = n.
Proof. induction n as [|n IH]; simpl; [done|]. by rewrite IH. Qed.

Lemma length_Sum256 s : length (Sum256 s) = 32%nat.
Proof. unfold Sum256. rewrite !length_app, !length_be_bytes. done. Qed.

Lemma Sum256_bounds s : Forall (λ b, 0 ≤ b < 256) (Sum256 s).
Proof. unfold Sum256. repeat (apply Forall_app; split); apply be_bytes_bounds. Qed.
