(* ===== verification/GoTime.v ===== *)
(** * Instants and RFC 3339 (package time, as hfmount.go uses it)

    An instant is a number of nanoseconds since the Unix epoch, in UTC.  The
    driver writes [time.Now().UTC().Format(time.RFC3339)] into the HFMount
    object and reads it back with [time.Parse]. *)
From S2P Require Import Prelude GoStrings.
From Stdlib Require Import Ascii.

Local Open Scope Z_scope.

Definition second : Z := 10^9.
Definition minute : Z := 60 * second.
Definition millisecond : Z := 10^6.

(** ** The Gregorian calendar

    Years start in March and are counted in cycles of 400 years, so that the day
    a leap year adds is the last one. *)
Definition days_from_civil (y m d : Z) : Z :=
  let y' := if m <=? 2 then y - 1 else y in
  let yoe := y' `mod` 400 in
  let doy := (153 * (if 2 <? m then m - 3 else m + 9) + 2) / 5 + d - 1 in
  (y' / 400) * 146097 + (yoe * 365 + yoe / 4 - yoe / 100 + doy) - 719468.

(** Year of the cycle and day of the year, of day [doe] of a 400-year cycle: the
    last century and the last year of four are one day longer. *)
Definition year_of_doe (doe : Z) : Z * Z :=
  let n100 := Z.min 3 (doe / 36524) in
  let r := doe - n100 * 36524 in
  let n1 := Z.min 3 (r `mod` 1461 / 365) in
  (100 * n100 + 4 * (r / 1461) + n1, r `mod` 1461 - n1 * 365).

(** Month and day of the month, of day [doy] of a year starting in March. *)
Definition month_of_doy (doy : Z) : Z * Z :=
  let mp := (5 * doy + 2) / 153 in
  (if mp <? 10 then mp + 3 else mp - 9, doy - (153 * mp + 2) / 5 + 1).

Definition civil_of_doe (doe : Z) : Z * Z * Z :=
  let '(yoe, doy) := year_of_doe doe in
  let '(m, d) := month_of_doy doy in
  (if m <=? 2 then yoe + 1 else yoe, m, d).

Definition civil_from_days (z : Z) : Z * Z * Z :=
  let z' := z + 719468 in
  let '(y, m, d) := civil_of_doe (z' `mod` 146097) in
  (y + (z' / 146097) * 400, m, d).

Definition is_leap (y : Z) : bool :=
  (y `mod` 4 =? 0) && (negb (y `mod` 100 =? 0) || (y `mod` 400 =? 0)).

Definition daysIn (m y : Z) : Z :=
  if m =? 2 then (if is_leap y then 29 else 28)
  else if (m =? 4) || (m =? 6) || (m =? 9) || (m =? 11) then 30 else 31.

(** [time.Date(year, month, day, hour, min, sec, 0, UTC)], in seconds. *)
Definition Date (year month day hour min_ sec : Z) : Z :=
  days_from_civil year month day * 86400 + hour * 3600 + min_ * 60 + sec.

(** ** Formatting *)

Definition digit_char (n : Z) : ascii := chr (48 + n `mod` 10).
Definition pad2 (n : Z) (rest : string) : string :=
  String (digit_char (n / 10)) (String (digit_char n) rest).
Definition pad4 (n : Z) (rest : string) : string := pad2 (n / 100) (pad2 (n `mod` 100) rest).

(** [t.UTC().Format(time.RFC3339)], for years 0 to 9999. *)
Definition FormatRFC3339 (t : Z) : string :=
  let secs := t / second in
  let '(y, m, d) := civil_from_days (secs / 86400) in
  let s := secs `mod` 86400 in
  pad4 y (String "-" (pad2 m (String "-" (pad2 d (String "T"
    (pad2 (s / 3600) (String ":" (pad2 ((s / 60) `mod` 60) (String ":" (pad2 (s `mod` 60) "Z")))))))))).

(** ** Parsing *)

(** [parseUint] of format_rfc3339.go on [s[i:i+n]]. *)
Fixpoint parse_uint (n : nat) (s : string) (acc : Z) : option Z :=
  match n, s with
  | O, _ => Some acc
  | S n', String c s' => if is_digit c then parse_uint n' s' (10 * acc + (byte c - 48)) else None
  | S _, EmptyString => None
  end.

Definition parse_field (s : string) (i n : nat) (lo hi : Z) : option Z :=
  x ← parse_uint n (s_drop i s) 0; if (lo <=? x) && (x <=? hi) then Some x else None.

Definition is_at (s : string) (i : nat) (c : ascii) : bool :=
  match s_drop i s with String d _ => Ascii.eqb c d | EmptyString => false end.

Fixpoint digit_run (s : string) : string :=
  match s with
  | String c s' => if is_digit c then String c (digit_run s') else ""
  | EmptyString => ""
  end.

(** [parseNanoseconds]: the first nine digits of the fraction. *)
Definition nanoseconds (ds : string) : Z :=
  let ds := s_take 9 ds in
  match parse_uint (String.length ds) ds 0 with
  | Some x => x * 10^(9 - Z.of_nat (String.length ds))
  | None => 0
  end.

Definition parse_zone (s : string) : option Z :=
  if String.eqb s "Z" then Some 0
  else if (String.length s =? 6)%nat && (is_at s 0 "-" || is_at s 0 "+") && is_at s 3 ":" then
    hr ← parse_field s 1 2 0 23;
    mm ← parse_field s 4 2 0 59;
    let off := (hr * 60 + mm) * 60 in
    Some (if is_at s 0 "-" then - off else off)
  else None.

(** [parseRFC3339], the strict parser [time.Parse] tries first. *)
Definition parseRFC3339 (s : string) : option Z :=
  if (String.length s <? 19)%nat then None else
  year ← parse_field s 0 4 0 9999;
  month ← parse_field s 5 2 1 12;
  day ← parse_field s 8 2 1 (daysIn month year);
  hour ← parse_field s 11 2 0 23;
  min_ ← parse_field s 14 2 0 59;
  sec ← parse_field s 17 2 0 59;
  if negb (is_at s 4 "-" && is_at s 7 "-" && is_at s 10 "T" && is_at s 13 ":" && is_at s 16 ":")
  then None else
  let rest := s_drop 19 s in
  let frac := if is_at rest 0 "." then digit_run (s_drop 1 rest) else "" in
  let rest := if String.eqb frac "" then rest else s_drop (S (String.length frac)) rest in
  off ← parse_zone rest;
  Some ((Date year month day hour min_ sec - off) * second + nanoseconds frac).

(** The general parser [time.Parse] falls back on. It never runs on a string the
    driver wrote. *)
Class TimeLib := parse_general : string → option Z.

(** The zero [time.Time]: January 1 of year 1, UTC. It is also what [Parse]
    returns next to an error. *)
Definition zero_time : Z := -62135596800 * second.
Definition IsZero (t : Z) : bool := t =? zero_time.

Definition ParseRFC3339 `{TimeLib} (s : string) : Z :=
  match parseRFC3339 s with
  | Some t => t
  | None => default zero_time (parse_general s)
  end.

(** [t.Sub(u)]: saturates at the bounds of a [time.Duration]. *)
Definition Sub (t u : Z) : Z := Z.max (-(2^63)) (Z.min (2^63 - 1) (t - u)).

(** ** Facts: the calendar *)

(** What has to hold of every day of a year. *)
Definition doy_ok (doy : Z) : bool :=
  let '(m, d) := month_of_doy doy in
  ((153 * (if 2 <? m then m - 3 else m + 9) + 2) / 5 + d - 1 =? doy) &&
  (1 <=? m) && (m <=? 12) && (1 <=? d) &&
  (if m =? 2 then (d <=? 28) || ((doy =? 365) && (d =? 29)) else d <=? daysIn m 0).

Fixpoint all_below (n : nat) (p : Z → bool) (z : Z) : bool :=
  match n with O => true | S n' => p z && all_below n' p (z + 1) end.

Lemma all_below_spec n p z x : all_below n p z = true → z ≤ x < z + Z.of_nat n → p x = true.
Proof.
  revert z. induction n as [|n IH]; intros z; simpl; [lia|].
  intros [Hz Hn]%andb_true_iff Hx. destruct (decide (x = z)) as [->|]; [done|].
  apply (IH _ Hn). lia.
Qed.

Lemma all_doys_ok doy : 0 ≤ doy ≤ 365 → doy_ok doy = true.
Proof.
  intros Hd. assert (all_below 366 doy_ok 0 = true) as Ha by (vm_compute; reflexivity).
  apply (all_below_spec _ _ _ doy Ha). lia.
Qed.

Lemma year_of_doe_spec doe :
  0 ≤ doe < 146097 →
  let '(yoe, doy) := year_of_doe doe in
  0 ≤ yoe < 400 ∧ 0 ≤ doy ≤ 365 ∧ doe = yoe * 365 + yoe / 4 - yoe / 100 + doy ∧
  (doy = 365 → is_leap (yoe + 1) = true).
Proof.
  intros Hd. unfold year_of_doe. set (n100 := Z.min 3 (doe / 36524)). set (r := doe - n100 * 36524).
  pose proof (Z.div_mod doe 36524 ltac:(lia)). pose proof (Z.mod_pos_bound doe 36524 ltac:(lia)).
  assert (0 ≤ n100 ≤ 3 ∧ 0 ≤ r ≤ 36524 ∧ (n100 < 3 → r < 36524)) as (Hn100 & Hr & Hr') by lia.
  pose proof (Z.div_mod r 1461 ltac:(lia)). pose proof (Z.mod_pos_bound r 1461 ltac:(lia)).
  set (n4 := r / 1461) in *. set (q := r `mod` 1461) in *. set (n1 := Z.min 3 (q / 365)).
  pose proof (Z.div_mod q 365 ltac:(lia)). pose proof (Z.mod_pos_bound q 365 ltac:(lia)).
  assert (0 ≤ n4 ≤ 24 ∧ 0 ≤ n1 ≤ 3 ∧ 0 ≤ q - n1 * 365 ≤ 365) as (Hn4 & Hn1 & Hdoy) by lia.
  assert ((100 * n100 + 4 * n4 + n1) / 4 = 25 * n100 + n4) as -> by (Z.to_euclidean_division_equations; lia).
  assert ((100 * n100 + 4 * n4 + n1) / 100 = n100) as -> by (Z.to_euclidean_division_equations; lia).
  split_and!; [lia..|]. intros E. assert (n1 = 3 ∧ (n4 = 24 → n100 = 3)) as [-> Hlast] by lia.
  unfold is_leap.
  replace (100 * n100 + 4 * n4 + 3 + 1) with ((25 * n100 + n4 + 1) * 4) by lia. rewrite Z.mod_mul by lia.
  simpl. destruct (decide (n4 = 24)) as [E4|].
  - apply orb_true_iff. right. rewrite E4, (Hlast E4). done.
  - apply orb_true_iff. left. apply negb_true_iff, Z.eqb_neq.
    replace ((25 * n100 + n4 + 1) * 4) with (4 * n4 + 4 + n100 * 100) by lia.
    rewrite Z.mod_add, Z.mod_small by lia. lia.
Qed.

Lemma civil_of_doe_spec doe :
  0 ≤ doe < 146097 →
  let '(y, m, d) := civil_of_doe doe in
  days_from_civil y m d = doe - 719468 ∧ 1 ≤ m ≤ 12 ∧ 1 ≤ d ≤ daysIn m y.
Proof.
  intros Hd. unfold civil_of_doe. pose proof (year_of_doe_spec doe Hd) as Hy.
  destruct (year_of_doe doe) as [yoe doy]. destruct Hy as (Hyoe & Hdoy & Hdoe & Hleap).
  pose proof (all_doys_ok doy Hdoy) as Hok. unfold doy_ok in Hok.
  destruct (month_of_doy doy) as [m d].
  rewrite !andb_true_iff, Z.eqb_eq, !Z.leb_le in Hok. destruct Hok as ((((H1 & H2) & H3) & H4) & H5).
  split_and!; [|lia..|].
  - unfold days_from_civil.
    replace (if m <=? 2 then (if m <=? 2 then yoe + 1 else yoe) - 1 else (if m <=? 2 then yoe + 1 else yoe))
      with yoe by (destruct (m <=? 2); lia).
    rewrite (Z.div_small yoe), (Z.mod_small yoe) by lia. lia.
  - destruct (Z.eqb_spec m 2) as [->|Hm].
    + unfold daysIn. simpl. apply orb_true_iff in H5 as [H5%Z.leb_le|[H5 H6]%andb_true_iff].
      * destruct (is_leap _); lia.
      * apply Z.eqb_eq in H5, H6. rewrite Hleap by done. lia.
    + unfold daysIn in *. rewrite (proj2 (Z.eqb_neq m 2)) in * by done. lia.
Qed.

Lemma days_from_civil_shift y m d k :
  days_from_civil (y + k * 400) m d = days_from_civil y m d + k * 146097.
Proof.
  unfold days_from_civil.
  replace (if m <=? 2 then y + k * 400 - 1 else y + k * 400)
    with ((if m <=? 2 then y - 1 else y) + k * 400) by (destruct (m <=? 2); lia).
  rewrite Z.div_add, Z.mod_add by lia. lia.
Qed.

Lemma daysIn_shift m y k : daysIn m (y + k * 400) = daysIn m y.
Proof.
  unfold daysIn, is_leap.
  replace ((y + k * 400) `mod` 4) with (y `mod` 4).
  2: { replace (y + k * 400) with (y + (k * 100) * 4) by lia. by rewrite Z.mod_add by lia. }
  replace ((y + k * 400) `mod` 100) with (y `mod` 100).
  2: { replace (y + k * 400) with (y + (k * 4) * 100) by lia. by rewrite Z.mod_add by lia. }
  by rewrite Z.mod_add by lia.
Qed.

Lemma civil_from_days_spec z :
  let '(y, m, d) := civil_from_days z in
  days_from_civil y m d = z ∧ 1 ≤ m ≤ 12 ∧ 1 ≤ d ≤ daysIn m y.
Proof.
  unfold civil_from_days. pose proof (Z.mod_pos_bound (z + 719468) 146097 ltac:(lia)) as Hb.
  pose proof (civil_of_doe_spec _ Hb) as Hok. destruct (civil_of_doe _) as [[y m] d].
  destruct Hok as (H1 & H2 & H3).
  rewrite days_from_civil_shift, daysIn_shift, H1. split_and!; try lia.
  pose proof (Z.div_mod (z + 719468) 146097). lia.
Qed.

(** The year of the days from 1970-01-01 to 9999-12-31. *)
Lemma civil_from_days_year z :
  0 ≤ z < 2932897 → let '(y, _, _) := civil_from_days z in 1970 ≤ y ≤ 9999.
Proof.
  intros Hz. pose proof (civil_from_days_spec z) as Hc.
  destruct (civil_from_days z) as [[y m] d]. destruct Hc as (Hd & Hm & Hday).
  assert (if 2 <? m then 0 ≤ (153 * (if 2 <? m then m - 3 else m + 9) + 2) / 5 + d - 1 ≤ 305
          else 306 ≤ (153 * (if 2 <? m then m - 3 else m + 9) + 2) / 5 + d - 1 ≤ 365) as Hr.
  { assert (m = 1 ∨ m = 2 ∨ m = 3 ∨ m = 4 ∨ m = 5 ∨ m = 6 ∨ m = 7 ∨ m = 8 ∨ m = 9 ∨ m = 10 ∨ m = 11 ∨ m = 12)
      as Hcase by lia. destruct (is_leap y) eqn:El; unfold daysIn in Hday; rewrite El in Hday;
    destruct_or! Hcase; subst m; simpl in Hday; simpl;
      match goal with |- context [(?a / 5)] => let v := eval vm_compute in (a / 5) in change (a / 5) with v end; lia. }
  unfold days_from_civil in Hd.
  set (doy := (153 * (if 2 <? m then m - 3 else m + 9) + 2) / 5 + d - 1) in *. clearbody doy.
  destruct (Z.ltb_spec 2 m), (Z.leb_spec m 2); try lia; Z.to_euclidean_division_equations; lia.
Qed.

(** ** Facts: round trip *)

Lemma parse_uint_digit n k s acc :
  parse_uint (S k) (String (digit_char n) s) acc = parse_uint k s (10 * acc + n `mod` 10).
Proof.
  pose proof (Z.mod_pos_bound n 10 ltac:(lia)) as Hn.
  destruct (digit_ok (n `mod` 10) ltac:(lia)) as [Hd Hv]. unfold digit_val in Hv.
  cbn [parse_uint]. unfold digit_char. rewrite Hd. f_equal. lia.
Qed.

Lemma parse_pad2 n s : 0 ≤ n < 100 → parse_uint 2 (pad2 n s) 0 = Some n.
Proof.
  intros Hn. unfold pad2. rewrite !parse_uint_digit. cbn [parse_uint]. f_equal.
  rewrite (Z.mod_small (n / 10)) by (split; [apply Z.div_pos|apply Z.div_lt_upper_bound]; lia).
  pose proof (Z.div_mod n 10). lia.
Qed.

Lemma parse_pad4 n s : 0 ≤ n < 10000 → parse_uint 4 (pad4 n s) 0 = Some n.
Proof.
  intros Hn. unfold pad4, pad2. rewrite !parse_uint_digit. cbn [parse_uint]. f_equal.
  pose proof (Z.div_mod n 100 ltac:(lia)) as H1.
  pose proof (Z.div_mod (n / 100) 10 ltac:(lia)) as H2.
  pose proof (Z.div_mod (n `mod` 100) 10 ltac:(lia)) as H3.
  assert (0 ≤ n / 100 < 100) by (split; [apply Z.div_pos|apply Z.div_lt_upper_bound]; lia).
  assert (0 ≤ n `mod` 100 < 100) by (apply Z.mod_pos_bound; lia).
  rewrite (Z.mod_small (n / 100 / 10)), (Z.mod_small (n `mod` 100 / 10));
    [lia|split; [apply Z.div_pos|apply Z.div_lt_upper_bound]; lia..].
Qed.

Lemma parse_field_ok s i n lo hi x :
  parse_uint n (s_drop i s) 0 = Some x → lo ≤ x ≤ hi → parse_field s i n lo hi = Some x.
Proof.
  intros E [H1 H2]. unfold parse_field. rewrite E. simpl.
  by rewrite (proj2 (Z.leb_le _ _) H1), (proj2 (Z.leb_le _ _) H2).
Qed.

Lemma parse_field_pad2 s i x lo hi rest :
  s_drop i s = pad2 x rest → 0 ≤ x < 100 → lo ≤ x ≤ hi → parse_field s i 2 lo hi = Some x.
Proof. intros E Hx. apply parse_field_ok. rewrite E. by apply parse_pad2. Qed.

Lemma parse_field_pad4 s i x lo hi rest :
  s_drop i s = pad4 x rest → 0 ≤ x < 10000 → lo ≤ x ≤ hi → parse_field s i 4 lo hi = Some x.
Proof. intros E Hx. apply parse_field_ok. rewrite E. by apply parse_pad4. Qed.

Lemma parse_format t :
  (let '(y, _, _) := civil_from_days (t / second / 86400) in 0 ≤ y ≤ 9999) →
  parseRFC3339 (FormatRFC3339 t) = Some (t / second * second).
Proof.
  unfold FormatRFC3339. set (secs := t / second).
  pose proof (civil_from_days_spec (secs / 86400)) as Hc.
  destruct (civil_from_days (secs / 86400)) as [[y m] d].
  destruct Hc as (Hdays & Hm & Hd). intros Hy.
  pose proof (Z.mod_pos_bound secs 86400 ltac:(lia)) as Hs. set (s := secs `mod` 86400) in *.
  pose proof (Z.div_mod secs 86400 ltac:(lia)) as Hsecs. fold s in Hsecs.
  assert (0 ≤ s / 3600 < 24) as Hh by (split; [apply Z.div_pos|apply Z.div_lt_upper_bound]; lia).
  pose proof (Z.mod_pos_bound (s / 60) 60 ltac:(lia)) as Hmin.
  pose proof (Z.mod_pos_bound s 60 ltac:(lia)) as Hsec.
  assert (s = s / 3600 * 3600 + (s / 60) `mod` 60 * 60 + s `mod` 60) as Hsum.
  { pose proof (Z.div_mod s 60 ltac:(lia)). pose proof (Z.div_mod (s / 60) 60 ltac:(lia)).
    rewrite Z.div_div in * by lia. change (60 * 60) with 3600 in *. lia. }
  assert (daysIn m y ≤ 31) by (unfold daysIn; repeat case_match; lia).
  set (str := pad4 y _).
  unfold parseRFC3339. change (String.length str <? 19)%nat with false. cbv iota.
  rewrite (parse_field_pad4 str 0 y 0 9999 _ eq_refl) by lia. simpl.
  rewrite (parse_field_pad2 str 5 m 1 12 _ eq_refl) by lia. simpl.
  rewrite (parse_field_pad2 str 8 d 1 (daysIn m y) _ eq_refl) by lia. simpl.
  rewrite (parse_field_pad2 str 11 (s / 3600) 0 23 _ eq_refl) by lia. simpl.
  rewrite (parse_field_pad2 str 14 ((s / 60) `mod` 60) 0 59 _ eq_refl) by lia. simpl.
  rewrite (parse_field_pad2 str 17 (s `mod` 60) 0 59 _ eq_refl) by lia.
  change (s_drop 19 str) with "Z"%string. simpl. f_equal. unfold Date. rewrite Hdays.
  change (nanoseconds "") with 0. lia.
Qed.

(** The instants from 1970 to 9999. *)
Definition in_years (t : Z) : Prop := 0 ≤ t < 253402300800 * second.

Lemma parse_format_years t :
  in_years t → parseRFC3339 (FormatRFC3339 t) = Some (t / second * second).
Proof.
  unfold in_years, second. intros Ht. apply parse_format. unfold second.
  pose proof (civil_from_days_year (t / 10^9 / 86400)) as Hy.
  destruct (civil_from_days _) as [[y m] d]. enough (1970 ≤ y ≤ 9999) by lia. apply Hy.
  Z.to_euclidean_division_equations; lia.
Qed.

(** The time stamp of an attachment reads back as the instant it was written,
    to the second: [Format] and the strict parser [Parse] tries first agree on
    every instant from 1970 to 9999, leap days included. *)
Theorem rfc3339_roundtrip `{TimeLib} t :
  in_years t → ParseRFC3339 (FormatRFC3339 t) = t / second * second.
Proof. intros Ht. unfold ParseRFC3339. by rewrite parse_format_years. Qed.

Example rfc3339_roundtrip_witness :
  FormatRFC3339 1709210096000000005 = "2024-02-29T12:34:56Z"%string ∧
  @ParseRFC3339 (λ _, None) "2024-02-29T12:34:56Z" = 1709210096000000000.
Proof.
  split; [vm_compute; reflexivity|].
  apply (@rfc3339_roundtrip (λ _, None) 1709210096000000005).
  unfold in_years, second. lia.
Defined.
