(* ===== verification/GoErrors.v ===== *)
(** * Go errors

    The error values the driver creates, inspects and returns, and the
    predicates of [errors], [os] and [k8s.io/apimachinery/pkg/api/errors] it
    applies to them.  A nil error is [None : option gerror]. *)
From S2P Require Import Prelude GoStrings.
#[local] Set Warnings "-register-all".

Local Open Scope Z_scope.

(** ** Values *)

(** Reasons of an API server status the driver distinguishes. *)
Inductive api_reason := NotFound | AlreadyExists | Conflict | OtherReason (reason : string).

(** gRPC codes the driver returns. *)
Inductive grpc_code := InvalidArgument | Internal | Unimplemented.

Inductive gerror :=
| Errno (n : Z)                                   (* syscall.Errno, bare or in an os.PathError *)
| ApiStatus (r : api_reason)                      (* a StatusError of the API server *)
| CtxErr                                          (* the error of a finished context *)
| errWaitTimeout                                  (* the sentinel of podmounter.go *)
| OtherErr (msg : string)                         (* any other error of a callee *)
| Errorf (fmt : string) (args : list string) (wrapped : list gerror)
                                                  (* fmt.Errorf; [wrapped]: the %w operands *)
| GrpcStatus (code : grpc_code) (fmt : string) (cause : option gerror).
                                                  (* status.Error and status.Errorf *)

#[export] Instance api_reason_eq_dec : EqDecision api_reason.
Proof. solve_decision. Defined.
#[export] Instance grpc_code_eq_dec : EqDecision grpc_code.
Proof. solve_decision. Defined.

(** ** Linux errno values *)

Definition ENOENT : Z := 2.
Definition EIO : Z := 5.
Definition EACCES : Z := 13.
Definition EBUSY : Z := 16.
Definition EEXIST : Z := 17.
Definition EINVAL : Z := 22.
Definition ENOTEMPTY : Z := 39.
Definition ENOTCONN : Z := 107.

(** ** Predicates *)

(** [errors.Is]: does [p] hold of the error or of one it wraps? *)
Fixpoint err_is (p : gerror → bool) (e : gerror) : bool :=
  p e || match e with Errorf _ _ ws => existsb (err_is p) ws | _ => false end.

Definition is_errno (n : Z) (e : gerror) : bool :=
  match e with Errno m => m =? n | _ => false end.

(** [os.IsNotExist] and [os.IsExist] look at the error itself, not at wrapped
    ones; [syscall.Errno.Is] makes [ENOTEMPTY] an "exists" error too. *)
Definition IsNotExist (e : gerror) : bool := is_errno ENOENT e.
Definition IsExist (e : gerror) : bool := is_errno EEXIST e || is_errno ENOTEMPTY e.

(** [errors.Is(err, errno)] and [errors.Is(err, os.ErrNotExist)]. *)
Definition IsErrno (n : Z) (e : gerror) : bool := err_is (is_errno n) e.

Definition IsWaitTimeout (e : gerror) : bool :=
  err_is (λ e, match e with errWaitTimeout => true | _ => false end) e.

Definition has_reason (r : api_reason) (e : gerror) : bool :=
  err_is (λ e, match e with ApiStatus r' => bool_decide (r' = r) | _ => false end) e.

(** [apierrors.IsNotFound] and its siblings, false on a nil error. *)
Definition IsNotFound (e : option gerror) : bool :=
  match e with Some e => has_reason NotFound e | None => false end.
Definition IsAlreadyExists (e : option gerror) : bool :=
  match e with Some e => has_reason AlreadyExists e | None => false end.
Definition IsConflict (e : option gerror) : bool :=
  match e with Some e => has_reason Conflict e | None => false end.

(** A value or an error: Go's [(T, error)] with the value unused on error. *)
Inductive result (A : Type) := Ok (a : A) | Err (e : gerror).
Arguments Ok {A} a.
Arguments Err {A} e.

Definition err_of {A} (r : result A) : option gerror :=
  match r with Ok _ => None | Err e => Some e end.

#[export] Instance Ok_inj A : Inj (=) (=) (@Ok A).
Proof. by intros x y [= ->]. Qed.
