(* ===== verification/Json.v ===== *)
(** * JSON objects of strings

    [json.Marshal] of Go's encoding/json on a [map[string]string], and a decoder
    of such objects, which stands for the reader of the file ([json.Unmarshal] in
    kubelet).  [unmarshal_marshal]: what is decoded is what was encoded, for
    ASCII keys and values. *)
From S2P Require Import Prelude GoStrings.
From Stdlib Require Import Ascii.

Local Open Scope Z_scope.

Definition dquote : ascii := chr 34.
Definition backslash : ascii := chr 92.

(** ** Encoding *)

(** Bytes below 128 that are written as they are; [<], [>] and [&] are not. *)
Definition json_safe (c : ascii) : bool :=
  (32 <=? byte c) && negb (existsb (Z.eqb (byte c)) [34; 92; 60; 62; 38]).

Definition json_byte (c : ascii) : string :=
  if json_safe c then str1 c
  else String backslash
    match byte c with
    | 34 => str1 dquote
    | 92 => str1 backslash
    | 8 => "b"
    | 12 => "f"
    | 10 => "n"
    | 13 => "r"
    | 9 => "t"
    | z => "u00" +++ hex_byte z
    end.

(** The rest of a rune of several bytes is copied ([keep]) or was replaced. *)
Fixpoint json_go (keep : bool) (skip : nat) (s : string) : string :=
  match s with
  | EmptyString => ""
  | String c s' =>
      match skip with
      | S k => if keep then String c (json_go keep k s') else json_go keep k s'
      | O =>
          if is_ascii c then json_byte c +++ json_go true 0 s'
          else match rune_width s with
               | S (S k) =>
                   if (byte c =? 226) && (byte_at s 1 =? 128) &&
                      ((byte_at s 2 =? 168) || (byte_at s 2 =? 169))
                   then String backslash ("u202" +++ str1 (hex_digit (byte_at s 2 - 160)))
                        +++ json_go false (S k) s'
                   else String c (json_go true (S k) s')
               | _ => String backslash "ufffd" +++ json_go true 0 s'
               end
      end
  end.

Definition json_string (s : string) : string :=
  String dquote (json_go true 0 s) +++ str1 dquote.

Definition json_member (kv : string * string) : string :=
  json_string kv.1 +++ ":" +++ json_string kv.2.

Definition json_object (kvs : list (string * string)) : string :=
  "{" +++ Join (json_member <$> kvs) "," +++ "}".

(** Keys are written in increasing order. *)
Fixpoint insert_key (kv : string * string) (kvs : list (string * string)) : list (string * string) :=
  match kvs with
  | [] => [kv]
  | kv' :: kvs' => if String.leb kv.1 kv'.1 then kv :: kvs else kv' :: insert_key kv kvs'
  end.

Definition sort_keys (kvs : list (string * string)) : list (string * string) :=
  foldr insert_key [] kvs.

(** [json.Marshal] of a map given by its entries. *)
Definition marshal_map (kvs : list (string * string)) : string := json_object (sort_keys kvs).

(** ** Decoding *)

Definition hex_val (c : ascii) : option Z :=
  let b := byte c in
  if in_range 48 57 b then Some (b - 48)
  else if in_range 97 102 b then Some (b - 87)
  else if in_range 65 70 b then Some (b - 55)
  else None.

(** UTF-8 of a code point of the basic plane. *)
Definition encode_rune (z : Z) : string :=
  if z <? 128 then str1 (chr z)
  else if z <? 2048 then String (chr (192 + z / 64)) (str1 (chr (128 + z `mod` 64)))
  else String (chr (224 + z / 4096)) (String (chr (128 + z / 64 `mod` 64)) (str1 (chr (128 + z `mod` 64)))).

Definition simple_escape (c : ascii) : option ascii :=
  match byte c with
  | 34 => Some dquote
  | 92 => Some backslash
  | 47 => Some "/"%char
  | 98 => Some (chr 8)
  | 102 => Some (chr 12)
  | 110 => Some (chr 10)
  | 114 => Some (chr 13)
  | 116 => Some (chr 9)
  | _ => None
  end.

Definition cons_to (u : string) (r : option (string * string)) : option (string * string) :=
  match r with Some (s, rest) => Some (u +++ s, rest) | None => None end.

(** The contents of a string literal after its opening quote, and what follows. *)
Fixpoint unquote (s : string) : option (string * string) :=
  match s with
  | EmptyString => None
  | String c s1 =>
      if Ascii.eqb c dquote then Some (""%string, s1)
      else if Ascii.eqb c backslash then
        match s1 with
        | String e s2 =>
            if Ascii.eqb e "u" then
              match s2 with
              | String a (String b (String d (String f s3))) =>
                  match hex_val a, hex_val b, hex_val d, hex_val f with
                  | Some a, Some b, Some d, Some f =>
                      cons_to (encode_rune (((a * 16 + b) * 16 + d) * 16 + f)) (unquote s3)
                  | _, _, _, _ => None
                  end
              | _ => None
              end
            else match simple_escape e with
                 | Some x => cons_to (str1 x) (unquote s2)
                 | None => None
                 end
        | EmptyString => None
        end
      else if byte c <? 32 then None
      else cons_to (str1 c) (unquote s1)
  end.

Definition parse_literal (s : string) : option (string * string) :=
  match s with
  | String c s' => if Ascii.eqb c dquote then unquote s' else None
  | EmptyString => None
  end.

(** Members up to the closing brace, which must end the text. *)
Fixpoint parse_members (fuel : nat) (s : string) : option (list (string * string)) :=
  match fuel with
  | O => None
  | S fuel' =>
      '(k, s1) ← parse_literal s;
      s2 ← CutPrefix s1 ":";
      '(v, s3) ← parse_literal s2;
      if String.eqb s3 "}" then Some [(k, v)]
      else s4 ← CutPrefix s3 ",";
           rest ← parse_members fuel' s4;
           Some ((k, v) :: rest)
  end.

Definition unmarshal_map (s : string) : option (list (string * string)) :=
  if String.eqb s "{}" then Some []
  else s' ← CutPrefix s "{"; parse_members (String.length s') s'.

(** ** Facts *)

Lemma unquote_byte c t :
  is_ascii c = true → unquote (json_byte c +++ t) = cons_to (str1 c) (unquote t).
Proof. by destruct c as [[] [] [] [] [] [] [] []]; intros H; try discriminate H. Qed.

Lemma unquote_ascii s t :
  str_all is_ascii s = true →
  unquote (json_go true 0 s +++ String dquote t) = Some (s, t).
Proof.
  induction s as [|c s IH]; intros Hs; [done|]. cbn [str_all] in Hs.
  apply andb_true_iff in Hs as [Hc Hs]. cbn [json_go]. rewrite Hc, sapp_assoc, unquote_byte by done.
  by rewrite IH.
Qed.

Lemma parse_string s t :
  str_all is_ascii s = true → parse_literal (json_string s +++ t) = Some (s, t).
Proof.
  intros Hs. unfold json_string. rewrite !sapp_cons. unfold parse_literal.
  change (Ascii.eqb dquote dquote) with true. cbv iota.
  rewrite sapp_assoc. by apply (unquote_ascii s t).
Qed.

Definition ascii_member (kv : string * string) : Prop :=
  str_all is_ascii kv.1 = true ∧ str_all is_ascii kv.2 = true.

Lemma parse_members_object n kv kvs :
  (length kvs < n)%nat → Forall ascii_member (kv :: kvs) →
  parse_members n (Join (json_member <$> (kv :: kvs)) "," +++ "}") = Some (kv :: kvs).
Proof.
  revert n kv. induction kvs as [|kv' kvs IH]; intros n [k v] Hn Hf; (destruct n as [|n]; [simpl in Hn; lia|]);
    inversion Hf as [|? ? [Hk Hv] Hf']; subst; cbn [parse_members].
  - cbn [fmap list_fmap Join]. unfold json_member. cbn [fst snd]. rewrite !sapp_assoc, parse_string by done.
    cbn [mbind option_bind]. rewrite (CutPrefix_app ":"). cbn [mbind option_bind].
    by rewrite parse_string.
  - change (Join (json_member <$> (k, v) :: kv' :: kvs) ",")
      with (json_member (k, v) +++ "," +++ Join (json_member <$> kv' :: kvs) ",").
    unfold json_member at 1. cbn [fst snd]. rewrite !sapp_assoc, parse_string by done.
    cbn [mbind option_bind]. rewrite (CutPrefix_app ":"). cbn [mbind option_bind].
    rewrite parse_string by done. cbn [mbind option_bind].
    change (String.eqb ("," +++ _) "}") with false. cbv iota. rewrite (CutPrefix_app ",").
    cbn [mbind option_bind]. rewrite IH; [done|simpl in Hn; lia|done].
Qed.

Lemma unmarshal_object kv kvs :
  Forall ascii_member (kv :: kvs) → unmarshal_map (json_object (kv :: kvs)) = Some (kv :: kvs).
Proof.
  intros Hf. unfold unmarshal_map, json_object. set (j := Join _ ",").
  assert (Hl : (length kvs < String.length (j +++ "}"))%nat).
  { subst j. clear Hf. revert kv. induction kvs as [|kv' kvs IH]; intros kv.
    - simpl. lia.
    - change (Join (json_member <$> kv :: kv' :: kvs) ",")
        with (json_member kv +++ "," +++ Join (json_member <$> kv' :: kvs) ",").
      specialize (IH kv'). rewrite !sapp_assoc, !slength_app in *. simpl in *. lia. }
  assert (String.eqb ("{" +++ j +++ "}") "{}" = false) as ->.
  { apply String.eqb_neq. intros E. injection E as E. subst j. destruct kv as [k v]. cbn in E.
    destruct kvs; discriminate E. }
  rewrite (CutPrefix_app "{"). cbn [mbind option_bind]. by apply parse_members_object.
Qed.

Lemma insert_key_perm kv kvs : insert_key kv kvs ≡ₚ kv :: kvs.
Proof.
  induction kvs as [|kv' kvs IH]; simpl; [done|]. case_match; [done|]. rewrite IH. apply perm_swap.
Qed.

Lemma sort_keys_perm kvs : sort_keys kvs ≡ₚ kvs.
Proof. induction kvs as [|kv kvs IH]; simpl; [done|]. by rewrite insert_key_perm, IH. Qed.

(** What is decoded is what was encoded, in the order of the keys. *)
Lemma unmarshal_marshal kvs :
  Forall ascii_member kvs → unmarshal_map (marshal_map kvs) = Some (sort_keys kvs).
Proof.
  intros Hf. unfold marshal_map. rewrite <-sort_keys_perm in Hf.
  destruct (sort_keys kvs) as [|kv kvs']; [done|]. by apply unmarshal_object.
Qed.
