(* ===== verification/Url.v ===== *)
(** * package net/url

    [url.Parse] as far as the driver reads its result: scheme, host and path.
    Authorities with user information or a bracketed address are left to a
    parameter; no endpoint of the driver has one. *)
From S2P Require Import Prelude GoStrings GoErrors.
From Stdlib Require Import Ascii.

Local Open Scope Z_scope.

Record URL := { Scheme : string; Host : string; Path : string }.

(** The host of an authority containing an at sign or an opening bracket. *)
Class AuthorityLib := parse_special_authority : string → result string.

Definition url_error (msg : string) : gerror := Errorf msg [] [].

(** ** Percent escapes *)

Inductive escape_mode := encodePath | encodeHost | encodeFragment.

Definition unhex (c : ascii) : option Z :=
  let b := byte c in
  if in_range 48 57 b then Some (b - 48)
  else if in_range 97 102 b then Some (b - 87)
  else if in_range 65 70 b then Some (b - 55)
  else None.

(** ASCII bytes a host may contain unescaped. *)
Definition host_byte (c : ascii) : bool :=
  is_alnum c ||
  existsb (Z.eqb (byte c)) [33; 36; 38; 39; 40; 41; 42; 43; 44; 59; 61; 58; 91; 93; 60; 62; 34;
                            45; 95; 46; 126].

Definition is_host (mode : escape_mode) : bool := match mode with encodeHost => true | _ => false end.

(** In a host only bytes that are not ASCII, and the per cent sign, may be escaped. *)
Fixpoint unescape (mode : escape_mode) (s : string) : result string :=
  match s with
  | EmptyString => Ok ""%string
  | String c s1 =>
      if Ascii.eqb c "%" then
        match s1 with
        | String a (String b s2) =>
            match unhex a, unhex b with
            | Some x, Some y =>
                if is_host mode && (x <? 8) && negb ((x =? 2) && (y =? 5))
                then Err (url_error "invalid URL escape %q")
                else match unescape mode s2 with
                     | Ok r => Ok (String (chr (16 * x + y)) r)
                     | Err e => Err e
                     end
            | _, _ => Err (url_error "invalid URL escape %q")
            end
        | _ => Err (url_error "invalid URL escape %q")
        end
      else if is_host mode && is_ascii c && negb (host_byte c)
      then Err (url_error "invalid character %q in host name")
      else match unescape mode s1 with
           | Ok r => Ok (String c r)
           | Err e => Err e
           end
  end.

(** ** Parts *)

(** The scheme ([""] for none) and the rest. *)
Fixpoint get_scheme_go (first : bool) (s : string) : option (string * string) :=
  match s with
  | EmptyString => None
  | String c s' =>
      if is_lower c || is_upper c then
        match get_scheme_go false s' with Some (sch, rest) => Some (String c sch, rest) | None => None end
      else if (is_digit c || existsb (Ascii.eqb c) ["+"; "-"; "."]%char) && negb first then
        match get_scheme_go false s' with Some (sch, rest) => Some (String c sch, rest) | None => None end
      else if Ascii.eqb c ":" then Some (""%string, s')
      else None
  end.

Definition getScheme (rawURL : string) : result (string * string) :=
  if HasPrefix rawURL ":" then Err (url_error "missing protocol scheme")
  else Ok (default (""%string, rawURL) (get_scheme_go true rawURL)).

(** [strings.Cut] at a byte; without it everything is before. *)
Definition CutByte (s : string) (c : ascii) : string * string :=
  match IndexByte s c with
  | Some i => (s_take i s, s_drop (S i) s)
  | None => (s, ""%string)
  end.

(** A port after the last colon, if any: digits only. *)
Definition valid_port (host : string) : bool :=
  match reverse (Split host ":") with
  | [] | _ :: [] => true
  | port :: _ => str_all is_digit port
  end.

Definition parseAuthority `{AuthorityLib} (authority : string) : result string :=
  if Contains authority "@" || Contains authority "[" then parse_special_authority authority
  else if negb (valid_port authority) then Err (url_error "invalid port %q after host")
  else unescape encodeHost authority.

Definition ctl_byte (c : ascii) : bool := (byte c <? 32) || (byte c =? 127).

(** ** Parse *)

(** The rest after scheme and query: authority, then path. *)
Definition parse_hier `{AuthorityLib} (scheme rest : string) : result URL :=
  let with_path host p :=
    match unescape encodePath p with
    | Ok path => Ok {| Scheme := scheme; Host := host; Path := path |}
    | Err e => Err e
    end in
  if HasPrefix rest "//" && (negb (String.eqb scheme "") || negb (HasPrefix rest "///")) then
    let a := s_drop 2 rest in
    let '(authority, path) := match IndexByte a "/" with
                              | Some i => (s_take i a, s_drop i a)
                              | None => (a, ""%string)
                              end in
    match parseAuthority authority with
    | Ok host => with_path host path
    | Err e => Err e
    end
  else with_path ""%string rest.

Definition parse_url `{AuthorityLib} (rawURL : string) : result URL :=
  if negb (str_all (λ c, negb (ctl_byte c)) rawURL)
  then Err (url_error "net/url: invalid control character in URL")
  else if String.eqb rawURL "*" then Ok {| Scheme := ""; Host := ""; Path := "*" |}
  else match getScheme rawURL with
  | Err e => Err e
  | Ok (scheme, rest) =>
      let scheme := map_bytes lower_byte scheme in
      let rest := (CutByte rest "?").1 in
      if negb (HasPrefix rest "/") && negb (String.eqb scheme "")
      then Ok {| Scheme := scheme; Host := ""; Path := "" |}       (* opaque *)
      else if negb (HasPrefix rest "/") && Contains (CutByte rest "/").1 ":"
      then Err (url_error "first path segment in URL cannot contain colon")
      else parse_hier scheme rest
  end.

Definition Parse `{AuthorityLib} (rawURL : string) : result URL :=
  let '(u, frag) := CutByte rawURL "#" in
  match parse_url u with
  | Err e => Err e
  | Ok url =>
      match unescape encodeFragment frag with
      | Ok _ => Ok url
      | Err e => Err e
      end
  end.

(** ** Facts *)

(** Bytes that stand for themselves in a path. *)
Definition plain_path_byte (c : ascii) : bool :=
  negb (ctl_byte c) && negb (existsb (Z.eqb (byte c)) [37; 63; 35]).

Lemma unescape_plain s : str_all plain_path_byte s = true → unescape encodePath s = Ok s.
Proof.
  induction s as [|c s IH]; [done|]. cbn [str_all unescape]. intros [Hc Hs]%andb_true_iff.
  assert (Ascii.eqb c "%" = false) as ->.
  { destruct (Ascii.eqb_spec c "%") as [->|]; [by vm_compute in Hc|done]. }
  cbn [is_host andb]. by rewrite IH.
Qed.

Lemma CutByte_none s c :
  str_all (λ d, negb (Ascii.eqb c d)) s = true → CutByte s c = (s, ""%string).
Proof. intros Hs. unfold CutByte. by rewrite (proj2 (IndexByte_None s c) Hs). Qed.

Lemma plain_not (c : ascii) s :
  plain_path_byte c = false → str_all plain_path_byte s = true →
  str_all (λ d, negb (Ascii.eqb c d)) s = true.
Proof.
  intros Hc. apply str_all_impl. intros d Hd.
  destruct (Ascii.eqb_spec c d) as [->|]; [congruence|done].
Qed.

(** An absolute plain path after a scheme of letters and two slashes. *)
Lemma Parse_absolute `{AuthorityLib} (p : string) :
  str_all plain_path_byte p = true → HasPrefix p "/" = true →
  Parse ("unix://" +++ p) = Ok {| Scheme := "unix"; Host := ""; Path := p |}.
Proof.
  intros Hp Hr. set (u := "unix://" +++ p).
  assert (Hu : str_all plain_path_byte u = true) by (unfold u; rewrite str_all_app, Hp; done).
  unfold Parse. rewrite CutByte_none by (by apply plain_not). cbv iota beta.
  assert (parse_url u = Ok {| Scheme := "unix"; Host := ""; Path := p |}) as ->; [|done].
  unfold parse_url.
  assert (str_all (λ c, negb (ctl_byte c)) u = true) as ->.
  { eapply str_all_impl, Hu. intros c. unfold plain_path_byte. by destruct (ctl_byte c). }
  cbn [negb]. change (String.eqb u "*") with false. cbv iota.
  change (getScheme u) with (@Ok (string * string) ("unix"%string, "//" +++ p)). cbv iota beta.
  rewrite (CutByte_none ("//" +++ p) "?").
  2:{ rewrite str_all_app. by rewrite (plain_not "?" p). }
  change (map_bytes lower_byte "unix") with "unix"%string. cbn [fst].
  change (HasPrefix ("//" +++ p) "/") with true. cbn [negb andb].
  unfold parse_hier. change (HasPrefix ("//" +++ p) "//") with true.
  change (String.eqb "unix" "") with false. cbn [negb orb andb].
  change (s_drop 2 ("//" +++ p)) with p.
  assert (IndexByte p "/" = Some 0%nat) as ->.
  { destruct p as [|c p]; [done|]. cbn [IndexByte].
    change (Ascii.eqb "/" c && HasPrefix p "" = true) in Hr.
    by apply andb_true_iff in Hr as [-> _]. }
  cbn [s_take s_drop]. change (parseAuthority "") with (@Ok string ""%string). cbv iota beta.
  by rewrite unescape_plain.
Qed.
