(* ===== verification/Unstructured.v ===== *)
(** * Unstructured API objects

    The JSON-like values of [unstructured.Unstructured], and Go's checked type
    assertions [x, _ := v.(T)] on them. *)
From S2P Require Import Prelude.
#[local] Set Warnings "-register-all".

Inductive uval :=
| UNull
| UBool (b : bool)
| UInt (z : Z)
| UStr (s : string)
| UList (l : list uval)
| UMap (m : gmap string uval).

(** [v, _ := x.(string)] on a possibly absent entry. *)
Definition as_str (v : option uval) : string :=
  match v with Some (UStr s) => s | _ => "" end.

(** [v, _ := x.([]interface{})]: nil is the empty list. *)
Definition as_list (v : option uval) : list uval :=
  match v with Some (UList l) => l | _ => [] end.

(** [v, ok := x.(map[string]interface{})]: [None] is the nil map. *)
Definition as_map (v : option uval) : option (gmap string uval) :=
  match v with Some (UMap m) => Some m | _ => None end.

(** Reading a possibly nil map. *)
Definition uget (m : option (gmap string uval)) (k : string) : option uval :=
  m ≫= λ m, m !! k.

Definition map_of_pairs (l : list (string * uval)) : gmap string uval := list_to_map l.

Lemma uget_Some m k : uget (Some m) k = m !! k.
Proof. done. Qed.
#[export] Hint Rewrite uget_Some : go_eff.
