(* ===== verification/Resources.v ===== *)
(** * Resource requests of the FUSE daemon container (pkg/driver/resources.go)

    Quantities belong to [k8s.io/apimachinery/pkg/api/resource]: they are the
    carrier of the class [QuantityLib], with the operations the driver calls;
    [QuantityLaws] states what is documented of them ([Cmp] is a total order on
    amounts, and a printed quantity parses back to the same amount). *)
From S2P Require Import Prelude GoStrings GoErrors Unstructured.

(** ** The quantity library *)

Class QuantityLib := {
  Quantity : Type;
  ParseQuantity : string → option Quantity;
  Cmp : Quantity → Quantity → comparison;
  QString : Quantity → string
}.

Class QuantityLaws `{QuantityLib} : Prop := {
  Cmp_antisym : ∀ a b, Cmp b a = CompOpp (Cmp a b);
  Cmp_trans_le : ∀ a b c, Cmp a b ≠ Gt → Cmp b c ≠ Gt → Cmp a c ≠ Gt;
  String_nonempty : ∀ q, QString q ≠ ""%string;
  Parse_String : ∀ q, ∃ q', ParseQuantity (QString q) = Some q' ∧ Cmp q' q = Eq
}.

(** A concrete library, for witnesses: whole numbers with an optional [m], [Ki],
    [Mi] or [Gi] suffix, counted in thousandths. *)
#[local] Open Scope Z_scope.

Definition z_suffix (s suf : string) (mul : Z) : option Z :=
  if HasSuffix s suf
  then z ← signed_dec (s_take (String.length s - String.length suf) s); Some (z * mul)
  else None.

Definition z_quantity_parse (s : string) : option Z :=
  match z_suffix s "m" 1, z_suffix s "Gi" (1000 * 2^30), z_suffix s "Mi" (1000 * 2^20),
        z_suffix s "Ki" (1000 * 2^10) with
  | Some z, _, _, _ | None, Some z, _, _ | None, None, Some z, _
  | None, None, None, Some z => Some z
  | _, _, _, _ => z ← signed_dec s; Some (z * 1000)
  end.

Definition z_quantities : QuantityLib :=
  {| Quantity := Z; ParseQuantity := z_quantity_parse; Cmp := Z.compare;
     QString := λ z, Itoa z +++ "m" |}.

(** ** resources.go *)

Definition volumeCtxCPULimit : string := "cpuLimit".
Definition volumeCtxCPURequest : string := "cpuRequest".
Definition volumeCtxMemoryLimit : string := "memoryLimit".
Definition volumeCtxMemoryRequest : string := "memoryRequest".

(** [corev1.ResourceCPU], [corev1.ResourceMemory]. *)
Definition ResourceCPU : string := "cpu".
Definition ResourceMemory : string := "memory".

Section Resources.
Context `{QuantityLib}.

(** The three package variables; [SetDefaultMemoryRequests] replaces two. *)
Record Defaults := {
  DefaultMountCPURequest : Quantity;
  DefaultMountMemoryRequest : Quantity;
  DefaultMountMemoryRequestReadOnly : Quantity
}.

(** Their initial values; [None] is the panic of [resource.MustParse]. *)
Definition initial_defaults : option Defaults :=
  cpu ← ParseQuantity "10m";
  mem ← ParseQuantity "2Gi";
  ro ← ParseQuantity "128Mi";
  Some {| DefaultMountCPURequest := cpu; DefaultMountMemoryRequest := mem;
          DefaultMountMemoryRequestReadOnly := ro |}.

Definition SetDefaultMemoryRequests (d : Defaults) (writable readOnly : string)
  : result Defaults :=
  match ParseQuantity writable with
  | None => Err (Errorf "invalid default memory request %q: %w" [writable] [OtherErr "quantity"])
  | Some writableQty =>
      match ParseQuantity readOnly with
      | None => Err (Errorf "invalid read-only default memory request %q: %w" [readOnly]
                            [OtherErr "quantity"])
      | Some readOnlyQty =>
          Ok {| DefaultMountCPURequest := DefaultMountCPURequest d;
                DefaultMountMemoryRequest := writableQty;
                DefaultMountMemoryRequestReadOnly := readOnlyQty |}
      end
  end.

Definition DefaultMemoryRequestFor (d : Defaults) (readOnly : bool) : Quantity :=
  if readOnly then DefaultMountMemoryRequestReadOnly d else DefaultMountMemoryRequest d.

Definition ReadOnlyFromArgs (args : list string) : bool :=
  existsb (λ a, String.eqb a "--read-only" || String.eqb a "repo") args.

Record MountResources := {
  CPULimit : option Quantity;
  CPURequest : option Quantity;
  MemoryLimit : option Quantity;
  MemoryRequest : option Quantity
}.

Definition no_resources : MountResources :=
  {| CPULimit := None; CPURequest := None; MemoryLimit := None; MemoryRequest := None |}.

Definition parseQuantityAttr (raw : string) : option Quantity :=
  if String.eqb raw "" then None else ParseQuantity raw.

(** Reading an absent key of a Go map gives the zero value. *)
Definition attr (attrs : gmap string string) (k : string) : string := default ""%string (attrs !! k).

Definition ParseMountResources (attrs : gmap string string) : MountResources :=
  {| CPULimit := parseQuantityAttr (attr attrs volumeCtxCPULimit);
     CPURequest := parseQuantityAttr (attr attrs volumeCtxCPURequest);
     MemoryLimit := parseQuantityAttr (attr attrs volumeCtxMemoryLimit);
     MemoryRequest := parseQuantityAttr (attr attrs volumeCtxMemoryRequest) |}.

(** [corev1.ResourceRequirements]; a nil limit map is [None]. *)
Record ResourceRequirements := {
  Requests : gmap string Quantity;
  Limits : option (gmap string Quantity)
}.

Definition clampRequestToLimit (req : ResourceRequirements) (name : string)
  : ResourceRequirements :=
  match Limits req with
  | None => req
  | Some lims =>
      match lims !! name with
      | None => req
      | Some lim =>
          match Requests req !! name with
          | None => req
          | Some rq =>
              match Cmp rq lim with
              | Gt => {| Requests := <[name := lim]> (Requests req); Limits := Limits req |}
              | _ => req
              end
          end
      end
  end.

(** [if o != nil { m[k] = *o }]. *)
Definition set_opt {A} (k : string) (o : option A) (m : gmap string A) : gmap string A :=
  match o with Some v => <[k := v]> m | None => m end.

(** [if o != nil { if m == nil { m = {} }; m[k] = *o }]. *)
Definition set_limit (k : string) (o : option Quantity) (m : option (gmap string Quantity))
  : option (gmap string Quantity) :=
  match o with Some v => Some (<[k := v]> (default ∅ m)) | None => m end.

Definition BuildResourceRequirements (overrides : MountResources)
    (defaultCPURequest defaultMemoryRequest : Quantity) : ResourceRequirements :=
  let requests :=
    <[ResourceMemory := defaultMemoryRequest]> (<[ResourceCPU := defaultCPURequest]> ∅) in
  let requests := set_opt ResourceCPU (CPURequest overrides) requests in
  let requests := set_opt ResourceMemory (MemoryRequest overrides) requests in
  let limits := set_limit ResourceCPU (CPULimit overrides) None in
  let limits := set_limit ResourceMemory (MemoryLimit overrides) limits in
  clampRequestToLimit
    (clampRequestToLimit {| Requests := requests; Limits := limits |} ResourceCPU)
    ResourceMemory.

Definition ToStringMap (r : MountResources) : gmap string string :=
  set_opt volumeCtxMemoryRequest (QString <$> MemoryRequest r)
    (set_opt volumeCtxMemoryLimit (QString <$> MemoryLimit r)
      (set_opt volumeCtxCPURequest (QString <$> CPURequest r)
        (set_opt volumeCtxCPULimit (QString <$> CPULimit r) ∅))).

(** [None] is the nil map. *)
Definition ToUnstructured (r : MountResources) : option (gmap string uval) :=
  let src := ToStringMap r in
  if decide (size src = 0%nat) then None else Some (UStr <$> src).

Definition MountResourcesFromUnstructured (raw : gmap string uval) : MountResources :=
  ParseMountResources (omap (λ v, match v with UStr s => Some s | _ => None end) raw).

(** ** Specification *)

(** The request the container gets: the wish, never above the limit. *)
Definition clamp (wish : Quantity) (limit : option Quantity) : Quantity :=
  match limit with
  | Some lim => match Cmp wish lim with Gt => lim | _ => wish end
  | None => wish
  end.

(** The same amount, whatever its printed form. *)
Definition same_amount (a b : option Quantity) : Prop :=
  match a, b with
  | Some a, Some b => Cmp a b = Eq
  | None, None => True
  | _, _ => False
  end.

Definition same_resources (r r' : MountResources) : Prop :=
  same_amount (CPULimit r) (CPULimit r') ∧ same_amount (CPURequest r) (CPURequest r') ∧
  same_amount (MemoryLimit r) (MemoryLimit r') ∧
  same_amount (MemoryRequest r) (MemoryRequest r').

(** ** Facts *)

Context `{!QuantityLaws}.

Lemma Cmp_refl a : Cmp a a = Eq.
Proof. pose proof (Cmp_antisym a a) as E. by destruct (Cmp a a). Qed.

#[export] Instance same_amount_equiv : Equivalence same_amount.
Proof.
  assert (Ht : ∀ a b c : Quantity, Cmp a b = Eq → Cmp b c = Eq → Cmp a c = Eq).
  { intros a b c Hab Hbc.
    assert (H1 : Cmp a c ≠ Gt) by (apply (Cmp_trans_le a b c); congruence).
    assert (H2 : Cmp c a ≠ Gt).
    { apply (Cmp_trans_le c b a); rewrite Cmp_antisym, ?Hab, ?Hbc; done. }
    rewrite (Cmp_antisym a c) in H2. by destruct (Cmp a c). }
  split.
  - intros [a|]; simpl; [apply Cmp_refl|done].
  - intros [a|] [b|]; simpl; try done. intros Hab. by rewrite Cmp_antisym, Hab.
  - intros [a|] [b|] [c|]; simpl; try done. apply Ht.
Qed.

#[export] Instance same_resources_equiv : Equivalence same_resources.
Proof.
  unfold same_resources. split.
  - intros r. split_and!; reflexivity.
  - intros r r' (? & ? & ? & ?). split_and!; by symmetry.
  - intros r r' r'' (? & ? & ? & ?) (? & ? & ? & ?). split_and!; by etrans.
Qed.

Lemma Cmp_same a a' b b' : Cmp a a' = Eq → Cmp b b' = Eq → Cmp a b = Cmp a' b'.
Proof.
  assert (∀ a a' b b', Cmp a a' = Eq → Cmp b b' = Eq → Cmp a b ≠ Gt → Cmp a' b' ≠ Gt) as Hle.
  { clear a a' b b'. intros a a' b b' Ha Hb Hab. apply (Cmp_trans_le a' a b').
    - by rewrite Cmp_antisym, Ha.
    - apply (Cmp_trans_le a b b'); congruence. }
  intros Ha Hb.
  assert (Cmp a' a = Eq) as Ha' by by rewrite Cmp_antisym, Ha.
  assert (Cmp b' b = Eq) as Hb' by by rewrite Cmp_antisym, Hb.
  pose proof (Hle a a' b b' Ha Hb) as L1. pose proof (Hle a' a b' b Ha' Hb') as L2.
  pose proof (Hle b b' a a' Hb Ha) as L3. pose proof (Hle b' b a' a Hb' Ha') as L4.
  rewrite (Cmp_antisym a b), (Cmp_antisym a' b') in *.
  destruct (Cmp a b), (Cmp a' b'); simpl in *; try done; exfalso;
    first [by apply L1|by apply L2|by apply L3|by apply L4].
Qed.

Lemma clamp_same a a' l l' :
  same_amount (Some a) (Some a') → same_amount l l' → same_amount (Some (clamp a l)) (Some (clamp a' l')).
Proof.
  destruct l as [l|], l' as [l'|]; simpl; try done. intros Ha Hl.
  rewrite (Cmp_same a a' l l' Ha Hl). by destruct (Cmp a' l').
Qed.

Lemma clamp_le wish lim : Cmp (clamp wish (Some lim)) lim ≠ Gt.
Proof. unfold clamp. destruct (Cmp wish lim) eqn:E; rewrite ?E, ?Cmp_refl; done. Qed.

Lemma clampRequestToLimit_limits req name : Limits (clampRequestToLimit req name) = Limits req.
Proof. unfold clampRequestToLimit. repeat go_case; done. Qed.

Lemma clampRequestToLimit_requests req name rq :
  Requests req !! name = Some rq →
  Requests (clampRequestToLimit req name) =
    <[name := clamp rq (Limits req ≫= lookup name)]> (Requests req).
Proof.
  intros Hrq. unfold clampRequestToLimit. rewrite Hrq.
  destruct (Limits req) as [lims|] eqn:E; simpl; [|by rewrite insert_id].
  destruct (lims !! name) as [lim|]; simpl; [|by rewrite insert_id].
  destruct (Cmp rq lim); simpl; done || by rewrite insert_id.
Qed.

Lemma set_opt_lookup {A} k k' (o : option A) m :
  set_opt k o m !! k' = if decide (k = k') then (match o with Some v => Some v | None => m !! k' end) else m !! k'.
Proof. destruct o; simpl; case_decide; subst; by simplify_map_eq. Qed.

Lemma set_opt_eq {A} k (o : option A) m :
  set_opt k o m !! k = match o with Some v => Some v | None => m !! k end.
Proof. rewrite set_opt_lookup. by rewrite decide_True. Qed.

Lemma set_opt_ne {A} k k' (o : option A) m : k ≠ k' → set_opt k o m !! k' = m !! k'.
Proof. intros Hk. rewrite set_opt_lookup. by rewrite decide_False. Qed.

Lemma set_limit_lookup k k' o m :
  set_limit k o m ≫= lookup k' = if decide (k = k') then (match o with Some v => Some v | None => m ≫= lookup k' end) else m ≫= lookup k'.
Proof. destruct o, m; simpl; case_decide; subst; by simplify_map_eq. Qed.

Lemma requests_before_clamp o dc dm :
  set_opt ResourceMemory (MemoryRequest o) (set_opt ResourceCPU (CPURequest o)
    (<[ResourceMemory := dm]> (<[ResourceCPU := dc]> ∅))) =
  <[ResourceMemory := default dm (MemoryRequest o)]>
    (<[ResourceCPU := default dc (CPURequest o)]> (∅ : gmap string Quantity)).
Proof.
  apply map_eq. intros k. rewrite !set_opt_lookup, !lookup_insert.
  destruct (MemoryRequest o), (CPURequest o); simpl; repeat case_decide; subst; done.
Qed.

(** The two maps, entry by entry. *)
Lemma BuildResourceRequirements_values o dc dm :
  let r := BuildResourceRequirements o dc dm in
  Requests r =
    <[ResourceMemory := clamp (default dm (MemoryRequest o)) (MemoryLimit o)]>
      (<[ResourceCPU := clamp (default dc (CPURequest o)) (CPULimit o)]> ∅) ∧
  (∀ k, Limits r ≫= lookup k =
     if decide (k = ResourceCPU) then CPULimit o
     else if decide (k = ResourceMemory) then MemoryLimit o else None).
Proof.
  intros r.
  assert (Limits r = set_limit ResourceMemory (MemoryLimit o) (set_limit ResourceCPU (CPULimit o) None)) as HL.
  { subst r. unfold BuildResourceRequirements. by rewrite !clampRequestToLimit_limits. }
  assert (∀ k, Limits r ≫= lookup k = if decide (k = ResourceCPU) then CPULimit o
     else if decide (k = ResourceMemory) then MemoryLimit o else None) as HL'.
  { intros k. rewrite HL, !set_limit_lookup. simpl.
    repeat case_decide; subst; try done; by repeat case_match. }
  assert (Requests r = <[ResourceMemory := clamp (default dm (MemoryRequest o)) (MemoryLimit o)]>
      (<[ResourceCPU := clamp (default dc (CPURequest o)) (CPULimit o)]> ∅)) as HR.
  { subst r. unfold BuildResourceRequirements in *. rewrite !clampRequestToLimit_limits in *.
    simpl in *. rewrite requests_before_clamp.
    erewrite clampRequestToLimit_requests; rewrite ?clampRequestToLimit_limits.
    2: { erewrite clampRequestToLimit_requests by (simpl; by simplify_map_eq). simpl.
         by simplify_map_eq. }
    erewrite clampRequestToLimit_requests by (simpl; by simplify_map_eq). simpl.
    rewrite !HL'. simpl. apply map_eq. intros k. rewrite !lookup_insert. by repeat case_decide. }
  by split.
Qed.

(** The same requests and limits, up to the printed form. *)
Definition same_requirements (r r' : ResourceRequirements) : Prop :=
  ∀ k, same_amount (Requests r !! k) (Requests r' !! k) ∧
       same_amount (Limits r ≫= lookup k) (Limits r' ≫= lookup k).

Lemma default_same a a' d : same_amount a a' → same_amount (Some (default d a)) (Some (default d a')).
Proof. destruct a, a'; simpl; try done. intros _. apply Cmp_refl. Qed.

#[export] Instance BuildResourceRequirements_proper :
  Proper (same_resources ==> eq ==> eq ==> same_requirements) BuildResourceRequirements.
Proof.
  intros o o' (Hcl & Hcr & Hml & Hmr) dc ? <- dm ? <- k.
  destruct (BuildResourceRequirements_values o dc dm) as [R L].
  destruct (BuildResourceRequirements_values o' dc dm) as [R' L'].
  rewrite R, R', L, L', !lookup_insert. split.
  - repeat case_decide; try done; by apply clamp_same; [apply default_same|].
  - by repeat case_decide.
Qed.

(** C33. The container's requests are exactly the user's wish (or the default),
    lowered to the limit of the same resource when there is one; its limits are
    exactly those the user set. Hence no request exceeds its limit, for any
    combination of overrides. *)
Theorem BuildResourceRequirements_spec o dc dm :
  let r := BuildResourceRequirements o dc dm in
  Requests r =
    <[ResourceMemory := clamp (default dm (MemoryRequest o)) (MemoryLimit o)]>
      (<[ResourceCPU := clamp (default dc (CPURequest o)) (CPULimit o)]> ∅) ∧
  (∀ k, Limits r ≫= lookup k =
     if decide (k = ResourceCPU) then CPULimit o
     else if decide (k = ResourceMemory) then MemoryLimit o else None) ∧
  (∀ k rq lim, Requests r !! k = Some rq → Limits r ≫= lookup k = Some lim → Cmp rq lim ≠ Gt).
Proof.
  intros r. destruct (BuildResourceRequirements_values o dc dm) as [HR HL]. fold r in HR, HL.
  split_and!; [done..|]. intros k rq lim. rewrite HR, HL.
  rewrite !lookup_insert, lookup_empty.
  repeat case_decide; subst; try done; intros [= <-] ->; apply clamp_le.
Qed.

Lemma parse_print (q : option Quantity) :
  same_amount (parseQuantityAttr (default ""%string (QString <$> q))) q.
Proof.
  unfold parseQuantityAttr. destruct q as [q|]; simpl; [|done].
  rewrite (proj2 (String.eqb_neq _ _) (String_nonempty q)).
  by destruct (Parse_String q) as (q' & -> & ?).
Qed.

Lemma ToStringMap_attr r :
  attr (ToStringMap r) volumeCtxCPULimit = default ""%string (QString <$> CPULimit r) ∧
  attr (ToStringMap r) volumeCtxCPURequest = default ""%string (QString <$> CPURequest r) ∧
  attr (ToStringMap r) volumeCtxMemoryLimit = default ""%string (QString <$> MemoryLimit r) ∧
  attr (ToStringMap r) volumeCtxMemoryRequest = default ""%string (QString <$> MemoryRequest r).
Proof.
  unfold attr, ToStringMap. destruct r as [cl cr ml mr]; simpl.
  split_and!; repeat (rewrite set_opt_eq || rewrite set_opt_ne by discriminate || rewrite lookup_empty);
    [destruct cl|destruct cr|destruct ml|destruct mr]; done.
Qed.

Lemma parse_ToStringMap r : same_resources (ParseMountResources (ToStringMap r)) r.
Proof.
  destruct (ToStringMap_attr r) as (E1 & E2 & E3 & E4).
  unfold same_resources, ParseMountResources. simpl. rewrite E1, E2, E3, E4.
  split_and!; apply parse_print.
Qed.

Lemma omap_UStr (m : gmap string string) :
  omap (λ v, match v with UStr s => Some s | _ => None end) (UStr <$> m) = m.
Proof. apply map_eq. intros k. rewrite lookup_omap, lookup_fmap. by destruct (m !! k). Qed.

Lemma resources_back r :
  match ToUnstructured r with
  | Some raw => same_resources (MountResourcesFromUnstructured raw) r
  | None => r = no_resources
  end.
Proof.
  unfold ToUnstructured. case_decide as Hs.
  - apply map_size_empty_inv in Hs.
    destruct (ToStringMap_attr r) as (E1 & E2 & E3 & E4). rewrite Hs in E1, E2, E3, E4.
    unfold attr in *. rewrite lookup_empty in *. simpl in *.
    destruct r as [[q|] [q'|] [q''|] [q3|]]; simpl in *; try done;
      match goal with H : _ = QString ?q |- _ => by destruct (String_nonempty q) end.
  - unfold MountResourcesFromUnstructured. rewrite omap_UStr. apply parse_ToStringMap.
Qed.
(** Resource overrides survive the HFMount object: what [ToUnstructured]
    stores under ["resources"] (nothing, when there is no override) reads back
    as the same four amounts, so a mount pod rebuilt from the CRD gets the
    resources of the pod it replaces. *)
Theorem resources_roundtrip r :
  match ToUnstructured r with
  | Some raw => same_resources (MountResourcesFromUnstructured raw) r
  | None => r = no_resources
  end.
Proof. apply resources_back. Qed.
End Resources.

(** The concrete library satisfies the laws. *)
#[export] Instance z_quantities_laws : @QuantityLaws z_quantities.
Proof.
  constructor; simpl.
  - intros a b. apply Z.compare_antisym.
  - intros a b c. rewrite !Z.compare_le_iff. lia.
  - intros q H. by destruct (Itoa q) eqn:E; [destruct (Itoa_nonempty q)|].
  - intros q. exists q. split; [|apply Z.compare_refl].
    unfold z_quantity_parse, z_suffix. rewrite HasSuffix_app.
    rewrite slength_app, Nat.add_sub, s_take_app, signed_dec_Itoa. simpl. by rewrite Z.mul_1_r.
Qed.

(** The three built-in defaults parse, in this library as in the real one. *)
Example z_defaults :
  match @initial_defaults z_quantities with
  | Some d => (DefaultMountCPURequest d : Z, DefaultMountMemoryRequest d : Z,
               DefaultMountMemoryRequestReadOnly d : Z) = (10, 1000 * 2^31, 1000 * 2^27)
  | None => False
  end.
Proof. vm_compute. reflexivity. Qed.

(** A memory limit of 1Gi lowers the 2Gi default; the CPU request stays. *)
Example BuildResourceRequirements_spec_witness :
  let o := @Build_MountResources z_quantities None None (Some (1000 * 2^30)) None in
  Requests (@BuildResourceRequirements z_quantities o 10 (1000 * 2^31)) !! ResourceMemory =
    Some (1000 * 2^30) ∧
  Requests (@BuildResourceRequirements z_quantities o 10 (1000 * 2^31)) !! ResourceCPU = Some 10.
Proof.
  intros o.
  destruct (@BuildResourceRequirements_spec z_quantities z_quantities_laws o 10 (1000 * 2^31))
    as (-> & _ & _).
  split; vm_compute; reflexivity.
Defined.

Example resources_roundtrip_witness :
  let r := @Build_MountResources z_quantities (Some 1500) None (Some (1000 * 2^30)) None in
  ∃ raw, @ToUnstructured z_quantities r = Some raw ∧
    same_resources (@MountResourcesFromUnstructured z_quantities raw) r.
Proof.
  intros r. pose proof (@resources_roundtrip z_quantities z_quantities_laws r) as Hr.
  destruct (@ToUnstructured z_quantities r) as [raw|] eqn:E.
  - exists raw. split; [reflexivity|exact Hr].
  - exfalso. vm_compute in E. discriminate.
Defined.
