(* ===== verification/Names.v ===== *)
(** * Identifiers and paths

    How the driver names mount pods, HFMount objects, labels, token files and
    source directories (pkg/driver/podmounter.go, node.go, hfmount.go), and how
    it reads a pod UID back out of a kubelet path. *)
From S2P Require Import Prelude GoStrings Sha256.
From Stdlib Require Import Ascii.

Local Open Scope Z_scope.

(** ** podmounter.go *)

Definition mountPodPrefix : string := "hf-mount-".
Definition labelApp : string := "hf.csi.huggingface.co/app".
Definition labelAppValue : string := "hf-mount".
Definition labelVolumeID : string := "hf.csi.huggingface.co/volume-id".
Definition labelNode : string := "hf.csi.huggingface.co/node".
Definition annotSourceType : string := "hf.csi.huggingface.co/source-type".
Definition annotSourceID : string := "hf.csi.huggingface.co/source-id".
Definition annotMountPath : string := "hf.csi.huggingface.co/mount-path".
Definition mountBaseDir : string := "/var/lib/hf-csi-driver/mnt".

Definition mountID (target : string) : string := hex (take 6 (Sum256 target)).

Definition mountIDFromSource (source : string) : string := Base source.

(** The FUSE source directory of a target: [filepath.Join(mountBaseDir, volumeID)]. *)
Definition source_dir (volumeID : string) : string := JoinPath [mountBaseDir; volumeID].
Definition mount_pod_name (volumeID : string) : string := mountPodPrefix +++ volumeID.

Definition isAlphanumeric (c : ascii) : bool := is_lower c || is_upper c || is_digit c.

Definition label_byte (c : ascii) : bool :=
  isAlphanumeric c || Ascii.eqb c "." || Ascii.eqb c "-" || Ascii.eqb c "_".

(** After the mapping the value is ASCII, so cutting at byte 63 and trimming by
    rune are byte operations. *)
Definition sanitizeLabelValue (v : string) : string :=
  let v := map_runes label_byte "_" v in
  let v := if (63 <? String.length v)%nat then s_take 63 v else v in
  TrimFunc (λ c, negb (isAlphanumeric c)) v.

Definition podsPrefix : string := "/var/lib/kubelet/pods/".

Definition podUIDFromTarget (target : string) : string :=
  match CutPrefix target podsPrefix with
  | None => ""
  | Some rest =>
      match IndexByte rest "/" with
      | None | Some 0%nat => ""
      | Some end_ => s_take end_ rest
      end
  end.

(** ** hfmount.go *)

Definition hfMountName (volumeID : string) : string := "hfm-" +++ volumeID.

(** ** node.go *)

Definition sanitizeVolumeID (id : string) : string :=
  let s := PathEscape id in
  if String.eqb s "." then "%2E"
  else if String.eqb s ".." then "%2E%2E"
  else s.

Definition tokenFilePath (cacheBase volumeID : string) : string :=
  JoinPath [cacheBase; sanitizeVolumeID volumeID; "token"%string].

(** ** Specification *)

(** A Kubernetes label value. *)
Definition valid_label (s : string) : Prop :=
  (String.length s ≤ 63)%nat ∧ str_all label_byte s = true ∧
  (s = ""%string ∨
   (∃ c t, s = String c t ∧ isAlphanumeric c = true) ∧
   (∃ t c, s = t +++ str1 c ∧ isAlphanumeric c = true)).

(** A volume ID as [mountID] makes them: twelve lower-case hexadecimal digits. *)
Definition is_volume_id (s : string) : Prop :=
  String.length s = 12%nat ∧ str_all is_lower_hex s = true.

(** ** Facts *)

Lemma mountID_is_volume_id t : is_volume_id (mountID t).
Proof.
  unfold is_volume_id, mountID. split.
  - by rewrite length_hex, length_take, length_Sum256.
  - apply hex_bytes, Forall_take, Sum256_bounds.
Qed.

Lemma volume_id_good s : is_volume_id s → good_comp s.
Proof.
  intros [Hl Hh]. unfold good_comp. split_and!; try by intros ->.
  apply IndexByte_None. eapply str_all_impl, Hh. intros c H. simpl in H.
  by destruct (Ascii.eqb_spec "/" c) as [<-|].
Qed.

Lemma source_dir_eq id : good_comp id → source_dir id = mountBaseDir +++ String "/" id.
Proof.
  intros H. unfold source_dir. rewrite JoinPath_good by (done || by constructor).
  change (rooted mountBaseDir) with true.
  change (clean_comps true (Split mountBaseDir "/")) with ["var"; "lib"; "hf-csi-driver"; "mnt"]%string.
  done.
Qed.

(** The names every later operation derives from a source path are the ones
    [Mount] derived from the target. *)
Lemma Base_source_dir id : good_comp id → Base (source_dir id) = id.
Proof.
  intros H. rewrite source_dir_eq by done. apply Base_app; apply H.
Qed.

(** Names derived from a target agree everywhere and are legal: the volume
    ID is twelve lower-case hex digits; the source path is
    [mountBaseDir/<volumeID>]; and every operation that starts from a source path
    ([Unmount], [CheckHealth], [tryHealSource], [lateAdopt], [recoverPod]) recovers
    the same volume ID, hence the same pod and HFMount names, as [Mount] used. *)
Theorem mount_names_agree target :
  let id := mountID target in
  is_volume_id id ∧
  source_dir id = mountBaseDir +++ "/" +++ id ∧
  mountIDFromSource (source_dir id) = id ∧
  mount_pod_name (mountIDFromSource (source_dir id)) = "hf-mount-" +++ id ∧
  hfMountName (mountIDFromSource (source_dir id)) = "hfm-" +++ id ∧
  valid_label id.
Proof.
  intros id. pose proof (mountID_is_volume_id target) as Hid. fold id in Hid.
  pose proof (volume_id_good _ Hid) as Hg.
  assert (mountIDFromSource (source_dir id) = id) as Hb by by apply Base_source_dir.
  rewrite !Hb. split_and!; try done; [by apply source_dir_eq|].
  destruct Hid as [Hl Hh].
  assert (∀ c, is_lower_hex c = true → isAlphanumeric c = true) as Halpha.
  { intros c. unfold is_lower_hex, isAlphanumeric, is_lower, in_range.
    destruct (is_digit c); [by rewrite !orb_true_r|]. simpl.
    rewrite !andb_true_iff, !orb_true_iff, !andb_true_iff, !Z.leb_le. lia. }
  unfold valid_label. split_and!; [lia| |right].
  - eapply str_all_impl, Hh. intros c Hc. unfold label_byte. by rewrite Halpha.
  - split.
    + destruct id as [|c t]; [done|]. simpl in Hh. apply andb_true_iff in Hh as [Hc _]. eauto.
    + assert (∃ t c, id = t +++ str1 c) as (t & c & ->).
      { destruct id as [|c t]; [done|]. clear. revert c.
        induction t as [|d t IH]; intros c; [by exists "", c|].
        destruct (IH d) as (u & e & ->). by exists (String c u), e. }
      rewrite str_all_app in Hh. apply andb_true_iff in Hh as [_ Hc].
      simpl in Hc. rewrite andb_true_r in Hc. eauto.
Qed.

Lemma sanitizeLabelValue_valid v : valid_label (sanitizeLabelValue v).
Proof.
  unfold sanitizeLabelValue, TrimFunc.
  set (m := map_runes label_byte "_" v).
  set (k := if (63 <? String.length m)%nat then s_take 63 m else m).
  assert (String.length k ≤ 63)%nat as Hl.
  { subst k. destruct (Nat.ltb_spec 63 (String.length m)); [apply length_s_take|lia]. }
  assert (str_all label_byte m = true) as Hm.
  { eapply str_all_impl, str_all_map_runes. intros c Hc. simpl in Hc.
    apply orb_true_iff in Hc as [Hc|Hc]; [done|]. by apply Ascii.eqb_eq in Hc as ->. }
  assert (str_all label_byte k = true) as Hk.
  { subst k. destruct (63 <? String.length m)%nat; [by apply str_all_s_take|done]. }
  set (f := λ c, negb (isAlphanumeric c)).
  unfold valid_label. split_and!.
  - pose proof (length_trim_right f (trim_left_by f k)). pose proof (length_trim_left f k). lia.
  - by apply str_all_trim_right, str_all_trim_left.
  - destruct (trim_left_by_spec f k) as [->|(c & t & E & Hc)]; [by left|]. rewrite E.
    right. split.
    + destruct (trim_right_by_head f c t Hc) as [u ->]. exists c, u. split; [done|].
      by apply negb_false_iff.
    + destruct (trim_right_by_head f c t Hc) as [u Hu].
      destruct (trim_right_by_spec f (String c t)) as [H|(u' & d & -> & Hd)]; [by rewrite H in Hu|].
      exists u', d. split; [done|]. by apply negb_false_iff.
Qed.

Lemma map_runes_id keep other s :
  str_all (λ c, is_ascii c && keep c) s = true → map_runes keep other s = s.
Proof.
  unfold map_runes. induction s as [|c s IH]; simpl; [done|].
  intros [Hc Hs]%andb_true_iff. by rewrite Hc, IH.
Qed.

Lemma label_byte_ascii c : label_byte c = true → is_ascii c = true.
Proof.
  unfold label_byte, isAlphanumeric, is_lower, is_upper, is_digit, in_range, is_ascii.
  rewrite !orb_true_iff, !andb_true_iff, !Z.leb_le, Z.ltb_lt, !Ascii.eqb_eq.
  intros [[[[[?|?]|?]| ->]| ->]| ->]; try done; lia.
Qed.

Lemma trim_right_by_last f t c : f c = false → trim_right_by f (t +++ str1 c) = t +++ str1 c.
Proof. intros H. apply trim_right_by_noop; [done|]. simpl. by rewrite H. Qed.

(** [sanitizeLabelValue] always yields a legal Kubernetes label value (at
    most 63 bytes, only [A-Za-z0-9._-], alphanumeric at both ends, or empty),
    whatever bytes it is given, and leaves legal values alone; in particular a
    value sanitized twice (in the label and in the selector) is the same. *)
Theorem sanitizeLabelValue_spec v :
  valid_label (sanitizeLabelValue v) ∧
  (valid_label v → sanitizeLabelValue v = v) ∧
  sanitizeLabelValue (sanitizeLabelValue v) = sanitizeLabelValue v.
Proof.
  assert (∀ v, valid_label v → sanitizeLabelValue v = v) as Hid.
  { clear v. intros v (Hl & Hb & Hends). unfold sanitizeLabelValue, TrimFunc.
    rewrite map_runes_id.
    2: { eapply str_all_impl, Hb. intros c Hc. by rewrite Hc, label_byte_ascii. }
    rewrite (proj2 (Nat.ltb_ge _ _)) by lia.
    destruct Hends as [->|[(c & t & E & Hc) (t' & c' & E' & Hc')]]; [done|].
    rewrite E. simpl trim_left_by. rewrite Hc. simpl negb. cbv iota. rewrite <- E, E'.
    apply trim_right_by_last. by rewrite Hc'. }
  split_and!; [apply sanitizeLabelValue_valid|apply Hid|].
  apply Hid, sanitizeLabelValue_valid.
Qed.

(** ** Facts: token files *)

Lemma PathEscape_not_hex_dot s t : PathEscape s ≠ "%2E" +++ t.
Proof.
  destruct s as [|c s]; simpl; [done|]. destruct (path_segment_byte c) eqn:E.
  { intros [= -> _]. done. }
  intros [= H1 H2 _]. destruct (nibble_bounds c) as [Hn1 Hn2].
  change "2"%char with (upper_hex_digit 2) in H1. change "E"%char with (upper_hex_digit 14) in H2.
  apply upper_hex_digit_inj in H1, H2; [|lia..].
  assert (c = "."%char) as ->; [|done]. apply byte_inj.
  rewrite (Z.div_mod (byte c) 16), H1, H2 by lia. done.
Qed.

Lemma sanitizeVolumeID_inj a b : sanitizeVolumeID a = sanitizeVolumeID b → a = b.
Proof.
  unfold sanitizeVolumeID.
  pose proof (PathEscape_not_hex_dot a "") as Ha1. pose proof (PathEscape_not_hex_dot a "%2E") as Ha2.
  pose proof (PathEscape_not_hex_dot b "") as Hb1. pose proof (PathEscape_not_hex_dot b "%2E") as Hb2.
  simpl in *.
  destruct (String.eqb_spec (PathEscape a) "."), (String.eqb_spec (PathEscape b) ".");
  destruct (String.eqb_spec (PathEscape a) ".."), (String.eqb_spec (PathEscape b) "..");
    intros H; try congruence; apply PathEscape_inj; congruence.
Qed.

Lemma sanitizeVolumeID_good id : id ≠ ""%string → good_comp (sanitizeVolumeID id).
Proof.
  intros Hid. unfold sanitizeVolumeID.
  destruct (String.eqb_spec (PathEscape id) "."); [done|].
  destruct (String.eqb_spec (PathEscape id) ".."); [done|].
  unfold good_comp. split_and!; [|done|done|apply PathEscape_no_slash].
  intros H. by apply PathEscape_nil in H.
Qed.

(** C40. No volume ID, however hostile, moves the token file out of its own
    directory: the file is [<cacheBase>/<one component>/token], that component
    is neither [.] nor [..] and contains no slash, [filepath.Dir] of the file is
    exactly the per-volume directory (which unpublish removes), and two volumes
    never share a token file. *)
Theorem tokenFilePath_confined cacheBase a b :
  cacheBase ≠ ""%string → a ≠ ""%string → b ≠ ""%string →
  good_comp (sanitizeVolumeID a) ∧
  tokenFilePath cacheBase a = JoinPath [cacheBase; sanitizeVolumeID a] +++ "/token" ∧
  Dir (tokenFilePath cacheBase a) = JoinPath [cacheBase; sanitizeVolumeID a] ∧
  (tokenFilePath cacheBase a = tokenFilePath cacheBase b → a = b).
Proof.
  intros Hc Ha Hb.
  pose proof (sanitizeVolumeID_good a Ha) as Ga. pose proof (sanitizeVolumeID_good b Hb) as Gb.
  assert (good_comp "token") as Gt by done.
  assert (Forall good_comp [sanitizeVolumeID a; "token"%string]) as Fa by eauto.
  assert (Forall good_comp [sanitizeVolumeID b; "token"%string]) as Fb by eauto.
  split_and!; [done| | |].
  - unfold tokenFilePath. rewrite !JoinPath_good by eauto.
    change [sanitizeVolumeID a; "token"%string] with ([sanitizeVolumeID a] ++ ["token"%string]).
    rewrite app_assoc, render_snoc; [done|]. by destruct (clean_comps _ _).
  - apply (Dir_JoinPath cacheBase [_]); eauto.
  - intros E. apply JoinPath_good_inj in E; try done.
    injection E as E. by apply sanitizeVolumeID_inj.
Qed.

(** The hostile IDs stay apart from the literal ones they could collide with. *)
Example tokenFilePath_confined_witness :
  let p := tokenFilePath "/var/lib/hf-csi-driver/cache" in
  (p ".." = "/var/lib/hf-csi-driver/cache/%2E%2E/token")%string ∧
  Dir (p "../../etc") = "/var/lib/hf-csi-driver/cache/..%2F..%2Fetc"%string ∧
  (p ".." = p "%2E%2E" → ".." = "%2E%2E")%string.
Proof.
  destruct (tokenFilePath_confined "/var/lib/hf-csi-driver/cache" ".." "%2E%2E"
              ltac:(discriminate) ltac:(discriminate) ltac:(discriminate)) as (_ & H1 & _ & H2).
  destruct (tokenFilePath_confined "/var/lib/hf-csi-driver/cache" "../../etc" ".."
              ltac:(discriminate) ltac:(discriminate) ltac:(discriminate)) as (_ & _ & H3 & _).
  split_and!; [exact H1|exact H3|exact H2].
Defined.

(** ** Facts: pod UIDs in kubelet paths *)

Lemma podUIDFromTarget_layout uid rest :
  uid ≠ ""%string → IndexByte uid "/" = None →
  podUIDFromTarget (podsPrefix +++ uid +++ "/" +++ rest) = uid.
Proof.
  intros Hne Hs. unfold podUIDFromTarget. rewrite CutPrefix_app.
  change ("/" +++ rest) with (String "/" rest). rewrite IndexByte_Some_app by done.
  destruct (String.length uid) eqn:E; [by destruct uid|]. rewrite <- E. apply s_take_app.
Qed.
