(* ===== verification/MountArgs.v ===== *)
(** * Mount options and hf-mount arguments (pkg/driver/mounter.go)

    The options of one mount, the hf-mount-fuse command line built from them,
    and how a command line is classified as read-only (resources.go). *)
From S2P Require Import Prelude GoStrings GoErrors Resources.

Local Open Scope Z_scope.

Definition hfMountBinary : string := "hf-mount-fuse".

(** node.go: reading a volume attribute with a default for absent or empty. *)
Definition getWithDefault (m : gmap string string) (key defaultVal : string) : string :=
  match m !! key with
  | Some v => if String.eqb v "" then defaultVal else v
  | None => defaultVal
  end.

Section MountArgs.
Context `{QuantityLib}.

Record MountOptions := {
  Revision : string;
  HubEndpoint : string;
  CacheDir : string;
  CacheSize : string;
  PollIntervalSecs : string;
  PollListingConcurrency : string;
  MetadataTtlMs : string;
  InodeSoftLimit : string;
  LruSweepIntervalMs : string;
  FuseFdCount : string;
  ReadOnly : bool;
  ExtraArgs : list string;
  TokenFile : string;
  WorkloadPodUID : string;
  VolumeMountGroup : string;
  MResources : MountResources
}.

(** [if v != "" { args = append(args, name, v) }]. *)
Definition flag (name v : string) : list string :=
  if String.eqb v "" then [] else [name; v].

Definition buildArgs (sourceType sourceID target : string) (opts : MountOptions)
  : result (list string) :=
  if String.eqb sourceType "bucket" || String.eqb sourceType "repo" then
    Ok (flag "--hub-endpoint" (HubEndpoint opts) ++
        flag "--cache-dir" (CacheDir opts) ++
        flag "--cache-size" (CacheSize opts) ++
        flag "--poll-interval-secs" (PollIntervalSecs opts) ++
        flag "--poll-listing-concurrency" (PollListingConcurrency opts) ++
        flag "--metadata-ttl-ms" (MetadataTtlMs opts) ++
        flag "--inode-soft-limit" (InodeSoftLimit opts) ++
        flag "--lru-sweep-interval-ms" (LruSweepIntervalMs opts) ++
        (if ReadOnly opts then ["--read-only"%string] else []) ++
        flag "--token-file" (TokenFile opts) ++
        ExtraArgs opts ++
        [sourceType; sourceID; target] ++
        (if String.eqb sourceType "repo" && negb (String.eqb (Revision opts) "")
         then ["--revision"%string; Revision opts] else []))
  else Err (Errorf "unsupported sourceType: %q (must be bucket or repo)" [sourceType] []).

(** ** Specification *)

(** Strings [ReadOnlyFromArgs] takes for a read-only marker. *)
Definition marker (a : string) : bool := String.eqb a "--read-only" || String.eqb a "repo".

(** The option values, source name and paths that end up in the command line. *)
Definition free_values (sourceID target : string) (opts : MountOptions) : list string :=
  [HubEndpoint opts; CacheDir opts; CacheSize opts; PollIntervalSecs opts;
   PollListingConcurrency opts; MetadataTtlMs opts; InodeSoftLimit opts;
   LruSweepIntervalMs opts; TokenFile opts; sourceID; target].

(** What makes a mount read-only for the daemon: the CSI request, a repo source,
    or a passed-through [--read-only] flag. *)
Definition mount_is_read_only (sourceType : string) (opts : MountOptions) : bool :=
  ReadOnly opts || String.eqb sourceType "repo" ||
  existsb (λ a, String.eqb a "--read-only") (ExtraArgs opts).

(** ** Facts *)

Lemma ReadOnlyFromArgs_app a b : ReadOnlyFromArgs (a ++ b) = ReadOnlyFromArgs a || ReadOnlyFromArgs b.
Proof. apply existsb_app. Qed.

Lemma ReadOnlyFromArgs_flag name v :
  marker name = false → marker v = false → ReadOnlyFromArgs (flag name v) = false.
Proof.
  intros Hn Hv. unfold flag. destruct (String.eqb v ""); [done|].
  unfold ReadOnlyFromArgs, marker in *. simpl. by rewrite Hn, Hv.
Qed.

Lemma ReadOnlyFromArgs_extra extra :
  existsb (λ a, String.eqb a "repo") extra = false →
  ReadOnlyFromArgs extra = existsb (λ a, String.eqb a "--read-only") extra.
Proof.
  induction extra as [|a l IH]; simpl; [done|].
  rewrite orb_false_iff. intros [-> Hl]. by rewrite orb_false_r, IH.
Qed.

Lemma buildArgs_ok_iff st sid tgt opts :
  (∃ args, buildArgs st sid tgt opts = Ok args) ↔ st = "bucket"%string ∨ st = "repo"%string.
Proof.
  unfold buildArgs. destruct (String.eqb_spec st "bucket"); simpl; [split; eauto|].
  destruct (String.eqb_spec st "repo"); [split; eauto|].
  split; [by intros [? ?]|by intros [?|?]].
Qed.

(** Every flag the caller asks for, then the extra arguments in order, then the
    positional triple, in this order, whatever the options. *)
Lemma buildArgs_positional st sid tgt opts args :
  buildArgs st sid tgt opts = Ok args →
  ∃ pre post, args = pre ++ ExtraArgs opts ++ [st; sid; tgt] ++ post ∧
    (post = [] ∨ post = ["--revision"%string; Revision opts] ∧ st = "repo"%string).
Proof.
  unfold buildArgs. destruct (_ || _); [|done]. intros [= <-].
  set (post := if _ && _ then _ else _).
  exists (flag "--hub-endpoint" (HubEndpoint opts) ++ flag "--cache-dir" (CacheDir opts) ++
    flag "--cache-size" (CacheSize opts) ++ flag "--poll-interval-secs" (PollIntervalSecs opts) ++
    flag "--poll-listing-concurrency" (PollListingConcurrency opts) ++
    flag "--metadata-ttl-ms" (MetadataTtlMs opts) ++ flag "--inode-soft-limit" (InodeSoftLimit opts) ++
    flag "--lru-sweep-interval-ms" (LruSweepIntervalMs opts) ++
    (if ReadOnly opts then ["--read-only"%string] else []) ++ flag "--token-file" (TokenFile opts)), post.
  split; [by rewrite <- !app_assoc|]. subst post.
  destruct (String.eqb_spec st "repo"), (String.eqb (Revision opts) ""); simpl; auto.
Qed.

(** C34. The classification of a stored command line agrees with the options it
    was built from: as long as no free-form value is itself spelled
    ["--read-only"] or ["repo"], and no passed-through argument is ["repo"],
    [ReadOnlyFromArgs] on the result of [buildArgs] says "read-only" exactly
    when the mount is. A pod rebuilt from the HFMount object therefore gets the
    default memory request of its access mode. *)
Theorem ReadOnlyFromArgs_buildArgs st sid tgt opts args :
  buildArgs st sid tgt opts = Ok args →
  existsb marker (free_values sid tgt opts) = false →
  existsb (λ a, String.eqb a "repo") (ExtraArgs opts) = false →
  (st = "repo"%string → marker (Revision opts) = false) →
  ReadOnlyFromArgs args = mount_is_read_only st opts.
Proof.
  unfold buildArgs, free_values. intros Hb Hf He Hr.
  destruct (_ || _) eqn:Est; [|done]. apply (inj Ok) in Hb as <-.
  cbn [existsb] in Hf. rewrite !orb_false_iff in Hf.
  destruct Hf as (H1 & H2 & H3 & H4 & H5 & H6 & H7 & H8 & H9 & H10 & H11 & _).
  rewrite !ReadOnlyFromArgs_app, !ReadOnlyFromArgs_flag by done.
  rewrite (ReadOnlyFromArgs_extra (ExtraArgs opts)) by done. unfold mount_is_read_only.
  assert (ReadOnlyFromArgs [st; sid; tgt] = String.eqb st "repo") as ->.
  { unfold ReadOnlyFromArgs, marker in *. simpl. rewrite H10, H11.
    apply orb_true_iff in Est as [Est|Est]; apply String.eqb_eq in Est; by subst. }
  assert (ReadOnlyFromArgs (if ReadOnly opts then ["--read-only"%string] else []) = ReadOnly opts) as ->
    by by destruct (ReadOnly opts).
  destruct (String.eqb_spec st "repo") as [Est'|]; simpl.
  - destruct (ReadOnly opts), (existsb (λ a, String.eqb a "--read-only") (ExtraArgs opts)); try done.
  - destruct (ReadOnly opts), (existsb (λ a, String.eqb a "--read-only") (ExtraArgs opts)); try done.
Qed.
End MountArgs.

(** Concrete options for witnesses: everything unset. *)
Definition no_options `{QuantityLib} : MountOptions :=
  {| Revision := ""; HubEndpoint := ""; CacheDir := ""; CacheSize := ""; PollIntervalSecs := "";
     PollListingConcurrency := ""; MetadataTtlMs := ""; InodeSoftLimit := "";
     LruSweepIntervalMs := ""; FuseFdCount := ""; ReadOnly := false; ExtraArgs := [];
     TokenFile := ""; WorkloadPodUID := ""; VolumeMountGroup := ""; MResources := no_resources |}.

Example ReadOnlyFromArgs_buildArgs_witness :
  ReadOnlyFromArgs ["bucket"; "user/data"; "/mnt/hf/x"]%string = false ∧
  ReadOnlyFromArgs ["repo"; "openai-community/gpt2"; "/mnt/hf/x"]%string = true.
Proof.
  split.
  - apply (@ReadOnlyFromArgs_buildArgs z_quantities "bucket" "user/data" "/mnt/hf/x" no_options);
      try reflexivity; discriminate.
  - apply (@ReadOnlyFromArgs_buildArgs z_quantities "repo" "openai-community/gpt2" "/mnt/hf/x" no_options);
      reflexivity.
Defined.

(** The side conditions are needed: a writable bucket mount whose source is named
    ["repo"] is classified as read-only, so its pod is given the read-only
    memory request. *)
Theorem bucket_named_repo_misclassified :
  ∃ args, @buildArgs z_quantities "bucket" "repo" "/mnt/hf/x" no_options = Ok args ∧
    @mount_is_read_only z_quantities "bucket" no_options = false ∧
    ReadOnlyFromArgs args = true.
Proof. by eexists. Qed.
