(* ===== verification/Kube.v ===== *)
(** * Kubernetes API objects

    The fields of pods, persistent volumes and claims the driver and the webhook
    read or write.  A nil map is the empty map: reading and serialising do not
    tell them apart. *)
From S2P Require Import Prelude GoStrings Resources.

Local Open Scope Z_scope.

(** ** Volumes *)

Record CSIVolumeSource := {
  CSIDriver : string;
  CSIReadOnly : option bool;
  VolumeAttributes : gmap string string
}.

(** Exactly one source of a volume is set. *)
Inductive VolumeSource :=
| HostPath (path type : string)
| EmptyDir (medium : string)
| CSI (src : CSIVolumeSource)
| PersistentVolumeClaim (claimName : string) (readOnly : bool)
| OtherSource.

Record Volume := { VName : string; VSource : VolumeSource }.

Record VolumeMount := {
  VMName : string;
  VMPath : string;
  VMPropagation : option string
}.

(** ** Containers *)

Record SecurityContext := {
  Privileged : option bool;
  RunAsNonRoot : option bool;
  RunAsUser : option Z;
  RunAsGroup : option Z;
  ReadOnlyRootFilesystem : option bool;
  AllowPrivilegeEscalation : option bool;
  CapabilitiesDrop : list string;
  SeccompProfile : option string
}.

Record Probe := {
  ProbeExec : list string;
  PeriodSeconds : Z;
  FailureThreshold : Z
}.

(** [RestartCount] is an [int32]; a waiting state has a reason, a last terminated
    state a message. *)
Record ContainerStatus := {
  RestartCount : Z;
  WaitingReason : option string;
  LastTerminationMessage : option string
}.

Record MatchField := { MFKey : string; MFOperator : string; MFValues : list string }.

(** ** Nodes, claims and persistent volumes *)

Record Taint := {
  TaintKey : string;
  TaintValue : string;
  TaintEffect : string;
  TaintTimeAdded : option string
}.

(** The operations of the one JSON Patch the driver sends. *)
Inductive json_patch_op :=
| PatchTest (path : string) (value : list Taint)
| PatchReplace (path : string) (value : list Taint).

Record CSIPersistentVolumeSource := {
  PVDriver : string;
  PVReadOnly : bool;
  PVVolumeAttributes : gmap string string
}.

Record PersistentVolume := {
  PVCSI : option CSIPersistentVolumeSource;
  PVMountOptions : list string
}.

(** ** Pod phases *)

Definition PodRunning : string := "Running".
Definition PodFailed : string := "Failed".
Definition PodSucceeded : string := "Succeeded".
Definition PodPending : string := "Pending".

Section Kube.
Context `{QuantityLib}.

Record Container := {
  CName : string;
  CImage : string;
  CImagePullPolicy : string;
  CRestartPolicy : option string;
  CCommand : list string;
  CArgs : list string;
  CEnv : list (string * string);
  CSecurityContext : option SecurityContext;
  CVolumeMounts : list VolumeMount;
  CStartupProbe : option Probe;
  CResources : ResourceRequirements
}.

Record PodSpec := {
  HostNetwork : bool;
  RestartPolicy : string;
  TerminationGracePeriodSeconds : option Z;
  NodeAffinity : list (list MatchField);
  ServiceAccountName : string;
  ImagePullSecrets : list string;
  Tolerations : list string;
  InitContainers : list Container;
  Containers : list Container;
  Volumes : list Volume
}.

Record Pod := {
  PName : string;
  PNamespace : string;
  PUID : string;
  PLabels : gmap string string;
  PAnnotations : gmap string string;
  PDeleting : bool;                      (* DeletionTimestamp != nil *)
  PPhase : string;
  PContainerStatuses : list ContainerStatus;
  PSpec : PodSpec
}.

Definition no_pod_spec : PodSpec :=
  {| HostNetwork := false; RestartPolicy := ""; TerminationGracePeriodSeconds := None;
     NodeAffinity := []; ServiceAccountName := ""; ImagePullSecrets := []; Tolerations := [];
     InitContainers := []; Containers := []; Volumes := [] |}.

(** podmounter.go *)

Definition isPodTerminal (pod : Pod) : bool :=
  String.eqb (PPhase pod) PodFailed || String.eqb (PPhase pod) PodSucceeded.

(** The sum of [int32] restart counts, wrapping as Go's addition does. *)
Definition totalRestartCount (pod : Pod) : Z :=
  fold_left (λ total cs, wrap32 (total + RestartCount cs)) (PContainerStatuses pod) 0.
End Kube.
