(* ===== verification/Effects.v ===== *)
(** * Effects

    The driver is a concurrent program over a kernel, a file system, an API
    server and a clock.  An operation of the driver is a [prog]: it returns,
    panics, reads or writes the process memory shared by the goroutines, or
    calls its environment and continues with the answer.  The environment is a
    parameter: an arbitrary function of the call, the memory and a world of any
    type.  It may change the shared memory at every call: this is what the other
    goroutines do while this one waits, and [MuLock] marks the points where it
    waits for the mutex that guards the maps.  A theorem about all environments
    therefore holds under every interleaving at these points, and whatever the
    kernel and the API server answer. *)
From S2P Require Import Prelude GoStrings GoErrors Unstructured Resources Kube.
#[local] Set Warnings "-register-all".

Local Open Scope Z_scope.

(** ** The memory shared by the goroutines of the node plugin *)

Record mem := Mem {
  binds : gmap string string;          (* PodMounter.binds: target -> source *)
  sourceLocks : gmap string nat;       (* source -> its refMutex, by address *)
  lockRefs : gmap nat Z;               (* the refs field of each refMutex *)
  nextLock : nat;                      (* next fresh address *)
  sidecarVolumes : gset string;        (* driver.go *)
  pendingSidecarMinors : gset Z        (* fuse_sweeper.go *)
}.

Definition empty_mem : mem := Mem ∅ ∅ ∅ 0 ∅ ∅.

Definition set_binds (f : gmap string string → gmap string string) (s : mem) : mem :=
  Mem (f (binds s)) (sourceLocks s) (lockRefs s) (nextLock s) (sidecarVolumes s)
      (pendingSidecarMinors s).
Definition set_sidecarVolumes (f : gset string → gset string) (s : mem) : mem :=
  Mem (binds s) (sourceLocks s) (lockRefs s) (nextLock s) (f (sidecarVolumes s))
      (pendingSidecarMinors s).
Definition set_pendingSidecarMinors (f : gset Z → gset Z) (s : mem) : mem :=
  Mem (binds s) (sourceLocks s) (lockRefs s) (nextLock s) (sidecarVolumes s)
      (f (pendingSidecarMinors s)).

(** ** Data of the calls *)

(** [os.FileInfo] and [os.DirEntry], as far as they are read. *)
Record FileInfo := { IsDir : bool; ModTime : Z }.
Record DirEntry := { DName : string; DIsDir : bool }.

(** [mount.MountInfo] of k8s.io/mount-utils. *)
Record MountInfo := { MIMinor : Z; MIMountPoint : string; MIFsType : string; MISource : string }.

(** What a [bufio.Scanner] reads from an opened file: its bytes, and the error
    that ended the reading, if any. *)
Record stream := { content : string; read_error : option gerror }.

(** The case a [select] takes: the deadline, the finished context, or the ticker. *)
Inductive select_case := CaseDeadline | CaseDone | CaseTick.

(** What the goroutine of [sidecarMount] captures. *)
Record handoff := {
  ho_fd : Z;                    (* the primary /dev/fuse descriptor *)
  ho_volumeDir : string;
  ho_symlinkPath : string;
  ho_listener : string;         (* the path the listener is bound to *)
  ho_fuseFdCount : string;      (* opts.FuseFdCount *)
  ho_pending : option Z         (* pendingMinor, if hasPendingMinor *)
}.

(** Goroutines started with [go]. *)
Inductive task :=
| TRebindTargets (mountPath : string)
| TCleanupSource (mountPath : string)
| TTryHealSource (mountPath : string)
| TLateAdopt (mountPath : string)
| TPeriodicCleanup
| TSidecarHandoff (h : handoff)
| TRecover
| TVolDataReconciler (kubeletRoot nodeID : string) (interval : Z)
| TFuseSweeper (interval : Z)
| TStartupTaint (nodeName taintKey : string)
| TSignalHandler.

Section Effects.
Context `{QuantityLib}.

(** ** Calls and their answers *)

Inductive call :=
(* synchronisation, goroutines, time *)
| MuLock
| Yield
| SrcLock (l : nat)
| SrcUnlock (l : nat)
| Go (t : task)
| MapOrder
| Now
| Sleep (d : Z)
| TimeAfter (d : Z)
| NewTicker (d : Z)
| Select
(* system calls and mount-utils *)
| Unmount (path : string) (detach : bool)
| Mount (source target fstype : string) (bind nodev_nosuid : bool) (data : string)
| OpenDevFuse
| IoctlClone (dst src : Z)
| CloseFd (fd : Z)
| IsMountPoint (path : string)
| GetMountRefs (path : string)
| ParseMountInfo (path : string)
(* files *)
| OpenScan (path : string)
| ReadFile (path : string)
| WriteFile (path data : string) (perm : Z)
| ReadDir (path : string)
| Readlink (path : string)
| Remove (path : string)
| MkdirAll (path : string) (perm : Z)
| Stat (path : string)
| Lstat (path : string)
| Chown (path : string) (uid gid : Z)
| Lchown (path : string) (uid gid : Z)
| Symlink (old new : string)
| CreateTemp (dir pattern : string)
| WriteString (file data : string)
| CloseFile (file : string)
| Rename (old new : string)
| Chmod (path : string) (perm : Z)
| OpenExcl (path : string) (perm : Z)
| OpenDir (dir : string)
| Openat2 (dirFd : Z) (name : string) (write : bool) (perm : Z)
| FdWrite (fd : Z) (data : string)
| FdChown (fd : Z) (uid gid : Z)
| FdReadAll (fd : Z)
(* sockets and environment variables *)
| Listen (path : string)
| SetDeadline (path : string) (t : Z)
| Accept (path : string)
| CloseListener (path : string)
| CloseConn (conn : Z)
| ConnFile (conn : Z)
| Sendmsg (fd : Z) (msg oob : list Z)
| Recvmsg (fd buflen ooblen : Z)
| Serve (path : string)
| Getenv (name : string)
| Hostname
(* API server *)
| PodGet (namespace name : string)
| PodCreate (pod : Pod)
| PodDelete (namespace name : string)
| PodList (namespace labelSelector fieldSelector : string)
| CrdCreate (obj : gmap string uval)
| CrdGet (name : string)
| CrdUpdate (name : string) (obj : gmap string uval)
| CrdUpdateStatus (name : string) (obj : gmap string uval)
| CrdDelete (name : string)
| CrdList (labelSelector : string)
| StartInformer (namespace labelSelector : string)
| CSINodeGet (name : string)
| NodeGet (name : string)
| NodePatch (name : string) (ops : list json_patch_op)
| PVCGet (namespace name : string)
| PVGet (name : string).

Definition ans (c : call) : Type :=
  match c with
  | MuLock | Yield | SrcLock _ | SrcUnlock _ | Go _ | Sleep _ | TimeAfter _ | NewTicker _ => unit
  | MapOrder => list nat
  | Now => Z
  | Select => select_case
  | Unmount _ _ | Mount _ _ _ _ _ _ => option gerror
  | OpenDevFuse => result Z
  | IoctlClone _ _ | CloseFd _ => option gerror
  | CloseListener _ | CloseConn _ | SetDeadline _ _ | StartInformer _ _ => unit
  | IsMountPoint _ => bool * option gerror
  | GetMountRefs _ => list string * option gerror
  | ParseMountInfo _ => result (list MountInfo)
  | OpenScan _ => result stream
  | ReadFile _ | Readlink _ => result string
  | ReadDir _ => result (list DirEntry)
  | Stat _ | Lstat _ => result FileInfo
  | WriteFile _ _ _ | Remove _ | MkdirAll _ _ | Chown _ _ _ | Lchown _ _ _ | Symlink _ _
  | WriteString _ _ | CloseFile _ | Rename _ _ => option gerror
  | CreateTemp _ _ => result string
  | Chmod _ _ => option gerror
  | OpenExcl _ _ | OpenDir _ | Openat2 _ _ _ _ => result Z
  | FdWrite _ _ | FdChown _ _ _ => option gerror
  | FdReadAll _ => result string
  | Listen _ | Sendmsg _ _ _ | Serve _ => option gerror
  | Accept _ | ConnFile _ => result Z
  | Recvmsg _ _ _ => result (list Z * list Z)
  | Getenv _ => string
  | Hostname => result string
  | PodGet _ _ => result Pod
  | PodCreate _ | PodDelete _ _ => option gerror
  | PodList _ _ _ => result (list Pod)
  | CrdCreate _ | CrdUpdate _ _ | CrdUpdateStatus _ _ | CrdDelete _ => option gerror
  | CrdGet _ => result (gmap string uval)
  | CrdList _ => result (list (gmap string uval))
  | CSINodeGet _ => result (list string)
  | NodeGet _ => result (list Taint)
  | NodePatch _ _ => option gerror
  | PVCGet _ _ => result string
  | PVGet _ => result PersistentVolume
  end.

(** ** Programs *)

Inductive prog (A : Type) : Type :=
| Ret (a : A)
| Panic (msg : string)
| OutOfFuel
| GetM (k : mem → prog A)
| PutM (s : mem) (k : prog A)
| Call (c : call) (k : ans c → prog A).
#[global] Arguments Ret {_} a.
#[global] Arguments Panic {_} msg.
#[global] Arguments OutOfFuel {_}.
#[global] Arguments GetM {_} k.
#[global] Arguments PutM {_} s k.
#[global] Arguments Call {_} c k.

Fixpoint pbind {A B} (f : A → prog B) (p : prog A) : prog B :=
  match p with
  | Ret a => f a
  | Panic msg => Panic msg
  | OutOfFuel => OutOfFuel
  | GetM k => GetM (λ s, pbind f (k s))
  | PutM s k => PutM s (pbind f k)
  | Call c k => Call c (λ a, pbind f (k a))
  end.

#[global] Instance prog_ret : MRet prog := @Ret.
#[global] Instance prog_bind : MBind prog := @pbind.

(** One call, answered. *)
Definition call_ (c : call) : prog (ans c) := Call c Ret.

(** A critical section of the mutex guarding the maps. *)
Definition locked {A} (f : mem → A * mem) : prog A :=
  Call MuLock (λ _, GetM (λ s, let '(a, s') := f s in PutM s' (Ret a))).

(** An atomic operation on a [sync.Map]; [Yield] marks that other goroutines may
    run before it. *)
Definition atomically {A} (f : mem → A * mem) : prog A :=
  Call Yield (λ _, GetM (λ s, let '(a, s') := f s in PutM s' (Ret a))).

(** The entries of a Go map, in the order the environment picks. *)
Definition ranged {A} (l : list A) : prog (list A) :=
  Call MapOrder (λ code, Ret (range_order code l)).

(** [for _, x := range l { ... }] over a fixed list. *)
Fixpoint for_each {A} (l : list A) (body : A → prog unit) : prog unit :=
  match l with
  | [] => Ret tt
  | x :: l' => body x ≫= λ _, for_each l' body
  end.

(** ** Running against an environment *)

Record event := Ev { ev_call : call; ev_ans : ans ev_call }.

Inductive res (A : Type) := Done (a : A) | Panicked | Exhausted.
#[global] Arguments Done {_} a.
#[global] Arguments Panicked {_}.
#[global] Arguments Exhausted {_}.

Record outcome (A W : Type) := Out {
  o_res : res A;
  o_mem : mem;
  o_world : W;
  o_trace : list event
}.
#[global] Arguments Out {_ _} _ _ _ _.
#[global] Arguments o_res {_ _} _.
#[global] Arguments o_mem {_ _} _.
#[global] Arguments o_world {_ _} _.
#[global] Arguments o_trace {_ _} _.

Definition env (W : Type) := ∀ c : call, mem → W → ans c * mem * W.

Fixpoint run {A W} (h : env W) (p : prog A) (s : mem) (w : W) : outcome A W :=
  match p with
  | Ret a => Out (Done a) s w []
  | Panic _ => Out Panicked s w []
  | OutOfFuel => Out Exhausted s w []
  | GetM k => run h (k s) s w
  | PutM s' k => run h k s' w
  | Call c k =>
      let '(a, s', w') := h c s w in
      let o := run h (k a) s' w' in
      Out (o_res o) (o_mem o) (o_world o) (Ev c a :: o_trace o)
  end.

(** An answer for every call: success where there is nothing to return, otherwise
    an error.  A concrete environment answers the calls it is about and leaves
    the others to this one. *)
Definition idle (c : call) : ans c :=
  match c return ans c with
  | MuLock | Yield | SrcLock _ | SrcUnlock _ | Go _ | Sleep _ | TimeAfter _ | NewTicker _ => tt
  | MapOrder => []
  | Now => 0
  | Select => CaseTick
  | Unmount _ _ | Mount _ _ _ _ _ _ => None
  | OpenDevFuse => Err (Errno ENOENT)
  | IoctlClone _ _ | CloseFd _ => None
  | CloseListener _ | CloseConn _ | SetDeadline _ _ | StartInformer _ _ => tt
  | IsMountPoint _ => (false, None)
  | GetMountRefs _ => ([], None)
  | ParseMountInfo _ => Ok []
  | OpenScan _ => Err (Errno ENOENT)
  | ReadFile _ | Readlink _ => Err (Errno ENOENT)
  | ReadDir _ => Ok []
  | Stat _ | Lstat _ => Err (Errno ENOENT)
  | WriteFile _ _ _ | Remove _ | MkdirAll _ _ | Chown _ _ _ | Lchown _ _ _ | Symlink _ _
  | WriteString _ _ | CloseFile _ | Rename _ _ => None
  | CreateTemp _ _ => Err (Errno ENOENT)
  | Chmod _ _ => None
  | OpenExcl _ _ | OpenDir _ | Openat2 _ _ _ _ => Err (Errno ENOENT)
  | FdWrite _ _ | FdChown _ _ _ => None
  | FdReadAll _ => Err (Errno EIO)
  | Listen _ | Sendmsg _ _ _ | Serve _ => None
  | Accept _ | ConnFile _ => Err (Errno EIO)
  | Recvmsg _ _ _ => Err (Errno EIO)
  | Getenv _ => ""
  | Hostname => Err (Errno EIO)
  | PodGet _ _ => Err (ApiStatus NotFound)
  | PodCreate _ | PodDelete _ _ => None
  | PodList _ _ _ => Ok []
  | CrdCreate _ | CrdUpdate _ _ | CrdUpdateStatus _ _ | CrdDelete _ => None
  | CrdGet _ => Err (ApiStatus NotFound)
  | CrdList _ => Ok []
  | CSINodeGet _ | NodeGet _ | PVCGet _ _ | PVGet _ => Err (ApiStatus NotFound)
  | NodePatch _ _ => None
  end.

Definition calls (tr : list event) : list call := ev_call <$> tr.

(** ** Weakest preconditions

    [rely] says how one call may be answered and how the memory and the world
    may change meanwhile. *)
Definition rely (W : Type) := ∀ c : call, mem → W → ans c → mem → W → Prop.

Definition env_ok {W} (R : rely W) (h : env W) : Prop :=
  ∀ c s w, let '(a, s', w') := h c s w in R c s w a s' w'.

(** No assumption at all. *)
Definition any {W} : rely W := λ _ _ _ _ _ _, True.

(** The memory does not change: no other goroutine runs. *)
Definition quiet {W} : rely W := λ _ s _ _ s' _, s' = s.

Definition post (A W : Type) := res A → mem → W → list event → Prop.

Fixpoint wp {A W} (R : rely W) (p : prog A) (s : mem) (w : W) (Q : post A W) : Prop :=
  match p with
  | Ret a => Q (Done a) s w []
  | Panic _ => Q Panicked s w []
  | OutOfFuel => Q Exhausted s w []
  | GetM k => wp R (k s) s w Q
  | PutM s' k => wp R k s' w Q
  | Call c k =>
      ∀ a s' w', R c s w a s' w' →
        wp R (k a) s' w' (λ r s2 w2 tr, Q r s2 w2 (Ev c a :: tr))
  end.

(** Every call a program can make, whatever the answers, satisfies [P]. *)
Fixpoint emits {A} (P : call → Prop) (p : prog A) : Prop :=
  match p with
  | Ret _ | Panic _ | OutOfFuel => True
  | GetM k => ∀ s, emits P (k s)
  | PutM _ k => emits P k
  | Call c k => P c ∧ ∀ a, emits P (k a)
  end.

(** A program that always returns, leaves the memory alone and makes only calls
    [P] allows. *)
Fixpoint simple {A} (P : call → Prop) (p : prog A) : Prop :=
  match p with
  | Ret _ => True
  | Call c k => P c ∧ ∀ a, simple P (k a)
  | _ => False
  end.

(** A program that neither panics nor runs out of fuel. *)
Fixpoint returns {A} (p : prog A) : Prop :=
  match p with
  | Ret _ => True
  | Panic _ | OutOfFuel => False
  | GetM k => ∀ s, returns (k s)
  | PutM _ k => returns k
  | Call _ k => ∀ a, returns (k a)
  end.

(** ** Laws *)

Lemma returns_run {A W} (h : env W) (p : prog A) s w :
  returns p → ∃ a, o_res (run h p s w) = Done a.
Proof.
  revert s w. induction p as [a|msg| |k IH|s0 k IH|c k IH]; intros s w; simpl; try done; eauto.
  destruct (h c s w) as [[a s'] w']. simpl. eauto.
Qed.

Lemma returns_bind {A B} (p : prog A) (f : A → prog B) :
  returns p → (∀ a, returns (f a)) → returns (p ≫= f).
Proof.
  unfold mbind, prog_bind. induction p as [a|msg| |k IH|s0 k IH|c k IH]; simpl; eauto; done.
Qed.

Lemma returns_ret {A} (a : A) : returns (mret a).
Proof. exact I. Qed.

Lemma returns_call c : returns (call_ c).
Proof. by intros a. Qed.

Lemma returns_atomically {A} (f : mem → A * mem) : returns (atomically f).
Proof. intros ? s. by destruct (f s). Qed.

Lemma returns_for_each {A} (l : list A) body :
  (∀ x, returns (body x)) → returns (for_each l body).
Proof. intros Hb. induction l as [|x l IH]; [exact I|]. by apply returns_bind. Qed.

Lemma run_wp {A W} (R : rely W) h (p : prog A) s w (Q : post A W) :
  env_ok R h → wp R p s w Q →
  let o := run h p s w in Q (o_res o) (o_mem o) (o_world o) (o_trace o).
Proof.
  intros Hh. revert s w Q. induction p as [a|msg| |k IH|s0 k IH|c k IH]; intros s w Q; simpl; try done.
  - apply IH.
  - apply IH.
  - specialize (Hh c s w). destruct (h c s w) as [[a s'] w']. intros Hwp.
    apply (IH a s' w' (λ r s2 w2 tr, Q r s2 w2 (Ev c a :: tr))). by apply Hwp.
Qed.

Lemma wp_mono {A W} (R : rely W) (p : prog A) s w (Q Q' : post A W) :
  (∀ r s' w' tr, Q r s' w' tr → Q' r s' w' tr) → wp R p s w Q → wp R p s w Q'.
Proof.
  revert s w Q Q'. induction p as [a|msg| |k IH|s0 k IH|c k IH]; intros s w Q Q' HQ; simpl; eauto.
  intros Hwp a s' w' HR. eapply IH; [|by apply Hwp]. eauto.
Qed.

Definition bind_post {A B W} (R : rely W) (f : A → prog B) (Q : post B W) : post A W :=
  λ r s w tr,
    match r with
    | Done a => wp R (f a) s w (λ r' s' w' tr', Q r' s' w' (tr ++ tr'))
    | Panicked => Q Panicked s w tr
    | Exhausted => Q Exhausted s w tr
    end.

Lemma wp_bind {A B W} (R : rely W) (p : prog A) (f : A → prog B) s w (Q : post B W) :
  wp R p s w (bind_post R f Q) → wp R (p ≫= f) s w Q.
Proof.
  unfold mbind, prog_bind. revert s w Q.
  induction p as [a|msg| |k IH|s0 k IH|c k IH]; intros s w Q; simpl; try done; eauto.
Qed.

(** A stronger assumption on the environment. *)
Lemma wp_rely {A W} (R R' : rely W) (p : prog A) s w (Q : post A W) :
  (∀ c s w a s' w', R' c s w a s' w' → R c s w a s' w') → wp R p s w Q → wp R' p s w Q.
Proof.
  intros HR. revert s w Q. induction p as [a|msg| |k IH|s0 k IH|c k IH]; intros s w Q; simpl; eauto 10.
Qed.

Lemma wp_any_rely {A W} (R : rely W) (p : prog A) s w (Q : post A W) :
  wp any p s w Q → wp R p s w Q.
Proof.
  revert s w Q. induction p as [a|msg| |k IH|s0 k IH|c k IH]; intros s w Q; simpl; eauto.
  intros Hwp a s' w' _. by apply IH, Hwp.
Qed.

(** A reflexive and transitive relation every call preserves holds from start to
    end. *)
Lemma wp_grows {A W} (R : rely W) (G : W → W → Prop) (p : prog A) s w (Q : post A W) :
  Reflexive G → Transitive G → (∀ c s w a s' w', R c s w a s' w' → G w w') →
  wp R p s w Q → wp R p s w (λ r s' w' tr, Q r s' w' tr ∧ G w w').
Proof.
  intros Hr Ht HG. revert s w Q.
  induction p as [a|msg| |k IH|s0 k IH|c k IH]; intros s w Q; simpl; eauto.
  intros Hwp a s' w' HR. eapply wp_mono; [|apply IH; by apply Hwp].
  intros r s2 w2 tr [HQ Hg]. split; [done|]. etrans; [by eapply HG|done].
Qed.

Lemma emits_bind {A B} P (p : prog A) (f : A → prog B) :
  emits P p → (∀ a, emits P (f a)) → emits P (p ≫= f).
Proof.
  unfold mbind, prog_bind. induction p as [a|msg| |k IH|s0 k IH|c k IH]; simpl; auto.
  intros [Hc Hk] Hf. split; auto.
Qed.

Lemma emits_mono {A} (P P' : call → Prop) (p : prog A) :
  (∀ c, P c → P' c) → emits P p → emits P' p.
Proof.
  intros HP. induction p as [a|msg| |k IH|s0 k IH|c k IH]; simpl; auto.
  intros [Hc Hk]. split; auto.
Qed.

Lemma emits_ret {A} P (a : A) : emits P (mret a).
Proof. exact I. Qed.

Lemma emits_call P c : P c → emits P (call_ c).
Proof. by split. Qed.

Lemma emits_locked {A} P (f : mem → A * mem) : P MuLock → emits P (locked f).
Proof. intros HP. split; [done|]. intros _ s. by destruct (f s). Qed.

Lemma emits_for_each {A} P (l : list A) body :
  (∀ x, emits P (body x)) → emits P (for_each l body).
Proof.
  intros Hb. induction l as [|x l IH]; [done|]. simpl. apply emits_bind; auto.
Qed.

Lemma wp_emits {A W} (R : rely W) P (p : prog A) s w (Q : post A W) :
  emits P p → wp R p s w Q → wp R p s w (λ r s' w' tr, Q r s' w' tr ∧ Forall P (calls tr)).
Proof.
  revert s w Q. induction p as [a|msg| |k IH|s0 k IH|c k IH]; intros s w Q; simpl.
  1,2,3: intros _ HQ; split; [done|constructor].
  1,2: intros He; apply IH; apply He.
  intros [Hc He] Hwp a s' w' HR. eapply wp_mono; [|apply IH; [apply He|by apply Hwp]].
  intros r s2 w2 tr [HQ Hf]. split; [done|]. by constructor.
Qed.

(** Any program satisfies the trivial postcondition. *)
Lemma wp_true {A W} (R : rely W) (p : prog A) s w : wp R p s w (λ _ _ _ _, True).
Proof. revert s w. induction p as [a|msg| |k IH|s0 k IH|c k IH]; intros s w; simpl; auto. Qed.

Lemma wp_and {A W} (R : rely W) (p : prog A) s w (Q Q' : post A W) :
  wp R p s w Q → wp R p s w Q' → wp R p s w (λ r s' w' tr, Q r s' w' tr ∧ Q' r s' w' tr).
Proof.
  revert s w Q Q'. induction p as [a|msg| |k IH|s0 k IH|c k IH]; intros s w Q Q'; simpl; auto.
Qed.

Lemma simple_bind {A B} P (p : prog A) (f : A → prog B) :
  simple P p → (∀ a, simple P (f a)) → simple P (p ≫= f).
Proof.
  unfold mbind, prog_bind. induction p as [a|msg| |k IH|s0 k IH|c k IH]; simpl; auto; try done.
  intros [Hc Hk] Hf. split; auto.
Qed.

Lemma simple_ret {A} P (a : A) : simple P (mret a).
Proof. exact I. Qed.

Lemma simple_call P c : P c → simple P (call_ c).
Proof. by split. Qed.

Lemma simple_for_each {A} P (l : list A) body :
  (∀ x, simple P (body x)) → simple P (for_each l body).
Proof.
  intros Hb. induction l as [|x l IH]; [done|]. simpl. apply simple_bind; auto.
Qed.

Lemma simple_emits {A} P (p : prog A) : simple P p → emits P p.
Proof.
  induction p as [a|msg| |k IH|s0 k IH|c k IH]; simpl; try done.
  intros [Hc Hk]. split; auto.
Qed.

Lemma wp_simple {A W} P (p : prog A) s (w : W) :
  simple P p →
  wp quiet p s w (λ r s' _ tr, (∃ a, r = Done a) ∧ s' = s ∧ Forall P (calls tr)).
Proof.
  revert w. induction p as [a|msg| |k IH|s0 k IH|c k IH]; intros w; simpl; try done.
  - intros _. split_and!; eauto.
  - intros [Hc Hk] a s' w' ->. eapply wp_mono; [|by apply IH].
    intros r s2 w2 tr (Hr & -> & Hf). split_and!; [done..|]. by constructor.
Qed.

Lemma wp_returns {A W} (R : rely W) (p : prog A) s w :
  returns p → wp R p s w (λ r _ _ _, ∃ a, r = Done a).
Proof.
  revert s w. induction p as [a|msg| |k IH|s0 k IH|c k IH]; intros s w; simpl; try done; eauto.
Qed.

Lemma env_ok_any {W} (h : env W) : env_ok any h.
Proof. intros c s w. by destruct (h c s w) as [[a s'] w']. Qed.
End Effects.

#[export] Hint Resolve emits_ret emits_call emits_locked emits_for_each emits_bind : go_trace.

(** Proves [emits P p] by following the structure of [p]; [P] is decided on each
    call by the given tactic. *)
Ltac go_emits tac :=
  repeat first
    [ exact I
    | progress intros
    | apply emits_ret
    | apply emits_call; solve [tac]
    | apply emits_locked; solve [tac]
    | apply emits_for_each
    | apply emits_bind
    | split; [solve [tac]|]
    | progress case_match
    | progress simpl ].

(** Proves [returns p] by following the structure of [p]; lemmas about sub-programs
    are in the hint database [go_returns]. *)
Create HintDb go_returns.
#[export] Hint Resolve returns_ret returns_atomically : go_returns.
#[export] Hint Extern 1 (returns (call_ ?c)) => exact (returns_call c) : go_returns.

Ltac go_returns :=
  repeat first
    [ exact I
    | solve [eauto 2 with go_returns nocore]
    | progress intros
    | apply returns_for_each
    | apply returns_bind
    | progress case_match ].

(** The same for [simple P p]. *)
Ltac go_simple tac :=
  repeat first
    [ exact I
    | progress intros
    | apply simple_ret
    | apply simple_call; solve [tac]
    | apply simple_for_each
    | apply simple_bind
    | split; [solve [tac]|]
    | progress case_match
    | progress simpl ].
