(* ===== verification/History.v ===== *)
(** * Orders of calls

    What may be called when: a program [respects] a protocol when each of its
    calls is allowed by the calls and answers before it, whatever the answers are.
    [respects_run] reads this off the trace of every run. *)
From S2P Require Import Prelude GoStrings GoErrors Unstructured Resources Kube Effects.

Section History.
Context `{QuantityLib}.

(** [P hist c]: after the events [hist], the call [c] is allowed. *)
Fixpoint respects {A} (P : list event → call → Prop) (p : prog A) (hist : list event)
    (Q : A → list event → Prop) : Prop :=
  match p with
  | Ret a => Q a hist
  | Panic _ | OutOfFuel => True
  | GetM k => ∀ s, respects P (k s) hist Q
  | PutM _ k => respects P k hist Q
  | Call c k => P hist c ∧ ∀ a, respects P (k a) (hist ++ [Ev c a]) Q
  end.

Lemma respects_mono {A} P (p : prog A) hist (Q Q' : A → list event → Prop) :
  (∀ a h, Q a h → Q' a h) → respects P p hist Q → respects P p hist Q'.
Proof.
  intros HQ. revert hist. induction p as [a|msg| |k IH|s0 k IH|c k IH]; intros hist; simpl; eauto.
  intros [Hc Hk]. split; eauto.
Qed.

Lemma respects_bind {A B} P (p : prog A) (f : A → prog B) hist Q :
  respects P p hist (λ a h, respects P (f a) h Q) → respects P (p ≫= f) hist Q.
Proof.
  unfold mbind, prog_bind. revert hist.
  induction p as [a|msg| |k IH|s0 k IH|c k IH]; intros hist; simpl; eauto.
  intros [Hc Hk]. split; eauto.
Qed.

(** In sequence, when the first part leaves an invariant of the history. *)
Lemma respects_for_each {A} P (l : list A) body (I : list event → Prop) hist :
  (∀ x h, x ∈ l → I h → respects P (body x) h (λ _, I)) → I hist →
  respects P (for_each l body) hist (λ _, I).
Proof.
  revert hist. induction l as [|x l IH]; intros hist Hb Hi; [done|].
  apply (respects_bind P (body x) (λ _, for_each l body)).
  eapply respects_mono; [|apply Hb; [by left|done]]. intros ? h Hi'. apply IH; [|done].
  intros y h' Hy. apply Hb. by right.
Qed.

(** The history a program leaves extends the one it starts from. *)
Lemma respects_extends {A} P (p : prog A) hist (Q : A → list event → Prop) :
  respects P p hist Q → respects P p hist (λ a h, Q a h ∧ hist `prefix_of` h).
Proof.
  revert hist. induction p as [a|msg| |k IH|s0 k IH|c k IH]; intros hist; simpl; eauto.
  intros [Hc Hk]. split; [done|]. intros a. eapply respects_mono; [|by apply IH].
  intros b h [HQ Hp]. split; [done|]. etrans; [|exact Hp]. by apply prefix_app_r.
Qed.

Lemma respects_run_from {A W} P (h : env W) (p : prog A) hist Q s w :
  respects P p hist Q →
  let o := run h p s w in
  (∀ pre e post, o_trace o = pre ++ e :: post → P (hist ++ pre) (ev_call e)) ∧
  (∀ a, o_res o = Done a → Q a (hist ++ o_trace o)).
Proof.
  revert hist s w. induction p as [a|msg| |k IH|s0 k IH|c k IH]; intros hist s w; simpl.
  - intros HQ. split; [by intros []|]. intros ? [= <-]. by rewrite app_nil_r.
  - split; [by intros []|done].
  - split; [by intros []|done].
  - intros Hk. by apply IH.
  - intros Hk. by apply IH.
  - intros [Hc Hk]. destruct (h c s w) as [[a s'] w']. simpl.
    destruct (IH a _ s' w' (Hk a)) as [H1 H2]. split.
    + intros [|e' pre] e post Htr; injection Htr as <- Htr; [by rewrite app_nil_r|].
      specialize (H1 _ _ _ Htr). by rewrite <-app_assoc in H1.
    + intros b Hb. specialize (H2 _ Hb). by rewrite <-app_assoc in H2.
Qed.

Lemma respects_run {A W} P (h : env W) (p : prog A) Q s w :
  respects P p [] Q →
  let o := run h p s w in
  (∀ pre e post, o_trace o = pre ++ e :: post → P pre (ev_call e)) ∧
  (∀ a, o_res o = Done a → Q a (o_trace o)).
Proof. apply (respects_run_from P h p []). Qed.
End History.

(** Membership in a history that grows at its end. *)
Ltac in_hist :=
  first [ assumption
        | apply elem_of_app; right; apply list_elem_of_singleton; reflexivity
        | apply elem_of_app; left; in_hist
        | by left
        | right; in_hist ].
