(* ===== verification/MountInfo.v ===== *)
(** * The kernel mount table

    Parsing of /proc/<pid>/mountinfo (pkg/driver/fuse_mountinfo.go,
    mount_linux.go) and the operations that consult it: which FUSE connection
    backs a mount point, whether a bind is backed by its source's current
    superblock, and the abort of a connection (unmount_linux.go). *)
From S2P Require Import Prelude GoStrings GoErrors Unstructured Resources Kube Effects.
From Stdlib Require Import Ascii.

Local Open Scope Z_scope.

(** ** bufio.Scanner over lines *)

Definition newline : ascii := chr 10.
Definition drop_cr (l : string) : string :=
  if HasSuffix l (str1 (chr 13)) then s_take (String.length l - 1) l else l.

(** Lines up to the first that does not fit the buffer; [max] is its size. The
    piece after the last newline is a line only when it is not empty. *)
Fixpoint scan_pieces (max : Z) (pieces : list string) : list string * bool :=
  match pieces with
  | [] => ([], false)
  | l :: rest =>
      if String.eqb l "" && match rest with [] => true | _ => false end then ([], false)
      else if max <=? Z.of_nat (String.length l) then ([], true)
      else let '(ls, long) := scan_pieces max rest in (drop_cr l :: ls, long)
  end.

(** The lines read and [Scanner.Err]. *)
Definition scan_lines (max : Z) (r : stream) : list string * option gerror :=
  let '(ls, long) := scan_pieces max (Split (content r) newline) in
  (ls, if long then Some (OtherErr "bufio.Scanner: token too long") else read_error r).

Definition MaxScanTokenSize : Z := 64 * 1024.
Definition mountinfoBuffer : Z := 1024 * 1024.

(** ** fuse_mountinfo.go *)

Record fuseMount := {
  minor : Z;
  mountpoint : string;
  fstype : string;
  source : string
}.

(** Index of the first ["-"] field. *)
Fixpoint find_sep (fields : list string) : option nat :=
  match fields with
  | [] => None
  | f :: fs => if String.eqb f "-" then Some 0%nat else S <$> find_sep fs
  end.

(** The minor of a [major:minor] field. *)
Definition minor_of (majMin : string) : option Z :=
  match SplitN2 majMin ":" with
  | [_; m] => Atoi m
  | _ => None
  end.

(** The body of the loop of [parseFuseMinor]: [None] is [continue]. *)
Definition fuse_minor_line (mountPoint line : string) : option Z :=
  let fields := Fields line in
  if (length fields <? 5)%nat || negb (String.eqb (default "" (fields !! 4%nat))%string mountPoint)
  then None
  else match find_sep fields with
       | None => None
       | Some sep =>
           if (length fields <=? sep + 1)%nat
              || negb (HasPrefix (default "" (fields !! (sep + 1)%nat))%string "fuse")
           then None
           else minor_of (default "" (fields !! 2%nat))%string
       end.

(** The first line that matches; a scanner error is not looked at. *)
Definition parseFuseMinor (r : stream) (mountPoint : string) : option Z :=
  head (omap (fuse_minor_line mountPoint) (scan_lines mountinfoBuffer r).1).

Definition fuse_mount_line (line : string) : option fuseMount :=
  let fields := Fields line in
  if (length fields <? 5)%nat then None
  else match find_sep fields with
       | None => None
       | Some sep =>
           if (length fields <=? sep + 2)%nat then None
           else
             let fst_ := (default "" (fields !! (sep + 1)%nat))%string in
             if negb (HasPrefix fst_ "fuse") then None
             else match minor_of (default "" (fields !! 2%nat))%string with
                  | None => None
                  | Some m =>
                      Some {| minor := m; mountpoint := (default "" (fields !! 4%nat))%string;
                              fstype := fst_;
                              source := (default "" (fields !! (sep + 2)%nat))%string |}
                  end
       end.

Definition parseFuseMounts (r : stream) : result (list fuseMount) :=
  let '(ls, err) := scan_lines mountinfoBuffer r in
  match err with
  | Some e => Err e
  | None => Ok (omap fuse_mount_line ls)
  end.

(** ** mount_linux.go *)

Definition backslash : ascii := chr 92.

Fixpoint unescape_go (p : string) : string :=
  match p with
  | EmptyString => ""
  | String c p' =>
      match (if Ascii.eqb c backslash
             then match p' with
                  | String a (String b (String d rest)) =>
                      match ParseUint8 (String a (String b (str1 d))) with
                      | Some v => Some (String (chr v) (unescape_go rest))
                      | None => None
                      end
                  | _ => None
                  end
             else None) with
      | Some r => r
      | None => String c (unescape_go p')
      end
  end.

Definition unescapeMountPath (p : string) : string :=
  if negb (Contains p (str1 backslash)) then p else unescape_go p.

(** The backing, major:minor and root, of the topmost mounts at [target] and
    [source_] seen so far. *)
Definition bound_line (target source_ : string) (tops : string * string) (line : string)
  : string * string :=
  let fields := Fields line in
  if (length fields <? 5)%nat then tops
  else
    let backing := (default "" (fields !! 2%nat) +++ " " +++ default "" (fields !! 3%nat))%string in
    let mp := unescapeMountPath (default "" (fields !! 4%nat))%string in
    if String.eqb mp target then (backing, tops.2)
    else if String.eqb mp source_ then (tops.1, backing)
    else tops.

Definition bound_in (r : stream) (target source_ : string) : bool :=
  let '(ls, err) := scan_lines MaxScanTokenSize r in
  let '(targetTop, sourceTop) := fold_left (bound_line target source_) ls (""%string, ""%string) in
  match err with
  | Some _ => false
  | None => negb (String.eqb targetTop "") && String.eqb targetTop sourceTop
  end.

(** ** Specification: the table the kernel prints *)

(** One line of mountinfo, its fields already escaped as printed. *)
Record entry := Entry {
  e_id : string;
  e_parent : string;
  e_major : Z;
  e_minor : Z;
  e_root : string;
  e_mountpoint : string;
  e_options : string;
  e_tags : list string;
  e_fstype : string;
  e_source : string;
  e_super : string
}.

Definition e_majmin (e : entry) : string := Itoa (e_major e) +++ ":" +++ Itoa (e_minor e).

Definition e_head (e : entry) : list string :=
  [e_id e; e_parent e; e_majmin e; e_root e; e_mountpoint e; e_options e] ++ e_tags e.

Definition e_fields (e : entry) : list string :=
  e_head e ++ ["-"%string; e_fstype e; e_source e; e_super e].

Definition e_line (e : entry) : string := Join (e_fields e) " ".

(** Fields are non-empty and without white space, no optional field is a dash,
    the minor is an [int], and the line fits the scanner's buffer. *)
Record wf_entry (max : Z) (e : entry) : Prop := {
  wf_words : Forall (λ w, w ≠ ""%string ∧ spaceless w = true) (e_fields e);
  wf_dash : Forall (λ w, w ≠ "-"%string) (e_head e);
  wf_minor : -(2^63) ≤ e_minor e < 2^63;
  wf_length : Z.of_nat (String.length (e_line e)) < max
}.

Definition wf_entryb (max : Z) (e : entry) : bool :=
  forallb (λ w, negb (String.eqb w "") && spaceless w) (e_fields e) &&
  forallb (λ w, negb (String.eqb w "-")) (e_head e) &&
  in_int64 (e_minor e) && (Z.of_nat (String.length (e_line e)) <? max).

Fixpoint render_lines (ls : list string) : string :=
  match ls with
  | [] => ""
  | l :: ls' => l +++ String newline (render_lines ls')
  end.

Definition table (es : list entry) : stream :=
  {| content := render_lines (e_line <$> es); read_error := None |}.

Definition is_fuse (e : entry) : bool := HasPrefix (e_fstype e) "fuse".

Definition to_fuse (e : entry) : option fuseMount :=
  if is_fuse e
  then Some {| minor := e_minor e; mountpoint := e_mountpoint e; fstype := e_fstype e;
               source := e_source e |}
  else None.

Definition minor_at (mp : string) (e : entry) : option Z :=
  if String.eqb (e_mountpoint e) mp && is_fuse e then Some (e_minor e) else None.

(** The kernel's escaping of space, tab, newline and backslash in paths. *)
Definition octal (c : ascii) : string :=
  String backslash (String (chr (48 + byte c / 64))
    (String (chr (48 + (byte c / 8) `mod` 8)) (str1 (chr (48 + byte c `mod` 8))))).

Fixpoint mangle (p : string) : string :=
  match p with
  | EmptyString => ""
  | String c p' =>
      (if existsb (Ascii.eqb c) [chr 32; chr 9; chr 10; backslash] then octal c else str1 c)
        +++ mangle p'
  end.

Definition backing (e : entry) : string := e_majmin e +++ " " +++ e_root e.

(** The backing of the topmost mount at [p]: the last entry for it. *)
Definition top_backing (p : string) (es : list entry) : option string :=
  backing <$> last (filter (λ e, unescapeMountPath (e_mountpoint e) = p) es).

Section Ops.
Context `{QuantityLib}.

Definition selfMountinfo : string := "/proc/self/mountinfo".

Definition bindMount (source_ target : string) : prog (option gerror) :=
  call_ (Mount source_ target "" true false "").

Definition boundToCurrentSource (target source_ : string) : prog bool :=
  f ← call_ (OpenScan selfMountinfo);
  match f with
  | Err _ => mret false
  | Ok r => mret (bound_in r target source_)
  end.

(** ** unmount_linux.go *)

Definition fuseUnmount (target : string) : prog (option gerror) := call_ (Unmount target true).

Definition fuseMinorForMount (mountPoint : string) : prog (option Z) :=
  f ← call_ (OpenScan selfMountinfo);
  match f with
  | Err _ => mret None
  | Ok r => mret (parseFuseMinor r mountPoint)
  end.

Definition abort_path (minor_ : Z) : string :=
  "/sys/fs/fuse/connections/" +++ Itoa minor_ +++ "/abort".

(** Best effort: a failed write is only logged. *)
Definition abortFuseConnection (target : string) : prog unit :=
  m ← fuseMinorForMount target;
  match m with
  | None => mret tt
  | Some m => _ ← call_ (WriteFile (abort_path m) "1" 128); mret tt
  end.
End Ops.

(** ** Facts: the scanner *)

Lemma Split_render_lines ls :
  Forall (λ l, IndexByte l newline = None) ls → Split (render_lines ls) newline = ls ++ [""%string].
Proof.
  induction 1 as [|l ls Hl Hls IH]; [done|]. simpl. by rewrite Split_app, Split_no_sep, IH.
Qed.

Lemma drop_cr_id l : IndexByte l (chr 13) = None → drop_cr l = l.
Proof.
  intros H. unfold drop_cr. destruct (HasSuffix l (str1 (chr 13))) eqn:E; [|done].
  apply HasSuffix_spec in E as [a ->]. apply IndexByte_None in H.
  rewrite str_all_app in H. by apply andb_true_iff in H as [_ ?].
Qed.

Lemma scan_lines_render max ls err :
  Forall (λ l, l ≠ ""%string ∧ IndexByte l newline = None ∧ IndexByte l (chr 13) = None ∧
               Z.of_nat (String.length l) < max) ls →
  scan_lines max {| content := render_lines ls; read_error := err |} = (ls, err).
Proof.
  intros H. unfold scan_lines. simpl.
  rewrite Split_render_lines by (eapply Forall_impl; [exact H|]; by intros l (_ & ? & _)).
  assert (scan_pieces max (ls ++ [""%string]) = (ls, false)) as ->; [|done].
  induction H as [|l ls (Hn & _ & Hcr & Hl) Hls IH]; [done|].
  simpl. rewrite IH. rewrite (proj2 (String.eqb_neq _ _) Hn), (proj2 (Z.leb_gt _ _) Hl). simpl.
  by rewrite drop_cr_id.
Qed.

(** ** Facts: one line *)

Lemma find_sep_app pre post :
  Forall (λ w, w ≠ "-"%string) pre → find_sep (pre ++ "-"%string :: post) = Some (length pre).
Proof.
  induction 1 as [|w pre Hw Hpre IH]; [done|]. simpl.
  by rewrite (proj2 (String.eqb_neq _ _) Hw), IH.
Qed.

Lemma minor_of_majmin e : -(2^63) ≤ e_minor e < 2^63 → minor_of (e_majmin e) = Some (e_minor e).
Proof.
  intros H. unfold minor_of, e_majmin.
  change (":" +++ Itoa (e_minor e)) with (String ":" (Itoa (e_minor e))).
  rewrite SplitN2_app by by apply Itoa_no_byte. by apply Atoi_Itoa.
Qed.

Section Line.
Context (max : Z) (e : entry) (Hwf : wf_entry max e).

Lemma Fields_line : Fields (e_line e) = e_fields e.
Proof. apply Fields_Join, (wf_words _ _ Hwf). Qed.

Lemma fields_sep : find_sep (e_fields e) = Some (length (e_head e)).
Proof. apply find_sep_app, (wf_dash _ _ Hwf). Qed.

Lemma fields_tail k :
  e_fields e !! (length (e_head e) + S k)%nat = [e_fstype e; e_source e; e_super e] !! k.
Proof. unfold e_fields. by rewrite lookup_app_r, Nat.add_comm, Nat.add_sub by lia. Qed.

Lemma fuse_mount_line_entry : fuse_mount_line (e_line e) = to_fuse e.
Proof.
  unfold fuse_mount_line, to_fuse, is_fuse. rewrite Fields_line, fields_sep, !fields_tail.
  assert (length (e_fields e) = length (e_head e) + 4)%nat as -> by (unfold e_fields; by rewrite length_app).
  assert (6 ≤ length (e_head e))%nat by (unfold e_head; rewrite length_app; simpl; lia).
  rewrite (proj2 (Nat.ltb_ge _ _)), (proj2 (Nat.leb_gt _ _)) by lia. simpl.
  destruct (HasPrefix (e_fstype e) "fuse"); [|done]. simpl. by rewrite minor_of_majmin by apply (wf_minor _ _ Hwf).
Qed.

Lemma fuse_minor_line_entry mp : fuse_minor_line mp (e_line e) = minor_at mp e.
Proof.
  unfold fuse_minor_line, minor_at, is_fuse. rewrite Fields_line, fields_sep, !fields_tail.
  assert (length (e_fields e) = length (e_head e) + 4)%nat as -> by (unfold e_fields; by rewrite length_app).
  assert (6 ≤ length (e_head e))%nat by (unfold e_head; rewrite length_app; simpl; lia).
  rewrite (proj2 (Nat.ltb_ge _ _)), (proj2 (Nat.leb_gt _ _)) by lia. simpl.
  destruct (String.eqb (e_mountpoint e) mp); [|done]. simpl.
  destruct (HasPrefix (e_fstype e) "fuse"); [|done]. simpl. by rewrite minor_of_majmin by apply (wf_minor _ _ Hwf).
Qed.

Lemma bound_line_entry t s tops :
  bound_line t s tops (e_line e) =
    let mp := unescapeMountPath (e_mountpoint e) in
    if String.eqb mp t then (backing e, tops.2)
    else if String.eqb mp s then (tops.1, backing e) else tops.
Proof.
  unfold bound_line. rewrite Fields_line.
  assert (length (e_fields e) = length (e_head e) + 4)%nat as -> by (unfold e_fields; by rewrite length_app).
  assert (6 ≤ length (e_head e))%nat by (unfold e_head; rewrite length_app; simpl; lia).
  by rewrite (proj2 (Nat.ltb_ge _ _)) by lia.
Qed.

Lemma line_ok :
  e_line e ≠ ""%string ∧ IndexByte (e_line e) newline = None ∧ IndexByte (e_line e) (chr 13) = None ∧
  Z.of_nat (String.length (e_line e)) < max.
Proof.
  pose proof (wf_words _ _ Hwf) as Hw.
  assert (∀ c, c ∈ [chr 10; chr 13] → IndexByte (e_line e) c = None) as Hc.
  { intros c Hc. apply IndexByte_None, str_all_Join.
    - rewrite !elem_of_cons, elem_of_nil in Hc. by destruct Hc as [->|[->|[]]].
    - eapply Forall_impl; [exact Hw|]. intros w [_ Hs]. by apply spaceless_byte. }
  split_and!; [|apply Hc; set_solver|apply Hc; set_solver|apply (wf_length _ _ Hwf)].
  intros E. assert (Fields (e_line e) = []) as E' by by rewrite E.
  rewrite Fields_line in E'. by destruct e.
Qed.
End Line.

(** ** Facts: whole tables *)

Lemma scan_table max es : Forall (wf_entry max) es → scan_lines max (table es) = (e_line <$> es, None).
Proof.
  intros H. unfold table. apply scan_lines_render. apply Forall_fmap.
  eapply Forall_impl; [exact H|]. intros e He. by apply line_ok.
Qed.

Lemma omap_lines {B} max (f : string → option B) (g : entry → option B) es :
  (∀ e, wf_entry max e → f (e_line e) = g e) → Forall (wf_entry max) es →
  omap f (e_line <$> es) = omap g es.
Proof.
  intros Hfg. induction 1 as [|e es He Hes IH]; [done|]. simpl. rewrite Hfg by done.
  destruct (g e); [f_equal|]; exact IH.
Qed.

(** C30. The mount table round-trips: on the table the kernel prints for any list
    of mounts, with any number of optional fields, [parseFuseMounts] returns
    exactly the FUSE mounts among them, in order, with their minor, mount point,
    type and source; and [parseFuseMinor] returns the minor of the first FUSE
    mount at the given mount point. *)
Theorem mountinfo_roundtrip es mp :
  Forall (wf_entry mountinfoBuffer) es →
  parseFuseMounts (table es) = Ok (omap to_fuse es) ∧
  parseFuseMinor (table es) mp = head (omap (minor_at mp) es).
Proof.
  intros H. unfold parseFuseMounts, parseFuseMinor. rewrite scan_table by done. split.
  - f_equal. by apply (omap_lines mountinfoBuffer); [apply fuse_mount_line_entry|].
  - f_equal. apply (omap_lines mountinfoBuffer); [|done]. intros e He. by apply (fuse_minor_line_entry _ _ He).
Qed.

Lemma Forall_forallb {A} (f : A → bool) (P : A → Prop) l :
  (∀ x, f x = true → P x) → forallb f l = true → Forall P l.
Proof.
  intros HP H. apply Forall_forall. intros x Hx. apply HP.
  rewrite forallb_forall in H. by apply H, list_elem_of_In.
Qed.

Lemma wf_entryb_sound max e : wf_entryb max e = true → wf_entry max e.
Proof.
  unfold wf_entryb. rewrite !andb_true_iff. intros [[[Hw Hd] Hm] Hl]. split.
  - revert Hw. apply Forall_forallb. intros w [Hn Hs]%andb_true_iff.
    split; [|done]. by apply negb_true_iff, String.eqb_neq in Hn.
  - revert Hd. apply Forall_forallb. intros w Hn. by apply negb_true_iff, String.eqb_neq in Hn.
  - unfold in_int64 in Hm. by apply bool_decide_eq_true in Hm.
  - by apply Z.ltb_lt.
Qed.

Lemma wf_entries max es : forallb (wf_entryb max) es = true → Forall (wf_entry max) es.
Proof. apply Forall_forallb. intros e. apply wf_entryb_sound. Qed.

(** A table with a FUSE source, its bind on a kubelet target (one optional field)
    and a foreign mount. *)
Definition sample_entries : list entry :=
  [ Entry "36" "25" 0 41 "/" "/var/lib/hf-csi-driver/mnt/0a1b2c3d4e5f" "rw,nosuid" []
          "fuse" "hf-mount" "rw,user_id=0";
    Entry "37" "25" 0 41 "/" "/var/lib/kubelet/pods/u1/volumes/kubernetes.io~csi/v/mount" "rw"
          ["shared:12"%string] "fuse" "hf-mount" "rw,user_id=0";
    Entry "40" "25" 8 1 "/" "/data" "rw" ["shared:1"%string; "master:2"%string] "ext4" "/dev/sda1" "rw" ].

Example mountinfo_roundtrip_witness :
  parseFuseMounts (table sample_entries) =
    Ok [ {| minor := 41; mountpoint := "/var/lib/hf-csi-driver/mnt/0a1b2c3d4e5f"; fstype := "fuse";
            source := "hf-mount" |};
         {| minor := 41;
            mountpoint := "/var/lib/kubelet/pods/u1/volumes/kubernetes.io~csi/v/mount";
            fstype := "fuse"; source := "hf-mount" |} ] ∧
  parseFuseMinor (table sample_entries)
    "/var/lib/kubelet/pods/u1/volumes/kubernetes.io~csi/v/mount" = Some 41.
Proof.
  apply (mountinfo_roundtrip sample_entries
    "/var/lib/kubelet/pods/u1/volumes/kubernetes.io~csi/v/mount").
  apply wf_entries. vm_compute. reflexivity.
Defined.

(** ** Facts: the topmost backing *)

Lemma bound_fold max es t s tops :
  t ≠ s → Forall (wf_entry max) es →
  fold_left (bound_line t s) (e_line <$> es) tops =
    (default tops.1 (top_backing t es), default tops.2 (top_backing s es)).
Proof.
  intros Hne H. revert tops. induction es as [|e es IH] using rev_ind; intros tops; [by destruct tops|].
  apply Forall_app in H as [Hes He]. apply Forall_cons_1 in He as [He _].
  rewrite fmap_app, fold_left_app, IH by done. simpl. rewrite (bound_line_entry _ _ He).
  unfold top_backing. rewrite !filter_app. simpl.
  rewrite !filter_cons, !filter_nil.
  destruct (String.eqb_spec (unescapeMountPath (e_mountpoint e)) t) as [->|Ht].
  - rewrite decide_True, (decide_False (P := t = s)), app_nil_r, last_snoc by done. done.
  - rewrite (decide_False (P := _ = t)), app_nil_r by done.
    destruct (String.eqb_spec (unescapeMountPath (e_mountpoint e)) s) as [->|Hs].
    + rewrite decide_True, last_snoc by done. done.
    + rewrite decide_False, app_nil_r by done. done.
Qed.

Lemma backing_nonempty e : backing e ≠ ""%string.
Proof.
  unfold backing, e_majmin. pose proof (Itoa_nonempty (e_major e)).
  by destruct (Itoa (e_major e)).
Qed.

(** C29. [boundToCurrentSource] is exact on every table the kernel prints,
    however deep the mounts are stacked and whatever special characters the
    (unescaped) paths contain: it answers true iff both paths are mount points
    and their topmost mounts have the same device and root. *)
Theorem bound_in_exact es t s :
  t ≠ s → Forall (wf_entry MaxScanTokenSize) es →
  bound_in (table es) t s = true ↔
    ∃ b, top_backing t es = Some b ∧ top_backing s es = Some b.
Proof.
  intros Hne H. unfold bound_in. rewrite scan_table, (bound_fold _ _ _ _ _ Hne H) by done. simpl.
  assert (∀ p b, top_backing p es = Some b → b ≠ ""%string) as Hb.
  { intros p b. unfold top_backing. destruct (last _); [|done]. intros [= <-]. apply backing_nonempty. }
  rewrite andb_true_iff, negb_true_iff, String.eqb_neq, String.eqb_eq.
  destruct (top_backing t es) as [b|] eqn:Et, (top_backing s es) as [b'|] eqn:Es; simpl.
  - split; [intros [_ ->]; eauto|]. intros (? & [= ->] & [= ->]). split; [by eapply Hb|done].
  - split; [intros [? ?]; done|]. by intros (? & _ & ?).
  - split; [by intros [? _]|]. by intros (? & ? & _).
  - split; [by intros [? _]|]. by intros (? & ? & _).
Qed.

(** After the daemon restarts, a new superblock (minor 42) is stacked over the
    source: the bind, still on minor 41, is not bound any more. *)
Definition restarted_entries : list entry :=
  sample_entries ++
  [ Entry "50" "36" 0 42 "/" "/var/lib/hf-csi-driver/mnt/0a1b2c3d4e5f" "rw" [] "fuse" "hf-mount" "rw" ].

Example bound_in_exact_witness :
  let t := "/var/lib/kubelet/pods/u1/volumes/kubernetes.io~csi/v/mount"%string in
  let s := "/var/lib/hf-csi-driver/mnt/0a1b2c3d4e5f"%string in
  bound_in (table sample_entries) t s = true ∧ bound_in (table restarted_entries) t s ≠ true.
Proof.
  intros t s. split.
  - apply (bound_in_exact sample_entries t s); [discriminate|apply wf_entries; vm_compute; reflexivity|].
    exists "0:41 /"%string. split; vm_compute; reflexivity.
  - intros Hb. apply (bound_in_exact restarted_entries t s) in Hb;
      [|discriminate|apply wf_entries; vm_compute; reflexivity].
    destruct Hb as (b & H1 & H2). vm_compute in H1, H2. congruence.
Defined.

(** ** Facts: escapes *)

Lemma chr_byte_id c : chr (byte c) = c.
Proof. apply byte_inj. rewrite chr_byte by apply byte_bounds. done. Qed.

Lemma octal_digits c :
  ParseUint8 (s_drop 1 (octal c)) = Some (byte c).
Proof.
  pose proof (byte_bounds c) as Hb.
  assert (forallb (λ z, match ParseUint8 (s_drop 1 (octal (chr z))) with
                        | Some v => v =? z | None => false end) (seqZ 0 256) = true) as H
    by by vm_compute.
  rewrite forallb_forall in H. specialize (H (byte c)).
  rewrite <- list_elem_of_In, elem_of_seqZ in H. specialize (H ltac:(lia)).
  rewrite chr_byte_id in H. destruct (ParseUint8 _); [|done]. by apply Z.eqb_eq in H as ->.
Qed.

Lemma unescape_go_mangle p : unescape_go (mangle p) = p.
Proof.
  induction p as [|c p IH]; [done|]. cbn [mangle].
  destruct (existsb _ _) eqn:E.
  - pose proof (octal_digits c) as Ho. unfold octal in *. simpl s_drop in Ho.
    rewrite !sapp_cons. cbn [unescape_go]. rewrite Ascii.eqb_refl.
    change (str1 ?x +++ ?y) with (String x y). cbv iota beta. rewrite Ho.
    by rewrite chr_byte_id, IH.
  - change (str1 c +++ mangle p) with (String c (mangle p)). cbn [unescape_go].
    cbn [existsb] in E. rewrite !orb_false_iff in E. destruct E as (_ & _ & _ & -> & _).
    cbv iota. by rewrite IH.
Qed.

Lemma mangle_no_backslash p : Contains (mangle p) (str1 backslash) = false → mangle p = p.
Proof.
  induction p as [|c p IH]; [done|]. cbn [mangle]. intros H.
  assert (Contains (mangle p) (str1 backslash) = false) as Hp.
  { destruct (Contains (mangle p) (str1 backslash)) eqn:E; [|done].
    apply Contains_spec in E as (a & b & E). rewrite E in H.
    match type of H with Contains (?x +++ _) _ = _ => set (y := x) in * end.
    rewrite <- sapp_assoc in H. rewrite (proj2 (Contains_spec _ _)) in H; eauto. }
  destruct (existsb _ _).
  - exfalso. rewrite (proj2 (Contains_spec _ _)) in H; [done|]. exists "". eexists. unfold octal. reflexivity.
  - by rewrite (IH Hp).
Qed.

(** [unescapeMountPath] inverts the kernel's escaping for every path, so a
    target with spaces, tabs, newlines or backslashes (even one that spells an
    escape sequence) is recognised in the mount table. *)
Theorem unescape_mangle p : unescapeMountPath (mangle p) = p.
Proof.
  unfold unescapeMountPath. destruct (Contains (mangle p) (str1 backslash)) eqn:E; simpl.
  - apply unescape_go_mangle.
  - by apply mangle_no_backslash.
Qed.

(** [parseFuseMinor] does neither: it compares the field as printed, so a mount
    point with a space is not found, and it stops at the first entry, so under a
    stack of mounts it names the buried connection, not the topmost one. *)
Theorem parseFuseMinor_raw_and_first :
  parseFuseMinor (table [Entry "36" "25" 0 41 "/" (mangle "/a b") "rw" [] "fuse" "hf-mount" "rw"]) "/a b" = None ∧
  parseFuseMinor (table [Entry "36" "25" 0 41 "/" "/t" "rw" [] "fuse" "hf-mount" "rw";
                         Entry "37" "36" 0 42 "/" "/t" "rw" [] "fuse" "hf-mount" "rw"]) "/t" = Some 41.
Proof. split; vm_compute; reflexivity. Qed.
