(* ===== verification/HFMount.v ===== *)
(** * The HFMount custom resource (pkg/driver/hfmount.go)

    One object per source mount: the arguments a mount pod is rebuilt from, and
    the workloads attached to the mount.  Several goroutines and a restarted
    plugin write it concurrently; every write is a read-modify-write on the
    version that was read. *)
From S2P Require Import Prelude GoStrings GoTime GoErrors Unstructured Resources Names Kube.
From S2P Require Import Effects.

Local Open Scope Z_scope.

Abbreviation obj_t := (gmap string uval).

(** ** Fields of an object *)

Definition spec_of (obj : obj_t) : option obj_t := as_map (obj !! "spec"%string).
Definition workloads_of (spec : option obj_t) : list uval := as_list (uget spec "workloads").

(** [wm, _ := w.(map[string]interface{}); wm[k]]. *)
Definition wfield (w : uval) (k : string) : option uval := uget (as_map (Some w)) k.

(** [wm["targetPath"] == targetPath]: an interface compared with a string. *)
Definition has_target (targetPath : string) (w : uval) : bool :=
  match wfield w "targetPath" with
  | Some (UStr s) => String.eqb s targetPath
  | _ => false
  end.

(** ** Operations *)

Section HFMount.
Context `{QuantityLib} `{TimeLib}.

Record hfMountSpec := {
  NodeName : string;
  SourceType : string;
  SourceID : string;
  MountPodName : string;
  MountPath : string;
  MountArgs : list string;
  SResources : MountResources
}.

Definition spec_map (s : hfMountSpec) : obj_t :=
  let spec := map_of_pairs [
    ("nodeName", UStr (NodeName s)); ("sourceType", UStr (SourceType s));
    ("sourceID", UStr (SourceID s)); ("mountPodName", UStr (MountPodName s));
    ("mountPath", UStr (MountPath s)); ("mountArgs", UList (UStr <$> MountArgs s));
    ("workloads", UList [])]%string in
  match ToUnstructured (SResources s) with
  | Some res => <["resources"%string := UMap res]> spec
  | None => spec
  end.

Definition hfmount_object (namespace name : string) (s : hfMountSpec) : obj_t :=
  map_of_pairs [
    ("apiVersion", UStr "hf.csi.huggingface.co/v1alpha1");
    ("kind", UStr "HFMount");
    ("metadata", UMap (map_of_pairs [
       ("name", UStr name); ("namespace", UStr namespace);
       ("labels", UMap (map_of_pairs [(labelNode, UStr (sanitizeLabelValue (NodeName s)))]))]));
    ("spec", UMap (spec_map s))]%string.

Definition crd_create (namespace name : string) (s : hfMountSpec) : prog (option gerror) :=
  call_ (CrdCreate (hfmount_object namespace name s)).

(** The spec of the object: [None] is the nil map of an object without one. *)
Definition crd_get (name : string) : prog (result (option obj_t)) :=
  obj ← call_ (CrdGet name);
  match obj with
  | Err e => mret (Err e)
  | Ok obj => mret (Ok (spec_of obj))
  end.

(** [spec[k] = v]: writing to the nil map panics. *)
Definition set_field (spec : option obj_t) (k : string) (v : uval) : prog obj_t :=
  match spec with
  | None => Panic "assignment to entry in nil map"
  | Some m => mret (<[k := v]> m)
  end.

(** The callback of [retryOnConflict]: the variable it sets, and either its error,
    [Ok None] for "not changed", or the changed spec, to be written back. *)
Definition mutation (A : Type) := option obj_t → prog (A * result (option obj_t)).

Fixpoint retry_loop {A} (attempts : nat) (name : string) (count : A) (mutate : mutation A)
  : prog (A * option gerror) :=
  match attempts with
  | O => mret (count, Some (Errorf "HFMount CRD %s: exceeded retry limit on conflict" [name] []))
  | S attempts' =>
      obj ← call_ (CrdGet name);
      match obj with
      | Err e => mret (count, Some e)
      | Ok obj =>
          '(count', r) ← mutate (spec_of obj);
          match r with
          | Err e => mret (count', Some e)
          | Ok None => mret (count', None)
          | Ok (Some spec') =>
              e ← call_ (CrdUpdate name (<["spec"%string := UMap spec']> obj));
              match e with
              | None => mret (count', None)
              | Some err => if IsConflict (Some err) then retry_loop attempts' name count' mutate
                            else mret (count', Some err)
              end
          end
      end
  end.

Definition retryOnConflict {A} (name : string) (count : A) (mutate : mutation A) :=
  retry_loop 5 name count mutate.

Definition workload_entry (podUID targetPath : string) (now : Z) : uval :=
  UMap (map_of_pairs [("podUID", UStr podUID); ("targetPath", UStr targetPath);
                      ("attachmentTime", UStr (FormatRFC3339 now))]%string).

Definition add_mutation (podUID targetPath : string) : mutation unit := λ spec,
  let workloads := workloads_of spec in
  if existsb (has_target targetPath) workloads then mret (tt, Ok None)
  else
    now ← call_ Now;
    spec' ← set_field spec "workloads" (UList (workloads ++ [workload_entry podUID targetPath now]));
    mret (tt, Ok (Some spec')).

Definition addWorkload (name podUID targetPath : string) : prog (option gerror) :=
  r ← retryOnConflict name tt (add_mutation podUID targetPath); mret r.2.

(** [if len(remaining) == len(workloads) { return false, nil }; spec[..] = ..]:
    shared end of the two removals. *)
Definition store_remaining (spec : option obj_t) (workloads remaining : list uval)
  : prog (Z * result (option obj_t)) :=
  let count := Z.of_nat (length remaining) in
  if (length remaining =? length workloads)%nat then mret (count, Ok None)
  else
    spec' ← set_field spec "workloads" (UList remaining);
    mret (count, Ok (Some spec')).

Definition keep_other (targetPath : string) (w : uval) : bool := negb (has_target targetPath w).

Definition removeWorkload (name targetPath : string) : prog (Z * option gerror) :=
  retryOnConflict name 0 (λ spec,
    let workloads := workloads_of spec in
    store_remaining spec workloads (List.filter (keep_other targetPath) workloads)).

Definition crd_list (nodeName : string) : prog (result (list obj_t)) :=
  call_ (CrdList (labelNode +++ "=" +++ sanitizeLabelValue nodeName)).

Definition isStale (now staleThreshold : Z) (w : uval) : bool :=
  let attachTime := ParseRFC3339 (as_str (wfield w "attachmentTime")) in
  negb (IsZero attachTime) && (staleThreshold <? Sub now attachTime).

Definition keep_workload (livePodUIDs : gset string) (now staleThreshold : Z) (w : uval) : bool :=
  bool_decide (as_str (wfield w "podUID") ∈ livePodUIDs) || negb (isStale now staleThreshold w).

Definition removeStaleWorkloads (name : string) (livePodUIDs : gset string) (staleThreshold : Z)
  : prog (Z * option gerror) :=
  retryOnConflict name 0 (λ spec,
    let workloads := workloads_of spec in
    now ← call_ Now;
    store_remaining spec workloads (List.filter (keep_workload livePodUIDs now staleThreshold) workloads)).

Definition updateStatus (name phase message : string) : prog (option gerror) :=
  obj ← call_ (CrdGet name);
  match obj with
  | Err e => mret (Some e)
  | Ok obj =>
      call_ (CrdUpdateStatus name
        (<["status"%string := UMap (map_of_pairs [("phase", UStr phase); ("message", UStr message)]%string)]>
           obj))
  end.

Definition crd_delete (name : string) : prog (option gerror) :=
  e ← call_ (CrdDelete name);
  if IsNotFound e then mret None else mret e.
End HFMount.

(** ** Specification: an API server with optimistic concurrency *)

Definition version (obj : obj_t) : string :=
  as_str (uget (as_map (obj !! "metadata"%string)) "resourceVersion").

(** What has happened to the objects: every state one has been in, and every
    update, by whomever, with the state it replaced. *)
Record crd_world := {
  states : list (string * obj_t);
  updates : list (string * obj_t * obj_t)
}.

Definition later (w w' : crd_world) : Prop :=
  (∀ x, x ∈ states w → x ∈ states w') ∧ (∀ x, x ∈ updates w → x ∈ updates w').

(** A resource version names one state of an object. *)
Definition versioned (w : crd_world) : Prop :=
  ∀ n o o', (n, o) ∈ states w → (n, o') ∈ states w → version o = version o' → o = o'.

Section HFMountSpec.
Context `{QuantityLib} `{TimeLib}.

(** The documented behaviour of the API server: a read answers with a state the
    object has been in; an update succeeds only on the version it replaces.
    Anything may happen in between: other clients write, the memory changes. *)
Definition api_server : rely crd_world := λ c _ w a _ w',
  later w w' ∧ (versioned w → versioned w') ∧
  match c return ans c → Prop with
  | CrdGet name => λ a, ∀ o, a = Ok o → (name, o) ∈ states w'
  | CrdUpdate name o => λ e, e = None →
      ∃ old, (name, old, o) ∈ updates w' ∧ (name, old) ∈ states w' ∧ version old = version o
  | _ => λ _, True
  end a.

Definition with_workloads (old : obj_t) (ws : list uval) : obj_t :=
  <["spec"%string := UMap (<["workloads"%string := UList ws]> (default ∅ (spec_of old)))]> old.

Definition tracked (targetPath : string) (o : obj_t) : bool :=
  existsb (has_target targetPath) (workloads_of (spec_of o)).

(** What a read-modify-write of [name] that returned nil did: nothing, because of
    a state [Q] it read; or one update, from a state to the changed state [P]. *)
Definition committed (name : string) (w : crd_world) (Q : obj_t → Prop) (P : obj_t → obj_t → Prop)
  : Prop :=
  (∃ o, (name, o) ∈ states w ∧ Q o) ∨
  (∃ old new, (name, old, new) ∈ updates w ∧ (name, old) ∈ states w ∧ P old new).

(** ** Facts *)

Lemma later_refl w : later w w.
Proof. by split. Qed.

Lemma later_trans : Transitive later.
Proof. intros w1 w2 w3 [H1 H2] [H3 H4]. split; auto. Qed.

Definition grows (w w' : crd_world) : Prop := later w w' ∧ (versioned w → versioned w').

Lemma grows_refl : Reflexive grows.
Proof. intros w. split; [apply later_refl|done]. Qed.

Lemma grows_trans : Transitive grows.
Proof. intros w1 w2 w3 [L1 V1] [L2 V2]. split; [by eapply later_trans|auto]. Qed.

Lemma version_with_spec o m : version (<["spec"%string := UMap m]> o) = version o.
Proof. unfold version. by rewrite lookup_insert_ne by done. Qed.

(** The loop, for any callback: [P tr o c spec'] and [Q tr o c] are what the callback
    establishes about the state it was given, from the calls [tr] it made. *)
Lemma retry_loop_committed {A} n name (count : A) (mutate : mutation A) s w
    (Q : list event → obj_t → A → Prop) (P : list event → obj_t → A → obj_t → Prop) :
  (∀ o s w, wp api_server (mutate (spec_of o)) s w (λ r _ _ tr,
     match r with
     | Done (c, Ok (Some spec')) => P tr o c spec'
     | Done (c, Ok None) => Q tr o c
     | Done (_, Err _) => True
     | Panicked => spec_of o = None
     | Exhausted => False
     end)) →
  versioned w →
  wp api_server (retry_loop n name count mutate) s w (λ r _ w' tr,
    match r with
    | Done (c, None) => ∃ trm, trm ⊆ tr ∧
        committed name w' (λ o, Q trm o c)
          (λ old new, ∃ spec', P trm old c spec' ∧ new = <["spec"%string := UMap spec']> old)
    | Done (_, Some _) => True
    | Panicked => ∃ o, (name, o) ∈ states w' ∧ spec_of o = None
    | Exhausted => False
    end).
Proof.
  intros Hm. revert count s w. induction n as [|n IH]; intros count s w Hw; [done|].
  simpl. intros obj s1 w1 (_ & Hv1 & Hget). destruct obj as [o|e]; simpl; [|done].
  specialize (Hget o eq_refl). specialize (Hv1 Hw). apply (wp_bind api_server (mutate (spec_of o))).
  eapply wp_mono; [|apply (wp_grows api_server grows);
    [exact grows_refl|exact grows_trans|by intros ??????(? & ? & _)|apply (Hm o s1 w1)]].
  intros r s2 w2 tr [Hr [[Hst _] Hv2]]. apply Hst in Hget. specialize (Hv2 Hv1). unfold bind_post.
  destruct r as [[c [[spec'|]|e]]| |]; simpl;
    [|exists tr; split; [set_solver|]; left; eauto|done|eauto|done].
  intros e s3 w3 (Hl & Hv3 & Hup). destruct e as [e|]; simpl.
  { destruct (has_reason Conflict e); simpl; [|done]. eapply wp_mono; [|by apply IH, Hv3].
    intros r s4 w4 tr'. destruct r as [[c' [e'|]]| |]; simpl; try done.
    intros (trm & Hsub & Hc). exists trm. split; [set_solver|done]. }
  exists tr. split; [set_solver|]. right. destruct (Hup eq_refl) as (old & Hin & Hold & Hver). rewrite version_with_spec in Hver.
  apply (Hv3 Hv2 name old o Hold) in Hver; [subst old|by apply Hl]. eauto 10.
Qed.

Lemma default_spec (o : obj_t) m : spec_of o = Some m → default ∅ (spec_of o) = m.
Proof. by intros ->. Qed.

Lemma store_remaining_wp o keep s w :
  wp api_server (store_remaining (spec_of o) (workloads_of (spec_of o))
                   (List.filter keep (workloads_of (spec_of o)))) s w
    (λ r _ _ _,
      match r with
      | Done (c, Ok (Some spec')) =>
          c = Z.of_nat (length (List.filter keep (workloads_of (spec_of o)))) ∧
          <["spec"%string := UMap spec']> o =
            with_workloads o (List.filter keep (workloads_of (spec_of o)))
      | Done (c, Ok None) =>
          c = Z.of_nat (length (List.filter keep (workloads_of (spec_of o)))) ∧
          forallb keep (workloads_of (spec_of o)) = true
      | Done (_, Err _) => True
      | Panicked => spec_of o = None
      | Exhausted => False
      end).
Proof.
  unfold store_remaining. destruct (Nat.eqb_spec (length (List.filter keep (workloads_of (spec_of o))))
    (length (workloads_of (spec_of o)))) as [E|E]; simpl.
  - split; [done|]. clear -E. revert E. generalize (workloads_of (spec_of o)) as l.
    induction l as [|x l IH]; simpl; [done|]. pose proof (List.filter_length_le keep l).
    destruct (keep x); simpl in *; [|lia]. intros [= E]. by rewrite IH.
  - unfold with_workloads. by destruct (spec_of o) as [m|] eqn:Es; simpl.
Qed.

Lemma addWorkload_wp name podUID target s w :
  versioned w →
  wp api_server (addWorkload name podUID target) s w (λ r _ w' _,
    match r with
    | Done None =>
        committed name w' (λ old, tracked target old = true)
          (λ old new, tracked target old = false ∧ ∃ now,
             new = with_workloads old
               (workloads_of (spec_of old) ++ [workload_entry podUID target now]))
    | Done (Some _) => True
    | Panicked => ∃ old, (name, old) ∈ states w' ∧ spec_of old = None
    | Exhausted => False
    end).
Proof.
  intros Hw. unfold addWorkload. apply wp_bind. eapply wp_mono.
  2: { apply (retry_loop_committed 5 name tt _ s w (λ _ old _, tracked target old = true)
         (λ _ old _ spec', tracked target old = false ∧ ∃ now,
            <["spec"%string := UMap spec']> old =
              with_workloads old (workloads_of (spec_of old) ++ [workload_entry podUID target now]))); [|done].
       intros o s1 w1. unfold add_mutation. fold (tracked target o).
       destruct (tracked target o) eqn:Et; simpl; [done|]. intros now s2 w2 _.
       unfold with_workloads. destruct (spec_of o) as [m|] eqn:Es; simpl; eauto. }
  intros r s' w' tr. destruct r as [[c [e|]]| |]; simpl; try done.
  intros (trm & _ & [Hq|(old & new & ? & ? & spec' & (? & now & E) & ->)]); [by left|].
  right. eauto 10.
Qed.

Lemma forallb_keep_other target l :
  forallb (keep_other target) l = negb (existsb (has_target target) l).
Proof.
  induction l as [|x l IH]; simpl; [done|]. unfold keep_other at 1. rewrite IH.
  by destruct (has_target target x), (existsb (has_target target) l).
Qed.

Lemma filter_all {A} (f : A → bool) l : forallb f l = true → List.filter f l = l.
Proof.
  induction l as [|x l IH]; simpl; [done|]. intros [-> Hl]%andb_true_iff. by rewrite IH.
Qed.

(** A removal, for a filter that depends on a clock reading the callback made, as
    [clock] says. *)
Lemma removal_wp (remove : prog (Z * option gerror)) name (clock : list event → Z → Prop)
    (keep : Z → uval → bool) (mutate : mutation Z) s w :
  (∀ tr tr' now, tr ⊆ tr' → clock tr now → clock tr' now) →
  (∀ o s w, wp api_server (mutate (spec_of o)) s w (λ r _ _ tr,
     let ws := workloads_of (spec_of o) in
     match r with
     | Done (c, Ok (Some spec')) => ∃ now, clock tr now ∧
         c = Z.of_nat (length (List.filter (keep now) ws)) ∧
         <["spec"%string := UMap spec']> o = with_workloads o (List.filter (keep now) ws)
     | Done (c, Ok None) => ∃ now, clock tr now ∧
         c = Z.of_nat (length (List.filter (keep now) ws)) ∧ forallb (keep now) ws = true
     | Done (_, Err _) => True
     | Panicked => spec_of o = None
     | Exhausted => False
     end)) →
  remove = retryOnConflict name 0 mutate →
  versioned w →
  wp api_server remove s w (λ r _ w' tr,
    match r with
    | Done (count, None) =>
        committed name w'
          (λ old, ∃ now, clock tr now ∧ forallb (keep now) (workloads_of (spec_of old)) = true ∧
                         count = Z.of_nat (length (workloads_of (spec_of old))))
          (λ old new, ∃ now, clock tr now ∧
             let rest := List.filter (keep now) (workloads_of (spec_of old)) in
             new = with_workloads old rest ∧ count = Z.of_nat (length rest))
    | Done (_, Some _) => True
    | Panicked => ∃ old, (name, old) ∈ states w' ∧ spec_of old = None
    | Exhausted => False
    end).
Proof.
  intros Hclock Hm -> Hw. eapply wp_mono.
  2: { apply (retry_loop_committed 5 name 0 mutate s w
         (λ tr old c, ∃ now, clock tr now ∧
            c = Z.of_nat (length (List.filter (keep now) (workloads_of (spec_of old)))) ∧
            forallb (keep now) (workloads_of (spec_of old)) = true)
         (λ tr old c spec', ∃ now, clock tr now ∧
            c = Z.of_nat (length (List.filter (keep now) (workloads_of (spec_of old)))) ∧
            <["spec"%string := UMap spec']> old =
              with_workloads old (List.filter (keep now) (workloads_of (spec_of old)))));
       [apply Hm|done]. }
  intros r s' w' tr. destruct r as [[c [e|]]| |]; simpl; try done.
  intros (trm & Hsub & [(o & Ho & now & Hn & -> & Hk)|(old & new & H1 & H2 & spec' & (now & Hn & -> & He) & ->)]).
  - left. exists o. split; [done|]. exists now. split; [by eapply Hclock|]. split; [done|]. by rewrite filter_all.
  - right. exists old, (<["spec"%string := UMap spec']> old). split_and!; [done..|].
    exists now. split; [by eapply Hclock|done].
Qed.

(** C16. [addWorkload] loses no update: if it returns nil, then either it read a
    state that already tracks the target, or it replaced one state of the object
    by the same state with the attachment appended to its workloads, and that
    state did not track the target.  Every other field and every attachment the
    other writers had registered is kept.  It panics only on an object without a
    spec. *)
Theorem addWorkload_committed (h : env crd_world) name podUID target s w :
  env_ok api_server h → versioned w →
  let o := run h (addWorkload name podUID target) s w in
  match o_res o with
  | Done None =>
      committed name (o_world o) (λ old, tracked target old = true)
        (λ old new, tracked target old = false ∧ ∃ now,
           new = with_workloads old
             (workloads_of (spec_of old) ++ [workload_entry podUID target now]))
  | Done (Some _) => True
  | Panicked => ∃ old, (name, old) ∈ states (o_world o) ∧ spec_of old = None
  | Exhausted => False
  end.
Proof. intros Hh Hw. exact (run_wp _ _ _ _ _ _ Hh (addWorkload_wp name podUID target s w Hw)). Qed.

Lemma removeWorkload_wp name target s w :
  versioned w →
  wp api_server (removeWorkload name target) s w (λ r _ w' _,
    match r with
    | Done (count, None) =>
        committed name w'
          (λ old, ∃ now : Z, True ∧ forallb (keep_other target) (workloads_of (spec_of old)) = true ∧
                             count = Z.of_nat (length (workloads_of (spec_of old))))
          (λ old new, ∃ now : Z, True ∧ let rest := List.filter (keep_other target) (workloads_of (spec_of old)) in
             new = with_workloads old rest ∧ count = Z.of_nat (length rest))
    | Done (_, Some _) => True
    | Panicked => ∃ old, (name, old) ∈ states w' ∧ spec_of old = None
    | Exhausted => False
    end).
Proof.
  apply (removal_wp _ name (λ _ _, True) (λ _, keep_other target) (λ spec,
    store_remaining spec (workloads_of spec) (List.filter (keep_other target) (workloads_of spec)))); [done| |done].
  intros o s1 w1. eapply wp_mono; [|apply store_remaining_wp].
  intros r ? ? ?. destruct r as [[c [[spec'|]|e]]| |]; simpl; try done;
    intros [? ?]; by exists 0.
Qed.

(** The removal for [NodeUnpublishVolume] loses no update either: if
    [removeWorkload] returns nil, then either it read a state with no attachment
    to the target, or it replaced one state by the same state without those
    attachments, the others in order and untouched; the count it returns is the
    number of attachments left. *)
Theorem removeWorkload_committed (h : env crd_world) name target s w :
  env_ok api_server h → versioned w →
  let o := run h (removeWorkload name target) s w in
  match o_res o with
  | Done (count, None) =>
      committed name (o_world o)
        (λ old, tracked target old = false ∧ count = Z.of_nat (length (workloads_of (spec_of old))))
        (λ old new, let rest := List.filter (keep_other target) (workloads_of (spec_of old)) in
           new = with_workloads old rest ∧ count = Z.of_nat (length rest))
  | Done (_, Some _) => True
  | Panicked => ∃ old, (name, old) ∈ states (o_world o) ∧ spec_of old = None
  | Exhausted => False
  end.
Proof.
  intros Hh Hw. pose proof (run_wp _ _ _ _ _ _ Hh (removeWorkload_wp name target s w Hw)) as Hr.
  cbv zeta beta in *. destruct (o_res (run h (removeWorkload name target) s w)) as [[count [e|]]| |]; try done.
  destruct Hr as [(old & Hin & _ & _ & Hk & Hc)|(old & new & H1 & H2 & _ & _ & Hn & Hc)]; [left|right; eauto 10].
  exists old. rewrite forallb_keep_other, negb_true_iff in Hk. done.
Qed.

(** C17. The stale-attachment cleaner removes, in one update that loses no other
    writer's change, exactly the attachments whose pod is not live and that were
    stale when the run read the clock; it returns the number of those it keeps. *)
Theorem removeStaleWorkloads_committed (h : env crd_world) name live threshold s w :
  env_ok api_server h → versioned w →
  let o := run h (removeStaleWorkloads name live threshold) s w in
  match o_res o with
  | Done (count, None) =>
      committed name (o_world o)
        (λ old, ∃ now, Ev Now now ∈ o_trace o ∧
           forallb (keep_workload live now threshold) (workloads_of (spec_of old)) = true ∧
           count = Z.of_nat (length (workloads_of (spec_of old))))
        (λ old new, ∃ now, Ev Now now ∈ o_trace o ∧
           let rest := List.filter (keep_workload live now threshold) (workloads_of (spec_of old)) in
           new = with_workloads old rest ∧ count = Z.of_nat (length rest))
  | Done (_, Some _) => True
  | Panicked => ∃ old, (name, old) ∈ states (o_world o) ∧ spec_of old = None
  | Exhausted => False
  end.
Proof.
  intros Hh Hw.
  refine (run_wp _ _ _ _ _ _ Hh (removal_wp _ name (λ tr now, Ev Now now ∈ tr)
    (λ now, keep_workload live now threshold) (λ spec,
    now ← call_ Now;
    store_remaining spec (workloads_of spec)
      (List.filter (keep_workload live now threshold) (workloads_of spec))) s w _ _ eq_refl Hw)).
  { intros tr tr' now Hsub Hin. by apply Hsub. }
  intros o s1 w1. simpl. intros now s2 w2 _.
  eapply wp_mono; [|apply store_remaining_wp].
  intros r ? ? ?. destruct r as [[c [[spec'|]|e]]| |]; simpl; try done;
    intros [? ?]; exists now; (split; [apply list_elem_of_here|done]).
Qed.

Lemma wfield_entry podUID target t k :
  wfield (workload_entry podUID target t) k =
    (map_of_pairs [("podUID", UStr podUID); ("targetPath", UStr target);
                   ("attachmentTime", UStr (FormatRFC3339 t))]%string) !! k.
Proof. done. Qed.

(** C35. Grace period: an attachment [addWorkload] wrote at [t] is removed by the
    cleaner exactly when its pod is not live and more than the threshold has
    passed since [t] (to the second); before that, a pod the API server does not
    list yet cannot lose its attachment. *)
Theorem attachment_grace podUID target t live now threshold :
  in_years t → 0 ≤ threshold < 2^63 - 1 →
  keep_workload live now threshold (workload_entry podUID target t) = true ↔
    podUID ∈ live ∨ now - t / second * second ≤ threshold.
Proof.
  intros Ht Hth. unfold keep_workload, isStale. rewrite !wfield_entry.
  change (as_str (_ !! "podUID"%string)) with podUID.
  change (as_str (_ !! "attachmentTime"%string)) with (FormatRFC3339 t).
  unfold ParseRFC3339. rewrite parse_format_years by done.
  assert (IsZero (t / second * second) = false) as ->.
  { unfold IsZero, zero_time, in_years, second in *. apply Z.eqb_neq.
    Z.to_euclidean_division_equations; lia. }
  cbn [negb andb]. rewrite orb_true_iff, bool_decide_eq_true, negb_true_iff, Z.ltb_ge.
  unfold Sub. apply or_iff_compat_l. lia.
Qed.
End HFMountSpec.

Lemma crd_delete_trace `{QuantityLib} {W} (R : rely W) name s w :
  wp R (crd_delete name) s w (λ r _ _ tr, ∃ x y, r = Done x ∧ tr = [Ev (CrdDelete name) y]).
Proof.
  unfold crd_delete. intros y s1 w1 _. simpl. destruct (IsNotFound y); [by exists None, y|by exists y, y].
Qed.

(** ** A concrete API server *)

Fixpoint ones (n : nat) : string :=
  match n with O => "" | S n' => "1" +++ ones n' end.

(** A version no stored state has: longer than all of them. *)
Definition fresh_version (w : crd_world) : string :=
  ones (S (list_sum ((λ x, String.length (version x.2)) <$> states w))).

#[local] Arguments fresh_version : simpl never.

Definition set_version (v : string) (o : obj_t) : obj_t :=
  <["metadata"%string := UMap (<["resourceVersion"%string := UStr v]>
      (default ∅ (as_map (o !! "metadata"%string))))]> o.

Definition current (name : string) (w : crd_world) : option obj_t :=
  snd <$> head (List.filter (λ x, String.eqb x.1 name) (states w)).

(** It stores the states newest first and checks the version on update; the
    clock is stopped at [t]. *)
Definition api_model `{QuantityLib} (t : Z) : env crd_world := λ c s w,
  match c return ans c * mem * crd_world with
  | Now => (t, s, w)
  | CrdGet name =>
      (match current name w with Some o => Ok o | None => Err (ApiStatus NotFound) end, s, w)
  | CrdUpdate name o =>
      match current name w with
      | Some old =>
          if String.eqb (version old) (version o)
          then (None, s, {| states := (name, set_version (fresh_version w) o) :: states w;
                            updates := (name, old, o) :: updates w |})
          else (Some (ApiStatus Conflict), s, w)
      | None => (Some (ApiStatus NotFound), s, w)
      end
  | c => (idle c, s, w)
  end.

Lemma length_ones n : String.length (ones n) = n.
Proof. induction n as [|n IH]; simpl; [done|]. by rewrite IH. Qed.

Lemma fresh_version_longer w x :
  x ∈ states w → (String.length (version x.2) < String.length (fresh_version w))%nat.
Proof.
  intros Hx. unfold fresh_version. rewrite length_ones.
  apply Nat.lt_succ_r. induction (states w) as [|y l IH]; [by apply elem_of_nil in Hx|].
  rewrite fmap_cons. simpl. apply elem_of_cons in Hx as [->|Hx]; [lia|]. specialize (IH Hx). lia.
Qed.

Lemma version_set_version v o : version (set_version v o) = v.
Proof. unfold version, set_version. rewrite lookup_insert_eq. simpl. by rewrite lookup_insert_eq. Qed.

Lemma current_elem name w o : current name w = Some o → (name, o) ∈ states w.
Proof.
  unfold current. destruct (List.filter _ _) as [|[n o'] l] eqn:E; [done|]. intros [= ->].
  assert (In (n, o) (List.filter (λ x, String.eqb x.1 name) (states w))) as Hin by (rewrite E; by left).
  apply filter_In in Hin as [Hin Hn]. simpl in Hn. apply String.eqb_eq in Hn as ->.
  by apply list_elem_of_In.
Qed.

Lemma api_model_ok `{QuantityLib} t : env_ok api_server (api_model t).
Proof.
  intros c s w. unfold api_model, api_server.
  destruct c; try (split_and!; [apply later_refl|done|done]).
  - split_and!; [apply later_refl|done|]. intros o. destruct (current _ w) eqn:E; intros [= <-].
    by apply current_elem.
  - destruct (current name w) as [old|] eqn:E; [|split_and!; [apply later_refl|done|done]].
    destruct (String.eqb_spec (version old) (version obj)) as [Hv|]; [|split_and!; [apply later_refl|done|done]].
    split_and!.
    + split; intros; simpl; set_solver.
    + intros Hw n o1 o2. simpl. rewrite !elem_of_cons. intros [E1|H1] [E2|H2] Heq; simplify_eq/=; [done|..].
      * apply (fresh_version_longer w) in H2. rewrite version_set_version in Heq. cbn [snd] in H2. rewrite Heq in H2. lia.
      * apply (fresh_version_longer w) in H1. rewrite version_set_version in Heq. cbn [snd] in H1. rewrite <- Heq in H1. lia.
      * by eapply Hw.
    + intros _. exists old. simpl. apply current_elem in E. set_solver.
Qed.

(** An object created by [Mount], and what the driver does to it. *)
Definition demo_object : obj_t :=
  @hfmount_object z_quantities "kube-system" "hfm-0123456789ab"
    {| NodeName := "node-1"; SourceType := "bucket"; SourceID := "user/data";
       MountPodName := "hf-mount-0123456789ab"; MountPath := "/var/lib/hf-csi-driver/mnt/0123456789ab";
       MountArgs := ["bucket"; "user/data"; "/mnt/hf/0123456789ab"]%string; SResources := no_resources |}.

Definition demo_world : crd_world := {| states := [("hfm-0123456789ab"%string, demo_object)]; updates := [] |}.

Lemma demo_versioned : versioned demo_world.
Proof.
  intros n o o'. unfold demo_world. cbn [states]. rewrite !list_elem_of_singleton. by intros [= -> ->] [= ->].
Qed.

Definition demo_name : string := "hfm-0123456789ab".
Definition demo_now : Z := 1709210096 * second.

Definition demo_add := run (@api_model z_quantities demo_now)
  (@addWorkload z_quantities demo_name "uid-1" "/target") empty_mem demo_world.
Definition attached_world : crd_world := o_world demo_add.
Definition demo_remove := run (@api_model z_quantities demo_now)
  (@removeWorkload z_quantities demo_name "/target") empty_mem attached_world.

(** Three minutes later the pod is gone from the node. *)
Definition demo_stale := run (@api_model z_quantities (demo_now + 3 * minute))
  (@removeStaleWorkloads z_quantities (λ _, None) demo_name ∅ (2 * minute)) empty_mem attached_world.

Lemma attached_versioned : versioned attached_world.
Proof.
  pose proof (wp_grows (@api_server z_quantities) (λ w w', versioned w → versioned w')
    (@addWorkload z_quantities demo_name "uid-1" "/target") empty_mem demo_world (λ _ _ _ _, True)) as Hw.
  refine (proj2 (run_wp _ _ _ _ _ _ (@api_model_ok z_quantities demo_now) (Hw _ _ _ _)) demo_versioned).
  - by intros w.
  - intros w1 w2 w3; auto.
  - by intros ?????? (_ & ? & _).
  - eapply wp_mono; [|apply addWorkload_wp, demo_versioned]. done.
Qed.

Lemma demo_add_res : o_res demo_add = Done None.
Proof. vm_compute. reflexivity. Qed.
Lemma demo_remove_res : o_res demo_remove = Done (0, None).
Proof. vm_compute. reflexivity. Qed.
Lemma demo_stale_res : o_res demo_stale = Done (0, None).
Proof. vm_compute. reflexivity. Qed.

Example addWorkload_committed_witness :
  committed demo_name attached_world (λ old, tracked "/target" old = true)
    (λ old new, tracked "/target" old = false ∧ ∃ now,
       new = with_workloads old (workloads_of (spec_of old) ++ [workload_entry "uid-1" "/target" now])).
Proof.
  pose proof (@addWorkload_committed z_quantities _ demo_name "uid-1" "/target" empty_mem _
    (api_model_ok demo_now) demo_versioned) as Hc.
  change (run _ _ _ _) with demo_add in Hc. cbv zeta in Hc. rewrite demo_add_res in Hc. exact Hc.
Defined.

Example removeWorkload_committed_witness :
  committed demo_name (o_world demo_remove)
    (λ old, tracked "/target" old = false ∧ 0 = Z.of_nat (length (workloads_of (spec_of old))))
    (λ old new, let rest := List.filter (keep_other "/target") (workloads_of (spec_of old)) in
       new = with_workloads old rest ∧ 0 = Z.of_nat (length rest)).
Proof.
  pose proof (@removeWorkload_committed z_quantities _ demo_name "/target" empty_mem _
    (api_model_ok demo_now) attached_versioned) as Hc.
  change (run _ _ _ _) with demo_remove in Hc. cbv zeta in Hc. rewrite demo_remove_res in Hc. exact Hc.
Defined.

Example removeStaleWorkloads_committed_witness :
  committed demo_name (o_world demo_stale)
    (λ old, ∃ now, Ev Now now ∈ o_trace demo_stale ∧
       forallb (@keep_workload (λ _, None) ∅ now (2 * minute)) (workloads_of (spec_of old)) = true ∧
       0 = Z.of_nat (length (workloads_of (spec_of old))))
    (λ old new, ∃ now, Ev Now now ∈ o_trace demo_stale ∧
       let rest := List.filter (@keep_workload (λ _, None) ∅ now (2 * minute)) (workloads_of (spec_of old)) in
       new = with_workloads old rest ∧ 0 = Z.of_nat (length rest)).
Proof.
  pose proof (@removeStaleWorkloads_committed z_quantities (λ _, None) _ demo_name ∅ (2 * minute) empty_mem _
    (api_model_ok (demo_now + 3 * minute)) attached_versioned) as Hc.
  change (run _ _ _ _) with demo_stale in Hc. cbv zeta in Hc. rewrite demo_stale_res in Hc. exact Hc.
Defined.

Example attachment_grace_witness :
  @keep_workload (λ _, None) ∅ (demo_now + minute) (2 * minute)
    (workload_entry "uid-1" "/target" demo_now) = true ∧
  ¬ @keep_workload (λ _, None) ∅ (demo_now + 3 * minute) (2 * minute)
    (workload_entry "uid-1" "/target" demo_now) = true.
Proof.
  assert (in_years demo_now) as Ht by (unfold in_years, demo_now, second; lia).
  assert (0 ≤ 2 * minute < 2^63 - 1) as Hm by (unfold minute, second; lia).
  split.
  - apply (@attachment_grace (λ _, None) "uid-1" "/target" demo_now ∅ (demo_now + minute) (2 * minute) Ht Hm).
    right. unfold demo_now, minute, second. vm_compute. discriminate.
  - rewrite (@attachment_grace (λ _, None) "uid-1" "/target" demo_now ∅ (demo_now + 3 * minute) (2 * minute) Ht Hm).
    intros [Hu|Hle]; [by apply elem_of_empty in Hu|]. vm_compute in Hle. by apply Hle.
Defined.
