(* ===== verification/Sweeper.v ===== *)
(** * The orphaned-connection sweeper (pkg/driver/fuse_sweeper.go, fuse_sweeper_linux.go)

    [sweep] is written over the provider functions of the source and any monad
    that carries them: [prog] for the Linux providers, and a pure log of aborts
    for the decision logic the theorems are about. *)
From S2P Require Import Prelude GoStrings Sha256 GoErrors Unstructured Resources Names.
From S2P Require Import MountArgs Kube Effects MountInfo.
From Stdlib Require Import Ascii.

Local Open Scope Z_scope.
#[local] Set Warnings "-clear-no-such-hyp".

(** ** Whose mounts, whose processes *)

Definition fuseMountSource : string := "hf-mount".
Definition kubeletCSIMarker : string := "/volumes/kubernetes.io~csi/".
Definition orphanConfirmSweeps : Z := 2.
Definition containerMountPathPrefix : string := "/mnt/hf/".
Definition DefaultFuseSweepInterval : Z := 60 * 10^9.

Record fuseServerProc := {
  pid : Z;
  cmdline : string;
  cgroup : string
}.

(** [unicode.ToLower] on runes outside ASCII: [strings.ToLower] needs it for text
    that is not ASCII. *)
Class UnicodeLower := ToLowerUnicode : string → string.

Definition ToLower `{UnicodeLower} (s : string) : string :=
  if str_all is_ascii s then map_bytes lower_byte s else ToLowerUnicode s.

Definition isOurFuseMount (fm : fuseMount) : bool :=
  if negb (HasPrefix (fstype fm) "fuse") then false
  else if HasPrefix (mountpoint fm) (mountBaseDir +++ "/") then true
  else String.eqb (source fm) fuseMountSource.

Definition volumeIDForMount (mp : string) : option string :=
  if HasPrefix mp (mountBaseDir +++ "/") then Some (Base mp)
  else if Contains mp kubeletCSIMarker then Some (mountID mp)
  else None.

Definition podUIDForMount (mp : string) : option string :=
  if negb (Contains mp kubeletCSIMarker) then None
  else match Index mp "/pods/" with
       | None => None
       | Some i =>
           let rest := s_drop (i + String.length "/pods/") mp in
           match IndexByte rest "/" with
           | None | Some 0%nat => None
           | Some j => Some (s_take j rest)
           end
       end.

Definition norm_uid `{UnicodeLower} (s : string) : string :=
  ReplaceByte (ReplaceByte (ToLower s) "_" "") "-" "".

Definition cgroupHasPodUID `{UnicodeLower} (cg podUID : string) : bool :=
  let nu := norm_uid podUID in
  if String.eqb nu "" then false else Contains (norm_uid cg) nu.

Definition serves `{UnicodeLower} (volumeIDs podUIDs : list string) (srv : fuseServerProc) : bool :=
  existsb (λ v, negb (String.eqb v "") && Contains (cmdline srv) (containerMountPathPrefix +++ v))
    volumeIDs ||
  existsb (λ uid, negb (String.eqb uid "") && cgroupHasPodUID (cgroup srv) uid) podUIDs.

Definition mountHasLiveDaemon `{UnicodeLower} (mountpoints : list string)
    (servers : list fuseServerProc) : bool :=
  let volumeIDs := omap volumeIDForMount mountpoints in
  let podUIDs := omap podUIDForMount mountpoints in
  existsb (serves volumeIDs podUIDs) servers.

(** ** The sweep *)

(** [orphanStreak] counts consecutive orphaned looks per connection minor;
    [aborted] holds the minors already aborted. *)
Record sweep_state := {
  orphanStreak : gmap Z Z;
  aborted : gset Z
}.

Section Sweep.
Context `{UnicodeLower} {M : Type → Type} `{!MRet M, !MBind M}.

Record fuseSweepProviders := {
  connections : M (result (list Z));
  waiting : Z → M (result Z);
  ourMounts : M (result (gmap Z (list string)));
  servers : M (result (list fuseServerProc));
  abort : Z → M (option gerror);
  handoffPending : option (Z → M bool)
}.

Definition reset (st : sweep_state) (minor_ : Z) : sweep_state :=
  {| orphanStreak := delete minor_ (orphanStreak st); aborted := aborted st ∖ {[minor_]} |}.

(** The body of the loop over the connections of ours: [continue] returns. *)
Definition sweep_minor (p : fuseSweepProviders) (srvs : list fuseServerProc) (mps : list string)
    (minor_ : Z) (st : sweep_state) : M sweep_state :=
  w ← waiting p minor_;
  match w with
  | Err _ => mret (reset st minor_)
  | Ok w =>
      pending ← match handoffPending p with
                | Some f => f minor_
                | None => mret false
                end;
      if (w <=? 0) || pending || mountHasLiveDaemon mps srvs
      then mret (reset st minor_)
      else
        let n := default 0 (orphanStreak st !! minor_) + 1 in
        let st := {| orphanStreak := <[minor_ := n]> (orphanStreak st); aborted := aborted st |} in
        if n <? orphanConfirmSweeps then mret st
        else if bool_decide (minor_ ∈ aborted st) then mret st
        else
          e ← abort p minor_;
          match e with
          | Some _ => mret st
          | None => mret {| orphanStreak := orphanStreak st; aborted := {[minor_]} ∪ aborted st |}
          end
  end.

(** The loop, with the set [seen] of connections that are ours. *)
Fixpoint sweep_loop (p : fuseSweepProviders) (srvs : list fuseServerProc)
    (mounts : gmap Z (list string)) (conns : list Z) (st : sweep_state) (seen : gset Z)
  : M (sweep_state * gset Z) :=
  match conns with
  | [] => mret (st, seen)
  | minor_ :: conns' =>
      let mps := default [] (mounts !! minor_) in
      match mps with
      | [] => sweep_loop p srvs mounts conns' st seen
      | _ =>
          st' ← sweep_minor p srvs mps minor_ st;
          sweep_loop p srvs mounts conns' st' ({[minor_]} ∪ seen)
      end
  end.

Definition prune (st : sweep_state) (seen : gset Z) : sweep_state :=
  {| orphanStreak := filter (λ kv, kv.1 ∈ seen) (orphanStreak st);
     aborted := aborted st ∩ seen |}.

Definition sweep (p : fuseSweepProviders) (st : sweep_state) : M sweep_state :=
  conns ← connections p;
  match conns with
  | Err _ => mret st
  | Ok conns =>
      mounts ← ourMounts p;
      match mounts with
      | Err _ => mret st
      | Ok mounts =>
          srvs ← servers p;
          match srvs with
          | Err _ => mret st
          | Ok srvs =>
              '(st', seen) ← sweep_loop p srvs mounts conns st ∅;
              mret (prune st' seen)
          end
      end
  end.

Definition newFuseSweeper_state : sweep_state := {| orphanStreak := ∅; aborted := ∅ |}.

Definition sweep_interval (interval : Z) : Z :=
  if interval <=? 0 then DefaultFuseSweepInterval else interval.
End Sweep.
Arguments fuseSweepProviders : clear implicits.

(** ** fuse_sweeper_linux.go: the providers *)

Definition fuseConnDir : string := "/sys/fs/fuse/connections".
Definition hostMountinfo : string := "/proc/1/mountinfo".
Definition procDir : string := "/proc".
Definition devFuse : string := "/dev/fuse".

Definition nul : ascii := chr 0.

Definition cmdlineToString (b : string) : string :=
  ReplaceByte (TrimFunc (Ascii.eqb nul) b) nul " ".

(** minor -> mountpoints, for the FUSE mounts that are ours. *)
Definition group_mounts (mounts : list fuseMount) : gmap Z (list string) :=
  fold_left (λ out fm,
    if isOurFuseMount fm
    then <[minor fm := default [] (out !! minor fm) ++ [mountpoint fm]]> out
    else out) mounts ∅.

Section Linux.
Context `{QuantityLib} `{UnicodeLower}.

Definition listFuseConnections : prog (result (list Z)) :=
  entries ← call_ (ReadDir fuseConnDir);
  match entries with
  | Err e => if IsNotExist e then mret (Ok []) else mret (Err e)
  | Ok es => mret (Ok (omap (λ e, Atoi (DName e)) es))
  end.

Definition fuseConnWaiting (minor_ : Z) : prog (result Z) :=
  b ← call_ (ReadFile (JoinPath [fuseConnDir; Itoa minor_; "waiting"%string]));
  match b with
  | Err e => mret (Err e)
  | Ok b => match Atoi (TrimSpace b) with
            | Some w => mret (Ok w)
            | None => mret (Err (OtherErr "strconv.ParseInt"))
            end
  end.

Definition listOurFuseMounts : prog (result (gmap Z (list string))) :=
  f ← call_ (OpenScan hostMountinfo);
  match f with
  | Err e => mret (Err e)
  | Ok r => match parseFuseMounts r with
            | Err e => mret (Err e)
            | Ok mounts => mret (Ok (group_mounts mounts))
            end
  end.

Definition isGone (e : gerror) : bool := IsNotExist e.

(** [None] in the middle: the scan goes on; a value ends it. *)
Fixpoint scan_fds (fdDir : string) (es : list DirEntry) : prog (result bool) :=
  match es with
  | [] => mret (Ok false)
  | e :: es' =>
      target ← call_ (Readlink (JoinPath [fdDir; DName e]));
      match target with
      | Err err => if isGone err then scan_fds fdDir es' else mret (Err err)
      | Ok t => if String.eqb t devFuse then mret (Ok true) else scan_fds fdDir es'
      end
  end.

Definition processHoldsDevFuse (pid_ : Z) : prog (result bool) :=
  let fdDir := JoinPath [procDir; Itoa pid_; "fd"%string] in
  entries ← call_ (ReadDir fdDir);
  match entries with
  | Err err => if isGone err then mret (Ok false) else mret (Err err)
  | Ok es => scan_fds fdDir es
  end.

Definition readProcField (path : string) : prog (result string) := call_ (ReadFile path).

Fixpoint scan_procs (es : list DirEntry) (acc : list fuseServerProc)
  : prog (result (list fuseServerProc)) :=
  match es with
  | [] => mret (Ok acc)
  | e :: es' =>
      match Atoi (DName e) with
      | None => scan_procs es' acc
      | Some pid_ =>
          holds ← processHoldsDevFuse pid_;
          match holds with
          | Err err => if isGone err then scan_procs es' acc else mret (Err err)
          | Ok false => scan_procs es' acc
          | Ok true =>
              cmd ← readProcField (JoinPath [procDir; DName e; "cmdline"%string]);
              match cmd with
              | Err err => if isGone err then scan_procs es' acc else mret (Err err)
              | Ok cmd =>
                  cg ← readProcField (JoinPath [procDir; DName e; "cgroup"%string]);
                  match cg with
                  | Err err => if isGone err then scan_procs es' acc else mret (Err err)
                  | Ok cg =>
                      scan_procs es' (acc ++ [{| pid := pid_; cmdline := cmdlineToString cmd;
                                                 cgroup := cg |}])
                  end
              end
          end
      end
  end.

Definition listFuseServers : prog (result (list fuseServerProc)) :=
  entries ← call_ (ReadDir procDir);
  match entries with
  | Err e => mret (Err e)
  | Ok es => scan_procs es []
  end.

Definition abortFuseMinor (minor_ : Z) : prog (option gerror) :=
  call_ (WriteFile (JoinPath [fuseConnDir; Itoa minor_; "abort"%string]) "1" 128).

(** The set of connections whose descriptor is being handed to a sidecar. *)
Definition markSidecarHandoffPending (minor_ : Z) : prog unit :=
  atomically (λ s, (tt, set_pendingSidecarMinors ({[minor_]} ∪.) s)).
Definition clearSidecarHandoffPending (minor_ : Z) : prog unit :=
  atomically (λ s, (tt, set_pendingSidecarMinors (.∖ {[minor_]}) s)).
Definition sidecarHandoffPending (minor_ : Z) : prog bool :=
  atomically (λ s, (bool_decide (minor_ ∈ pendingSidecarMinors s), s)).

Definition linux_providers : fuseSweepProviders prog :=
  {| connections := listFuseConnections;
     waiting := fuseConnWaiting;
     ourMounts := listOurFuseMounts;
     servers := listFuseServers;
     abort := abortFuseMinor;
     handoffPending := Some sidecarHandoffPending |}.

(** [run]: a sweep, then wait for the ticker or the stop channel. *)
Fixpoint sweeper_run (fuel : nat) (st : sweep_state) : prog unit :=
  match fuel with
  | O => OutOfFuel
  | S fuel' =>
      st' ← sweep linux_providers st;
      c ← call_ Select;
      match c with
      | CaseTick => sweeper_run fuel' st'
      | _ => mret tt
      end
  end.

Definition StartFuseSweeper (fuel : nat) (interval : Z) : prog unit :=
  _ ← call_ (NewTicker (sweep_interval interval));
  sweeper_run fuel newFuseSweeper_state.
End Linux.

(** ** Specification of the decision *)

(** The log of aborts: a value and the minors [abort] was called on. *)
Definition logM (A : Type) : Type := A * list Z.
#[export] Instance logM_ret : MRet logM := λ A a, (a, []).
#[export] Instance logM_bind : MBind logM := λ A B f m,
  let '(b, l) := f m.1 in (b, m.2 ++ l).

(** What one sweep is told. *)
Record sweep_inputs := {
  i_connections : result (list Z);
  i_waiting : Z → result Z;
  i_mounts : result (gmap Z (list string));
  i_servers : result (list fuseServerProc);
  i_abort : Z → option gerror;
  i_pending : Z → bool
}.

Definition told (i : sweep_inputs) : fuseSweepProviders logM :=
  {| connections := (i_connections i, []);
     waiting := λ m, (i_waiting i m, []);
     ourMounts := (i_mounts i, []);
     servers := (i_servers i, []);
     abort := λ m, (i_abort i m, [m]);
     handoffPending := Some (λ m, (i_pending i m, [])) |}.

(** The directory of connections lists each minor once. *)
Definition distinct (i : sweep_inputs) : Prop :=
  match i_connections i with Ok cs => NoDup cs | Err _ => True end.

Section Spec.
Context `{UnicodeLower}.

(** All three enumerations succeeded. *)
Definition completed (i : sweep_inputs) : bool :=
  match i_connections i, i_mounts i, i_servers i with
  | Ok _, Ok _, Ok _ => true
  | _, _, _ => false
  end.

(** The connection is listed, ours, has requests waiting, is not mid-handoff and
    no live process serves it. *)
Definition looks_orphaned (i : sweep_inputs) (m : Z) : bool :=
  match i_connections i, i_mounts i, i_servers i with
  | Ok cs, Ok mounts, Ok srvs =>
      let mps := default [] (mounts !! m) in
      bool_decide (m ∈ cs) && negb (bool_decide (mps = [])) &&
      match i_waiting i m with
      | Ok w => (0 <? w) && negb (i_pending i m) && negb (mountHasLiveDaemon mps srvs)
      | Err _ => false
      end
  | _, _, _ => false
  end.

(** Completed sweeps in a row, latest first, in which [m] looked orphaned. *)
Fixpoint streak (m : Z) (hist : list sweep_inputs) : Z :=
  match hist with
  | [] => 0
  | i :: older =>
      if negb (completed i) then streak m older
      else if looks_orphaned i m then 1 + streak m older else 0
  end.

(** Has [m] been aborted during the streak it is in? *)
Fixpoint aborted_in (m : Z) (hist : list sweep_inputs) : bool :=
  match hist with
  | [] => false
  | i :: older =>
      if negb (completed i) then aborted_in m older
      else looks_orphaned i m &&
           (aborted_in m older ||
            ((2 <=? streak m (i :: older)) && match i_abort i m with None => true | _ => false end))
  end.

(** The sweeper's state after a history of sweeps, latest first, and the aborts
    of one more sweep. *)
Fixpoint state_after (hist : list sweep_inputs) : sweep_state :=
  match hist with
  | [] => newFuseSweeper_state
  | i :: older => (sweep (told i) (state_after older)).1
  end.

Definition aborts (i : sweep_inputs) (hist : list sweep_inputs) : list Z :=
  (sweep (told i) (state_after hist)).2.
End Spec.

(** The bytes of [/proc/<pid>/cmdline]: every argument followed by a NUL. *)
Fixpoint argv_bytes (argv : list string) : string :=
  match argv with
  | [] => ""
  | a :: argv' => a +++ String nul (argv_bytes argv')
  end.

(** The pod slice systemd names after a pod: it spells the dashes of the UID as
    underscores. *)
Definition pod_slice (podUID : string) : string :=
  "kubepods-burstable-pod" +++ ReplaceByte podUID "-" "_" +++ ".slice".

(** ** Facts: one connection *)

Section Facts.
Context `{UnicodeLower}.
#[local] Arguments Z.ltb : simpl never.
#[local] Arguments Z.leb : simpl never.
#[local] Arguments Z.add : simpl never.

Definition view (st : sweep_state) (m : Z) : Z * bool :=
  (default 0 (orphanStreak st !! m), bool_decide (m ∈ aborted st)).

Definition orphan_now (i : sweep_inputs) (srvs : list fuseServerProc) (mps : list string) (m : Z)
  : bool :=
  match i_waiting i m with
  | Ok w => (0 <? w) && negb (i_pending i m) && negb (mountHasLiveDaemon mps srvs)
  | Err _ => false
  end.

(** Is [abort] called for a connection with this view that looks orphaned now? *)
Definition abort_now (v : Z * bool) : bool := (2 <=? v.1 + 1) && negb v.2.

Definition next_view (i : sweep_inputs) (m : Z) (v : Z * bool) : Z * bool :=
  (v.1 + 1, v.2 || (abort_now v && match i_abort i m with None => true | _ => false end)).

Definition ours (mounts : gmap Z (list string)) (m : Z) : Prop := default [] (mounts !! m) ≠ [].

Lemma sweep_minor_other i srvs mps m st m' :
  m' ≠ m → view (sweep_minor (told i) srvs mps m st).1 m' = view st m'.
Proof.
  intros Hne. unfold sweep_minor, mbind, logM_bind, mret, logM_ret. simpl.
  repeat (case_match; simplify_eq/=); unfold view, reset; simpl;
    rewrite ?lookup_delete_ne, ?lookup_insert_ne by done; try done; f_equal;
    apply bool_decide_ext; set_solver.
Qed.

Lemma sweep_minor_self i srvs mps m st :
  let o := sweep_minor (told i) srvs mps m st in
  view o.1 m = (if orphan_now i srvs mps m then next_view i m (view st m) else (0, false)) ∧
  o.2 = (if orphan_now i srvs mps m && abort_now (view st m) then [m] else []).
Proof.
  unfold sweep_minor, orphan_now, next_view, abort_now, view, mbind, logM_bind, mret, logM_ret. simpl.
  destruct (i_waiting i m) as [w|]; simpl.
  2: { unfold reset; simpl. rewrite lookup_delete_eq, bool_decide_eq_false_2; set_solver. }
  rewrite Z.leb_antisym. destruct (0 <? w); simpl.
  2: { unfold reset; simpl. rewrite lookup_delete_eq, bool_decide_eq_false_2; set_solver. }
  destruct (i_pending i m); simpl.
  { unfold reset; simpl. rewrite lookup_delete_eq, bool_decide_eq_false_2; set_solver. }
  destruct (mountHasLiveDaemon mps srvs); simpl.
  { unfold reset; simpl. rewrite lookup_delete_eq, bool_decide_eq_false_2; set_solver. }
  set (n := default 0 (orphanStreak st !! m)). unfold orphanConfirmSweeps.
  destruct (Z.ltb_spec (n + 1) 2); simpl.
  { rewrite (proj2 (Z.leb_gt _ _)) by done. simpl. by rewrite lookup_insert_eq, orb_false_r. }
  rewrite (proj2 (Z.leb_le _ _)) by lia. simpl.
  destruct (bool_decide (m ∈ aborted st)) eqn:Ea; simpl; [by rewrite lookup_insert_eq, Ea|].
  destruct (i_abort i m); simpl; rewrite lookup_insert_eq; [by rewrite Ea|].
  split; [|done]. f_equal. apply bool_decide_eq_true_2. set_solver.
Qed.

(** ** Facts: the loop *)

Lemma sweep_loop_cons i srvs mounts m cs st seen :
  ours mounts m →
  sweep_loop (told i) srvs mounts (m :: cs) st seen =
    let o := sweep_minor (told i) srvs (default [] (mounts !! m)) m st in
    let o' := sweep_loop (told i) srvs mounts cs o.1 ({[m]} ∪ seen) in
    (o'.1, o.2 ++ o'.2).
Proof.
  unfold ours. intros Ho. cbn [sweep_loop].
  destruct (default [] (mounts !! m)) as [|mp mps] eqn:E; [done|].
  unfold mbind, logM_bind. by destruct (sweep_loop _ _ _ _ _ _).
Qed.

Lemma sweep_loop_skip i srvs mounts m cs st seen :
  ¬ ours mounts m →
  sweep_loop (told i) srvs mounts (m :: cs) st seen = sweep_loop (told i) srvs mounts cs st seen.
Proof.
  unfold ours. intros Ho. cbn [sweep_loop]. destruct (default [] (mounts !! m)); [done|].
  by destruct Ho.
Qed.

Lemma sweep_loop_spec i srvs mounts cs st seen :
  NoDup cs →
  let o := sweep_loop (told i) srvs mounts cs st seen in
  let step m := sweep_minor (told i) srvs (default [] (mounts !! m)) m in
  (∀ m, m ∈ o.1.2 ↔ m ∈ seen ∨ m ∈ cs ∧ ours mounts m) ∧
  (∀ m, m ∈ cs → ours mounts m → view o.1.1 m = view (step m st).1 m) ∧
  (∀ m, ¬ (m ∈ cs ∧ ours mounts m) → view o.1.1 m = view st m) ∧
  (∀ m, m ∈ o.2 ↔ m ∈ cs ∧ ours mounts m ∧ m ∈ (step m st).2).
Proof.
  intros Hnd o step. subst o. revert st seen.
  induction cs as [|c cs IH]; intros st seen.
  { simpl. split_and!; set_solver. }
  apply NoDup_cons in Hnd as [Hc Hnd]. specialize (IH Hnd).
  destruct (decide (ours mounts c)) as [Ho|Ho].
  - rewrite sweep_loop_cons by done. cbv zeta. simpl.
    destruct (IH (sweep_minor (told i) srvs (default [] (mounts !! c)) c st).1 ({[c]} ∪ seen))
      as (H1 & H2 & H3 & H4). fold (step c) in H1, H2, H3, H4 |- *.
    assert (Hsame : ∀ m, m ≠ c → view (step c st).1 m = view st m) by (intros; by apply sweep_minor_other).
    assert (Hstep : ∀ m, m ≠ c → view (step m (step c st).1).1 m = view (step m st).1 m ∧
                                 (step m (step c st).1).2 = (step m st).2).
    { intros m Hm. unfold step at 1 3 4 6. rewrite !(proj1 (sweep_minor_self _ _ _ _ _)).
      rewrite !(proj2 (sweep_minor_self _ _ _ _ _)). by rewrite Hsame. }
    assert (Hlog : ∀ m, m ∈ (step c st).2 → m = c).
    { intros m. unfold step. rewrite (proj2 (sweep_minor_self _ _ _ _ _)).
      case_match; [by intros ?%list_elem_of_singleton|by intros ?%elem_of_nil]. }
    split_and!.
    + intros m. rewrite H1. set_solver.
    + intros m [->|Hm]%elem_of_cons Hom; [apply H3; by intros [? _]|].
      rewrite H2 by done. apply Hstep. by intros ->.
    + intros m Hm. rewrite H3 by set_solver. apply Hsame. intros ->. apply Hm. set_solver.
    + intros m. rewrite elem_of_app, H4, elem_of_cons.
      destruct (decide (m = c)) as [->|Hne]; [naive_solver|].
      rewrite (proj2 (Hstep m Hne)). pose proof (Hlog m). naive_solver.
  - rewrite sweep_loop_skip by done. destruct (IH st seen) as (H1 & H2 & H3 & H4).
    split_and!.
    + intros m. rewrite H1, elem_of_cons. naive_solver.
    + intros m [->|Hm]%elem_of_cons Hom; [done|]. by apply H2.
    + intros m Hm. apply H3. rewrite elem_of_cons in Hm. naive_solver.
    + intros m. rewrite H4, elem_of_cons. naive_solver.
Qed.

Lemma view_prune st seen m :
  view (prune st seen) m = if bool_decide (m ∈ seen) then view st m else (0, false).
Proof.
  unfold view, prune. cbn [orphanStreak aborted]. rewrite map_lookup_filter.
  destruct (decide (m ∈ seen)) as [Hs|Hs].
  - rewrite (bool_decide_eq_true_2 (m ∈ seen)) by done. f_equal.
    + destruct (orphanStreak st !! m); simpl; [by rewrite option_guard_True|done].
    + apply bool_decide_ext. set_solver.
  - rewrite (bool_decide_eq_false_2 (m ∈ seen)) by done. f_equal.
    + destruct (orphanStreak st !! m); simpl; [by rewrite option_guard_False|done].
    + apply bool_decide_eq_false_2. set_solver.
Qed.

(** ** Facts: one sweep *)

Lemma sweep_unfold i st :
  sweep (told i) st =
    match i_connections i, i_mounts i, i_servers i with
    | Ok cs, Ok mounts, Ok srvs =>
        let o := sweep_loop (told i) srvs mounts cs st ∅ in (prune o.1.1 o.1.2, o.2)
    | _, _, _ => (st, [])
    end.
Proof.
  unfold sweep, mbind, logM_bind, mret, logM_ret. simpl.
  destruct (i_connections i); simpl; [|done]. destruct (i_mounts i); simpl; [|done].
  destruct (i_servers i); simpl; [|done].
  destruct (sweep_loop _ _ _ _ _ _) as [[st' seen] l]; simpl. by rewrite app_nil_r.
Qed.

Lemma looks_orphaned_ok i m cs mounts srvs :
  i_connections i = Ok cs → i_mounts i = Ok mounts → i_servers i = Ok srvs →
  looks_orphaned i m =
    bool_decide (m ∈ cs ∧ ours mounts m) && orphan_now i srvs (default [] (mounts !! m)) m.
Proof.
  intros E1 E2 E3. unfold looks_orphaned, orphan_now. rewrite E1, E2, E3, bool_decide_and.
  unfold ours. rewrite bool_decide_not. done.
Qed.

Lemma view_sweep i st m :
  distinct i →
  let o := sweep (told i) st in
  view o.1 m = (if completed i
                then if looks_orphaned i m then next_view i m (view st m) else (0, false)
                else view st m) ∧
  (m ∈ o.2 ↔ looks_orphaned i m = true ∧ abort_now (view st m) = true).
Proof.
  intros Hd o. subst o. rewrite sweep_unfold. unfold distinct in Hd.
  destruct (i_connections i) as [cs|] eqn:E1; [|by unfold completed, looks_orphaned; rewrite E1; set_solver].
  destruct (i_mounts i) as [mounts|] eqn:E2; [|by unfold completed, looks_orphaned; rewrite E1, E2; set_solver].
  destruct (i_servers i) as [srvs|] eqn:E3; [|by unfold completed, looks_orphaned; rewrite E1, E2, E3; set_solver].
  pose proof (sweep_loop_spec i srvs mounts cs st ∅ Hd) as Hs. cbv zeta in Hs.
  destruct Hs as (Hseen & Hours & _ & Hlog).
  pose proof (sweep_minor_self i srvs (default [] (mounts !! m)) m st) as [Hv Hl].
  rewrite (looks_orphaned_ok _ _ _ _ _ E1 E2 E3). cbv zeta. simpl.
  unfold completed. rewrite E1, E2, E3, view_prune, Hlog.
  rewrite (bool_decide_ext _ _ (Hseen m)).
  destruct (decide (m ∈ cs ∧ ours mounts m)) as [[Hc Ho]|Hn].
  - rewrite (bool_decide_eq_true_2 (_ ∨ _)), (bool_decide_eq_true_2 (_ ∧ _)) by auto. simpl.
    rewrite Hours, Hv, Hl by done. split; [done|].
    destruct (orphan_now _ _ _ _), (abort_now _); simpl; set_solver.
  - rewrite (bool_decide_eq_false_2 (_ ∨ _)), (bool_decide_eq_false_2 (_ ∧ _)) by set_solver. simpl.
    split; [done|]. naive_solver.
Qed.

Lemma streak_nonneg m hist : 0 ≤ streak m hist.
Proof. induction hist as [|i hist IH]; simpl; repeat case_match; lia. Qed.

Lemma view_state_after hist m :
  Forall distinct hist → view (state_after hist) m = (streak m hist, aborted_in m hist).
Proof.
  induction 1 as [|i older Hi Hd IH]; simpl.
  { by unfold view; simpl; rewrite bool_decide_eq_false_2 by set_solver. }
  destruct (view_sweep i (state_after older) m Hi) as [-> _]. rewrite IH.
  destruct (completed i); simpl; [|done].
  destruct (looks_orphaned i m); simpl; [|done].
  unfold next_view, abort_now; simpl. rewrite (Z.add_comm 1).
  f_equal. by destruct (aborted_in m older), (2 <=? _).
Qed.

Lemma elem_of_aborts i hist m :
  distinct i → Forall distinct hist →
  m ∈ aborts i hist ↔
    looks_orphaned i m = true ∧ 1 ≤ streak m hist ∧ aborted_in m hist = false.
Proof.
  intros Hi Hd. unfold aborts. destruct (view_sweep i (state_after hist) m Hi) as [_ ->].
  rewrite view_state_after by done. unfold abort_now. simpl.
  rewrite andb_true_iff, Z.leb_le, negb_true_iff. intuition lia.
Qed.

Lemma streak_pos m hist :
  1 ≤ streak m hist → ∃ newer j older,
    hist = newer ++ j :: older ∧ Forall (λ i, completed i = false) newer ∧
    looks_orphaned j m = true.
Proof.
  induction hist as [|i hist IH]; simpl; [lia|].
  destruct (completed i) eqn:Ec; simpl.
  - destruct (looks_orphaned i m) eqn:Eo; [|lia]. intros _. by exists [], i, hist.
  - intros (newer & j & older & -> & Hn & Hj)%IH. exists (i :: newer), j, older.
    split_and!; [done|by constructor|done].
Qed.

(** ** Properties of the sweep *)

(** C19. What the sweeper's two tables hold, after any history of sweeps: for every
    connection, [orphanStreak] is the number of completed sweeps in a row that
    found it orphaned, and [aborted] tells whether it was aborted during that run.
    A sweep that could not enumerate connections, mounts or processes neither
    counts nor ends a run; nothing about a connection survives the completed sweep
    that clears it. *)
Theorem sweep_state_refines hist m :
  Forall distinct hist → view (state_after hist) m = (streak m hist, aborted_in m hist).
Proof. apply view_state_after. Qed.

(** An abort that was written stays on record while the connection stays orphaned. *)
Lemma aborted_in_run m newer j older :
  Forall (λ k, completed k = true → looks_orphaned k m = true) newer →
  distinct j → Forall distinct older → m ∈ aborts j older → i_abort j m = None →
  aborted_in m (newer ++ j :: older) = true.
Proof.
  intros Hn Hj Ho Hm Ha. induction Hn as [|k newer Hk Hn IH]; cbn [app aborted_in].
  - apply elem_of_aborts in Hm as (Hl & Hs & _); [|done..].
    assert (completed j = true) as Hc by (unfold looks_orphaned, completed in *; by repeat case_match).
    cbn [streak]. rewrite Hc, Hl, Ha. cbn [negb]. rewrite (proj2 (Z.leb_le _ _)) by lia. by rewrite orb_true_r.
  - rewrite IH. destruct (completed k); [|done]. by rewrite Hk.
Qed.

(** C18. Safety of the abort: a sweep aborts a connection only if the connection
    is listed, ours, has requests waiting, is not mid-handoff and has no live
    server in this sweep, all of this was also the case in the last earlier sweep
    that could enumerate connections, mounts and processes, and it was not aborted
    before: an earlier sweep since which it has looked orphaned in every such sweep
    either did not abort it or failed to. *)
Theorem abort_only_confirmed_orphans i hist m :
  distinct i → Forall distinct hist → m ∈ aborts i hist →
  looks_orphaned i m = true ∧
  (∃ newer j older, hist = newer ++ j :: older ∧ Forall (λ k, completed k = false) newer ∧
    looks_orphaned j m = true) ∧
  (∀ newer j older, hist = newer ++ j :: older →
    Forall (λ k, completed k = true → looks_orphaned k m = true) newer →
    m ∈ aborts j older → i_abort j m ≠ None).
Proof.
  intros Hi Hd (Ho & Hs & Hn)%elem_of_aborts; [|done..]. split_and!; [done|by apply streak_pos|].
  intros newer j older -> Hrun Hm Ha. apply Forall_app in Hd as [_ [Hj Hd]%Forall_cons].
  by rewrite aborted_in_run in Hn.
Qed.

Lemma streak_zero_aborted m hist : streak m hist = 0 → aborted_in m hist = false.
Proof.
  induction hist as [|i hist IH]; simpl; [done|].
  destruct (completed i); simpl; [|done]. destruct (looks_orphaned i m); simpl; [|done].
  pose proof (streak_nonneg m hist). lia.
Qed.

Lemma streak_run m orphaned hist :
  Forall (λ i, completed i = true ∧ looks_orphaned i m = true ∧ i_abort i m = None) orphaned →
  streak m hist = 0 →
  streak m (orphaned ++ hist) = Z.of_nat (length orphaned) ∧
  aborted_in m (orphaned ++ hist) = (2 <=? Z.of_nat (length orphaned)).
Proof.
  intros Hr H0. induction Hr as [|i older (Hc & Ho & Ha) Hr [IH1 IH2]]; simpl.
  { split; [done|by apply streak_zero_aborted]. }
  rewrite Hc, Ho, Ha. simpl. rewrite IH1, IH2. split; [lia|].
  replace (1 + Z.of_nat (length older)) with (Z.of_nat (S (length older))) by lia.
  rewrite andb_true_r. destruct (Z.leb_spec 2 (Z.of_nat (length older))); simpl; [|done].
  symmetry. apply Z.leb_le. lia.
Qed.

(** C36. Progress: a connection that stays orphaned is aborted by the second
    sweep in a row that finds it so, and by no other sweep of the run. *)
Theorem orphan_aborted_once newer i older hist m :
  Forall distinct (newer ++ i :: older ++ hist) →
  Forall (λ j, completed j = true ∧ looks_orphaned j m = true ∧ i_abort j m = None)
    (newer ++ i :: older) →
  streak m hist = 0 →
  m ∈ aborts i (older ++ hist) ↔ length older = 1%nat.
Proof.
  intros Hd Hr H0. apply Forall_app in Hd as [_ [Hi Hd]%Forall_cons].
  apply Forall_app in Hr as [_ [(_ & Ho & _) Hr]%Forall_cons].
  rewrite elem_of_aborts by done.
  destruct (streak_run m older hist Hr H0) as [-> ->]. rewrite Ho, Z.leb_gt. lia.
Qed.

(** ** Recognising live daemons *)

Lemma argv_bytes_elem a argv : a ∈ argv → ∃ x y, argv_bytes argv = x +++ a +++ y.
Proof.
  induction argv as [|b argv IH]; [by intros ?%elem_of_nil|].
  intros [->|(x & y & E)%IH]%elem_of_cons; simpl.
  - exists "". by eexists.
  - rewrite E. exists (b +++ String nul x), y. by rewrite sapp_assoc.
Qed.

Lemma Contains_cmdline a argv :
  a ∈ argv → str_all (λ c, negb (Ascii.eqb nul c)) a = true →
  Contains (cmdlineToString (argv_bytes argv)) a = true.
Proof.
  intros (x & y & ->)%argv_bytes_elem Ha. unfold cmdlineToString.
  pose proof (Contains_TrimFunc _ x a y Ha) as (p & q & ->)%Contains_spec.
  rewrite !ReplaceByte_app, (ReplaceByte_none a) by done. apply Contains_spec. eauto.
Qed.

Lemma mountHasLiveDaemon_intro mps srvs srv :
  srv ∈ srvs →
  (∃ v mp, mp ∈ mps ∧ volumeIDForMount mp = Some v ∧ v ≠ ""%string ∧
     Contains (cmdline srv) (containerMountPathPrefix +++ v) = true) ∨
  (∃ uid mp, mp ∈ mps ∧ podUIDForMount mp = Some uid ∧ uid ≠ ""%string ∧
     cgroupHasPodUID (cgroup srv) uid = true) →
  mountHasLiveDaemon mps srvs = true.
Proof.
  intros Hs Hc. unfold mountHasLiveDaemon. apply existsb_exists. exists srv.
  split; [by apply list_elem_of_In|]. unfold serves. apply orb_true_iff.
  destruct Hc as [(v & mp & Hmp & Hv & Hne & Hc)|(v & mp & Hmp & Hv & Hne & Hc)];
    [left|right]; apply existsb_exists; exists v;
    (split; [apply list_elem_of_In, list_elem_of_omap; eauto|]);
    rewrite Hc; by apply String.eqb_neq in Hne as ->.
Qed.

Lemma volumeIDForMount_source id :
  is_volume_id id → volumeIDForMount (source_dir id) = Some id.
Proof.
  intros Hid%volume_id_good. unfold volumeIDForMount.
  rewrite Base_source_dir, source_dir_eq by done.
  replace (mountBaseDir +++ String "/" id) with ((mountBaseDir +++ "/") +++ id) by done.
  by rewrite HasPrefix_app.
Qed.

Lemma volume_id_bytes c id :
  is_volume_id id → is_lower_hex c = false → str_all (λ d, negb (Ascii.eqb c d)) id = true.
Proof.
  intros [_ Hid] Hc. eapply str_all_impl, Hid. intros d Hd. simpl in Hd.
  destruct (Ascii.eqb_spec c d) as [<-|]; [by rewrite Hc in Hd|done].
Qed.

Lemma ToLower_ascii s : str_all is_ascii s = true → ToLower s = map_bytes lower_byte s.
Proof. intros Hs. unfold ToLower. by rewrite Hs. Qed.

Lemma norm_uid_app a b :
  str_all is_ascii a = true → str_all is_ascii b = true → norm_uid (a +++ b) = norm_uid a +++ norm_uid b.
Proof.
  intros Ha Hb. unfold norm_uid. rewrite !ToLower_ascii; [|done..|by rewrite str_all_app, Ha, Hb].
  by rewrite map_bytes_app, !ReplaceByte_app.
Qed.

(** Dashes and underscores are both dropped, so the systemd spelling normalises
    like the UID. *)
Lemma norm_uid_mangled s :
  str_all is_ascii s = true →
  str_all is_ascii (ReplaceByte s "-" "_") = true ∧ norm_uid (ReplaceByte s "-" "_") = norm_uid s.
Proof.
  intros Hs. assert (str_all is_ascii (ReplaceByte s "-" "_") = true ∧
    ReplaceByte (ReplaceByte (map_bytes lower_byte (ReplaceByte s "-" "_")) "_" "") "-" "" =
    ReplaceByte (ReplaceByte (map_bytes lower_byte s) "_" "") "-" "") as [H1 H2].
  { induction s as [|c s IH]; [done|]. simpl in Hs. apply andb_true_iff in Hs as [Hc Hs].
    specialize (IH Hs) as [IH1 IH2]. cbn [ReplaceByte].
    rewrite str_all_app, !map_bytes_app, !ReplaceByte_app, IH2. cbn [map_bytes].
    destruct (Ascii.eqb_spec "-" c) as [<-|]; [by rewrite IH1|].
    cbn [str_all str1]. rewrite Hc, IH1. split; [done|]. cbn [map_bytes].
    change (String (lower_byte c) (map_bytes lower_byte s))
      with (str1 (lower_byte c) +++ map_bytes lower_byte s).
    by rewrite !ReplaceByte_app. }
  split; [done|]. unfold norm_uid. by rewrite !ToLower_ascii.
Qed.

(** C38. A live sidecar daemon is recognised: its cgroup names the workload pod,
    in the systemd spelling or verbatim, and its mount point is below that pod's
    kubelet directory. *)
Theorem sidecar_daemon_recognised uid rest pre post mangled mps srvs srv :
  uid ≠ ""%string → IndexByte uid "/" = None → norm_uid uid ≠ ""%string →
  str_all is_ascii uid = true → str_all is_ascii pre = true → str_all is_ascii post = true →
  srv ∈ srvs →
  cgroup srv = pre +++ (if mangled : bool then pod_slice uid else uid) +++ post →
  (podsPrefix +++ uid +++ kubeletCSIMarker +++ rest)%string ∈ mps →
  mountHasLiveDaemon mps srvs = true.
Proof.
  intros Hne Hs Hn Hu Hpre Hpost Hsrv Hcg Hmp.
  apply (mountHasLiveDaemon_intro mps srvs srv Hsrv). right.
  exists uid, (podsPrefix +++ uid +++ kubeletCSIMarker +++ rest). split_and!; [done| |done|].
  - unfold podUIDForMount.
    assert (Contains (podsPrefix +++ uid +++ kubeletCSIMarker +++ rest) kubeletCSIMarker = true) as ->.
    { apply Contains_spec. exists (podsPrefix +++ uid), rest. by rewrite sapp_assoc. }
    assert (Index (podsPrefix +++ uid +++ kubeletCSIMarker +++ rest) "/pods/" = Some 16%nat) as ->.
    { done. }
    change (s_drop _ _) with (uid +++ String "/" ("volumes/kubernetes.io~csi/" +++ rest)).
    simpl negb. rewrite IndexByte_Some_app by done.
    destruct (String.length uid) eqn:E; [by destruct uid|]. rewrite <- E. f_equal. apply s_take_app.
  - unfold cgroupHasPodUID. apply String.eqb_neq in Hn as Hn'. rewrite Hn', Hcg.
    assert (∃ a b, pre +++ (if mangled then pod_slice uid else uid) +++ post =
      a +++ (if mangled then ReplaceByte uid "-" "_" else uid) +++ b ∧
      str_all is_ascii a = true ∧ str_all is_ascii b = true) as (a & b & -> & Ha & Hb).
    { destruct mangled; [|by exists pre, post].
      exists (pre +++ "kubepods-burstable-pod"), (".slice" +++ post).
      unfold pod_slice. rewrite !sapp_assoc, !str_all_app, Hpre, Hpost. done. }
    destruct (norm_uid_mangled uid Hu) as [Hm1 Hm2].
    assert (str_all is_ascii (if mangled then ReplaceByte uid "-" "_" else uid) = true ∧
      norm_uid (if mangled then ReplaceByte uid "-" "_" else uid) = norm_uid uid) as [Hm3 Hm4]
      by by destruct mangled.
    rewrite !norm_uid_app, Hm4; [|done..|by rewrite str_all_app, Hm3, Hb]. apply Contains_spec. eauto.
Qed.
End Facts.

(** ** Concrete sweeps *)

(** [unicode.ToLower] on the inputs below, which are ASCII, is not consulted. *)
#[local] Instance ascii_only : UnicodeLower := λ s, s.

Definition wedged_sweep : sweep_inputs :=
  {| i_connections := Ok [42]; i_waiting := λ _, Ok 3;
     i_mounts := Ok {[42 := ["/var/lib/hf-csi-driver/mnt/0123456789ab"%string]]};
     i_servers := Ok []; i_abort := λ _, None; i_pending := λ _, false |}.

Definition failed_sweep : sweep_inputs :=
  {| i_connections := Err (Errno 5); i_waiting := λ _, Ok 0; i_mounts := Ok ∅;
     i_servers := Ok []; i_abort := λ _, None; i_pending := λ _, false |}.

Lemma wedged_distinct : distinct wedged_sweep.
Proof. apply NoDup_singleton. Qed.

Lemma failed_distinct : distinct failed_sweep.
Proof. exact I. Qed.

#[local] Hint Resolve wedged_distinct failed_distinct Forall_cons_2 Forall_nil_2 : core.

Example sweep_state_refines_witness :
  view (state_after [wedged_sweep; failed_sweep; wedged_sweep]) 42 = (2, true) ∧
  view (state_after [wedged_sweep]) 42 = (1, false).
Proof.
  split.
  - apply (sweep_state_refines [wedged_sweep; failed_sweep; wedged_sweep] 42).
    auto.
  - apply (sweep_state_refines [wedged_sweep] 42). auto.
Defined.

Example abort_only_confirmed_orphans_witness :
  aborts wedged_sweep [failed_sweep; wedged_sweep] = [42] ∧
  looks_orphaned wedged_sweep 42 = true ∧
  (∃ newer j older, [failed_sweep; wedged_sweep] = newer ++ j :: older ∧
    Forall (λ k, completed k = false) newer ∧ looks_orphaned j 42 = true) ∧
  (∀ newer j older, [failed_sweep; wedged_sweep] = newer ++ j :: older →
    Forall (λ k, completed k = true → looks_orphaned k 42 = true) newer →
    42 ∈ aborts j older → i_abort j 42 ≠ None).
Proof.
  split; [vm_compute; reflexivity|].
  apply (abort_only_confirmed_orphans wedged_sweep [failed_sweep; wedged_sweep] 42).
  - auto.
  - auto.
  - vm_compute. apply list_elem_of_here.
Defined.

Example orphan_aborted_once_witness :
  (42 ∈ aborts wedged_sweep [wedged_sweep]) ∧ (42 ∉ aborts wedged_sweep [wedged_sweep; wedged_sweep]).
Proof.
  assert (Hd : ∀ n, Forall distinct (replicate n wedged_sweep)).
  { intros n. apply Forall_replicate. auto. }
  assert (Hr : ∀ n, Forall (λ j, completed j = true ∧ looks_orphaned j 42 = true ∧ i_abort j 42 = None)
    (replicate n wedged_sweep)).
  { intros n. apply Forall_replicate. split_and!; reflexivity. }
  split.
  - by apply (orphan_aborted_once [] wedged_sweep [wedged_sweep] [] 42 (Hd 2%nat) (Hr 2%nat)).
  - by intros ?%(orphan_aborted_once [] wedged_sweep [wedged_sweep; wedged_sweep] [] 42 (Hd 3%nat) (Hr 3%nat)).
Defined.


Example sidecar_daemon_recognised_witness :
  mountHasLiveDaemon ["/var/lib/kubelet/pods/ab-1/volumes/kubernetes.io~csi/pv/mount"]%string
    [{| pid := 7; cmdline := ""; cgroup := "0::/kubepods-burstable-podab_1.slice" |}] = true.
Proof.
  eapply (sidecar_daemon_recognised "ab-1" "pv/mount" "0::/" "" true);
    first [reflexivity|apply list_elem_of_here|discriminate].
Defined.
