(* ===== verification/SweeperRun.v ===== *)
(** * The orphan sweeper on a node

    [Sweeper.v] specifies the sweeper by what each sweep is told.  Here the sweeps
    run with the providers of fuse_sweeper_linux.go: on a node that does not change
    while a sweep reads it, a run of [StartFuseSweeper] writes to exactly the abort
    files its specification says, for the inputs read off the node. *)
From S2P Require Import Prelude GoStrings GoErrors Unstructured Resources Kube Effects MountInfo.
From S2P Require Import Sweeper.

Local Open Scope Z_scope.
#[local] Set Warnings "-clear-no-such-hyp".

Section SweeperRun.
Context `{QuantityLib} `{UnicodeLower}.

(** ** A node between two sweeps *)

(** What every call answers, and the connections being handed over. *)
Record node_state := { n_answer : ∀ c, ans c; n_pending : gset Z }.

(** The value a program returns when it is answered so. *)
Fixpoint value {A} (answer : ∀ c, ans c) (p : prog A) : option A :=
  match p with
  | Ret a => Some a
  | Call c k => value answer (k (answer c))
  | _ => None
  end.

Definition unread : gerror := OtherErr "".

Definition inputs_of (n : node_state) : sweep_inputs := {|
  i_connections := default (Err unread) (value (n_answer n) listFuseConnections);
  i_waiting := λ m, default (Err unread) (value (n_answer n) (fuseConnWaiting m));
  i_mounts := default (Err unread) (value (n_answer n) listOurFuseMounts);
  i_servers := default (Err unread) (value (n_answer n) listFuseServers);
  i_abort := λ m, default (Some unread) (value (n_answer n) (abortFuseMinor m));
  i_pending := λ m, bool_decide (m ∈ n_pending n)
|}.

Definition abort_file (minor_ : Z) : string := JoinPath [fuseConnDir; Itoa minor_; "abort"%string].

(** The files a run wrote. *)
Definition written (c : call) : option string :=
  match c with WriteFile p _ _ => Some p | _ => None end.
Definition writes (tr : list event) : list string := omap written (calls tr).

Lemma writes_app tr tr' : writes (tr ++ tr') = writes tr ++ writes tr'.
Proof. unfold writes, calls. by rewrite fmap_app, omap_app. Qed.

(** The aborts of a history of sweeps, latest first, in the order of time. *)
Fixpoint aborts_log (hist : list sweep_inputs) : list Z :=
  match hist with
  | [] => []
  | i :: older => aborts_log older ++ aborts i older
  end.

(** ** Time

    The world lists the states of the node, the current one first; [Select] moves
    to the next one when the ticker fires, and nothing else does. *)
Definition node_world := list node_state.

Definition node_now (s : mem) (w : node_world) : Prop :=
  match w with [] => False | n :: _ => pendingSidecarMinors s = n_pending n end.

Definition timeline : rely node_world := λ c s w a s' w',
  node_now s w →
  match c return ans c → Prop with
  | Select => λ r, match r with
                   | CaseTick => ∃ n, w = n :: w' ∧ node_now s' w'
                   | _ => w' = w ∧ s' = s
                   end
  | c => λ r, w' = w ∧ s' = s ∧ ∀ n w1, w = n :: w1 → r = n_answer n c
  end a.

(** ** One program that only reads *)

Definition reads_only (c : call) : Prop :=
  match c with WriteFile _ _ _ | Select | Go _ => False | _ => True end.

Lemma reads_spec {A} (p : prog A) s n w :
  simple reads_only p → node_now s (n :: w) →
  wp timeline p s (n :: w) (λ r s' w' tr,
    ∃ a, value (n_answer n) p = Some a ∧ r = Done a ∧ s' = s ∧ w' = n :: w ∧ writes tr = []).
Proof.
  intros Hp Hn. induction p as [a|msg| |k IH|s0 k IH|c k IH]; simpl; try done.
  - by exists a.
  - destruct Hp as [Hc Hk]. intros a s' w' Ht. specialize (Ht Hn).
    assert (w' = n :: w ∧ s' = s ∧ a = n_answer n c) as (-> & -> & ->)
      by (destruct c; try done; destruct Ht as (-> & -> & Ha); split_and!; try done; by apply (Ha n w)).
    eapply wp_mono; [|by apply IH]. intros r s2 w2 tr (a & -> & -> & -> & -> & Hw).
    exists a. split_and!; try done. change (writes (Ev c (n_answer n c) :: tr)) with
      (omap written (c :: calls tr)). simpl. destruct c; done.
Qed.

Lemma connections_reads : simple reads_only listFuseConnections.
Proof. unfold listFuseConnections. go_simple ltac:(done). Qed.
Lemma waiting_reads m : simple reads_only (fuseConnWaiting m).
Proof. unfold fuseConnWaiting. go_simple ltac:(done). Qed.
Lemma mounts_reads : simple reads_only listOurFuseMounts.
Proof. unfold listOurFuseMounts. go_simple ltac:(done). Qed.

Lemma scan_fds_reads dir es : simple reads_only (scan_fds dir es).
Proof. induction es as [|e es IH]; simpl; [done|]. split; [done|]. intros []; simpl; by case_match. Qed.

Lemma servers_reads : simple reads_only listFuseServers.
Proof.
  assert (Hp : ∀ es acc, simple reads_only (scan_procs es acc)).
  { induction es as [|e es IH]; intros acc; cbn [scan_procs]; [done|].
    destruct (Atoi (DName e)); [|apply IH]. apply simple_bind.
    { unfold processHoldsDevFuse. apply simple_bind; [by apply simple_call|].
      intros [es'|]; [apply scan_fds_reads|]. by case_match. }
    intros [[]|]; [|apply IH|by case_match].
    unfold readProcField. apply simple_bind; [by apply simple_call|]. intros [cmd|]; [|by case_match].
    apply simple_bind; [by apply simple_call|]. intros [cg|]; [apply IH|by case_match]. }
  unfold listFuseServers. apply simple_bind; [by apply simple_call|]. intros []; [apply Hp|done].
Qed.

(** ** One sweep *)

(** A program computes what its counterpart over the log computes, and writes the
    abort files of the log. *)
Definition refines {A} (p : prog A) (l : logM A) (n : node_state) : Prop :=
  ∀ s w, node_now s (n :: w) →
    wp timeline p s (n :: w) (λ r s' w' tr,
      r = Done l.1 ∧ s' = s ∧ w' = n :: w ∧ writes tr = abort_file <$> l.2).

Lemma refines_ret {A} (a : A) n : refines (mret a) (mret a) n.
Proof. by intros s w Hn. Qed.

Lemma refines_bind {A B} (p : prog A) (l : logM A) (f : A → prog B) (g : A → logM B) n :
  refines p l n → (∀ a, refines (f a) (g a) n) → refines (p ≫= f) (l ≫= g) n.
Proof.
  intros Hp Hf s w Hn. apply wp_bind. eapply wp_mono; [|by apply Hp].
  intros r s1 w1 tr (-> & -> & -> & Hw). eapply wp_mono; [|by apply Hf].
  intros r s2 w2 tr' (-> & -> & -> & Hw'). rewrite writes_app, Hw, Hw'.
  unfold mbind, logM_bind. destruct (g l.1) as [b l2]. simpl. by rewrite fmap_app.
Qed.

Lemma refines_reads {A} (p : prog A) (d : A) n :
  simple reads_only p → refines p (default d (value (n_answer n) p), []) n.
Proof.
  intros Hp s w Hn. eapply wp_mono; [|by apply reads_spec].
  intros r s' w' tr (a & -> & -> & -> & -> & ->). done.
Qed.

Lemma refines_pending m n : refines (sidecarHandoffPending m) (i_pending (inputs_of n) m, []) n.
Proof.
  intros s w Hn. simpl. intros [] s1 w1 Ht. destruct (Ht Hn) as (-> & -> & _). by rewrite Hn.
Qed.

Lemma refines_abort m n : refines (abortFuseMinor m) (i_abort (inputs_of n) m, [m]) n.
Proof.
  intros s w Hn. simpl. intros e s1 w1 Ht. destruct (Ht Hn) as (-> & -> & Ha).
  by rewrite (Ha n w eq_refl).
Qed.

Lemma sweep_minor_refines n srvs mps minor_ st :
  refines (sweep_minor linux_providers srvs mps minor_ st)
          (sweep_minor (told (inputs_of n)) srvs mps minor_ st) n.
Proof.
  unfold sweep_minor. apply refines_bind; [apply refines_reads, waiting_reads|].
  intros [waiting_|e]; [|apply refines_ret].
  apply refines_bind; [apply refines_pending|]. intros pending.
  destruct (_ || _); [apply refines_ret|]. destruct (_ <? orphanConfirmSweeps); [apply refines_ret|].
  destruct (bool_decide _); [apply refines_ret|].
  apply refines_bind; [exact (refines_abort minor_ n)|]. intros []; apply refines_ret.
Qed.

Lemma sweep_loop_refines n srvs mounts conns st seen :
  refines (sweep_loop linux_providers srvs mounts conns st seen)
          (sweep_loop (told (inputs_of n)) srvs mounts conns st seen) n.
Proof.
  revert st seen. induction conns as [|m conns IH]; intros st seen; [apply refines_ret|].
  cbn [sweep_loop]. destruct (default [] (mounts !! m)); [apply IH|].
  apply refines_bind; [apply sweep_minor_refines|]. intros st'. apply IH.
Qed.

Lemma sweep_refines n st :
  refines (sweep linux_providers st) (sweep (told (inputs_of n)) st) n.
Proof.
  unfold sweep. apply refines_bind; [exact (refines_reads listFuseConnections _ n connections_reads)|].
  intros [conns|e]; [|apply refines_ret].
  apply refines_bind; [exact (refines_reads listOurFuseMounts _ n mounts_reads)|].
  intros [mounts|e]; [|apply refines_ret].
  apply refines_bind; [exact (refines_reads listFuseServers _ n servers_reads)|].
  intros [srvs|e]; [|apply refines_ret]. apply refines_bind; [apply sweep_loop_refines|].
  intros [st' seen]. apply refines_ret.
Qed.

(** ** The run *)

(** The sweeps of a run that started with the history [hist] and went through the
    node states [ns]. *)
Definition history (hist : list sweep_inputs) (ns : list node_state) : list sweep_inputs :=
  rev (inputs_of <$> ns) ++ hist.

Definition ran (fuel : nat) (hist : list sweep_inputs) (w : node_world) (r : res unit)
    (tr : list event) : Prop :=
  r ≠ Panicked ∧
  ∃ ns, (∃ rest, w = ns ++ rest) ∧
    (r = Done tt → ns ≠ []) ∧ (r = Exhausted → length ns = fuel) ∧
    abort_file <$> aborts_log (history hist ns) = (abort_file <$> aborts_log hist) ++ writes tr.

Lemma sweeper_run_ran fuel hist s n w :
  node_now s (n :: w) →
  wp timeline (sweeper_run fuel (state_after hist)) s (n :: w) (λ r _ _ tr, ran fuel hist (n :: w) r tr).
Proof.
  revert hist s n w. induction fuel as [|fuel IH]; intros hist s n w Hn.
  { split; [done|]. exists []. split; [by exists (n :: w)|]. split_and!; [done|done|].
    by rewrite app_nil_r. }
  cbn [sweeper_run]. apply wp_bind. eapply wp_mono; [|by apply (sweep_refines n)].
  intros r s1 w1 tr (-> & -> & -> & Hw).
  assert (Hone : abort_file <$> aborts_log (history hist [n]) =
                 (abort_file <$> aborts_log hist) ++ writes tr)
    by (by rewrite Hw, <-fmap_app).
  simpl. intros c s2 w2 Ht. specialize (Ht Hn). destruct c; simpl.
  1,2: split; [done|]; exists [n]; (split; [by exists w|]); (split_and!; [done|done|]);
    by rewrite writes_app, app_nil_r.
  destruct Ht as (n' & [= <- <-] & Hn2). destruct w as [|n2 w]; [done|].
  eapply wp_mono; [|apply (IH (inputs_of n :: hist) s2 n2 w Hn2)].
  intros r s3 w3 tr' (Hr & ns & [rest Hns] & _ & Hex & Hlog). split; [done|].
  exists (n :: ns). split; [exists rest; by rewrite Hns|].
  split_and!; [done|intros Hr'; simpl; by rewrite Hex|].
  change (Ev Select CaseTick :: tr') with ([Ev Select CaseTick] ++ tr').
  rewrite !writes_app. change (writes [Ev Select CaseTick]) with (@nil string).
  rewrite app_assoc, app_nil_l, <-Hone.
  unfold history in *. rewrite fmap_cons. cbn [rev]. by rewrite <-app_assoc.
Qed.

(** C39. The running sweeper does what the specification of its sweeps says: on a node
    that changes only between sweeps (the connections being handed over among
    what changes), it sweeps one state of the node after the other, once for every
    unit of fuel if it is not stopped before, and the files it writes are, in
    order, the abort files of the aborts specified for the inputs read off these
    states; it never panics. *)
Theorem sweeper_run_refines (h : env node_world) fuel interval s n w :
  env_ok timeline h → node_now s (n :: w) →
  let o := run h (StartFuseSweeper fuel interval) s (n :: w) in
  o_res o ≠ Panicked ∧
  ∃ ns rest, n :: w = ns ++ rest ∧
    (o_res o = Done tt → ns ≠ []) ∧ (o_res o = Exhausted → length ns = fuel) ∧
    writes (o_trace o) = abort_file <$> aborts_log (rev (inputs_of <$> ns)).
Proof.
  intros Hh Hn o.
  assert (Hwp : wp timeline (StartFuseSweeper fuel interval) s (n :: w) (λ r _ _ tr,
    ran fuel [] (n :: w) r tr)).
  { unfold StartFuseSweeper. simpl. intros [] s1 w1 Ht. destruct (Ht Hn) as (-> & -> & _).
    exact (sweeper_run_ran fuel [] s n w Hn). }
  destruct (run_wp _ _ _ _ _ _ Hh Hwp) as (Hr & ns & [rest Hns] & Hd & He & Hlog).
  split; [exact Hr|]. exists ns, rest. split_and!; [done|done|done|].
  unfold history in Hlog. rewrite app_nil_r in Hlog. by rewrite Hlog.
Qed.
End SweeperRun.

(** ** A concrete node *)

Section Demo.
#[local] Existing Instance z_quantities.
(** [unicode.ToLower] is not consulted: the text of the node is ASCII. *)
#[local] Instance ascii_text : UnicodeLower := λ s, s.

(** A node with one connection of the driver, requests queued, and no process. *)
Definition wedged_answer (c : call) : ans c :=
  match c with
  | ReadDir p => if String.eqb p fuseConnDir then Ok [{| DName := "41"; DIsDir := true |}] else Ok []
  | ReadFile _ => Ok "3"%string
  | OpenScan _ => Ok (table sample_entries)
  | c => idle c
  end.
Definition wedged_node : node_state := {| n_answer := wedged_answer; n_pending := ∅ |}.
(** The same while the descriptor of connection 41 is on its way to a sidecar. *)
Definition handing_over : node_state := {| n_answer := wedged_answer; n_pending := {[41]} |}.

(** The ticker fires as long as there is a next state; then the driver stops. *)
Definition demo_timeline : env node_world := λ c s w,
  match c return ans c * mem * node_world with
  | Select => match w with
              | _ :: (n :: _) as w' => (CaseTick, set_pendingSidecarMinors (λ _, n_pending n) s, w')
              | _ => (CaseDone, s, w)
              end
  | c => (match w with n :: _ => n_answer n c | [] => idle c end, s, w)
  end.

Lemma demo_timeline_ok : env_ok timeline demo_timeline.
Proof.
  intros c s w. destruct c; unfold demo_timeline, timeline;
    try (intros Hn; split_and!; [done|done|intros n w1 Hw; by rewrite Hw]).
  destruct w as [|n [|n2 w]]; intros Hn; [done|done|]. by exists n.
Qed.

Definition demo_sweeps := run demo_timeline (StartFuseSweeper 5 0)
  (set_pendingSidecarMinors (λ _, {[41]}) empty_mem) [handing_over; wedged_node; wedged_node; wedged_node].

(** The handed-over connection is left alone, then aborted once by the second sweep
    that sees it orphaned. *)
Example sweeper_run_refines_witness :
  writes (o_trace demo_sweeps) = ["/sys/fs/fuse/connections/41/abort"%string] ∧
  ∃ ns rest, [handing_over; wedged_node; wedged_node; wedged_node] = ns ++ rest ∧
    writes (o_trace demo_sweeps) = abort_file <$> aborts_log (rev (inputs_of <$> ns)).
Proof.
  split; [vm_compute; reflexivity|].
  destruct (sweeper_run_refines demo_timeline 5 0 (set_pendingSidecarMinors (λ _, {[41]}) empty_mem)
    handing_over [wedged_node; wedged_node; wedged_node] demo_timeline_ok eq_refl)
    as (_ & ns & rest & Hns & _ & _ & Hw).
  exact (ex_intro _ ns (ex_intro _ rest (conj Hns Hw))).
Defined.
End Demo.
