(* ===== verification/PodMounter.v ===== *)
(** * Mount pods (pkg/driver/podmounter.go): locks, pods, waits, Mount and Unmount

    [PodMounter] delegates each FUSE mount to a pod of its own on the node and
    bind-mounts the pod's mount onto the target.  The maps its methods share are
    in [mem]; the constant fields are in [PMConfig].  The background operations
    are in PodLifecycle.v. *)
From S2P Require Import Prelude GoStrings Sha256 GoTime GoErrors Unstructured Resources.
From S2P Require Import Names MountArgs Kube Effects MountInfo HFMount.

Local Open Scope Z_scope.

Definition podReadyTimeout : Z := 2 * minute.
Definition podReadyPoll : Z := second.
Definition mountReadyPollPM : Z := 500 * millisecond.
Definition podDeletionTimeout : Z := 60 * second.
Definition DefaultMountReadyTimeout : Z := 90 * second.
Definition crashLoopRestartThreshold : Z := 2.

(** [mount.IsCorruptedMnt] of k8s.io/mount-utils. *)
Class MountLib := IsCorruptedMnt : gerror → bool.

(** ** refMutex *)

(** [sourceLocks] maps a source to the address of its mutex; the counters are in a
    heap, because a goroutine keeps the address it got. *)
Definition set_locks (locks : gmap string nat) (refs : gmap nat Z) (next : nat) (s : mem) : mem :=
  Mem (binds s) locks refs next (sidecarVolumes s) (pendingSidecarMinors s).

Definition acquire_in (source : string) (s : mem) : nat * mem :=
  match sourceLocks s !! source with
  | Some lk =>
      (lk, set_locks (sourceLocks s) (<[lk := default 0 (lockRefs s !! lk) + 1]> (lockRefs s))
             (nextLock s) s)
  | None =>
      let lk := nextLock s in
      (lk, set_locks (<[source := lk]> (sourceLocks s)) (<[lk := 0 + 1]> (lockRefs s)) (S lk) s)
  end.

Definition release_in (source : string) (lk : nat) (s : mem) : unit * mem :=
  let refs := default 0 (lockRefs s !! lk) - 1 in
  let locks := if refs =? 0 then delete source (sourceLocks s) else sourceLocks s in
  (tt, set_locks locks (<[lk := refs]> (lockRefs s)) (nextLock s) s).

Section PodMounter.
Context `{QuantityLib} `{TimeLib} `{MountLib}.

Definition acquireSourceLock (source : string) : prog nat := locked (acquire_in source).
Definition releaseSourceLock (source : string) (lk : nat) : prog unit := locked (release_in source lk).

(** [lk := m.acquireSourceLock(s); lk.Lock(); defer func() { lk.Unlock();
    m.releaseSourceLock(s, lk) }()]. *)
Definition with_source_lock {A} (source : string) (body : prog A) : prog A :=
  lk ← acquireSourceLock source;
  _ ← call_ (SrcLock lk);
  r ← body;
  _ ← call_ (SrcUnlock lk);
  _ ← releaseSourceLock source lk;
  mret r.

(** ** Constant fields *)

Record PMConfig := {
  namespace : string;
  nodeID : string;
  image : string;
  imagePullPolicy : string;
  imagePullSecrets : list string;
  serviceAccount : string;
  cacheDir : string;
  hostNetwork : bool;
  mountReadyTimeout : Z;
  pm_defaults : Defaults           (* the package variables of resources.go *)
}.

(** The part of [NewPodMounter] that decides anything. *)
Definition NewPodMounter (c : PMConfig) : PMConfig :=
  if mountReadyTimeout c <=? 0
  then {| namespace := namespace c; nodeID := nodeID c; image := image c;
          imagePullPolicy := imagePullPolicy c; imagePullSecrets := imagePullSecrets c;
          serviceAccount := serviceAccount c; cacheDir := cacheDir c;
          hostNetwork := hostNetwork c; mountReadyTimeout := DefaultMountReadyTimeout;
          pm_defaults := pm_defaults c |}
  else c.

Variable m : PMConfig.

(** ** The mount pod *)

Definition buildMountPod (name volumeID sourceType sourceID mountPath : string)
    (args : list string) (resources : MountResources) : Pod :=
  {| PName := name; PNamespace := namespace m; PUID := "";
     PLabels := list_to_map [(labelApp, labelAppValue);
                             (labelVolumeID, sanitizeLabelValue volumeID);
                             (labelNode, sanitizeLabelValue (nodeID m))];
     PAnnotations := list_to_map [(annotSourceType, sourceType); (annotSourceID, sourceID);
                                  (annotMountPath, mountPath)];
     PDeleting := false; PPhase := ""; PContainerStatuses := [];
     PSpec := {|
       HostNetwork := hostNetwork m;
       RestartPolicy := "OnFailure";
       TerminationGracePeriodSeconds := Some 3600;
       NodeAffinity := [[{| MFKey := "metadata.name"; MFOperator := "In"; MFValues := [nodeID m] |}]];
       ServiceAccountName := serviceAccount m;
       ImagePullSecrets := imagePullSecrets m;
       Tolerations := ["Exists"%string];
       InitContainers := [];
       Containers := [{|
         CName := "hf-mount"; CImage := image m; CImagePullPolicy := imagePullPolicy m;
         CRestartPolicy := None;
         CCommand := [hfMountBinary]; CArgs := args;
         CEnv := [("HF_CSI_SOURCE_TYPE", sourceType); ("HF_CSI_SOURCE_ID", sourceID);
                  ("HF_CSI_VOLUME_ID", volumeID); ("HF_CSI_NODE", nodeID m);
                  ("HF_CSI_MOUNT_PATH", mountPath)]%string;
         CSecurityContext := Some {| Privileged := Some true; RunAsNonRoot := None;
           RunAsUser := None; RunAsGroup := None; ReadOnlyRootFilesystem := None;
           AllowPrivilegeEscalation := None; CapabilitiesDrop := []; SeccompProfile := None |};
         CVolumeMounts := [
           {| VMName := "mnt-dir"; VMPath := "/mnt/hf"; VMPropagation := Some "Bidirectional"%string |};
           {| VMName := "cache-dir"; VMPath := cacheDir m; VMPropagation := None |}];
         CStartupProbe := None;
         CResources := BuildResourceRequirements resources
           (DefaultMountCPURequest (pm_defaults m))
           (DefaultMemoryRequestFor (pm_defaults m) (ReadOnlyFromArgs args)) |}];
       Volumes := [
         {| VName := "mnt-dir"; VSource := HostPath mountBaseDir "DirectoryOrCreate" |};
         {| VName := "cache-dir"; VSource := HostPath (cacheDir m) "DirectoryOrCreate" |}] |} |}.

(** The selector of the mount pods of this node. *)
Definition mount_pod_selector : string :=
  labelApp +++ "=" +++ labelAppValue +++ "," +++ labelNode +++ "=" +++ sanitizeLabelValue (nodeID m).

(** [m.checker.IsMountPoint], which the method [IsMountPoint] forwards to. *)
Definition PM_IsMountPoint (target : string) : prog (bool * option gerror) :=
  call_ (IsMountPoint target).

(** ** Waiting *)

(** A timeout, with the last error seen appended to the message. *)
Definition wait_timeout (fmt arg : string) (lastErr : option gerror) : gerror :=
  match lastErr with
  | Some _ => Errorf (fmt +++ ": %w (last check error: %v)") [arg] [errWaitTimeout]
  | None => Errorf (fmt +++ ": %w") [arg] [errWaitTimeout]
  end.

Fixpoint wait_running_loop (fuel : nat) (name : string) (lastErr : option gerror)
  : prog (option gerror) :=
  match fuel with
  | O => OutOfFuel
  | S fuel' =>
      pod ← call_ (PodGet (namespace m) name);
      let look :=
        match pod with
        | Err e => inr (Some e)
        | Ok pod =>
            if String.eqb (PPhase pod) PodRunning then inl None
            else if isPodTerminal pod
            then inl (Some (Errorf "pod %s is in terminal phase %s" [name; PPhase pod] []))
            else inr lastErr
        end in
      match look with
      | inl r => mret r
      | inr lastErr =>
          c ← call_ Select;
          match c with
          | CaseDeadline =>
              mret (Some (wait_timeout "timeout waiting for pod %s to be running" name lastErr))
          | CaseDone => mret (Some CtxErr)
          | CaseTick => wait_running_loop fuel' name lastErr
          end
      end
  end.

Definition waitForPodRunning (fuel : nat) (name : string) (absDeadline : Z) : prog (option gerror) :=
  now ← call_ Now;
  _ ← call_ (TimeAfter (Z.min (Sub absDeadline now) podReadyTimeout));
  _ ← call_ (NewTicker podReadyPoll);
  wait_running_loop fuel name None.

(** The fatal findings of one look at the mount pod in [waitForMount]. *)
Definition mount_pod_failed (podName : string) (pod : result Pod) : option gerror :=
  match pod with
  | Err e => if IsNotFound (Some e)
             then Some (Errorf "mount pod %s was deleted before mount appeared" [podName] [])
             else None
  | Ok pod =>
      if isPodTerminal pod
      then Some (Errorf "mount pod %s failed (phase=%s) before mount appeared" [podName; PPhase pod] [])
      else if crashLoopRestartThreshold <=? totalRestartCount pod
      then Some (Errorf "mount pod %s keeps crashing (%d restarts)"
                        [podName; Itoa (totalRestartCount pod)] [])
      else None
  end.

Fixpoint wait_mount_loop (fuel : nat) (path podName : string) (lastErr : option gerror)
  : prog (option gerror) :=
  match fuel with
  | O => OutOfFuel
  | S fuel' =>
      '(mounted, err) ← PM_IsMountPoint path;
      let lastErr := match err with Some e => Some e | None => lastErr end in
      if (match err with None => mounted | Some _ => false end) then mret None
      else
        pod ← call_ (PodGet (namespace m) podName);
        match mount_pod_failed podName pod with
        | Some e => mret (Some e)
        | None =>
            c ← call_ Select;
            match c with
            | CaseDeadline => mret (Some (wait_timeout "timeout waiting for mount at %s" path lastErr))
            | _ => wait_mount_loop fuel' path podName lastErr
            end
        end
  end.

Definition waitForMount (fuel : nat) (path podName : string) (absDeadline : Z) : prog (option gerror) :=
  now ← call_ Now;
  _ ← call_ (TimeAfter (Sub absDeadline now));
  _ ← call_ (NewTicker mountReadyPollPM);
  wait_mount_loop fuel path podName None.

Fixpoint wait_deletion_loop (fuel : nat) (name : string) (lastErr : option gerror)
  : prog (option gerror) :=
  match fuel with
  | O => OutOfFuel
  | S fuel' =>
      c ← call_ Select;
      match c with
      | CaseDeadline =>
          mret (Some (match lastErr with
                      | Some e => Errorf "timeout waiting for pod %s to be deleted: %w" [name] [e]
                      | None => Errorf "timeout waiting for pod %s to be deleted" [name] []
                      end))
      | CaseDone => mret (Some CtxErr)
      | CaseTick =>
          pod ← call_ (PodGet (namespace m) name);
          match pod with
          | Err e => if IsNotFound (Some e) then mret None else wait_deletion_loop fuel' name (Some e)
          | Ok _ => wait_deletion_loop fuel' name lastErr
          end
      end
  end.

Definition waitForPodDeletion (fuel : nat) (name : string) : prog (option gerror) :=
  _ ← call_ (TimeAfter podDeletionTimeout);
  _ ← call_ (NewTicker second);
  wait_deletion_loop fuel name None.

Fixpoint pollUntilMounted (path : string) (attempts : nat) : prog bool :=
  match attempts with
  | O => r ← PM_IsMountPoint path; mret r.1
  | S attempts' =>
      '(mounted, err) ← PM_IsMountPoint path;
      if (match err with None => mounted | Some _ => false end) then mret true
      else _ ← call_ (Sleep second); pollUntilMounted path attempts'
  end.

(** ** Binds and unmounts *)

(** At most [n] lazy detaches, until the kernel refuses one. *)
Fixpoint unmount_loop (n : nat) (path : string) : prog unit :=
  match n with
  | O => mret tt
  | S n' =>
      err ← fuseUnmount path;
      match err with
      | Some _ => mret tt
      | None => unmount_loop n' path
      end
  end.

Definition unmountAll (path : string) : prog unit := unmount_loop 32 path.

Definition stackBind (source_ target : string) : prog (option gerror) :=
  _ ← call_ (MkdirAll target 488);                       (* 0750; a failure is only logged *)
  err ← bindMount source_ target;
  match err with
  | None => mret None
  | Some _ =>
      _ ← unmountAll target;
      err ← call_ (MkdirAll target 488);
      match err with
      | Some e => if IsExist e then bindMount source_ target
                  else mret (Some (Errorf "failed to create target directory %s: %w" [target] [e]))
      | None => bindMount source_ target
      end
  end.

(** ** Mount *)

(** Lines of [Mount] that create the pod, or find the one to reuse: [Ok created],
    or the error to return with the flag [cleanupCRD] it returns under. *)
Definition ensure_pod (fuel : nat) (podName : string) (pod : Pod) : prog (bool + gerror * bool) :=
  err ← call_ (PodCreate pod);
  match err with
  | None => mret (inl true)
  | Some err =>
      if IsAlreadyExists (Some err) then
        existing ← call_ (PodGet (namespace m) podName);
        match existing with
        | Err getErr =>
            mret (inr (Errorf "failed to get existing mount pod %s: %w" [podName] [getErr], false))
        | Ok existing =>
            if PDeleting existing || isPodTerminal existing then
              _ ← (if PDeleting existing then mret None else call_ (PodDelete (namespace m) podName));
              waitErr ← waitForPodDeletion fuel podName;
              match waitErr with
              | Some e =>
                  mret (inr (Errorf "timed out waiting for stale pod %s to be deleted: %w" [podName] [e], false))
              | None =>
                  retryErr ← call_ (PodCreate pod);
                  match retryErr with
                  | Some e => mret (inr (Errorf "failed to re-create mount pod %s: %w" [podName] [e], false))
                  | None => mret (inl true)
                  end
              end
            else mret (inl false)
        end
      else mret (inr (Errorf "failed to create mount pod %s: %w" [podName] [err], true))
  end.

(** After a failed wait: a pure readiness timeout keeps pod and CRD, any other
    failure deletes the pod. Returns the flags [(cleanupPod, cleanupCRD)]. *)
Definition wait_cleanup (err : gerror) (createdPod : bool) : bool * bool :=
  if IsWaitTimeout err then (false, false) else (true, createdPod).

(** The attempt: its error and the final values of [cleanupPod] and [cleanupCRD]. *)
Definition mount_attempt (fuel : nat) (podName crdName mountPath target : string) (pod : Pod)
  : prog (option gerror * (bool * bool)) :=
  created ← ensure_pod fuel podName pod;
  match created with
  | inr (e, cleanupCRD) => mret (Some e, (false, cleanupCRD))
  | inl createdPod =>
      now ← call_ Now;
      let readyDeadline := now + mountReadyTimeout m in
      err ← waitForPodRunning fuel podName readyDeadline;
      match err with
      | Some e =>
          mret (Some (Errorf "mount pod %s did not become running: %w" [podName] [e]),
                wait_cleanup e createdPod)
      | None =>
          err ← waitForMount fuel mountPath podName readyDeadline;
          match err with
          | Some e =>
              mret (Some (Errorf "FUSE mount did not appear at %s: %w" [mountPath] [e]),
                    wait_cleanup e createdPod)
          | None =>
              err ← stackBind mountPath target;
              match err with
              | Some e =>
                  mret (Some (Errorf "bind mount %s -> %s failed: %w" [mountPath; target] [e]),
                        (createdPod, createdPod))
              | None =>
                  _ ← locked (λ s, (tt, set_binds (<[target := mountPath]>) s));
                  _ ← updateStatus crdName "Mounted" "";
                  mret (None, (false, false))
              end
          end
      end
  end.

(** The deferred clean-up. *)
Definition mount_cleanup (podName crdName : string) (flags : bool * bool) : prog unit :=
  _ ← (if flags.1 then call_ (PodDelete (namespace m) podName) else mret None);
  _ ← (if flags.2 then crd_delete crdName else mret None);
  mret tt.

Definition mount_spec (sourceType sourceID target : string) (args : list string)
    (resources : MountResources) : hfMountSpec :=
  let volumeID := mountID target in
  {| NodeName := nodeID m; SourceType := sourceType; SourceID := sourceID;
     MountPodName := mount_pod_name volumeID; MountPath := source_dir volumeID;
     MountArgs := args; SResources := resources |}.

(** From the registration of the workload to the end of [Mount]. *)
Definition mount_registered (fuel : nat) (podName crdName mountPath target : string) (pod : Pod)
    (opts : MountOptions) : prog (option gerror) :=
  _ ← addWorkload crdName (WorkloadPodUID opts) target;
  '(err, flags) ← mount_attempt fuel podName crdName mountPath target pod;
  _ ← mount_cleanup podName crdName flags;
  mret err.

Definition mount_locked (fuel : nat) (sourceType sourceID target : string) (args : list string)
    (opts : MountOptions) : prog (option gerror) :=
  let volumeID := mountID target in
  let mountPath := source_dir volumeID in
  let podName := mount_pod_name volumeID in
  let crdName := hfMountName volumeID in
  let pod := buildMountPod podName volumeID sourceType sourceID mountPath args (MResources opts) in
  crdErr ← crd_create (namespace m) crdName (mount_spec sourceType sourceID target args (MResources opts));
  match crdErr with
  | Some e =>
      if negb (IsAlreadyExists (Some e))
      then mret (Some (Errorf "failed to create HFMount CRD %s: %w" [crdName] [e]))
      else mount_registered fuel podName crdName mountPath target pod opts
  | None => mount_registered fuel podName crdName mountPath target pod opts
  end.

Definition PM_Mount (fuel : nat) (sourceType sourceID target : string) (opts : MountOptions)
  : prog (option gerror) :=
  match buildArgs sourceType sourceID ("/mnt/hf/" +++ mountID target) opts with
  | Err e => mret (Some e)
  | Ok args =>
      with_source_lock (source_dir (mountID target))
        (mount_locked fuel sourceType sourceID target args opts)
  end.

(** ** Unmount *)

(** [err != nil && !os.IsNotExist(err)]. *)
Definition fatal_remove (err : option gerror) : option gerror :=
  match err with Some e => if IsNotExist e then None else Some e | None => None end.

(** The locked section of [Unmount] after the removal of the target: the entry it
    removes, and whether another target uses the same source. *)
Definition untrack (target : string) (s : mem) : option (string * bool) * mem :=
  match binds s !! target with
  | None => (None, s)
  | Some source =>
      let s' := set_binds (delete target) s in
      (Some (source, bool_decide (map_Exists (λ _ src, src = source) (binds s'))), s')
  end.

Definition unmount_untracked (target : string) : prog (option gerror) :=
  let volumeID := mountID target in
  let derivedSource := source_dir volumeID in
  mounted ← PM_IsMountPoint derivedSource;
  if (mounted : bool * option gerror).1 then
    _ ← unmountAll derivedSource;
    _ ← call_ (PodDelete (namespace m) (mount_pod_name volumeID));
    _ ← crd_delete (hfMountName volumeID);
    mret None
  else mret None.

Definition unmount_tracked (target source_ : string) (sourceInUse : bool) : prog (option gerror) :=
  let volumeID := mountIDFromSource source_ in
  let crdName := hfMountName volumeID in
  if sourceInUse then
    _ ← removeWorkload crdName target;
    mret None
  else
    _ ← unmountAll source_;
    _ ← call_ (PodDelete (namespace m) (mount_pod_name volumeID));
    _ ← crd_delete crdName;
    _ ← call_ (Remove source_);
    mret None.

Definition unmount_locked (target : string) : prog (option gerror) :=
  _ ← unmountAll target;
  err ← call_ (Remove target);
  match fatal_remove err with
  | Some e => mret (Some (Errorf "failed to remove mount target %s: %w" [target] [e]))
  | None =>
      tracked ← locked (untrack target);
      match tracked with
      | None => unmount_untracked target
      | Some (source_, sourceInUse) => unmount_tracked target source_ sourceInUse
      end
  end.

Definition PM_Unmount (target : string) : prog (option gerror) :=
  tracked ← locked (λ s, (binds s !! target, s));
  let source_ := default (source_dir (mountID target)) tracked in
  with_source_lock source_ (unmount_locked target).

(** ** CheckHealth *)

Definition crash_looping (podName : string) (pod : Pod) : option gerror :=
  let restarts := totalRestartCount pod in
  if restarts <? crashLoopRestartThreshold then None
  else
    match List.find (λ cs, match WaitingReason cs with
                           | Some r => String.eqb r "CrashLoopBackOff" | None => false end)
            (PContainerStatuses pod) with
    | None => None
    | Some cs =>
        let msg := "mount pod " +++ podName +++ " is in CrashLoopBackOff (" +++ Itoa restarts
                   +++ " restarts)" in
        Some (Errorf "%s" [match LastTerminationMessage cs with
                           | Some t => msg +++ ": " +++ t | None => msg end] [])
    end.

Definition CheckHealth (target : string) : prog (option gerror) :=
  tracked ← locked (λ s, (binds s !! target, s));
  match tracked with
  | None => mret None
  | Some source_ =>
      let podName := mount_pod_name (Base source_) in
      pod ← call_ (PodGet (namespace m) podName);
      match pod with
      | Err _ => mret None
      | Ok pod => mret (crash_looping podName pod)
      end
  end.
End PodMounter.
