(* ===== verification/RefMutex.v ===== *)
(** * The per-source mutexes (refMutex in pkg/driver/podmounter.go)

    [acquireSourceLock] and [releaseSourceLock] keep one reference-counted mutex
    per source in a map, creating it on first use and dropping it with the last
    reference.  A step relation over any number of goroutines, each going through
    acquire, lock, unlock, release in the order [with_source_lock] makes these
    calls, shows that two goroutines never hold the lock of one source together
    and that the map does not leak. *)
From S2P Require Import Prelude GoStrings GoTime GoErrors Resources MountArgs Kube Effects.
From S2P Require Import HFMount PodMounter.

Local Open Scope Z_scope.

(** ** The system *)

(** Where a goroutine is between [acquireSourceLock] and [releaseSourceLock]:
    about to lock, holding, or unlocked and about to release. *)
Inductive stage := Waiting | Holding | Releasing.

Record thread := Thread { t_source : string; t_lock : nat; t_stage : stage }.

#[export] Instance stage_eq_dec : EqDecision stage.
Proof. solve_decision. Defined.

Definition uses (lk : nat) (t : thread) : bool := Nat.eqb (t_lock t) lk.
Definition holds (lk : nat) (t : thread) : bool :=
  Nat.eqb (t_lock t) lk && bool_decide (t_stage t = Holding).

Definition count (f : thread → bool) (T : list thread) : nat := length (List.filter f T).

(** A [sync.Mutex] lets a goroutine in when no other holds it. Other steps leave
    the lock tables alone. *)
Inductive lock_step : mem * list thread → mem * list thread → Prop :=
| step_acquire source s T :
    lock_step (s, T) ((acquire_in source s).2, Thread source (acquire_in source s).1 Waiting :: T)
| step_lock source lk s T1 T2 :
    count (holds lk) (T1 ++ T2) = 0%nat →
    lock_step (s, T1 ++ Thread source lk Waiting :: T2) (s, T1 ++ Thread source lk Holding :: T2)
| step_unlock source lk s T1 T2 :
    lock_step (s, T1 ++ Thread source lk Holding :: T2) (s, T1 ++ Thread source lk Releasing :: T2)
| step_release source lk s T1 T2 :
    lock_step (s, T1 ++ Thread source lk Releasing :: T2) ((release_in source lk s).2, T1 ++ T2)
| step_other s s' T :
    sourceLocks s' = sourceLocks s → lockRefs s' = lockRefs s → nextLock s' = nextLock s →
    lock_step (s, T) (s', T).

(** ** Invariant *)

Record lock_inv (c : mem * list thread) : Prop := {
  inv_current : ∀ t, t ∈ c.2 → sourceLocks c.1 !! t_source t = Some (t_lock t);
  inv_entry : ∀ source lk, sourceLocks c.1 !! source = Some lk →
    (lk < nextLock c.1)%nat ∧
    lockRefs c.1 !! lk = Some (Z.of_nat (count (uses lk) c.2)) ∧ (0 < count (uses lk) c.2)%nat;
  inv_inj : ∀ source source' lk,
    sourceLocks c.1 !! source = Some lk → sourceLocks c.1 !! source' = Some lk → source = source';
  inv_excl : ∀ lk, (count (holds lk) c.2 ≤ 1)%nat
}.

(** ** Counting *)

Lemma count_app f T1 T2 : count f (T1 ++ T2) = (count f T1 + count f T2)%nat.
Proof. unfold count. by rewrite List.filter_app, length_app. Qed.

Lemma count_cons f t T : count f (t :: T) = ((if f t then 1 else 0) + count f T)%nat.
Proof. unfold count. simpl. by destruct (f t). Qed.

Lemma count_pos f t T : t ∈ T → f t = true → (0 < count f T)%nat.
Proof.
  induction T as [|t' T IH]; [by intros ?%elem_of_nil|].
  rewrite count_cons. intros [->|Hin]%elem_of_cons Hf; [rewrite Hf; lia|]. specialize (IH Hin Hf). lia.
Qed.

Lemma uses_other lk lk' t : t_lock t = lk' → lk' ≠ lk → uses lk t = false.
Proof. intros <- Hne. unfold uses. by apply Nat.eqb_neq. Qed.

(** Moving one goroutine to another stage changes no count of users. *)
Lemma count_uses_stage lk source lk' st st' T1 T2 :
  count (uses lk) (T1 ++ Thread source lk' st :: T2) = count (uses lk) (T1 ++ Thread source lk' st' :: T2).
Proof. by rewrite !count_app, !count_cons. Qed.

Lemma inv_stage source lk s T1 T2 st st' :
  lock_inv (s, T1 ++ Thread source lk st :: T2) →
  (∀ l, (count (holds l) (T1 ++ Thread source lk st' :: T2) ≤ 1)%nat) →
  lock_inv (s, T1 ++ Thread source lk st' :: T2).
Proof.
  intros [H1 H2 H3 H4] Hex. constructor; simpl in *; [|..|done].
  - intros t Ht. apply elem_of_app in Ht as [Ht|[->|Ht]%elem_of_cons].
    + apply H1, elem_of_app. by left.
    + apply (H1 (Thread source lk st)). apply elem_of_app. right. apply list_elem_of_here.
    + apply H1, elem_of_app. right. by apply list_elem_of_further.
  - intros src l Hl. rewrite (count_uses_stage l source lk st' st). by apply (H2 src).
  - done.
Qed.

Lemma step_acquire_inv source s T :
  lock_inv (s, T) →
  lock_inv ((acquire_in source s).2, Thread source (acquire_in source s).1 Waiting :: T).
Proof.
  intros [H1 H2 H3 H4]. simpl in *. unfold acquire_in.
  destruct (sourceLocks s !! source) as [lk|] eqn:E; constructor; simpl.
  - intros t [->|Ht]%elem_of_cons; simpl; auto.
  - intros src l Hl. destruct (H2 _ _ E) as (Hlt & Hr & Hp). destruct (H2 _ _ Hl) as (Hlt' & Hr' & Hp').
    rewrite count_cons. unfold uses at 1. simpl. destruct (Nat.eqb_spec lk l) as [->|Hne].
    + rewrite lookup_insert_eq, Hr. simpl. split_and!; [done| |lia]. f_equal. lia.
    + rewrite lookup_insert_ne by done. unfold uses at 2. simpl.
      rewrite (proj2 (Nat.eqb_neq _ _) Hne). simpl. split_and!; done.
  - done.
  - intros l. rewrite count_cons. unfold holds at 1. simpl. rewrite andb_false_r. simpl. apply H4.
  - intros t [->|Ht]%elem_of_cons; simpl; [by rewrite lookup_insert_eq|].
    rewrite lookup_insert_ne; [by apply H1|]. intros Heq. specialize (H1 _ Ht). rewrite <- Heq, E in H1. done.
  - assert (∀ t, t ∈ T → t_lock t ≠ nextLock s) as Hfresh.
    { intros t Ht Heq. destruct (H2 _ _ (H1 _ Ht)) as (Hlt & _). lia. }
    assert (count (uses (nextLock s)) T = 0%nat) as Hzero.
    { clear -Hfresh. induction T as [|t T IH]; [done|]. rewrite count_cons.
      rewrite (uses_other (nextLock s) (t_lock t) t) by (done || apply Hfresh, list_elem_of_here).
      apply IH. intros t' Ht'. apply Hfresh. by apply list_elem_of_further. }
    intros src l. rewrite lookup_insert. rewrite count_cons. unfold uses at 1 3. simpl.
    case_decide as Hs.
    + intros [= <-]. rewrite Nat.eqb_refl, Hzero, lookup_insert_eq. split_and!; [lia|done|lia].
    + intros Hl. destruct (H2 _ _ Hl) as (Hlt & Hr & Hp).
      rewrite lookup_insert_ne by lia. rewrite (proj2 (Nat.eqb_neq (nextLock s) l)) by lia. simpl.
      split_and!; [lia|done|done].
  - intros src src' l. rewrite !lookup_insert. repeat case_decide; subst; intros Ha Hb; try done.
    + injection Ha as <-. destruct (H2 _ _ Hb) as (Hlt & _). lia.
    + injection Hb as <-. destruct (H2 _ _ Ha) as (Hlt & _). lia.
    + by eapply H3.
  - intros l. rewrite count_cons. unfold holds at 1. simpl. rewrite andb_false_r. simpl. apply H4.
Qed.

Lemma count_middle f T1 t T2 : count f (T1 ++ t :: T2) = ((if f t then 1 else 0) + count f (T1 ++ T2))%nat.
Proof. rewrite !count_app, count_cons. lia. Qed.

Lemma elem_middle (t u : thread) T1 T2 : t ∈ T1 ++ T2 → t ∈ T1 ++ u :: T2.
Proof. rewrite !elem_of_app, elem_of_cons. tauto. Qed.

Lemma step_release_inv source lk s T1 T2 :
  lock_inv (s, T1 ++ Thread source lk Releasing :: T2) →
  lock_inv ((release_in source lk s).2, T1 ++ T2).
Proof.
  intros [H1 H2 H3 H4]. simpl in *.
  set (t := Thread source lk Releasing) in *.
  assert (sourceLocks s !! source = Some lk) as E by (apply (H1 t), elem_of_app; right; apply list_elem_of_here).
  assert (∀ l, count (uses l) (T1 ++ t :: T2) = ((if Nat.eqb lk l then 1 else 0) + count (uses l) (T1 ++ T2))%nat)
    as Hcount by (intros l; rewrite count_middle; done).
  destruct (H2 _ _ E) as (Hlt & Hr & Hp). rewrite Hcount, Nat.eqb_refl in Hr.
  set (n := count (uses lk) (T1 ++ T2)) in *.
  assert (default 0 (lockRefs s !! lk) - 1 = Z.of_nat n) as En by (rewrite Hr; simpl; lia).
  unfold release_in. cbv zeta. rewrite En. constructor; simpl.
  - intros u Hu. specialize (H1 u (elem_middle _ _ _ _ Hu)). destruct (Z.eqb_spec (Z.of_nat n) 0) as [Hn|]; [|done].
    rewrite lookup_delete_ne; [done|]. intros Hs. rewrite <- Hs, E in H1. injection H1 as H1.
    assert (0 < n)%nat; [|lia]. eapply count_pos; [exact Hu|]. unfold uses. by rewrite <- H1, Nat.eqb_refl.
  - intros src l Hl. assert (sourceLocks s !! src = Some l ∧ (l = lk → n ≠ 0%nat)) as [Hl' Hnz].
    { destruct (Z.eqb_spec (Z.of_nat n) 0) as [Hn|Hn]; [|split; [done|lia]].
      rewrite lookup_delete in Hl. case_decide as Hs; [done|]. split; [done|].
      intros ->. destruct (Hs (H3 _ _ _ E Hl)). }
    destruct (H2 _ _ Hl') as (Hlt' & Hr' & Hp'). rewrite Hcount in Hr', Hp'.
    destruct (Nat.eqb_spec lk l) as [<-|Hne].
    + rewrite lookup_insert_eq. fold n. specialize (Hnz eq_refl). split_and!; [done|done|lia].
    + rewrite lookup_insert_ne by done. split_and!; [done|exact Hr'|lia].
  - intros src src' l. destruct (Z.of_nat n =? 0); [|by apply H3].
    rewrite !lookup_delete. repeat case_decide; try done. by apply H3.
  - intros l. specialize (H4 l). rewrite count_middle in H4. lia.
Qed.

Lemma lock_step_inv c c' : lock_inv c → lock_step c c' → lock_inv c'.
Proof.
  intros Hi Hs. destruct Hs as [source s T|source lk s T1 T2 H0|source lk s T1 T2|source lk s T1 T2|s s' T E1 E2 E3].
  - by apply step_acquire_inv.
  - eapply inv_stage; [done|]. intros l. rewrite count_middle. unfold holds at 1. simpl.
    pose proof (inv_excl _ Hi l) as Hl. simpl in Hl. rewrite count_middle in Hl. unfold holds at 1 in Hl. simpl in Hl.
    rewrite andb_false_r in Hl. simpl in Hl. rewrite andb_true_r.
    destruct (Nat.eqb_spec lk l) as [<-|]; simpl; lia.
  - eapply inv_stage; [done|]. intros l. pose proof (inv_excl _ Hi l) as Hl. simpl in Hl.
    rewrite count_middle in *. unfold holds at 1. simpl. rewrite andb_false_r. simpl. lia.
  - by eapply step_release_inv.
  - destruct Hi as [H1 H2 H3 H4]. constructor; simpl in *; rewrite ?E1, ?E2, ?E3; done.
Qed.

Lemma lock_inv_init s : sourceLocks s = ∅ → lock_inv (s, []).
Proof.
  intros E. constructor; simpl; rewrite ?E.
  - intros t Ht. by apply elem_of_nil in Ht.
  - intros source lk. by rewrite lookup_empty.
  - intros source source' lk. by rewrite lookup_empty.
  - intros lk. unfold count. simpl. lia.
Qed.

Lemma lock_inv_reachable s c :
  sourceLocks s = ∅ → rtc lock_step (s, []) c → lock_inv c.
Proof.
  intros Hs Hr. pose proof (lock_inv_init s Hs) as Hi. revert Hi.
  induction Hr as [c|c1 c2 c3 Hs' _ IH]; [done|]. intros Hi. apply IH. by eapply lock_step_inv.
Qed.

(** ** Properties *)

(** C20. Mutual exclusion: however many goroutines acquire, lock, unlock and
    release, in whatever order, two of them never hold the lock of the same source
    at the same time, although mutexes are created and dropped on the way. *)
Theorem source_lock_exclusive s c T1 T2 T3 t t' :
  sourceLocks s = ∅ → rtc lock_step (s, []) c →
  c.2 = T1 ++ t :: T2 ++ t' :: T3 →
  t_stage t = Holding → t_stage t' = Holding → t_source t ≠ t_source t'.
Proof.
  intros Hs Hr E Ht Ht' Heq. destruct (lock_inv_reachable s c Hs Hr) as [H1 _ _ H4]. rewrite E in *.
  assert (t_lock t = t_lock t') as El.
  { assert (Some (t_lock t) = Some (t_lock t')) as [= ?]; [|done].
    rewrite <- (H1 t), <- (H1 t'), Heq; [done| |]; rewrite !elem_of_app, !elem_of_cons, ?elem_of_app, ?elem_of_cons; auto. }
  specialize (H4 (t_lock t)). rewrite count_middle, app_assoc, count_middle in H4.
  unfold holds in H4 at 1 2. rewrite <- El, Ht, Ht', Nat.eqb_refl in H4. simpl in H4. lia.
Qed.

(** No leak and no early drop: the map has an entry for a source exactly while
    some goroutine is between acquire and release on it, and that goroutine's
    mutex is the one in the map. When all are done, the map is empty. *)
Theorem source_locks_no_leak s c :
  sourceLocks s = ∅ → rtc lock_step (s, []) c →
  ∀ source lk, sourceLocks c.1 !! source = Some lk ↔ ∃ t, t ∈ c.2 ∧ t_source t = source ∧ t_lock t = lk.
Proof.
  intros Hs Hr source lk. destruct (lock_inv_reachable s c Hs Hr) as [H1 H2 H3 _]. split.
  - intros Hl. destruct (H2 _ _ Hl) as (_ & _ & Hp).
    unfold count in Hp. destruct (List.filter (uses lk) c.2) as [|t l] eqn:E; [simpl in Hp; lia|].
    assert (In t (List.filter (uses lk) c.2)) as Hin by (rewrite E; by left).
    apply filter_In in Hin as [Hin Hu]. apply Nat.eqb_eq in Hu. apply list_elem_of_In in Hin.
    exists t. split_and!; [done| |done]. eapply H3; [|exact Hl]. rewrite <- Hu. by apply H1.
  - intros (t & Ht & <- & <-). by apply H1.
Qed.

(** ** A concrete interleaving *)

(** Two goroutines on one source: the second acquires while the first holds. *)
Definition contended : mem * list thread :=
  let s1 := (acquire_in "/src" empty_mem).2 in
  ((acquire_in "/src" s1).2, [Thread "/src" 0 Waiting; Thread "/src" 0 Holding]).

Lemma contended_reachable : rtc lock_step (empty_mem, []) contended.
Proof.
  eapply rtc_l; [apply (step_acquire "/src")|].
  eapply rtc_l; [apply (step_lock "/src" 0 _ [] []); reflexivity|].
  eapply rtc_l; [apply (step_acquire "/src")|]. apply rtc_refl.
Qed.

(** The second goroutine cannot come to hold the lock as well. *)
Example source_lock_exclusive_witness :
  ¬ rtc lock_step (empty_mem, []) (contended.1, [Thread "/src" 0 Holding; Thread "/src" 0 Holding]).
Proof.
  intros Hr.
  exact (source_lock_exclusive empty_mem _ [] [] [] (Thread "/src" 0 Holding) (Thread "/src" 0 Holding)
    eq_refl Hr eq_refl eq_refl eq_refl eq_refl).
Defined.

Example source_locks_no_leak_witness :
  sourceLocks contended.1 !! "/src"%string = Some 0%nat ∧
  ¬ (∃ lk, sourceLocks contended.1 !! "/other"%string = Some lk).
Proof.
  pose proof (source_locks_no_leak empty_mem contended eq_refl contended_reachable) as Hl. split.
  - apply Hl. exists (Thread "/src" 0 Waiting). split; [apply list_elem_of_here|split; reflexivity].
  - intros [lk Hlk]. apply Hl in Hlk as (t & Ht & Hs & _).
    apply elem_of_cons in Ht as [->|Ht]; [discriminate|].
    apply elem_of_cons in Ht as [->|Ht]; [discriminate|]. by apply elem_of_nil in Ht.
Defined.
