(* ===== verification/PodMounterSpec.v ===== *)
(** * Mount and Unmount: what they do to pods, objects and targets

    Theorems about every run of the operations of PodMounter.v: any answers of
    the kernel and the API server, any interference of other goroutines.  They
    speak about the trace, the calls the run made with their answers, oldest
    first. *)
From S2P Require Import Prelude GoStrings Sha256 GoTime GoErrors Unstructured Resources.
From S2P Require Import Names MountArgs Kube Effects MountInfo HFMount PodMounter.

Local Open Scope Z_scope.

Section Defs.
Context `{QuantityLib}.

(** ** Errors in answers *)

(** The errors an answer carries. *)
Definition answer_errors (c : call) : ans c → list gerror :=
  match c return ans c → list gerror with
  | Unmount _ _ | Mount _ _ _ _ _ _ | WriteFile _ _ _ | Remove _ | MkdirAll _ _ | PodCreate _
  | PodDelete _ _ | CrdCreate _ | CrdUpdate _ _ | CrdUpdateStatus _ _ | CrdDelete _ => λ e, option_list e
  | PodGet _ _ => λ r, option_list (err_of r)
  | CrdGet _ => λ r, option_list (err_of r)
  | IsMountPoint _ => λ r, option_list r.2
  | _ => λ _, []
  end.

(** [errWaitTimeout] is a private sentinel of podmounter.go: no callee's error is
    or wraps it. *)
Definition honest {W} : rely W := λ c _ _ a _ _,
  Forall (λ e, IsWaitTimeout e = false) (answer_errors c a).

(** ** Reading a trace *)

Definition calm (c : call) : bool :=
  match c with PodCreate _ | PodDelete _ _ | CrdDelete _ => false | _ => true end.

(** Calm, and no creation of an object either. *)
Definition plain (c : call) : bool :=
  match c with CrdCreate _ => false | c => calm c end.

Lemma plain_calm c : plain c = true → calm c = true.
Proof. by destruct c. Qed.

Definition is_create_ok (ev : event) : bool :=
  match ev with Ev c a =>
    match c return ans c → bool with
    | PodCreate _ => λ a, match a with None => true | Some _ => false end
    | _ => λ _, false
    end a
  end.

(** The answers to the creations of pods. *)
Definition create_answer (ev : event) : option (option gerror) :=
  match ev with Ev c a =>
    match c return ans c → option (option gerror) with
    | PodCreate _ => λ a, Some a
    | _ => λ _, None
    end a
  end.

Definition is_crd_delete (ev : event) : bool :=
  match ev_call ev with CrdDelete _ => true | _ => false end.

(** Every pod deleted was then replaced: the last deletion is followed by a
    successful creation. *)
Fixpoint pod_kept (tr : list event) : bool :=
  match tr with
  | [] => true
  | ev :: tr' =>
      match ev_call ev with PodDelete _ _ => existsb is_create_ok tr' | _ => true end && pod_kept tr'
  end.

Definition crd_kept (tr : list event) : bool := forallb (λ ev, negb (is_crd_delete ev)) tr.
Definition creates (tr : list event) : list (option gerror) := omap create_answer tr.

Definition is_pod_delete (ev : event) : bool :=
  match ev_call ev with PodDelete _ _ => true | _ => false end.
Definition no_pod_delete (tr : list event) : bool := forallb (λ ev, negb (is_pod_delete ev)) tr.

(** The source was seen mounted, and later bound to the target. *)
Definition seen_and_bound (source_ target : string) (tr : list event) : Prop :=
  ∃ tr1 tr2 tr3,
    tr = tr1 ++ Ev (IsMountPoint source_) (true, None) :: tr2
           ++ Ev (Mount source_ target "" true false "") None :: tr3.

(** No pod is deleted, or one: the pod of the same name that was in place, already
    terminal and not being deleted yet. *)
Definition stale_only (ns podName : string) (tr : list event) : Prop :=
  no_pod_delete tr = true ∨
  ∃ tr1 pod e old a tr2,
    tr = tr1 ++ Ev (PodCreate pod) (Some e) :: Ev (PodGet ns podName) (Ok old)
             :: Ev (PodDelete ns podName) a :: tr2 ∧
    IsAlreadyExists (Some e) = true ∧ isPodTerminal old = true ∧ PDeleting old = false ∧
    no_pod_delete tr1 = true ∧ no_pod_delete tr2 = true.

(** The attempt created the pod, first or after a stale one had gone; and it did not
    find a pod in place, or replaced it: then the object is its own. *)
Definition made_pod (l : list (option gerror)) : bool :=
  match l with [None] | [_; None] => true | _ => false end.
Definition owns_object (l : list (option gerror)) : bool :=
  match l with [Some e] => negb (IsAlreadyExists (Some e)) | _ => made_pod l end.

(** The errors [Mount] returns when one of its two waits fails. *)
Definition is_wait_error (e : gerror) : bool :=
  match e with
  | Errorf f _ _ => String.eqb f "mount pod %s did not become running: %w" ||
                    String.eqb f "FUSE mount did not appear at %s: %w"
  | _ => false
  end.

(** The error of a bind that failed. *)
Definition is_bind_error (e : gerror) : bool :=
  match e with Errorf f _ _ => String.eqb f "bind mount %s -> %s failed: %w" | _ => false end.

(** What a failed attempt must give up, from its error and the answers to its
    creations of the pod. *)
Definition drops_pod (l : list (option gerror)) (e : gerror) : bool :=
  negb (IsWaitTimeout e) && (is_wait_error e || is_bind_error e && made_pod l).
Definition drops_object (l : list (option gerror)) (e : gerror) : bool :=
  negb (IsWaitTimeout e) && owns_object l.

Definition clean_up (ns podName crdName : string) (l : list (option gerror)) (err : option gerror)
  : list call :=
  match err with
  | None => []
  | Some e => (if drops_pod l e then [PodDelete ns podName] else []) ++
              (if drops_object l e then [CrdDelete crdName] else [])
  end.

(** ** Facts about traces *)

Lemma pod_kept_app tr1 tr2 : pod_kept tr1 = true → pod_kept tr2 = true → pod_kept (tr1 ++ tr2) = true.
Proof.
  intros H1 H2. induction tr1 as [|ev tr1 IH]; [done|]. simpl in *.
  apply andb_true_iff in H1 as [He Ht]. apply andb_true_iff. split; [|auto].
  destruct (ev_call ev); try done. by rewrite existsb_app, He.
Qed.

Lemma crd_kept_app tr1 tr2 : crd_kept (tr1 ++ tr2) = crd_kept tr1 && crd_kept tr2.
Proof. apply forallb_app. Qed.

Lemma no_pod_delete_app tr1 tr2 : no_pod_delete (tr1 ++ tr2) = no_pod_delete tr1 && no_pod_delete tr2.
Proof. apply forallb_app. Qed.

(** A stretch of trace without pod creation, pod deletion or object deletion
    changes none of the readings. *)
Definition calm_tr (tr : list event) : bool := forallb (λ ev, calm (ev_call ev)) tr.

Lemma calm_tr_calls tr : Forall (λ c, calm c = true) (calls tr) → calm_tr tr = true.
Proof.
  unfold calls, calm_tr. induction tr as [|ev tr IH]; simpl; [done|].
  intros [-> Ht]%Forall_cons. by apply IH.
Qed.

Lemma calm_tr_app tr1 tr2 : calm_tr (tr1 ++ tr2) = calm_tr tr1 && calm_tr tr2.
Proof. apply forallb_app. Qed.

Lemma calm_tr_facts tr :
  calm_tr tr = true →
  pod_kept tr = true ∧ crd_kept tr = true ∧ creates tr = [] ∧ existsb is_create_ok tr = false ∧
  no_pod_delete tr = true.
Proof.
  unfold calm_tr, crd_kept, creates, no_pod_delete. induction tr as [|[c a] tr IH]; simpl; [done|].
  intros [Hc Ht]%andb_true_iff. destruct (IH Ht) as (IH1 & IH2 & IH3 & IH4 & IH5).
  destruct c; simpl in *; by rewrite ?IH1, ?IH2, ?IH3, ?IH4, ?IH5.
Qed.

Lemma stale_only_around ns podName a tr b :
  calm_tr a = true → calm_tr b = true → stale_only ns podName tr → stale_only ns podName (a ++ tr ++ b).
Proof.
  intros (_ & _ & _ & _ & Na)%calm_tr_facts (_ & _ & _ & _ & Nb)%calm_tr_facts.
  intros [Hn|(tr1 & pod & e & old & x & tr2 & -> & He & Ht & Hd & N1 & N2)].
  - left. by rewrite !no_pod_delete_app, Na, Hn, Nb.
  - right. exists (a ++ tr1), pod, e, old, x, (tr2 ++ b). rewrite !no_pod_delete_app, Na, Nb, N1, N2.
    split_and!; try done. by repeat (rewrite <- app_assoc; simpl).
Qed.

Lemma after_calm ns podName tr1 tr2 :
  calm_tr tr2 = true →
  crd_kept (tr1 ++ tr2) = crd_kept tr1 ∧ creates (tr1 ++ tr2) = creates tr1 ∧
  (pod_kept tr1 = true → pod_kept (tr1 ++ tr2) = true) ∧
  (stale_only ns podName tr1 → stale_only ns podName (tr1 ++ tr2)).
Proof.
  intros Hcalm. destruct (calm_tr_facts _ Hcalm) as (Hk & Hc & Ho & _).
  unfold creates in *. rewrite crd_kept_app, omap_app, Hc, Ho, andb_true_r, app_nil_r.
  split_and!; [done|done|intros; by apply pod_kept_app|]. by apply (stale_only_around ns podName []).
Qed.
End Defs.

Ltac calm_tac := simpl; reflexivity.

(** ** Calm components *)

Section Calm.
Context `{QuantityLib} `{TimeLib} `{MountLib}.
#[local] Abbreviation quietly := (emits (λ c, plain c = true)).

Lemma retry_loop_calm {A} n name (count : A) mutate :
  (∀ spec, quietly (mutate spec)) → quietly (retry_loop n name count mutate).
Proof.
  intros Hm. revert count. induction n as [|n IH]; intros count; simpl; [done|].
  split; [done|]. intros [o|e]; simpl; [|done]. apply emits_bind; [apply Hm|].
  intros [c [[spec'|]|e]]; simpl; try done. split; [done|]. intros [e|]; simpl; [|done].
  by destruct (has_reason Conflict e).
Qed.

Lemma addWorkload_calm name uid target : quietly (addWorkload name uid target).
Proof.
  unfold addWorkload. apply emits_bind; [|done]. apply retry_loop_calm. intros spec.
  unfold add_mutation. destruct (existsb _ _); [done|]. split; [done|]. intros now.
  by destruct spec.
Qed.

Lemma updateStatus_calm name phase msg : quietly (updateStatus name phase msg).
Proof. unfold updateStatus. go_emits calm_tac. Qed.

Lemma wait_running_calm m fuel name d : quietly (waitForPodRunning m fuel name d).
Proof.
  unfold waitForPodRunning. go_emits calm_tac. generalize (@None gerror).
  induction fuel as [|fuel IH]; intros e; [done|]. simpl. go_emits calm_tac; apply IH.
Qed.

Lemma wait_mount_calm m fuel path name d : quietly (waitForMount m fuel path name d).
Proof.
  unfold waitForMount. go_emits calm_tac. generalize (@None gerror).
  induction fuel as [|fuel IH]; intros e; [done|]. simpl. go_emits calm_tac; apply IH.
Qed.

Lemma wait_deletion_calm m fuel name : quietly (waitForPodDeletion m fuel name).
Proof.
  unfold waitForPodDeletion. go_emits calm_tac. generalize (@None gerror).
  induction fuel as [|fuel IH]; intros e; [done|]. simpl. go_emits calm_tac; apply IH.
Qed.

Lemma unmountAll_calm path : quietly (unmountAll path).
Proof.
  unfold unmountAll. generalize 32%nat. induction n as [|n IH]; [done|]. simpl.
  go_emits calm_tac. apply IH.
Qed.

Lemma with_source_lock_emits {A} (P : call → Prop) source_ (body : prog A) :
  P MuLock → (∀ l, P (SrcLock l)) → (∀ l, P (SrcUnlock l)) → emits P body →
  emits P (with_source_lock source_ body).
Proof.
  intros H3 H4 H5 Hb. unfold with_source_lock, acquireSourceLock, releaseSourceLock.
  apply emits_bind; [by apply emits_locked|]. intros lk. apply emits_bind; [by apply emits_call|]. intros _.
  apply emits_bind; [done|]. intros r. apply emits_bind; [by apply emits_call|]. intros _.
  apply emits_bind; [by apply emits_locked|done].
Qed.

Lemma stackBind_calm a b : quietly (stackBind a b).
Proof.
  unfold stackBind, bindMount. go_emits calm_tac; try apply unmountAll_calm.
Qed.
End Calm.

(** ** The attempt *)

Section Attempt.
Context `{QuantityLib} `{TimeLib} `{MountLib} {W : Type}.
Variable m : PMConfig.
Implicit Types (s : mem) (w : W).

Lemma wp_calm {A} (R : rely W) (p : prog A) s w :
  emits (λ c, plain c = true) p → wp R p s w (λ _ _ _ tr, calm_tr tr = true).
Proof.
  intros He%(emits_mono _ (λ c, calm c = true)); [|by apply plain_calm].
  eapply wp_mono; [|apply (wp_emits R _ p s w _ He (wp_true R p s w))].
  intros r s' w' tr [_ Hc]. by apply calm_tr_calls.
Qed.

Lemma wait_deletion_error fuel name s w :
  wp (@honest _ W) (waitForPodDeletion m fuel name) s w (λ r _ _ _,
    match r with Done (Some e) => IsWaitTimeout e = false ∧ is_wait_error e = false | _ => True end).
Proof.
  unfold waitForPodDeletion. simpl. intros _ s1 w1 _ _ s2 w2 _.
  assert (match @None gerror with Some e => IsWaitTimeout e = false | None => True end) as Hl by done.
  revert Hl. generalize (@None gerror). revert s2 w2.
  induction fuel as [|fuel IH]; intros s2 w2 lastErr Hl; simpl; [done|].
  intros c s3 w3 _. destruct c; simpl; [|done|].
  - destruct lastErr as [e|]; simpl; [|done]. unfold IsWaitTimeout in *. simpl. by rewrite Hl.
  - intros [pod|e] s4 w4 He; simpl.
    + by apply IH.
    + destruct (has_reason NotFound e); simpl; [done|]. apply IH.
      by inversion He.
Qed.

Lemma timeout_wrap f args e : IsWaitTimeout (Errorf f args [e]) = IsWaitTimeout e.
Proof. unfold IsWaitTimeout. simpl. by rewrite orb_false_r. Qed.

(** A successful wait for the mount saw it. *)
Lemma wait_mount_seen (R : rely W) fuel path name d s w :
  wp R (waitForMount m fuel path name d) s w (λ r _ _ tr,
    r = Done None → ∃ tr1 tr2, tr = tr1 ++ Ev (IsMountPoint path) (true, None) :: tr2).
Proof.
  unfold waitForMount. intros now s1 w1 _ a s2 w2 _ b s3 w3 _.
  enough (∀ e s w, wp R (wait_mount_loop m fuel path name e) s w (λ r _ _ tr,
    r = Done None → ∃ tr1 tr2, tr = tr1 ++ Ev (IsMountPoint path) (true, None) :: tr2)) as Hl.
  { eapply wp_mono; [|apply Hl]. intros r ? ? tr Hr Hd. destruct (Hr Hd) as (tr1 & tr2 & ->).
    eexists (_ :: _ :: _ :: tr1), tr2. reflexivity. }
  clear. induction fuel as [|fuel IH]; intros e s3 w3; simpl; [done|].
  intros [mounted [err|]] s4 w4 _; [|destruct mounted; simpl; [intros _; by eexists [], []|]]; simpl;
    intros pod s5 w5 _; (destruct (mount_pod_failed name pod); simpl; [done|]);
    intros c s6 w6 _; (destruct c; simpl; [done| |]);
    (eapply wp_mono; [|apply IH]); intros r ? ? tr Hr Hd; destruct (Hr Hd) as (tr1 & tr2 & ->);
    eexists (_ :: _ :: _ :: tr1), tr2; reflexivity.
Qed.

#[local] Opaque unmountAll.

Lemma stackBind_bound source_ target s w :
  wp (@honest _ W) (stackBind source_ target) s w (λ r _ _ tr,
    match r with
    | Done None => ∃ tr1 tr2, tr = tr1 ++ Ev (Mount source_ target "" true false "") None :: tr2
    | Done (Some e) => IsWaitTimeout e = false
    | _ => True
    end).
Proof.
  unfold stackBind. intros a s1 w1 _ b s2 w2 _. destruct b as [e|]; simpl; [|by eexists [_], []].
  apply wp_bind. eapply wp_mono; [|apply wp_true]. intros r s3 w3 tr _. unfold bind_post.
  destruct r; simpl; try done. intros c s4 w4 Hc.
  assert (Hbind : ∀ c, wp (@honest _ W) (bindMount source_ target) s4 w4 (λ r _ _ tr',
    match r with
    | Done None => ∃ tr1 tr2, Ev (MkdirAll target 488) a :: Ev (Mount source_ target "" true false "") (Some e)
        :: tr ++ Ev (MkdirAll target 488) c :: tr' = tr1 ++ Ev (Mount source_ target "" true false "") None :: tr2
    | Done (Some e) => IsWaitTimeout e = false
    | _ => True end)).
  { intros c' d s5 w5 Hd. destruct d as [e'|]; simpl; [by inversion Hd|].
    eexists (_ :: _ :: tr ++ [_]), []. simpl. by rewrite <- app_assoc. }
  destruct c as [e'|]; simpl; [|apply Hbind]. destruct (IsExist e'); simpl; [apply Hbind|].
  rewrite timeout_wrap. by inversion Hc.
Qed.

(** Programs stay folded: proofs go through their lemmas. *)
#[local] Opaque waitForPodRunning waitForMount waitForPodDeletion stackBind
  addWorkload updateStatus crd_delete.

(** What [ensure_pod] leaves behind. *)
Definition ensured (podName : string) (r : res (bool + gerror * bool)) (tr : list event) : Prop :=
  crd_kept tr = true ∧ stale_only (namespace m) podName tr ∧
  match r with
  | Done (inl created) => pod_kept tr = true ∧ made_pod (creates tr) = created ∧
                          owns_object (creates tr) = created
  | Done (inr (e, cleanupCRD)) =>
      owns_object (creates tr) = cleanupCRD ∧ IsWaitTimeout e = false ∧ is_wait_error e = false ∧
      is_bind_error e = false
  | _ => True
  end.

Lemma pod_kept_create tr pod : pod_kept tr = true → pod_kept (tr ++ [Ev (PodCreate pod) None]) = true.
Proof. intros Hk. by apply pod_kept_app. Qed.

(** The replacement of a stale pod, after its deletion. *)
Lemma ensure_pod_replace fuel podName pod s w :
  wp (@honest _ W) (
    waitErr ← waitForPodDeletion m fuel podName;
    match waitErr with
    | Some e =>
        mret (inr (Errorf "timed out waiting for stale pod %s to be deleted: %w" [podName] [e], false))
    | None =>
        retryErr ← call_ (PodCreate pod);
        match retryErr with
        | Some e => mret (inr (Errorf "failed to re-create mount pod %s: %w" [podName] [e], false))
        | None => mret (inl true)
        end
    end) s w (λ r _ _ tr, crd_kept tr = true ∧ no_pod_delete tr = true ∧ pod_kept tr = true ∧
      match r with
      | Done (inl c) => c = true ∧ creates tr = [None] ∧ existsb is_create_ok tr = true
      | Done (inr (e, c)) => c = false ∧ IsWaitTimeout e = false ∧ is_wait_error e = false ∧
          is_bind_error e = false ∧ (creates tr = [] ∨ ∃ e', creates tr = [Some e'])
      | _ => True
      end).
Proof.
  apply wp_bind. eapply wp_mono.
  2: { apply wp_and; [apply (wait_deletion_error fuel podName)|apply wp_calm, wait_deletion_calm]. }
  intros r s1 w1 tr [He (Hk & Hc & Ho & Hx & Hn)%calm_tr_facts]. unfold bind_post, creates in *.
  destruct r as [[e|]| |]; simpl; rewrite ?app_nil_r; try done.
  - rewrite timeout_wrap. destruct He. split_and!; try done. by left.
  - intros a s2 w2 Ha.
    destruct a as [e|]; simpl in *; rewrite crd_kept_app, no_pod_delete_app, Hc, Hn, omap_app, Ho.
    + apply Forall_cons in Ha as [Ha _]. rewrite timeout_wrap. split_and!; try done; [by apply pod_kept_app|].
      right. by exists e.
    + rewrite existsb_app. split_and!; try done; [by apply pod_kept_create|by rewrite orb_true_r].
Qed.

Lemma ensure_pod_spec fuel podName pod s w :
  wp honest (ensure_pod m fuel podName pod) s w (λ r _ _ tr, ensured podName r tr).
Proof.
  unfold ensure_pod. intros a s1 w1 Ha. destruct a as [e|]; simpl.
  2: { split_and!; [done|by left|done..]. }
  apply Forall_cons in Ha as [Ha _].
  destruct (has_reason AlreadyExists e) eqn:Eae; simpl.
  2: { unfold ensured. simpl. rewrite Eae, timeout_wrap. split_and!; try done. by left. }
  intros pod' s2 w2 Hg. destruct pod' as [old|e']; simpl.
  2: { apply Forall_cons in Hg as [Hg _]. unfold ensured. simpl. rewrite Eae, timeout_wrap.
       split_and!; try done. by left. }
  destruct (PDeleting old || isPodTerminal old) eqn:Estale; simpl.
  2: { unfold ensured. simpl. rewrite Eae. split_and!; try done. by left. }
  assert (Hfin : ∀ dels r tr, crd_kept dels = true → creates dels = [] →
    stale_only (namespace m) podName
      (Ev (PodCreate pod) (Some e) :: Ev (PodGet (namespace m) podName) (Ok old) :: dels ++ tr) →
    (existsb is_create_ok tr = true → pod_kept tr = true → pod_kept (dels ++ tr) = true) →
    crd_kept tr = true → pod_kept tr = true →
    match r with
      | Done (inl c) => c = true ∧ creates tr = [None] ∧ existsb is_create_ok tr = true
      | Done (inr (e, c)) => c = false ∧ IsWaitTimeout e = false ∧ is_wait_error e = false ∧
          is_bind_error e = false ∧ (creates tr = [] ∨ ∃ e', creates tr = [Some e'])
      | _ => True
      end →
    ensured podName r (Ev (PodCreate pod) (Some e) :: Ev (PodGet (namespace m) podName) (Ok old)
      :: dels ++ tr)).
  { intros dels r tr Cd Dd Hst Hpk Hc Hk Hr. unfold ensured.
    assert (creates (Ev (PodCreate pod) (Some e) :: Ev (PodGet (namespace m) podName) (Ok old) :: dels ++ tr)
      = Some e :: creates tr) as ->.
    { change (Some e :: creates (dels ++ tr) = Some e :: creates tr). f_equal. unfold creates in *.
      by rewrite omap_app, Dd. }
    split_and!; [simpl; by rewrite crd_kept_app, Cd, Hc|done|].
    destruct r as [[c|[e2 c]]| |]; try done.
    - destruct Hr as (-> & -> & Hx). split_and!; [|done..]. simpl. by apply Hpk.
    - destruct Hr as (-> & ? & ? & ? & [->|[e3 ->]]); split_and!; try done. simpl. by rewrite Eae. }
  destruct (PDeleting old) eqn:Ed; simpl; [|intros a s3 w3 _];
    (eapply wp_mono; [|apply (ensure_pod_replace fuel podName pod)]);
    intros r ? ? tr (Hc & Hn & Hk & Hr).
  - apply (Hfin [] r tr); try done. by left.
  - apply (Hfin [Ev (PodDelete (namespace m) podName) a] r tr); try done.
    + right. exists [], pod, e, old, a, tr. by split_and!.
    + intros Hx _. simpl. by rewrite Hx.
Qed.

(** What an attempt leaves behind, and the clean-up it asks for. *)
Definition attempted (podName mountPath target : string)
    (r : res (option gerror * (bool * bool))) (tr : list event) : Prop :=
  crd_kept tr = true ∧ stale_only (namespace m) podName tr ∧
  match r with
  | Done (None, flags) =>
      flags = (false, false) ∧ pod_kept tr = true ∧ seen_and_bound mountPath target tr
  | Done (Some e, flags) =>
      flags = (drops_pod (creates tr) e, drops_object (creates tr) e) ∧
      (IsWaitTimeout e = true → pod_kept tr = true)
  | _ => True
  end.

(** An attempt that ends with an error of the phase after [ensure_pod]. *)
Lemma attempted_error podName mountPath target created tr1 tr2 e f args e0 :
  ensured podName (Done (inl created)) tr1 → calm_tr tr2 = true →
  e = Errorf f args [e0] → is_wait_error e = true →
  attempted podName mountPath target (Done (Some e, wait_cleanup e0 created)) (tr1 ++ tr2).
Proof.
  intros (Hc & Hs & Hk & Hm & Ho) Hcalm -> Hw.
  destruct (after_calm (namespace m) podName tr1 tr2 Hcalm) as (H3 & H4 & H5 & H6).
  unfold attempted, drops_pod, drops_object, wait_cleanup. rewrite H3, H4, timeout_wrap, Hw, Ho.
  split_and!; [done|by apply H6| |by auto]. by destruct (IsWaitTimeout e0).
Qed.

Lemma attempted_open podName mountPath target r tr1 tr2 :
  crd_kept tr1 = true ∧ stale_only (namespace m) podName tr1 → calm_tr tr2 = true →
  match r with Done _ => False | _ => True end →
  attempted podName mountPath target r (tr1 ++ tr2).
Proof.
  intros [Hc Hs] Hcalm Hr. destruct (after_calm (namespace m) podName tr1 tr2 Hcalm) as (H3 & _ & _ & H6).
  split_and!; [by rewrite H3|by apply H6|]. by destruct r.
Qed.

Lemma mount_attempt_spec fuel podName crdName mountPath target pod s w :
  wp (@honest _ W) (mount_attempt m fuel podName crdName mountPath target pod) s w
    (λ r _ _ tr, attempted podName mountPath target r tr).
Proof.
  unfold mount_attempt. apply wp_bind. eapply wp_mono; [|apply ensure_pod_spec].
  intros r s1 w1 tr1 Hens. pose proof Hens as (Hc1 & Hs1 & Hr). unfold bind_post.
  destruct r as [[created|[e cleanupCRD]]| |]; [|simpl|by split_and!..].
  2: { destruct Hr as (Ho & Ht & Hw & Hb). unfold attempted, drops_pod, drops_object.
       rewrite app_nil_r, Ht, Hw, Hb, Ho. by split_and!. }
  intros now s2 w2 _.
  apply (wp_bind honest (waitForPodRunning m fuel podName (now + mountReadyTimeout m))).
  eapply wp_mono; [|apply wp_calm, wait_running_calm].
  intros r s3 w3 tr2 Hcalm2. unfold bind_post. destruct r as [[e|]| |].
  - eapply attempted_error; [exact Hens|simpl; by rewrite app_nil_r|reflexivity|done].
  - apply (wp_bind honest (waitForMount m fuel mountPath podName (now + mountReadyTimeout m))).
    eapply wp_mono; [|apply wp_and; [apply (wp_calm honest), wait_mount_calm|apply wait_mount_seen]].
    intros r s4 w4 tr3 [Hcalm3 Hseen]. unfold bind_post. destruct r as [[e|]| |].
    + eapply attempted_error; [exact Hens| |reflexivity|done].
      rewrite app_nil_r. simpl. by rewrite calm_tr_app, Hcalm2, Hcalm3.
    + apply (wp_bind honest (stackBind mountPath target)).
      eapply wp_mono; [|apply wp_and; [apply (wp_calm honest), stackBind_calm|apply stackBind_bound]].
      intros r s5 w5 tr4 [Hcalm4 Hb]. unfold bind_post.
      assert (∀ tr5, calm_tr tr5 = true →
        calm_tr (Ev Now now :: tr2 ++ tr3 ++ tr4 ++ tr5) = true) as Hcalm
        by (intros tr5 H5; simpl; by rewrite !calm_tr_app, Hcalm2, Hcalm3, Hcalm4, H5).
      destruct r as [[e|]| |]; simpl.
      * destruct (after_calm (namespace m) podName tr1 _ (Hcalm [] eq_refl)) as (H3 & H4 & H5 & H6).
        destruct Hr as (Hk & Hm & Ho). unfold attempted, drops_pod, drops_object.
        rewrite H3, H4, timeout_wrap, Hb, Hm, Ho. split_and!; [done|by apply H6|done|done].
      * intros [] s6 w6 _. apply (wp_bind honest (updateStatus crdName "Mounted" "")).
        eapply wp_mono; [|apply (wp_calm honest), updateStatus_calm].
        intros r s7 w7 tr5 Hcalm5. unfold bind_post.
        assert (Hopen : ∀ r', match r' with Done _ => False | _ => True end →
          attempted podName mountPath target r'
            (tr1 ++ Ev Now now :: tr2 ++ tr3 ++ tr4 ++ Ev MuLock tt :: tr5))
          by (intros r' Hr'; by apply attempted_open; [|apply Hcalm|]).
        destruct r as [e| |]; simpl; [|by apply Hopen..].
        destruct (after_calm (namespace m) podName tr1 (Ev Now now :: tr2 ++ tr3 ++ tr4 ++ Ev MuLock tt :: tr5 ++ []))
          as (H3 & _ & H5 & H6); [apply Hcalm; simpl; by rewrite app_nil_r|].
        split_and!; [by rewrite H3|by apply H6|done|by apply H5, Hr|].
        destruct (Hseen eq_refl) as (a1 & a2 & ->). destruct Hb as (b1 & b2 & ->).
        exists (tr1 ++ Ev Now now :: tr2 ++ a1), (a2 ++ b1), (b2 ++ Ev MuLock tt :: tr5 ++ []).
        by repeat (rewrite <- app_assoc; simpl).
      * pose proof (Hcalm [] eq_refl) as Hx. rewrite app_nil_r in Hx. by apply attempted_open.
      * pose proof (Hcalm [] eq_refl) as Hx. rewrite app_nil_r in Hx. by apply attempted_open.
    + apply attempted_open; [done| |done]. simpl. by rewrite calm_tr_app, Hcalm2, Hcalm3.
    + apply attempted_open; [done| |done]. simpl. by rewrite calm_tr_app, Hcalm2, Hcalm3.
  - by apply attempted_open.
  - by apply attempted_open.
Qed.

(** ** Mount *)

(** The promises of a whole [Mount]: it is an attempt, then the clean-up its error
    calls for, and no more.  The attempt deletes no object, and no pod but a stale
    one it found in place; it keeps the pod until a readiness timeout, and when it
    succeeds the source was seen mounted and then bound. *)
Definition mount_policy (podName crdName mountPath target : string) (r : res (option gerror))
    (tr : list event) : Prop :=
  match r with
  | Done err => ∃ attempt cleanup rest, tr = attempt ++ cleanup ++ rest ∧
      crd_kept attempt = true ∧ stale_only (namespace m) podName attempt ∧
      calls cleanup = clean_up (namespace m) podName crdName (creates attempt) err ∧
      calm_tr rest = true ∧
      match err with
      | None => pod_kept attempt = true ∧ seen_and_bound mountPath target attempt
      | Some e => IsWaitTimeout e = true → pod_kept attempt = true
      end
  | _ => crd_kept tr = true ∧ stale_only (namespace m) podName tr
  end.

Lemma mount_policy_calm podName crdName mountPath target r a tr b :
  calm_tr a = true → calm_tr b = true → mount_policy podName crdName mountPath target r tr →
  mount_policy podName crdName mountPath target r (a ++ tr ++ b).
Proof.
  intros Ha Hb. pose proof (stale_only_around (namespace m) podName a) as Hst.
  destruct (calm_tr_facts _ Ha) as (Ka & Ca & Oa & _). destruct (calm_tr_facts _ Hb) as (_ & Cb & _).
  destruct r as [err| |]; simpl.
  2,3: intros [Hc Hs]; split; [by rewrite !crd_kept_app, Ca, Hc, Cb|by apply Hst].
  intros (att & cl & rest & -> & Hc & Hs & Hcl & Hr & He). exists (a ++ att), cl, (rest ++ b).
  assert (creates (a ++ att) = creates att) as -> by (unfold creates in *; by rewrite omap_app, Oa).
  split_and!.
  - by repeat (rewrite <- app_assoc; simpl).
  - by rewrite crd_kept_app, Ca, Hc.
  - pose proof (Hst att [] Ha eq_refl Hs) as Hx. by rewrite app_nil_r in Hx.
  - done.
  - by rewrite calm_tr_app, Hr, Hb.
  - destruct err as [e|]; [intros Ht; apply pod_kept_app; auto|].
    destruct He as (Hk & tr1 & tr2 & tr3 & ->). split; [by apply pod_kept_app|].
    exists (a ++ tr1), tr2, tr3. by rewrite <- app_assoc.
Qed.

(** The deferred clean-up turns what an attempt asks for into the policy. *)
Lemma cleanup_policy podName crdName mountPath target err flags tr s w :
  attempted podName mountPath target (Done (err, flags)) tr →
  wp (@honest _ W) (mount_cleanup m podName crdName flags) s w (λ r _ _ tr',
    r = Done tt ∧ mount_policy podName crdName mountPath target (Done err) (tr ++ tr')).
Proof.
  intros (Hc & Hs & Ha).
  assert (Hfin : ∀ tr', calls tr' = clean_up (namespace m) podName crdName (creates tr) err →
    mount_policy podName crdName mountPath target (Done err) (tr ++ tr')).
  { intros tr' Htr. exists tr, tr', []. rewrite app_nil_r. split_and!; try done.
    destruct err as [e|]; [apply Ha|]. apply Ha. }
  assert (clean_up (namespace m) podName crdName (creates tr) err =
    (if flags.1 then [PodDelete (namespace m) podName] else []) ++ (if flags.2 then [CrdDelete crdName] else []))
    as Hcl by (destruct err as [e|]; [by destruct Ha as [-> _]|by destruct Ha as [-> _]]).
  unfold mount_cleanup. apply (wp_bind honest (if flags.1 then _ else _)).
  eapply (wp_mono _ _ _ _ (λ r _ _ tr', (∃ x, r = Done x) ∧
    calls tr' = if flags.1 then [PodDelete (namespace m) podName] else [])).
  2: { destruct flags.1; simpl; [intros a s1 w1 _|]; (split; [by eexists|done]). }
  intros r s1 w1 tr1 [[x ->] E1]. simpl. apply (wp_bind honest (if flags.2 then _ else _)).
  eapply (wp_mono _ _ _ _ (λ r _ _ tr', (∃ x, r = Done x) ∧
    calls tr' = if flags.2 then [CrdDelete crdName] else [])).
  2: { destruct flags.2; simpl; [|by split; [eexists|]].
       eapply wp_mono; [|apply crd_delete_trace]. intros r s2 w2 tr' (y & z & -> & ->). by split; [eexists|]. }
  intros r s2 w2 tr2 [[y ->] E2]. simpl. rewrite app_nil_r. split; [done|]. apply Hfin.
  unfold calls in *. by rewrite fmap_app, E1, E2, Hcl.
Qed.

Lemma mount_locked_policy fuel sourceType sourceID target args opts s w :
  wp (@honest _ W) (mount_locked m fuel sourceType sourceID target args opts) s w (λ r _ _ tr,
    mount_policy (mount_pod_name (mountID target)) (hfMountName (mountID target))
      (source_dir (mountID target)) target r tr).
Proof.
  unfold mount_locked. set (pod := buildMountPod _ _ _ _ _ _ _ _).
  set (vid := mountID target) in *.
  set (obj := hfmount_object (namespace m) (hfMountName vid)
                (mount_spec m sourceType sourceID target args (MResources opts))).
  assert (Hreg : ∀ a s w, wp (@honest _ W)
    (mount_registered m fuel (mount_pod_name vid) (hfMountName vid) (source_dir vid) target pod opts) s w
    (λ r _ _ tr, mount_policy (mount_pod_name vid) (hfMountName vid) (source_dir vid) target r
      (Ev (CrdCreate obj) a :: tr))).
  { intros a s1 w1. unfold mount_registered. apply wp_bind.
    eapply wp_mono; [|apply (wp_calm honest), addWorkload_calm].
    intros r s2 w2 tr1 Hc1. unfold bind_post.
    assert (calm_tr (Ev (CrdCreate obj) a :: tr1) = true) as Hca by done.
    destruct r.
    2,3: destruct (calm_tr_facts _ Hca) as (_ & ? & _ & _ & ?); split; [done|by left].
    apply wp_bind. eapply wp_mono; [|apply mount_attempt_spec].
    intros r s3 w3 tr2 Ha2. unfold bind_post. destruct r as [[err flags]| |].
    2,3: destruct Ha2 as (Hc & Hs & _);
      pose proof (mount_policy_calm (mount_pod_name vid) (hfMountName vid) (source_dir vid) target
        (@Panicked (option gerror)) _ tr2 [] Hca eq_refl (conj Hc Hs)) as Hp;
      rewrite app_nil_r in Hp; exact Hp.
    apply wp_bind. eapply wp_mono; [|by apply cleanup_policy].
    intros r s4 w4 tr3 [-> Hp]. simpl. rewrite app_nil_r.
    apply (mount_policy_calm _ _ _ _ _ (Ev (CrdCreate obj) a :: tr1) _ []) in Hp; [|done|done].
    by rewrite app_nil_r in Hp. }
  intros a s1 w1 Ha. destruct a as [e|]; simpl; [|apply Hreg].
  destruct (has_reason AlreadyExists e); simpl; [apply Hreg|].
  exists [Ev (CrdCreate obj) (Some e)], [], []. apply Forall_cons in Ha as [Ha _].
  split_and!; [done|done|by left| |done|done]. unfold clean_up, drops_pod, drops_object. simpl.
  by rewrite andb_false_r.
Qed.

(** A locked section: the body's trace between taking and releasing the lock. *)
Definition lock_tail {A} (r : res A) (lk : nat) : list event :=
  match r with Done _ => [Ev (SrcUnlock lk) tt; Ev MuLock tt] | _ => [] end.

Lemma with_source_lock_wp {A} (R : rely W) source_ (body : prog A) (P : res A → list event → Prop) s w :
  (∀ s w, wp R body s w (λ r _ _ tr, P r tr)) →
  wp R (with_source_lock source_ body) s w (λ r _ _ tr, ∃ lk tr', P r tr' ∧
    tr = Ev MuLock tt :: Ev (SrcLock lk) tt :: tr' ++ lock_tail r lk).
Proof.
  intros Hb. unfold with_source_lock, acquireSourceLock, releaseSourceLock. simpl.
  intros [] s1 w1 _. destruct (acquire_in source_ s1) as [lk s1']. simpl. intros [] s2 w2 _.
  apply (wp_bind R body). eapply wp_mono; [|apply Hb].
  intros r s3 w3 tr HP. unfold bind_post. destruct r as [a| |]; simpl.
  - intros [] s4 w4 _ [] s5 w5 _. exists lk, tr. split; [done|]. reflexivity.
  - exists lk, tr. by rewrite app_nil_r.
  - exists lk, tr. by rewrite app_nil_r.
Qed.

Lemma lock_tail_calm {A} (r : res A) lk : calm_tr (lock_tail r lk) = true.
Proof. by destruct r. Qed.

Lemma PM_Mount_wp fuel sourceType sourceID target opts s w :
  wp (@honest _ W) (PM_Mount m fuel sourceType sourceID target opts) s w (λ r _ _ tr,
    mount_policy (mount_pod_name (mountID target)) (hfMountName (mountID target))
      (source_dir (mountID target)) target r tr).
Proof.
  unfold PM_Mount. destruct (buildArgs _ _ _ _) as [args|e] eqn:Eb.
  - eapply wp_mono; [|apply with_source_lock_wp; intros; apply mount_locked_policy].
    intros r s1 w1 tr (lk & tr' & Hp & ->).
    by apply (mount_policy_calm _ _ _ _ _ [Ev MuLock tt; Ev (SrcLock lk) tt] _ (lock_tail r lk)) in Hp;
      [|done|apply lock_tail_calm].
  - unfold buildArgs in Eb. destruct (_ || _); [done|]. injection Eb as <-.
    exists [], [], []. by split_and!; [..|left| | |].
Qed.

(** C1. The clean-up policy of [Mount], for every run: any answers of the kernel
    and the API server, and any interference of the other goroutines.  A run that
    returns is an attempt followed by exactly the deletions its error calls for.
    The pod is deleted when a wait failed for another reason than the readiness
    budget, also if the pod was merely reused, and when the bind failed after this
    attempt created the pod.  The HFMount object is deleted when the attempt failed
    otherwise than by that budget and the pod was its own: created by it, or not
    creatable for another reason than being there.  Nothing is deleted on success
    or when the budget ran out.  The attempt itself deletes no object and at most a
    terminal pod it found in place; on success the FUSE mount was seen at the source
    and then bound onto the target. *)
Theorem Mount_cleanup_policy (h : env W) fuel sourceType sourceID target opts s w :
  env_ok honest h →
  let o := run h (PM_Mount m fuel sourceType sourceID target opts) s w in
  mount_policy (mount_pod_name (mountID target)) (hfMountName (mountID target))
    (source_dir (mountID target)) target (o_res o) (o_trace o).
Proof. intros Hh. exact (run_wp _ _ _ _ _ _ Hh (PM_Mount_wp fuel sourceType sourceID target opts s w)). Qed.
End Attempt.

(** ** Concrete runs *)

#[local] Existing Instance z_quantities.
#[local] Instance no_general_parser : TimeLib := λ _, None.

Definition demo_config : PMConfig :=
  NewPodMounter {| namespace := "kube-system"; nodeID := "node-1"; image := "hf-mount:latest";
    imagePullPolicy := "IfNotPresent"; imagePullSecrets := []; serviceAccount := "hf-mount";
    cacheDir := "/var/cache"; hostNetwork := false; mountReadyTimeout := 0;
    pm_defaults := @Build_Defaults z_quantities 10 (1000 * 2^31) (1000 * 2^27) |}.

Definition demo_pod (phase : string) : Pod :=
  {| PName := "hf-mount-x"; PNamespace := "kube-system"; PUID := "u"; PLabels := ∅; PAnnotations := ∅;
     PDeleting := false; PPhase := phase; PContainerStatuses := []; PSpec := no_pod_spec |}.

(** A node on which every pod is in [phase] and every path is, or is not, mounted;
    the object of the mount does, or does not, exist before. *)
Definition demo_node (phase : string) (mounted crd_exists : bool) : env unit := λ c s w,
  match c return ans c * mem * unit with
  | PodGet _ _ => (Ok (demo_pod phase), s, w)
  | IsMountPoint _ => ((mounted, None), s, w)
  | CrdCreate _ => (if crd_exists then Some (ApiStatus AlreadyExists) else None, s, w)
  | Select => (CaseDeadline, s, w)
  | c => (idle c, s, w)
  end.

Lemma demo_node_honest phase mounted crd_exists : env_ok honest (demo_node phase mounted crd_exists).
Proof. intros c s w. unfold honest, demo_node. destruct c; simpl; repeat constructor. by destruct crd_exists; repeat constructor. Qed.

Definition demo_target : string := "/var/lib/kubelet/pods/u-1/volumes/kubernetes.io~csi/pv/mount".

Definition demo_mount (phase : string) (mounted crd_exists : bool) : outcome (option gerror) unit :=
  run (demo_node phase mounted crd_exists)
    (PM_Mount demo_config 5 "bucket" "user/data" demo_target no_options) empty_mem tt.

(** A pod that fails is deleted with its object; one that runs but whose mount does
    not appear in time is kept. *)
Example Mount_cleanup_policy_witness :
  let policy o := mount_policy demo_config (mount_pod_name (mountID demo_target))
    (hfMountName (mountID demo_target)) (source_dir (mountID demo_target)) demo_target
    (o_res o) (o_trace o) in
  (existsb is_crd_delete (o_trace (demo_mount "Failed" false false)) = true ∧
   policy (demo_mount "Failed" false false)) ∧
  (crd_kept (o_trace (demo_mount "Running" false false)) = true ∧
   policy (demo_mount "Running" false false)).
Proof.
  split; (split; [vm_compute; reflexivity|]); apply Mount_cleanup_policy, demo_node_honest.
Defined.

(** The object is deleted by an attempt that created the pod, also when the object
    was there before the attempt: it is the creation of the pod, not of the object,
    that decides. *)
Theorem Mount_deletes_preexisting_object :
  let o := demo_mount "Failed" false true in
  existsb (λ ev, match ev with Ev c a => match c return ans c → bool with
             | CrdCreate _ => λ a, IsAlreadyExists a | _ => λ _, false end a end) (o_trace o) = true ∧
  crd_kept (o_trace o) = false.
Proof. vm_compute. split; reflexivity. Qed.
