(* ===== verification/PodLifecycle.v ===== *)
(** * Mount pods (pkg/driver/podmounter.go): watching, repair, clean-up, recovery

    What runs in the background or at start-up: the informer's handlers, the
    periodic scan, the repair of sources and targets, and the recovery of the
    [binds] map. *)
From S2P Require Import Prelude GoStrings Sha256 GoTime GoErrors Unstructured Resources.
From S2P Require Import Names MountArgs Kube Effects MountInfo HFMount PodMounter.

Local Open Scope Z_scope.

(** Targets bound to a source. *)
Definition targets_of (mountPath : string) (s : mem) : list string :=
  omap (λ kv, if String.eqb kv.2 mountPath then Some kv.1 else None) (map_to_list (binds s)).

(** The entries of [refs] that are new, other than the source itself, are bound to
    [mountPath]. *)
Fixpoint adopt_in (mountPath : string) (refs : list string) (s : mem) : list string * mem :=
  match refs with
  | [] => ([], s)
  | ref :: refs' =>
      if String.eqb ref mountPath then adopt_in mountPath refs' s
      else match binds s !! ref with
           | Some _ => adopt_in mountPath refs' s
           | None =>
               let '(restored, s') := adopt_in mountPath refs' (set_binds (<[ref := mountPath]>) s) in
               (ref :: restored, s')
           end
  end.

Section PodLifecycle.
Context `{QuantityLib} `{TimeLib} `{MountLib}.
Variable m : PMConfig.

(** ** Live pods *)

Definition listLivePodUIDsOnNode : prog (result (gset string)) :=
  pods ← call_ (PodList "" "" ("spec.nodeName=" +++ nodeID m));
  match pods with
  | Err e => mret (Err e)
  | Ok pods => mret (Ok (list_to_set (PUID <$> List.filter (λ p, negb (isPodTerminal p)) pods)))
  end.

(** ** Rebinding *)

Fixpoint rebind_loop (mountPath : string) (targets : list string) : prog unit :=
  match targets with
  | [] => mret tt
  | target :: targets' =>
      current ← locked (λ s, (binds s !! target, s));
      if negb (bool_decide (current = Some mountPath)) then rebind_loop mountPath targets'
      else
        bound ← boundToCurrentSource target mountPath;
        if bound : bool then rebind_loop mountPath targets'
        else
          _ ← stackBind mountPath target;                (* a failure is only logged *)
          rebind_loop mountPath targets'
  end.

Definition rebindTargets (mountPath : string) : prog unit :=
  with_source_lock mountPath (
    mounted ← pollUntilMounted mountPath 30;
    if negb mounted then mret tt
    else
      code ← call_ MapOrder;
      targets ← locked (λ s, (range_order code (targets_of mountPath s), s));
      rebind_loop mountPath targets).

(** ** Clean-up of a source *)

Fixpoint drop_loop (live : gset string) (refs : list string) : prog (list string) :=
  match refs with
  | [] => mret []
  | ref :: refs' =>
      let uid := podUIDFromTarget ref in
      if String.eqb uid "" || bool_decide (uid ∈ live) then
        alive ← drop_loop live refs'; mret (ref :: alive)
      else
        _ ← unmountAll ref;
        '(mounted, err) ← PM_IsMountPoint ref;
        if mounted || match err with Some e => negb (IsNotExist e) | None => false end then
          alive ← drop_loop live refs'; mret (ref :: alive)
        else
          _ ← locked (λ s, (tt, set_binds (delete ref) s));
          drop_loop live refs'
  end.

Definition dropDeadPodRefs (refs : list string) : prog (list string) :=
  match refs with
  | [] => mret []
  | _ =>
      live ← listLivePodUIDsOnNode;
      match live with
      | Err _ => mret refs
      | Ok live => drop_loop live refs
      end
  end.

Definition cleanup_unreferenced (mountPath : string) : prog unit :=
  _ ← unmountAll mountPath;
  code ← call_ MapOrder;
  staleTargets ← locked (λ s,
    let ts := range_order code (targets_of mountPath s) in
    (ts, set_binds (λ b, foldr delete b ts) s));
  _ ← for_each staleTargets unmountAll;
  _ ← call_ (Remove mountPath);
  mret tt.

Definition cleanupSource (mountPath : string) : prog unit :=
  with_source_lock mountPath (
    '(mountRefs, refErr) ← call_ (GetMountRefs mountPath);
    match refErr with
    | Some _ => mret tt
    | None =>
        mountRefs ← dropDeadPodRefs mountRefs;
        match mountRefs with
        | _ :: _ => call_ (Go (TTryHealSource mountPath))
        | [] => cleanup_unreferenced mountPath
        end
    end).

(** ** Healing *)

(** What [tryHealSource] reads back from the spec of the HFMount object: source
    type, source ID, arguments, resources. *)
Definition heal_spec (spec : option obj_t) : string * string * list string * MountResources :=
  (as_str (uget spec "sourceType"), as_str (uget spec "sourceID"),
   omap (λ a, match a with UStr s => Some s | _ => None end) (as_list (uget spec "mountArgs")),
   match as_map (uget spec "resources") with
   | Some raw => MountResourcesFromUnstructured raw
   | None => no_resources
   end).

Definition heal_recreate (fuel : nat) (mountPath : string) (exists_ : bool)
    (spec : option obj_t) : prog unit :=
  let volumeID := Base mountPath in
  let podName := mount_pod_name volumeID in
  let '(sourceType, sourceID, args, resources) := heal_spec spec in
  waitErr ← (if exists_ then
               _ ← call_ (PodDelete (namespace m) podName);
               waitForPodDeletion m fuel podName
             else mret None);
  match waitErr with
  | Some _ => mret tt
  | None =>
      createErr ← call_ (PodCreate
        (buildMountPod m podName volumeID sourceType sourceID mountPath args resources));
      match createErr with
      | Some _ => mret tt
      | None =>
          now ← call_ Now;
          runErr ← waitForPodRunning m fuel podName (now + podReadyTimeout);
          match runErr with
          | Some _ => _ ← call_ (PodDelete (namespace m) podName); mret tt
          | None => rebindTargets mountPath
          end
      end
  end.

Definition heal_from_crd (fuel : nat) (mountPath : string) (exists_ : bool) : prog unit :=
  spec ← crd_get (hfMountName (Base mountPath));
  match spec with
  | Err _ => mret tt
  | Ok spec =>
      match as_list (uget spec "mountArgs") with
      | [] => mret tt
      | _ => heal_recreate fuel mountPath exists_ spec
      end
  end.

Definition tryHealSource (fuel : nat) (mountPath : string) : prog unit :=
  pod ← call_ (PodGet (namespace m) (mount_pod_name (Base mountPath)));
  match pod with
  | Err e => if negb (IsNotFound (Some e)) then mret tt else heal_from_crd fuel mountPath false
  | Ok pod =>
      if negb (PDeleting pod) && negb (isPodTerminal pod) then rebindTargets mountPath
      else heal_from_crd fuel mountPath true
  end.

(** ** Adoption *)

Fixpoint sync_workloads (crdName : string) (restored : list string) : prog unit :=
  match restored with
  | [] => mret tt
  | ref :: restored' =>
      let uid := podUIDFromTarget ref in
      if String.eqb uid "" then sync_workloads crdName restored'
      else
        _ ← addWorkload crdName uid ref;
        sync_workloads crdName restored'
  end.

Definition lateAdopt (mountPath : string) : prog unit :=
  mounted ← pollUntilMounted mountPath 15;
  if negb mounted then mret tt
  else
    '(refs, err) ← call_ (GetMountRefs mountPath);
    match err with
    | Some _ => mret tt
    | None =>
        restored ← locked (adopt_in mountPath refs);
        _ ← sync_workloads (hfMountName (Base mountPath)) restored;
        call_ (Go (TRebindTargets mountPath))
    end.

(** ** The informer's handlers *)

Definition mount_path_of (pod : Pod) : string := default "" (PAnnotations pod !! annotMountPath).

Definition handlePodAdd (pod : Pod) : prog unit :=
  let mountPath := mount_path_of pod in
  if String.eqb mountPath "" || negb (String.eqb (PPhase pod) PodRunning) then mret tt
  else
    hasBinds ← locked (λ s, (bool_decide (map_Exists (λ _ src, src = mountPath) (binds s)), s));
    if hasBinds : bool then mret tt else call_ (Go (TLateAdopt mountPath)).

Definition handlePodUpdate (oldPod newPod : Pod) : prog unit :=
  let mountPath := mount_path_of newPod in
  if String.eqb mountPath "" then mret tt
  else
    let phaseChanged := negb (String.eqb (PPhase oldPod) (PPhase newPod)) in
    let restarted := totalRestartCount oldPod <? totalRestartCount newPod in
    _ ← (if String.eqb (PPhase newPod) PodRunning && (phaseChanged || restarted)
         then call_ (Go (TRebindTargets mountPath)) else mret tt);
    if phaseChanged && isPodTerminal newPod then call_ (Go (TCleanupSource mountPath)) else mret tt.

Definition handlePodDelete (pod : Pod) : prog unit :=
  let mountPath := mount_path_of pod in
  if String.eqb mountPath "" then mret tt else cleanupSource mountPath.

(** ** The periodic scan *)

Definition podsByName (pods : list Pod) : gmap string Pod :=
  fold_left (λ out p, <[PName p := p]> out) pods ∅.

(** Does a mounted (or corrupted) source have no usable pod? *)
Definition pod_unusable (pod : option Pod) : bool :=
  match pod with
  | None => true
  | Some p => isPodTerminal p || PDeleting p
  end.

Fixpoint scan_entries (pods : gmap string Pod) (entries : list DirEntry) : prog unit :=
  match entries with
  | [] => mret tt
  | e :: entries' =>
      if negb (DIsDir e) then scan_entries pods entries'
      else
        let mountPath := JoinPath [mountBaseDir; DName e] in
        '(mounted, mountErr) ← PM_IsMountPoint mountPath;
        let corrupted := match mountErr with Some err => IsCorruptedMnt err | None => false end in
        if match mountErr with Some _ => negb corrupted | None => false end
           || (negb mounted && negb corrupted)
           || negb (pod_unusable (pods !! mount_pod_name (DName e)))
        then scan_entries pods entries'
        else
          _ ← cleanupSource mountPath;
          scan_entries pods entries'
  end.

Definition runCleanupScan : prog unit :=
  entries ← call_ (ReadDir mountBaseDir);
  match entries with
  | Err _ => mret tt
  | Ok entries =>
      pods ← call_ (PodList (namespace m) (mount_pod_selector m) "");
      scan_entries (match pods with Ok ps => podsByName ps | Err _ => ∅ end) entries
  end.

(** [item.GetName()]. *)
Definition obj_name (obj : obj_t) : string :=
  as_str (uget (as_map (obj !! "metadata"%string)) "name").

Definition cleanup_stale_item (live : gset string) (item : obj_t) : prog unit :=
  let name := obj_name item in
  let spec := spec_of item in
  let mountPath := as_str (uget spec "mountPath") in
  let podName := as_str (uget spec "mountPodName") in
  '(remaining, cleanupErr) ← removeStaleWorkloads name live (2 * minute);
  match cleanupErr with
  | Some _ => mret tt
  | None =>
      if 0 <? remaining then mret tt
      else
        pod ← call_ (PodGet (namespace m) podName);
        match pod with
        | Err podErr =>
            if IsNotFound (Some podErr) then
              _ ← (if String.eqb mountPath "" then mret tt
                   else _ ← fuseUnmount mountPath; _ ← call_ (Remove mountPath); mret tt);
              _ ← crd_delete name;
              mret tt
            else mret tt
        | Ok _ => _ ← call_ (PodDelete (namespace m) podName); mret tt
        end
  end.

Definition cleanupStaleCRDs : prog unit :=
  crds ← crd_list (nodeID m);
  match crds with
  | Err _ | Ok [] => mret tt
  | Ok crds =>
      live ← listLivePodUIDsOnNode;
      match live with
      | Err _ => mret tt
      | Ok live => for_each crds (cleanup_stale_item live)
      end
  end.

(** [select] on the stop channel and a ticker of five minutes. *)
Fixpoint cleanup_loop (fuel : nat) : prog unit :=
  match fuel with
  | O => OutOfFuel
  | S fuel' =>
      c ← call_ Select;
      match c with
      | CaseTick =>
          _ ← runCleanupScan;
          _ ← cleanupStaleCRDs;
          cleanup_loop fuel'
      | _ => mret tt
      end
  end.

Definition periodicCleanup (fuel : nat) : prog unit :=
  _ ← call_ (NewTicker (5 * minute));
  cleanup_loop fuel.

(** [Start]: the informer on the mount pods of this node, whose events go to the
    handlers above, and the periodic clean-up in a goroutine. That goroutine first
    waits for the cache of the informer and ignores the result. *)
Definition PM_Start : prog unit :=
  _ ← call_ (StartInformer (namespace m) (mount_pod_selector m));
  call_ (Go TPeriodicCleanup).

(** ** Recovery *)

Fixpoint recover_refs (attempts : nat) (mountPath : string) : prog (list string) :=
  match attempts with
  | O => mret []
  | S attempts' =>
      '(refs, refErr) ← call_ (GetMountRefs mountPath);
      match refErr with
      | None => mret refs
      | Some _ =>
          _ ← call_ (Sleep second);
          match attempts' with
          | O => mret refs                     (* the value of the last attempt *)
          | _ => recover_refs attempts' mountPath
          end
      end
  end.

(** The targets of the workloads whose directory still exists. *)
Fixpoint recover_workloads (ws : list uval) (refSet : gset string) : prog (gset string) :=
  match ws with
  | [] => mret refSet
  | w :: ws' =>
      let path := as_str (wfield w "targetPath") in
      if String.eqb path "" then recover_workloads ws' refSet
      else
        st ← call_ (Stat (Dir path));
        match st with
        | Err e => if IsNotExist e then recover_workloads ws' refSet
                   else recover_workloads ws' ({[path]} ∪ refSet)
        | Ok _ => recover_workloads ws' ({[path]} ∪ refSet)
        end
  end.

Definition recover_binds (mountPath : string) : prog unit :=
  refs ← recover_refs 3 mountPath;
  let refSet : gset string := list_to_set (List.filter (λ r, negb (String.eqb r mountPath)) refs) in
  spec ← crd_get (hfMountName (Base mountPath));
  refSet ← match spec with
           | Ok spec => recover_workloads (workloads_of spec) refSet
           | Err _ => mret refSet
           end;
  _ ← locked (λ s, (tt, set_binds (λ b, set_fold (λ ref b, <[ref := mountPath]> b) b refSet) s));
  call_ (Go (TRebindTargets mountPath)).

Definition recoverPod (pod : Pod) : prog unit :=
  let mountPath := mount_path_of pod in
  if String.eqb mountPath "" || PDeleting pod then mret tt
  else
    '(mounted, err) ← PM_IsMountPoint mountPath;
    match err with
    | Some e =>
        if IsCorruptedMnt e then
          _ ← fuseUnmount mountPath;
          _ ← call_ (PodDelete (namespace m) (PName pod));
          mret tt
        else mret tt
    | None =>
        if mounted : bool then recover_binds mountPath
        else if isPodTerminal pod then
          _ ← call_ (PodDelete (namespace m) (PName pod)); mret tt
        else
          appeared ← pollUntilMounted mountPath 30;
          if appeared : bool then recover_binds mountPath else mret tt
    end.

(** One goroutine per pod, at most eight at a time, all awaited. They run one
    after the other here, in an order the environment picks; what another one does
    meanwhile is interference at the calls of this one. *)
Definition Recover : prog (option gerror) :=
  pods ← call_ (PodList (namespace m) (mount_pod_selector m) "");
  match pods with
  | Err e => mret (Some (Errorf "failed to list mount pods: %w" [] [e]))
  | Ok pods =>
      pods ← ranged pods;
      _ ← for_each pods recoverPod;
      mret None
  end.
End PodLifecycle.
