(* ===== verification/MountPodSpec.v ===== *)
(** * The mount pods the driver creates

    They are acceptable to the API server and visible to the driver's own watch:
    legal name and labels, selected by the selector of the informer, volume mounts
    that name volumes. What a run of [Mount] creates is determined by its arguments,
    and the FUSE sweeper recognises the daemon of every pod it creates. *)
From S2P Require Import Prelude GoStrings Sha256 GoTime GoErrors Unstructured Resources.
From S2P Require Import Names MountArgs Kube Effects MountInfo HFMount Sweeper PodMounter.
From S2P Require Import PodMounterSpec PodLifecycle.
From Stdlib Require Import Ascii.

Local Open Scope Z_scope.

(** A DNS label: what Kubernetes requires of the name, at most 63 bytes of lower-case
    letters, digits and dashes, with a letter or digit at both ends. *)
Definition dns_byte (c : ascii) : bool := is_lower c || is_digit c || Ascii.eqb c "-".
Definition dns_end (c : ascii) : bool := is_lower c || is_digit c.

Definition dns_label (s : string) : Prop :=
  (String.length s ≤ 63)%nat ∧ str_all dns_byte s = true ∧
  (∃ c t, s = String c t ∧ dns_end c = true) ∧ (∃ t c, s = t +++ str1 c ∧ dns_end c = true).

(** An equality-based label selector selects a set of labels. *)
Definition selects (sel : string) (labels : gmap string string) : Prop :=
  Forall (λ term, ∃ k v, SplitN2 term "=" = [k; v] ∧ labels !! k = Some v) (Split sel ",").

Lemma snoc_string (s : string) : s ≠ ""%string → ∃ t c, s = t +++ str1 c.
Proof.
  destruct s as [|c t]; [done|]. intros _. revert c.
  induction t as [|d t IH]; intros c; [by exists ""%string, c|].
  destruct (IH d) as (u & e & ->). by exists (String c u), e.
Qed.

Lemma lower_hex_dns c : is_lower_hex c = true → dns_end c = true.
Proof.
  unfold is_lower_hex, dns_end, is_lower, in_range. destruct (is_digit c); [by rewrite orb_true_r|].
  simpl. rewrite orb_false_r, !andb_true_iff, !Z.leb_le. lia.
Qed.

Lemma mount_pod_name_dns target : dns_label (mount_pod_name (mountID target)).
Proof.
  destruct (mountID_is_volume_id target) as [Hl Hh]. unfold mount_pod_name, mountPodPrefix.
  set (id := mountID target) in *. split_and!.
  - rewrite slength_app, Hl. simpl. lia.
  - rewrite str_all_app. apply andb_true_iff. split; [by vm_compute|].
    eapply str_all_impl, Hh. intros c Hc%lower_hex_dns. unfold dns_byte, dns_end in *. by rewrite Hc.
  - by eexists _, _.
  - destruct (snoc_string id) as (t & c & E); [by intros E; rewrite E in Hl|].
    exists ("hf-mount-" +++ t), c. rewrite E, sapp_assoc. split; [done|].
    rewrite E, str_all_app in Hh. apply andb_true_iff in Hh as [_ Hc]. simpl in Hc.
    rewrite andb_true_r in Hc. by apply lower_hex_dns.
Qed.

(** Label values have neither commas nor equality signs. *)
Lemma valid_label_without c v :
  label_byte c = false → valid_label v → IndexByte v c = None.
Proof.
  intros Hc (_ & Hv & _). apply IndexByte_None. eapply str_all_impl, Hv. intros d Hd.
  destruct (Ascii.eqb_spec c d) as [->|]; [congruence|done].
Qed.

Lemma SplitN2_term k v : IndexByte k "=" = None → SplitN2 (k +++ String "=" v) "=" = [k; v].
Proof. apply SplitN2_app. Qed.

Section MountPod.
Context `{QuantityLib}.
Variable m : PMConfig.

Lemma selector_selects labels v :
  labels !! labelApp = Some labelAppValue →
  labels !! labelNode = Some (sanitizeLabelValue (nodeID m)) →
  v = mount_pod_selector m → selects v labels.
Proof.
  intros Ha Hn ->. unfold selects, mount_pod_selector.
  pose proof (valid_label_without "," _ eq_refl (sanitizeLabelValue_valid (nodeID m))) as Hc.
  set (node := sanitizeLabelValue (nodeID m)) in *.
  change (labelApp +++ "=" +++ labelAppValue +++ "," +++ labelNode +++ "=" +++ node)
    with ((labelApp +++ String "=" labelAppValue) +++ String "," (labelNode +++ String "=" node)).
  rewrite Split_app. apply Forall_app. split.
  - rewrite Split_no_sep by (by vm_compute). constructor; [|done].
    exists labelApp, labelAppValue. split; [by vm_compute|done].
  - rewrite Split_no_sep.
    + constructor; [|done]. exists labelNode, node. split; [|done]. by apply SplitN2_term.
    + apply IndexByte_None. rewrite str_all_app. apply andb_true_iff. split; [by vm_compute|].
      cbn [str_all]. apply andb_true_iff. split; [done|by apply IndexByte_None].
Qed.

(** C27. Every mount pod is well formed: its name is a DNS label, its label values are
    legal, its volume mounts name volumes of the pod; the selector the informer,
    the recovery and the clean-up use selects it, whatever the node's name; and
    the watch handlers read the mount path the pod was created with. *)
Theorem mount_pod_wellformed target sourceType sourceID args resources :
  let id := mountID target in
  let pod := buildMountPod m (mount_pod_name id) id sourceType sourceID (source_dir id) args resources in
  dns_label (PName pod) ∧
  (∀ k v, PLabels pod !! k = Some v → valid_label v) ∧
  selects (mount_pod_selector m) (PLabels pod) ∧
  Forall (λ c, Forall (λ vm, ∃ v, v ∈ Volumes (PSpec pod) ∧ VName v = VMName vm) (CVolumeMounts c))
    (Containers (PSpec pod)) ∧
  mount_path_of pod = source_dir id.
Proof.
  intros id pod. split_and!.
  - apply mount_pod_name_dns.
  - intros k v Hk. apply elem_of_list_to_map_2 in Hk. simpl in Hk.
    rewrite !elem_of_cons, elem_of_nil in Hk.
    destruct Hk as [[= _ ->]|[[= _ ->]|[[= _ ->]|[]]]]; [|apply sanitizeLabelValue_valid..].
    split; [simpl; lia|]. split; [done|]. right.
    split; [by eexists _, _|by exists "hf-moun"%string, "t"%char].
  - by apply selector_selects.
  - constructor; [|done]. constructor; [|constructor; [|done]]; eexists.
    + split; [by left|done].
    + split; [right; by left|done].
  - done.
Qed.
End MountPod.

(** ** What Mount creates *)

Section Creates.
Context `{QuantityLib} `{TimeLib} `{MountLib}.
Variable m : PMConfig.

(** The pod and the object of one [Mount]. *)
Definition pod_of_mount (sourceType sourceID target : string) (args : list string)
    (resources : MountResources) : Pod :=
  buildMountPod m (mount_pod_name (mountID target)) (mountID target) sourceType sourceID
    (source_dir (mountID target)) args resources.

Definition object_of_mount (sourceType sourceID target : string) (args : list string)
    (resources : MountResources) : obj_t :=
  hfmount_object (namespace m) (hfMountName (mountID target))
    (mount_spec m sourceType sourceID target args resources).

(** A call that creates nothing but the two. *)
Definition creates_pair (pod : Pod) (obj : obj_t) (c : call) : Prop :=
  match c with
  | PodCreate pod' => pod' = pod
  | CrdCreate obj' => obj' = obj
  | _ => True
  end.

Lemma plain_creates {A} pod obj (p : prog A) :
  emits (λ c, plain c = true) p → emits (creates_pair pod obj) p.
Proof. apply emits_mono. by intros []. Qed.

#[local] Opaque waitForPodRunning waitForMount waitForPodDeletion stackBind addWorkload updateStatus.

(** Leaves by the lemma given, the rest by the structure of the program. *)
Ltac go_creates leaf :=
  repeat first
    [ exact I | solve [leaf]
    | match goal with
      | |- emits ?P (mret ?a) => exact (emits_ret P a)
      | |- emits ?P (call_ ?c) => apply (emits_call P c); solve [reflexivity | exact I]
      | |- emits ?P (locked ?f) => exact (emits_locked P f I)
      | |- emits ?P (_ ≫= _) => apply (emits_bind P)
      end | progress intros | progress case_match ].

Lemma ensure_pod_creates fuel podName pod obj :
  emits (creates_pair pod obj) (ensure_pod m fuel podName pod).
Proof. unfold ensure_pod. go_creates ltac:(apply plain_creates, wait_deletion_calm). Qed.

Lemma mount_attempt_creates fuel podName crdName mountPath target pod obj :
  emits (creates_pair pod obj) (mount_attempt m fuel podName crdName mountPath target pod).
Proof.
  unfold mount_attempt. apply emits_bind; [apply ensure_pod_creates|]. intros [created|[e b]]; [|done].
  apply emits_bind; [done|]. intros now.
  apply emits_bind; [apply plain_creates, wait_running_calm|]. intros [e|]; [done|].
  apply emits_bind; [apply plain_creates, wait_mount_calm|]. intros [e|]; [done|].
  apply emits_bind; [apply plain_creates, stackBind_calm|]. intros [e|]; [done|].
  apply emits_bind; [by apply emits_locked|]. intros _.
  by apply emits_bind; [apply plain_creates, updateStatus_calm|].
Qed.

Lemma mount_registered_creates fuel podName crdName mountPath target pod obj opts :
  emits (creates_pair pod obj) (mount_registered m fuel podName crdName mountPath target pod opts).
Proof.
  unfold mount_registered, mount_cleanup, crd_delete.
  go_creates ltac:(first [apply plain_creates, addWorkload_calm | apply mount_attempt_creates]).
Qed.

#[local] Opaque mount_registered.

(** Every pod and object a run of [Mount] creates is the one of its arguments. *)
Lemma PM_Mount_creates {W} (h : env W) fuel sourceType sourceID target opts s w c :
  c ∈ calls (o_trace (run h (PM_Mount m fuel sourceType sourceID target opts) s w)) →
  ∃ args, buildArgs sourceType sourceID ("/mnt/hf/" +++ mountID target) opts = Ok args ∧
    creates_pair (pod_of_mount sourceType sourceID target args (MResources opts))
      (object_of_mount sourceType sourceID target args (MResources opts)) c.
Proof.
  unfold PM_Mount. destruct (buildArgs _ _ _ _) as [args|e]; [|by intros ?%elem_of_nil].
  intros Hc. exists args. split; [done|]. revert c Hc. apply Forall_forall.
  refine (proj2 (run_wp any h _ s w _ (env_ok_any h) (wp_emits any _ _ s w _ _ (wp_true any _ s w)))).
  apply with_source_lock_emits; try done. unfold mount_locked, crd_create.
  go_creates ltac:(apply mount_registered_creates).
Qed.

(** C37. The daemon of a mount pod is recognised: if the connection's mounts
    include the source directory of the pod [Mount] created, or the target of that
    [Mount] (a path of a kubelet CSI volume), and some process holding [/dev/fuse] runs the command line of a
    container of that pod, then the sweeper sees a live server, whatever the source,
    the options and the answers [Mount] got. *)
Theorem mount_pod_daemon_recognised `{UnicodeLower} {W} (h : env W) fuel sourceType sourceID target opts
    s w pod ctr mps srvs srv mp :
  PodCreate pod ∈ calls (o_trace (run h (PM_Mount m fuel sourceType sourceID target opts) s w)) →
  ctr ∈ Containers (PSpec pod) →
  srv ∈ srvs → cmdline srv = cmdlineToString (argv_bytes (CCommand ctr ++ CArgs ctr)) →
  mp ∈ mps →
  mp = mount_path_of pod ∨
    (mp = target ∧ HasPrefix target (mountBaseDir +++ "/") = false ∧
     Contains target kubeletCSIMarker = true) →
  mountHasLiveDaemon mps srvs = true.
Proof.
  intros (args & Hargs & ->)%PM_Mount_creates ->%list_elem_of_singleton Hsrv Hcmd Hmp Hcase.
  pose proof (mountID_is_volume_id target) as Hid. set (id := mountID target) in *.
  apply (mountHasLiveDaemon_intro mps srvs srv Hsrv). left. exists id, mp. split_and!; [done| | |].
  - destruct Hcase as [->|(-> & Hp & Hk)]; [by apply (volumeIDForMount_source id)|].
    unfold volumeIDForMount. by rewrite Hp, Hk.
  - destruct Hid as [Hl _]. by intros E; rewrite E in Hl.
  - rewrite Hcmd. apply Contains_cmdline.
    + apply buildArgs_positional in Hargs as (pre & post & -> & _). simpl. set_solver.
    + rewrite str_all_app. apply andb_true_iff. split; [done|].
      apply (volume_id_bytes nul id Hid). done.
Qed.
End Creates.

(** ** Concrete runs *)

#[local] Existing Instance z_quantities.
#[local] Instance no_general_parser : TimeLib := λ _, None.
#[local] Instance ascii_lower : UnicodeLower := λ s, s.

(** A process that runs the command line of the pod [Mount] created. *)
Example mount_pod_daemon_recognised_witness :
  ∃ pod ctr, PodCreate pod ∈ calls (o_trace (demo_mount "Running" true false)) ∧
    mountHasLiveDaemon [demo_target]
      [{| pid := 7; cmdline := cmdlineToString (argv_bytes (CCommand ctr ++ CArgs ctr)); cgroup := "" |}]
      = true.
Proof.
  assert (existsb (λ c, match c with
    | PodCreate pod => match Containers (PSpec pod) with [] => false | _ => true end
    | _ => false end) (calls (o_trace (demo_mount "Running" true false))) = true) as Hc
    by (vm_compute; reflexivity).
  apply existsb_exists in Hc as (c & Hin & Hc). apply list_elem_of_In in Hin.
  destruct c; try discriminate Hc. destruct (Containers (PSpec _)) as [|ctr cs] eqn:Ec; [discriminate Hc|].
  eexists _, ctr. split; [exact Hin|].
  eapply (mount_pod_daemon_recognised demo_config _ _ _ _ _ _ _ _ _ ctr _ _ _ demo_target Hin);
    [rewrite Ec; apply list_elem_of_here|apply list_elem_of_here|reflexivity|apply list_elem_of_here|].
  right. split_and!; reflexivity.
Defined.
