(* ===== verification/Mounter.v ===== *)
(** * The Mounter interface (pkg/driver/mounter.go)

    What the node service asks of a mounter, and [PodMounter] as an instance. *)
From S2P Require Import Prelude GoStrings GoTime GoErrors Unstructured Resources MountArgs Kube.
From S2P Require Import Effects PodMounter PodLifecycle.

Class Mounter `{QuantityLib} := {
  mounter_Mount : string → string → string → MountOptions → prog (option gerror);
  mounter_Unmount : string → prog (option gerror);
  mounter_IsMountPoint : string → prog (bool * option gerror);
  mounter_CheckHealth : string → prog (option gerror);
  mounter_Recover : prog (option gerror);
  mounter_Start : prog unit
}.

(** [fuel] bounds the polls of one [Mount] and of [Recover]. *)
Definition PodMounter `{QuantityLib} `{TimeLib} `{MountLib} (fuel : nat) (m : PMConfig) : Mounter := {|
  mounter_Mount := PM_Mount m fuel;
  mounter_Unmount := PM_Unmount m;
  mounter_IsMountPoint := PM_IsMountPoint;
  mounter_CheckHealth := CheckHealth m;
  mounter_Recover := Recover m;
  mounter_Start := PM_Start m
|}.
