(* ===== verification/TargetTable.v ===== *)
(** * The mounts at one target

    A rely for the kernel, seen from one target path: which answers change the
    entries of the mount table there, and what an answer tells about them.  Other
    goroutines may change the process memory at every call, except what it says
    about this target.  [MounterLaws] is what the node service needs of a mounter
    on such a kernel, and [PodMounter] is shown to provide it. *)
From S2P Require Import Prelude GoStrings GoTime GoErrors Unstructured Resources Names MountArgs Kube.
From S2P Require Import Effects MountInfo HFMount PodMounter PodLifecycle Mounter.

Local Open Scope Z_scope.

Section TargetTable.
Context `{QuantityLib}.

Variable target : string.

(** What the shared maps say about the target. *)
Definition same_entries (s s' : mem) : Prop :=
  binds s' !! target = binds s !! target ∧ (target ∈ sidecarVolumes s' ↔ target ∈ sidecarVolumes s).

#[export] Instance same_entries_refl : Reflexive same_entries.
Proof. by intros s. Qed.
#[export] Instance same_entries_trans : Transitive same_entries.
Proof. intros s1 s2 s3 [B1 V1] [B2 V2]. split; [congruence|]. by rewrite V2. Qed.

(** The entry is mounted at the target: the kernel prints the path escaped. *)
Definition at_target (i : MountInfo) : Prop := unescapeMountPath (MIMountPoint i) = Clean target.
#[export] Instance at_target_dec i : Decision (at_target i).
Proof. unfold at_target. apply _. Defined.

Definition here (path : string) : Prop := Clean path = Clean target.
#[export] Instance here_dec path : Decision (here path) := String.string_dec (Clean path) (Clean target).

(** The world lists the entries at the target, the topmost last.  A mount adds one
    there, an unmount takes the topmost away, the table shows them, and a directory
    with a mount on it can neither be removed nor be missing. *)
Definition kernel_at : rely (list MountInfo) := λ c s w a s' w',
  same_entries s s' ∧
  match c return ans c → Prop with
  | Mount source_ path fstype_ bind _ _ => λ r,
      match r with
      | None => if decide (here path)
                then ∃ i, w' = w ++ [i] ∧ (bind = false → MISource i = source_ ∧ MIFsType i = fstype_)
                else w' = w
      | Some _ => w' = w
      end
  | Unmount path _ => λ r,
      match r with
      | None => if decide (here path) then ∃ i, w = w' ++ [i] else w' = w
      | Some _ => w' = w
      end
  | ParseMountInfo path => λ r,
      w' = w ∧ (path = selfMountinfo → ∀ infos, r = Ok infos → filter at_target infos = w)
  | Remove path => λ r, w' = w ∧ (here path → fatal_remove r = None → w = [])
  | IsMountPoint path => λ r,
      w' = w ∧ (here path → ∀ e, r.2 = Some e → IsNotExist e = true → w = [])
  | _ => λ _, w' = w
  end a.

(** ** Programs that move the table along a preorder *)

Section Moves.
Variable G : list MountInfo → list MountInfo → Prop.
Context `{!Reflexive G} `{!Transitive G}.

(** The program returns, keeps the target's entries in memory, and moves the mounts
    at the target along [G]. *)
Definition moves {A} (p : prog A) : Prop :=
  ∀ s w, wp kernel_at p s w (λ r s' w' _, (∃ a, r = Done a) ∧ same_entries s s' ∧ G w w').

Lemma moves_ret {A} (a : A) : moves (mret a).
Proof. intros s w. split_and!; [by exists a|done|done]. Qed.

Lemma moves_bind {A B} (p : prog A) (f : A → prog B) :
  moves p → (∀ a, moves (f a)) → moves (p ≫= f).
Proof.
  intros Hp Hf s w. apply wp_bind. eapply wp_mono; [|apply Hp].
  intros r s1 w1 tr ([a ->] & S1 & G1). eapply wp_mono; [|apply Hf].
  intros r s2 w2 tr' (Hr & S2 & G2). split_and!; [done| |]; by etrans.
Qed.

Definition moving (c : call) : Prop := ∀ s w a s' w', kernel_at c s w a s' w' → G w w'.

Lemma moves_call c : moving c → moves (call_ c).
Proof.
  intros Hc s w a s' w' Hk. split_and!; [by exists a|apply Hk|by eapply Hc].
Qed.

Lemma moves_locked {A} (f : mem → A * mem) :
  (∀ s, same_entries s (f s).2) → moves (locked f).
Proof.
  intros Hf s w a s1 w1 [S1 ->]. simpl. specialize (Hf s1). destruct (f s1) as [b s2]. simpl in *.
  split_and!; [by exists b|by etrans|done].
Qed.

Lemma moves_atomically {A} (f : mem → A * mem) :
  (∀ s, same_entries s (f s).2) → moves (atomically f).
Proof.
  intros Hf s w a s1 w1 [S1 ->]. simpl. specialize (Hf s1). destruct (f s1) as [b s2]. simpl in *.
  split_and!; [by exists b|by etrans|done].
Qed.

Lemma moves_simple {A} P (p : prog A) : (∀ c, P c → moving c) → simple P p → moves p.
Proof.
  intros HP. induction p as [a|msg| |k IH|s0 k IH|c k IH]; simpl; try done.
  - intros _. apply (moves_ret a).
  - intros [Hc Hk]. apply (moves_bind (call_ c) k); [by apply moves_call, HP|]. intros a. by apply IH.
Qed.
End Moves.

(** Nothing is mounted or unmounted. *)
Definition table_untouched (c : call) : Prop :=
  match c with Mount _ _ _ _ _ _ | Unmount _ _ => False | _ => True end.
(** Nothing is mounted. *)
Definition no_mount (c : call) : Prop := match c with Mount _ _ _ _ _ _ => False | _ => True end.

Lemma untouched_moving c : table_untouched c → moving eq c.
Proof. destruct c; try done; intros _ s w a s' w' [_ Hw]; naive_solver. Qed.

Definition shrinks (w w' : list MountInfo) : Prop := w' `prefix_of` w.
#[export] Instance shrinks_refl : Reflexive shrinks.
Proof. intros w. unfold shrinks. done. Qed.
#[export] Instance shrinks_trans : Transitive shrinks.
Proof. intros w1 w2 w3 H1 H2. unfold shrinks in *. by etrans. Qed.

Lemma no_mount_shrinks c : no_mount c → moving shrinks c.
Proof.
  intros Hc s w a s' w' Hk.
  destruct c; try done; destruct Hk as [_ Hw]; try (rewrite Hw; reflexivity);
    try (destruct Hw as [Hw _]; rewrite Hw; reflexivity).
  destruct a as [e|]; [by subst|]. destruct (decide _); [|by subst]. destruct Hw as [i ->]. by exists [i].
Qed.
End TargetTable.

(** ** What the node service needs of a mounter *)

(** For a target the mounter did not bind itself: its unmount returns, mounts
    nothing, and leaves nothing mounted when it succeeds; its check tells a missing
    target. *)
Class MounterLaws `{QuantityLib} (mounter : Mounter) : Prop := {
  Unmount_clears target s w :
    binds s !! target = None →
    wp (kernel_at target) (mounter_Unmount target) s w (λ r s' w' _, ∃ e, r = Done e ∧
      same_entries target s s' ∧ shrinks w w' ∧ (e = None → w' = []));
  IsMountPoint_missing target s w :
    wp (kernel_at target) (mounter_IsMountPoint target) s w (λ r s' w' _, ∃ mounted err,
      r = Done (mounted, err) ∧ same_entries target s s' ∧ w' = w ∧
      (∀ e, err = Some e → IsNotExist e = true → w = []))
}.

Section PodMounterLaws.
Context `{QuantityLib} `{TimeLib} `{MountLib}.

Variables (m : PMConfig) (target : string).

Lemma unmountAll_moves path : moves target shrinks (unmountAll path).
Proof.
  apply (moves_simple target shrinks no_mount); [apply no_mount_shrinks|].
  unfold unmountAll. generalize 32%nat. induction n as [|n IH]; simpl; [done|].
  split; [done|]. by intros [].
Qed.

Lemma unmount_untracked_moves : moves target shrinks (unmount_untracked m target).
Proof.
  unfold unmount_untracked. apply (moves_bind _ _ _ _ (moves_call _ _ _ (no_mount_shrinks target (IsMountPoint _) I))).
  intros [[] err]; [|apply moves_ret, _].
  apply moves_bind; [apply _|apply unmountAll_moves|intros _].
  apply (moves_simple target shrinks no_mount); [apply no_mount_shrinks|].
  unfold crd_delete. go_simple ltac:(done).
Qed.

#[local] Opaque unmountAll unmount_untracked.

Lemma unmount_locked_clears s w :
  binds s !! target = None →
  wp (kernel_at target) (unmount_locked m target) s w (λ r s' w' _, ∃ e, r = Done e ∧
    same_entries target s s' ∧ shrinks w w' ∧ (e = None → w' = [])).
Proof.
  intros Hb. unfold unmount_locked. apply (wp_bind _ (unmountAll target)).
  eapply wp_mono; [|apply unmountAll_moves]. intros r s1 w1 tr ([[] ->] & S1 & G1). simpl.
  intros err s2 w2 (S2 & -> & Hr). assert (S12 : same_entries target s s2) by by etrans.
  destruct (fatal_remove err) as [e|]; simpl.
  { eexists. split_and!; [done..|]. done. }
  specialize (Hr eq_refl eq_refl). subst w1. intros [] s3 w3 [S3 ->].
  assert (S13 : same_entries target s s3) by by etrans.
  unfold untrack. rewrite (proj1 S13), Hb. simpl.
  eapply wp_mono; [|apply unmount_untracked_moves]. intros r s4 w4 tr' ([e ->] & S4 & G4).
  apply prefix_nil_inv in G4 as ->. eexists. split_and!; [done|by etrans|by apply prefix_nil|done].
Qed.

Lemma acquire_moves source_ : moves target eq (acquireSourceLock source_).
Proof.
  apply moves_locked; [apply _|]. intros s. unfold acquire_in. by destruct (sourceLocks s !! source_).
Qed.

Lemma with_source_lock_around {A} source_ (body : prog A) (P : A → list MountInfo → Prop) s w :
  (∀ s1, same_entries target s s1 → wp (kernel_at target) body s1 w (λ r s' w' _,
     ∃ a, r = Done a ∧ same_entries target s1 s' ∧ P a w')) →
  wp (kernel_at target) (with_source_lock source_ body) s w (λ r s' w' _,
    ∃ a, r = Done a ∧ same_entries target s s' ∧ P a w').
Proof.
  intros Hbody. unfold with_source_lock. apply wp_bind. eapply wp_mono; [|apply acquire_moves].
  intros r s1 ? tr1 ([lk ->] & S1 & <-). simpl. intros [] s2 w2 [S2 ->].
  apply (wp_bind _ body). eapply wp_mono; [|apply Hbody; by etrans].
  intros r s3 w3 tr3 (a & -> & S3 & HP). simpl. intros [] s4 w4 [S4 ->].
  intros [] s5 w5 [S5 ->]. exists a. split_and!; [done| |done].
  do 4 (etrans; [eassumption|]). done.
Qed.

#[local] Opaque with_source_lock unmount_locked.

Lemma PM_Unmount_clears s w :
  binds s !! target = None →
  wp (kernel_at target) (PM_Unmount m target) s w (λ r s' w' _, ∃ e, r = Done e ∧
    same_entries target s s' ∧ shrinks w w' ∧ (e = None → w' = [])).
Proof.
  intros Hb. unfold PM_Unmount. simpl. intros [] s1 w1 [S1 ->].
  eapply wp_mono; [|apply (with_source_lock_around _ _ (λ e w', shrinks w w' ∧ (e = None → w' = [])))].
  - intros r s2 w2 tr (e & -> & S2 & HP). exists e. split_and!; [done|by etrans|apply HP..].
  - intros s2 S2. eapply wp_mono; [|apply unmount_locked_clears].
    + intros r s3 w3 tr (e & -> & S3 & HP). by exists e.
    + rewrite (proj1 S2), (proj1 S1). exact Hb.
Qed.

End PodMounterLaws.

#[export] Instance PodMounter_laws `{QuantityLib} `{TimeLib} `{MountLib} fuel m :
  MounterLaws (PodMounter fuel m).
Proof.
  split.
  - intros target s w. apply PM_Unmount_clears.
  - intros target s w [mounted err] s' w' (S & -> & Hm). exists mounted, err. split_and!; [done..|].
    by apply Hm.
Qed.
