(* ===== verification/PodSafety.v ===== *)
(** * Unmount, clean-up and repair: what they may take away

    [unmountAll] pops whole stacks; [Unmount] gives up a mount pod only with its
    last target; [cleanupSource] touches nothing a live pod uses; a pod rebuilt from
    the HFMount object is the pod [Mount] created. *)
From S2P Require Import Prelude GoStrings Sha256 GoTime GoErrors Unstructured Resources.
From S2P Require Import Names MountArgs Kube Effects MountInfo HFMount PodMounter.
From S2P Require Import PodMounterSpec PodLifecycle.

Local Open Scope Z_scope.

(** ** Specification *)

(** A kernel that counts the mounts stacked at each path: a detach pops one, and
    fails on a bare path. *)
Definition mount_kernel `{QuantityLib} : env (gmap string nat) := λ c s w,
  match c return ans c * mem * gmap string nat with
  | Unmount p _ =>
      match w !! p with
      | Some (S n) => (None, s, <[p := n]> w)
      | _ => (Some (Errno EINVAL), s, w)
      end
  | c => (idle c, s, w)
  end.

Definition depth (w : gmap string nat) (p : string) : nat := default 0%nat (w !! p).

Section Defs.
Context `{QuantityLib}.

(** Calls that give up a mount: deletions of pods and objects, and unmounts of any
    other path than [target]. *)
Definition gives_up (target : string) (c : call) : bool :=
  match c with
  | PodDelete _ _ | CrdDelete _ => true
  | Unmount p _ => negb (String.eqb p target)
  | _ => false
  end.

(** Unmounts and removals. *)
Definition takes_away (c : call) : option string :=
  match c with Unmount p _ => Some p | Remove p => Some p | _ => None end.

Definition in_use (s : mem) (target source_ : string) : Prop :=
  ∃ t, t ≠ target ∧ binds s !! t = Some source_.
End Defs.

(** The pod a bind belongs to is live, or cannot be told from its path. *)
Definition spared (live : gset string) (ref : string) : Prop :=
  podUIDFromTarget ref = ""%string ∨ podUIDFromTarget ref ∈ live.

Section Answers.
Context `{QuantityLib}.

(** The answers to [getMountRefs(p)] and the successful lists of the pods of all
    namespaces, read off a trace. *)
Definition ref_answer (p : string) (ev : event) : option (list string * option gerror) :=
  match ev with Ev c a =>
    match c return ans c → option (list string * option gerror) with
    | GetMountRefs q => λ a, if String.eqb q p then Some a else None
    | _ => λ _, None
    end a
  end.

Definition pod_answer (ev : event) : option (list Pod) :=
  match ev with Ev c a =>
    match c return ans c → option (list Pod) with
    | PodList "" _ _ => λ a, match a with Ok pods => Some pods | Err _ => None end
    | _ => λ _, None
    end a
  end.

(** As far as the run could tell, the bind may belong to a live pod: its path names
    no pod, or every list it got has a pod of that UID that is not terminal. *)
Definition may_live (tr : list event) (ref : string) : Prop :=
  podUIDFromTarget ref = ""%string ∨
  ∀ pods, pods ∈ omap pod_answer tr →
    ∃ p, p ∈ pods ∧ isPodTerminal p = false ∧ PUID p = podUIDFromTarget ref.

(** A check found nothing mounted at the bind, or the path gone. *)
Definition confirmed_gone (ref : string) (tr : list event) : Prop :=
  ∃ err, Ev (IsMountPoint ref) (false, err) ∈ tr ∧ ∀ e, err = Some e → IsNotExist e = true.

(** None of the references may be live, and each was confirmed gone. *)
Definition all_gone (refs : list string) (tr : list event) : Prop :=
  ∀ ref, ref ∈ refs → ¬ may_live tr ref ∧ confirmed_gone ref tr.

Lemma confirmed_gone_mono ref tr tr' : tr ⊆ tr' → confirmed_gone ref tr → confirmed_gone ref tr'.
Proof. intros Hs (err & Hin & He). exists err. auto. Qed.

Definition no_listing (c : call) : Prop :=
  match c with GetMountRefs _ | PodList _ _ _ => False | _ => True end.
End Answers.

(** ** unmountAll *)

Section UnmountAll.
Context `{QuantityLib}.

Lemma unmount_loop_run n path s w :
  let o := run mount_kernel (unmount_loop n path) s w in
  o_res o = Done tt ∧ o_mem o = s ∧
  (∀ p, depth (o_world o) p = if decide (p = path) then (depth w p - n)%nat else depth w p) ∧
  length (o_trace o) = Nat.min n (S (depth w path)).
Proof.
  revert w. induction n as [|n IH]; intros w; simpl.
  { split_and!; try done. intros p. case_decide; [lia|done]. }
  destruct (w !! path) as [[|d]|] eqn:E; simpl.
  - assert (depth w path = 0%nat) as Hd by (unfold depth; by rewrite E). rewrite Hd.
    split_and!; try done; [|lia]. intros p. case_decide; [subst; lia|done].
  - assert (depth w path = S d) as Hd by (unfold depth; by rewrite E).
    destruct (IH (<[path := d]> w)) as (H1 & H2 & H3 & H4). split_and!; [done..| |].
    + intros p. rewrite H3. case_decide as Hp.
      * subst. rewrite Hd. unfold depth. rewrite lookup_insert_eq. simpl. lia.
      * unfold depth. by rewrite lookup_insert_ne.
    + rewrite H4, Hd. unfold depth. rewrite lookup_insert_eq. simpl. lia.
  - assert (depth w path = 0%nat) as Hd by (unfold depth; by rewrite E). rewrite Hd.
    split_and!; try done; [|lia]. intros p. case_decide; [subst; lia|done].
Qed.

(** [unmountAll] pops the whole stack at a path, up to 32 layers, touches no
    other path, and stops at the first refusal: a stack of [d] mounts takes
    [min 32 (d + 1)] detaches and leaves [d - 32]. *)
Theorem unmountAll_pops path s w :
  let o := run mount_kernel (unmountAll path) s w in
  o_res o = Done tt ∧ o_mem o = s ∧
  (∀ p, depth (o_world o) p = if decide (p = path) then (depth w p - 32)%nat else depth w p) ∧
  length (o_trace o) = Nat.min 32 (S (depth w path)).
Proof. apply unmount_loop_run. Qed.

Lemma unmountAll_emits P path : (∀ d, P (Unmount path d)) → emits P (unmountAll path).
Proof.
  intros HP. unfold unmountAll. generalize 32%nat. induction n as [|n IH]; [done|]. simpl.
  split; [apply HP|]. intros [e|]; simpl; [done|apply IH].
Qed.
End UnmountAll.

(** ** Unmount *)

Section Unmount.
Context `{QuantityLib} `{TimeLib} `{MountLib} {W : Type}.
Variable m : PMConfig.

Definition keeps (target : string) (c : call) : Prop := gives_up target c = false.

Lemma unmountAll_simple (P : call → Prop) path : (∀ d, P (Unmount path d)) → simple P (unmountAll path).
Proof.
  intros HP. unfold unmountAll. generalize 32%nat. induction n as [|n IH]; [done|]. simpl.
  split; [apply HP|]. intros [e|]; simpl; [done|apply IH].
Qed.

(** [removeWorkload] cannot panic: an object without a spec has no workloads. *)
Lemma removeWorkload_simple (P : call → Prop) name target :
  P (CrdGet name) → (∀ o, P (CrdUpdate name o)) → simple P (removeWorkload name target).
Proof.
  intros Hg Hu. unfold removeWorkload, retryOnConflict. generalize 0. generalize 5%nat.
  induction n as [|n IH]; intros count; simpl; [done|].
  split; [done|]. intros [o|e]; simpl; [|done].
  unfold store_remaining. destruct (_ =? _)%nat eqn:El; simpl; [done|].
  destruct (spec_of o) as [sp|] eqn:Es; simpl; [|done].
  split; [done|]. intros [e|]; simpl; [|done]. destruct (has_reason Conflict e); simpl; [|done]. apply IH.
Qed.

(** The teardown of a source: its mounts, then its pod, its object, and [last]
    (its directory); nothing else is given up. *)
Definition torn_down (target src id : string) (last : list call) (tr : list call) : Prop :=
  ∃ tr1 tr2 tr3,
    tr = tr1 ++ (Unmount src true :: tr2) ++
      [PodDelete (namespace m) (mount_pod_name id); CrdDelete (hfMountName id)] ++ last ++ tr3 ∧
    Forall (keeps target) tr1 ∧ Forall (λ c, c = Unmount src true) tr2 ∧ Forall (keeps target) tr3.

(** What [Unmount] makes of [binds] and which calls it makes, given [binds] before.
    A tracked target gives its source up if it was the last one.  A target that is
    not tracked, as after a restart, gives up the source named after it if that is
    a mount; [binds] is not asked who else uses it. *)
Definition unmounted (target : string) (b : gmap string string) (r : res (option gerror))
    (b' : gmap string string) (tr : list event) : Prop :=
  match r with
  | Done (Some _) => b' = b ∧ Forall (keeps target) (calls tr)
  | Done None =>
      b' = delete target b ∧
      match b !! target with
      | Some src =>
          if bool_decide (map_Exists (λ _ src', src' = src) (delete target b))
          then Forall (keeps target) (calls tr)
          else torn_down target src (Base src) [Remove src] (calls tr)
      | None =>
          let src := source_dir (mountID target) in
          ∃ (mounted : bool) err, Ev (IsMountPoint src) (mounted, err) ∈ tr ∧
            if mounted then torn_down target src (mountID target) [] (calls tr)
            else Forall (keeps target) (calls tr)
      end
  | _ => False
  end.

Lemma torn_down_around target src id last a tr b :
  Forall (keeps target) a → Forall (keeps target) b →
  torn_down target src id last tr → torn_down target src id last (a ++ tr ++ b).
Proof.
  intros Ha Hb (a1 & a2 & a3 & -> & F1 & F2 & F3). exists (a ++ a1), a2, (a3 ++ b).
  split; [by repeat (rewrite <- app_assoc; simpl)|]. by rewrite !Forall_app.
Qed.

Lemma unmounted_around target b r b' tr1 tr tr2 :
  Forall (keeps target) (calls tr1) → Forall (keeps target) (calls tr2) →
  unmounted target b r b' tr → unmounted target b r b' (tr1 ++ tr ++ tr2).
Proof.
  intros H3 H4.
  assert (Hk : Forall (keeps target) (calls tr) → Forall (keeps target) (calls (tr1 ++ tr ++ tr2)))
    by (intros; unfold calls in *; by rewrite !fmap_app, !Forall_app).
  assert (Hd : ∀ src id last, torn_down target src id last (calls tr) →
    torn_down target src id last (calls (tr1 ++ tr ++ tr2))).
  { intros src id last Hx. unfold calls. rewrite !fmap_app. by apply torn_down_around. }
  destruct r as [[e|]| |]; simpl; try done.
  - intros [-> Hf]. split; [done|]. by apply Hk.
  - intros [-> Hs]. split; [done|]. destruct (b !! target) as [src|].
    + destruct (bool_decide _); auto.
    + destruct Hs as (mounted & err & Hin & Hs). exists mounted, err. split.
      * rewrite !elem_of_app. auto.
      * destruct mounted; auto.
Qed.

Lemma unmountAll_trace (path : string) s (w : W) :
  wp quiet (unmountAll path) s w (λ r s' _ tr, r = Done tt ∧ s' = s ∧
    ∃ tr', calls tr = Unmount path true :: tr' ∧ Forall (λ c, c = Unmount path true) tr').
Proof.
  unfold unmountAll. simpl. intros a s1 w1 ->.
  assert (∀ n, simple (λ c, c = Unmount path true) (unmount_loop n path)) as Hl.
  { induction n as [|n IH]; [done|]. simpl. split; [done|]. by intros [e|]. }
  destruct a as [e|]; [split_and!; try done; by exists []|].
  eapply wp_mono; [|apply (wp_simple _ (unmount_loop 31 path) s w1 (Hl 31%nat))].
  intros r s2 w2 tr ([[] ->] & -> & Hf). split_and!; try done. by exists (calls tr).
Qed.

Lemma crd_delete_simple (P : call → Prop) name : P (CrdDelete name) → simple P (crd_delete name).
Proof. intros HP. unfold crd_delete. split; [done|]. intros e. simpl. by destruct (IsNotFound e). Qed.

#[local] Opaque unmountAll crd_delete removeWorkload.

Lemma unmount_tracked_spec target src b b0 in_use_ s (w : W) :
  binds s = b → b0 !! target = Some src → b = delete target b0 →
  in_use_ = bool_decide (map_Exists (λ _ src', src' = src) b) →
  wp quiet (unmount_tracked m target src in_use_) s w (λ r s' _ tr,
    unmounted target b0 r (binds s') tr).
Proof.
  intros Hb Hsrc Eb Hu. unfold unmount_tracked, unmounted. rewrite Hsrc, <- Eb, <- Hu.
  destruct in_use_.
  - apply (wp_bind quiet (removeWorkload _ _)).
    eapply wp_mono; [|by apply (wp_simple (keeps target)), removeWorkload_simple].
    intros r s1 w1 tr ([x ->] & -> & Hf). simpl. split; [congruence|]. by rewrite app_nil_r.
  - apply (wp_bind quiet (unmountAll src)). eapply wp_mono; [|apply unmountAll_trace].
    intros r s1 w1 tr (-> & -> & tr' & Htr & Hf). simpl. intros x s2 w2 ->.
    apply (wp_bind quiet (crd_delete _)).
    eapply wp_mono; [|apply (wp_and quiet); [apply crd_delete_trace|
      by apply (wp_simple (λ _, True)), crd_delete_simple]].
    intros r s3 w3 tr3 [(y & z & -> & ->) (_ & -> & _)]. simpl.
    intros v s5 w5 ->. split; [congruence|].
    exists [], tr', []. unfold calls in *. rewrite fmap_app, Htr. split; [done|]. auto.
Qed.

Lemma unmount_untracked_spec target s (w : W) :
  binds s !! target = None →
  wp quiet (unmount_untracked m target) s w (λ r s' _ tr, unmounted target (binds s) r (binds s') tr).
Proof.
  intros Hn. unfold unmount_untracked, unmounted. rewrite Hn, delete_id by done. simpl.
  set (src := source_dir (mountID target)). intros [mounted err] s1 w1 ->. destruct mounted; simpl.
  2: { split; [done|]. exists false, err. split; [apply list_elem_of_here|]. by repeat constructor. }
  apply (wp_bind quiet (unmountAll _)). eapply wp_mono; [|apply unmountAll_trace].
  intros r s1 w2 tr (-> & -> & tr' & Htr & Hf). simpl. intros x s2 w3 ->.
  apply (wp_bind quiet (crd_delete _)).
  eapply wp_mono; [|apply (wp_and quiet); [apply crd_delete_trace|
    by apply (wp_simple (λ _, True)), crd_delete_simple]].
  intros r s3 w4 tr3 [(y & z & -> & ->) (_ & -> & _)]. simpl. split; [done|].
  exists true, err. split; [apply list_elem_of_here|].
  exists [IsMountPoint src], tr', []. unfold calls in *. simpl. rewrite fmap_app, Htr.
  split; [done|]. split_and!; [by repeat constructor|done|done].
Qed.

#[local] Opaque unmount_tracked unmount_untracked.

Lemma unmount_locked_spec target s (w : W) :
  wp quiet (unmount_locked m target) s w (λ r s' _ tr, unmounted target (binds s) r (binds s') tr).
Proof.
  unfold unmount_locked. apply (wp_bind quiet (unmountAll _)). eapply wp_mono; [|apply unmountAll_trace].
  intros r s1 w1 tr (-> & -> & tr' & Htr & Hf). simpl. intros err s2 w2 ->.
  assert (keeps target (Unmount target true)) as Hkt by (unfold keeps; simpl; by rewrite String.eqb_refl).
  assert (Forall (keeps target) (calls tr)) as Hk.
  { rewrite Htr. constructor; [done|]. eapply Forall_impl; [exact Hf|]. by intros ? ->. }
  assert (Hpre : ∀ evs, Forall (keeps target) (calls evs) → Forall (keeps target) (calls (tr ++ evs)))
    by (intros evs He; unfold calls in *; by rewrite fmap_app, Forall_app).
  destruct (fatal_remove err) as [e|]; simpl.
  { split; [done|]. apply Hpre. by repeat constructor. }
  intros [] s3 w3 ->.
  assert (Hfin : ∀ r s4 tr4, unmounted target (binds s) r (binds s4) tr4 →
    unmounted target (binds s) r (binds s4) (tr ++ Ev (Remove target) err :: Ev MuLock tt :: tr4)).
  { intros r s4 tr4 Hr.
    apply (unmounted_around target _ r _ (tr ++ [Ev (Remove target) err; Ev MuLock tt]) _ []) in Hr; [| |done].
    - by rewrite <- app_assoc, app_nil_r in Hr.
    - apply Hpre. by repeat constructor. }
  unfold untrack. destruct (binds s !! target) as [src|] eqn:Hs; simpl.
  - eapply wp_mono; [|by apply (unmount_tracked_spec target src (delete target (binds s)) (binds s))].
    intros r s4 w4 tr4 Hr. by apply Hfin.
  - eapply wp_mono; [|by apply unmount_untracked_spec]. intros r s4 w4 tr4 Hr. by apply Hfin.
Qed.

Lemma acquire_in_binds source s : binds (acquire_in source s).2 = binds s.
Proof. unfold acquire_in. by destruct (sourceLocks s !! source). Qed.

#[local] Opaque unmount_locked.

Lemma PM_Unmount_wp target s (w : W) :
  wp quiet (PM_Unmount m target) s w (λ r s' _ tr, unmounted target (binds s) r (binds s') tr).
Proof.
  unfold PM_Unmount, with_source_lock, acquireSourceLock, releaseSourceLock. simpl.
  intros [] s1 w1 -> [] s2 w2 ->.
  pose proof (acquire_in_binds (default (source_dir (mountID target)) (binds s !! target)) s) as Hb.
  destruct (acquire_in _ s) as [lk s2]. simpl in *. intros [] s3 w3 ->.
  apply (wp_bind quiet (unmount_locked m target)). eapply wp_mono; [|apply unmount_locked_spec].
  rewrite Hb. intros r s4 w4 tr Hr. unfold bind_post.
  destruct r as [x| |]; simpl; [|done..]. intros [] s5 w5 -> [] s6 w6 ->.
  apply (unmounted_around target _ _ _ [Ev MuLock tt; Ev MuLock tt; Ev (SrcLock lk) tt] _
    [Ev (SrcUnlock lk) tt; Ev MuLock tt]) in Hr; [exact Hr|by repeat constructor..].
Qed.

(** C10. [Unmount], when nobody else changes the shared maps meanwhile, forgets
    exactly its target, and only
    after the target directory is gone: an error leaves [binds] alone and gives up
    no pod, no object and no mount but the target's.  While another target is bound
    to the same source, nothing of the source is given up; with the last one, the
    source is unmounted first, then its pod, its object and its directory are
    deleted, in this order, and nothing else.  A target that was not tracked gives
    up the source named after it, in the same order and without its directory,
    exactly if the check of that source said it is mounted. *)
Theorem Unmount_gives_up_last (h : env W) target s w :
  env_ok quiet h →
  let o := run h (PM_Unmount m target) s w in
  unmounted target (binds s) (o_res o) (binds (o_mem o)) (o_trace o).
Proof. intros Hh. exact (run_wp _ _ _ _ _ _ Hh (PM_Unmount_wp target s w)). Qed.
End Unmount.

(** ** cleanupSource *)

Section CleanupSource.
Context `{QuantityLib} `{TimeLib} `{MountLib} {W : Type}.
Variable m : PMConfig.

Lemma no_listing_answers tr p :
  Forall no_listing (calls tr) → omap (ref_answer p) tr = [] ∧ omap pod_answer tr = [].
Proof.
  unfold calls. induction tr as [|[c a] tr IH]; [done|]. simpl.
  intros [Hc Ht]%Forall_cons. destruct (IH Ht) as [IH1 IH2]. by destruct c.
Qed.

#[local] Opaque unmountAll.

(** Only binds of the list whose pod is not live are unmounted; of the list, those
    that are not confirmed gone remain. *)
Definition dropped (live : gset string) (refs : list string) (r : res (list string))
    (tr : list event) : Prop :=
  Forall no_listing (calls tr) ∧
  (∀ c p, c ∈ calls tr → takes_away c = Some p → p ∈ refs ∧ ¬ spared live p) ∧
  ∀ alive, r = Done alive → ∀ ref, ref ∈ refs →
    ref ∈ alive ∨ (¬ spared live ref ∧ confirmed_gone ref tr).

(** Calls about one bind, of a pod that is not live. *)
Definition about (live : gset string) (ref : string) (tr : list event) : Prop :=
  Forall no_listing (calls tr) ∧
  ∀ c p, c ∈ calls tr → takes_away c = Some p → p = ref ∧ ¬ spared live ref.

Lemma about_app live ref tr tr' : about live ref tr → about live ref tr' → about live ref (tr ++ tr').
Proof.
  unfold about, calls. rewrite fmap_app, Forall_app. intros [N1 T1] [N2 T2]. split; [done|].
  intros c p [Hc|Hc]%elem_of_app; eauto.
Qed.

Lemma dropped_cons live ref refs tr0 r r' tr :
  about live ref tr0 → dropped live refs r tr →
  (∀ alive', r' = Done alive' → ∃ alive, r = Done alive ∧
     (∀ x, x ∈ alive → x ∈ alive') ∧
     (ref ∈ alive' ∨ (¬ spared live ref ∧ confirmed_gone ref tr0))) →
  dropped live (ref :: refs) r' (tr0 ++ tr).
Proof.
  intros [N0 T0] (N & T & A) Hr. unfold dropped, calls in *. rewrite fmap_app, Forall_app.
  split_and!; [done|done| |].
  - intros c p [Hc|Hc]%elem_of_app Hp.
    + destruct (T0 c p Hc Hp) as [-> ?]. split; [apply list_elem_of_here|done].
    + destruct (T c p Hc Hp). split; [by apply list_elem_of_further|done].
  - intros alive' Ha. destruct (Hr alive' Ha) as (alive & -> & Hsub & Href).
    intros x [->|Hx]%elem_of_cons.
    + destruct Href as [?|[? Hg]]; [by left|right]. split; [done|].
      eapply confirmed_gone_mono; [|exact Hg]. intros y. rewrite elem_of_app. auto.
    + destruct (A alive eq_refl x Hx) as [?|[? Hg]]; [left; auto|right]. split; [done|].
      eapply confirmed_gone_mono; [|exact Hg]. intros y. rewrite elem_of_app. auto.
Qed.

Lemma drop_loop_spec live refs (R : rely W) s w :
  wp R (drop_loop live refs) s w (λ r _ _ tr, dropped live refs r tr).
Proof.
  revert s w. induction refs as [|ref refs IH]; intros s w; simpl.
  { split_and!; [constructor|by intros c p ?%elem_of_nil|by intros ?? ref ?%elem_of_nil]. }
  assert (Hkeep : ∀ tr0, about live ref tr0 → ∀ s w,
    wp R (alive ← drop_loop live refs; mret (ref :: alive)) s w (λ r _ _ tr,
      dropped live (ref :: refs) r (tr0 ++ tr))).
  { intros tr0 Ab0 s0 w0. apply wp_bind. eapply wp_mono; [|apply IH].
    intros r s1 w1 tr Hd. unfold bind_post. destruct r as [alive| |]; simpl; rewrite ?app_nil_r;
      eapply dropped_cons; try done.
    intros alive' [= <-]. exists alive. split_and!; [done| |left; apply list_elem_of_here].
    intros x. apply list_elem_of_further. }
  assert (Hnil : about live ref []) by (split; [constructor|by intros c p ?%elem_of_nil]).
  destruct (String.eqb_spec (podUIDFromTarget ref) "") as [Hu|Hu]; simpl; [by apply (Hkeep [])|].
  case_bool_decide as Hl; simpl; [by apply (Hkeep [])|].
  assert (¬ spared live ref) as Hns by (intros [?|?]; done).
  apply (wp_bind R (unmountAll ref)).
  eapply wp_mono; [|apply (wp_emits R (λ c, no_listing c ∧ takes_away c = Some ref));
    [by apply unmountAll_emits|apply wp_true]].
  intros r s1 w1 tr1 [_ Hf]. unfold bind_post.
  assert (Ab1 : about live ref tr1).
  { split; [eapply Forall_impl; [exact Hf|by intros ? [? _]]|]. intros c p Hc Hp.
    rewrite Forall_forall in Hf. destruct (Hf c Hc) as [_ E]. split; [congruence|done]. }
  destruct r as [[]| |].
  2,3: rewrite <- (app_nil_r tr1); eapply (dropped_cons live ref refs tr1 Panicked); try done;
    (split_and!; [constructor|by intros c p ?%elem_of_nil|done]).
  simpl. intros [mounted err] s2 w2 _. set (ev := Ev (IsMountPoint ref) (mounted, err)).
  assert (Ab2 : about live ref (tr1 ++ [ev])).
  { apply about_app; [done|]. split; [by repeat constructor|]. by intros c p ->%list_elem_of_singleton. }
  destruct (mounted || _) eqn:Em.
  - eapply wp_mono; [|apply (Hkeep (tr1 ++ [ev])), Ab2].
    intros r s3 w3 tr Hr. cbv beta in Hr. by rewrite <- app_assoc in Hr.
  - apply orb_false_iff in Em as [-> Em]. simpl. intros [] s3 w3 _. eapply wp_mono; [|apply IH].
    intros r s4 w4 tr Hd.
    replace (tr1 ++ ev :: Ev MuLock tt :: tr) with ((tr1 ++ [ev; Ev MuLock tt]) ++ tr)
      by by rewrite <- app_assoc.
    eapply dropped_cons; [|exact Hd|].
    + apply about_app; [done|]. split; [by repeat constructor|].
      by intros c p [->| ->%list_elem_of_singleton]%elem_of_cons.
    + intros alive ->. exists alive. split_and!; [done|done|]. right. split; [done|].
      exists err. split; [apply elem_of_app; right; apply list_elem_of_here|].
      intros e ->. by apply negb_false_iff.
Qed.

Lemma spared_list pods ref :
  spared (list_to_set (PUID <$> List.filter (λ p, negb (isPodTerminal p)) pods)) ref ↔
  podUIDFromTarget ref = ""%string ∨
  ∃ p, p ∈ pods ∧ isPodTerminal p = false ∧ PUID p = podUIDFromTarget ref.
Proof.
  unfold spared. apply or_iff_compat_l. rewrite elem_of_list_to_set, list_elem_of_fmap. split.
  - intros (p & E & Hp). apply list_elem_of_In, filter_In in Hp as [Hp Ht]. exists p.
    rewrite negb_true_iff in Ht. by rewrite list_elem_of_In.
  - intros (p & Hp & Ht & E). exists p. split; [done|]. apply list_elem_of_In, filter_In.
    by rewrite <- list_elem_of_In, Ht.
Qed.

Lemma may_live_listed pods tr ref :
  Forall no_listing (calls tr) →
  may_live (Ev (PodList "" "" ("spec.nodeName=" +++ nodeID m)) (Ok pods) :: tr) ref ↔
  spared (list_to_set (PUID <$> List.filter (λ p, negb (isPodTerminal p)) pods)) ref.
Proof.
  intros Hn. destruct (no_listing_answers tr "" Hn) as [_ Hp]. rewrite spared_list. unfold may_live.
  assert (omap pod_answer (Ev (PodList "" "" ("spec.nodeName=" +++ nodeID m)) (Ok pods) :: tr) = [pods]) as ->
    by (transitivity (pods :: omap pod_answer tr); [reflexivity|by rewrite Hp]).
  apply or_iff_compat_l.
  split; [intros Hx; apply Hx, list_elem_of_here|by intros Hx ? ->%list_elem_of_singleton].
Qed.

Definition no_refs (c : call) : Prop := match c with GetMountRefs _ => False | _ => True end.

(** What [dropDeadPodRefs] unmounts and what it keeps. *)
Lemma dropDeadPodRefs_spec refs (R : rely W) s w :
  wp R (dropDeadPodRefs m refs) s w (λ r _ _ tr,
    Forall no_refs (calls tr) ∧
    (∀ c p, c ∈ calls tr → takes_away c = Some p → p ∈ refs ∧ ¬ may_live tr p) ∧
    ∀ alive, r = Done alive → ∀ ref, ref ∈ refs →
      ref ∈ alive ∨ (¬ may_live tr ref ∧ confirmed_gone ref tr)).
Proof.
  unfold dropDeadPodRefs. destruct refs as [|r0 refs'] eqn:Er.
  { simpl. split_and!; [constructor|by intros c p ?%elem_of_nil|by intros ?? ref ?%elem_of_nil]. }
  rewrite <- Er. clear Er r0 refs'. unfold listLivePodUIDsOnNode. simpl. intros [pods|e] s1 w1 _; simpl.
  2: { split_and!; [by repeat constructor| |].
       - by intros c p ->%list_elem_of_singleton.
       - intros alive [= <-]. auto. }
  eapply wp_mono; [|apply drop_loop_spec]. intros r s2 w2 tr (Hn & Ht & Ha).
  pose proof (λ ref, may_live_listed pods tr ref Hn) as Hml. split_and!.
  - constructor; [done|]. eapply Forall_impl; [exact Hn|]. by intros [].
  - intros c p [->|Hc]%elem_of_cons Htk; [done|]. rewrite Hml. by eapply Ht.
  - intros alive Hr ref Href. rewrite Hml. destruct (Ha alive Hr ref Href) as [?|[? Hg]]; [by left|right].
    split; [done|]. eapply confirmed_gone_mono; [|exact Hg]. intros y. apply list_elem_of_further.
Qed.

(** The same for the entries of [binds], when nobody else changes them. *)
Definition forgets_dead (refs : list string) (tr : list event) (b b' : gmap string string) : Prop :=
  ∀ t, b' !! t ≠ b !! t → b' !! t = None ∧ t ∈ refs ∧ ¬ may_live tr t ∧ confirmed_gone t tr.

Lemma drop_loop_binds live refs s (w : W) :
  wp quiet (drop_loop live refs) s w (λ r s' _ tr, ∀ t, binds s' !! t ≠ binds s !! t →
    binds s' !! t = None ∧ t ∈ refs ∧ ¬ spared live t ∧ confirmed_gone t tr).
Proof.
  revert s w. induction refs as [|ref refs IH]; intros s w; simpl; [done|].
  assert (Hkeep : ∀ tr0 (w : W), wp quiet (alive ← drop_loop live refs; mret (ref :: alive)) s w
    (λ r s' _ tr, ∀ t, binds s' !! t ≠ binds s !! t →
       binds s' !! t = None ∧ t ∈ ref :: refs ∧ ¬ spared live t ∧ confirmed_gone t (tr0 ++ tr))).
  { intros tr0 w0. apply wp_bind. eapply wp_mono; [|apply IH]. intros r s1 w1 tr Hb. unfold bind_post.
    assert (Hr : ∀ t, binds s1 !! t ≠ binds s !! t →
       binds s1 !! t = None ∧ t ∈ ref :: refs ∧ ¬ spared live t ∧ confirmed_gone t (tr0 ++ tr)).
    { intros t (? & ? & ? & Hg)%Hb. split_and!; [done|by apply list_elem_of_further|done|].
      eapply confirmed_gone_mono; [|exact Hg]. intros y. rewrite elem_of_app. auto. }
    destruct r; simpl; rewrite ?app_nil_r; exact Hr. }
  destruct (String.eqb_spec (podUIDFromTarget ref) "") as [Hu|Hu]; simpl; [apply (Hkeep [])|].
  case_bool_decide as Hl; simpl; [apply (Hkeep [])|].
  assert (¬ spared live ref) as Hns by (intros [?|?]; done).
  apply (wp_bind quiet (unmountAll ref)). eapply wp_mono; [|apply unmountAll_trace].
  intros r s1 w1 tr1 (-> & -> & _). simpl. intros [mounted err] s2 w2 ->.
  destruct (mounted || _) eqn:Em.
  - eapply wp_mono; [|apply (Hkeep (tr1 ++ [Ev (IsMountPoint ref) (mounted, err)]))].
    intros r s3 w3 tr Hr. cbv beta in Hr. by rewrite <- app_assoc in Hr.
  - apply orb_false_iff in Em as [-> Em]. simpl. intros [] s3 w3 ->. eapply wp_mono; [|apply IH].
    intros r s4 w4 tr Hb t Ht. destruct (decide (binds s4 !! t = delete ref (binds s) !! t)) as [E|E].
    + destruct (decide (ref = t)) as [<-|Hne]; [|by rewrite lookup_delete_ne in E].
      rewrite E, lookup_delete_eq. split_and!; [done|apply list_elem_of_here|done|].
      exists err. split; [apply elem_of_app; right; apply list_elem_of_here|].
      intros e ->. by apply negb_false_iff.
    + destruct (Hb t E) as (? & ? & ? & Hg). split_and!; [done|by apply list_elem_of_further|done|].
      eapply confirmed_gone_mono; [|exact Hg]. intros y Hy. apply elem_of_app. right.
      by do 2 apply list_elem_of_further.
Qed.

Lemma dropDeadPodRefs_binds refs s (w : W) :
  wp quiet (dropDeadPodRefs m refs) s w (λ _ s' _ tr, forgets_dead refs tr (binds s) (binds s')).
Proof.
  unfold dropDeadPodRefs. destruct refs as [|r0 refs'] eqn:Er; [done|].
  rewrite <- Er. clear Er r0 refs'. unfold listLivePodUIDsOnNode. simpl. intros [pods|e] s1 w1 ->; [|done].
  simpl. eapply wp_mono; [|apply wp_and; [apply drop_loop_spec|apply drop_loop_binds]].
  intros r s2 w2 tr [(Hn & _) Hb] t (? & ? & ? & Hg)%Hb. rewrite (may_live_listed pods tr t Hn).
  split_and!; try done. eapply confirmed_gone_mono; [|exact Hg]. intros y. apply list_elem_of_further.
Qed.

Lemma cleanup_unreferenced_emits mountPath :
  emits no_listing (cleanup_unreferenced mountPath).
Proof.
  unfold cleanup_unreferenced. go_emits ltac:(exact I); by apply unmountAll_emits.
Qed.

Lemma foldr_delete_lookup (ts : list string) (b : gmap string string) t :
  foldr delete b ts !! t = if decide (t ∈ ts) then None else b !! t.
Proof.
  induction ts as [|x ts IH]; cbn [foldr]; [done|].
  destruct (decide (x = t)) as [->|Hne].
  - rewrite lookup_delete_eq. destruct (decide (t ∈ t :: ts)) as [|Hn]; [done|].
    destruct Hn. apply list_elem_of_here.
  - rewrite lookup_delete_ne, IH by done. rewrite (decide_ext (t ∈ ts) (t ∈ x :: ts)); [done|].
    rewrite elem_of_cons. naive_solver.
Qed.

Lemma targets_of_elem mountPath s t : t ∈ targets_of mountPath s → binds s !! t = Some mountPath.
Proof.
  unfold targets_of. intros ([t' src] & Hin & Heq)%list_elem_of_omap. apply elem_of_map_to_list in Hin.
  simpl in *. destruct (String.eqb_spec src mountPath) as [->|]; [|done]. by injection Heq as ->.
Qed.

Lemma cleanup_unreferenced_binds mountPath s (w : W) :
  wp quiet (cleanup_unreferenced mountPath) s w (λ _ s' _ _, ∀ t, binds s' !! t ≠ binds s !! t →
    binds s' !! t = None ∧ binds s !! t = Some mountPath).
Proof.
  unfold cleanup_unreferenced. apply (wp_bind quiet (unmountAll _)).
  eapply wp_mono; [|apply unmountAll_trace]. intros r s1 w1 tr (-> & -> & _). simpl.
  intros code s2 w2 E2 [] s3 w3 E3. unfold quiet in E2, E3. subst s2 s3.
  set (ts := range_order code (targets_of mountPath s)).
  assert (Hin : ∀ t, t ∈ ts → binds s !! t = Some mountPath).
  { intros t Ht. by apply elem_of_range_order, targets_of_elem in Ht. }
  assert (Hb : ∀ t, foldr delete (binds s) ts !! t ≠ binds s !! t →
    foldr delete (binds s) ts !! t = None ∧ binds s !! t = Some mountPath).
  { intros t. rewrite foldr_delete_lookup. destruct (decide _) as [Ht|]; [|done]. auto. }
  apply (wp_bind quiet (for_each ts unmountAll)).
  eapply wp_mono; [|apply (wp_simple (λ _, True)), simple_for_each; intros; by apply unmountAll_simple].
  intros r s4 w4 tr4 ([[] ->] & -> & _). simpl. intros x s5 w5 ->. exact Hb.
Qed.

#[local] Opaque cleanup_unreferenced dropDeadPodRefs.

(** A trace in which [cleanupSource] took away only what no live pod uses: it asked
    once for the references; what it unmounted or removed is a reference that is
    not live, unless all of them were confirmed gone. *)
Definition spares (mountPath : string) (tr : list event) : Prop :=
  ∃ refs err, omap (ref_answer mountPath) tr = [(refs, err)] ∧
    ∀ c p, c ∈ calls tr → takes_away c = Some p →
      err = None ∧ ((p ∈ refs ∧ ¬ may_live tr p) ∨ all_gone refs tr).

(** And it forgot only binds that are gone themselves, or all those of the source
    once every reference was. *)
Definition forgets_gone (mountPath : string) (tr : list event) (b b' : gmap string string) : Prop :=
  ∃ refs err, omap (ref_answer mountPath) tr = [(refs, err)] ∧
    ∀ t, b' !! t ≠ b !! t → b' !! t = None ∧ err = None ∧
      ((t ∈ refs ∧ ¬ may_live tr t ∧ confirmed_gone t tr) ∨
       (b !! t = Some mountPath ∧ all_gone refs tr)).

Lemma elem_calls_app c a b : c ∈ calls (a ++ b) ↔ c ∈ calls a ∨ c ∈ calls b.
Proof. unfold calls. by rewrite fmap_app, elem_of_app. Qed.

(** Listings read the same with calls around them that list nothing. *)
Section Around.
Context (a tr b : list event).
Hypotheses (Ha : Forall no_listing (calls a)) (Hb : Forall no_listing (calls b)).

Lemma may_live_around ref : may_live (a ++ tr ++ b) ref ↔ may_live tr ref.
Proof.
  unfold may_live. rewrite !omap_app, (proj2 (no_listing_answers a "" Ha)),
    (proj2 (no_listing_answers b "" Hb)), app_nil_r. done.
Qed.

Lemma ref_answer_around p : omap (ref_answer p) (a ++ tr ++ b) = omap (ref_answer p) tr.
Proof.
  rewrite !omap_app, (proj1 (no_listing_answers a p Ha)), (proj1 (no_listing_answers b p Hb)).
  by rewrite app_nil_r.
Qed.

Lemma confirmed_gone_around ref : confirmed_gone ref tr → confirmed_gone ref (a ++ tr ++ b).
Proof. apply confirmed_gone_mono. intros y. rewrite !elem_of_app. auto. Qed.

Lemma all_gone_around refs : all_gone refs tr → all_gone refs (a ++ tr ++ b).
Proof.
  intros Hg ref Href. rewrite may_live_around. destruct (Hg ref Href).
  split; [done|by apply confirmed_gone_around].
Qed.

Lemma forgets_gone_around mountPath m0 m1 :
  forgets_gone mountPath tr m0 m1 → forgets_gone mountPath (a ++ tr ++ b) m0 m1.
Proof.
  intros (refs & err & E & Hf). exists refs, err. rewrite ref_answer_around. split; [done|].
  intros t Ht. destruct (Hf t Ht) as (Hn & He & Hor). split_and!; [done|done|].
  rewrite may_live_around. destruct Hor as [(? & ? & ?)|[? ?]]; [left|right].
  - split_and!; [done|done|by apply confirmed_gone_around].
  - split; [done|by apply all_gone_around].
Qed.

Lemma spares_around mountPath :
  Forall (λ c, takes_away c = None) (calls a) → Forall (λ c, takes_away c = None) (calls b) →
  spares mountPath tr → spares mountPath (a ++ tr ++ b).
Proof.
  intros Ta Tb (refs & err & E & Hsp). exists refs, err. rewrite ref_answer_around. split; [done|].
  intros c p Hc Hp. rewrite Forall_forall in Ta, Tb. rewrite !elem_calls_app in Hc.
  assert (c ∈ calls tr) as Htr by (destruct Hc as [Hc|[Hc|Hc]]; [specialize (Ta c Hc)|done|specialize (Tb c Hc)]; congruence).
  destruct (Hsp c p Htr Hp) as [He Hor]. split; [done|]. rewrite may_live_around.
  destruct Hor; [by left|right]. by apply all_gone_around.
Qed.
End Around.

(** The section under the source's lock. *)
Definition cleanup_body (mountPath : string) : prog unit :=
  '(mountRefs, refErr) ← call_ (GetMountRefs mountPath);
  match refErr with
  | Some _ => mret tt
  | None =>
      mountRefs ← dropDeadPodRefs m mountRefs;
      match mountRefs with
      | _ :: _ => call_ (Go (TTryHealSource mountPath))
      | [] => cleanup_unreferenced mountPath
      end
  end.

Lemma one_listing mountPath refs err tr :
  Forall no_refs (calls tr) →
  omap (ref_answer mountPath) (Ev (GetMountRefs mountPath) (refs, err) :: tr) = [(refs, err)].
Proof.
  intros Hn. transitivity ((refs, err) :: omap (ref_answer mountPath) tr).
  - simpl. by rewrite String.eqb_refl.
  - f_equal. revert Hn. unfold calls. induction tr as [|[c x] tr IH]; [done|]. simpl.
    intros [Hc Ht]%Forall_cons. rewrite <- (IH Ht). by destruct c.
Qed.

Lemma listing_calm x : Forall no_listing (calls x) → Forall no_refs (calls x).
Proof. intros Hx. eapply Forall_impl; [exact Hx|]. by intros []. Qed.

Lemma refs_app x y : Forall no_refs (calls x) → Forall no_listing (calls y) → Forall no_refs (calls (x ++ y)).
Proof. intros Hx Hy%listing_calm. unfold calls in *. by rewrite fmap_app, Forall_app. Qed.

Lemma cleanup_body_spares mountPath (R : rely W) s w :
  wp R (cleanup_body mountPath) s w (λ _ _ _ tr, spares mountPath tr).
Proof.
  intros [refs err] s2 w2 _. set (ev := Ev (GetMountRefs mountPath) (refs, err)).
  destruct err as [e|]; simpl.
  { exists refs, (Some e). split; [by apply (one_listing _ _ _ [])|]. by intros c p ->%list_elem_of_singleton. }
  apply (wp_bind R (dropDeadPodRefs m refs)). eapply wp_mono; [|apply dropDeadPodRefs_spec].
  intros r s3 w3 tr (Hn & Ht & Hal). unfold bind_post.
  assert (Hml : ∀ tr', Forall no_listing (calls tr') → ∀ ref, may_live (ev :: tr ++ tr') ref ↔ may_live tr ref).
  { intros tr' Hn' ref. transitivity (may_live (tr ++ tr') ref); [by unfold may_live|].
    by apply (may_live_around []). }
  assert (Hfin : ∀ tr', Forall no_listing (calls tr') →
    (∀ c p, c ∈ calls tr' → takes_away c = Some p → all_gone refs (ev :: tr ++ tr')) →
    spares mountPath (ev :: tr ++ tr')).
  { intros tr' Hn' Ht'. exists refs, None. split; [by apply one_listing, refs_app|].
    intros c p [->|[Hc|Hc]%elem_calls_app]%elem_of_cons Hp; [done| |].
    - split; [done|]. left. rewrite Hml by done. by eapply Ht.
    - split; [done|]. right. by eapply Ht'. }
  destruct r as [[|x alive]| |].
  - eapply wp_mono; [|apply (wp_emits R no_listing); [apply cleanup_unreferenced_emits|apply wp_true]].
    intros r s4 w4 tr' [_ Hn']. apply Hfin; [done|]. intros _ _ _ _ ref Href. rewrite Hml by done.
    destruct (Hal [] eq_refl ref Href) as [?%elem_of_nil|[? Hg]]; [done|]. split; [done|].
    eapply confirmed_gone_mono; [|exact Hg]. intros y Hy. right. apply elem_of_app. by left.
  - simpl. intros u s4 w4 _. apply (Hfin [_]); [by repeat constructor|]. by intros c p ->%list_elem_of_singleton.
  - rewrite <- (app_nil_r tr). apply Hfin; [constructor|by intros c p ?%elem_of_nil].
  - rewrite <- (app_nil_r tr). apply Hfin; [constructor|by intros c p ?%elem_of_nil].
Qed.

Lemma cleanup_body_forgets mountPath s (w : W) :
  wp quiet (cleanup_body mountPath) s w (λ _ s' _ tr, forgets_gone mountPath tr (binds s) (binds s')).
Proof.
  intros [refs err] s2 w2 ->. set (ev := Ev (GetMountRefs mountPath) (refs, err)).
  destruct err as [e|]; simpl.
  { exists refs, (Some e). by split; [apply (one_listing _ _ _ [])|]. }
  apply (wp_bind quiet (dropDeadPodRefs m refs)).
  eapply wp_mono; [|apply wp_and; [apply dropDeadPodRefs_spec|apply dropDeadPodRefs_binds]].
  intros r s3 w3 tr [(Hn & _ & Hal) Hb]. unfold bind_post.
  assert (Hml : ∀ tr', Forall no_listing (calls tr') → ∀ ref, may_live (ev :: tr ++ tr') ref ↔ may_live tr ref).
  { intros tr' Hn' ref. transitivity (may_live (tr ++ tr') ref); [by unfold may_live|].
    by apply (may_live_around []). }
  assert (Hcg : ∀ tr' ref, confirmed_gone ref tr → confirmed_gone ref (ev :: tr ++ tr')).
  { intros tr' ref. apply confirmed_gone_mono. intros y Hy. right. apply elem_of_app. by left. }
  assert (Hfin : ∀ tr' b', Forall no_listing (calls tr') →
    (∀ t, b' !! t ≠ binds s3 !! t → b' !! t = None ∧ binds s3 !! t = Some mountPath ∧
       all_gone refs (ev :: tr ++ tr')) →
    forgets_gone mountPath (ev :: tr ++ tr') (binds s) b').
  { intros tr' b' Hn' Hb'. exists refs, None. split; [by apply one_listing, refs_app|]. intros t Hne.
    destruct (decide (b' !! t = binds s3 !! t)) as [E|E].
    - rewrite E in *. destruct (Hb t Hne) as (? & ? & ? & ?). split_and!; [done|done|]. left.
      rewrite Hml by done. split_and!; [done|done|by apply Hcg].
    - destruct (Hb' t E) as (? & E3 & ?). split_and!; [done|done|].
      destruct (decide (binds s3 !! t = binds s !! t)) as [E'|E'].
      + right. by rewrite <- E'.
      + destruct (Hb t E') as (? & _). congruence. }
  destruct r as [[|x alive]| |].
  - eapply wp_mono; [|apply wp_and; [apply (wp_emits quiet no_listing);
      [apply cleanup_unreferenced_emits|apply wp_true]|apply cleanup_unreferenced_binds]].
    intros r s4 w4 tr' [[_ Hn'] Hb4]. apply Hfin; [done|]. intros t Ht. destruct (Hb4 t Ht).
    split_and!; [done|done|]. intros ref Href. rewrite Hml by done.
    destruct (Hal [] eq_refl ref Href) as [?%elem_of_nil|[? Hg]]; [done|]. split; [done|by apply Hcg].
  - simpl. intros u s4 w4 ->. by apply (Hfin [_]); [repeat constructor|].
  - rewrite <- (app_nil_r tr). by apply Hfin.
  - rewrite <- (app_nil_r tr). by apply Hfin.
Qed.

Lemma lock_tail_frame {A} (r : res A) lk :
  Forall no_listing (calls (lock_tail r lk)) ∧ Forall (λ c, takes_away c = None) (calls (lock_tail r lk)).
Proof. destruct r; split; by repeat constructor. Qed.

Lemma cleanupSource_wp mountPath (R : rely W) s w :
  wp R (cleanupSource m mountPath) s w (λ _ _ _ tr, spares mountPath tr).
Proof.
  eapply wp_mono; [|apply (with_source_lock_wp R mountPath (cleanup_body mountPath)
    (λ _ tr, spares mountPath tr)); intros; apply cleanup_body_spares].
  intros r s1 w1 tr (lk & tr' & Hsp & ->). destruct (lock_tail_frame r lk).
  by apply (spares_around [Ev MuLock tt; Ev (SrcLock lk) tt]); [repeat constructor|done|repeat constructor| |].
Qed.

Lemma cleanupSource_folded mountPath :
  cleanupSource m mountPath = with_source_lock mountPath (cleanup_body mountPath).
Proof. done. Qed.

#[local] Opaque cleanup_body.

Lemma cleanupSource_binds mountPath s (w : W) :
  wp quiet (cleanupSource m mountPath) s w (λ _ s' _ tr, forgets_gone mountPath tr (binds s) (binds s')).
Proof.
  rewrite cleanupSource_folded.
  unfold with_source_lock, acquireSourceLock, releaseSourceLock. simpl. intros [] s1 w1 ->.
  pose proof (acquire_in_binds mountPath s) as Hb. destruct (acquire_in mountPath s) as [lk s2].
  simpl in *. intros [] s3 w3 ->. apply (wp_bind quiet (cleanup_body mountPath)).
  eapply wp_mono; [|apply cleanup_body_forgets]. rewrite Hb. intros r s4 w4 tr Hf. unfold bind_post.
  destruct r as [x| |]; simpl.
  - intros [] s5 w5 -> [] s6 w6 ->.
    by apply (forgets_gone_around [Ev MuLock tt; Ev (SrcLock lk) tt] tr [Ev (SrcUnlock lk) tt; Ev MuLock tt]);
      [repeat constructor|repeat constructor|].
  - rewrite <- (app_nil_r tr).
    by apply (forgets_gone_around [Ev MuLock tt; Ev (SrcLock lk) tt] tr []); [repeat constructor|constructor|].
  - rewrite <- (app_nil_r tr).
    by apply (forgets_gone_around [Ev MuLock tt; Ev (SrcLock lk) tt] tr []); [repeat constructor|constructor|].
Qed.

(** C2. Clean-up spares live pods: for every run of [cleanupSource] and whatever
    else happens on the node, the run asks once for the references to the source,
    and unmounts or removes only references whose pod is not on the node any more,
    until every reference is one of these and was confirmed gone; only then it
    touches anything else.  If the references or the pods cannot be listed it
    touches nothing.  The same holds of the binds it forgets, when nobody else
    changes them meanwhile: a forgotten bind was confirmed gone itself, or is one
    of the source's after all its references were. *)
Theorem cleanupSource_spares_live (h : env W) mountPath s w :
  let o := run h (cleanupSource m mountPath) s w in
  spares mountPath (o_trace o) ∧
  (env_ok quiet h → forgets_gone mountPath (o_trace o) (binds s) (binds (o_mem o))).
Proof.
  split.
  - exact (run_wp any h _ _ _ _ (env_ok_any h) (cleanupSource_wp mountPath any s w)).
  - intros Hh. exact (run_wp _ _ _ _ _ _ Hh (cleanupSource_binds mountPath s w)).
Qed.
End CleanupSource.

(** ** A concrete run *)

#[local] Existing Instance z_quantities.

Definition two_targets : mem :=
  set_binds (λ _, {["/t1"%string := "/src"%string; "/t2"%string := "/src"%string]}) empty_mem.

Lemma mount_kernel_quiet : env_ok quiet (@mount_kernel z_quantities).
Proof. intros c s w. unfold quiet, mount_kernel. destruct c; try reflexivity. by destruct (w !! path) as [[|n]|]. Qed.

Definition demo_unmount (s : mem) (target : string) : outcome (option gerror) (gmap string nat) :=
  run mount_kernel (PM_Unmount demo_config target) s {["/t1"%string := 2%nat; "/src"%string := 1%nat]}.

(** The first target goes alone; with the second the source is torn down. *)
Example Unmount_gives_up_last_witness :
  Forall (keeps "/t1") (calls (o_trace (demo_unmount two_targets "/t1"))) ∧
  torn_down demo_config "/t2" "/src" "src" [Remove "/src"]
    (calls (o_trace (demo_unmount (o_mem (demo_unmount two_targets "/t1")) "/t2"))).
Proof.
  assert (o_res (demo_unmount two_targets "/t1") = Done None) as R1 by (vm_compute; reflexivity).
  assert (o_res (demo_unmount (o_mem (demo_unmount two_targets "/t1")) "/t2") = Done None) as R2
    by (vm_compute; reflexivity).
  pose proof (Unmount_gives_up_last demo_config mount_kernel "/t1" two_targets
    {["/t1"%string := 2%nat; "/src"%string := 1%nat]} mount_kernel_quiet) as H1.
  cbv zeta in H1. change (run _ _ _ _) with (demo_unmount two_targets "/t1") in H1. rewrite R1 in H1.
  destruct H1 as [B1 H1].
  pose proof (Unmount_gives_up_last demo_config mount_kernel "/t2" (o_mem (demo_unmount two_targets "/t1"))
    {["/t1"%string := 2%nat; "/src"%string := 1%nat]} mount_kernel_quiet) as H2.
  cbv zeta in H2. change (run _ _ _ _) with (demo_unmount (o_mem (demo_unmount two_targets "/t1")) "/t2") in H2.
  rewrite R2 in H2. destruct H2 as [_ H2]. split.
  - assert (binds two_targets !! "/t1"%string = Some "/src"%string) as E by reflexivity.
    rewrite E, bool_decide_eq_true_2 in H1; [exact H1|].
    exists "/t2"%string, "/src"%string. split; vm_compute; reflexivity.
  - rewrite B1 in H2.
    assert (delete "/t1"%string (binds two_targets) !! "/t2"%string = Some "/src"%string) as E by reflexivity.
    rewrite E, bool_decide_eq_false_2 in H2; [exact H2|].
    intros (k & x & Hk & _). vm_compute in Hk. by destruct k.
Defined.

(** A pod that is gone and a pod that is on the node share a source. *)
Definition dead_ref : string := "/var/lib/kubelet/pods/u-dead/volumes/kubernetes.io~csi/pv/mount".
Definition live_ref : string := "/var/lib/kubelet/pods/u-live/volumes/kubernetes.io~csi/pv/mount".
Definition shared_source : mem :=
  set_binds (λ _, {[dead_ref := "/src"%string; live_ref := "/src"%string]}) empty_mem.
Definition live_pod : Pod :=
  {| PName := "app"; PNamespace := "default"; PUID := "u-live"; PLabels := ∅; PAnnotations := ∅;
     PDeleting := false; PPhase := "Running"; PContainerStatuses := []; PSpec := no_pod_spec |}.

Definition half_dead_node : env unit := λ c s w,
  match c return ans c * mem * unit with
  | GetMountRefs _ => (([dead_ref; live_ref], None), s, w)
  | PodList _ _ _ => (Ok [live_pod], s, w)
  | IsMountPoint _ => ((false, None), s, w)
  | c => (idle c, s, w)
  end.

Lemma half_dead_quiet : env_ok quiet half_dead_node.
Proof. intros c s w. by destruct c. Qed.

Definition demo_cleanup : outcome unit unit :=
  run half_dead_node (cleanupSource demo_config "/src") shared_source tt.

Example cleanupSource_spares_live_witness :
  binds (o_mem demo_cleanup) !! live_ref = Some "/src"%string ∧
  binds (o_mem demo_cleanup) !! dead_ref = None ∧
  spares "/src" (o_trace demo_cleanup) ∧
  forgets_gone "/src" (o_trace demo_cleanup) (binds shared_source) (binds (o_mem demo_cleanup)).
Proof.
  split; [vm_compute; reflexivity|]. split; [vm_compute; reflexivity|].
  destruct (cleanupSource_spares_live demo_config half_dead_node "/src" shared_source tt) as [Hs Hf].
  exact (conj Hs (Hf half_dead_quiet)).
Defined.
