(* ===== verification/PodHeal.v ===== *)
(** * Rebuilding a mount pod from its HFMount object

    [tryHealSource] recreates a lost mount pod from what [Mount] persisted: when
    that [Mount] stored the object, the pod is the one it created, whatever happened
    to the object in between. [CheckHealth] and the wait loops are specified here
    too. *)
From S2P Require Import Prelude GoStrings Sha256 GoTime GoErrors Unstructured Resources.
From S2P Require Import Names MountArgs Kube Effects MountInfo HFMount PodMounter.
From S2P Require Import PodMounterSpec PodLifecycle MountPodSpec.

Local Open Scope Z_scope.

(** ** Specification *)

(** One write to an object that leaves the mount arguments alone: the workloads,
    or any field beside the spec (status, metadata). *)
Inductive obj_step : obj_t → obj_t → Prop :=
| obj_workloads o ws : obj_step o (with_workloads o ws)
| obj_field o k v : k ≠ "spec"%string → obj_step o (<[k := v]> o).

(** [time.After] and a ticker: the [select] takes another case than the deadline at
    most [w] more times; arming a timer allows at most [bound] of them. *)
Definition timer `{QuantityLib} (bound : nat) : rely nat := λ c s w a s' w',
  match c return ans c → Prop with
  | TimeAfter _ => λ _, (w' ≤ bound)%nat
  | Select => λ a, match a with CaseDeadline => True | _ => w = S w' end
  | _ => λ _, w' = w
  end a.

Section Heal.
Context `{QuantityLib} `{TimeLib} `{MountLib} `{!QuantityLaws}.
Variable m : PMConfig.

(** The API server hands out the object that was stored under the name, after any
    number of such writes; the memory may change meanwhile. *)
Definition stored {W} (target : string) (created : obj_t) : rely W := λ c _ _ a _ _,
  match c return ans c → Prop with
  | CrdGet name => λ a, ∀ o, a = Ok o → name = hfMountName (mountID target) → rtc obj_step created o
  | _ => λ _, True
  end a.

(** Equal pods, up to the printed form of the containers' quantities. *)
Definition set_requirements (r : ResourceRequirements) (c : Container) : Container :=
  {| CName := CName c; CImage := CImage c; CImagePullPolicy := CImagePullPolicy c;
     CRestartPolicy := CRestartPolicy c; CCommand := CCommand c; CArgs := CArgs c; CEnv := CEnv c;
     CSecurityContext := CSecurityContext c; CVolumeMounts := CVolumeMounts c;
     CStartupProbe := CStartupProbe c; CResources := r |}.

Definition same_container (c c' : Container) : Prop :=
  c = set_requirements (CResources c) c' ∧ same_requirements (CResources c) (CResources c').

Definition set_containers (cs : list Container) (p : Pod) : Pod :=
  let sp := PSpec p in
  {| PName := PName p; PNamespace := PNamespace p; PUID := PUID p; PLabels := PLabels p;
     PAnnotations := PAnnotations p; PDeleting := PDeleting p; PPhase := PPhase p;
     PContainerStatuses := PContainerStatuses p;
     PSpec := {| HostNetwork := HostNetwork sp; RestartPolicy := RestartPolicy sp;
       TerminationGracePeriodSeconds := TerminationGracePeriodSeconds sp; NodeAffinity := NodeAffinity sp;
       ServiceAccountName := ServiceAccountName sp; ImagePullSecrets := ImagePullSecrets sp;
       Tolerations := Tolerations sp; InitContainers := InitContainers sp; Containers := cs;
       Volumes := Volumes sp |} |}.

Definition same_pod (p p' : Pod) : Prop :=
  p = set_containers (Containers (PSpec p)) p' ∧
  Forall2 same_container (Containers (PSpec p)) (Containers (PSpec p')).

Definition same_spec (s : hfMountSpec) (o : obj_t) : Prop :=
  ∃ sp, spec_of o = Some sp ∧ ∀ k, k ≠ "workloads"%string → sp !! k = spec_map s !! k.

(** ** Reading the object back *)

Lemma spec_of_with_workloads o ws :
  spec_of (with_workloads o ws) = Some (<["workloads"%string := UList ws]> (default ∅ (spec_of o))).
Proof. unfold spec_of at 1, with_workloads. by rewrite lookup_insert_eq. Qed.

Lemma same_spec_step s o o' : obj_step o o' → same_spec s o → same_spec s o'.
Proof.
  intros [o1 ws|o1 k v Hk] (sp & Hsp & Heq).
  - exists (<["workloads"%string := UList ws]> sp). split; [by rewrite spec_of_with_workloads, Hsp|].
    intros k Hk. by rewrite lookup_insert_ne by congruence; apply Heq.
  - exists sp. split; [|done]. unfold spec_of in *. by rewrite lookup_insert_ne.
Qed.

Lemma same_spec_created ns name s : same_spec s (hfmount_object ns name s).
Proof. by exists (spec_map s). Qed.

Lemma same_spec_reachable s ns name o : rtc obj_step (hfmount_object ns name s) o → same_spec s o.
Proof.
  intros Hr. pose proof (same_spec_created ns name s) as Hs. revert Hs.
  induction Hr as [o|o1 o2 o3 Hstep _ IH]; [done|]. intros Hs. apply IH. by eapply same_spec_step.
Qed.

Lemma spec_map_lookup s k :
  k ≠ "resources"%string →
  spec_map s !! k = map_of_pairs [
    ("nodeName", UStr (NodeName s)); ("sourceType", UStr (SourceType s));
    ("sourceID", UStr (SourceID s)); ("mountPodName", UStr (MountPodName s));
    ("mountPath", UStr (MountPath s)); ("mountArgs", UList (UStr <$> MountArgs s));
    ("workloads", UList [])]%string !! k.
Proof. intros Hk. unfold spec_map. destruct (ToUnstructured _); [|done]. by rewrite lookup_insert_ne. Qed.

Lemma spec_map_resources s :
  spec_map s !! "resources"%string = UMap <$> ToUnstructured (SResources s).
Proof. unfold spec_map. destruct (ToUnstructured _); [by rewrite lookup_insert_eq|done]. Qed.

Lemma omap_strings (l : list string) :
  omap (λ a, match a with UStr s => Some s | _ => None end) (UStr <$> l) = l.
Proof. induction l as [|x l IH]; simpl; [done|]. f_equal. exact IH. Qed.

Lemma heal_spec_same s o :
  same_spec s o →
  ∃ res, heal_spec (spec_of o) = (SourceType s, SourceID s, MountArgs s, res) ∧
    same_resources res (SResources s).
Proof.
  intros (sp & -> & Hsp). unfold heal_spec. cbn [uget mbind option_bind].
  rewrite !Hsp, spec_map_resources, !spec_map_lookup by done.
  eexists. split.
  - repeat (f_equal; [..|]); try reflexivity. apply omap_strings.
  - pose proof (resources_back (SResources s)) as Hr. destruct (ToUnstructured _); simpl; [exact Hr|].
    rewrite Hr. repeat split.
Qed.

(** ** Recreating the pod *)

Lemma pod_of_mount_same sourceType sourceID target args r r' :
  same_resources r r' →
  same_pod (pod_of_mount m sourceType sourceID target args r) (pod_of_mount m sourceType sourceID target args r').
Proof.
  intros Hr. split; [done|]. constructor; [|done]. split; [done|]. by apply BuildResourceRequirements_proper.
Qed.

Definition creates_only (good : Pod → Prop) (c : call) : Prop :=
  match c with PodCreate pod => good pod | _ => True end.

Lemma no_create_emits {A} good (p : prog A) :
  emits (λ c, match c with PodCreate _ => False | _ => True end) p → emits (creates_only good) p.
Proof. apply emits_mono. by intros []. Qed.

Lemma poll_emits (P : call → Prop) path n :
  (∀ d, P (Sleep d)) → P (IsMountPoint path) → emits P (pollUntilMounted path n).
Proof.
  intros Hs Hm. induction n as [|n IH]; cbn [pollUntilMounted].
  - apply emits_bind; [by apply emits_call|done].
  - apply emits_bind; [by apply emits_call|]. intros [mounted err].
    destruct (match err with None => mounted | Some _ => false end); [done|].
    apply emits_bind; [by apply emits_call|]. intros _. apply IH.
Qed.

#[local] Opaque stackBind.

Lemma rebindTargets_no_create mountPath :
  emits (λ c, match c with PodCreate _ => False | _ => True end) (rebindTargets mountPath).
Proof.
  unfold rebindTargets. apply with_source_lock_emits; try done.
  apply emits_bind; [by apply poll_emits|]. intros mounted. destruct (negb mounted); [done|].
  split; [done|]. intros code. apply emits_bind; [by apply emits_locked|]. intros targets.
  induction targets as [|t ts IH]; [done|]. simpl. split; [done|]. intros _ s0.
  destruct (negb _); [apply IH|]. unfold boundToCurrentSource. simpl. split; [done|].
  intros [r|e]; simpl; [destruct (bound_in r t mountPath); [apply IH|]|];
    (apply emits_bind; [|intros _; apply IH]);
    (eapply emits_mono; [|apply stackBind_calm]); by intros [].
Qed.

Lemma calm_no_create {A} (p : prog A) good : emits (λ c, plain c = true) p → emits (creates_only good) p.
Proof. apply emits_mono. by intros []. Qed.

Lemma heal_recreate_emits fuel mountPath exists_ spec good :
  (∀ st sid args res, heal_spec spec = (st, sid, args, res) →
     good (buildMountPod m (mount_pod_name (Base mountPath)) (Base mountPath) st sid mountPath args res)) →
  emits (creates_only good) (heal_recreate m fuel mountPath exists_ spec).
Proof.
  intros Hg. unfold heal_recreate. destruct (heal_spec spec) as [[[st sid] args] res] eqn:E.
  apply emits_bind.
  { destruct exists_; [|done]. apply emits_bind; [by apply emits_call|]. intros x. apply calm_no_create, wait_deletion_calm. }
  intros waitErr. destruct waitErr; [done|].
  apply emits_bind; [apply emits_call; by apply Hg|]. intros createErr. destruct createErr; [done|].
  apply emits_bind; [by apply emits_call|]. intros now.
  apply emits_bind; [apply calm_no_create, wait_running_calm|]. intros runErr.
  destruct runErr; [by split|]. apply no_create_emits, rebindTargets_no_create.
Qed.

#[local] Opaque rebindTargets heal_recreate.

Lemma heal_from_crd_wp {W} fuel target sourceType sourceID args resources exists_ s (w : W) :
  wp (stored target (object_of_mount m sourceType sourceID target args resources))
    (heal_from_crd m fuel (source_dir (mountID target)) exists_) s w (λ _ _ _ tr,
    Forall (creates_only (λ pod, same_pod pod (pod_of_mount m sourceType sourceID target args resources)))
      (calls tr)).
Proof.
  unfold heal_from_crd, crd_get. simpl. intros obj s1 w1 Hobj.
  destruct obj as [o|e]; simpl; [|by repeat constructor].
  assert (Base (source_dir (mountID target)) = mountID target) as Hbase
    by apply Base_source_dir, volume_id_good, mountID_is_volume_id.
  rewrite Hbase in *. specialize (Hobj o eq_refl eq_refl).
  apply same_spec_reachable, heal_spec_same in Hobj as (res & Hh & Hres).
  destruct (as_list _); [by repeat constructor|].
  eapply wp_mono; [|apply (wp_emits _ (creates_only (λ pod,
    same_pod pod (pod_of_mount m sourceType sourceID target args resources))));
    [apply heal_recreate_emits|apply wp_true]].
  - intros r s2 w2 tr [_ Hf]. simpl. by constructor.
  - intros st sid args' res' E. rewrite Hbase. rewrite Hh in E. injection E as <- <- <- <-.
    by apply pod_of_mount_same.
Qed.

#[local] Opaque heal_from_crd.

Lemma tryHealSource_wp {W} fuel target sourceType sourceID args resources s (w : W) :
  wp (stored target (object_of_mount m sourceType sourceID target args resources))
    (tryHealSource m fuel (source_dir (mountID target))) s w (λ _ _ _ tr,
    Forall (creates_only (λ pod, same_pod pod (pod_of_mount m sourceType sourceID target args resources)))
      (calls tr)).
Proof.
  pose proof (heal_from_crd_wp (W:=W) fuel target sourceType sourceID args resources) as Hcrd.
  set (R := stored _ _) in *. set (good := λ pod, same_pod pod _) in *.
  unfold tryHealSource. simpl. intros pod s1 w1 _.
  assert (∀ p : prog unit, wp R p s1 w1 (λ _ _ _ tr, Forall (creates_only good) (calls tr)) →
    ∀ c, creates_only good c →
    wp R p s1 w1 (λ _ _ _ tr, Forall (creates_only good) (c :: calls tr))) as Hcons.
  { intros p Hp c Hc. eapply wp_mono; [|exact Hp]. intros r s2 w2 tr Hf. by constructor. }
  destruct pod as [p|e]; simpl.
  - destruct (_ && _).
    + apply Hcons; [|done]. eapply wp_mono; [|apply (wp_emits R (creates_only good));
        [apply no_create_emits, rebindTargets_no_create|apply wp_true]].
      by intros r s2 w2 tr [_ Hf].
    + apply Hcons; [apply Hcrd|done].
  - destruct (negb _); [by repeat constructor|]. apply Hcons; [apply Hcrd|done].
Qed.

(** C11. Healing rebuilds the pod [Mount] created. Take any run of [Mount] that
    stored its HFMount object, and any later run of [tryHealSource] for its source,
    on a node where the API server hands out that object with whatever workloads,
    status and metadata were written to it since. Then every pod the second run
    creates equals every pod the first one created: the same name, labels, node,
    image, command line, mounts and paths, and the same amounts of CPU and memory.
    When an object of the name existed before the [Mount], its spec is not
    replaced, and the healed pod follows that spec. *)
Theorem heal_rebuilds_mount_pod {W W'} (hm : env W) (hh : env W') fuel fuel' sourceType sourceID target opts
    s w s' w' created pod new :
  let mounting := run hm (PM_Mount m fuel sourceType sourceID target opts) s w in
  let healing := run hh (tryHealSource m fuel' (source_dir (mountID target))) s' w' in
  Ev (CrdCreate created) None ∈ o_trace mounting →
  PodCreate pod ∈ calls (o_trace mounting) →
  env_ok (stored target created) hh →
  PodCreate new ∈ calls (o_trace healing) →
  same_pod new pod.
Proof.
  intros mounting healing Hobj (args & Hargs & ->)%PM_Mount_creates Hh Hin.
  apply (list_elem_of_fmap_2 ev_call) in Hobj.
  destruct (PM_Mount_creates _ _ _ _ _ _ _ _ _ _ Hobj) as (args' & Hargs' & Hcreated).
  rewrite Hargs in Hargs'. injection Hargs' as <-. simpl in Hcreated. subst created.
  pose proof (run_wp _ _ _ _ _ _ Hh (tryHealSource_wp fuel' target sourceType sourceID args (MResources opts) s' w'))
    as Hf. cbv beta in Hf. rewrite Forall_forall in Hf. by apply Hf in Hin.
Qed.
End Heal.

(** ** Waiting ends *)

Section Waits.
Context `{QuantityLib} `{TimeLib} `{MountLib}.
Variable m : PMConfig.

(** The end of a run that read an object without a spec excuses a panic, and
    nothing excuses a loop that runs out of fuel. *)
Definition returned {A} (r : res A) (tr : list event) : Prop :=
  match r with
  | Done _ => True
  | Panicked => ∃ name obj, Ev (CrdGet name) (Ok obj) ∈ tr ∧ spec_of obj = None
  | Exhausted => False
  end.

Lemma returned_app {A} (r : res A) tr0 tr : returned r tr → returned r (tr0 ++ tr).
Proof.
  destruct r; simpl; try done. intros (name & obj & Hin & Hs). exists name, obj.
  split; [|done]. apply elem_of_app. by right.
Qed.

Lemma returned_cons {A} (r : res A) ev tr : returned r tr → returned r (ev :: tr).
Proof. apply (returned_app r [ev]). Qed.

#[local] Hint Resolve returned_cons : core.

(** Every program built from the loops of podmounter.go returns when the fuel
    exceeds the number of ticks one timer allows. *)
Definition ends {A} (bound : nat) (p : prog A) : Prop :=
  ∀ s w, wp (timer bound) p s w (λ r _ _ tr, returned r tr).

Lemma ends_bind {A B} bound (p : prog A) (f : A → prog B) :
  ends bound p → (∀ a, ends bound (f a)) → ends bound (p ≫= f).
Proof.
  intros Hp Hf s w. apply wp_bind. eapply wp_mono; [|apply Hp].
  intros r s1 w1 tr Hr. destruct r; simpl; [|done..].
  eapply wp_mono; [|apply Hf]. intros. by apply returned_app.
Qed.

Lemma ends_ret {A} bound (a : A) : ends bound (mret a).
Proof. by intros s w. Qed.

Lemma ends_call bound c : ends bound (call_ c).
Proof. by intros s w a s1 w1 _. Qed.

Lemma ends_locked {A} bound (f : mem → A * mem) : ends bound (locked f).
Proof. intros s w a s1 w1 _. simpl. by destruct (f s1). Qed.

Lemma ends_run {A} bound (h : env nat) (p : prog A) s w :
  env_ok (timer bound) h → ends bound p → returned (o_res (run h p s w)) (o_trace (run h p s w)).
Proof. intros Hh He. exact (run_wp _ _ _ _ _ _ Hh (He s w)). Qed.

(** The calls made so far excuse nothing. *)
Ltac strip := eapply (wp_mono _ _ _ _ (λ r _ _ tr, returned r tr)); [by auto 10 using returned_cons|].

Lemma wait_running_ends bound fuel name d :
  (bound < fuel)%nat → ends bound (waitForPodRunning m fuel name d).
Proof.
  intros Hf s w. unfold waitForPodRunning. simpl. intros now s1 w1 _ [] s2 w2 Hw [] s3 w3 ->.
  strip. assert (w2 < fuel)%nat as Hlt by lia. clear -Hlt. revert Hlt.
  generalize (@None gerror) at 1. intros e. revert e s3 w2.
  induction fuel as [|fuel IH]; intros e s3 w Hlt; [lia|]. simpl. intros pod s4 w4 ->.
  destruct (match pod with Ok _ => _ | Err _ => _ end) as [r|e']; [done|].
  simpl. intros c s5 w5 Hc. destruct c; [done..|]. strip. apply IH; lia.
Qed.

Lemma wait_mount_ends bound fuel path name d :
  (bound < fuel)%nat → ends bound (waitForMount m fuel path name d).
Proof.
  intros Hf s w. unfold waitForMount. simpl. intros now s1 w1 _ [] s2 w2 Hw [] s3 w3 ->.
  strip. assert (w2 < fuel)%nat as Hlt by lia. clear -Hlt. revert Hlt.
  generalize (@None gerror) at 1. intros e. revert e s3 w2.
  induction fuel as [|fuel IH]; intros e s3 w Hlt; [lia|]. simpl. intros [mounted err] s4 w4 ->.
  destruct (match err with Some _ => false | None => mounted end); [done|].
  simpl. intros pod s5 w5 ->. destruct (mount_pod_failed name pod); [done|].
  simpl. intros c s6 w6 Hc. destruct c; [done| |]; strip; apply IH; lia.
Qed.

Lemma wait_deletion_ends bound fuel name :
  (bound < fuel)%nat → ends bound (waitForPodDeletion m fuel name).
Proof.
  intros Hf s w. unfold waitForPodDeletion. simpl. intros [] s2 w2 Hw [] s3 w3 ->.
  strip. assert (w2 < fuel)%nat as Hlt by lia. clear -Hlt. revert Hlt.
  generalize (@None gerror) at 1. intros e. revert e s3 w2.
  induction fuel as [|fuel IH]; intros e s3 w Hlt; [lia|]. simpl. intros c s4 w4 Hc.
  destruct c; [done..|]. simpl. intros [pod|e'] s5 w5 ->; simpl.
  - strip. apply IH; lia.
  - destruct (has_reason NotFound e'); simpl; [done|]. strip. apply IH; lia.
Qed.

#[local] Opaque waitForPodRunning waitForMount waitForPodDeletion.

Ltac go_ends :=
  repeat first
    [ apply ends_ret | match goal with |- ends ?b (call_ ?c) => exact (ends_call b c) end | apply ends_locked
    | apply ends_bind | progress intros | progress case_match ].

Lemma addWorkload_ends bound name uid target : ends bound (addWorkload name uid target).
Proof.
  unfold addWorkload, retryOnConflict. apply ends_bind; [|intros; apply ends_ret].
  generalize tt. generalize 5%nat.
  induction n as [|n IH]; intros u; cbn [retry_loop]; [apply ends_ret|].
  intros s w obj s1 w1 _. destruct obj as [o|e]; [|done].
  destruct (spec_of o) as [sp|] eqn:Es.
  - strip. apply (ends_bind bound).
    + unfold add_mutation, set_field. rewrite Es. destruct (existsb _ _); [apply ends_ret|].
      apply ends_bind; [apply (ends_call bound Now)|]. intros now. apply ends_ret.
    + intros [c [[spec'|]|e]]; go_ends; apply IH.
  - simpl. rewrite Es. intros now s2 w2 _. exists name, o. split; [apply list_elem_of_here|done].
Qed.

#[local] Opaque addWorkload.

Lemma updateStatus_ends bound name phase msg : ends bound (updateStatus name phase msg).
Proof. unfold updateStatus. go_ends. Qed.

Lemma unmountAll_ends bound path : ends bound (unmountAll path).
Proof.
  unfold unmountAll. generalize 32%nat. induction n as [|n IH]; cbn [unmount_loop]; unfold fuseUnmount;
    go_ends. apply IH.
Qed.

#[local] Opaque unmountAll.

Lemma stackBind_ends bound a b : ends bound (stackBind a b).
Proof. unfold stackBind, bindMount. go_ends; apply unmountAll_ends. Qed.

Lemma crd_delete_ends bound name : ends bound (crd_delete name).
Proof. unfold crd_delete. go_ends. Qed.

#[local] Opaque ends stackBind crd_delete.

Lemma ensure_pod_ends bound fuel podName pod :
  (bound < fuel)%nat → ends bound (ensure_pod m fuel podName pod).
Proof. intros Hf. unfold ensure_pod. go_ends; by apply wait_deletion_ends. Qed.

Lemma mount_attempt_ends bound fuel podName crdName mountPath target pod :
  (bound < fuel)%nat → ends bound (mount_attempt m fuel podName crdName mountPath target pod).
Proof.
  intros Hf. unfold mount_attempt.
  apply ends_bind; [by apply ensure_pod_ends|]. intros [created|[e b]]; [|apply ends_ret].
  apply ends_bind; [exact (ends_call bound Now)|]. intros now.
  apply ends_bind; [by apply wait_running_ends|]. intros [e|]; [apply ends_ret|].
  apply ends_bind; [by apply wait_mount_ends|]. intros [e|]; [apply ends_ret|].
  apply ends_bind; [apply stackBind_ends|]. intros [e|]; [apply ends_ret|].
  apply ends_bind; [apply ends_locked|]. intros _.
  apply ends_bind; [apply updateStatus_ends|]. intros _. apply ends_ret.
Qed.

Lemma mount_registered_ends bound fuel podName crdName mountPath target pod opts :
  (bound < fuel)%nat → ends bound (mount_registered m fuel podName crdName mountPath target pod opts).
Proof.
  intros Hf. unfold mount_registered, mount_cleanup.
  apply ends_bind; [apply addWorkload_ends|]. intros _.
  apply ends_bind; [by apply mount_attempt_ends|]. intros [err flags].
  go_ends; apply crd_delete_ends.
Qed.

Lemma with_source_lock_ends {A} bound source_ (body : prog A) :
  ends bound body → ends bound (with_source_lock source_ body).
Proof.
  intros Hb. unfold with_source_lock, acquireSourceLock, releaseSourceLock. go_ends. exact Hb.
Qed.

(** C28. [Mount] returns: if every timer it arms fires after at most [bound] ticks,
    then with fuel above [bound] for its loops it comes to a result, whatever the
    kernel and the API server answer and whatever the other goroutines do. The one
    exception is a panic, which takes an HFMount object without a spec. *)
Theorem Mount_returns (h : env nat) bound fuel sourceType sourceID target opts s w :
  env_ok (timer bound) h → (bound < fuel)%nat →
  let o := run h (PM_Mount m fuel sourceType sourceID target opts) s w in
  match o_res o with
  | Done _ => True
  | Panicked => ∃ name obj, Ev (CrdGet name) (Ok obj) ∈ o_trace o ∧ spec_of obj = None
  | Exhausted => False
  end.
Proof.
  intros Hh Hf o. apply (ends_run bound); [done|].
  unfold PM_Mount. destruct (buildArgs _ _ _ _) as [args|e]; [|apply ends_ret].
  apply with_source_lock_ends. unfold mount_locked, crd_create. cbv zeta.
  apply ends_bind; [exact (ends_call bound (CrdCreate _))|].
  intros [e|]; [destruct (negb _); [apply ends_ret|]|]; by apply mount_registered_ends.
Qed.
End Waits.

(** ** CheckHealth *)

Section Health.
Context `{QuantityLib} `{TimeLib} `{MountLib} {W : Type}.
Variable m : PMConfig.

Definition waits_in_crash_loop (cs : ContainerStatus) : Prop :=
  WaitingReason cs = Some "CrashLoopBackOff"%string.

(** [CheckHealth] reports a target exactly when it is tracked, its mount pod can
    be read, at least two restarts are counted and a container of it waits in
    CrashLoopBackOff. *)
Theorem CheckHealth_exact (h : env W) target source_ pod s w :
  binds (h MuLock s w).1.2 !! target = Some source_ →
  (∀ s w, (h (PodGet (namespace m) (mount_pod_name (Base source_))) s w).1.1 = pod) →
  let o := run h (CheckHealth m target) s w in
  (∃ e, o_res o = Done (Some e)) ↔
    ∃ p, pod = Ok p ∧ crashLoopRestartThreshold ≤ totalRestartCount p ∧
      ∃ cs, cs ∈ PContainerStatuses p ∧ waits_in_crash_loop cs.
Proof.
  intros Hb Hp. unfold CheckHealth. simpl. destruct (h MuLock s w) as [[[] s1] w1]. simpl in *.
  rewrite Hb. simpl. specialize (Hp s1 w1). destruct (h (PodGet _ _) s1 w1) as [[a s2] w2]. simpl in *.
  subst a. destruct pod as [p|e]; simpl; [|split; [by intros [? ?]|by intros (? & ? & _)]].
  unfold crash_looping. destruct (Z.ltb_spec (totalRestartCount p) crashLoopRestartThreshold) as [Hlt|Hge].
  - split; [by intros [? ?]|]. intros (p' & [= <-] & Hle & _). lia.
  - destruct (List.find _ _) as [cs|] eqn:E.
    + split; [|eauto]. intros _. exists p. split_and!; [done..|].
      apply find_some in E as [Hin Hw]. exists cs. split; [by apply list_elem_of_In|].
      unfold waits_in_crash_loop. destruct (WaitingReason cs); [|done]. apply String.eqb_eq in Hw. by subst.
    + split; [by intros [? ?]|]. intros (p' & [= <-] & _ & cs & Hin & Hw).
      apply (find_none _ _ E) in Hin || (apply list_elem_of_In in Hin; pose proof (find_none _ _ E _ Hin) as Hf).
      simpl in Hf. rewrite Hw in Hf. done.
Qed.
End Health.

(** ** Concrete runs *)

#[local] Existing Instance z_quantities.
#[local] Instance no_general_parser : TimeLib := λ _, None.

(** A mount with a CPU limit, on a node where everything works. *)
Definition demo_options : MountOptions :=
  {| Revision := ""; HubEndpoint := ""; CacheDir := ""; CacheSize := ""; PollIntervalSecs := "";
     PollListingConcurrency := ""; MetadataTtlMs := ""; InodeSoftLimit := ""; LruSweepIntervalMs := "";
     FuseFdCount := ""; ReadOnly := true; ExtraArgs := []; TokenFile := ""; WorkloadPodUID := "u-1";
     VolumeMountGroup := ""; MResources := @Build_MountResources z_quantities (Some 1500) None None None |}.

Definition demo_mounting : outcome (option gerror) unit :=
  run (demo_node "Running" true false)
    (PM_Mount demo_config 5 "bucket" "user/data" demo_target demo_options) empty_mem tt.

Definition demo_object : obj_t :=
  object_of_mount demo_config "bucket" "user/data" demo_target
    ["--read-only"; "bucket"; "user/data"; "/mnt/hf/" +++ mountID demo_target]%string (MResources demo_options).

(** A node that has lost the mount pod; a workload was registered since. *)
Definition lost_pod : env unit := λ c s w,
  match c return ans c * mem * unit with
  | CrdGet _ => (Ok (with_workloads demo_object [workload_entry "u-1" demo_target 0]), s, w)
  | Select => (CaseDeadline, s, w)
  | c => (idle c, s, w)
  end.

Lemma lost_pod_stored : env_ok (stored demo_target demo_object) lost_pod.
Proof.
  intros c s w. unfold stored, lost_pod. destruct c; try exact I.
  intros o [= <-] _. eapply rtc_once. constructor.
Qed.

Definition demo_heal : outcome unit unit :=
  run lost_pod (tryHealSource demo_config 5 (source_dir (mountID demo_target))) empty_mem tt.

Definition creates_a_pod (c : call) : bool := match c with PodCreate _ => true | _ => false end.

Lemma creates_a_pod_elem (tr : list event) :
  existsb creates_a_pod (calls tr) = true → ∃ pod, PodCreate pod ∈ calls tr.
Proof.
  intros (c & Hin & Hc)%existsb_exists. apply list_elem_of_In in Hin.
  destruct c; try discriminate Hc. by eexists.
Qed.

Example heal_rebuilds_mount_pod_witness :
  ∃ pod new, PodCreate pod ∈ calls (o_trace demo_mounting) ∧ PodCreate new ∈ calls (o_trace demo_heal) ∧
    same_pod new pod.
Proof.
  destruct (creates_a_pod_elem (o_trace demo_mounting)) as [pod Hpod]; [vm_compute; reflexivity|].
  destruct (creates_a_pod_elem (o_trace demo_heal)) as [new Hnew]; [vm_compute; reflexivity|].
  exists pod, new. split; [exact Hpod|]. split; [exact Hnew|].
  refine (heal_rebuilds_mount_pod demo_config (demo_node "Running" true false) lost_pod 5 5 "bucket" "user/data"
    demo_target demo_options empty_mem tt empty_mem tt demo_object pod new _ Hpod lost_pod_stored Hnew).
  apply (list_elem_of_lookup_2 _ 2%nat). reflexivity.
Defined.

(** A node whose timers fire at once. *)
Definition impatient : env nat := λ c s w,
  match c return ans c * mem * nat with
  | TimeAfter _ => (tt, s, 0%nat)
  | Select => (CaseDeadline, s, w)
  | c => (idle c, s, w)
  end.

Example Mount_returns_witness :
  ∃ err, o_res (run impatient (PM_Mount demo_config 1 "repo" "openai-community/gpt2" demo_target no_options)
    empty_mem 0%nat) = Done err.
Proof.
  assert (env_ok (timer 0) impatient) as Hh.
  { intros c s w. unfold timer, impatient. destruct c; reflexivity || exact I || lia. }
  pose proof (Mount_returns demo_config impatient 0 1 "repo" "openai-community/gpt2" demo_target no_options
    empty_mem 0%nat Hh ltac:(lia)) as Hr. cbv zeta in Hr.
  set (o := run _ _ _ _) in *. destruct (o_res o) as [err| |] eqn:E; [by exists err| |destruct Hr].
  exfalso. destruct Hr as (name & obj & Hin & _).
  assert (existsb (λ ev, match ev with Ev c a => match c return ans c → bool with
    | CrdGet _ => λ a, match a with Ok _ => true | Err _ => false end | _ => λ _, false end a end)
    (o_trace o) = false) as Hc by (vm_compute; reflexivity).
  apply list_elem_of_In in Hin.
  enough (Hx : true = false) by discriminate Hx. rewrite <- Hc. symmetry.
  apply existsb_exists. eexists. by split; [exact Hin|].
Defined.

Definition looping_pod : Pod :=
  {| PName := "hf-mount-x"; PNamespace := "kube-system"; PUID := "u"; PLabels := ∅; PAnnotations := ∅;
     PDeleting := false; PPhase := "Running";
     PContainerStatuses := [{| RestartCount := 2; WaitingReason := Some "CrashLoopBackOff"%string;
                               LastTerminationMessage := Some "401 Unauthorized"%string |}];
     PSpec := no_pod_spec |}.

Definition looping_node : env unit := λ c s w,
  match c return ans c * mem * unit with
  | MuLock => (tt, set_binds (<["/t"%string := "/s"%string]>) s, w)
  | PodGet _ _ => (Ok looping_pod, s, w)
  | c => (idle c, s, w)
  end.

Example CheckHealth_exact_witness :
  ∃ e, o_res (run looping_node (CheckHealth demo_config "/t") empty_mem tt) = Done (Some e).
Proof.
  apply (CheckHealth_exact demo_config looping_node "/t" "/s" (Ok looping_pod) empty_mem tt);
    [reflexivity|reflexivity|].
  exists looping_pod. split; [reflexivity|]. split; [vm_compute; discriminate|].
  eexists. split; [apply list_elem_of_here|reflexivity].
Defined.
