(* ===== verification/Descriptors.v ===== *)
(** * Ownership of file descriptors

    Which calls open a descriptor and which release one, and a discipline [owns]
    for programs: a program starts with the descriptors [held], releases only
    descriptors it holds, and ends with those [Q] allows.  [owns_run] reads this
    off the trace of every run: what was held and opened is, as a multiset, what
    was released and what is left.  A descriptor is leaked when it is left; a
    program that closes one twice is not [owns]. *)
From S2P Require Import Prelude GoStrings GoErrors Unstructured Resources Kube Effects.

Local Open Scope Z_scope.

Section Descriptors.
Context `{QuantityLib}.

Definition fd_of (r : result Z) : list Z := match r with Ok f => [f] | Err _ => [] end.

(** The descriptors a call opens, given its answer; listeners and connections are
    objects of package net and not counted. *)
Definition fd_opened (e : event) : list Z :=
  let '(Ev c a) := e in
  match c return ans c → list Z with
  | OpenDevFuse | OpenExcl _ _ | OpenDir _ | Openat2 _ _ _ _ | ConnFile _ => fd_of
  | _ => λ _, []
  end a.

#[local] Arguments fd_opened : simpl never.

(** A descriptor is released by closing it, or by handing it to the goroutine of
    [sidecarMount], which then owns it. *)
Definition fd_released (c : call) : option Z :=
  match c with
  | CloseFd f => Some f
  | Go (TSidecarHandoff h) => Some (ho_fd h)
  | _ => None
  end.

Fixpoint owns {A} (p : prog A) (held : list Z) (Q : A → list Z → Prop) : Prop :=
  match p with
  | Ret a => Q a held
  | Panic _ | OutOfFuel => True
  | GetM k => ∀ s, owns (k s) held Q
  | PutM _ k => owns k held Q
  | Call c k =>
      match fd_released c with
      | Some f => ∃ rest, held ≡ₚ f :: rest ∧ ∀ a, owns (k a) rest Q
      | None => ∀ a, owns (k a) (fd_opened (Ev c a) ++ held) Q
      end
  end.

Definition opened_in (tr : list event) : list Z := tr ≫= fd_opened.
Definition released_in (tr : list event) : list Z := omap fd_released (calls tr).

(** Ending with exactly the descriptors [l]. *)
Definition left_with {A} (l : list Z) : A → list Z → Prop := λ _ held, held ≡ₚ l.

(** ** Rules *)

Lemma owns_mono {A} (p : prog A) held (Q Q' : A → list Z → Prop) :
  (∀ a l, Q a l → Q' a l) → owns p held Q → owns p held Q'.
Proof.
  intros HQ. revert held. induction p as [a|msg| |k IH|s0 k IH|c k IH]; intros held; simpl; eauto.
  destruct (fd_released c).
  - intros (rest & Hp & Hk). exists rest. eauto.
  - eauto.
Qed.

Lemma left_refl {A} (a : A) l : owns (Ret a) l (left_with l).
Proof. apply Permutation_refl. Qed.

Lemma owns_bind {A B} (p : prog A) (f : A → prog B) held (Q : B → list Z → Prop) :
  owns p held (λ a l, owns (f a) l Q) → owns (p ≫= f) held Q.
Proof.
  unfold mbind, prog_bind. revert held.
  induction p as [a|msg| |k IH|s0 k IH|c k IH]; intros held; simpl; eauto.
  destruct (fd_released c).
  - intros (rest & Hp & Hk). exists rest. eauto.
  - eauto.
Qed.

(** What is held is only used up to its order. *)
Lemma owns_perm {A} (p : prog A) held held' (Q : A → list Z → Prop) :
  (∀ a l l', l ≡ₚ l' → Q a l → Q a l') →
  held ≡ₚ held' → owns p held Q → owns p held' Q.
Proof.
  intros HQ. revert held held'.
  induction p as [a|msg| |k IH|s0 k IH|c k IH]; intros held held' Hh; simpl; eauto.
  destruct (fd_released c).
  - intros (rest & Hp & Hk). exists rest. split; [by rewrite <-Hh|done].
  - intros Hk a. eapply IH; [|by apply Hk]. by rewrite Hh.
Qed.

(** In sequence after a program that keeps what it holds. *)
Lemma owns_seq {A B} (p : prog A) (f : A → prog B) held l :
  owns p held (left_with held) → (∀ a, owns (f a) held (left_with l)) →
  owns (p ≫= f) held (left_with l).
Proof.
  intros Hp Hf. apply owns_bind. eapply owns_mono; [|exact Hp]. intros a l' Hl'.
  eapply owns_perm; [|symmetry; exact Hl'|apply Hf]. intros b l1 l2 Heq Hl. unfold left_with in *.
  by rewrite <-Heq.
Qed.

(** A program that neither opens nor closes descriptors. *)
Definition fd_free (c : call) : Prop := fd_released c = None ∧ ∀ a, fd_opened (Ev c a) = [].

Lemma owns_free {A} (p : prog A) held (Q : A → list Z → Prop) :
  emits fd_free p → (∀ a, Q a held) → owns p held Q.
Proof.
  intros He HQ. revert He. induction p as [a|msg| |k IH|s0 k IH|c k IH]; simpl; eauto.
  intros [[Hc Ho] Hk]. rewrite Hc. intros a. rewrite Ho. by apply IH.
Qed.

Lemma owns_free_left {A} (p : prog A) held :
  emits fd_free p → owns p held (left_with held).
Proof. intros Hp. apply owns_free; [done|]. intros a. apply Permutation_refl. Qed.

(** Closing a list of held descriptors. *)
Lemma owns_close_all (l : list Z) held rest :
  held ≡ₚ l ++ rest →
  owns (for_each l (λ f, _ ← call_ (CloseFd f); mret tt)) held (left_with rest).
Proof.
  revert held. induction l as [|f l IH]; intros held Hh; simpl; [done|].
  exists (l ++ rest). split; [done|]. intros a. by apply IH.
Qed.

Lemma opened_cons e tr : opened_in (e :: tr) = fd_opened e ++ opened_in tr.
Proof. done. Qed.

Lemma released_cons c a tr :
  released_in (Ev c a :: tr) = option_list (fd_released c) ++ released_in tr.
Proof. unfold released_in. simpl. by destruct (fd_released c). Qed.

Lemma owns_run {A W} (h : env W) (p : prog A) held (Q : A → list Z → Prop) s w :
  owns p held Q →
  let o := run h p s w in
  match o_res o with
  | Done a => ∃ left, Q a left ∧ held ++ opened_in (o_trace o) ≡ₚ released_in (o_trace o) ++ left
  | _ => True
  end.
Proof.
  revert held s w. induction p as [a|msg| |k IH|s0 k IH|c k IH]; intros held s w; simpl; try done.
  - intros HQ. exists held. split; [done|]. by rewrite app_nil_r.
  - intros Hk. by apply IH.
  - intros Hk. by apply IH.
  - intros Hk. destruct (h c s w) as [[a s'] w']. cbn [o_res o_trace].
    destruct (fd_released c) as [f|] eqn:Hc.
    + destruct Hk as (rest & Hh & Hk). specialize (IH a rest s' w' (Hk a)). cbv zeta in IH.
      destruct (o_res _); try done. destruct IH as (left & HQ & Hp). exists left. split; [done|].
      rewrite opened_cons, released_cons, Hc. simpl.
      assert (fd_opened (Ev c a) = []) as -> by (destruct c; try done).
      rewrite Hh. simpl. by rewrite Hp.
    + specialize (IH a _ s' w' (Hk a)). cbv zeta in IH.
      destruct (o_res _); try done. destruct IH as (left & HQ & Hp). exists left. split; [done|].
      rewrite opened_cons, released_cons, Hc. simpl. rewrite <-Hp. solve_Permutation.
Qed.

(** A program that starts and ends with none closes exactly what it opens. *)
Lemma owns_balance {A W} (h : env W) (p : prog A) s w a :
  owns p [] (left_with []) → o_res (run h p s w) = Done a →
  opened_in (o_trace (run h p s w)) ≡ₚ released_in (o_trace (run h p s w)).
Proof.
  intros Hp Hr. pose proof (owns_run h p [] _ s w Hp) as Ho. cbv zeta in Ho. rewrite Hr in Ho.
  destruct Ho as (l & Hl & Heq). unfold left_with in Hl. rewrite Hl, app_nil_r in Heq. exact Heq.
Qed.
End Descriptors.
