(* ===== verification/FdChannel.v ===== *)
(** * Descriptors over a Unix socket (pkg/util/fdchannel.go)

    [SendMsgFds] sends descriptors in one SCM_RIGHTS control message, [RecvMsg]
    receives one.  The control messages are encoded as package syscall does on a
    64-bit little-endian machine: a 16-byte header (length, level, type), the
    descriptors as 32-bit integers, padding to a multiple of 8. *)
From S2P Require Import Prelude GoStrings GoErrors Unstructured Resources Kube Effects Descriptors.

Local Open Scope Z_scope.

(** ** Control messages (package syscall) *)

Definition SOL_SOCKET : Z := 1.
Definition SCM_RIGHTS : Z := 1.
Definition SizeofCmsghdr : Z := 16.

Definition cmsgAlign (n : Z) : Z := Z.land (n + 7) (Z.lnot 7).
Definition CmsgLen (datalen : Z) : Z := SizeofCmsghdr + datalen.
Definition CmsgSpace (datalen : Z) : Z := SizeofCmsghdr + cmsgAlign datalen.

(** [n] bytes of an integer, least significant first, and back. *)
Fixpoint le_bytes (n : nat) (z : Z) : list Z :=
  match n with O => [] | S n' => z `mod` 256 :: le_bytes n' (z / 256) end.
Fixpoint le_value (bs : list Z) : Z :=
  match bs with [] => 0 | b :: bs' => b + 256 * le_value bs' end.

Definition UnixRights (fds : list Z) : list Z :=
  let datalen := 4 * Z.of_nat (length fds) in
  le_bytes 8 (CmsgLen datalen) ++ le_bytes 4 SOL_SOCKET ++ le_bytes 4 SCM_RIGHTS ++
  (fds ≫= le_bytes 4) ++ replicate (Z.to_nat (CmsgSpace datalen - CmsgLen datalen)) 0.

Record SocketControlMessage := { SCMLevel : Z; SCMType : Z; SCMData : list Z }.

(** Every message takes at least 16 bytes: the length of the buffer is enough fuel. *)
Fixpoint parse_scm (fuel : nat) (b : list Z) : result (list SocketControlMessage) :=
  match fuel with
  | O => Ok []
  | S fuel' =>
      if Z.of_nat (length b) <? CmsgLen 0 then Ok [] else
      let len := le_value (take 8 b) in
      if (len <? SizeofCmsghdr) || (Z.of_nat (length b) <? len) then Err (Errno EINVAL) else
      let m := {| SCMLevel := wrap32 (le_value (take 4 (drop 8 b)));
                  SCMType := wrap32 (le_value (take 4 (drop 12 b)));
                  SCMData := drop 16 (take (Z.to_nat len) b) |} in
      match parse_scm fuel' (drop (Z.to_nat (cmsgAlign len)) b) with
      | Ok ms => Ok (m :: ms)
      | Err e => Err e
      end
  end.

Definition ParseSocketControlMessage (b : list Z) : result (list SocketControlMessage) :=
  parse_scm (length b) b.

(** The 32-bit integers of the data; [None]: data that ends in the middle of one,
    on which Go panics. *)
Fixpoint int32s (bs : list Z) : option (list Z) :=
  match bs with
  | [] => Some []
  | a :: b :: c :: d :: bs' => cons (wrap32 (le_value [a; b; c; d])) <$> int32s bs'
  | _ => None
  end.

(** ** fdchannel.go *)

(** A [net.Conn], as far as its dynamic type is inspected. *)
Inductive net_conn := UnixConn (c : Z) | OtherConn (type : string).

Section FdChannel.
Context `{QuantityLib}.

Definition SendMsgFds (conn : net_conn) (fds : list Z) (msg : list Z) : prog (option gerror) :=
  match fds with
  | [] => mret (Some (Errorf "SendMsgFds: empty fd list" [] []))
  | _ =>
      match conn with
      | OtherConn t => mret (Some (Errorf "expected *net.UnixConn, got %T" [t] []))
      | UnixConn c =>
          f ← call_ (ConnFile c);
          match f with
          | Err e => mret (Some (Errorf "failed to get socket fd: %w" [] [e]))
          | Ok f =>
              r ← call_ (Sendmsg f msg (UnixRights fds));
              _ ← call_ (CloseFd f);
              mret (match r with
                    | Some e => Some (Errorf "sendmsg: %w" [] [e])
                    | None => None
                    end)
          end
      end
  end.

Definition SendMsg (conn : net_conn) (fd : Z) (msg : list Z) : prog (option gerror) :=
  SendMsgFds conn [fd] msg.

(** What [RecvMsg] makes of the received data and control bytes. *)
Definition received (msg oob : list Z) : prog (result (Z * list Z)) :=
  match ParseSocketControlMessage oob with
  | Err e => mret (Err (Errorf "parse control message: %w" [] [e]))
  | Ok [] => mret (Err (Errorf "no control message received" [] []))
  | Ok (m :: _) =>
      if negb (SCMLevel m =? SOL_SOCKET) || negb (SCMType m =? SCM_RIGHTS)
      then mret (Err (Errorf "parse unix rights: %w" [] [Errno EINVAL]))
      else match int32s (SCMData m) with
           | None => Panic "index out of range"
           | Some [] => mret (Err (Errorf "no file descriptor received" [] []))
           | Some (fd :: _) => mret (Ok (fd, msg))
           end
  end.

Definition RecvMsg (conn : net_conn) : prog (result (Z * list Z)) :=
  match conn with
  | OtherConn t => mret (Err (Errorf "expected *net.UnixConn, got %T" [t] []))
  | UnixConn c =>
      f ← call_ (ConnFile c);
      match f with
      | Err e => mret (Err (Errorf "failed to get socket fd: %w" [] [e]))
      | Ok f =>
          r ← call_ (Recvmsg f 4096 (CmsgSpace 4));
          v ← match r with
              | Err e => mret (Err (Errorf "recvmsg: %w" [] [e]))
              | Ok (msg, oob) => received msg oob
              end;
          _ ← call_ (CloseFd f);
          mret v
      end
  end.
End FdChannel.

(** ** Facts: control messages round-trip *)

Lemma length_le_bytes n z : length (le_bytes n z) = n.
Proof. revert z. induction n as [|n IH]; intros z; simpl; [done|]. by rewrite IH. Qed.

Lemma le_value_bytes n z : le_value (le_bytes n z) = z `mod` 256 ^ Z.of_nat n.
Proof.
  revert z. induction n as [|n IH]; intros z; [by rewrite Z.mod_1_r|].
  cbn [le_bytes le_value]. rewrite IH, Nat2Z.inj_succ, Z.pow_succ_r by lia.
  rewrite (Z.rem_mul_r z 256 (256 ^ Z.of_nat n)) by lia.
  change (2 ^ 3) with 8. lia.
Qed.

Lemma wrap32_mod z : wrap32 (z `mod` 256 ^ 4) = wrap32 z.
Proof.
  unfold wrap32. rewrite <-Zplus_mod_idemp_l.
  change (256 ^ 4) with (2 ^ 32). rewrite Z.mod_mod by lia. by rewrite Zplus_mod_idemp_l.
Qed.

Lemma int32s_bytes fds : int32s (fds ≫= le_bytes 4) = Some (wrap32 <$> fds).
Proof.
  induction fds as [|f fds IH]; [done|].
  assert (Hw : wrap32 (le_value (le_bytes 4 f)) = wrap32 f).
  { rewrite le_value_bytes. apply wrap32_mod. }
  rewrite bind_cons. cbn [fmap list_fmap]. rewrite <-Hw.
  pose proof (length_le_bytes 4 f) as Hl.
  destruct (le_bytes 4 f) as [|a [|b [|c [|d [|]]]]]; try done.
  cbn [app int32s]. by rewrite IH.
Qed.

Lemma length_fd_bytes fds : length (fds ≫= le_bytes 4) = (4 * length fds)%nat.
Proof.
  induction fds as [|f fds IH]; [done|].
  rewrite bind_cons, length_app, length_le_bytes, IH. simpl. lia.
Qed.

(** Splitting a buffer at a known length. *)
Lemma take_len {A} (l l' : list A) n : length l = n → take n (l ++ l') = l.
Proof. intros <-. by rewrite take_app_length. Qed.
Lemma drop_len {A} (l l' : list A) n : length l = n → drop n (l ++ l') = l'.
Proof. intros <-. by rewrite drop_app_length. Qed.

Lemma cmsgAlign_eq n : cmsgAlign n = 8 * ((n + 7) / 8).
Proof.
  unfold cmsgAlign. rewrite <-Z.ldiff_land. change (Z.ldiff (n + 7) 7) with
    (Z.ldiff (n + 7) (Z.ones 3)).
  rewrite Z.ldiff_ones_r by lia. rewrite Z.shiftr_div_pow2, Z.shiftl_mul_pow2 by lia.
  change (2 ^ 3) with 8. lia.
Qed.

Lemma cmsgAlign_bounds n : n ≤ cmsgAlign n < n + 8.
Proof. rewrite cmsgAlign_eq. Z.to_euclidean_division_equations; lia. Qed.

Lemma parse_scm_nil fuel : parse_scm fuel [] = Ok [].
Proof. by destruct fuel. Qed.

(** One message carrying descriptors decodes to exactly their list. *)
Lemma parse_UnixRights fds :
  Z.of_nat (length fds) ≤ 2 ^ 32 →
  ParseSocketControlMessage (UnixRights fds) =
    Ok [{| SCMLevel := SOL_SOCKET; SCMType := SCM_RIGHTS; SCMData := fds ≫= le_bytes 4 |}].
Proof.
  intros Hn. unfold ParseSocketControlMessage, UnixRights.
  set (n := 4 * Z.of_nat (length fds)).
  set (zs := replicate _ 0).
  assert (Hz : Z.of_nat (length zs) = cmsgAlign n - n).
  { subst zs. rewrite length_replicate. unfold CmsgSpace, CmsgLen.
    pose proof (cmsgAlign_bounds n). lia. }
  set (b := le_bytes 8 _ ++ _).
  assert (Hb : Z.of_nat (length b) = 16 + cmsgAlign n).
  { subst b. rewrite !length_app, !length_le_bytes, length_fd_bytes. lia. }
  assert (Hv : le_value (take 8 b) = 16 + n).
  { subst b. rewrite take_len by apply length_le_bytes. rewrite le_value_bytes.
    unfold CmsgLen, SizeofCmsghdr. rewrite Z.mod_small; lia. }
  assert (Ha : cmsgAlign (16 + n) = 16 + cmsgAlign n) by (rewrite !cmsgAlign_eq; Z.to_euclidean_division_equations; lia).
  pose proof (cmsgAlign_bounds n) as Hbd.
  assert (0 ≤ n) by lia.
  destruct (length b) as [|k] eqn:Ek; [lia|]. cbn [parse_scm]. rewrite Ek.
  unfold CmsgLen, SizeofCmsghdr. rewrite Hv, Ha.
  rewrite !(proj2 (Z.ltb_ge _ _)) by lia. cbn [orb].
  rewrite (drop_ge b) by lia. rewrite parse_scm_nil. do 3 f_equal.
  subst b. rewrite !app_assoc, take_len.
  - rewrite <-!app_assoc, app_assoc, app_assoc.
    by rewrite drop_len by (by rewrite !length_app, !length_le_bytes).
  - rewrite !length_app, !length_le_bytes, length_fd_bytes. lia.
Qed.

(** ** Specification: a socket that passes descriptors *)

(** The descriptors of a control message, as the kernel reads them. *)
Definition rights_of (oob : list Z) : option (list Z) :=
  match ParseSocketControlMessage oob with
  | Ok [m] => if (SCMLevel m =? SOL_SOCKET) && (SCMType m =? SCM_RIGHTS)
              then int32s (SCMData m) else None
  | _ => None
  end.

(** What is in flight on the socket: the data and the descriptors of one message.
    The receiver gets as much of the data as its buffer holds and as many
    descriptors as its control buffer holds, under new numbers [ren].  Any call
    may fail, and nothing else touches the socket. *)
Definition socket `{QuantityLib} (ren : Z → Z) : rely (option (list Z * list Z)) :=
  λ c _ w a _ w',
    match c return ans c → Prop with
    | Sendmsg _ msg oob => λ r,
        match r with
        | None => ∃ fds, rights_of oob = Some fds ∧ w' = Some (msg, fds)
        | Some _ => w' = w
        end
    | Recvmsg _ buflen ooblen => λ r,
        w' = w ∧
        match r with
        | Ok (m, o) => ∃ msg fds, w = Some (msg, fds) ∧ m = take (Z.to_nat buflen) msg ∧
            o = UnixRights (ren <$> take (Z.to_nat ((ooblen - SizeofCmsghdr) / 4)) fds)
        | Err _ => True
        end
    | _ => λ _, w' = w
    end a.

Definition is_descriptor (f : Z) : Prop := 0 ≤ f < 2 ^ 31.

Lemma wrap32_descriptors fds : Forall is_descriptor fds → wrap32 <$> fds = fds.
Proof.
  induction 1 as [|f fds Hf Hfs IH]; [done|]. cbn [fmap list_fmap] in *.
  unfold is_descriptor in Hf. by rewrite IH, wrap32_small by lia.
Qed.

Lemma rights_UnixRights fds :
  Z.of_nat (length fds) ≤ 2 ^ 32 → Forall is_descriptor fds → rights_of (UnixRights fds) = Some fds.
Proof.
  intros Hn Hf. unfold rights_of. rewrite parse_UnixRights by done. cbn.
  by rewrite int32s_bytes, wrap32_descriptors.
Qed.

Section Spec.
Context `{QuantityLib}.

(** [received] on a message with descriptors yields the first one and the data. *)
Lemma received_first fd fds msg :
  Z.of_nat (length (fd :: fds)) ≤ 2 ^ 32 → Forall is_descriptor (fd :: fds) →
  received msg (UnixRights (fd :: fds)) = Ret (Ok (fd, msg)).
Proof.
  intros Hn Hf. unfold received. rewrite parse_UnixRights by done. cbn [SCMLevel SCMType SCMData].
  by rewrite int32s_bytes, wrap32_descriptors.
Qed.

(** Sender and receiver over the same socket; [None]: the sender failed. *)
Definition send_recv (cs cr : net_conn) (fds msg : list Z) : prog (option (result (Z * list Z))) :=
  r ← SendMsgFds cs fds msg;
  match r with
  | Some _ => mret None
  | None => v ← RecvMsg cr; mret (Some v)
  end.

Lemma send_spec ren c fds msg s w :
  fds ≠ [] → Z.of_nat (length fds) ≤ 2 ^ 32 → Forall is_descriptor fds →
  wp (socket ren) (SendMsgFds (UnixConn c) fds msg) s w
    (λ r _ w' _, ∃ e, r = Done e ∧ (e = None → w' = Some (msg, fds))).
Proof.
  intros Hne Hn Hf. destruct fds as [|fd fds]; [done|]. simpl.
  intros f s1 w1 ->. destruct f as [f|e]; simpl; [|by eexists].
  intros r s2 w2 Hr s3 _ w3 ->. eexists. split; [done|]. destruct r as [e|]; [done|]. intros _.
  destruct Hr as (fds' & Hfds & ->). by rewrite rights_UnixRights in Hfds by done; simplify_eq.
Qed.

Lemma recv_spec ren c fd fds msg s :
  (∀ f, is_descriptor (ren f)) →
  wp (socket ren) (RecvMsg (UnixConn c)) s (Some (msg, fd :: fds))
    (λ r _ _ _, ∃ v, r = Done v ∧ ∀ f m, v = Ok (f, m) → f = ren fd ∧ m = take 4096 msg).
Proof.
  intros Hren. simpl. intros f s1 w1 ->. destruct f as [f|e]; simpl; [|by eexists].
  intros r s2 w2 [-> Hr]. destruct r as [[m o]|e]; simpl.
  - destruct Hr as (? & ? & [= <- <-] & -> & ->).
    change (Z.to_nat ((CmsgSpace 4 - SizeofCmsghdr) / 4)) with 2%nat.
    change (Z.to_nat 4096) with 4096%nat. cbn [take fmap list_fmap].
    rewrite received_first; cycle 1.
    { simpl. rewrite length_fmap, length_take. lia. }
    { constructor; [done|]. apply Forall_fmap, Forall_true. intros f'. apply Hren. }
    simpl. intros _ s3 w3 _. eexists. split; [done|]. by intros f' m [= <- <-].
  - intros _ s3 w3 _. eexists. by split.
Qed.

Lemma SendMsgFds_owns conn fds msg held : owns (SendMsgFds conn fds msg) held (left_with held).
Proof.
  destruct fds as [|fd fds]; [exact (left_refl _ _)|]. destruct conn as [c|t]; [|exact (left_refl _ _)].
  intros [f|e]; [|exact (left_refl _ _)]. intros r. exists held. split; [done|]. intros ?.
  exact (left_refl _ _).
Qed.

Lemma received_free msg oob : emits fd_free (received msg oob).
Proof. unfold received. repeat case_match; exact I. Qed.

Lemma RecvMsg_owns conn held : owns (RecvMsg conn) held (left_with held).
Proof.
  destruct conn as [c|t]; [|exact (left_refl _ _)]. intros [f|e]; [|exact (left_refl _ _)]. intros r.
  apply owns_bind. apply owns_free.
  - destruct r as [[m o]|e]; [apply received_free|exact I].
  - intros v. exists held. split; [done|]. intros ?. exact (left_refl _ _).
Qed.

#[local] Opaque SendMsgFds RecvMsg.

Lemma send_recv_owns cs cr fds msg held :
  owns (send_recv cs cr fds msg) held (left_with held).
Proof.
  apply owns_bind. eapply owns_mono; [|apply SendMsgFds_owns]. intros [e|] l Hl; [exact Hl|].
  apply owns_bind. eapply owns_mono; [|apply RecvMsg_owns]. intros v l' Hl'.
  change (l' ≡ₚ held). unfold left_with in *. by etrans.
Qed.

(** C25. Descriptor passing works: over a socket that passes descriptors the way
    Linux does (under new numbers, as many as the control buffer holds, each call
    free to fail), what [RecvMsg] returns after [SendMsgFds] succeeded is the
    sender's first descriptor under its new number together with the data, both
    functions return on every path, and each closes the duplicate of the socket it
    made, exactly once. *)
Theorem fd_passing (h : env (option (list Z * list Z))) ren cs cr fd fds msg s w :
  env_ok (socket ren) h →
  (∀ f, is_descriptor (ren f)) → Forall is_descriptor (fd :: fds) →
  Z.of_nat (length (fd :: fds)) ≤ 2 ^ 32 → Z.of_nat (length msg) ≤ 4096 →
  let o := run h (send_recv (UnixConn cs) (UnixConn cr) (fd :: fds) msg) s w in
  (∃ v, o_res o = Done v ∧ ∀ f m, v = Some (Ok (f, m)) → f = ren fd ∧ m = msg) ∧
  opened_in (o_trace o) ≡ₚ released_in (o_trace o).
Proof.
  intros Hh Hren Hf Hn Hm o.
  assert (Hres : ∃ v, o_res o = Done v ∧ ∀ f m, v = Some (Ok (f, m)) → f = ren fd ∧ m = msg).
  { eapply (run_wp _ _ _ _ _ (λ r _ _ _, ∃ v, r = Done v ∧ ∀ f m, v = _ → f = _ ∧ m = _) Hh).
    apply wp_bind. eapply wp_mono; [|by eapply send_spec]. simpl.
    intros r s1 w1 tr (e & -> & Hw). simpl. destruct e as [e|]; simpl; [by eexists|].
    rewrite Hw by done. apply (wp_bind _ (RecvMsg (UnixConn cr))). eapply wp_mono; [|by eapply recv_spec].
    intros r s2 w2 tr2 (v & -> & Hv). simpl. eexists. split; [done|].
    intros f m [= ->]. destruct (Hv f m) as [-> ->]; [done|]. split; [done|].
    by rewrite take_ge by lia. }
  split; [done|]. destruct Hres as (v & Hv & _).
  eapply owns_balance; [apply send_recv_owns|exact Hv].
Qed.
End Spec.

(** ** A concrete run: three descriptors, renumbered by 100 *)

Section Demo.
#[local] Existing Instance z_quantities.

Definition demo_ren (f : Z) : Z := f `mod` 1000 + 100.

Definition demo_socket : env (option (list Z * list Z)) := λ c s w,
  match c return ans c * mem * option (list Z * list Z) with
  | ConnFile c => (Ok (c + 10), s, w)
  | Sendmsg f msg oob =>
      match rights_of oob with
      | Some fds => (None, s, Some (msg, fds))
      | None => (Some (Errno EINVAL), s, w)
      end
  | Recvmsg f buflen ooblen =>
      (match w with
       | Some (msg, fds) =>
           Ok (take (Z.to_nat buflen) msg,
               UnixRights (demo_ren <$> take (Z.to_nat ((ooblen - SizeofCmsghdr) / 4)) fds))
       | None => Err (Errno EIO)
       end, s, w)
  | c => (idle c, s, w)
  end.

Lemma demo_socket_ok : env_ok (socket demo_ren) demo_socket.
Proof.
  intros c s w. destruct c; try done.
  - simpl. destruct (rights_of oob) eqn:E; simpl; [|done]. eauto.
  - simpl. destruct w as [[msg fds]|]; simpl; [|done]. split; [done|]. by exists msg, fds.
Qed.

Example fd_passing_witness :
  (∃ v, o_res (run demo_socket (send_recv (UnixConn 1) (UnixConn 2) [7; 8; 9] [65]) empty_mem None)
        = Done v ∧ ∀ f m, v = Some (Ok (f, m)) → f = demo_ren 7 ∧ m = [65]) ∧
  o_res (run demo_socket (send_recv (UnixConn 1) (UnixConn 2) [7; 8; 9] [65]) empty_mem None)
  = Done (Some (Ok (107, [65]))).
Proof.
  split; [|by vm_compute].
  refine (proj1 (fd_passing demo_socket demo_ren 1 2 7 [8; 9] [65] empty_mem None demo_socket_ok
                   _ _ _ _)).
  - intros f. unfold is_descriptor, demo_ren. pose proof (Z.mod_pos_bound f 1000). lia.
  - repeat constructor; unfold is_descriptor; lia.
  - vm_compute. done.
  - vm_compute. done.
Defined.
End Demo.
