(* ===== verification/Sidecar.v ===== *)
(** * Sidecar mounts (pkg/driver/sidecar_mounter_linux.go)

    In sidecar mode the driver opens /dev/fuse, mounts it on the target, and hands
    the descriptor to a container in the workload pod over a Unix socket in a
    shared emptyDir.  [sidecarMount] does everything up to the listening socket;
    [sidecarHandoff] is the goroutine it starts.  Control files are written inside
    the handoff directory without following symbolic links. *)
From S2P Require Import Prelude GoStrings Sha256 GoTime GoErrors Unstructured Resources.
From S2P Require Import Names MountArgs Kube Effects MountInfo Sweeper Descriptors FdChannel.

Local Open Scope Z_scope.

(** ** Constants *)

Definition emptyDirName : string := "hf-csi-tmp".
Definition kubeletPodsBase : string := "/var/lib/kubelet/pods".
Definition socketAcceptTimeout : Z := 5 * minute.
Definition symlinkBase : string := "/var/run/hf-csi".
Definition defaultSidecarFuseFdCount : Z := 4.
Definition sidecarMountPath : string := "/hf-csi-tmp".

(** The sidecar's user, and file modes in decimal. *)
Definition sidecarUID : Z := 65534.
Definition mode_600 : Z := 384.
Definition mode_644 : Z := 420.
Definition mode_755 : Z := 493.

(** ** Paths *)

(** The part of a host path after ["hf-csi-tmp/"] as the sidecar sees it. *)
Definition sidecarPath (hostPath : string) : string :=
  let marker := emptyDirName +++ "/" in
  match Index hostPath marker with
  | None => hostPath
  | Some idx => JoinPath [sidecarMountPath; s_drop (idx + String.length marker) hostPath]
  end.

Definition sidecarEmptyDirPath (podUID : string) : string :=
  JoinPath [kubeletPodsBase; podUID; "volumes"; "kubernetes.io~empty-dir"; emptyDirName]%string.

(** [fmt.Sprintf("%x", sha256.Sum256([]byte(volumeName)))[:12]]. *)
Definition volume_hash (volumeName : string) : string := s_take 12 (hex (Sum256 volumeName)).

Definition handoff_dir (podUID volumeName : string) : string :=
  JoinPath [sidecarEmptyDirPath podUID; ".volumes"; volume_hash volumeName]%string.
Definition socket_symlink (volumeName : string) : string :=
  JoinPath [symlinkBase; volume_hash volumeName].

(** The options written for the sidecar: no host cache, the token under its path
    in the sidecar. *)
Definition sidecar_options `{QuantityLib} (volumeDir : string) (o : MountOptions) : MountOptions :=
  {| Revision := Revision o; HubEndpoint := HubEndpoint o; CacheDir := "";
     CacheSize := CacheSize o; PollIntervalSecs := PollIntervalSecs o;
     PollListingConcurrency := PollListingConcurrency o; MetadataTtlMs := MetadataTtlMs o;
     InodeSoftLimit := InodeSoftLimit o; LruSweepIntervalMs := LruSweepIntervalMs o;
     FuseFdCount := FuseFdCount o; ReadOnly := ReadOnly o; ExtraArgs := ExtraArgs o;
     TokenFile := if String.eqb (TokenFile o) "" then ""
                  else sidecarPath (JoinPath [volumeDir; "token"%string]);
     WorkloadPodUID := WorkloadPodUID o; VolumeMountGroup := VolumeMountGroup o;
     MResources := MResources o |}.

(** [user_id] and [group_id] of the mount. *)
Definition fuse_owner (volumeMountGroup : string) : Z :=
  if String.eqb volumeMountGroup "" then 0
  else match Atoi volumeMountGroup with
       | Some v => if 0 <? v then v else 0
       | None => 0
       end.

Definition fuse_mount_data (fd owner : Z) : string :=
  "fd=" +++ Itoa fd +++ ",rootmode=40755,user_id=" +++ Itoa owner +++
  ",group_id=" +++ Itoa owner +++ ",allow_other,default_permissions".

Definition args_content (args : list string) : string :=
  "hf-mount-fuse-sidecar" +++ str1 newline +++ Join args (str1 newline) +++ str1 newline.

Section Sidecar.
Context `{QuantityLib}.

(** ** Descriptors *)

(** A setting that parses as a positive integer replaces the default [n]. *)
Definition fd_count_from (v : string) (n : Z) : Z :=
  if String.eqb v "" then n
  else match Atoi v with
       | Some p => if 1 <=? p then p else n
       | None => n
       end.

Definition sidecarFuseFdCount (volumeAttr : string) : prog Z :=
  v ← call_ (Getenv "HF_CSI_SIDECAR_FUSE_FD_COUNT");
  let n := fd_count_from volumeAttr (fd_count_from v defaultSidecarFuseFdCount) in
  mret (if 32 <? n then 32 else n).

Definition cloneFuseFd (src : Z) : prog (result Z) :=
  dst ← call_ OpenDevFuse;
  match dst with
  | Err e => mret (Err (Errorf "open /dev/fuse for clone: %w" [] [e]))
  | Ok dst =>
      r ← call_ (IoctlClone dst (src `mod` 2 ^ 32));
      match r with
      | Some e => _ ← call_ (CloseFd dst); mret (Err (Errorf "FUSE_DEV_IOC_CLONE: %w" [] [e]))
      | None => mret (Ok dst)
      end
  end.

(** ** Mount state *)

(** The last entry whose mount point is exactly [target]. *)
Definition sidecarMountInfo (target : string) : prog (result (option MountInfo)) :=
  infos ← call_ (ParseMountInfo selfMountinfo);
  mret (match infos with
        | Err e => Err e
        | Ok infos =>
            Ok (List.find (λ i, String.eqb (unescapeMountPath (MIMountPoint i)) (Clean target))
                  (rev infos))
        end).

(** [Ok (Some minor)]: our FUSE mount; [Ok None]: nothing mounted. *)
Definition sidecarMountState (target : string) : prog (result (option Z)) :=
  info ← sidecarMountInfo target;
  mret (match info with
        | Err e => Err e
        | Ok None => Ok None
        | Ok (Some i) =>
            if negb (String.eqb (MIFsType i) "fuse" || String.eqb (MIFsType i) "fuse.hf-mount")
               || negb (String.eqb (MISource i) fuseMountSource)
            then Err (Errorf "unexpected mount at %s: type %s, source %s"
                        [target; MIFsType i; MISource i] [])
            else Ok (Some (MIMinor i))
        end).

Definition requireSidecarTmpfs (tmpDir : string) : prog (option gerror) :=
  info ← sidecarMountInfo tmpDir;
  mret (match info with
        | Err e => Some (Errorf "check sidecar emptyDir mount: %w" [] [e])
        | Ok (Some i) =>
            if String.eqb (MIFsType i) "tmpfs" then None
            else Some (Errorf "sidecar emptyDir %s is not mounted as tmpfs yet" [tmpDir] [])
        | Ok None => Some (Errorf "sidecar emptyDir %s is not mounted as tmpfs yet" [tmpDir] [])
        end).

(** ** Control files *)

Definition openHandoffFile (dir name : string) (write : bool) (perm : Z) : prog (result Z) :=
  d ← call_ (OpenDir dir);
  match d with
  | Err e => mret (Err (Errorf "open handoff dir %s: %w" [dir] [e]))
  | Ok d =>
      f ← call_ (Openat2 d name write perm);
      _ ← call_ (CloseFd d);
      mret (match f with
            | Err e => Err (Errorf "openat2 %s in %s: %w" [name; dir] [e])
            | Ok f => Ok f
            end)
  end.

(** A failed write or chown closes the file and is returned; otherwise the error of
    closing is. *)
Definition writeHandoffFile (dir name data : string) (perm : Z) (chownSidecar : bool)
  : prog (option gerror) :=
  f ← openHandoffFile dir name true perm;
  match f with
  | Err e => mret (Some e)
  | Ok f =>
      w ← call_ (FdWrite f data);
      r ← match w with
          | Some e => mret (Some (Errorf "write %s: %w" [name] [e]))
          | None =>
              if chownSidecar then
                c ← call_ (FdChown f sidecarUID sidecarUID);
                mret (match c with
                      | Some e => Some (Errorf "chown %s: %w" [name] [e])
                      | None => None
                      end)
              else mret None
          end;
      c ← call_ (CloseFd f);
      mret (match r with Some e => Some e | None => c end)
  end.

Definition readHandoffFile (dir name : string) : prog (result string) :=
  f ← openHandoffFile dir name false 0;
  match f with
  | Err e => mret (Err e)
  | Ok f => d ← call_ (FdReadAll f); _ ← call_ (CloseFd f); mret d
  end.

(** ** sidecarMount *)

(** The deferred-by-hand [cleanup] closure. *)
Definition sidecar_cleanup (target : string) (fd : Z) : prog unit :=
  _ ← call_ (Unmount target false);
  _ ← call_ (CloseFd fd);
  mret tt.

(** Status files of a previous attempt. *)
Definition status_files : list string := ["ready"; "error"; "handoff-error"]%string.

Fixpoint clear_status (volumeDir : string) (names : list string) : prog (option gerror) :=
  match names with
  | [] => mret None
  | name :: names' =>
      r ← call_ (Remove (JoinPath [volumeDir; name]));
      match r with
      | Some e => if IsNotExist e then clear_status volumeDir names'
                  else mret (Some (Errorf "clear sidecar %s: %w" [name] [e]))
      | None => clear_status volumeDir names'
      end
  end.

(** Copies the token of the CSI driver into the handoff directory; a token file
    that cannot be read is skipped. *)
Definition copy_token (volumeDir tokenFile : string) : prog (option gerror) :=
  if String.eqb tokenFile "" then mret None
  else
    data ← call_ (ReadFile tokenFile);
    match data with
    | Err _ => mret None
    | Ok data =>
        r ← writeHandoffFile volumeDir "token" data mode_600 true;
        mret (match r with
              | Some e => Some (Errorf "write sidecar token: %w" [] [e])
              | None => None
              end)
    end.

Definition write_args (sourceType sourceID : string) (opts : MountOptions) (volumeDir : string)
  : prog (option gerror) :=
  match buildArgs sourceType sourceID "/tmp" (sidecar_options volumeDir opts) with
  | Err e => mret (Some (Errorf "build args: %w" [] [e]))
  | Ok args =>
      r ← writeHandoffFile volumeDir "args" (args_content args) mode_644 false;
      mret (match r with
            | Some e => Some (Errorf "write args: %w" [] [e])
            | None => None
            end)
  end.

(** The short path to the socket and the listener on it. *)
Definition open_socket (volumeDir symlinkPath : string) : prog (option gerror) :=
  r ← call_ (MkdirAll symlinkBase mode_755);
  match r with
  | Some e => mret (Some (Errorf "create symlink base: %w" [] [e]))
  | None =>
      _ ← call_ (Remove symlinkPath);
      r ← call_ (Symlink volumeDir symlinkPath);
      match r with
      | Some e => mret (Some (Errorf "create symlink: %w" [] [e]))
      | None =>
          let socketPath := JoinPath [symlinkPath; "s"%string] in
          _ ← call_ (Remove (JoinPath [volumeDir; "s"%string]));
          r ← call_ (Listen socketPath);
          mret (match r with
                | Some e => Some (Errorf "listen on %s: %w" [socketPath] [e])
                | None => None
                end)
      end
  end.

(** Steps 2 and 3, up to the first failure: after each of them the code runs
    [cleanup()] and returns the error. *)
Definition prepare_handoff (sourceType sourceID : string) (opts : MountOptions)
    (volumeDir symlinkPath : string) : prog (option gerror) :=
  r ← call_ (MkdirAll volumeDir mode_755);
  match r with
  | Some e => mret (Some (Errorf "create volume dir: %w" [] [e]))
  | None =>
      _ ← call_ (Chown volumeDir sidecarUID sidecarUID);
      r ← clear_status volumeDir status_files;
      match r with
      | Some e => mret (Some e)
      | None =>
          r ← copy_token volumeDir (TokenFile opts);
          match r with
          | Some e => mret (Some e)
          | None =>
              r ← write_args sourceType sourceID opts volumeDir;
              match r with
              | Some e => mret (Some e)
              | None => open_socket volumeDir symlinkPath
              end
          end
      end
  end.

(** Step 4: mark the connection and start the goroutine. *)
Definition start_handoff (fd : Z) (target volumeDir symlinkPath fuseFdCount : string) : prog unit :=
  _ ← call_ (Lchown (JoinPath [volumeDir; "s"%string]) sidecarUID sidecarUID);
  pending ← fuseMinorForMount target;
  _ ← match pending with
      | Some minor_ => markSidecarHandoffPending minor_
      | None => mret tt
      end;
  call_ (Go (TSidecarHandoff {|
    ho_fd := fd; ho_volumeDir := volumeDir; ho_symlinkPath := symlinkPath;
    ho_listener := JoinPath [symlinkPath; "s"%string]; ho_fuseFdCount := fuseFdCount;
    ho_pending := pending |})).

Definition sidecarMount (sourceType sourceID target : string) (opts : MountOptions)
    (volumeName : string) : prog (option gerror) :=
  let tmpDir := sidecarEmptyDirPath (WorkloadPodUID opts) in
  r ← requireSidecarTmpfs tmpDir;
  match r with
  | Some e => mret (Some e)
  | None =>
      fd ← call_ OpenDevFuse;
      match fd with
      | Err e => mret (Some (Errorf "open /dev/fuse: %w" [] [e]))
      | Ok fd =>
          r ← call_ (Mount fuseMountSource target "fuse" false true
                       (fuse_mount_data fd (fuse_owner (VolumeMountGroup opts))));
          match r with
          | Some e => _ ← call_ (CloseFd fd); mret (Some (Errorf "fuse mount on %s: %w" [target] [e]))
          | None =>
              let volumeDir := handoff_dir (WorkloadPodUID opts) volumeName in
              let symlinkPath := socket_symlink volumeName in
              r ← prepare_handoff sourceType sourceID opts volumeDir symlinkPath;
              match r with
              | Some e => _ ← sidecar_cleanup target fd; mret (Some e)
              | None =>
                  _ ← start_handoff fd target volumeDir symlinkPath (FuseFdCount opts);
                  mret None
              end
          end
      end
  end.

(** ** The goroutine *)

(** [for i := 1; i < fdCount; i++]: clones until one fails. *)
Fixpoint clone_loop (n : nat) (fd : Z) (fds : list Z) : prog (list Z) :=
  match n with
  | O => mret fds
  | S n' =>
      c ← cloneFuseFd fd;
      match c with
      | Err _ => mret fds
      | Ok c => clone_loop n' fd (fds ++ [c])
      end
  end.

(** After the sidecar connected: clone, send, close; was the handoff a success? *)
Definition send_handoff (h : handoff) (conn : Z) : prog bool :=
  fdCount ← sidecarFuseFdCount (ho_fuseFdCount h);
  fds ← clone_loop (Z.to_nat (fdCount - 1)) (ho_fd h) [ho_fd h];
  r ← SendMsgFds (UnixConn conn) fds [];
  _ ← for_each fds (λ f, _ ← call_ (CloseFd f); mret tt);
  _ ← call_ (CloseConn conn);
  mret (match r with None => true | Some _ => false end).

(** The deferred calls run in reverse order of their registration. *)
Definition sidecarHandoff (h : handoff) : prog unit :=
  now ← call_ Now;
  _ ← call_ (SetDeadline (ho_listener h) (now + socketAcceptTimeout));
  conn ← call_ (Accept (ho_listener h));
  succeeded ← match conn with
              | Err _ => _ ← call_ (CloseFd (ho_fd h)); mret false
              | Ok conn => send_handoff h conn
              end;
  _ ← (if succeeded : bool then mret None
       else writeHandoffFile (ho_volumeDir h) "handoff-error" "FUSE fd handoff failed" mode_644 false);
  _ ← call_ (Remove (ho_symlinkPath h));
  _ ← call_ (CloseListener (ho_listener h));
  match ho_pending h with
  | Some minor_ => clearSidecarHandoffPending minor_
  | None => mret tt
  end.

(** ** Republish and unpublish *)

Fixpoint health_loop (volumeDir : string) (names : list string) : prog (option gerror) :=
  match names with
  | [] => mret None
  | name :: names' =>
      d ← readHandoffFile volumeDir name;
      match d with
      | Err e =>
          if IsErrno ENOENT e then health_loop volumeDir names'
          else mret (Some (Errorf "read sidecar %s: %w" [name] [e]))
      | Ok data =>
          if String.eqb (TrimSpace data) "" then health_loop volumeDir names'
          else mret (Some (Errorf "sidecar %s: %s" [name; TrimSpace data] []))
      end
  end.

Definition checkSidecarHealth (podUID volumeName : string) : prog (option gerror) :=
  let volumeDir := handoff_dir podUID volumeName in
  info ← call_ (Lstat volumeDir);
  match info with
  | Err e => mret (Some (Errorf "sidecar handoff directory unavailable: %w" [] [e]))
  | Ok info =>
      if IsDir info then health_loop volumeDir ["handoff-error"; "error"]%string
      else mret (Some (Errorf "sidecar handoff path is not a directory" [] []))
  end.

Definition cleanupSidecarSocket (volumeName : string) : prog unit :=
  _ ← call_ (Remove (socket_symlink volumeName));
  mret tt.

(** A failure is only logged. *)
Definition refreshSidecarToken (podUID volumeName token : string) : prog unit :=
  _ ← writeHandoffFile (handoff_dir podUID volumeName) "token" token mode_600 true;
  mret tt.
End Sidecar.
