(* ===== verification/SidecarSpec.v ===== *)
(** * Sidecar mounts: specification and proofs

    Ownership of the /dev/fuse descriptors through [sidecarMount] and its
    goroutine, the all-or-nothing outcome of a mount, the outcome of a handoff and
    the life of the marker that exempts the connection from the orphan sweeper,
    and the path under which the sidecar finds its token. *)
From S2P Require Import Prelude GoStrings Sha256 GoTime GoErrors Unstructured Resources.
From S2P Require Import Names MountArgs Kube Effects MountInfo Sweeper Descriptors FdChannel Sidecar.
From Stdlib Require Import Ascii.

Local Open Scope Z_scope.

(** ** Ownership of the descriptors *)

Section Ownership.
Context `{QuantityLib}.

(** Ends with the descriptors held before and the one returned. *)
Definition gains (held : list Z) (r : result Z) (l : list Z) : Prop := l ≡ₚ fd_of r ++ held.

(** Steps through calls that do not release a descriptor. *)
Ltac own_steps :=
  repeat first
    [ progress intros
    | match goal with |- owns (Ret _) _ _ => apply Permutation_refl end
    | match goal with |- owns (mret _) _ _ => apply Permutation_refl end
    | match goal with |- owns (if ?b then _ else _) _ _ => destruct b end
    | match goal with |- owns (match ?x with _ => _ end) _ _ => destruct x end
    | progress simpl ].

Lemma openHandoffFile_owns dir name write perm held :
  owns (openHandoffFile dir name write perm) held (gains held).
Proof.
  intros [d|e]; [|apply Permutation_refl]. intros f. exists (fd_of f ++ held). split.
  - simpl. apply Permutation_sym, Permutation_middle.
  - intros ?. destruct f; apply Permutation_refl.
Qed.

#[local] Opaque openHandoffFile.

Lemma writeHandoffFile_owns dir name data perm chown held :
  owns (writeHandoffFile dir name data perm chown) held (left_with held).
Proof.
  apply owns_bind. eapply owns_mono; [|apply openHandoffFile_owns].
  intros [f|e] l Hl; [|exact Hl]. intros w. apply owns_bind. apply owns_free.
  - destruct w, chown; repeat first [exact I | split; [by split|intros ?]].
  - intros r. exists held. split; [done|]. intros ?. apply Permutation_refl.
Qed.

Lemma readHandoffFile_owns dir name held :
  owns (readHandoffFile dir name) held (left_with held).
Proof.
  apply owns_bind. eapply owns_mono; [|apply openHandoffFile_owns].
  intros [f|e] l Hl; [|exact Hl]. intros d. exists held. split; [done|]. intros ?.
  apply Permutation_refl.
Qed.

Lemma cloneFuseFd_owns src held : owns (cloneFuseFd src) held (gains held).
Proof.
  intros [d|e]; [|apply Permutation_refl]. intros [e|]; [|apply Permutation_refl].
  exists held. split; [done|]. intros ?. apply Permutation_refl.
Qed.

#[local] Opaque cloneFuseFd writeHandoffFile readHandoffFile SendMsgFds.

Lemma clone_loop_owns n fd fds rest held :
  held ≡ₚ fds ++ rest → owns (clone_loop n fd fds) held (λ fds' l, l ≡ₚ fds' ++ rest).
Proof.
  revert fds held. induction n as [|n IH]; intros fds held Hh; [exact Hh|].
  apply owns_bind. eapply owns_mono; [|apply cloneFuseFd_owns].
  intros [c|e] l Hl; unfold gains in Hl; simpl in Hl.
  - apply IH. rewrite Hl, Hh. solve_Permutation.
  - change (l ≡ₚ fds ++ rest). by rewrite Hl.
Qed.

Lemma send_handoff_owns h conn : owns (send_handoff h conn) [ho_fd h] (left_with []).
Proof.
  intros v. apply owns_bind. simpl. apply owns_bind.
  eapply owns_mono; [|by apply (clone_loop_owns _ _ _ [])].
  intros fds l Hl. apply owns_bind. eapply owns_mono; [|apply SendMsgFds_owns].
  intros r l' Hl'. apply owns_bind. eapply owns_mono; [|apply (owns_close_all _ _ [])].
  - intros ? l2 Hl2. intros ?. exact Hl2.
  - unfold left_with in Hl'. by rewrite Hl'.
Qed.

#[local] Opaque send_handoff.

Lemma sidecarHandoff_owns h : owns (sidecarHandoff h) [ho_fd h] (left_with []).
Proof.
  intros now ? conn. apply owns_bind.
  eapply (owns_mono _ _ (left_with [])); cycle 1.
  { destruct conn as [c|e]; [apply send_handoff_owns|].
    exists []. split; [done|]. intros ?. apply Permutation_refl. }
  intros succeeded l Hl. apply owns_bind. eapply (owns_mono _ _ (left_with l)); cycle 1.
  { destruct succeeded; [apply Permutation_refl|apply writeHandoffFile_owns]. }
  intros ? l2 Hl2. assert (l2 ≡ₚ []) as ->%Permutation_nil_r.
  { unfold left_with in *. by rewrite Hl2. }
  destruct (ho_pending h); own_steps; apply Permutation_refl.
Qed.

(** Programs that touch no descriptor. *)
Lemma clear_status_free volumeDir names : emits fd_free (clear_status volumeDir names).
Proof.
  induction names as [|n names IH]; [exact I|]. split; [by split|].
  intros [e|]; [|exact IH]. simpl. by destruct (IsNotExist e).
Qed.

Lemma sidecarMountInfo_free target : emits fd_free (sidecarMountInfo target).
Proof. split; [by split|]. intros r. exact I. Qed.

Lemma requireSidecarTmpfs_free tmpDir : emits fd_free (requireSidecarTmpfs tmpDir).
Proof. split; [by split|]. intros r. exact I. Qed.

Lemma open_socket_free volumeDir symlinkPath : emits fd_free (open_socket volumeDir symlinkPath).
Proof. unfold open_socket. go_emits ltac:(by split). Qed.

Lemma copy_token_owns volumeDir tokenFile held :
  owns (copy_token volumeDir tokenFile) held (left_with held).
Proof.
  unfold copy_token. destruct (String.eqb tokenFile ""); [apply Permutation_refl|].
  intros [data|e]; [|apply Permutation_refl]. apply owns_bind.
  eapply owns_mono; [|apply writeHandoffFile_owns]. by intros r l Hl.
Qed.

Lemma write_args_owns st sid opts volumeDir held :
  owns (write_args st sid opts volumeDir) held (left_with held).
Proof.
  unfold write_args. case_match; [|apply Permutation_refl]. apply owns_bind.
  eapply owns_mono; [|apply writeHandoffFile_owns]. by intros r l Hl.
Qed.

#[local] Opaque requireSidecarTmpfs clear_status copy_token write_args open_socket.

Lemma prepare_handoff_owns st sid opts volumeDir symlinkPath held :
  owns (prepare_handoff st sid opts volumeDir symlinkPath) held (left_with held).
Proof.
  intros [e|]; [apply Permutation_refl|]. intros ?.
  apply owns_seq; [apply owns_free_left, clear_status_free|]. intros [e|]; [apply Permutation_refl|].
  apply owns_seq; [apply copy_token_owns|]. intros [e|]; [apply Permutation_refl|].
  apply owns_seq; [apply write_args_owns|]. intros [e|]; [apply Permutation_refl|].
  apply owns_free_left, open_socket_free.
Qed.

Lemma fuseMinorForMount_free target : emits fd_free (fuseMinorForMount target).
Proof. split; [by split|]. by intros [r|e]. Qed.

#[local] Opaque fuseMinorForMount prepare_handoff.

Lemma start_handoff_owns fd target volumeDir symlinkPath n :
  owns (start_handoff fd target volumeDir symlinkPath n) [fd] (left_with []).
Proof.
  intros ?. apply owns_seq; [apply owns_free_left, fuseMinorForMount_free|]. intros pending.
  apply owns_seq; [|by exists []; split; [|intros ?; apply Permutation_refl]].
  destruct pending; [|apply Permutation_refl]. intros ? s. apply Permutation_refl.
Qed.

#[local] Opaque start_handoff.

Lemma sidecarMount_owns st sid target opts volumeName :
  owns (sidecarMount st sid target opts volumeName) [] (left_with []).
Proof.
  apply owns_seq; [apply owns_free_left, requireSidecarTmpfs_free|].
  intros [e|]; [apply Permutation_refl|]. intros [fd|e]; [|apply Permutation_refl].
  intros [e|]; [exists []; split; [done|intros ?; apply Permutation_refl]|].
  apply owns_seq; [apply prepare_handoff_owns|]. intros [e|].
  - intros ?. exists []. split; [done|]. intros ?. apply Permutation_refl.
  - apply owns_bind. eapply owns_mono; [|apply start_handoff_owns]. by intros ? l Hl.
Qed.
End Ownership.

(** ** The programs return *)

Section Returns.
Context `{QuantityLib}.

Lemma openHandoffFile_returns dir name write perm : returns (openHandoffFile dir name write perm).
Proof. unfold openHandoffFile. go_returns. Qed.
#[local] Hint Resolve openHandoffFile_returns : go_returns.

Lemma writeHandoffFile_returns dir name data perm chown :
  returns (writeHandoffFile dir name data perm chown).
Proof. unfold writeHandoffFile. go_returns. Qed.

Lemma readHandoffFile_returns dir name : returns (readHandoffFile dir name).
Proof. unfold readHandoffFile. go_returns. Qed.
#[local] Hint Resolve writeHandoffFile_returns readHandoffFile_returns : go_returns.

Lemma clear_status_returns volumeDir names : returns (clear_status volumeDir names).
Proof. induction names; simpl; go_returns. Qed.
#[local] Hint Resolve clear_status_returns : go_returns.

Lemma prepare_handoff_returns st sid opts volumeDir symlinkPath :
  returns (prepare_handoff st sid opts volumeDir symlinkPath).
Proof. unfold prepare_handoff, copy_token, write_args, open_socket. go_returns. Qed.
#[local] Hint Resolve prepare_handoff_returns : go_returns.

Lemma sidecarMount_returns st sid target opts volumeName :
  returns (sidecarMount st sid target opts volumeName).
Proof.
  unfold sidecarMount, requireSidecarTmpfs, sidecarMountInfo, sidecar_cleanup, start_handoff,
    fuseMinorForMount, markSidecarHandoffPending. go_returns.
Qed.

Lemma clone_loop_returns n fd fds : returns (clone_loop n fd fds).
Proof. revert fds. induction n; intros fds; cbn [clone_loop]; unfold cloneFuseFd; go_returns. Qed.
#[local] Hint Resolve clone_loop_returns : go_returns.

Lemma sidecarHandoff_returns h : returns (sidecarHandoff h).
Proof.
  unfold sidecarHandoff, send_handoff, sidecarFuseFdCount, SendMsgFds, clearSidecarHandoffPending.
  go_returns.
Qed.

Lemma checkSidecarHealth_returns podUID volumeName : returns (checkSidecarHealth podUID volumeName).
Proof. unfold checkSidecarHealth. cbn [health_loop]. go_returns. Qed.
End Returns.

(** ** Specification: what a mount and a handoff achieve *)

(** Successful mounts (target, type and data), unmounts and started handoffs of a
    trace; the control messages handed to the kernel successfully. *)
Definition mount_event `{QuantityLib} (e : event) : list (string * string * string) :=
  let '(Ev c a) := e in
  match c return ans c → list (string * string * string) with
  | Mount _ target fstype _ _ data => λ r,
      match r with None => [(target, fstype, data)] | Some _ => [] end
  | _ => λ _, []
  end a.
Definition sent_event `{QuantityLib} (e : event) : list (list Z) :=
  let '(Ev c a) := e in
  match c return ans c → list (list Z) with
  | Sendmsg _ _ oob => λ r, match r with None => [oob] | Some _ => [] end
  | _ => λ _, []
  end a.
Definition unmount_call `{QuantityLib} (c : call) : option string :=
  match c with Unmount target _ => Some target | _ => None end.
Definition handoff_call `{QuantityLib} (c : call) : option handoff :=
  match c with Go (TSidecarHandoff h) => Some h | _ => None end.

Definition fuse_mounts `{QuantityLib} (tr : list event) : list (string * string * string) :=
  tr ≫= mount_event.
Definition handed_over `{QuantityLib} (tr : list event) : list (list Z) := tr ≫= sent_event.
Definition detached `{QuantityLib} (tr : list event) : list string :=
  omap unmount_call (calls tr).
Definition handoffs `{QuantityLib} (tr : list event) : list handoff :=
  omap handoff_call (calls tr).

Definition marked (pending : option Z) (s : mem) : mem :=
  match pending with
  | Some minor_ => set_pendingSidecarMinors ({[minor_]} ∪.) s
  | None => s
  end.

Section Spec.
Context `{QuantityLib}.

(** Calls of the preparation: files, directories and the listener. *)
Definition files_only (c : call) : Prop :=
  match c with
  | Mount _ _ _ _ _ _ | Unmount _ _ | Go _ | Sendmsg _ _ _ => False
  | _ => True
  end.

Lemma files_only_trace tr :
  Forall files_only (calls tr) →
  fuse_mounts tr = [] ∧ detached tr = [] ∧ handoffs tr = [] ∧ handed_over tr = [].
Proof.
  unfold fuse_mounts, detached, handoffs, handed_over.
  induction tr as [|[c a] tr IH]; [done|]. intros Hf. inversion Hf as [|? ? Hc Hf']. subst.
  destruct (IH Hf') as (E1 & E2 & E3 & E4).
  change (calls (Ev c a :: tr)) with (c :: calls tr).
  rewrite !bind_cons, E1, E4. by destruct c.
Qed.

(** The four readings of a concatenation. *)
Lemma readings_app tr tr' :
  fuse_mounts (tr ++ tr') = fuse_mounts tr ++ fuse_mounts tr' ∧
  detached (tr ++ tr') = detached tr ++ detached tr' ∧
  handoffs (tr ++ tr') = handoffs tr ++ handoffs tr' ∧
  handed_over (tr ++ tr') = handed_over tr ++ handed_over tr'.
Proof.
  unfold fuse_mounts, detached, handoffs, handed_over, calls.
  by rewrite !bind_app, fmap_app, !omap_app.
Qed.

Lemma writeHandoffFile_files dir name data perm chown :
  simple files_only (writeHandoffFile dir name data perm chown).
Proof. unfold writeHandoffFile, openHandoffFile. go_simple ltac:(done). Qed.

Lemma clear_status_files volumeDir names : simple files_only (clear_status volumeDir names).
Proof.
  induction names as [|n names IH]; [exact I|]. split; [done|].
  intros [e|]; [|exact IH]. simpl. by destruct (IsNotExist e).
Qed.

Lemma prepare_handoff_files st sid opts volumeDir symlinkPath :
  simple files_only (prepare_handoff st sid opts volumeDir symlinkPath).
Proof.
  unfold prepare_handoff, copy_token, write_args, open_socket.
  repeat first
    [ apply writeHandoffFile_files | apply clear_status_files
    | progress go_simple ltac:(done) ].
Qed.

(** [readings_app] with the prefix known to be [files_only]. *)
Lemma readings_skip tr tr' :
  Forall files_only (calls tr) →
  fuse_mounts (tr ++ tr') = fuse_mounts tr' ∧ detached (tr ++ tr') = detached tr' ∧
  handoffs (tr ++ tr') = handoffs tr' ∧ handed_over (tr ++ tr') = handed_over tr'.
Proof.
  intros Hf. destruct (files_only_trace tr Hf) as (E1 & E2 & E3 & E4).
  destruct (readings_app tr tr') as (F1 & F2 & F3 & F4).
  by rewrite F1, F2, F3, F4, E1, E2, E3, E4.
Qed.

Lemma start_handoff_spec {W} fd target volumeDir symlinkPath n s (w : W) :
  wp quiet (start_handoff fd target volumeDir symlinkPath n) s w
    (λ r s' _ tr, r = Done tt ∧ fuse_mounts tr = [] ∧ detached tr = [] ∧
       ∃ pending, s' = marked pending s ∧
         handoffs tr = [{| ho_fd := fd; ho_volumeDir := volumeDir; ho_symlinkPath := symlinkPath;
                           ho_listener := JoinPath [symlinkPath; "s"%string];
                           ho_fuseFdCount := n; ho_pending := pending |}]).
Proof.
  unfold start_handoff, fuseMinorForMount, markSidecarHandoffPending. simpl.
  intros lch s1 w1 -> f s2 w2 ->. destruct f as [r|e]; simpl.
  - destruct (parseFuseMinor r target) as [m|]; simpl.
    + intros [] s3 w3 -> [] s4 w4 ->. split_and!; [done..|]. by exists (Some m).
    + intros [] s3 w3 ->. split_and!; [done..|]. by exists None.
  - intros [] s3 w3 ->. split_and!; [done..|]. by exists None.
Qed.

Lemma opened_and_mounted fd target data tr :
  let tr' := Ev OpenDevFuse (Ok fd) :: Ev (Mount fuseMountSource target "fuse" false true data) None
             :: tr in
  fuse_mounts tr' = (target, "fuse"%string, data) :: fuse_mounts tr ∧
  detached tr' = detached tr ∧ handoffs tr' = handoffs tr.
Proof. done. Qed.

(** What [sidecarMount] leaves behind. *)
Definition mount_outcome (target : string) (opts : MountOptions) (volumeName : string) (s : mem)
    (r : option gerror) (s' : mem) (tr : list event) : Prop :=
  match r with
  | Some _ => handoffs tr = [] ∧ (fuse_mounts tr).*1.*1 = detached tr ∧ s' = s
  | None => ∃ hd, handoffs tr = [hd] ∧ detached tr = [] ∧
      fuse_mounts tr = [(target, "fuse"%string,
                         fuse_mount_data (ho_fd hd) (fuse_owner (VolumeMountGroup opts)))] ∧
      ho_volumeDir hd = handoff_dir (WorkloadPodUID opts) volumeName ∧
      ho_symlinkPath hd = socket_symlink volumeName ∧
      ho_fuseFdCount hd = FuseFdCount opts ∧
      s' = marked (ho_pending hd) s
  end.

Lemma requireSidecarTmpfs_files tmpDir : simple files_only (requireSidecarTmpfs tmpDir).
Proof. unfold requireSidecarTmpfs, sidecarMountInfo. go_simple ltac:(done). Qed.

#[local] Opaque requireSidecarTmpfs prepare_handoff start_handoff.

(** The outcome does not see a prefix of file operations. *)
Lemma mount_outcome_skip target opts volumeName s r s' tr tr' :
  Forall files_only (calls tr) → mount_outcome target opts volumeName s r s' tr' →
  mount_outcome target opts volumeName s r s' (tr ++ tr').
Proof.
  intros Hf. destruct (readings_skip tr tr' Hf) as (E1 & E2 & E3 & _).
  unfold mount_outcome. by rewrite E1, E2, E3.
Qed.

Lemma sidecarMount_spec {W} st sid target opts volumeName s (w : W) :
  wp quiet (sidecarMount st sid target opts volumeName) s w
    (λ r s' _ tr, ∃ e, r = Done e ∧ mount_outcome target opts volumeName s e s' tr).
Proof.
  apply wp_bind. eapply wp_mono; [|apply wp_simple, requireSidecarTmpfs_files].
  intros r s1 w1 tr ([e ->] & -> & Hf). simpl.
  eapply (wp_mono _ _ _ _ (λ r s' _ tr', ∃ e, r = Done e ∧ mount_outcome _ _ _ s e s' tr')).
  { intros r s' w' tr' (e' & -> & Ho). eexists. split; [done|]. by apply mount_outcome_skip. }
  destruct e as [e|]; simpl; [by eexists|].
  intros fd s2 w2 ->. destruct fd as [fd|e]; simpl; [|by eexists].
  intros r s3 w3 ->. destruct r as [e|]; simpl; [intros c s4 w4 ->; by eexists|].
  apply (wp_bind quiet (prepare_handoff _ _ _ _ _)).
  eapply wp_mono; [|apply wp_simple, prepare_handoff_files].
  intros r s4 w4 tr4 ([e ->] & -> & Hf4). simpl. destruct e as [e|]; simpl.
  - intros u s5 w5 -> c s6 w6 ->. eexists. split; [done|].
    set (tl := [Ev (Unmount target false) u; Ev (CloseFd fd) c]).
    destruct (opened_and_mounted fd target
      (fuse_mount_data fd (fuse_owner (VolumeMountGroup opts))) (tr4 ++ tl)) as (F1 & F2 & F3).
    destruct (readings_skip tr4 tl Hf4) as (E1 & E2 & E3 & _).
    unfold mount_outcome. rewrite F1, F2, F3, E1, E2, E3. done.
  - apply (wp_bind quiet (start_handoff _ _ _ _ _)). eapply wp_mono; [|apply start_handoff_spec].
    intros r s5 w5 tr5 (-> & M5 & D5 & p & -> & H5). simpl. eexists. split; [done|].
    rewrite app_nil_r. destruct (readings_skip tr4 tr5 Hf4) as (E1 & E2 & E3 & _).
    destruct (opened_and_mounted fd target
      (fuse_mount_data fd (fuse_owner (VolumeMountGroup opts))) (tr4 ++ tr5)) as (F1 & F2 & F3).
    unfold mount_outcome. rewrite F1, F2, F3, E1, E2, E3, M5, D5, H5. eexists. by split_and!.
Qed.
End Spec.

Section HandoffSpec.
Context `{QuantityLib}.







#[local] Opaque sidecarFuseFdCount clone_loop SendMsgFds for_each.






#[local] Opaque send_handoff writeHandoffFile.

End HandoffSpec.

(** ** The sidecar's view of a path *)

(** A marker that ends with the only slash it has cannot straddle a slash. *)
Lemma HasPrefix_slash (p x m : string) :
  IndexByte m "/"%char = None →
  HasPrefix ((p +++ "/") +++ x) (m +++ "/") = HasPrefix (p +++ "/") (m +++ "/").
Proof.
  revert p. induction m as [|c m IH]; intros p Hm.
  - by destruct p as [|d p]; simpl.
  - cbn [IndexByte] in Hm. destruct (Ascii.eqb "/" c) eqn:Ec; [done|].
    destruct (IndexByte m "/") eqn:Em; [done|].
    destruct p as [|d p].
    + change (Ascii.eqb c "/" && HasPrefix x (m +++ "/")
              = Ascii.eqb c "/" && HasPrefix "" (m +++ "/")).
      by rewrite Ascii.eqb_sym, Ec.
    + change (Ascii.eqb c d && HasPrefix ((p +++ "/") +++ x) (m +++ "/")
              = Ascii.eqb c d && HasPrefix (p +++ "/") (m +++ "/")).
      by rewrite IH.
Qed.

Lemma Index_cons c s m :
  Index (String c s) m = if HasPrefix (String c s) m then Some 0%nat else S <$> Index s m.
Proof. done. Qed.

Lemma Index_slash (p x m : string) :
  IndexByte m "/"%char = None → Index (p +++ "/") (m +++ "/") = None →
  Index ((p +++ "/") +++ x) (m +++ "/")
  = Nat.add (String.length p + 1) <$> Index x (m +++ "/").
Proof.
  intros Hm. induction p as [|c p IH]; intros Hp.
  - pose proof (HasPrefix_slash "" x m Hm) as Hs.
    change (("" +++ "/") +++ x) with (String "/" x) in *.
    change ("" +++ "/") with (str1 "/") in *. unfold str1 in *.
    rewrite Index_cons in Hp |- *. rewrite Hs. case_match; [done|]. by destruct (Index x _).
  - pose proof (HasPrefix_slash (String c p) x m Hm) as Hs.
    change ((String c p +++ "/") +++ x) with (String c ((p +++ "/") +++ x)) in *.
    change (String c p +++ "/") with (String c (p +++ "/")) in *.
    rewrite Index_cons in Hp |- *. rewrite Hs. case_match; [done|].
    destruct (Index (p +++ "/") (m +++ "/")) eqn:E; [done|]. rewrite IH by done.
    by destruct (Index x _).
Qed.

(** The marker occurs in a joined path first where a component ends with it. *)
Lemma Index_pieces (cs : list string) (x m : string) :
  IndexByte m "/"%char = None →
  Forall (λ c, Index (c +++ "/") (m +++ "/") = None) cs →
  Index (foldr (λ c p, (c +++ "/") +++ p) x cs) (m +++ "/")
  = Nat.add (String.length (foldr (λ c p, (c +++ "/") +++ p) "" cs)) <$> Index x (m +++ "/").
Proof.
  intros Hm. induction 1 as [|c cs Hc Hcs IH]; simpl; [by destruct (Index x _)|].
  rewrite Index_slash, IH by done. rewrite !slength_app. simpl.
  destruct (Index x _); simpl; [|done]. f_equal. lia.
Qed.

(** The handoff hash of a volume and the mount ID of a target are one function. *)
Lemma volume_hash_mountID v : volume_hash v = mountID v.
Proof. apply (s_take_hex 6). Qed.

Lemma volume_hash_good v : good_comp (volume_hash v).
Proof. rewrite volume_hash_mountID. apply volume_id_good, mountID_is_volume_id. Qed.

(** Literal path components are good. *)
Lemma good_literal c :
  (negb (String.eqb c "") && negb (String.eqb c ".") && negb (String.eqb c "..") &&
   match IndexByte c "/"%char with None => true | Some _ => false end) = true → good_comp c.
Proof.
  rewrite !andb_true_iff, !negb_true_iff, !String.eqb_neq. intros [[[H1 H2] H3] H4].
  unfold good_comp. destruct (IndexByte c "/"%char); [done|]. by split_and!.
Qed.

Ltac good_comps :=
  repeat apply Forall_cons_2; try apply Forall_nil_2; try assumption; by apply good_literal.

(** The host path of a control file, for a pod UID that is one path component. *)
Lemma handoff_path podUID v name :
  good_comp podUID → good_comp name →
  JoinPath [handoff_dir podUID v; name]
  = "/" +++ Join (["var"; "lib"; "kubelet"; "pods"; podUID; "volumes"; "kubernetes.io~empty-dir";
                   emptyDirName; ".volumes"; volume_hash v; name])%string "/".
Proof.
  intros Hu Hn. pose proof (volume_hash_good v) as Hh.
  unfold handoff_dir, sidecarEmptyDirPath.
  change kubeletPodsBase with ("/" +++ Join ["var"; "lib"; "kubelet"; "pods"] "/")%string.
  rewrite (JoinPath_abs ["var"; "lib"; "kubelet"; "pods"]%string) by (done || good_comps).
  cbn [app]. rewrite JoinPath_abs by (done || good_comps).
  cbn [app]. rewrite JoinPath_abs by (done || good_comps). done.
Qed.

(** C26. The token arrives where the sidecar looks for it: the path put on the
    sidecar's command line is the host path the driver writes the token to, with
    the host directory of the shared emptyDir replaced by the directory the
    webhook mounts it on, for every volume and every pod UID that is a path
    component and does not end in the emptyDir's name. *)
Theorem sidecar_token_path podUID v :
  good_comp podUID → Index (podUID +++ "/") (emptyDirName +++ "/") = None →
  sidecarPath (JoinPath [handoff_dir podUID v; "token"%string])
  = JoinPath [sidecarMountPath; ".volumes"; volume_hash v; "token"]%string.
Proof.
  intros Hu Hi. pose proof (volume_hash_good v) as Hh.
  rewrite handoff_path by (done || by apply good_literal).
  set (x := (emptyDirName +++ "/") +++ Join [".volumes"; volume_hash v; "token"] "/").
  set (cs := [""; "var"; "lib"; "kubelet"; "pods"; podUID; "volumes"; "kubernetes.io~empty-dir"]%string).
  assert (E : ("/" +++ Join (["var"; "lib"; "kubelet"; "pods"; podUID; "volumes";
     "kubernetes.io~empty-dir"; emptyDirName; ".volumes"; volume_hash v; "token"])%string "/")
     = foldr (λ c p, (c +++ "/") +++ p) x cs).
  { subst x cs. simpl. by rewrite !sapp_assoc. }
  assert (Hx : ∀ l, foldr (λ c p, (c +++ "/") +++ p) x l
                    = foldr (λ c p, (c +++ "/") +++ p) "" l +++ x).
  { induction l as [|c l IH]; [done|]. simpl. by rewrite IH, !sapp_assoc. }
  assert (Hc : Forall (λ c, Index (c +++ "/") (emptyDirName +++ "/") = None) cs).
  { subst cs. repeat apply Forall_cons_2; by apply Forall_nil_2 || done. }
  rewrite E. unfold sidecarPath. rewrite Index_pieces by done.
  assert (Index x (emptyDirName +++ "/") = Some 0%nat) as ->.
  { subst x. generalize (Join [".volumes"%string; volume_hash v; "token"%string] "/").
    intros y. by destruct y. }
  cbn [fmap option_fmap option_map]. rewrite Hx, Nat.add_0_r.
  set (p := foldr _ ""%string cs). subst x. rewrite <-sapp_assoc, <-slength_app, s_drop_app. done.
Qed.

(** ** Theorems *)

Section Theorems.
Context `{QuantityLib}.

(** C24. No descriptor is leaked or closed twice in sidecar mode, on any path and
    whatever the kernel answers: [sidecarMount] releases exactly the descriptors it
    opens, where starting the goroutine releases the primary /dev/fuse descriptor
    to it; and the goroutine releases exactly that descriptor and those it opens
    itself (clones, control files, the duplicate of the socket).  Both return. *)
Theorem sidecar_descriptors {W W'} (h : env W) (h' : env W') st sid target opts volumeName hd s w s' w' :
  let o := run h (sidecarMount st sid target opts volumeName) s w in
  let g := run h' (sidecarHandoff hd) s' w' in
  ((∃ r, o_res o = Done r) ∧ opened_in (o_trace o) ≡ₚ released_in (o_trace o)) ∧
  (o_res g = Done tt ∧ ho_fd hd :: opened_in (o_trace g) ≡ₚ released_in (o_trace g)).
Proof.
  intros o g. split.
  - destruct (returns_run h _ s w (sidecarMount_returns st sid target opts volumeName)) as [r Hr].
    split; [by exists r|]. eapply owns_balance; [apply sidecarMount_owns|exact Hr].
  - destruct (returns_run h' _ s' w' (sidecarHandoff_returns hd)) as [[] Hr]. split; [exact Hr|].
    pose proof (owns_run h' _ _ _ s' w' (sidecarHandoff_owns hd)) as Ho. cbv zeta in Ho.
    rewrite Hr in Ho. destruct Ho as (l & Hl & Hp). unfold left_with in Hl.
    rewrite Hl, app_nil_r in Hp. exact Hp.
Qed.

(** C3. [sidecarMount] is all or nothing: when it returns an error, no goroutine was
    started, every mount it made was unmounted again and nothing was marked; when
    it returns nil, exactly one FUSE mount was made on the target, for the very
    descriptor the goroutine was started with, the goroutine got the handoff
    directory and socket of this volume, and the connection it is about, if the
    mount table showed it, is exempt from the orphan sweeper. *)
Theorem sidecarMount_all_or_nothing {W} (h : env W) st sid target opts volumeName s w :
  env_ok quiet h →
  let o := run h (sidecarMount st sid target opts volumeName) s w in
  ∃ r, o_res o = Done r ∧ mount_outcome target opts volumeName s r (o_mem o) (o_trace o).
Proof. intros Hh. exact (run_wp _ _ _ _ _ _ Hh (sidecarMount_spec st sid target opts volumeName s w)). Qed.

End Theorems.

(** ** A concrete node: the emptyDir is mounted and every call succeeds *)

Section Demo.
#[local] Existing Instance z_quantities.

Definition sidecar_target : string :=
  "/var/lib/kubelet/pods/1f2e/volumes/kubernetes.io~csi/data/mount".
Definition sidecar_opts : MountOptions :=
  {| Revision := "main"; HubEndpoint := ""; CacheDir := "/cache"; CacheSize := "";
     PollIntervalSecs := ""; PollListingConcurrency := ""; MetadataTtlMs := "";
     InodeSoftLimit := ""; LruSweepIntervalMs := ""; FuseFdCount := "3"; ReadOnly := false;
     ExtraArgs := []; TokenFile := "/cache/v/token"; WorkloadPodUID := "1f2e";
     VolumeMountGroup := "1000"; MResources := no_resources |}.

Definition sidecar_node : env unit := λ c s w,
  match c return ans c * mem * unit with
  | ParseMountInfo _ =>
      (Ok [{| MIMinor := 7; MIMountPoint := sidecarEmptyDirPath "1f2e"; MIFsType := "tmpfs";
              MISource := "tmpfs" |}], s, w)
  | OpenScan _ =>
      (Ok {| content := "36 35 0:42 / " +++ sidecar_target +++ " rw - fuse hf-mount rw" +++ str1 newline;
             read_error := None |}, s, w)
  | OpenDevFuse => (Ok 5, s, w)
  | OpenDir _ => (Ok 8, s, w)
  | Openat2 _ _ _ _ => (Ok 9, s, w)
  | Accept _ => (Ok 3, s, w)
  | ConnFile _ => (Ok 6, s, w)
  | ReadFile _ => (Ok "hf_secret"%string, s, w)
  | c => (idle c, s, w)
  end.

Lemma sidecar_node_quiet : env_ok quiet sidecar_node.
Proof. intros c s w. by destruct c. Qed.

Definition demo_sidecar : outcome (option gerror) unit :=
  run sidecar_node (sidecarMount "bucket" "org/data" sidecar_target sidecar_opts "csi-vol-1") empty_mem tt.

Example sidecarMount_all_or_nothing_witness :
  o_res demo_sidecar = Done None ∧
  bool_decide (handoffs (o_trace demo_sidecar) = []) = false ∧
  ∃ r, o_res demo_sidecar = Done r ∧
    mount_outcome sidecar_target sidecar_opts "csi-vol-1" empty_mem r (o_mem demo_sidecar)
      (o_trace demo_sidecar).
Proof.
  split; [by vm_compute|]. split; [by vm_compute|].
  exact (sidecarMount_all_or_nothing sidecar_node "bucket" "org/data" sidecar_target sidecar_opts
           "csi-vol-1" empty_mem tt sidecar_node_quiet).
Defined.



Example sidecar_token_path_witness :
  sidecarPath (JoinPath [handoff_dir "1f2e-77" "csi-vol-1"; "token"%string])
  = JoinPath [sidecarMountPath; ".volumes"; volume_hash "csi-vol-1"; "token"]%string.
Proof. apply (sidecar_token_path "1f2e-77" "csi-vol-1"); [by apply good_literal|by vm_compute]. Defined.
End Demo.
