(* ===== verification/Node.v ===== *)
(** * The CSI node service (pkg/driver/node.go, token files of mounter.go)

    [NodePublishVolume] and [NodeUnpublishVolume] choose between the sidecar and
    the mount pods (through the [Mounter] interface).  A response is the error it
    carries, [None] for success.  [d.fuseUnmountFn] and [d.sidecarMountStateFn] are
    the functions they stand for outside tests. *)
From S2P Require Import Prelude GoStrings Sha256 GoTime GoErrors Unstructured Resources.
From S2P Require Import Names MountArgs Kube Effects MountInfo Sweeper PodMounter Mounter.
From S2P Require Import Descriptors FdChannel Sidecar.
From Stdlib Require Import Ascii.

Local Open Scope Z_scope.

(** ** Constants *)

Definition defaultRevision : string := "main".
Definition defaultTokenKey : string := "token".
Definition volumeCtxSourceType : string := "sourceType".
Definition volumeCtxSourceID : string := "sourceId".
Definition volumeCtxRevision : string := "revision".
Definition volumeCtxHubEndpoint : string := "hubEndpoint".
Definition volumeCtxCacheDir : string := "cacheDir".
Definition volumeCtxCacheSize : string := "cacheSize".
Definition volumeCtxPollInterval : string := "pollIntervalSecs".
Definition volumeCtxPollListingConcurrency : string := "pollListingConcurrency".
Definition volumeCtxMetadataTtl : string := "metadataTtlMs".
Definition volumeCtxInodeSoftLimit : string := "inodeSoftLimit".
Definition volumeCtxLruSweepIntervalMs : string := "lruSweepIntervalMs".
Definition volumeCtxFuseFdCount : string := "fuseFdCount".
Definition volumeCtxTokenKey : string := "tokenKey".
Definition volumeCtxMountFlags : string := "mountFlags".
Definition volumeCtxMountMode : string := "mountMode".
Definition volumeCtxPodUID : string := "csi.storage.k8s.io/pod.uid".
Definition MountModeSidecar : string := "sidecar".
Definition MountModeMountPod : string := "mountpod".
Definition mode_750 : Z := 488.

(** ** Requests *)

(** [VolumeCapability_MountVolume]; a capability of another access type has none. *)
Record MountVolume := { VolumeMountGroup_ : string; MountFlags : list string }.
Record VolumeCapability := { GetMount : option MountVolume }.

Record NodePublishVolumeRequest := {
  PubVolumeId : string;
  PubTargetPath : string;
  PubVolumeCapability : option VolumeCapability;
  PubVolumeContext : gmap string string;
  PubSecrets : gmap string string;
  PubReadonly : bool
}.

Record NodeUnpublishVolumeRequest := { UnpubVolumeId : string; UnpubTargetPath : string }.

(** The constant fields of [Driver]. *)
Record Driver := { d_endpoint : string; d_nodeID : string; d_cacheBase : string }.

(** ** Pure parts of NodePublishVolume *)

(** The validations, in their order (the mount mode last): the mount capability, or
    the message of the [InvalidArgument] error. *)
Definition check_publish (req : NodePublishVolumeRequest) : MountVolume + string :=
  let c := PubVolumeContext req in
  let mode := getWithDefault c volumeCtxMountMode MountModeSidecar in
  if String.eqb (PubVolumeId req) "" then inr "volumeId is required"%string
  else if String.eqb (PubTargetPath req) "" then inr "targetPath is required"%string
  else match PubVolumeCapability req with
  | None => inr "volumeCapability is required"%string
  | Some cap =>
      match GetMount cap with
      | None => inr "only mount access type is supported"%string
      | Some mv =>
          if String.eqb (attr c volumeCtxSourceType) "" then
            inr "volumeContext must contain sourceType"%string
          else if String.eqb (attr c volumeCtxSourceID) "" then
            inr "volumeContext must contain sourceId"%string
          else if String.eqb mode MountModeSidecar || String.eqb mode MountModeMountPod then inl mv
          else inr "invalid mountMode %q (must be %q or %q)"%string
      end
  end.

(** Sidecar mode needs the pod UID; without one the mode falls back to mount pods. *)
Definition will_use_sidecar (c : gmap string string) : bool :=
  String.eqb (getWithDefault c volumeCtxMountMode MountModeSidecar) MountModeSidecar &&
  negb (String.eqb (attr c volumeCtxPodUID) "").

Definition publish_token (req : NodePublishVolumeRequest) : string :=
  attr (PubSecrets req) (getWithDefault (PubVolumeContext req) volumeCtxTokenKey defaultTokenKey).

(** [mountFlags] of an inline volume: comma-separated, trimmed, empty ones dropped. *)
Definition split_flags (raw : string) : list string :=
  if String.eqb raw "" then []
  else List.filter (λ f, negb (String.eqb f "")) (TrimSpace <$> Split raw ",").

Definition extra_args (group : string) (flags : list string) (c : gmap string string) : list string :=
  (if String.eqb group "" then [] else ["--uid=" +++ group; "--gid=" +++ group]%string) ++
  (String.append "--" <$> flags) ++
  (String.append "--" <$> split_flags (attr c volumeCtxMountFlags)).

Section Node.
Context `{Mounter}.
Context `{MountLib}.

Definition publish_options (cacheBase : string) (req : NodePublishVolumeRequest) (mv : MountVolume)
    (tokenFile : string) : MountOptions :=
  let c := PubVolumeContext req in
  {| Revision := getWithDefault c volumeCtxRevision defaultRevision;
     HubEndpoint := attr c volumeCtxHubEndpoint;
     CacheDir := getWithDefault c volumeCtxCacheDir
                   (JoinPath [cacheBase; sanitizeVolumeID (PubVolumeId req)]);
     CacheSize := attr c volumeCtxCacheSize;
     PollIntervalSecs := attr c volumeCtxPollInterval;
     PollListingConcurrency := attr c volumeCtxPollListingConcurrency;
     MetadataTtlMs := attr c volumeCtxMetadataTtl;
     InodeSoftLimit := attr c volumeCtxInodeSoftLimit;
     LruSweepIntervalMs := attr c volumeCtxLruSweepIntervalMs;
     FuseFdCount := attr c volumeCtxFuseFdCount;
     ReadOnly := PubReadonly req;
     ExtraArgs := extra_args (VolumeMountGroup_ mv) (MountFlags mv) c;
     TokenFile := tokenFile;
     WorkloadPodUID := attr c volumeCtxPodUID;
     VolumeMountGroup := VolumeMountGroup_ mv;
     MResources := ParseMountResources c |}.

(** ** Token files *)

(** mounter.go *)
Definition writeTokenFile (path token : string) : prog (option gerror) :=
  let dir := Dir path in
  r ← call_ (MkdirAll dir mode_750);
  match r with
  | Some e => mret (Some e)
  | None =>
      tmp ← call_ (CreateTemp dir ".token-*");
      match tmp with
      | Err e => mret (Some e)
      | Ok tmp =>
          r ← call_ (WriteString tmp token);
          match r with
          | Some e => _ ← call_ (CloseFile tmp); _ ← call_ (Remove tmp); mret (Some e)
          | None =>
              r ← call_ (CloseFile tmp);
              match r with
              | Some e => _ ← call_ (Remove tmp); mret (Some e)
              | None => call_ (Rename tmp path)
              end
          end
      end
  end.

Definition cleanupTokenFile (d : Driver) (volumeID : string) : prog unit :=
  let tokenFile := tokenFilePath (d_cacheBase d) volumeID in
  _ ← call_ (Remove tokenFile);
  _ ← call_ (Remove (Dir tokenFile));
  mret tt.

(** ** sidecarVolumes *)

Definition store_sidecar (target : string) : prog unit :=
  atomically (λ s, (tt, set_sidecarVolumes ({[target]} ∪.) s)).
Definition delete_sidecar (target : string) : prog unit :=
  atomically (λ s, (tt, set_sidecarVolumes (.∖ {[target]}) s)).
Definition load_sidecar (target : string) : prog bool :=
  atomically (λ s, (bool_decide (target ∈ sidecarVolumes s), s)).

(** ** NodePublishVolume *)

(** [(sidecarMinor, mounted, err)]. *)
Definition publish_state (sidecar : bool) (target : string) : prog (Z * bool * option gerror) :=
  if sidecar then
    r ← sidecarMountState target;
    mret (match r with
          | Ok (Some minor_) => (minor_, true, None)
          | Ok None => (0, false, None)
          | Err e => (0, false, Some e)
          end)
  else
    '(mounted, err) ← mounter_IsMountPoint target;
    mret (0, mounted, err).

(** Whether to go on, and as if mounted or not: a dead mount in mount-pod mode is
    stacked over, a missing target is not an error there. *)
Definition judge_state (sidecar mounted : bool) (target : string) (err : option gerror)
  : result bool :=
  match err with
  | None => Ok mounted
  | Some e =>
      if negb sidecar && IsCorruptedMnt e then Ok false
      else if sidecar || negb (IsNotExist e)
      then Err (GrpcStatus Internal "failed to check mount point %s: %v" (Some e))
      else Ok mounted
  end.

Definition refresh_token (d : Driver) (sidecar : bool) (podUID volumeID token : string) : prog unit :=
  if String.eqb token "" then mret tt
  else if sidecar then refreshSidecarToken podUID volumeID token
  else _ ← writeTokenFile (tokenFilePath (d_cacheBase d) volumeID) token; mret tt.

Definition republish_health (sidecar : bool) (podUID volumeID target : string) : prog (option gerror) :=
  if sidecar then
    h ← checkSidecarHealth podUID volumeID;
    match h with
    | None => mret None
    | Some e =>
        _ ← abortFuseConnection target;
        u ← fuseUnmount target;
        _ ← match u with Some _ => mret tt | None => delete_sidecar target end;
        mret (Some (GrpcStatus Internal "sidecar unhealthy for %s: %v" (Some e)))
    end
  else
    h ← mounter_CheckHealth target;
    mret (match h with
          | None => None
          | Some e => Some (GrpcStatus Internal "mount unhealthy for %s: %v" (Some e))
          end).

Definition republish (d : Driver) (sidecar : bool) (sidecarMinor : Z) (req : NodePublishVolumeRequest)
  : prog (option gerror) :=
  let target := PubTargetPath req in
  let volumeID := PubVolumeId req in
  let podUID := attr (PubVolumeContext req) volumeCtxPodUID in
  pending ← (if sidecar then _ ← store_sidecar target; sidecarHandoffPending sidecarMinor
             else mret false);
  if pending : bool then mret None
  else
    _ ← refresh_token d sidecar podUID volumeID (publish_token req);
    republish_health sidecar podUID volumeID target.

Definition fresh_publish (d : Driver) (sidecar : bool) (req : NodePublishVolumeRequest)
    (mv : MountVolume) : prog (option gerror) :=
  let c := PubVolumeContext req in
  let target := PubTargetPath req in
  let sourceType := attr c volumeCtxSourceType in
  let sourceID := attr c volumeCtxSourceID in
  _ ← call_ (MkdirAll target mode_750);
  let token := publish_token req in
  let tokenFile := if String.eqb token "" then ""%string
                   else tokenFilePath (d_cacheBase d) (PubVolumeId req) in
  r ← (if String.eqb token "" then mret None else writeTokenFile tokenFile token);
  match r with
  | Some e => mret (Some (GrpcStatus Internal "failed to write token file: %v" (Some e)))
  | None =>
      let opts := publish_options (d_cacheBase d) req mv tokenFile in
      if sidecar then
        r ← sidecarMount sourceType sourceID target opts (PubVolumeId req);
        match r with
        | Some e => mret (Some (GrpcStatus Internal "sidecar mount failed for %s %s at %s: %v" (Some e)))
        | None => _ ← store_sidecar target; mret None
        end
      else
        r ← mounter_Mount sourceType sourceID target opts;
        mret (match r with
              | Some e => Some (GrpcStatus Internal "failed to mount %s %s at %s: %v" (Some e))
              | None => None
              end)
  end.

Definition publish_checked (d : Driver) (req : NodePublishVolumeRequest) (mv : MountVolume)
  : prog (option gerror) :=
  let target := PubTargetPath req in
  let sidecar := will_use_sidecar (PubVolumeContext req) in
  '(sidecarMinor, mounted, err) ← publish_state sidecar target;
  match judge_state sidecar mounted target err with
  | Err e => mret (Some e)
  | Ok true => republish d sidecar sidecarMinor req
  | Ok false => fresh_publish d sidecar req mv
  end.

Definition NodePublishVolume (d : Driver) (req : NodePublishVolumeRequest) : prog (option gerror) :=
  match check_publish req with
  | inr msg => mret (Some (GrpcStatus InvalidArgument msg None))
  | inl mv => publish_checked d req mv
  end.

(** ** NodeUnpublishVolume *)

(** EINVAL (not a mount) and ENOENT (path gone) of an unmount are benign. *)
Definition fatal_unmount (err : option gerror) : option gerror :=
  match err with
  | Some e => if IsErrno EINVAL e || IsErrno ENOENT e then None else Some e
  | None => None
  end.

Definition unpublishSidecarVolume (target : string) : prog (option gerror) :=
  _ ← abortFuseConnection target;
  u ← fuseUnmount target;
  match fatal_unmount u with
  | Some e => mret (Some (GrpcStatus Internal "sidecar unmount %s: %v" (Some e)))
  | None =>
      r ← call_ (Remove target);
      match fatal_remove r with
      | Some e => mret (Some (GrpcStatus Internal "sidecar unpublish: remove %s: %v" (Some e)))
      | None => _ ← delete_sidecar target; mret None
      end
  end.

Definition unpublish_mounter (target : string) : prog (option gerror) :=
  '(mounted, err) ← mounter_IsMountPoint target;
  match err with
  | Some e =>
      if IsCorruptedMnt e then
        u ← mounter_Unmount target;
        mret (match u with
              | Some e => Some (GrpcStatus Internal "failed to unmount stale mount at %s: %v" (Some e))
              | None => None
              end)
      else if IsNotExist e then mret None
      else mret (Some (GrpcStatus Internal "failed to check mount point %s: %v" (Some e)))
  | None =>
      if mounted : bool then
        u ← mounter_Unmount target;
        mret (match u with
              | Some e => Some (GrpcStatus Internal "failed to unmount %s: %v" (Some e))
              | None => None
              end)
      else
        r ← call_ (Remove target);
        mret (match fatal_remove r with
              | Some e => Some (GrpcStatus Internal "failed to remove target directory %s: %v" (Some e))
              | None => None
              end)
  end.

(** The deferred clean-ups run in reverse order, whatever is returned. *)
Definition NodeUnpublishVolume (d : Driver) (req : NodeUnpublishVolumeRequest)
  : prog (option gerror) :=
  let volumeID := UnpubVolumeId req in
  let target := UnpubTargetPath req in
  if String.eqb volumeID "" then mret (Some (GrpcStatus InvalidArgument "volumeId is required" None))
  else if String.eqb target "" then
    mret (Some (GrpcStatus InvalidArgument "targetPath is required" None))
  else
    tracked ← load_sidecar target;
    r ← (if tracked : bool then unpublishSidecarVolume target else unpublish_mounter target);
    _ ← cleanupSidecarSocket volumeID;
    _ ← cleanupTokenFile d volumeID;
    mret r.

(** ** Unsupported operations and static answers *)

Definition NodeStageVolume : option gerror :=
  Some (GrpcStatus Unimplemented "NodeStageVolume not supported" None).
Definition NodeUnstageVolume : option gerror :=
  Some (GrpcStatus Unimplemented "NodeUnstageVolume not supported" None).
Definition NodeGetVolumeStats : option gerror :=
  Some (GrpcStatus Unimplemented "NodeGetVolumeStats not supported" None).
Definition NodeExpandVolume : option gerror :=
  Some (GrpcStatus Unimplemented "NodeExpandVolume not supported" None).
Definition NodeGetCapabilities : list string := ["VOLUME_MOUNT_GROUP"%string].
Definition NodeGetInfo (d : Driver) : string := d_nodeID d.
End Node.
