(* ===== verification/NodeSpec.v ===== *)
(** * The CSI node service: specification and proofs

    Which requests are rejected and with what codes; the clean-up every unpublish
    ends with; the non-blocking path of sidecar volumes and its retries; and what
    a republish of a mounted sidecar volume does. *)
From S2P Require Import Prelude GoStrings Sha256 GoTime GoErrors Unstructured Resources.
From S2P Require Import Names MountArgs Kube Effects MountInfo Sweeper PodMounter Mounter.
From S2P Require Import Descriptors FdChannel Sidecar SidecarSpec Node.

Local Open Scope Z_scope.

(** ** Well-formed requests *)

(** What CSI and the driver's documentation require of a publish request. *)
Definition well_formed (req : NodePublishVolumeRequest) : Prop :=
  let c := PubVolumeContext req in
  PubVolumeId req ≠ ""%string ∧ PubTargetPath req ≠ ""%string ∧
  (∃ cap mv, PubVolumeCapability req = Some cap ∧ GetMount cap = Some mv) ∧
  (∃ t, c !! volumeCtxSourceType = Some t ∧ t ≠ ""%string) ∧
  (∃ i, c !! volumeCtxSourceID = Some i ∧ i ≠ ""%string) ∧
  c !! volumeCtxMountMode ∈ [None; Some ""; Some MountModeSidecar; Some MountModeMountPod]%string.

Lemma attr_set c key : String.eqb (attr c key) "" = false ↔ ∃ v, c !! key = Some v ∧ v ≠ ""%string.
Proof.
  rewrite String.eqb_neq. unfold attr. destruct (c !! key) as [v|]; simpl.
  - split; [intros Hv; by exists v|by intros (? & [= ->] & ?)].
  - split; [done|by intros (? & ? & _)].
Qed.

Lemma mode_ok c :
  String.eqb (getWithDefault c volumeCtxMountMode MountModeSidecar) MountModeSidecar
  || String.eqb (getWithDefault c volumeCtxMountMode MountModeSidecar) MountModeMountPod = true ↔
  c !! volumeCtxMountMode ∈ [None; Some ""; Some MountModeSidecar; Some MountModeMountPod]%string.
Proof.
  unfold getWithDefault. rewrite orb_true_iff, !String.eqb_eq, !elem_of_cons, elem_of_nil.
  destruct (c !! volumeCtxMountMode) as [v|]; [|naive_solver].
  destruct (String.eqb v "") eqn:E; [apply String.eqb_eq in E|apply String.eqb_neq in E]; naive_solver.
Qed.

Lemma check_publish_ok req : (∃ mv, check_publish req = inl mv) ↔ well_formed req.
Proof.
  unfold check_publish, well_formed. rewrite <-!attr_set, <-mode_ok.
  destruct (String.eqb (PubVolumeId req) "") eqn:E1;
    [apply String.eqb_eq in E1; naive_solver|apply String.eqb_neq in E1].
  destruct (String.eqb (PubTargetPath req) "") eqn:E2;
    [apply String.eqb_eq in E2; naive_solver|apply String.eqb_neq in E2].
  destruct (PubVolumeCapability req) as [cap|]; [|naive_solver].
  destruct (GetMount cap) as [mv|] eqn:Em; [|naive_solver].
  destruct (String.eqb (attr _ volumeCtxSourceType) ""); [naive_solver|].
  destruct (String.eqb (attr _ volumeCtxSourceID) ""); [naive_solver|].
  destruct (_ || _); naive_solver.
Qed.

Section NodeSpec.
Context `{Mounter} `{MountLib}.

(** ** Error codes *)

(** Every error is an [Internal] status. *)
Definition internal (r : option gerror) : Prop :=
  ∀ e, r = Some e → ∃ fmt cause, e = GrpcStatus Internal fmt cause.

(** All results of a program satisfy [P]. *)
Definition yields {A} (P : A → Prop) (p : prog A) : Prop :=
  ∀ W s (w : W), wp any p s w (λ r _ _ _, ∀ a, r = Done a → P a).

Lemma yields_ret {A} (P : A → Prop) a : P a → yields P (mret a).
Proof. intros Ha W s w a' [= <-]. exact Ha. Qed.

Lemma yields_bind {A B} (P : B → Prop) (p : prog A) (f : A → prog B) :
  (∀ a, yields P (f a)) → yields P (p ≫= f).
Proof.
  intros Hf W s w. apply wp_bind. eapply wp_mono; [|apply wp_true].
  intros r s1 w1 tr _. destruct r; simpl; [|done..]. eapply wp_mono; [|apply Hf].
  intros ???? HP. exact HP.
Qed.

Lemma internal_none : internal None.
Proof. by intros e. Qed.
Lemma internal_some fmt cause : internal (Some (GrpcStatus Internal fmt cause)).
Proof. intros e [= <-]. eauto. Qed.

Ltac go_yields :=
  repeat first
    [ apply yields_ret; first [apply internal_none | apply internal_some]
    | apply yields_bind; intros
    | progress case_match ].

Lemma publish_checked_internal d req mv : yields internal (publish_checked d req mv).
Proof.
  unfold publish_checked. apply yields_bind. intros [[minor_ mounted] err].
  destruct (judge_state _ _ _ _) as [[]|e] eqn:E.
  - unfold republish, republish_health. go_yields.
  - unfold fresh_publish. go_yields.
  - apply yields_ret. unfold judge_state in E. intros e' [= <-].
    repeat case_match; simplify_eq; eauto.
Qed.

(** C8. A publish request is rejected as an invalid argument exactly when it is not
    well formed; then nothing is called and nothing changes.  Every other error
    is an internal one, which kubelet retries. *)
Theorem publish_validation {W} (h : env W) d req s w :
  let o := run h (NodePublishVolume d req) s w in
  (¬ well_formed req →
     (∃ msg, o_res o = Done (Some (GrpcStatus InvalidArgument msg None))) ∧
     o_mem o = s ∧ o_trace o = []) ∧
  (well_formed req → ∀ e, o_res o = Done (Some e) → ∃ fmt cause, e = GrpcStatus Internal fmt cause).
Proof.
  unfold NodePublishVolume. rewrite <-check_publish_ok.
  destruct (check_publish req) as [mv|msg].
  - split; [intros []; by exists mv|]. intros _ e He.
    pose proof (run_wp any h _ s w _ (env_ok_any h) (publish_checked_internal d req mv W s w)) as Hi.
    by apply (Hi _ He).
  - split; [intros _; split_and!; [by exists msg|done|done]|]. by intros [mv Hmv].
Qed.

(** ** Unpublish *)

(** The deferred clean-ups of [NodeUnpublishVolume]. *)
Definition cleanup_calls (d : Driver) (volumeID : string) : list call :=
  [Remove (socket_symlink volumeID);
   Remove (tokenFilePath (d_cacheBase d) volumeID);
   Remove (Dir (tokenFilePath (d_cacheBase d) volumeID))].

Lemma unpublish_cleans {W} d req s (w : W) :
  UnpubVolumeId req ≠ ""%string → UnpubTargetPath req ≠ ""%string →
  wp any (NodeUnpublishVolume d req) s w (λ r _ _ tr, ∀ e, r = Done e →
    ∃ pre, calls tr = pre ++ cleanup_calls d (UnpubVolumeId req)).
Proof.
  intros Hv Ht. unfold NodeUnpublishVolume. rewrite !(proj2 (String.eqb_neq _ _)) by done.
  apply wp_bind. eapply wp_mono; [|apply wp_true]. intros r s1 w1 tr1 _.
  destruct r as [tracked| |]; simpl; [|done..].
  apply wp_bind. eapply wp_mono; [|apply wp_true]. intros r s2 w2 tr2 _.
  destruct r as [res| |]; simpl; [|done..].
  intros a1 s3 w3 _ a2 s4 w4 _ a3 s5 w5 _ e _. exists (calls (tr1 ++ tr2)).
  unfold calls. by rewrite !fmap_app, <-app_assoc.
Qed.

(** C9. Every unpublish of a well-formed request ends by removing the volume's socket
    link and its token, whatever it did before and whatever it returns, for every
    mounter: no credential outlives the volume on an error path. *)
Theorem unpublish_removes_credentials {W} (h : env W) d req s w r :
  UnpubVolumeId req ≠ ""%string → UnpubTargetPath req ≠ ""%string →
  let o := run h (NodeUnpublishVolume d req) s w in
  o_res o = Done r → ∃ pre, calls (o_trace o) = pre ++ cleanup_calls d (UnpubVolumeId req).
Proof.
  intros Hv Ht o Hr.
  exact (run_wp any h _ s w _ (env_ok_any h) (unpublish_cleans d req s w Hv Ht) r Hr).
Qed.

(** Calls that the kernel answers without consulting the FUSE daemon of [target]:
    the mount table, the abort file, a lazy unmount, removals. *)
Definition nonblocking (target : string) (c : call) : Prop :=
  match c with
  | Yield => True
  | OpenScan p => p = selfMountinfo
  | WriteFile p data _ => data = "1"%string ∧ ∃ minor_, p = abort_path minor_
  | Unmount p detach => p = target ∧ detach = true
  | Remove _ => True
  | _ => False
  end.

(** The kernel's verdict: the unmount succeeded or was pointless, and the directory
    is gone. *)
Definition torn_down (target : string) (tr : list event) : Prop :=
  ∃ u r, Ev (Unmount target true) u ∈ tr ∧ fatal_unmount u = None ∧
         Ev (Remove target) r ∈ tr ∧ fatal_remove r = None.

(** The write that aborts the connection the mount table [f] shows at the target. *)
Definition abort_calls (target : string) (f : result stream) : list call :=
  match f with
  | Ok rd => match parseFuseMinor rd target with
             | Some minor_ => [WriteFile (abort_path minor_) "1" 128]
             | None => []
             end
  | Err _ => []
  end.

(** The mount table was read and the connection it shows aborted. *)
Definition aborted (target : string) (tr : list event) : Prop :=
  ∃ f tr', tr = Ev (OpenScan selfMountinfo) f :: tr' ∧ calls tr' = abort_calls target f.

Lemma abort_spec {W} target s (w : W) :
  wp quiet (abortFuseConnection target) s w (λ r s' _ tr,
    r = Done tt ∧ s' = s ∧ aborted target tr).
Proof.
  unfold abortFuseConnection, fuseMinorForMount. simpl. intros f s1 w1 ->.
  destruct f as [rd|e]; simpl; [|split_and!; [done|done|by exists (Err e), []]].
  destruct (parseFuseMinor rd target) as [m|] eqn:E; simpl.
  - intros u s2 w2 ->. split_and!; [done|done|]. eexists (Ok rd), _. split; [done|].
    unfold abort_calls. by rewrite E.
  - split_and!; [done|done|]. exists (Ok rd), []. split; [done|]. unfold abort_calls. by rewrite E.
Qed.

Lemma aborted_nonblocking target tr : aborted target tr → Forall (nonblocking target) (calls tr).
Proof.
  intros (f & tr' & -> & Hc). constructor; [done|]. change (Forall (nonblocking target) (calls tr')).
  rewrite Hc. unfold abort_calls. destruct f as [rd|]; [|constructor].
  destruct (parseFuseMinor rd target) as [m|]; repeat constructor. by exists m.
Qed.

(** Calls that make no mount and start no handoff, and that unmount nothing either. *)
Definition no_new_mount (c : call) : Prop :=
  match c with Mount _ _ _ _ _ _ | OpenDevFuse | Go _ => False | _ => True end.

Definition no_unmount (c : call) : Prop :=
  match c with Unmount _ _ => False | _ => no_new_mount c end.

Lemma abort_simple target : simple no_unmount (abortFuseConnection target).
Proof. unfold abortFuseConnection, fuseMinorForMount. go_simple ltac:(done). Qed.

#[local] Opaque abortFuseConnection.

(** An unpublish of a tracked sidecar volume: after the lookup the connection is
    aborted, then the target unmounted. *)
Definition sidecar_unpublished (target : string) (s : mem) (r : option gerror) (s' : mem)
    (tr : list event) : Prop :=
  Forall (nonblocking target) (calls tr) ∧
  (∃ aborting u rest, tr = Ev Yield tt :: aborting ++ Ev (Unmount target true) u :: rest ∧
     aborted target aborting) ∧
  match r with
  | None => torn_down target tr ∧ s' = set_sidecarVolumes (.∖ {[target]}) s
  | Some _ => s' = s
  end.

Lemma unpublishSidecar_spec {W} target s (w : W) :
  wp quiet (unpublishSidecarVolume target) s w (λ r s' _ tr, ∃ e, r = Done e ∧
    ∃ aborting u rest, tr = aborting ++ Ev (Unmount target true) u :: rest ∧
      aborted target aborting ∧ Forall (nonblocking target) (calls rest) ∧
      match e with
      | None => torn_down target tr ∧ s' = set_sidecarVolumes (.∖ {[target]}) s
      | Some _ => s' = s
      end).
Proof.
  apply (wp_bind quiet (abortFuseConnection target)). eapply wp_mono; [|apply abort_spec].
  intros r s1 w1 tr1 (-> & -> & A1). simpl. intros u s2 w2 ->.
  destruct (fatal_unmount u) as [e|] eqn:Eu; simpl.
  { eexists. split; [done|]. exists tr1, u, []. by split_and!. }
  intros rm s3 w3 ->. destruct (fatal_remove rm) as [e|] eqn:Er; simpl.
  { eexists. split; [done|]. eexists tr1, u, _. split_and!; [done|done|by repeat constructor|done]. }
  intros [] s4 w4 ->. eexists. split; [done|].
  eexists tr1, u, _. split_and!; [done|done|by repeat constructor| |done].
  exists u, rm. split_and!; [|done| |done]; apply elem_of_app; right.
  - by left.
  - right. by left.
Qed.

#[local] Opaque unpublishSidecarVolume.

Lemma unpublish_sidecar_spec {W} d req s (w : W) :
  UnpubVolumeId req ≠ ""%string → UnpubTargetPath req ≠ ""%string →
  UnpubTargetPath req ∈ sidecarVolumes s →
  wp quiet (NodeUnpublishVolume d req) s w (λ r s' _ tr, ∃ e, r = Done e ∧
    sidecar_unpublished (UnpubTargetPath req) s e s' tr).
Proof.
  intros Hv Ht Hin. unfold NodeUnpublishVolume. rewrite !(proj2 (String.eqb_neq _ _)) by done.
  simpl. intros [] s1 w1 ->. rewrite bool_decide_true by done.
  apply (wp_bind quiet (unpublishSidecarVolume _)). eapply wp_mono; [|apply unpublishSidecar_spec].
  intros r s2 w2 tr2 (e & -> & aborting & u & rest & -> & Ha & Fr & Hc). simpl.
  intros a1 s3 w3 -> a2 s4 w4 -> a3 s5 w5 ->. eexists. split; [done|].
  set (tl := [Ev (Remove _) a1; Ev (Remove _) a2; Ev (Remove _) a3]).
  assert (Forall (nonblocking (UnpubTargetPath req)) (calls tl)) as Ftl by by repeat constructor.
  split_and!.
  - constructor; [done|].
    change (Forall (nonblocking (UnpubTargetPath req)) (calls ((aborting ++ Ev (Unmount _ true) u :: rest) ++ tl))).
    pose proof (aborted_nonblocking _ _ Ha). unfold calls in *. rewrite !fmap_app, !Forall_app.
    split; [|done]. split; [done|]. by constructor.
  - exists aborting, u, (rest ++ tl). split; [|done]. by rewrite <- app_assoc.
  - destruct e; [done|]. destruct Hc as [(u' & rm & Hu & Fu & Hr & Frm) ->]. split; [|done].
    exists u', rm. split_and!; [|done| |done]; right; apply elem_of_app; by left.
Qed.

(** C5. Unpublishing a tracked sidecar volume never blocks and can be retried: when no
    other goroutine changes the table meanwhile, it makes only calls that do not
    consult the FUSE daemon, reads the mount table and aborts the connection it
    shows at the target before it unmounts the target, and forgets the target
    exactly when it answers success, which it does only when the lazy unmount
    succeeded or was pointless and the directory is gone; otherwise the next
    attempt takes the same path. *)
Theorem sidecar_unpublish {W} (h : env W) d req s w :
  env_ok quiet h →
  UnpubVolumeId req ≠ ""%string → UnpubTargetPath req ≠ ""%string →
  UnpubTargetPath req ∈ sidecarVolumes s →
  let o := run h (NodeUnpublishVolume d req) s w in
  ∃ e, o_res o = Done e ∧
    sidecar_unpublished (UnpubTargetPath req) s e (o_mem o) (o_trace o).
Proof.
  intros Hh Hv Ht Hin.
  exact (run_wp _ _ _ _ _ _ Hh (unpublish_sidecar_spec d req s w Hv Ht Hin)).
Qed.

(** ** Republish of a mounted sidecar volume *)

(** The mount table shows our FUSE mount with this minor at the target, and the
    memory is this goroutine's. *)
Definition is_ours (i : MountInfo) : bool :=
  (String.eqb (MIFsType i) "fuse" || String.eqb (MIFsType i) "fuse.hf-mount") &&
  String.eqb (MISource i) fuseMountSource.

Definition topmost (target : string) (infos : list MountInfo) : option MountInfo :=
  last (filter (λ i, unescapeMountPath (MIMountPoint i) = Clean target) infos).

Definition shows {W} (target : string) (minor_ : Z) : rely W := λ c s _ a s' _,
  s' = s ∧
  match c return ans c → Prop with
  | ParseMountInfo _ => λ r, ∃ infos i, r = Ok infos ∧ topmost target infos = Some i ∧
                                        is_ours i = true ∧ MIMinor i = minor_
  | _ => λ _, True
  end a.

(** [sidecarMountInfo]'s backward search finds the last entry. *)
Lemma find_rev_last {A} (P : A → Prop) `{∀ x, Decision (P x)} (f : A → bool) l :
  (∀ x, f x = bool_decide (P x)) → List.find f (rev l) = last (filter P l).
Proof.
  intros Hf. induction l as [|x l IH] using rev_ind; [done|].
  rewrite rev_app_distr, filter_app. simpl. rewrite filter_cons, filter_nil, Hf.
  destruct (decide (P x)) as [Hx|Hx].
  - by rewrite bool_decide_true, last_snoc by done.
  - by rewrite bool_decide_false, app_nil_r by done.
Qed.

Lemma find_topmost target infos :
  List.find (λ i, String.eqb (unescapeMountPath (MIMountPoint i)) (Clean target)) (rev infos)
  = topmost target infos.
Proof.
  apply find_rev_last. intros i.
  destruct (String.eqb_spec (unescapeMountPath (MIMountPoint i)) (Clean target)).
  - by rewrite bool_decide_true.
  - by rewrite bool_decide_false.
Qed.

Lemma refresh_detached d podUID volumeID token :
  simple no_unmount (refresh_token d true podUID volumeID token).
Proof.
  unfold refresh_token, refreshSidecarToken, writeHandoffFile, openHandoffFile.
  go_simple ltac:(done).
Qed.

Lemma checkSidecarHealth_simple podUID volumeID :
  simple no_unmount (checkSidecarHealth podUID volumeID).
Proof.
  unfold checkSidecarHealth. cbn [health_loop]. unfold readHandoffFile, openHandoffFile.
  go_simple ltac:(done).
Qed.

(** What a republish does when the handoff is over. *)
Definition health_checked (target : string) (s : mem) (e : option gerror) (s' : mem)
    (tr : list event) : Prop :=
  match e with
  | None => s' = s ∧ detached tr = []
  | Some _ => ∃ u, detached tr = [target] ∧ Ev (Unmount target true) u ∈ tr ∧
      s' = match u with None => set_sidecarVolumes (.∖ {[target]}) s | Some _ => s end
  end.

Lemma detached_none tr : Forall no_unmount (calls tr) → detached tr = [].
Proof.
  induction tr as [|[c a] tr IH]; [done|]. intros Hf. inversion Hf as [|? ? Hc Hf']. subst.
  specialize (IH Hf'). unfold detached in *. by destruct c.
Qed.

Lemma detached_app tr tr' : detached (tr ++ tr') = detached tr ++ detached tr'.
Proof. unfold detached, calls. by rewrite fmap_app, omap_app. Qed.

#[local] Opaque checkSidecarHealth.

Lemma republish_health_spec {W} podUID volumeID target s (w : W) :
  wp quiet (republish_health true podUID volumeID target) s w (λ r s' _ tr, ∃ e, r = Done e ∧
    Forall no_new_mount (calls tr) ∧ health_checked target s e s' tr).
Proof.
  apply (wp_bind quiet (checkSidecarHealth podUID volumeID)).
  eapply wp_mono; [|apply wp_simple, checkSidecarHealth_simple].
  intros r s1 w1 tr1 ([e ->] & -> & F1). simpl.
  assert (N1 : Forall no_new_mount (calls tr1)) by (eapply Forall_impl; [exact F1|by intros []]).
  destruct e as [e|]; simpl; [|eexists; split; [done|]; rewrite app_nil_r; split; [done|];
    split; [done|by apply detached_none]].
  apply (wp_bind quiet (abortFuseConnection target)).
  eapply wp_mono; [|apply wp_simple, abort_simple].
  intros r s2 w2 tr2 ([[] ->] & -> & F2). simpl. intros u s3 w3 ->.
  assert (N2 : Forall no_new_mount (calls tr2)) by (eapply Forall_impl; [exact F2|by intros []]).
  assert (Hgen : ∀ tl s', Forall no_new_mount (calls tl) → detached tl = [] →
    s' = match u with None => set_sidecarVolumes (.∖ {[target]}) s | Some _ => s end →
    ∃ e', @Done (option gerror) (Some (GrpcStatus Internal "sidecar unhealthy for %s: %v" (Some e)))
          = Done e' ∧
    Forall no_new_mount (calls (tr1 ++ tr2 ++ Ev (Unmount target true) u :: tl)) ∧
    health_checked target s e' s' (tr1 ++ tr2 ++ Ev (Unmount target true) u :: tl)).
  { intros tl s' Ntl Dtl ->. eexists. split; [done|]. unfold calls in *. rewrite !fmap_app. split.
    - apply Forall_app; split; [done|]. apply Forall_app; split; [done|]. by constructor.
    - exists u. rewrite !detached_app, (detached_none tr1), (detached_none tr2) by done.
      change (detached (Ev (Unmount target true) u :: tl)) with (target :: detached tl).
      rewrite Dtl. split_and!; [done| |done]. rewrite !elem_of_app. right. right. by left. }
  destruct u as [e'|]; simpl; [|intros [] s4 w4 ->]; by apply Hgen; repeat constructor.
Qed.

Lemma shows_quiet {W} target minor_ (c : call) s (w : W) a s' w' :
  shows target minor_ c s w a s' w' → quiet c s w a s' w'.
Proof. by intros [? _]. Qed.

Lemma shows_state {W} target minor_ s (w : W) :
  wp (shows target minor_) (publish_state true target) s w (λ r s' _ tr,
    r = Done (minor_, true, None) ∧ s' = s ∧ calls tr = [ParseMountInfo selfMountinfo]).
Proof.
  unfold publish_state, sidecarMountState, sidecarMountInfo. simpl.
  intros r s1 w1 [-> (infos & i & -> & Ht & Ho & Hm)]. rewrite find_topmost, Ht. simpl.
  unfold is_ours in Ho. apply andb_true_iff in Ho as [-> ->]. simpl. by rewrite Hm.
Qed.

(** A republish of a volume mounted in sidecar mode. *)
Definition republished (target : string) (minor_ : Z) (s : mem) (e : option gerror) (s' : mem)
    (tr : list event) : Prop :=
  let s1 := set_sidecarVolumes ({[target]} ∪.) s in
  Forall no_new_mount (calls tr) ∧
  if decide (minor_ ∈ pendingSidecarMinors s)
  then e = None ∧ s' = s1 ∧ calls tr = [ParseMountInfo selfMountinfo; Yield; Yield]
  else health_checked target s1 e s' tr.

#[local] Opaque publish_state refresh_token republish_health.

Lemma republish_spec {W} d req minor_ s (w : W) :
  wp (shows (PubTargetPath req) minor_) (republish d true minor_ req) s w (λ r s' _ tr,
    ∃ e, r = Done e ∧ Forall no_new_mount (calls tr) ∧
    let s1 := set_sidecarVolumes ({[PubTargetPath req]} ∪.) s in
    if decide (minor_ ∈ pendingSidecarMinors s)
    then e = None ∧ s' = s1 ∧ calls tr = [Yield; Yield]
    else health_checked (PubTargetPath req) s1 e s' tr).
Proof.
  simpl. intros [] ? w1 [-> _] [] ? w2 [-> _]. set (s1 := set_sidecarVolumes _ s).
  change (pendingSidecarMinors s1) with (pendingSidecarMinors s).
  destruct (decide (minor_ ∈ pendingSidecarMinors s)) as [Hp|Hp].
  { rewrite bool_decide_true by done. simpl. eexists. split; [done|]. by repeat constructor. }
  rewrite bool_decide_false by done. apply (wp_rely quiet); [by intros ?????? ?%shows_quiet|].
  apply (wp_bind quiet (refresh_token _ _ _ _ _)).
  eapply wp_mono; [|apply wp_simple, refresh_detached].
  intros r ? w3 tr2 ([[] ->] & -> & F2). simpl.
  eapply wp_mono; [|apply republish_health_spec].
  intros r s3 w4 tr3 (e & -> & F3 & H3). eexists. split; [done|].
  change (calls (Ev Yield () :: Ev Yield () :: tr2 ++ tr3)) with (Yield :: Yield :: calls (tr2 ++ tr3)).
  unfold calls in *. rewrite fmap_app. split.
  - do 2 (constructor; [done|]). apply Forall_app. split; [|done].
    eapply Forall_impl; [exact F2|by intros []].
  - assert (Hd : ∀ l, detached (Ev Yield () :: Ev Yield () :: tr2 ++ l) = detached l).
    { intros l. change (detached (tr2 ++ l) = detached l).
      by rewrite detached_app, (detached_none tr2). }
    unfold health_checked in *. rewrite Hd. destruct e; [|done].
    destruct H3 as (u & Hu & Hin & ->). exists u. split_and!; [done| |done].
    right. right. apply elem_of_app. by right.
Qed.

#[local] Opaque republish.

(** C6. Publishing is idempotent for sidecar volumes: while the mount table shows our
    FUSE mount on top at the target and no other goroutine interferes, a further
    publish never mounts again and starts no second handoff, and re-enters the
    target in the table of sidecar volumes.  While the descriptor of the connection
    is still being handed over it does nothing else.  Otherwise it succeeds without
    unmounting anything, or it reports the sidecar unhealthy, unmounts the target
    once, and forgets the target exactly if that unmount succeeded. *)
Theorem sidecar_republish {W} (h : env W) d req minor_ s w :
  env_ok (shows (PubTargetPath req) minor_) h → well_formed req →
  will_use_sidecar (PubVolumeContext req) = true →
  let o := run h (NodePublishVolume d req) s w in
  ∃ e, o_res o = Done e ∧
    republished (PubTargetPath req) minor_ s e (o_mem o) (o_trace o).
Proof.
  intros Hh Hwf Hs. apply check_publish_ok in Hwf as [mv Hmv].
  refine (run_wp _ _ _ _ _ (λ r s' w' tr, ∃ e, r = Done e ∧ republished _ _ s e s' tr) Hh _).
  unfold NodePublishVolume. rewrite Hmv. unfold publish_checked. rewrite Hs.
  apply (wp_bind _ (publish_state true _)). eapply wp_mono; [|apply shows_state].
  intros r s1 w1 tr1 (-> & -> & C1). simpl.
  eapply wp_mono; [|apply republish_spec].
  intros r s2 w2 tr2 (e & -> & F2 & H2). eexists. split; [done|].
  destruct tr1 as [|[c1 a1] [|]]; try done. injection C1 as ->.
  unfold republished. change (calls ([Ev (ParseMountInfo selfMountinfo) a1] ++ tr2))
    with (ParseMountInfo selfMountinfo :: calls tr2).
  split; [by constructor|]. cbv zeta in H2. destruct (decide _) as [Hp|Hp].
  - destruct H2 as (-> & -> & ->). done.
  - unfold health_checked in *. change (detached ([Ev (ParseMountInfo selfMountinfo) a1] ++ tr2))
      with (detached tr2). destruct e; [|done].
    destruct H2 as (u & Hu & Hin & ->). exists u. split_and!; [done|by right|done].
Qed.
End NodeSpec.

(** ** Concrete requests *)

Section Demo.
#[local] Existing Instance z_quantities.
#[local] Instance no_corruption : MountLib := λ _, false.

(** A mounter nothing is delegated to in these runs. *)
#[local] Instance idle_mounter : Mounter := {|
  mounter_Mount := λ _ _ _ _, mret None;
  mounter_Unmount := λ _, mret None;
  mounter_IsMountPoint := λ _, mret (false, None);
  mounter_CheckHealth := λ _, mret None;
  mounter_Recover := mret None;
  mounter_Start := mret tt
|}.

Definition demo_driver : Driver :=
  {| d_endpoint := ""; d_nodeID := "node-1"; d_cacheBase := "/cache" |}.
Definition demo_unpublish : NodeUnpublishVolumeRequest :=
  {| UnpubVolumeId := "csi-1"; UnpubTargetPath := sidecar_target |}.
Definition demo_publish : NodePublishVolumeRequest :=
  {| PubVolumeId := "csi-1"; PubTargetPath := sidecar_target;
     PubVolumeCapability := Some {| GetMount := Some {| VolumeMountGroup_ := ""; MountFlags := [] |} |};
     PubVolumeContext := list_to_map [(volumeCtxSourceType, "bucket"); (volumeCtxSourceID, "org/data");
                                      (volumeCtxPodUID, "1f2e")]%string;
     PubSecrets := {[ "token"%string := "hf_new"%string ]}; PubReadonly := false |}.

Lemma demo_publish_ok : well_formed demo_publish.
Proof. apply check_publish_ok. by eexists. Qed.

Definition one_sidecar : mem := set_sidecarVolumes ({[sidecar_target]} ∪.) empty_mem.
Definition all_idle : env unit := λ c s w, (idle c, s, w).

Example unpublish_removes_credentials_witness :
  ∃ pre, calls (o_trace (run all_idle (NodeUnpublishVolume demo_driver demo_unpublish) one_sidecar tt))
         = pre ++ cleanup_calls demo_driver "csi-1".
Proof.
  apply (unpublish_removes_credentials all_idle demo_driver demo_unpublish one_sidecar tt None);
    [by vm_compute|by vm_compute|by vm_compute].
Defined.

Definition demo_unpublished : outcome (option gerror) unit :=
  run sidecar_node (NodeUnpublishVolume demo_driver demo_unpublish) one_sidecar tt.

Definition writes_to (path : string) (c : call) : bool :=
  match c with WriteFile p _ _ => String.eqb p path | _ => false end.

Example sidecar_unpublish_witness :
  existsb (writes_to "/sys/fs/fuse/connections/42/abort") (calls (o_trace demo_unpublished)) = true ∧
  ∃ e, o_res demo_unpublished = Done e ∧
    sidecar_unpublished sidecar_target one_sidecar e (o_mem demo_unpublished) (o_trace demo_unpublished).
Proof.
  split; [vm_compute; reflexivity|].
  apply (sidecar_unpublish sidecar_node demo_driver demo_unpublish one_sidecar tt);
    [exact sidecar_node_quiet|done|done|by apply elem_of_union_l, elem_of_singleton].
Defined.

(** Our mount with minor 42 is at the target; the handoff directory is missing. *)
Definition mounted_node : env unit := λ c s w,
  match c return ans c * mem * unit with
  | ParseMountInfo _ =>
      (Ok [{| MIMinor := 42; MIMountPoint := sidecar_target; MIFsType := "fuse";
              MISource := "hf-mount" |}], s, w)
  | c => (idle c, s, w)
  end.

Lemma mounted_node_shows : env_ok (shows sidecar_target 42) mounted_node.
Proof.
  intros c s w. destruct c; try done. simpl. split; [done|]. eexists _, _.
  split; [reflexivity|]. split; [by vm_compute|]. done.
Qed.

Definition demo_republish : outcome (option gerror) unit :=
  run mounted_node (NodePublishVolume demo_driver demo_publish) empty_mem tt.

Example sidecar_republish_witness :
  (match o_res demo_republish with Done (Some _) => True | _ => False end) ∧
  ∃ e, o_res demo_republish = Done e ∧
    republished sidecar_target 42 empty_mem e (o_mem demo_republish) (o_trace demo_republish).
Proof.
  split; [by vm_compute|].
  exact (sidecar_republish mounted_node demo_driver demo_publish 42 empty_mem tt mounted_node_shows
           demo_publish_ok eq_refl).
Defined.

Example publish_validation_witness :
  (∃ msg, o_res (run all_idle (NodePublishVolume demo_driver
      {| PubVolumeId := ""; PubTargetPath := "/t"; PubVolumeCapability := None;
         PubVolumeContext := ∅; PubSecrets := ∅; PubReadonly := false |}) empty_mem tt)
     = Done (Some (GrpcStatus InvalidArgument msg None))).
Proof.
  refine (proj1 (proj1 (publish_validation all_idle demo_driver _ empty_mem tt) _)).
  by intros [].
Defined.
End Demo.
