(* ===== verification/VolumeCycle.v ===== *)
(** * The life of a sidecar volume

    kubelet publishes and unpublishes a volume any number of times, retries what
    failed, and the driver may restart in between, losing its tables.  On the kernel
    of TargetTable.v, with other goroutines active during every call, the target
    never carries more than one mount, and the answers tell the truth about it. *)
From S2P Require Import Prelude GoStrings GoTime GoErrors Unstructured Resources Names MountArgs Kube.
From S2P Require Import Effects MountInfo Sweeper PodMounter Mounter TargetTable.
From S2P Require Import Descriptors FdChannel Sidecar SidecarSpec Node NodeSpec.

Local Open Scope Z_scope.

Section VolumeCycle.
Context `{QuantityLib} (mounter : Mounter) `{!MounterLaws mounter} `{MountLib}.

Variables (target : string) (d : Driver).

Local Abbreviation K := (kernel_at target).
Local Abbreviation same := (same_entries target).

(** Our FUSE mount and nothing else. *)
Definition one_mount (w : list MountInfo) : Prop := ∃ i, w = [i] ∧ is_ours i = true.
Definition at_most_one (w : list MountInfo) : Prop := w = [] ∨ one_mount w.

Lemma shrinks_at_most_one w w' : at_most_one w → shrinks w w' → at_most_one w'.
Proof.
  intros Hw Hs. destruct Hw as [->|(i & -> & Hi)].
  - left. by apply prefix_nil_inv.
  - destruct w' as [|j w']; [by left|]. right. exists i. split; [|done].
    pose proof (prefix_cons_inv_1 _ _ _ _ Hs) as ->. apply prefix_cons_inv_2, prefix_nil_inv in Hs as ->. done.
Qed.

Lemma untouched {A} P (p : prog A) :
  (∀ c, P c → table_untouched c) → simple P p → moves target eq p.
Proof. intros HP. apply (moves_simple target eq P). intros c Hc. by apply untouched_moving, HP. Qed.

(** ** A mount *)

Lemma files_untouched c : files_only c → table_untouched c.
Proof. by destruct c. Qed.

Lemma start_handoff_moves fd volumeDir symlinkPath n :
  moves target eq (start_handoff fd target volumeDir symlinkPath n).
Proof.
  unfold start_handoff, fuseMinorForMount, markSidecarHandoffPending.
  assert (Hc : ∀ c, table_untouched c → moves target eq (call_ c)).
  { intros c Hc. by apply (untouched table_untouched), simple_call. }
  apply moves_bind; [apply _|by apply Hc|intros _].
  apply moves_bind; [apply _| |intros pending].
  { apply (untouched table_untouched); [done|]. go_simple ltac:(done). }
  apply moves_bind; [apply _| |by intros _; apply Hc].
  destruct pending as [m|]; [|apply moves_ret, _]. apply moves_atomically; [apply _|by intros s].
Qed.

#[local] Opaque requireSidecarTmpfs prepare_handoff start_handoff.

Lemma sidecarMount_wp st sid opts volumeName s :
  wp K (sidecarMount st sid target opts volumeName) s [] (λ r s' w' _, ∃ e, r = Done e ∧ same s s' ∧
    match e with None => one_mount w' | Some _ => at_most_one w' end).
Proof.
  unfold sidecarMount. apply wp_bind.
  eapply wp_mono; [|exact (untouched _ _ files_untouched (requireSidecarTmpfs_files _) s [])].
  intros r s1 ? tr ([e ->] & S1 & <-). simpl. destruct e as [e|]; simpl.
  { eexists. split_and!; [done..|by left]. }
  intros fd s2 w2 [S2 ->]. destruct fd as [fd|e]; simpl.
  2: { eexists. split_and!; [done|by etrans|by left]. }
  intros r s3 w3 [S3 Hw]. destruct r as [e|]; simpl.
  { subst w3. intros c s4 w4 [S4 ->]. eexists. split_and!; [done| |by left].
    do 3 (etrans; [eassumption|]). done. }
  rewrite decide_True in Hw by done. destruct Hw as (i & -> & Hi). destruct (Hi eq_refl) as [Hsrc Hty].
  assert (Ho : one_mount [i]) by (exists i; unfold is_ours; by rewrite Hsrc, Hty).
  apply (wp_bind _ (prepare_handoff _ _ _ _ _)).
  eapply wp_mono; [|exact (untouched _ _ files_untouched (prepare_handoff_files _ _ _ _ _) s3 [i])].
  intros r s4 ? tr4 ([e ->] & S4 & <-). simpl. destruct e as [e|]; simpl.
  - intros u s5 w5 [S5 Hu] c s6 w6 [S6 ->]. eexists. split_and!; [done| |].
    + do 5 (etrans; [eassumption|]). done.
    + destruct u as [e'|]; [subst w5; by right|]. rewrite decide_True in Hu by done.
      destruct Hu as [j Hj]. left. by destruct w5 as [|? []].
  - apply (wp_bind _ (start_handoff _ _ _ _ _)). eapply wp_mono; [|apply start_handoff_moves].
    intros r s5 ? tr5 ([[] ->] & S5 & <-). simpl. eexists. split_and!; [done| |done].
    do 4 (etrans; [eassumption|]). done.
Qed.

(** ** A publish *)

Definition tracked (s : mem) : Prop := target ∈ sidecarVolumes s.
Definition same_bind (s s' : mem) : Prop := binds s' !! target = binds s !! target.

Lemma same_tracked s s' : same s s' → tracked s → tracked s'.
Proof. intros [_ Hv]. apply Hv. Qed.

(** What an answer to a publish says. *)
Definition published (s : mem) (e : option gerror) (s' : mem) (w' : list MountInfo) : Prop :=
  same_bind s s' ∧
  match e with
  | None => one_mount w' ∧ tracked s'
  | Some _ => at_most_one w'
  end.

Lemma published_same s s1 e s' w' : same s s1 → published s1 e s' w' → published s e s' w'.
Proof. intros [Hb _] [Hs Hp]. split; [|done]. unfold same_bind in *. congruence. Qed.

Lemma unmounting_untouched c : no_unmount c → table_untouched c.
Proof. by destruct c. Qed.

Lemma token_moves (token path : string) :
  moves target eq (if String.eqb token "" then mret None else writeTokenFile path token).
Proof. apply (untouched table_untouched); [done|]. unfold writeTokenFile. go_simple ltac:(done). Qed.

#[local] Opaque sidecarMount writeTokenFile refresh_token checkSidecarHealth abortFuseConnection.

Lemma fresh_publish_wp req mv s :
  PubTargetPath req = target →
  wp K (fresh_publish d true req mv) s [] (λ r s' w' _, ∃ e, r = Done e ∧ published s e s' w').
Proof.
  intros Ht. unfold fresh_publish. rewrite Ht. simpl. intros u s1 w1 [S1 ->].
  set (path := if String.eqb _ _ then _ else _).
  apply (wp_bind _ (if String.eqb (publish_token req) "" then mret None
                    else writeTokenFile path (publish_token req))).
  eapply wp_mono; [|apply token_moves]. intros r s2 ? tr ([e ->] & S2 & <-). simpl.
  destruct e as [e|]; simpl.
  { eexists. split; [done|]. split; [|by left]. by etrans; [apply S2|apply S1]. }
  apply wp_bind. eapply wp_mono; [|apply sidecarMount_wp].
  intros r s3 w3 tr3 (e & -> & S3 & Hw). assert (S13 : same s s3) by (do 2 (etrans; [eassumption|]); done).
  simpl. destruct e as [e|]; simpl.
  - eexists. split; [done|]. by split; [apply S13|].
  - intros [] s4 w4 [S4 ->]. eexists. split; [done|]. split.
    + etrans; [apply S4|apply S13].
    + split; [done|]. unfold tracked. simpl. by apply elem_of_union_l, elem_of_singleton.
Qed.

Lemma republish_health_wp podUID volumeID s w :
  one_mount w → tracked s →
  wp K (republish_health true podUID volumeID target) s w (λ r s' w' _,
    ∃ e, r = Done e ∧ published s e s' w').
Proof.
  intros Hw Htr. unfold republish_health. apply wp_bind.
  eapply wp_mono; [|exact (untouched _ _ unmounting_untouched (checkSidecarHealth_simple _ _) s w)].
  intros r s1 ? tr ([e ->] & S1 & <-). simpl. destruct e as [e|]; simpl.
  2: { eexists. split; [done|]. split; [apply S1|]. split; [done|by eapply same_tracked]. }
  apply (wp_bind _ (abortFuseConnection target)).
  eapply wp_mono; [|exact (untouched _ _ unmounting_untouched (abort_simple target) s1 w)].
  intros r s2 ? tr2 ([[] ->] & S2 & <-). simpl. intros u s3 w3 [S3 Hu].
  assert (S13 : same s s3) by (do 2 (etrans; [eassumption|]); done).
  destruct u as [e'|]; simpl.
  - subst w3. eexists. split; [done|]. split; [apply S13|by right].
  - rewrite decide_True in Hu by done. destruct Hu as [j ->]. intros [] s4 w4 [S4 ->].
    eexists. split; [done|]. split; [etrans; [apply S4|apply S13]|].
    apply (shrinks_at_most_one (w3 ++ [j])); [by right|by exists [j]].
Qed.

#[local] Opaque republish_health.

Lemma republish_wp req minor_ s w :
  PubTargetPath req = target → one_mount w →
  wp K (republish d true minor_ req) s w (λ r s' w' _, ∃ e, r = Done e ∧ published s e s' w').
Proof.
  intros Ht Hw. unfold republish. rewrite Ht. simpl. intros [] s1 w1 [S1 ->] [] s2 w2 [S2 ->].
  set (s1' := set_sidecarVolumes _ s1) in *.
  assert (Htr : tracked s1') by by apply elem_of_union_l, elem_of_singleton.
  assert (Hb : same_bind s s2) by (etrans; [apply S2|apply S1]).
  apply (same_tracked _ _ S2) in Htr. destruct (bool_decide _); simpl.
  { eexists. split; [done|]. by split. }
  apply (wp_bind _ (refresh_token d true _ _ _)).
  eapply wp_mono; [|exact (untouched _ _ unmounting_untouched (refresh_detached d _ _ _) s2 w)].
  intros r s3 ? tr ([[] ->] & S3 & <-). simpl.
  eapply wp_mono; [|apply republish_health_wp; [done|by eapply same_tracked]].
  intros r s4 w4 tr4 (e & -> & Hp). eexists. split; [done|]. destruct Hp as [Hb4 Hp].
  split; [|done]. unfold same_bind in *. destruct S3 as [S3 _]. congruence.
Qed.

Lemma topmost_at infos : topmost target infos = last (filter (at_target target) infos).
Proof. unfold topmost. by f_equal. Qed.

Lemma publish_state_wp s w :
  at_most_one w →
  wp K (publish_state true target) s w (λ r s' w' _, ∃ minor_ mounted err,
    r = Done (minor_, mounted, err) ∧ same s s' ∧ w' = w ∧
    (err = None → if mounted : bool then one_mount w else w = [])).
Proof.
  intros Hw. unfold publish_state, sidecarMountState, sidecarMountInfo. simpl.
  intros r s1 w1 [S1 [-> Hr]]. specialize (Hr eq_refl). destruct r as [infos|e]; simpl.
  2: { eexists _, _, _. split_and!; done. }
  rewrite find_topmost, topmost_at, (Hr infos eq_refl). destruct Hw as [->|(i & -> & Hi)]; simpl.
  { eexists _, _, _. split_and!; done. }
  unfold is_ours in Hi. apply andb_true_iff in Hi as [H1 H2]. rewrite H1, H2. simpl.
  eexists _, _, _. split_and!; [done..|]. intros _. exists i. split; [done|].
  unfold is_ours. by rewrite H1, H2.
Qed.

#[local] Opaque publish_state republish fresh_publish.

(** The publishes of this volume: well-formed requests for the target, in sidecar
    mode. *)
Definition publishes (req : NodePublishVolumeRequest) : Prop :=
  well_formed req ∧ will_use_sidecar (PubVolumeContext req) = true ∧ PubTargetPath req = target.

Lemma publish_wp req s w :
  publishes req → at_most_one w →
  wp K (NodePublishVolume d req) s w (λ r s' w' _, ∃ e, r = Done e ∧ published s e s' w').
Proof.
  intros (Hwf & Hs & Ht) Hw. apply check_publish_ok in Hwf as [mv Hmv].
  unfold NodePublishVolume, publish_checked. rewrite Hmv, Hs, Ht. apply wp_bind.
  eapply wp_mono; [|by apply publish_state_wp].
  intros r s1 ? tr (minor_ & mounted & err & -> & S1 & -> & Hm). simpl.
  destruct err as [e|]; simpl.
  { eexists. split; [done|]. split; [apply S1|done]. }
  specialize (Hm eq_refl). destruct mounted.
  - eapply wp_mono; [|by apply republish_wp]. intros r s2 w2 tr2 (e & -> & Hp).
    eexists. split; [done|]. by eapply published_same.
  - subst w. eapply wp_mono; [|by apply fresh_publish_wp]. intros r s2 w2 tr2 (e & -> & Hp).
    eexists. split; [done|]. by eapply published_same.
Qed.

(** ** An unpublish *)

(** What an answer to an unpublish says. *)
Definition unpublished (s : mem) (w : list MountInfo) (e : option gerror) (s' : mem)
    (w' : list MountInfo) : Prop :=
  same_bind s s' ∧ shrinks w w' ∧ (e = None → w' = [] ∧ ¬ tracked s').

Lemma tracked_unpublish_wp s w :
  tracked s →
  wp K (unpublishSidecarVolume target) s w (λ r s' w' _, ∃ e, r = Done e ∧ unpublished s w e s' w').
Proof.
  intros Htr. unfold unpublishSidecarVolume. apply wp_bind.
  eapply wp_mono; [|exact (untouched _ _ unmounting_untouched (abort_simple target) s w)].
  intros r s1 ? tr ([[] ->] & S1 & <-). simpl. intros u s2 w2 Hk.
  pose proof (no_mount_shrinks target (Unmount target true) I _ _ _ _ _ Hk) as Hs.
  assert (S12 : same s s2) by (etrans; [exact S1|apply Hk]).
  destruct (fatal_unmount u) as [e|]; simpl.
  { eexists. split; [done|]. by split_and!; [apply S12| |]. }
  intros rm s3 w3 (S3 & -> & Hr). assert (S13 : same s s3) by by etrans.
  destruct (fatal_remove rm) as [e|] eqn:E; simpl.
  { eexists. split; [done|]. by split_and!; [apply S13| |]. }
  intros [] s4 w4 [S4 ->]. eexists. split; [done|]. split_and!; [|done|].
  - etrans; [apply S4|apply S13].
  - intros _. split; [by apply Hr|]. unfold tracked. simpl. set_solver.
Qed.

Lemma unpublish_mounter_wp s w :
  binds s !! target = None → ¬ tracked s →
  wp K (unpublish_mounter target) s w (λ r s' w' _, ∃ e, r = Done e ∧ unpublished s w e s' w').
Proof.
  intros Hb Hn. assert (Hu : ∀ s1 (k : option gerror → option gerror), same s s1 →
    (∀ u, k u = None → u = None) →
    wp K (u ← mounter_Unmount target; mret (k u)) s1 w (λ r s' w' _,
      ∃ e, r = Done e ∧ unpublished s w e s' w')).
  { intros s1 k S1 Hk. apply wp_bind. eapply wp_mono; [|apply Unmount_clears].
    2: { by rewrite (proj1 S1). }
    intros r s2 w2 tr (e & -> & S2 & Hs & He). simpl. eexists. split; [done|].
    split_and!; [etrans; [apply S2|apply S1]|done|]. intros Hke%Hk. split; [by apply He|].
    unfold tracked. by rewrite (proj2 S2), (proj2 S1). }
  assert (Hd : ∀ s1 e, same s s1 → (e = None → w = []) → unpublished s w e s1 w).
  { intros s1 e S1 He. split_and!; [apply S1|done|]. intros Hn'. split; [by apply He|].
    unfold tracked. by rewrite (proj2 S1). }
  unfold unpublish_mounter. apply wp_bind. eapply wp_mono; [|apply IsMountPoint_missing].
  intros r s1 ? tr (mounted & err & -> & S1 & -> & Hm). simpl. destruct err as [e|].
  - destruct (IsCorruptedMnt e).
    { eapply wp_mono; [|apply Hu; [done|by intros []]]. intros r s2 w2 tr2 Hr. exact Hr. }
    destruct (IsNotExist e) eqn:En; simpl; eexists; (split; [done|]); apply Hd; try done.
    intros _. by eapply Hm.
  - destruct mounted.
    { eapply wp_mono; [|apply Hu; [done|by intros []]]. intros r s2 w2 tr2 Hr. exact Hr. }
    simpl. intros rm s2 w2 (S2 & -> & Hr). eexists. split; [done|]. apply Hd; [by etrans|].
    destruct (fatal_remove rm); [done|]. by intros _; apply Hr.
Qed.

#[local] Opaque unpublishSidecarVolume unpublish_mounter.

(** The unpublishes of this volume. *)
Definition unpublishes (req : NodeUnpublishVolumeRequest) : Prop :=
  UnpubVolumeId req ≠ ""%string ∧ UnpubTargetPath req ≠ ""%string ∧ UnpubTargetPath req = target.

Lemma unpublish_wp req s w :
  unpublishes req → binds s !! target = None →
  wp K (NodeUnpublishVolume d req) s w (λ r s' w' _, ∃ e, r = Done e ∧ unpublished s w e s' w').
Proof.
  intros (Hv & Ht & Heq) Hb. unfold NodeUnpublishVolume.
  rewrite !(proj2 (String.eqb_neq _ _)) by done. rewrite Heq. simpl. intros [] s1 w1 [S1 ->].
  assert (Hb1 : binds s1 !! target = None) by by rewrite (proj1 S1).
  apply (wp_bind _ (if bool_decide (target ∈ sidecarVolumes s1) then _ else _)).
  eapply (wp_mono _ _ _ _ (λ r s' w' _, ∃ e, r = Done e ∧ unpublished s1 w e s' w')).
  2: { destruct (bool_decide_reflect (target ∈ sidecarVolumes s1));
       [by apply tracked_unpublish_wp|by apply unpublish_mounter_wp]. }
  intros r s2 w2 tr (e & -> & Hbe & Hs & He). simpl.
  intros _ s3 w3 (S3 & -> & _) _ s4 w4 (S4 & -> & _) _ s5 w5 (S5 & -> & _).
  assert (S25 : same s2 s5) by (do 2 (etrans; [eassumption|]); done).
  eexists. split; [done|]. split_and!; [|done|].
  - etrans; [apply S25|]. etrans; [apply Hbe|apply S1].
  - intros Hn. destruct (He Hn) as [? Hnt]. split; [done|]. unfold tracked in *. by rewrite (proj2 S25).
Qed.

(** ** The life of the volume *)

(** What happens to the memory of the plugin and the mounts at the target: a publish
    or an unpublish of the volume on some kernel, whatever the other goroutines do
    to other entries, during a request or between two, and a restart. *)
Inductive happens : mem * list MountInfo → mem * list MountInfo → Prop :=
| publish_happens h req s w :
    env_ok K h → publishes req →
    let o := run h (NodePublishVolume d req) s w in happens (s, w) (o_mem o, o_world o)
| unpublish_happens h req s w :
    env_ok K h → unpublishes req →
    let o := run h (NodeUnpublishVolume d req) s w in happens (s, w) (o_mem o, o_world o)
| others_happen s s' w : same s s' → happens (s, w) (s', w)
| restart_happens s w : happens (s, w) (empty_mem, w).

Definition volume_ok (st : mem * list MountInfo) : Prop :=
  binds st.1 !! target = None ∧ at_most_one st.2.

Lemma volume_ok_step st st' : happens st st' → volume_ok st → volume_ok st'.
Proof.
  intros Hst [Hb Hw]. destruct Hst as [h req s w Hh Hq o|h req s w Hh Hq o|s s' w S|s w]; simpl in *.
  - destruct (run_wp _ _ _ _ _ _ Hh (publish_wp req s w Hq Hw)) as (e & _ & Hsb & Hp).
    split; [exact (eq_trans Hsb Hb)|]. destruct e; [done|]. by right; apply Hp.
  - destruct (run_wp _ _ _ _ _ _ Hh (unpublish_wp req s w Hq Hb)) as (e & _ & Hsb & Hs & _).
    split; [exact (eq_trans Hsb Hb)|]. by eapply shrinks_at_most_one.
  - split; [exact (eq_trans (proj1 S) Hb)|done].
  - done.
Qed.

Lemma volume_ok_reachable st st' : rtc happens st st' → volume_ok st → volume_ok st'.
Proof. induction 1; eauto using volume_ok_step. Qed.

(** C7. Through any history of publishes, unpublishes and restarts, with any failures and
    any interference on other targets, a sidecar volume's target never carries more
    than one mount, and that one is ours.  From every state so reached each further
    request is answered; a publish that answers success has left our mount there and
    the volume in the table of sidecar volumes; an unpublish that answers success has
    left the target bare and the volume forgotten, also when a restart made the
    driver forget it before. *)
Theorem sidecar_volume_cycle s s' w' :
  binds s !! target = None → rtc happens (s, []) (s', w') →
  at_most_one w' ∧
  (∀ h req, env_ok K h → publishes req →
     let o := run h (NodePublishVolume d req) s' w' in
     ∃ e, o_res o = Done e ∧ (e = None → one_mount (o_world o) ∧ tracked (o_mem o))) ∧
  (∀ h req, env_ok K h → unpublishes req →
     let o := run h (NodeUnpublishVolume d req) s' w' in
     ∃ e, o_res o = Done e ∧ (e = None → o_world o = [] ∧ ¬ tracked (o_mem o))).
Proof.
  intros Hb Hr.
  assert (Hok : volume_ok (s', w')).
  { apply (volume_ok_reachable _ _ Hr). by split; [|left]. }
  destruct Hok as [Hb' Hw']. simpl in Hb', Hw'. split_and!; [done| |].
  - intros h req Hh Hq o.
    destruct (run_wp _ _ _ _ _ _ Hh (publish_wp req s' w' Hq Hw')) as (e & He & _ & Hp).
    exists e. split; [done|]. by intros ->.
  - intros h req Hh Hq o.
    destruct (run_wp _ _ _ _ _ _ Hh (unpublish_wp req s' w' Hq Hb')) as (e & He & _ & _ & Hp).
    by exists e.
Qed.
End VolumeCycle.

(** ** A concrete volume *)

Section Demo.
#[local] Existing Instance z_quantities.
#[local] Instance no_corruption : MountLib := λ _, false.
#[local] Instance utc_only : TimeLib := λ _, None.

Definition demo_mounter : PMConfig :=
  {| namespace := "kube-system"; nodeID := "node-1"; image := "hf-mount:1"; imagePullPolicy := "";
     imagePullSecrets := []; serviceAccount := ""; cacheDir := "/cache"; hostNetwork := true;
     mountReadyTimeout := 0; pm_defaults := @Build_Defaults z_quantities 10 100 50 |}.
#[local] Instance pod_mounter : Mounter := PodMounter 1 demo_mounter.

Definition here_b (path : string) : bool := bool_decide (here sidecar_target path).
Definition our_entry : MountInfo :=
  {| MIMinor := 42; MIMountPoint := sidecar_target; MIFsType := "fuse"; MISource := "hf-mount" |}.
Definition tmpfs_entry : MountInfo :=
  {| MIMinor := 7; MIMountPoint := sidecarEmptyDirPath "1f2e"; MIFsType := "tmpfs"; MISource := "tmpfs" |}.

(** A kernel with the emptyDir of the pod mounted; files and sockets work. *)
Definition demo_kernel : env (list MountInfo) := λ c s w,
  match c return ans c * mem * list MountInfo with
  | Mount source_ path fstype_ _ _ _ =>
      (None, s, if here_b path
                then w ++ [{| MIMinor := 42; MIMountPoint := sidecar_target; MIFsType := fstype_;
                              MISource := source_ |}]
                else w)
  | Unmount path _ =>
      if here_b path then match w with [] => (Some (Errno EINVAL), s, w)
                                     | _ => (None, s, removelast w) end
      else (Some (Errno EINVAL), s, w)
  | ParseMountInfo _ =>
      (if decide (Forall (at_target sidecar_target) w) then Ok (tmpfs_entry :: w) else Err (Errno 5), s, w)
  | Remove path => (if here_b path && negb (Nat.eqb (length w) 0) then Some (Errno 16) else None, s, w)
  | IsMountPoint path => ((here_b path && negb (Nat.eqb (length w) 0), None), s, w)
  | OpenDevFuse => (Ok 5, s, w)
  | CreateTemp _ _ => (Ok "/cache/.token-1"%string, s, w)
  | OpenDir _ => (Ok 8, s, w)
  | Openat2 _ _ _ _ => (Ok 9, s, w)
  | ReadFile _ => (Ok "hf_secret"%string, s, w)
  | c => (idle c, s, w)
  end.

Lemma filter_at w : Forall (at_target sidecar_target) w → filter (at_target sidecar_target) w = w.
Proof. induction 1 as [|i w Hi Hw IH]; [done|]. by rewrite filter_cons_True, IH. Qed.

Lemma demo_kernel_ok : env_ok (kernel_at sidecar_target) demo_kernel.
Proof.
  intros c s w. destruct c; try (split; [done|reflexivity]); simpl.
  - unfold here_b. destruct (bool_decide_reflect (here sidecar_target path)) as [Hh|Hh].
    + destruct w as [|i w] using rev_ind; [by split|]. rewrite removelast_last.
      destruct (w ++ [i]) eqn:E; [by destruct w|]. rewrite <-E. split; [done|].
      rewrite decide_True by done. by exists i.
    + by split.
  - split; [done|]. unfold here_b. destruct (bool_decide_reflect (here sidecar_target target)) as [Hh|Hh].
    + rewrite decide_True by done. by eexists.
    + by rewrite decide_False.
  - split; [done|]. split; [done|]. intros Hh e He. done.
  - split; [done|]. split; [done|]. intros _ infos. destruct (decide _) as [Ha|]; [|done].
    intros [= <-]. rewrite filter_cons_False by (by vm_compute). by apply filter_at.
  - split; [done|]. split; [done|]. unfold here_b. intros Hh. rewrite bool_decide_true by done.
    by destruct w.
Qed.

Definition after_publish := run demo_kernel (NodePublishVolume demo_driver demo_publish) empty_mem [].
Definition after_restart := run demo_kernel (NodeUnpublishVolume demo_driver demo_unpublish) empty_mem
  (o_world after_publish).

Lemma demo_publishes : publishes sidecar_target demo_publish.
Proof. split; [exact demo_publish_ok|]. by split. Qed.

Lemma demo_unpublishes : unpublishes sidecar_target demo_unpublish.
Proof. done. Qed.

Definition succeeded (r : res (option gerror)) : bool :=
  match r with Done None => true | _ => false end.

Lemma succeeded_none r e : succeeded r = true → r = Done e → e = None.
Proof. intros Hs ->. by destruct e. Qed.

(** Published, the driver restarted, unpublished through the mounter: bare again. *)
Example sidecar_volume_cycle_witness :
  bool_decide (o_world after_publish = []) = false ∧
  succeeded (o_res after_restart) = true ∧
  o_world after_restart = [].
Proof.
  split; [by vm_compute|]. assert (Hn : succeeded (o_res after_restart) = true) by by vm_compute.
  split; [exact Hn|].
  assert (Hr : rtc (happens pod_mounter sidecar_target demo_driver) (empty_mem, [])
                   (empty_mem, o_world after_publish)).
  { eapply rtc_l; [exact (publish_happens _ _ _ demo_kernel demo_publish empty_mem []
      demo_kernel_ok demo_publishes)|]. apply rtc_once, restart_happens. }
  destruct (sidecar_volume_cycle pod_mounter sidecar_target demo_driver empty_mem empty_mem _ eq_refl Hr)
    as (_ & _ & Hu).
  destruct (Hu demo_kernel demo_unpublish demo_kernel_ok demo_unpublishes) as (e & He & Hw).
  exact (proj1 (Hw (succeeded_none _ e Hn He))).
Defined.
End Demo.
