(* ===== verification/Webhook.v ===== *)
(** * The sidecar injector (pkg/webhook/handler.go, sidecar.go)

    A mutating admission webhook: it counts the volumes of this driver in a pod
    that is being created, merges their hints, and adds the sidecar container that
    will serve them.  Decoding and encoding of pods are those of the API machinery
    ([PodCodec]); [PatchResponseFromRaw] computes the JSON patch between two
    encodings and is kept as a constructor. *)
From S2P Require Import Prelude GoStrings GoErrors Unstructured Resources Kube Effects.
From Stdlib Require Import Ascii.

Local Open Scope Z_scope.

(** ** Constants *)

Definition CSIDriverName : string := "hf.csi.huggingface.co".
Definition SidecarContainerName : string := "hf-mount".
Definition TmpVolumeName : string := "hf-csi-tmp".
Definition TmpVolumeMountPath : string := "/hf-csi-tmp".
Definition volumeAttrMountMode : string := "mountMode".
Definition volumeAttrLogFormat : string := "logFormat".
Definition volumeAttrSourceType : string := "sourceType".
Definition volumeAttrMountFlags : string := "mountFlags".
Definition mountModeMountPod : string := "mountpod".
Definition MinTerminationGracePeriodSeconds : Z := 60.
Definition AnnotationOriginalGracePeriod : string :=
  "hf.csi.huggingface.co/original-termination-grace-period-seconds".

(** ** Read-only volumes *)

Definition volumeIsReadOnly (readOnly : option bool) (attrs : gmap string string) : bool :=
  default false readOnly
  || String.eqb (attr attrs volumeAttrSourceType) "repo"
  || existsb (λ f, String.eqb (TrimSpace f) "read-only")
       (Split (attr attrs volumeAttrMountFlags) ",").

Definition pvMountOptionsReadOnly (pv : PersistentVolume) : bool :=
  existsb (λ opt, String.eqb opt "read-only") (PVMountOptions pv).

(** The encoding of pods and its inverse, third-party code. *)
Class PodCodec `{QuantityLib} := {
  Marshal : Pod → result string;
  Decode : string → result Pod
}.

Section Webhook.
Context `{QuantityLib}.

(** ** Merging hints *)

Definition maxQuantity (a b : option Quantity) : option Quantity :=
  match a, b with
  | None, _ => b
  | Some _, None => a
  | Some x, Some y => match Cmp x y with Lt => b | _ => a end
  end.

Definition mergeMaxResources (dst other : MountResources) : MountResources :=
  {| CPULimit := maxQuantity (CPULimit dst) (CPULimit other);
     CPURequest := maxQuantity (CPURequest dst) (CPURequest other);
     MemoryLimit := maxQuantity (MemoryLimit dst) (MemoryLimit other);
     MemoryRequest := maxQuantity (MemoryRequest dst) (MemoryRequest other) |}.

(** ** Configuration *)

Record Config := {
  SidecarImage : string;
  SidecarLogFormat : string;
  wh_defaults : Defaults             (* the package variables of resources.go *)
}.

(** ** Scanning a pod *)

Definition resolvePVFromPVC (pvcName namespace : string) : prog (option PersistentVolume) :=
  pvc ← call_ (PVCGet namespace pvcName);
  match pvc with
  | Err _ => mret None
  | Ok pvName =>
      if String.eqb pvName "" then mret None
      else
        pv ← call_ (PVGet pvName);
        mret (match pv with
              | Err _ => None
              | Ok pv =>
                  match PVCSI pv with
                  | None => None
                  | Some src => if String.eqb (PVDriver src) CSIDriverName then Some pv else None
                  end
              end)
  end.

(** The variables of the loop: count, resources, logFormat, allReadOnly. *)
Record scan := {
  sc_count : Z;
  sc_resources : MountResources;
  sc_logFormat : string;
  sc_allReadOnly : bool
}.

Definition scan_start : scan :=
  {| sc_count := 0; sc_resources := no_resources; sc_logFormat := ""; sc_allReadOnly := true |}.

(** One volume of this driver, with its read-only flag. *)
Definition scan_add (st : scan) (readOnly : option bool) (attrs : gmap string string) : scan :=
  if String.eqb (attr attrs volumeAttrMountMode) mountModeMountPod then st
  else {|
    sc_count := sc_count st + 1;
    sc_allReadOnly := if volumeIsReadOnly readOnly attrs then sc_allReadOnly st else false;
    sc_resources := mergeMaxResources (sc_resources st) (ParseMountResources attrs);
    sc_logFormat := if String.eqb (sc_logFormat st) "" then attr attrs volumeAttrLogFormat
                    else sc_logFormat st
  |}.

Definition scan_volume (namespace : string) (st : scan) (vol : Volume) : prog scan :=
  match VSource vol with
  | CSI src =>
      if String.eqb (CSIDriver src) CSIDriverName
      then mret (scan_add st (CSIReadOnly src) (VolumeAttributes src))
      else mret st
  | PersistentVolumeClaim claimName readOnly =>
      pv ← resolvePVFromPVC claimName namespace;
      match pv with
      | None => mret st
      | Some pv =>
          match PVCSI pv with
          | None => Panic "nil pointer dereference"
          | Some src =>
              let ro := readOnly || PVReadOnly src || pvMountOptionsReadOnly pv in
              mret (scan_add st (Some ro) (PVVolumeAttributes src))
          end
      end
  | _ => mret st
  end.

Fixpoint scan_loop (namespace : string) (st : scan) (vols : list Volume) : prog scan :=
  match vols with
  | [] => mret st
  | vol :: vols' => st' ← scan_volume namespace st vol; scan_loop namespace st' vols'
  end.

Definition scanHFCSIVolumes (pod : Pod) (namespace : string) : prog scan :=
  scan_loop namespace scan_start (Volumes (PSpec pod)).

Definition hasSidecar (pod : Pod) : bool :=
  existsb (λ c, String.eqb (CName c) SidecarContainerName) (InitContainers (PSpec pod)) ||
  existsb (λ c, String.eqb (CName c) SidecarContainerName) (Containers (PSpec pod)).

(** ** Injection *)

(** A pod with other annotations, grace period, init containers and volumes. *)
Definition edit_pod (pod : Pod) (annotations : gmap string string) (grace : option Z)
    (inits : list Container) (vols : list Volume) : Pod :=
  let sp := PSpec pod in
  {| PName := PName pod; PNamespace := PNamespace pod; PUID := PUID pod; PLabels := PLabels pod;
     PAnnotations := annotations; PDeleting := PDeleting pod; PPhase := PPhase pod;
     PContainerStatuses := PContainerStatuses pod;
     PSpec := {| HostNetwork := HostNetwork sp; RestartPolicy := RestartPolicy sp;
                 TerminationGracePeriodSeconds := grace; NodeAffinity := NodeAffinity sp;
                 ServiceAccountName := ServiceAccountName sp;
                 ImagePullSecrets := ImagePullSecrets sp; Tolerations := Tolerations sp;
                 InitContainers := inits; Containers := Containers sp; Volumes := vols |} |}.

Definition add_volumes (pod : Pod) (vols : list Volume) : Pod :=
  edit_pod pod (PAnnotations pod) (TerminationGracePeriodSeconds (PSpec pod))
    (InitContainers (PSpec pod)) (Volumes (PSpec pod) ++ vols).

Definition prepend_init (c : Container) (pod : Pod) : Pod :=
  edit_pod pod (PAnnotations pod) (TerminationGracePeriodSeconds (PSpec pod))
    (c :: InitContainers (PSpec pod)) (Volumes (PSpec pod)).

Definition ensureTerminationGracePeriod (pod : Pod) : Pod :=
  let current := TerminationGracePeriodSeconds (PSpec pod) in
  let enough := match current with
                | Some g => MinTerminationGracePeriodSeconds <=? g
                | None => false
                end in
  if enough then pod
  else
    let original := match current with Some g => Itoa g | None => "unset" end in
    edit_pod pod (<[AnnotationOriginalGracePeriod := original]> (PAnnotations pod))
      (Some MinTerminationGracePeriodSeconds) (InitContainers (PSpec pod)) (Volumes (PSpec pod)).

Definition sidecar_container (config : Config) (volumeCount graceSeconds : Z)
    (resources : MountResources) (allReadOnly : bool) : Container :=
  {| CName := SidecarContainerName;
     CImage := SidecarImage config;
     CImagePullPolicy := "IfNotPresent";
     CRestartPolicy := Some "Always"%string;
     CCommand := ["hf-mount-fuse-sidecar"%string];
     CArgs := ["--tmp-dir=" +++ TmpVolumeMountPath; "--expected-mounts=" +++ Itoa volumeCount]%string;
     CEnv := [("HOME", "/tmp"); ("HF_CSI_TERMINATION_GRACE_SECONDS", Itoa graceSeconds);
              ("MALLOC_ARENA_MAX", "2")]%string ++
             (if String.eqb (SidecarLogFormat config) "" then []
              else [("RUST_LOG_FORMAT"%string, SidecarLogFormat config)]);
     CSecurityContext := Some {|
       Privileged := None;
       RunAsNonRoot := Some true; RunAsUser := Some 65534; RunAsGroup := Some 65534;
       ReadOnlyRootFilesystem := Some true; AllowPrivilegeEscalation := Some false;
       CapabilitiesDrop := ["ALL"%string]; SeccompProfile := Some "RuntimeDefault"%string |};
     CVolumeMounts := [
       {| VMName := TmpVolumeName; VMPath := TmpVolumeMountPath; VMPropagation := None |};
       {| VMName := "sidecar-tmp"; VMPath := "/tmp"; VMPropagation := None |}];
     CStartupProbe := Some {|
       ProbeExec := ["test"; "-f"; TmpVolumeMountPath +++ "/.ready"]%string;
       PeriodSeconds := 1; FailureThreshold := 120 |};
     CResources := BuildResourceRequirements resources
       (DefaultMountCPURequest (wh_defaults config))
       (DefaultMemoryRequestFor (wh_defaults config) allReadOnly) |}.

(** The dereference of the grace period after [ensureTerminationGracePeriod]: [None]
    would be a nil pointer. *)
Definition injectSidecar (pod : Pod) (config : Config) (volumeCount : Z)
    (resources : MountResources) (allReadOnly : bool) : option Pod :=
  let pod := add_volumes pod [
    {| VName := TmpVolumeName; VSource := EmptyDir "Memory" |};
    {| VName := "sidecar-tmp"; VSource := EmptyDir "" |}] in
  let pod := ensureTerminationGracePeriod pod in
  graceSeconds ← TerminationGracePeriodSeconds (PSpec pod);
  Some (prepend_init (sidecar_container config volumeCount graceSeconds resources allReadOnly) pod).

(** ** Handle *)

Record Request := { ReqOperation : string; ReqNamespace : string; ReqObjectRaw : string }.

Inductive Response :=
| Errored (code : Z) (err : gerror)
| Allowed (reason : string)
| PatchResponseFromRaw (original current : string).

Definition Handle `{!PodCodec} (cfg : Config) (req : Request) : prog Response :=
  match Decode (ReqObjectRaw req) with
  | Err e => mret (Errored 400 e)
  | Ok pod =>
      if negb (String.eqb (ReqOperation req) "CREATE") then mret (Allowed "not a create")
      else
        sc ← scanHFCSIVolumes pod (ReqNamespace req);
        if sc_count sc =? 0 then mret (Allowed "no HF CSI volumes")
        else if hasSidecar pod then mret (Allowed "sidecar already injected")
        else
          let config := {|
            SidecarImage := SidecarImage cfg;
            SidecarLogFormat := if String.eqb (SidecarLogFormat cfg) "" then sc_logFormat sc
                                else SidecarLogFormat cfg;
            wh_defaults := wh_defaults cfg |} in
          match injectSidecar pod config (sc_count sc) (sc_resources sc) (sc_allReadOnly sc) with
          | None => Panic "nil pointer dereference"
          | Some pod' =>
              match Marshal pod' with
              | Err e => mret (Errored 500 e)
              | Ok raw => mret (PatchResponseFromRaw (ReqObjectRaw req) raw)
              end
          end
  end.
End Webhook.
