(* ===== verification/WebhookSpec.v ===== *)
(** * The sidecar injector: specification and proofs

    The scan of a pod as a summary of the hints of its volumes, independent of
    their order; what an admitted pod looks like and that a second admission leaves
    it alone; and the agreement of the webhook and the driver on which volumes are
    read-only. *)
From S2P Require Import Prelude GoStrings Sha256 GoTime GoErrors Unstructured Resources.
From S2P Require Import Names MountArgs Kube Effects MountInfo Sweeper PodMounter Mounter.
From S2P Require Import Descriptors FdChannel Sidecar Node Webhook.
From Stdlib Require Import Ascii.

Local Open Scope Z_scope.

(** ** Merged resources form a join-semilattice up to the amount *)

Section Lattice.
Context `{QuantityLaws}.

(** The amounts in order; an unset quantity is below all others. *)
Definition le_amount (a b : option Quantity) : Prop :=
  match a, b with
  | None, _ => True
  | Some _, None => False
  | Some a, Some b => Cmp a b ≠ Gt
  end.

Lemma le_amount_antisym a b : le_amount a b → le_amount b a → same_amount a b.
Proof.
  destruct a as [a|], b as [b|]; simpl; try done. rewrite (Cmp_antisym a b).
  by destruct (Cmp a b).
Qed.

#[export] Instance le_amount_preorder : PreOrder le_amount.
Proof.
  split.
  - intros [a|]; simpl; [by rewrite Cmp_refl|done].
  - intros [a|] [b|] [c|]; simpl; try done. apply Cmp_trans_le.
Qed.

Lemma same_amount_le a b : same_amount a b → le_amount a b.
Proof. destruct a as [a|], b as [b|]; simpl; try done. by intros ->. Qed.

(** [maxQuantity] is the least upper bound. *)
Lemma maxQuantity_ub_l a b : le_amount a (maxQuantity a b).
Proof.
  destruct a as [a|], b as [b|]; simpl; try done; [|by rewrite Cmp_refl].
  destruct (Cmp a b) eqn:E; simpl; rewrite ?E, ?Cmp_refl; done.
Qed.

Lemma maxQuantity_ub_r a b : le_amount b (maxQuantity a b).
Proof.
  destruct a as [a|], b as [b|]; simpl; try done; [|by rewrite Cmp_refl].
  destruct (Cmp a b) eqn:E; simpl; rewrite ?Cmp_refl, ?(Cmp_antisym a b), ?E; done.
Qed.

Lemma maxQuantity_lub a b c : le_amount a c → le_amount b c → le_amount (maxQuantity a b) c.
Proof. destruct a as [a|], b as [b|]; simpl; try done. by destruct (Cmp a b). Qed.

#[export] Instance maxQuantity_proper :
  Proper (same_amount ==> same_amount ==> same_amount) maxQuantity.
Proof.
  intros a a' Ha b b' Hb.
  apply le_amount_antisym; apply maxQuantity_lub.
  - etrans; [by apply same_amount_le|apply maxQuantity_ub_l].
  - etrans; [by apply same_amount_le|apply maxQuantity_ub_r].
  - etrans; [by apply same_amount_le; symmetry|apply maxQuantity_ub_l].
  - etrans; [by apply same_amount_le; symmetry|apply maxQuantity_ub_r].
Qed.

Lemma maxQuantity_swap a b c :
  same_amount (maxQuantity (maxQuantity a b) c) (maxQuantity (maxQuantity a c) b).
Proof.
  assert (Hle : ∀ x y, le_amount (maxQuantity (maxQuantity a x) y) (maxQuantity (maxQuantity a y) x)).
  { intros x y. apply maxQuantity_lub; [apply maxQuantity_lub|].
    - etrans; [apply maxQuantity_ub_l|apply maxQuantity_ub_l].
    - apply maxQuantity_ub_r.
    - etrans; [apply maxQuantity_ub_r|apply maxQuantity_ub_l]. }
  apply le_amount_antisym; apply Hle.
Qed.

#[export] Instance mergeMax_proper :
  Proper (same_resources ==> same_resources ==> same_resources) mergeMaxResources.
Proof.
  intros r r' (? & ? & ? & ?) q q' (? & ? & ? & ?).
  unfold same_resources, mergeMaxResources. simpl. split_and!; by apply maxQuantity_proper.
Qed.

Lemma mergeMax_swap r a b :
  same_resources (mergeMaxResources (mergeMaxResources r a) b)
                 (mergeMaxResources (mergeMaxResources r b) a).
Proof. unfold same_resources, mergeMaxResources. simpl. split_and!; apply maxQuantity_swap. Qed.

(** Merging a list of hints does not depend on its order. *)
Lemma merge_all_perm r l l' :
  l ≡ₚ l' → same_resources (fold_left mergeMaxResources l r) (fold_left mergeMaxResources l' r).
Proof.
  assert (Hp : ∀ l r r', same_resources r r' →
    same_resources (fold_left mergeMaxResources l r) (fold_left mergeMaxResources l r')).
  { induction l0 as [|x l0 IH]; intros r1 r2 Hr; simpl; [done|]. apply IH. by rewrite Hr. }
  intros Hl. revert r. induction Hl as [|x l l' Hl IH|x y l|l1 l2 l3 H1 IH1 H2 IH2]; intros r; simpl.
  - reflexivity.
  - apply IH.
  - apply Hp, mergeMax_swap.
  - by rewrite IH1, IH2.
Qed.
End Lattice.

(** ** The scan as a summary of hints *)

Section Scan.
Context `{QuantityLib}.
Variables (claims : string → string → result string) (pvs : string → result PersistentVolume).

(** The API server answers from a fixed set of claims and persistent volumes. *)
Definition cluster {W} : rely W := λ c s _ a s' _,
  s' = s ∧
  match c return ans c → Prop with
  | PVCGet ns name => λ r, r = claims ns name
  | PVGet name => λ r, r = pvs name
  | _ => λ _, True
  end a.

(** The persistent volume of this driver a claim is bound to. *)
Definition bound_pv (ns claim : string) : option (PersistentVolume * CSIPersistentVolumeSource) :=
  match claims ns claim with
  | Ok name =>
      if String.eqb name "" then None
      else match pvs name with
           | Ok pv => src ← PVCSI pv;
                      if String.eqb (PVDriver src) CSIDriverName then Some (pv, src) else None
           | Err _ => None
           end
  | Err _ => None
  end.

(** The hint a volume gives: its explicit read-only flag and its attributes; none
    for a volume of another driver or one that asks for a mount pod. *)
Definition hint := (option bool * gmap string string)%type.

Definition sidecar_served (h : hint) : bool :=
  negb (String.eqb (attr h.2 volumeAttrMountMode) mountModeMountPod).

Definition volume_hint (ns : string) (vol : Volume) : option hint :=
  h ← match VSource vol with
      | CSI src => if String.eqb (CSIDriver src) CSIDriverName
                   then Some (CSIReadOnly src, VolumeAttributes src) else None
      | PersistentVolumeClaim claim ro =>
          '(pv, src) ← bound_pv ns claim;
          Some (Some (ro || PVReadOnly src || pvMountOptionsReadOnly pv), PVVolumeAttributes src)
      | _ => None
      end;
  if sidecar_served h then Some h else None.

Definition hints (ns : string) (vols : list Volume) : list hint := omap (volume_hint ns) vols.

(** The number of hints, the largest of each resource, the first log format, and
    whether every volume is read-only. *)
Definition summary (hs : list hint) : scan := {|
  sc_count := Z.of_nat (length hs);
  sc_resources := fold_left mergeMaxResources (ParseMountResources ∘ snd <$> hs) no_resources;
  sc_logFormat := default ""%string
    (head (filter (λ f, f ≠ ""%string) ((λ h, attr h.2 volumeAttrLogFormat) <$> hs)));
  sc_allReadOnly := forallb (λ h, volumeIsReadOnly h.1 h.2) hs
|}.

(** [q] is the largest of a list of optional quantities: unset when all are. *)
Definition largest (l : list (option Quantity)) (q : option Quantity) : Prop :=
  match q with
  | None => ∀ x, x ∈ l → x = None
  | Some q => Some q ∈ l ∧ ∀ a, Some a ∈ l → Cmp a q ≠ Gt
  end.

(** The same in words, field by field. *)
Record summarises (hs : list hint) (sc : scan) : Prop := {
  sum_count : sc_count sc = Z.of_nat (length hs);
  sum_cpu_limit : largest (CPULimit ∘ ParseMountResources ∘ snd <$> hs) (CPULimit (sc_resources sc));
  sum_cpu_request : largest (CPURequest ∘ ParseMountResources ∘ snd <$> hs) (CPURequest (sc_resources sc));
  sum_memory_limit : largest (MemoryLimit ∘ ParseMountResources ∘ snd <$> hs) (MemoryLimit (sc_resources sc));
  sum_memory_request :
    largest (MemoryRequest ∘ ParseMountResources ∘ snd <$> hs) (MemoryRequest (sc_resources sc));
  sum_log_format :
    (sc_logFormat sc = ""%string ∧ ∀ h, h ∈ hs → attr h.2 volumeAttrLogFormat = ""%string) ∨
    (sc_logFormat sc ≠ ""%string ∧ ∃ hs1 h hs2, hs = hs1 ++ h :: hs2 ∧
       sc_logFormat sc = attr h.2 volumeAttrLogFormat ∧
       ∀ h', h' ∈ hs1 → attr h'.2 volumeAttrLogFormat = ""%string);
  sum_read_only : sc_allReadOnly sc = true ↔ ∀ h, h ∈ hs → volumeIsReadOnly h.1 h.2 = true
}.

Lemma summary_snoc hs h :
  sidecar_served h = true → summary (hs ++ [h]) = scan_add (summary hs) h.1 h.2.
Proof.
  intros Hs. unfold scan_add, sidecar_served in *. apply negb_true_iff in Hs. rewrite Hs.
  unfold summary. simpl. f_equal.
  - rewrite length_app. simpl. lia.
  - by rewrite fmap_app, fold_left_app.
  - rewrite fmap_app, filter_app. simpl.
    destruct (filter _ _) as [|f fs] eqn:E; simpl.
    + rewrite filter_cons, filter_nil. by case_decide.
    + assert (Hf : f ∈ filter (λ f, f ≠ ""%string) ((λ h, attr h.2 volumeAttrLogFormat) <$> hs)).
      { rewrite E. by left. }
      apply list_elem_of_filter in Hf as [Hf _]. by rewrite (proj2 (String.eqb_neq _ _)).
  - rewrite forallb_app. simpl. by destruct (volumeIsReadOnly _ _), (forallb _ _).
Qed.

Lemma resolve_spec {W} ns claim s (w : W) :
  wp cluster (resolvePVFromPVC claim ns) s w (λ r s' _ _,
    r = Done (fst <$> bound_pv ns claim) ∧ s' = s).
Proof.
  unfold resolvePVFromPVC, bound_pv. simpl. intros a s1 w1 [-> ->].
  destruct (claims ns claim) as [name|e]; simpl; [|done].
  destruct (String.eqb name ""); simpl; [done|]. intros a s2 w2 [-> ->].
  destruct (pvs name) as [pv|e]; simpl; [|done].
  destruct (PVCSI pv) as [src|]; simpl; [|done]. by destruct (String.eqb _ _).
Qed.

Lemma bound_pv_csi ns claim pv src : bound_pv ns claim = Some (pv, src) → PVCSI pv = Some src.
Proof.
  unfold bound_pv. intros Hb. repeat case_match; try done.
  destruct (PVCSI _) as [src'|] eqn:E; simpl in *; [|done]. case_match; by simplify_eq.
Qed.

Lemma scan_add_hint st h :
  scan_add st h.1 h.2 =
  match (if sidecar_served h then Some h else None) with
  | Some h => scan_add st h.1 h.2
  | None => st
  end.
Proof.
  destruct (sidecar_served h) eqn:E; [done|]. apply negb_false_iff in E.
  unfold scan_add. by rewrite E.
Qed.

#[local] Opaque resolvePVFromPVC scan_add bound_pv.

Lemma scan_volume_spec {W} ns vol st s (w : W) :
  wp cluster (scan_volume ns st vol) s w (λ r s' _ _,
    s' = s ∧ r = Done match volume_hint ns vol with
                      | Some h => scan_add st h.1 h.2
                      | None => st
                      end).
Proof.
  unfold scan_volume, volume_hint. destruct (VSource vol) as [| |src|claim ro|]; simpl; try done.
  - destruct (String.eqb _ _); simpl; [|done]. by rewrite <-scan_add_hint.
  - apply wp_bind. eapply wp_mono; [|apply resolve_spec]. intros r s1 w1 tr [-> ->]. simpl.
    destruct (bound_pv ns claim) as [[pv src]|] eqn:E; simpl; [|done].
    rewrite (bound_pv_csi _ _ _ _ E). simpl. by rewrite <-scan_add_hint.
Qed.

#[local] Opaque scan_volume.

Lemma volume_hint_served ns vol h : volume_hint ns vol = Some h → sidecar_served h = true.
Proof.
  unfold volume_hint. intros (h' & _ & Hh)%bind_Some. by destruct (sidecar_served h') eqn:E; simplify_eq.
Qed.

Lemma scan_loop_spec {W} ns vols hs s (w : W) :
  wp cluster (scan_loop ns (summary hs) vols) s w (λ r s' _ _,
    s' = s ∧ r = Done (summary (hs ++ hints ns vols))).
Proof.
  revert hs w. induction vols as [|vol vols IH]; intros hs w; simpl; [by rewrite app_nil_r|].
  apply wp_bind. eapply wp_mono; [|apply scan_volume_spec]. intros r s1 w1 tr [-> ->]. simpl.
  destruct (volume_hint ns vol) as [h|] eqn:E; simpl.
  - rewrite <-summary_snoc by (by eapply volume_hint_served).
    eapply wp_mono; [|apply IH]. intros ???? [-> ->]. by rewrite <-app_assoc.
  - eapply wp_mono; [|apply IH]. by intros ???? [-> ->].
Qed.

Lemma scan_spec {W} pod ns s (w : W) :
  wp cluster (scanHFCSIVolumes pod ns) s w (λ r s' _ _,
    s' = s ∧ r = Done (summary (hints ns (Volumes (PSpec pod))))).
Proof. apply (scan_loop_spec ns _ []). Qed.
End Scan.

Section Order.
Context `{QuantityLaws}.

Lemma forallb_perm {A} (f : A → bool) l l' : l ≡ₚ l' → forallb f l = forallb f l'.
Proof.
  induction 1 as [|x l l' _ IH|x y l|l1 l2 l3 _ IH1 _ IH2]; simpl; [done|by rewrite IH| |congruence].
  by destruct (f x), (f y).
Qed.

Lemma largest_snoc l q b : largest l q → largest (l ++ [b]) (maxQuantity q b).
Proof.
  intros Hq. destruct q as [q|], b as [b|]; simpl in *.
  - destruct Hq as [Hin Hle].
    assert (∀ x, (∀ a, Some a ∈ l → Cmp a x ≠ Gt) → Cmp b x ≠ Gt →
      ∀ a, Some a ∈ l ++ [Some b] → Cmp a x ≠ Gt) as Hall.
    { intros x H1 H2 a [Ha|Ha%list_elem_of_singleton]%elem_of_app; [by apply H1|by injection Ha as ->]. }
    assert (Cmp b q = CompOpp (Cmp q b)) as Hbq by apply Cmp_antisym.
    destruct (Cmp q b) eqn:E; simpl in *; (split; [apply elem_of_app; first [by left|right; by left]|]).
    + apply Hall; [done|by rewrite Hbq].
    + apply Hall; [|by rewrite Cmp_refl]. intros a Ha. apply (Cmp_trans_le a q b); [by apply Hle|by rewrite E].
    + apply Hall; [done|by rewrite Hbq].
  - destruct Hq as [Hin Hle]. split; [apply elem_of_app; by left|].
    intros a [Ha|Ha%list_elem_of_singleton]%elem_of_app; [by apply Hle|done].
  - split; [apply elem_of_app; right; by left|].
    intros a [Ha|Ha%list_elem_of_singleton]%elem_of_app;
      [by apply Hq in Ha|injection Ha as ->; by rewrite Cmp_refl].
  - intros x [Hx| ->%list_elem_of_singleton]%elem_of_app; [by apply Hq|done].
Qed.

Lemma merged_largest (field : MountResources → option Quantity) (hs : list hint) :
  (∀ a b, field (mergeMaxResources a b) = maxQuantity (field a) (field b)) → field no_resources = None →
  largest (field ∘ ParseMountResources ∘ snd <$> hs)
    (field (fold_left mergeMaxResources (ParseMountResources ∘ snd <$> hs) no_resources)).
Proof.
  intros Hf Hn. induction hs as [|h hs IH] using rev_ind.
  - cbn. rewrite Hn. by intros x ?%elem_of_nil.
  - rewrite !fmap_app, fold_left_app. simpl. rewrite Hf. by apply largest_snoc.
Qed.

Lemma first_format_cons h hs :
  head (filter (λ f, f ≠ ""%string) ((λ h : hint, attr h.2 volumeAttrLogFormat) <$> h :: hs)) =
  if decide (attr h.2 volumeAttrLogFormat = ""%string)
  then head (filter (λ f, f ≠ ""%string) ((λ h : hint, attr h.2 volumeAttrLogFormat) <$> hs))
  else Some (attr h.2 volumeAttrLogFormat).
Proof. rewrite fmap_cons, filter_cons. repeat case_decide; naive_solver. Qed.

Lemma summary_summarises hs : summarises hs (summary hs).
Proof.
  split; [done|by apply merged_largest..| |]; unfold summary; cbn [sc_logFormat sc_allReadOnly].
  - induction hs as [|h hs IH]; [left; split; [done|by intros ? ?%elem_of_nil]|].
    rewrite first_format_cons. case_decide as Hd; simpl.
    + destruct IH as [[E Hall]|(Hne & hs1 & h' & hs2 & -> & E & Hall)].
      * left. split; [done|]. intros h' [ -> |Hin]%elem_of_cons; auto.
      * right. split; [done|]. exists (h :: hs1), h', hs2. split_and!; [done..|].
        intros h2 [ -> |Hin]%elem_of_cons; auto.
    + right. split; [done|]. exists [], h, hs. split_and!; [done..|]. by intros ? ?%elem_of_nil.
  - rewrite forallb_forall. by setoid_rewrite list_elem_of_In.
Qed.

(** C14. The scan of a pod computes the summary of its volumes' hints: their number;
    for each resource the largest amount any of them sets, unset when none does;
    the first log format that is not empty; and whether every volume is read-only.
    Number, flag and amounts do not depend on the order of the volumes. *)
Theorem scan_summary {W} (h : env W) claims pvs pod pod' ns s w :
  env_ok (cluster claims pvs) h → Volumes (PSpec pod) ≡ₚ Volumes (PSpec pod') →
  let hs := hints claims pvs ns (Volumes (PSpec pod)) in
  let sc := summary hs in
  o_res (run h (scanHFCSIVolumes pod ns) s w) = Done sc ∧ summarises hs sc ∧
  ∃ sc', o_res (run h (scanHFCSIVolumes pod' ns) s w) = Done sc' ∧
    sc_count sc' = sc_count sc ∧ sc_allReadOnly sc' = sc_allReadOnly sc ∧
    same_resources (sc_resources sc) (sc_resources sc').
Proof.
  intros Hh Hp hs sc. split_and!.
  - by apply (run_wp _ _ _ _ _ _ Hh (scan_spec claims pvs pod ns s w)).
  - apply summary_summarises.
  - exists (summary (hints claims pvs ns (Volumes (PSpec pod')))).
    split; [by apply (run_wp _ _ _ _ _ _ Hh (scan_spec claims pvs pod' ns s w))|].
    assert (Hh' : hints claims pvs ns (Volumes (PSpec pod)) ≡ₚ hints claims pvs ns (Volumes (PSpec pod'))).
    { unfold hints. by apply omap_Permutation. }
    subst sc hs. simpl. split_and!.
    + by rewrite Hh'.
    + by apply forallb_perm.
    + apply merge_all_perm. by apply fmap_Permutation.
Qed.
End Order.

(** ** What admission does to a pod *)

Section Admission.
Context `{PodCodec}.

Definition effective_grace (pod : Pod) : Z :=
  Z.max MinTerminationGracePeriodSeconds
    (default 0 (TerminationGracePeriodSeconds (PSpec pod))).

(** The configured log format, or else the hinted one. *)
Definition log_format (cfg : Config) (sc : scan) : string :=
  if String.eqb (SidecarLogFormat cfg) "" then sc_logFormat sc else SidecarLogFormat cfg.

(** The pod a patch turns [pod] into, for a summary [sc] of its volumes. *)
Record injected (cfg : Config) (sc : scan) (pod pod' : Pod) : Prop := {
  inj_first : ∃ c, InitContainers (PSpec pod') = c :: InitContainers (PSpec pod) ∧
    CName c = SidecarContainerName ∧ CImage c = SidecarImage cfg ∧
    CRestartPolicy c = Some "Always"%string ∧
    "--expected-mounts=" +++ Itoa (sc_count sc) ∈ CArgs c ∧
    ("HF_CSI_TERMINATION_GRACE_SECONDS"%string, Itoa (effective_grace pod)) ∈ CEnv c ∧
    Forall (λ m, ∃ v, v ∈ Volumes (PSpec pod') ∧ VName v = VMName m) (CVolumeMounts c) ∧
    (∃ sec, CSecurityContext c = Some sec ∧ Privileged sec ≠ Some true ∧
            RunAsNonRoot sec = Some true) ∧
    CResources c = BuildResourceRequirements (sc_resources sc)
      (DefaultMountCPURequest (wh_defaults cfg))
      (DefaultMemoryRequestFor (wh_defaults cfg) (sc_allReadOnly sc)) ∧
    (log_format cfg sc ≠ ""%string → ("RUST_LOG_FORMAT"%string, log_format cfg sc) ∈ CEnv c);
  inj_grace : TerminationGracePeriodSeconds (PSpec pod') = Some (effective_grace pod);
  inj_annotation : PAnnotations pod' =
    match TerminationGracePeriodSeconds (PSpec pod) with
    | Some g => if MinTerminationGracePeriodSeconds <=? g then PAnnotations pod
                else <[AnnotationOriginalGracePeriod := Itoa g]> (PAnnotations pod)
    | None => <[AnnotationOriginalGracePeriod := "unset"%string]> (PAnnotations pod)
    end;
  inj_volumes : Volumes (PSpec pod') = Volumes (PSpec pod) ++
    [{| VName := TmpVolumeName; VSource := EmptyDir "Memory" |};
     {| VName := "sidecar-tmp"; VSource := EmptyDir "" |}];
  inj_rest : pod' = edit_pod pod (PAnnotations pod') (TerminationGracePeriodSeconds (PSpec pod'))
                      (InitContainers (PSpec pod')) (Volumes (PSpec pod'))
}.

(** The grace period after [ensureTerminationGracePeriod]. *)
Lemma ensure_grace pod :
  let pod' := ensureTerminationGracePeriod pod in
  TerminationGracePeriodSeconds (PSpec pod') = Some (effective_grace pod) ∧
  pod' = edit_pod pod (PAnnotations pod') (Some (effective_grace pod))
           (InitContainers (PSpec pod)) (Volumes (PSpec pod)) ∧
  PAnnotations pod' =
    match TerminationGracePeriodSeconds (PSpec pod) with
    | Some g => if MinTerminationGracePeriodSeconds <=? g then PAnnotations pod
                else <[AnnotationOriginalGracePeriod := Itoa g]> (PAnnotations pod)
    | None => <[AnnotationOriginalGracePeriod := "unset"%string]> (PAnnotations pod)
    end.
Proof.
  destruct pod as [? ? ? ? an ? ? ? [? ? g ? ? ? ? ? ? ?]].
  unfold ensureTerminationGracePeriod, effective_grace, MinTerminationGracePeriodSeconds. simpl.
  destruct g as [g|]; simpl; [|done].
  destruct (60 <=? g) eqn:E; simpl.
  - rewrite (Z.max_r 60 g) by lia. done.
  - rewrite (Z.max_l 60 g) by lia. done.
Qed.

Lemma inject_spec cfg sc pod :
  ∃ pod',
    injectSidecar pod {| SidecarImage := SidecarImage cfg; SidecarLogFormat := log_format cfg sc;
                         wh_defaults := wh_defaults cfg |}
      (sc_count sc) (sc_resources sc) (sc_allReadOnly sc) = Some pod' ∧
    injected cfg sc pod pod'.
Proof.
  unfold injectSidecar.
  destruct (ensure_grace (add_volumes pod [
    {| VName := TmpVolumeName; VSource := EmptyDir "Memory" |};
    {| VName := "sidecar-tmp"; VSource := EmptyDir "" |}])) as (Hg & He & Ha).
  set (pod1 := ensureTerminationGracePeriod _) in *. rewrite Hg. simpl.
  change (effective_grace (add_volumes pod _)) with (effective_grace pod) in *.
  eexists. split; [done|]. split; simpl.
  - eexists. rewrite He. simpl. split; [done|]. split_and!; try done.
    + right. by left.
    + right. by left.
    + apply Forall_cons_2; [|apply Forall_cons_2; [|apply Forall_nil_2]]; eexists.
      * split; [apply elem_of_app; right; by left|done].
      * split; [apply elem_of_app; right; right; by left|done].
    + by eexists.
    + intros Hf%String.eqb_neq. simpl. rewrite Hf. do 3 right. by left.
  - by rewrite Hg.
  - by rewrite Ha.
  - by rewrite He.
  - unfold prepend_init. rewrite He. by destruct pod as [? ? ? ? ? ? ? ? []].
Qed.

(** The response to a request, given the summary of its pod's volumes. *)
Definition answered (cfg : Config) (req : Request) (sc : Pod → scan) (r : Response) : Prop :=
  match Decode (ReqObjectRaw req) with
  | Err e => r = Errored 400 e
  | Ok pod =>
      if decide (ReqOperation req ≠ "CREATE"%string ∨ sc_count (sc pod) = 0 ∨ hasSidecar pod = true)
      then ∃ reason, r = Allowed reason
      else ∃ pod', injected cfg (sc pod) pod pod' ∧
             match Marshal pod' with
             | Err e => r = Errored 500 e
             | Ok raw => r = PatchResponseFromRaw (ReqObjectRaw req) raw
             end
  end.

(** Whatever the API server answers, a scan ends without a nil dereference. *)
Lemma resolve_csi {W} claim ns s (w : W) :
  wp any (resolvePVFromPVC claim ns) s w (λ r _ _ _,
    ∃ o, r = Done o ∧ ∀ pv, o = Some pv → PVCSI pv ≠ None).
Proof.
  unfold resolvePVFromPVC. simpl. intros [name|e] s1 w1 _; simpl; [|by eexists].
  destruct (String.eqb name ""); simpl; [by eexists|]. intros [pv|e] s2 w2 _; simpl; [|by eexists].
  eexists. split; [done|]. intros pv' Hpv Hn. destruct (PVCSI pv) as [src|] eqn:E; [|done].
  destruct (String.eqb _ _); [|done]. injection Hpv as <-. congruence.
Qed.

#[local] Opaque resolvePVFromPVC.

Lemma scan_total {W} ns vols st s (w : W) :
  wp any (scan_loop ns st vols) s w (λ r _ _ _, ∃ sc, r = Done sc).
Proof.
  revert st s w. induction vols as [|vol vols IH]; intros st s w; simpl; [by eexists|].
  apply wp_bind. apply (wp_mono _ _ _ _ (λ r _ _ _, ∃ sc, r = Done sc)).
  { intros r s1 w1 tr [sc ->]. simpl. eapply wp_mono; [|apply IH]. naive_solver. }
  unfold scan_volume. destruct (VSource vol) as [| |src|claim ro|]; simpl; try by eexists.
  - destruct (String.eqb _ _); simpl; by eexists.
  - apply wp_bind. eapply wp_mono; [|apply resolve_csi]. intros r s1 w1 tr (o & -> & Ho). simpl.
    destruct o as [pv|]; simpl; [|by eexists].
    destruct (PVCSI pv) eqn:E; simpl; [by eexists|]. by destruct (Ho pv).
Qed.

Lemma scanHFCSIVolumes_total {W} pod ns s (w : W) :
  wp any (scanHFCSIVolumes pod ns) s w (λ r _ _ _, ∃ sc, r = Done sc).
Proof. apply scan_total. Qed.

Lemma hasSidecar_named pod :
  SidecarContainerName ∈ (CName <$> InitContainers (PSpec pod)) → hasSidecar pod = true.
Proof.
  intros (c & Hn & Hc)%list_elem_of_fmap. unfold hasSidecar. apply orb_true_iff. left.
  apply existsb_exists. exists c. split; [by apply list_elem_of_In|]. by rewrite <-Hn.
Qed.

#[local] Opaque scanHFCSIVolumes injectSidecar.

Lemma handle_spec {W} (R : rely W) cfg req sc s w :
  (∀ pod s w, wp R (scanHFCSIVolumes pod (ReqNamespace req)) s w (λ r s' _ _,
     s' = s ∧ r = Done (sc pod))) →
  wp R (Handle cfg req) s w (λ r _ _ _, ∃ a, r = Done a ∧ answered cfg req sc a).
Proof.
  intros Hscan. unfold Handle, answered.
  destruct (Decode (ReqObjectRaw req)) as [pod|e]; simpl; [|by eexists].
  destruct (String.eqb_spec (ReqOperation req) "CREATE") as [Hop|Hop]; simpl.
  2: { eexists. split; [done|]. case_decide; [eauto|tauto]. }
  apply wp_bind. eapply wp_mono; [|apply Hscan]. intros r s1 w1 tr [-> ->]. simpl.
  destruct (sc_count (sc pod) =? 0) eqn:E; simpl.
  { eexists. split; [done|]. case_decide as Hd; [eauto|destruct Hd; right; left; lia]. }
  destruct (hasSidecar pod) eqn:Es; simpl.
  { eexists. split; [done|]. case_decide; [eauto|tauto]. }
  destruct (inject_spec cfg (sc pod) pod) as (pod' & Hi & Hinj). unfold log_format in Hi. rewrite Hi.
  case_decide as Hd; [exfalso; destruct Hd as [?|[?|?]]; [done|lia|done]|].
  destruct (Marshal pod') eqn:Em; simpl; (eexists; split; [done|]; eexists; split; [done|]; by rewrite Em).
Qed.

(** C12. Admission: a request that cannot be decoded is a bad request; one that is not
    a creation, has no volume for a sidecar, or already has the container is
    admitted unchanged; any other pod gets the sidecar as first init container,
    told how many mounts to expect and the grace period the kubelet will honour
    (at least sixty seconds, the requested one recorded when it was raised), the
    two volumes the container mounts, and is otherwise left as it was. *)
Theorem admission {W} (h : env W) claims pvs cfg req s w :
  env_ok (cluster claims pvs) h →
  ∃ r, o_res (run h (Handle cfg req) s w) = Done r ∧
    answered cfg req (λ pod, summary (hints claims pvs (ReqNamespace req) (Volumes (PSpec pod)))) r.
Proof.
  intros Hh. refine (run_wp _ _ _ _ _ _ Hh (handle_spec _ cfg req _ s w _)).
  intros pod s' w'. apply scan_spec.
Qed.

Lemma handle_again {W} cfg req pod s (w : W) :
  Decode (ReqObjectRaw req) = Ok pod → hasSidecar pod = true →
  wp any (Handle cfg req) s w (λ r _ _ _, ∃ reason, r = Done (Allowed reason)).
Proof.
  intros Hd Hs. unfold Handle. rewrite Hd.
  destruct (negb _); simpl; [by eexists|]. apply wp_bind.
  eapply wp_mono; [|apply scanHFCSIVolumes_total].
  intros r s1 w1 tr [sc ->]. simpl. destruct (sc_count sc =? 0); simpl; [by eexists|]. rewrite Hs. by eexists.
Qed.

(** C13. Injection happens once: when a request was answered with a patch to a pod,
    every later request about a pod that kept that pod's init containers (by
    name, whatever other webhooks added) is admitted unchanged, whatever the API
    server answers by then. *)
Theorem injected_once {W} (h : env W) claims pvs cfg req s w orig cur :
  env_ok (cluster claims pvs) h →
  o_res (run h (Handle cfg req) s w) = Done (PatchResponseFromRaw orig cur) →
  ∃ pod1, Marshal pod1 = Ok cur ∧
    ∀ W' (h' : env W') req' pod2 s' w',
      Decode (ReqObjectRaw req') = Ok pod2 →
      (CName <$> InitContainers (PSpec pod1)) ⊆ (CName <$> InitContainers (PSpec pod2)) →
      ∃ reason, o_res (run h' (Handle cfg req') s' w') = Done (Allowed reason).
Proof.
  intros Hh Hr.
  destruct (run_wp _ _ _ _ _ _ Hh (handle_spec _ cfg req
    (λ pod, summary (hints claims pvs (ReqNamespace req) (Volumes (PSpec pod)))) s w
    (λ pod s w, scan_spec claims pvs pod _ s w))) as (r & Hr' & Ha).
  rewrite Hr in Hr'. injection Hr' as <-. unfold answered in Ha.
  destruct (Decode (ReqObjectRaw req)); [|done]. case_decide; [by destruct Ha|].
  destruct Ha as (pod1 & Hi & Hm). destruct (Marshal pod1) as [raw|] eqn:Em; [|done].
  injection Hm as -> ->. exists pod1. split; [done|]. intros W' h' req' pod2 s' w' Hd Hkept.
  refine (run_wp any h' _ s' w' _ (env_ok_any h') (handle_again cfg req' pod2 s' w' Hd _)).
  apply hasSidecar_named, Hkept. destruct (inj_first _ _ _ _ Hi) as (c & -> & Hc & _).
  rewrite <-Hc. by left.
Qed.
End Admission.

(** ** The webhook and the driver agree on read-only volumes *)

Section Agreement.
Context `{QuantityLib}.

Lemma existsb_fmap {A B} (f : B → bool) (g : A → B) l :
  existsb f (g <$> l) = existsb (λ x, f (g x)) l.
Proof. induction l as [|x l IH]; [done|]. simpl. by rewrite <-IH. Qed.

Lemma split_flags_ro raw :
  existsb (λ f, String.eqb f "read-only") (split_flags raw) =
  existsb (λ f, String.eqb (TrimSpace f) "read-only") (Split raw ",").
Proof.
  unfold split_flags. destruct (String.eqb_spec raw "") as [->|_]; [by vm_compute|].
  induction (Split raw ",") as [|f fs IH]; [done|].
  rewrite fmap_cons. cbn [List.filter existsb].
  destruct (String.eqb_spec (TrimSpace f) "") as [E|E]; cbn [negb existsb]; rewrite IH; [by rewrite E|done].
Qed.

Lemma dashes_ro f : String.eqb ("--" +++ f) "--read-only" = String.eqb f "read-only".
Proof. done. Qed.

(** Kubelet adds the pod's identity to the volume's attributes, under keys of its
    own, and nothing else. *)
Definition passes_context (attrs ctx : gmap string string) : Prop :=
  ∀ k, HasPrefix k "csi.storage.k8s.io/" = false → ctx !! k = attrs !! k.

Variables (claims : string → string → result string) (pvs : string → result PersistentVolume).

(** What kubelet sends for a volume of a pod. The read-only flag is the one of the
    volume in the pod, also for a persistent volume, whose own [csi.readOnly] goes
    to the attacher only. *)
Inductive kubelet_publishes (ns : string) (vol : Volume) (req : NodePublishVolumeRequest)
    (mv : MountVolume) : Prop :=
| publishes_inline src :
    VSource vol = CSI src → passes_context (VolumeAttributes src) (PubVolumeContext req) →
    PubReadonly req = default false (CSIReadOnly src) → MountFlags mv = [] →
    kubelet_publishes ns vol req mv
| publishes_claim claim ro pv src :
    VSource vol = PersistentVolumeClaim claim ro → bound_pv claims pvs ns claim = Some (pv, src) →
    passes_context (PVVolumeAttributes src) (PubVolumeContext req) →
    PubReadonly req = ro → MountFlags mv = PVMountOptions pv →
    kubelet_publishes ns vol req mv.

(** The persistent volume behind a claim sets [csi.readOnly]. *)
Definition pv_says_read_only (ns : string) (vol : Volume) : bool :=
  match VSource vol with
  | PersistentVolumeClaim claim _ =>
      match bound_pv claims pvs ns claim with Some (_, src) => PVReadOnly src | None => false end
  | _ => false
  end.

(** The driver mounts the volume read-only. *)
Definition driver_read_only (cacheBase tokenFile : string) (pub : NodePublishVolumeRequest * MountVolume) : bool :=
  mount_is_read_only (attr (PubVolumeContext pub.1) volumeCtxSourceType)
    (publish_options cacheBase pub.1 pub.2 tokenFile).

(** The driver's decision from what kubelet passes. *)
Lemma driver_read_only_from cacheBase tokenFile req mv attrs :
  passes_context attrs (PubVolumeContext req) →
  driver_read_only cacheBase tokenFile (req, mv) =
  volumeIsReadOnly (Some (PubReadonly req || existsb (λ opt, String.eqb opt "read-only") (MountFlags mv))) attrs.
Proof.
  intros Hc. unfold driver_read_only, mount_is_read_only, volumeIsReadOnly, extra_args, attr.
  cbn [ReadOnly ExtraArgs publish_options default fst snd]. unfold extra_args, attr.
  rewrite (Hc volumeCtxSourceType), (Hc volumeCtxMountFlags) by reflexivity.
  rewrite !existsb_app, !existsb_fmap, split_flags_ro.
  assert (existsb (λ a, String.eqb a "--read-only")
    (if String.eqb (VolumeMountGroup_ mv) "" then []
     else ["--uid=" +++ VolumeMountGroup_ mv; "--gid=" +++ VolumeMountGroup_ mv]%string) = false) as ->
    by by destruct (String.eqb _ "").
  change (existsb (λ x, String.eqb ("--" +++ x) "--read-only") (MountFlags mv))
    with (existsb (λ opt, String.eqb opt "read-only") (MountFlags mv)).
  change volumeCtxSourceType with volumeAttrSourceType. change volumeCtxMountFlags with volumeAttrMountFlags.
  cbn [id]. by destruct (PubReadonly req), (String.eqb _ "repo"), (existsb _ (MountFlags mv)).
Qed.

Lemma hint_read_only cacheBase tokenFile ns vol h req mv :
  volume_hint claims pvs ns vol = Some h → kubelet_publishes ns vol req mv →
  volumeIsReadOnly h.1 h.2 = driver_read_only cacheBase tokenFile (req, mv) || pv_says_read_only ns vol.
Proof.
  unfold volume_hint, pv_says_read_only. intros Hh [src Hv Hc Hr Hf|claim ro pv src Hv Hb Hc Hr Hf];
    rewrite Hv in *; rewrite (driver_read_only_from _ _ _ _ _ Hc), Hr, Hf.
  - destruct (String.eqb _ _); [|done]. simpl in Hh. destruct (sidecar_served _); [|done].
    injection Hh as <-. simpl. by rewrite !orb_false_r.
  - rewrite Hb in *. simpl in Hh. destruct (sidecar_served _); [|done]. injection Hh as <-. simpl.
    unfold volumeIsReadOnly, pvMountOptionsReadOnly. simpl.
    by destruct ro, (PVReadOnly src), (existsb _ (PVMountOptions pv)), (String.eqb _ "repo"), (existsb _ (Split _ _)).
Qed.

(** C15. The webhook and the driver agree on what is read-only. Let kubelet publish
    the volumes of a pod that the sidecar serves: the scan of the pod calls all of
    them read-only exactly when the driver mounts each of them read-only, whether
    the claim, the mount options, the attributes or the source make it so, or the
    persistent volume sets [csi.readOnly]. This last flag is one the driver is not
    told of. *)
Theorem read_only_agreement {W} (h : env W) cacheBase tokenFile pod ns
    (published : Volume → NodePublishVolumeRequest * MountVolume) s w sc :
  env_ok (cluster claims pvs) h →
  let served := filter (λ vol, is_Some (volume_hint claims pvs ns vol)) (Volumes (PSpec pod)) in
  Forall (λ vol, kubelet_publishes ns vol (published vol).1 (published vol).2) served →
  o_res (run h (scanHFCSIVolumes pod ns) s w) = Done sc →
  sc_allReadOnly sc =
    forallb (λ vol, driver_read_only cacheBase tokenFile (published vol) || pv_says_read_only ns vol) served.
Proof.
  intros Hh served Hk Hr.
  destruct (run_wp _ _ _ _ _ _ Hh (scan_spec claims pvs pod ns s w)) as [_ Hd].
  rewrite Hr in Hd. injection Hd as ->. subst served. simpl. unfold hints. clear Hr.
  induction (Volumes (PSpec pod)) as [|vol vols IH]; [done|].
  rewrite filter_cons in *. cbn [omap list_omap].
  destruct (volume_hint claims pvs ns vol) as [hint|] eqn:E; case_decide as Hd;
    [|by destruct Hd; eexists|by destruct Hd|by apply IH].
  apply Forall_cons in Hk as [Hv Hk]. cbn [forallb]. rewrite <- (IH Hk).
  rewrite (hint_read_only cacheBase tokenFile ns vol hint _ _ E Hv). by destruct (published vol).
Qed.
End Agreement.

(** ** A concrete pod *)

Section Demo.
#[local] Existing Instance z_quantities.
#[local] Existing Instance z_quantities_laws.

Definition demo_container (name : string) : Container :=
  {| CName := name; CImage := "app:1"; CImagePullPolicy := ""; CRestartPolicy := None;
     CCommand := []; CArgs := []; CEnv := []; CSecurityContext := None; CVolumeMounts := [];
     CStartupProbe := None; CResources := {| Requests := ∅; Limits := None |} |}.

Definition demo_inline (attrs : gmap string string) : Volume :=
  {| VName := "data";
     VSource := CSI {| CSIDriver := CSIDriverName; CSIReadOnly := None; VolumeAttributes := attrs |} |}.

Definition demo_pod (inits : list Container) : Pod :=
  {| PName := "train"; PNamespace := "ml"; PUID := ""; PLabels := ∅; PAnnotations := ∅;
     PDeleting := false; PPhase := ""; PContainerStatuses := [];
     PSpec := {| HostNetwork := false; RestartPolicy := "Never";
                 TerminationGracePeriodSeconds := Some 0; NodeAffinity := [];
                 ServiceAccountName := ""; ImagePullSecrets := []; Tolerations := [];
                 InitContainers := inits; Containers := [demo_container "app"];
                 Volumes := [demo_inline {["sourceType" := "repo"]};
                             {| VName := "model"; VSource := PersistentVolumeClaim "model" false |}] |} |}.

Definition demo_attrs : gmap string string := {["mountFlags"%string := "read-only, direct-io"%string]}.
Definition demo_pv : PersistentVolume :=
  {| PVCSI := Some {| PVDriver := CSIDriverName; PVReadOnly := false; PVVolumeAttributes := demo_attrs |};
     PVMountOptions := ["uid=1000"%string] |}.
Definition demo_claims (ns claim : string) : result string :=
  if String.eqb claim "model" then Ok "pv-1"%string else Err (ApiStatus NotFound).
Definition demo_pvs (name : string) : result PersistentVolume :=
  if String.eqb name "pv-1" then Ok demo_pv else Err (ApiStatus NotFound).

Definition demo_cluster : env unit := λ c s w,
  match c return ans c * mem * unit with
  | PVCGet ns name => (demo_claims ns name, s, w)
  | PVGet name => (demo_pvs name, s, w)
  | c => (idle c, s, w)
  end.

Lemma demo_cluster_ok : env_ok (cluster demo_claims demo_pvs) demo_cluster.
Proof. intros c s w. by destruct c. Qed.

(** Two encodings: the pod before and after the injection. *)
#[local] Instance demo_codec : PodCodec := {|
  Marshal := λ p, Ok (if hasSidecar p then "injected" else "plain")%string;
  Decode := λ raw, if String.eqb raw "plain" then Ok (demo_pod [])
                   else if String.eqb raw "injected"
                   then Ok (demo_pod [demo_container "other"; demo_container SidecarContainerName])
                   else Err (Errorf "unexpected end of JSON input" [] [])
|}.

Definition demo_config : Config :=
  {| SidecarImage := "hf-mount:1"; SidecarLogFormat := "";
     wh_defaults := @Build_Defaults z_quantities 10 (1000 * 2^29) (1000 * 2^27) |}.

Definition demo_request (raw : string) : Request :=
  {| ReqOperation := "CREATE"; ReqNamespace := "ml"; ReqObjectRaw := raw |}.

Example scan_summary_witness :
  let pod := demo_pod [] in
  ∃ sc, o_res (run demo_cluster (scanHFCSIVolumes pod "ml") empty_mem tt) = Done sc ∧
        summarises (hints demo_claims demo_pvs "ml" (Volumes (PSpec pod))) sc ∧
        sc_count sc = 2 ∧ sc_allReadOnly sc = true.
Proof.
  intros pod.
  destruct (scan_summary demo_cluster demo_claims demo_pvs pod pod "ml" empty_mem tt demo_cluster_ok
    (Permutation_refl _)) as (Hr & Hs & _).
  eexists. split; [exact Hr|]. split; [exact Hs|]. split; by vm_compute.
Defined.

Example admission_witness :
  ∃ r, o_res (run demo_cluster (Handle demo_config (demo_request "plain")) empty_mem tt) = Done r ∧
    answered demo_config (demo_request "plain")
      (λ pod, summary (hints demo_claims demo_pvs "ml" (Volumes (PSpec pod)))) r.
Proof. exact (admission demo_cluster _ _ demo_config (demo_request "plain") empty_mem tt demo_cluster_ok). Defined.

Example injected_once_witness :
  ∃ pod1, Marshal pod1 = Ok "injected"%string ∧
    ∀ W' (h' : env W') req' pod2 s' w',
      Decode (ReqObjectRaw req') = Ok pod2 →
      (CName <$> InitContainers (PSpec pod1)) ⊆ (CName <$> InitContainers (PSpec pod2)) →
      ∃ reason, o_res (run h' (Handle demo_config req') s' w') = Done (Allowed reason).
Proof.
  refine (injected_once demo_cluster _ _ demo_config (demo_request "plain") empty_mem tt "plain" "injected"
            demo_cluster_ok _).
  by vm_compute.
Defined.

(** What kubelet sends for the two volumes of the pod. *)
Definition demo_published (vol : Volume) : NodePublishVolumeRequest * MountVolume :=
  let attrs := match VSource vol with CSI src => VolumeAttributes src | _ => demo_attrs end in
  ({| PubVolumeId := VName vol; PubTargetPath := "/t"; PubVolumeCapability := None;
      PubVolumeContext := <["csi.storage.k8s.io/pod.name"%string := "train"%string]> attrs;
      PubSecrets := ∅; PubReadonly := false |},
   {| VolumeMountGroup_ := "1000";
      MountFlags := match VSource vol with CSI _ => [] | _ => PVMountOptions demo_pv end |}).

Lemma demo_passes attrs : passes_context attrs (<["csi.storage.k8s.io/pod.name"%string := "train"%string]> attrs).
Proof. intros k Hk. apply lookup_insert_ne. intros <-. discriminate Hk. Qed.

Example read_only_agreement_witness :
  ∃ sc, o_res (run demo_cluster (scanHFCSIVolumes (demo_pod []) "ml") empty_mem tt) = Done sc ∧
    sc_allReadOnly sc = true ∧
    sc_allReadOnly sc =
      forallb (λ vol, driver_read_only "/cache" "" (demo_published vol)
                      || pv_says_read_only demo_claims demo_pvs "ml" vol)
        (filter (λ vol, is_Some (volume_hint demo_claims demo_pvs "ml" vol)) (Volumes (PSpec (demo_pod [])))).
Proof.
  assert (match o_res (run demo_cluster (scanHFCSIVolumes (demo_pod []) "ml") empty_mem tt) with
    | Done sc => sc_allReadOnly sc | _ => false end = true) as Hc by (vm_compute; reflexivity).
  destruct (o_res (run demo_cluster (scanHFCSIVolumes (demo_pod []) "ml") empty_mem tt)) as [sc| |] eqn:E;
    [|discriminate Hc..].
  exists sc. split; [reflexivity|]. split; [exact Hc|].
  refine (read_only_agreement demo_claims demo_pvs demo_cluster "/cache" "" (demo_pod []) "ml" demo_published
    empty_mem tt sc demo_cluster_ok _ E).
  apply Forall_forall. intros vol [_ Hin]%list_elem_of_filter.
  apply elem_of_cons in Hin as [Hin|Hin%list_elem_of_singleton]; subst vol.
  - by eapply publishes_inline; [reflexivity|apply demo_passes| |].
  - by eapply publishes_claim; [reflexivity..|apply demo_passes| |].
Defined.

(** A claim to a volume with [csi.readOnly] set: kubelet asks for a writable mount and
    gets one, while the webhook gives the sidecar the memory of a read-only one. *)
Definition ro_pv_source : CSIPersistentVolumeSource :=
  {| PVDriver := CSIDriverName; PVReadOnly := true; PVVolumeAttributes := ∅ |}.
Definition ro_pv : PersistentVolume := {| PVCSI := Some ro_pv_source; PVMountOptions := [] |}.
Definition ro_claim : Volume := {| VName := "model"; VSource := PersistentVolumeClaim "model" false |}.

Lemma pv_read_only_undersized :
  let claims := λ _ _, Ok "pv-1"%string in
  let pvs := λ _, Ok ro_pv in
  let req := {| PubVolumeId := "v"; PubTargetPath := "/t"; PubVolumeCapability := None;
                PubVolumeContext := ∅; PubSecrets := ∅; PubReadonly := false |} in
  let mv := {| VolumeMountGroup_ := ""; MountFlags := [] |} in
  kubelet_publishes claims pvs "ml" ro_claim req mv ∧
  driver_read_only "/cache" "" (req, mv) = false ∧
  ∃ hint, volume_hint claims pvs "ml" ro_claim = Some hint ∧ volumeIsReadOnly hint.1 hint.2 = true.
Proof.
  intros claims pvs req mv. split_and!.
  - by apply (publishes_claim claims pvs "ml" ro_claim req mv "model" false ro_pv ro_pv_source).
  - by vm_compute.
  - by eexists.
Qed.
End Demo.
