(* ===== verification/VolData.v ===== *)
(** * The vol_data.json reconciler (pkg/driver/voldata_reconciler.go)

    A pod deleted while it starts can leave a volume directory without the
    metadata file kubelet needs to unmount the volume.  The reconciler lists the
    inline volumes of this driver on the node and writes that file where it has
    been missing for a while. *)
From S2P Require Import Prelude GoStrings GoTime GoErrors Json Unstructured Resources Kube Effects.
From S2P Require Import Descriptors History.
From Stdlib Require Import Ascii.

Local Open Scope Z_scope.

(** driver.go *)
Definition DriverName : string := "hf.csi.huggingface.co".

Definition DefaultVolDataReconcileInterval : Z := 5 * minute.
Definition volDataStaleThreshold : Z := 2 * minute.

Section VolData.
Context `{QuantityLib}.

(** ** Owned volumes *)

(** Pod UID -> names of its inline volumes of this driver. *)
Abbreviation owned_volumes := (gmap string (gset string)).

Definition own_volume (uid : string) (owned : owned_volumes) (v : Volume) : owned_volumes :=
  match VSource v with
  | CSI src =>
      if String.eqb (CSIDriver src) DriverName
      then <[uid := {[VName v]} ∪ default ∅ (owned !! uid)]> owned
      else owned
  | _ => owned
  end.

Definition own_pod (owned : owned_volumes) (p : Pod) : owned_volumes :=
  fold_left (own_volume (PUID p)) (Volumes (PSpec p)) owned.

Definition NewNodeOwnedVolumeLister (nodeName : string) : prog (result owned_volumes) :=
  pods ← call_ (PodList "" "" ("spec.nodeName=" +++ nodeName));
  mret (match pods with
        | Err e => Err e
        | Ok items => Ok (fold_left own_pod items ∅)
        end).

(** ** One repair *)

Definition vol_data (volName nodeID : string) : list (string * string) := [
  ("driverName", DriverName);
  ("specVolID", volName);
  ("volumeHandle", "recovered-" +++ volName);
  ("nodeName", nodeID);
  ("volumeLifecycleMode", "Ephemeral");
  ("attachmentID", "")]%string.

Definition data_path (volDir : string) : string := JoinPath [volDir; "vol_data.json"].

Definition repairVolData (volDir volName nodeID : string) : prog bool :=
  let dataPath := data_path volDir in
  st ← call_ (Lstat dataPath);
  match st with
  | Ok _ => mret false
  | Err e =>
      if negb (IsNotExist e) then mret false
      else
        info ← call_ (Lstat volDir);
        match info with
        | Err _ => mret false
        | Ok info =>
            if negb (IsDir info) then mret false
            else
              now ← call_ Now;
              if Sub now (ModTime info) <? volDataStaleThreshold then mret false
              else
                f ← call_ (OpenExcl dataPath 384);           (* 0o600 *)
                match f with
                | Err _ => mret false
                | Ok fd =>
                    r ← call_ (FdWrite fd (marshal_map (vol_data volName nodeID)));
                    match r with
                    | Some _ =>
                        _ ← call_ (CloseFd fd);
                        _ ← call_ (Remove dataPath);
                        mret false
                    | None =>
                        r ← call_ (CloseFd fd);
                        match r with
                        | Some _ => _ ← call_ (Remove dataPath); mret false
                        | None => mret true
                        end
                    end
                end
        end
  end.

(** ** One sweep and the loop *)

Definition vol_dir (podsDir uid volName : string) : string :=
  JoinPath [podsDir; uid; "volumes"; "kubernetes.io~csi"; volName]%string.

Definition reconcileVolData (podsDir nodeID : string) (lister : prog (result owned_volumes))
  : prog unit :=
  owned ← lister;
  match owned with
  | Err _ => mret tt
  | Ok owned =>
      entries ← ranged (map_to_list owned);
      for_each entries (λ '(uid, vols),
        names ← ranged (elements vols);
        for_each names (λ volName,
          _ ← repairVolData (vol_dir podsDir uid volName) volName nodeID;
          mret tt))
  end.

Fixpoint reconcile_loop (fuel : nat) (podsDir nodeID : string) (lister : prog (result owned_volumes))
  : prog unit :=
  match fuel with
  | O => OutOfFuel
  | S fuel' =>
      _ ← reconcileVolData podsDir nodeID lister;
      c ← call_ Select;
      match c with
      | CaseTick => reconcile_loop fuel' podsDir nodeID lister
      | _ => mret tt
      end
  end.

Definition StartVolDataReconciler (fuel : nat) (kubeletRoot nodeID : string) (interval : Z)
    (lister : prog (result owned_volumes)) : prog unit :=
  let interval := if interval <=? 0 then DefaultVolDataReconcileInterval else interval in
  _ ← call_ (NewTicker interval);
  reconcile_loop fuel (JoinPath [kubeletRoot; "pods"%string]) nodeID lister.

(** ** Ownership *)

(** [vol] is an inline volume of this driver of a listed pod, and [dir] its directory. *)
Definition own_volume_dir (podsDir : string) (items : list Pod) (dir vol : string) : Prop :=
  ∃ p v src, p ∈ items ∧ v ∈ Volumes (PSpec p) ∧ VSource v = CSI src ∧
    CSIDriver src = DriverName ∧ vol = VName v ∧ dir = vol_dir podsDir (PUID p) vol.

Definition owns_name (owned : owned_volumes) (uid vol : string) : Prop :=
  vol ∈ default ∅ (owned !! uid).

Lemma own_volume_spec uid owned v uid' vol :
  owns_name (own_volume uid owned v) uid' vol ↔
  owns_name owned uid' vol ∨
  (uid' = uid ∧ vol = VName v ∧ ∃ src, VSource v = CSI src ∧ CSIDriver src = DriverName).
Proof.
  unfold own_volume, owns_name. destruct (VSource v) as [| |src|? ?|] eqn:Ev; try naive_solver.
  destruct (String.eqb_spec (CSIDriver src) DriverName) as [Ed|Ed]; [|naive_solver].
  destruct (decide (uid' = uid)) as [->|Hne].
  - rewrite lookup_insert_eq. simpl. rewrite elem_of_union, elem_of_singleton. naive_solver.
  - rewrite lookup_insert_ne by done. naive_solver.
Qed.

Lemma own_pod_spec p owned uid vol :
  owns_name (own_pod owned p) uid vol ↔
  owns_name owned uid vol ∨
  ∃ v src, uid = PUID p ∧ v ∈ Volumes (PSpec p) ∧ VSource v = CSI src ∧
           CSIDriver src = DriverName ∧ vol = VName v.
Proof.
  unfold own_pod. induction (Volumes (PSpec p)) as [|v vs IH] using rev_ind; simpl.
  { split; [by left|]. intros [?|(? & ? & _ & Hin & _)]; [done|by apply elem_of_nil in Hin]. }
  rewrite fold_left_app. simpl. rewrite own_volume_spec, IH.
  setoid_rewrite elem_of_app. setoid_rewrite list_elem_of_singleton. split.
  - intros [[?|(v' & src & ? & ? & ?)]|(-> & -> & src & ? & ?)]; [by left|right; exists v', src; tauto|].
    right. exists v, src. tauto.
  - intros [?|(v' & src & ? & [?| ->] & ?)]; [tauto|left; right; exists v', src; tauto|].
    right. split_and!; [done|tauto|]. exists src. tauto.
Qed.

(** The lister's answer: exactly the inline volumes of this driver of the pods. *)
Lemma lister_owned items uid vol :
  owns_name (fold_left own_pod items ∅) uid vol ↔
  ∃ p v src, uid = PUID p ∧ p ∈ items ∧ v ∈ Volumes (PSpec p) ∧ VSource v = CSI src ∧
             CSIDriver src = DriverName ∧ vol = VName v.
Proof.
  induction items as [|p ps IH] using rev_ind.
  - unfold owns_name. simpl. rewrite lookup_empty. simpl.
    split; [by intros ?%elem_of_empty|]. intros (? & ? & ? & _ & Hin & _). by apply elem_of_nil in Hin.
  - rewrite fold_left_app. simpl. rewrite own_pod_spec, IH.
    setoid_rewrite elem_of_app. setoid_rewrite list_elem_of_singleton. split.
    + intros [(p' & v & src & ?)|(v & src & ?)]; [exists p', v, src; tauto|exists p, v, src; tauto].
    + intros (p' & v & src & ? & [?| ->] & ?); [left; exists p', v, src; tauto|right; exists v, src; tauto].
Qed.

(** ** What a sweep may touch *)

Section Safety.
Variables (podsDir nodeID nodeName : string).

Definition listed (hist : list event) (items : list Pod) : Prop :=
  Ev (PodList "" "" ("spec.nodeName=" +++ nodeName)) (Ok items) ∈ hist.

(** The directory was seen without the file, and untouched for the threshold. *)
Definition stuck (hist : list event) (dir : string) : Prop :=
  ∃ e info now, Ev (Lstat (data_path dir)) (Err e) ∈ hist ∧ IsNotExist e = true ∧
    Ev (Lstat dir) (Ok info) ∈ hist ∧ IsDir info = true ∧
    Ev Now now ∈ hist ∧ volDataStaleThreshold ≤ Sub now (ModTime info).

Definition permitted (hist : list event) (c : call) : Prop :=
  match c with
  | PodList _ _ _ | MapOrder | Now | Lstat _ | CloseFd _ => True
  | OpenExcl path _ =>
      ∃ items dir vol, listed hist items ∧ own_volume_dir podsDir items dir vol ∧
        path = data_path dir ∧ stuck hist dir
  | FdWrite fd data =>
      ∃ items dir vol perm, listed hist items ∧ own_volume_dir podsDir items dir vol ∧
        Ev (OpenExcl (data_path dir) perm) (Ok fd) ∈ hist ∧
        data = marshal_map (vol_data vol nodeID)
  | Remove path => ∃ perm fd, Ev (OpenExcl path perm) (Ok fd) ∈ hist
  | _ => False
  end.

Lemma listed_app hist hist' items : listed hist items → listed (hist ++ hist') items.
Proof. intros Hl. apply elem_of_app. by left. Qed.

Lemma repair_respects hist items dir vol :
  listed hist items → own_volume_dir podsDir items dir vol →
  respects permitted (repairVolData dir vol nodeID) hist (λ _ h, listed h items).
Proof.
  intros Hl Ho. unfold listed, repairVolData in *. simpl.
  split; [exact I|]. intros [?|e]; simpl; [in_hist|].
  destruct (IsNotExist e) eqn:He; simpl; [|in_hist].
  split; [exact I|]. intros [info|?]; simpl; [|in_hist].
  destruct (IsDir info) eqn:Hd; simpl; [|in_hist].
  split; [exact I|]. intros now. destruct (_ <? volDataStaleThreshold) eqn:Ht; simpl; [in_hist|].
  split.
  { exists items, dir, vol. split_and!; [in_hist|done|done|]. exists e, info, now.
    split_and!; [in_hist|done|in_hist|done|in_hist|lia]. }
  intros [fd|?]; simpl; [|in_hist]. split.
  { exists items, dir, vol, 384. split_and!; [in_hist|done|in_hist|done]. }
  intros [?|]; simpl; (split; [exact I|]).
  - intros ?. split; [exists 384, fd; in_hist|]. intros ?. in_hist.
  - intros [?|]; simpl; [|in_hist]. split; [exists 384, fd; in_hist|]. intros ?. in_hist.
Qed.

#[local] Opaque repairVolData.

Lemma reconcile_respects :
  respects permitted
    (reconcileVolData podsDir nodeID (NewNodeOwnedVolumeLister nodeName)) [] (λ _ _, True).
Proof.
  unfold reconcileVolData, NewNodeOwnedVolumeLister. simpl.
  split; [exact I|]. intros [items|e]; simpl; [|done].
  set (owned := fold_left own_pod items ∅).
  split; [exact I|]. intros code.
  apply (respects_mono _ _ _ (λ _ h, listed h items)); [done|].
  apply respects_for_each; [|unfold listed; in_hist].
  intros [uid vols] h Hin Hl. apply elem_of_range_order, elem_of_map_to_list in Hin.
  simpl. split; [exact I|]. intros code'. apply respects_for_each; [|by apply listed_app].
  intros vol h' Hv Hl'. apply elem_of_range_order, elem_of_elements in Hv.
  apply respects_bind. eapply respects_mono; [|apply (repair_respects h' items)]; [done..|].
  assert (Ho : owns_name owned uid vol) by (unfold owns_name; by rewrite Hin).
  apply lister_owned in Ho as (p & v & src & -> & ? & ? & ? & ? & ?). by exists p, v, src.
Qed.

(** C22. A sweep touches only volumes it can prove to be ours and stuck: it creates
    a file (exclusively) only as the vol_data.json of an inline volume of this
    driver of a pod the API server listed on this node, whose directory it saw
    without that file and unmodified for two minutes; it writes only that
    volume's metadata, to that file; and removes only what it created. *)
Theorem sweep_touches_only_stuck_volumes {W} (h : env W) s w pre e post :
  o_trace (run h (reconcileVolData podsDir nodeID (NewNodeOwnedVolumeLister nodeName)) s w)
    = pre ++ e :: post →
  permitted pre (ev_call e).
Proof. apply (proj1 (respects_run permitted h _ _ s w reconcile_respects)). Qed.
End Safety.

(** ** All or nothing *)

(** What happens to the file at [path]: exclusive creation, writes that may stop
    half-way, a close that may report a lost write, removal. *)
Definition vol_file (path : string) : rely (option string) := λ c s w a s' w',
  s' = s ∧
  match c return ans c → Prop with
  | OpenExcl p _ => λ r, p = path → match r with Ok _ => w = None ∧ w' = Some ""%string | Err _ => w' = w end
  | FdWrite _ data => λ r, match r with
                           | None => ∃ x, w = Some x ∧ w' = Some (x +++ data)
                           | Some _ => ∃ x, w' = Some x
                           end
  | CloseFd _ => λ r, match r with None => w' = w | Some _ => ∃ x, w' = Some x end
  | Remove p => λ r, p = path → match r with None => w' = None | Some _ => w' = w end
  | _ => λ _, w' = w
  end a.

Definition repaired (path data : string) (w : option string) (r : res bool) (w' : option string)
    (tr : list event) : Prop :=
  ∃ b, r = Done b ∧
    if b : bool then w = None ∧ w' = Some data
    else w' = w ∨ ∃ err, Ev (Remove path) (Some err) ∈ tr.

#[local] Transparent repairVolData.

Lemma repaired_not path data w tr : repaired path data w (Done false) w tr.
Proof. exists false. auto. Qed.

(** After a failure the file is removed, or the removal fails. *)
Lemma repaired_undone path data (r : option gerror) w1 w2 tr1 tr2 :
  match r with None => w2 = None | Some _ => w2 = w1 end →
  repaired path data None (Done false) w2 (tr1 ++ Ev (Remove path) r :: tr2).
Proof.
  intros Hr. exists false. split; [done|]. destruct r as [err|]; [right|by left].
  exists err. apply elem_of_app. right. by left.
Qed.

Lemma repair_spec dir vol nodeID s w :
  wp (vol_file (data_path dir)) (repairVolData dir vol nodeID) s w (λ r _ w' tr,
    repaired (data_path dir) (marshal_map (vol_data vol nodeID)) w r w' tr).
Proof.
  unfold repairVolData. simpl. set (data := marshal_map _). set (path := data_path dir).
  intros [?|e] s1 w1 [-> ->]; simpl; [apply repaired_not|].
  destruct (IsNotExist e); simpl; [|apply repaired_not].
  intros [info|?] s2 w2 [-> ->]; simpl; [|apply repaired_not].
  destruct (IsDir info); simpl; [|apply repaired_not]. intros now s3 w3 [-> ->].
  destruct (_ <? volDataStaleThreshold); simpl; [apply repaired_not|].
  intros [fd|?] s4 w4 [-> Ho]; specialize (Ho eq_refl); simpl in Ho; [|subst; apply repaired_not].
  destruct Ho as [-> ->]. simpl.
  intros [?|] s5 w5 [-> Hw]; simpl in Hw.
  - simpl. intros c s6 w6 _ r s7 w7 [-> Hr]. specialize (Hr eq_refl).
    by apply (repaired_undone path data r w6 w7 [Ev _ _; Ev _ _; Ev _ _; Ev _ _; Ev _ _; Ev _ _]).
  - destruct Hw as (x & [= <-] & ->). simpl. intros [?|] s6 w6 [-> Hc]; simpl in Hc.
    + simpl. intros r s7 w7 [-> Hr]. specialize (Hr eq_refl).
      by apply (repaired_undone path data r w6 w7 [Ev _ _; Ev _ _; Ev _ _; Ev _ _; Ev _ _; Ev _ _]).
    + subst w6. by exists true.
Qed.

Lemma repair_owns dir vol nodeID : owns (repairVolData dir vol nodeID) [] (left_with []).
Proof.
  unfold repairVolData. simpl.
  intros [?|e]; [apply left_refl|]. simpl. destruct (negb _); [apply left_refl|]. simpl.
  intros [info|?]; [|apply left_refl]. simpl. destruct (negb _); [apply left_refl|]. simpl.
  intros now. destruct (_ <? _); [apply left_refl|]. simpl.
  intros [fd|?]; [|apply left_refl]. simpl.
  intros [?|]; simpl; (exists []; split; [done|]); [intros ? ?; apply left_refl|].
  intros [?|]; [intros ?|]; apply left_refl.
Qed.

(** C23. A repair is all or nothing: it reports success exactly when it created the
    file with its complete contents; otherwise the file is as it was, unless its
    own removal failed.  It never replaces an existing file, and it closes the
    descriptor it opens on every path. *)
Theorem repair_all_or_nothing (h : env (option string)) dir vol nodeID s w :
  env_ok (vol_file (data_path dir)) h →
  let o := run h (repairVolData dir vol nodeID) s w in
  repaired (data_path dir) (marshal_map (vol_data vol nodeID)) w (o_res o) (o_world o) (o_trace o) ∧
  opened_in (o_trace o) ≡ₚ released_in (o_trace o).
Proof.
  intros Hh o. pose proof (run_wp _ _ _ _ _ _ Hh (repair_spec dir vol nodeID s w)) as Hr.
  split; [exact Hr|]. destruct Hr as (b & Hb & _). by eapply (owns_balance h), Hb; apply repair_owns.
Qed.
End VolData.

(** Kubelet reads back what the reconciler writes: for the ASCII names Kubernetes
    allows, decoding the file gives the driver, the volume, the handle, the node,
    the lifecycle mode and an empty attachment. *)
Theorem vol_data_readable vol nodeID :
  str_all is_ascii vol = true → str_all is_ascii nodeID = true →
  ∃ kvs, unmarshal_map (marshal_map (vol_data vol nodeID)) = Some kvs ∧
    kvs ≡ₚ vol_data vol nodeID ∧ NoDup kvs.*1.
Proof.
  intros Hv Hn. exists (sort_keys (vol_data vol nodeID)). split_and!.
  - apply unmarshal_marshal. repeat constructor; done.
  - apply sort_keys_perm.
  - rewrite sort_keys_perm. by apply (bool_decide_unpack _).
Qed.

(** ** A concrete node *)

Section Demo.
#[local] Existing Instance z_quantities.

Definition demo_pods : list Pod := [
  {| PName := "train"; PNamespace := "ml"; PUID := "1f2e"; PLabels := ∅; PAnnotations := ∅;
     PDeleting := true; PPhase := "Pending"; PContainerStatuses := [];
     PSpec := {| HostNetwork := false; RestartPolicy := "Never";
                 TerminationGracePeriodSeconds := None; NodeAffinity := []; ServiceAccountName := "";
                 ImagePullSecrets := []; Tolerations := []; InitContainers := []; Containers := [];
                 Volumes := [{| VName := "data"; VSource := CSI {| CSIDriver := DriverName;
                                  CSIReadOnly := None; VolumeAttributes := ∅ |} |};
                             {| VName := "secrets"; VSource := CSI {| CSIDriver := "vault.csi";
                                  CSIReadOnly := None; VolumeAttributes := ∅ |} |}] |} |}].

Definition demo_dir : string := vol_dir "/var/lib/kubelet/pods" "1f2e" "data".

(** The directory is ten minutes old and empty; [fails] is what writing answers. *)
Definition demo_kubelet (fails : option gerror) : env (option string) := λ c s w,
  match c return ans c * mem * option string with
  | PodList _ _ _ => (Ok demo_pods, s, w)
  | Lstat p => (if String.eqb p demo_dir then Ok {| IsDir := true; ModTime := 0 |}
                else Err (Errno ENOENT), s, w)
  | Now => (10 * minute, s, w)
  | OpenExcl _ _ => match w with
                    | None => (Ok 7, s, Some ""%string)
                    | Some _ => (Err (Errno EEXIST), s, w)
                    end
  | FdWrite _ data => match fails with
                      | None => match w with
                                | Some x => (None, s, Some (x +++ data))
                                | None => (Some (Errno EIO), s, Some ""%string)
                                end
                      | Some e => (Some e, s, Some "{"%string)
                      end
  | Remove _ => (None, s, None)
  | c => (idle c, s, w)
  end.

Definition demo_sweep : outcome unit (option string) :=
  run (demo_kubelet None)
    (reconcileVolData "/var/lib/kubelet/pods" "node-1" (NewNodeOwnedVolumeLister "node-1"))
    empty_mem None.

Lemma demo_kubelet_ok fails path : env_ok (vol_file path) (demo_kubelet fails).
Proof.
  intros c s w. destruct c; try done.
  - by destruct w.
  - destruct fails as [e|]; [split; [done|by eexists]|].
    destruct w as [x|]; split; try done; by eexists.
Qed.

Example repair_all_or_nothing_witness :
  let o := run (demo_kubelet (Some (Errno EIO))) (repairVolData demo_dir "data" "node-1") empty_mem None in
  repaired (data_path demo_dir) (marshal_map (vol_data "data" "node-1")) None (o_res o) (o_world o) (o_trace o).
Proof.
  exact (proj1 (repair_all_or_nothing _ demo_dir "data" "node-1" empty_mem None (demo_kubelet_ok _ _))).
Defined.

Example vol_data_readable_witness :
  ∃ kvs, unmarshal_map (marshal_map (vol_data "data" "node-1")) = Some kvs ∧
    kvs ≡ₚ vol_data "data" "node-1" ∧ NoDup kvs.*1.
Proof. apply (vol_data_readable "data" "node-1"); by vm_compute. Defined.

Definition is_creation (path : string) (e : option event) : bool :=
  match e with Some (Ev (OpenExcl p _) _) => String.eqb p path | _ => false end.

Example sweep_touches_only_stuck_volumes_witness :
  ∃ e, o_trace demo_sweep !! 6%nat = Some e ∧ is_creation (data_path demo_dir) (Some e) = true ∧
    permitted "/var/lib/kubelet/pods" "node-1" "node-1" (take 6 (o_trace demo_sweep)) (ev_call e).
Proof.
  assert (Hc : is_creation (data_path demo_dir) (o_trace demo_sweep !! 6%nat) = true)
    by (vm_compute; reflexivity).
  destruct (o_trace demo_sweep !! 6%nat) as [e|] eqn:Htr; [|discriminate Hc].
  exists e. split; [reflexivity|]. split; [exact Hc|].
  apply (sweep_touches_only_stuck_volumes "/var/lib/kubelet/pods" "node-1" "node-1"
    (demo_kubelet None) empty_mem None _ e (drop 7 (o_trace demo_sweep))).
  symmetry. by apply take_drop_middle.
Defined.
End Demo.
