(* ===== verification/StartupTaint.v ===== *)
(** * The startup taint (pkg/driver/startup_taint.go)

    A node starts with a taint that keeps away pods needing a volume of this
    driver.  Once kubelet lists the driver in the node's CSINode object, the taint
    is removed by a test-and-set patch of the node's taints. *)
From S2P Require Import Prelude GoStrings GoTime GoErrors Unstructured Resources Kube Effects.
From S2P Require Import History VolData.

Local Open Scope Z_scope.

Definition DefaultStartupTaintKey : string := "hf.csi.huggingface.co/agent-not-ready".
Definition startupTaintPollInterval : Z := 2 * second.
Definition taints_path : string := "/spec/taints".

#[export] Instance Taint_eq_dec : EqDecision Taint.
Proof. solve_decision. Defined.

Section StartupTaint.
Context `{QuantityLib}.
Variable nodeName : string.

(** ** Waiting for the registration *)

(** The CSINode was read and lists the driver. *)
Definition registered (r : result (list string)) : bool :=
  match r with
  | Ok drivers => existsb (String.eqb DriverName) drivers
  | Err _ => false
  end.

Fixpoint wait_loop (fuel : nat) : prog (option gerror) :=
  match fuel with
  | O => OutOfFuel
  | S fuel' =>
      csiNode ← call_ (CSINodeGet nodeName);
      if registered csiNode then mret None
      else
        c ← call_ Select;
        match c with
        | CaseTick => wait_loop fuel'
        | _ => mret (Some CtxErr)
        end
  end.

Definition waitForCSINodeDriver (fuel : nat) : prog (option gerror) :=
  _ ← call_ (NewTicker startupTaintPollInterval);
  wait_loop fuel.

(** ** Removing the taint *)

Variable taintKey : string.

Definition kept_taints (taints : list Taint) : list Taint :=
  List.filter (λ t, negb (String.eqb (TaintKey t) taintKey)) taints.

Definition taint_patch (taints : list Taint) : list json_patch_op :=
  [PatchTest taints_path taints; PatchReplace taints_path (kept_taints taints)].

Definition tryRemoveNodeTaint : prog (option gerror) :=
  node ← call_ (NodeGet nodeName);
  match node with
  | Err e => mret (Some e)
  | Ok taints =>
      if Nat.eqb (length (kept_taints taints)) (length taints) then mret None
      else call_ (NodePatch nodeName (taint_patch taints))
  end.

Fixpoint remove_loop (fuel : nat) : prog (option gerror) :=
  match fuel with
  | O => OutOfFuel
  | S fuel' =>
      err ← tryRemoveNodeTaint;
      match err with
      | None => mret None
      | Some _ =>
          c ← call_ Select;
          match c with
          | CaseTick => remove_loop fuel'
          | _ => mret (Some CtxErr)
          end
      end
  end.

Definition removeNodeTaint (fuel : nat) : prog (option gerror) :=
  _ ← call_ (NewTicker startupTaintPollInterval);
  remove_loop fuel.

Definition RemoveStartupTaint (fuel : nat) : prog (option gerror) :=
  err ← waitForCSINodeDriver fuel;
  match err with
  | Some e => mret (Some e)
  | None => removeNodeTaint fuel
  end.

(** ** The node object *)

(** JSON Patch on the taints: a failed test rejects the whole patch. *)
Fixpoint apply_patch (ops : list json_patch_op) (taints : list Taint) : option (list Taint) :=
  match ops with
  | [] => Some taints
  | PatchTest path v :: ops' =>
      if String.eqb path taints_path && bool_decide (v = taints) then apply_patch ops' taints else None
  | PatchReplace path v :: ops' =>
      if String.eqb path taints_path then apply_patch ops' v else None
  end.

(** The node's taints now, and every patch of this process that the API server
    applied, oldest first, with the taints it found and the taints it left. *)
Record node_state := {
  taints : list Taint;
  patches : list (list Taint * list Taint)
}.

(** Others may change the taints, any of them and in any way, at any moment. A read
    shows the taints at its answer; a patch is applied atomically to the taints it
    finds, and one reported as failed may have been applied all the same. *)
Definition shared_node : rely node_state := λ c s w a s' w',
  s' = s ∧
  match c return ans c → Prop with
  | NodeGet _ => λ r, patches w' = patches w ∧ match r with Ok ts => ts = taints w' | Err _ => True end
  | NodePatch _ ops => λ r,
      (r ≠ None ∧ patches w' = patches w) ∨
      (∃ before after, apply_patch ops before = Some after ∧ patches w' = patches w ++ [(before, after)])
  | _ => λ _, patches w' = patches w
  end a.

Definition lifted (ts : list Taint) : Prop := ∀ t, t ∈ ts → TaintKey t ≠ taintKey.

Lemma kept_taints_filter ts : kept_taints ts = filter (λ t, TaintKey t ≠ taintKey) ts.
Proof.
  unfold kept_taints. induction ts as [|t ts IH]; [done|]. rewrite filter_cons. simpl. rewrite IH.
  destruct (String.eqb_spec (TaintKey t) taintKey); simpl; by case_decide.
Qed.

Lemma kept_all ts : length (kept_taints ts) = length ts → lifted ts.
Proof.
  unfold lifted, kept_taints. induction ts as [|t ts IH]; simpl; [by intros _ ? ?%elem_of_nil|].
  assert (Hle : (length (List.filter (λ t, negb (String.eqb (TaintKey t) taintKey)) ts) ≤ length ts)%nat).
  { clear. induction ts as [|x ts IH]; simpl; [done|]. destruct (negb _); simpl; lia. }
  destruct (String.eqb_spec (TaintKey t) taintKey) as [E|E]; simpl; [lia|].
  intros Hl t' [->|Ht']%elem_of_cons; [done|]. apply IH; [lia|done].
Qed.

Lemma apply_taint_patch ts before after :
  apply_patch (taint_patch ts) before = Some after → after = kept_taints before.
Proof.
  unfold taint_patch. simpl. destruct (bool_decide (ts = before)) eqn:E; [|done].
  apply bool_decide_eq_true in E as ->. by intros [= <-].
Qed.

(** ** Specification *)

(** A patch took away the taints with the key and nothing else: not the changes
    others made since the taints were read. *)
Definition exact_patch (p : list Taint * list Taint) : Prop :=
  p.2 = filter (λ t, TaintKey t ≠ taintKey) p.1.

(** A run that made the patches [new] ended with [r]: a success comes right after a
    read without the taint, or after a patch that took it away. *)
Definition taint_done (r : res (option gerror)) (new : list (list Taint * list Taint)) (tr : list event)
  : Prop :=
  match r with
  | Done None =>
      (∃ pre ts, tr = pre ++ [Ev (NodeGet nodeName) (Ok ts)] ∧ lifted ts) ∨
      (∃ pre ops p, tr = pre ++ [Ev (NodePatch nodeName ops) None] ∧ last new = Some p ∧ lifted p.2)
  | Done (Some e) => e = CtxErr
  | Panicked => False
  | Exhausted => True
  end.

(** The same for a stretch of a run, whose errors are those of its calls. *)
Definition patched (w w' : node_state) (new : list (list Taint * list Taint)) : Prop :=
  patches w' = patches w ++ new ∧ Forall exact_patch new.

Lemma patched_none w w' : patches w' = patches w → patched w w' [].
Proof. intros E. split; [by rewrite E, app_nil_r|done]. Qed.

Lemma patched_trans w w1 w2 n1 n2 : patched w w1 n1 → patched w1 w2 n2 → patched w w2 (n1 ++ n2).
Proof. intros [E1 F1] [E2 F2]. split; [by rewrite E2, E1, app_assoc|by apply Forall_app]. Qed.

Lemma exact_lifted p : exact_patch p → lifted p.2.
Proof. intros -> t [Ht _]%list_elem_of_filter. done. Qed.

(** Calls before the last stretch do not matter. *)
Lemma taint_done_after r n1 n2 tr1 tr2 : taint_done r n2 tr2 → taint_done r (n1 ++ n2) (tr1 ++ tr2).
Proof.
  destruct r as [[e|]| |]; simpl; try done.
  intros [(pre & ts & -> & Hl)|(pre & ops & p & -> & Hn & Hl)]; [left|right].
  - exists (tr1 ++ pre), ts. by rewrite app_assoc.
  - exists (tr1 ++ pre), ops, p. rewrite app_assoc, last_app, Hn. done.
Qed.

Lemma tryRemove_spec s w :
  wp shared_node tryRemoveNodeTaint s w (λ r s' w' tr,
    ∃ e new, r = Done e ∧ patched w w' new ∧ (e = None → taint_done r new tr)).
Proof.
  unfold tryRemoveNodeTaint. simpl. intros r s1 w1 [-> [Hw Hr]]. apply patched_none in Hw.
  destruct r as [ts|e]; simpl; [subst ts|by exists (Some e), []].
  destruct (Nat.eqb_spec (length (kept_taints (taints w1))) (length (taints w1))) as [El|El]; simpl.
  { exists None, []. split_and!; [done|done|]. intros _. left. exists [], (taints w1).
    split; [done|by apply kept_all]. }
  intros e s2 w2 [-> [[He Hw2]|(before & after & Hp & Hw2)]].
  - exists e, []. split_and!; [done| |by intros ->]. by apply patched_none in Hw2; eapply (patched_trans _ _ _ [] []).
  - assert (exact_patch (before, after)) as Hx.
    { apply apply_taint_patch in Hp. by unfold exact_patch; rewrite <- kept_taints_filter. }
    exists e, [(before, after)]. split_and!; [done| |].
    + eapply (patched_trans _ _ _ [] [_]); [done|]. split; [done|by repeat constructor].
    + intros ->. right. eexists [_], _, _. split; [reflexivity|]. split; [done|by apply (exact_lifted (before, after))].
Qed.

#[local] Opaque tryRemoveNodeTaint.

Lemma remove_loop_spec fuel s w :
  wp shared_node (remove_loop fuel) s w (λ r _ w' tr, ∃ new, patched w w' new ∧ taint_done r new tr).
Proof.
  revert s w. induction fuel as [|fuel IH]; intros s w; [by exists []; split; [apply patched_none|]|]. simpl.
  apply wp_bind. eapply wp_mono; [|by apply tryRemove_spec].
  intros r s1 w1 tr (e & new & -> & Hp & He). simpl. destruct e as [e|]; simpl.
  2: { exists new. rewrite app_nil_r. split; [done|by apply He]. }
  intros c s2 w2 [-> Hw2%patched_none]. pose proof (patched_trans _ _ _ _ _ Hp Hw2) as Hp2.
  destruct c; simpl; [by eexists|by eexists|]. eapply wp_mono; [|apply IH].
  intros r s3 w3 tr' (new' & Hp3 & Hd). exists ((new ++ []) ++ new'). split; [by eapply patched_trans|].
  by apply (taint_done_after r (new ++ []) new' (tr ++ [Ev Select CaseTick])) in Hd; rewrite <- (app_assoc tr) in Hd.
Qed.

Lemma wait_loop_spec fuel s w :
  wp shared_node (wait_loop fuel) s w (λ r _ w' _, patched w w' [] ∧
    match r with Done (Some e) => e = CtxErr | Panicked => False | _ => True end).
Proof.
  revert s w. induction fuel as [|fuel IH]; intros s w; [by split; [apply patched_none|]|]. simpl.
  intros r s1 w1 [-> Hw%patched_none]. destruct (registered r); simpl; [by split|].
  intros c s2 w2 [-> Hw2%patched_none]. pose proof (patched_trans _ _ _ _ _ Hw Hw2) as Hp.
  destruct c; simpl; try by split. eapply wp_mono; [|apply IH]. intros r' s3 w3 tr' [Hk Hr].
  split; [by eapply (patched_trans _ _ _ [] [])|done].
Qed.

#[local] Opaque wait_loop remove_loop.

Lemma RemoveStartupTaint_spec fuel s w :
  wp shared_node (RemoveStartupTaint fuel) s w (λ r _ w' tr,
    ∃ new, patched w w' new ∧ taint_done r new tr).
Proof.
  unfold RemoveStartupTaint, waitForCSINodeDriver, removeNodeTaint.
  apply wp_bind. simpl. intros [] s1 w1 [-> Hw1%patched_none].
  eapply wp_mono; [|apply wait_loop_spec]. intros r s2 w2 tr [Hw2 Hr].
  pose proof (patched_trans _ _ _ _ _ Hw1 Hw2) as Hp.
  destruct r as [[e|]| |]; simpl; [by eexists| |done|by eexists].
  intros [] s3 w3 [-> Hw3%patched_none]. eapply wp_mono; [|by apply remove_loop_spec].
  intros r s4 w4 tr' (new & Hk & Hd). exists new.
  split; [eapply (patched_trans _ _ _ [] new); [by eapply (patched_trans _ _ _ [] [])|done]|].
  apply (taint_done_after r [] new (Ev (NewTicker startupTaintPollInterval) tt :: tr ++
    [Ev (NewTicker startupTaintPollInterval) tt])) in Hd. simpl in Hd. by rewrite <- (app_assoc tr) in Hd.
Qed.

(** ** Only once registered *)

(** The API server said that the driver is registered on this node. *)
Definition seen_registered (hist : list event) : Prop :=
  ∃ r, Ev (CSINodeGet nodeName) r ∈ hist ∧ registered r = true.

(** The node is read and patched only after that, and a patch tests the taints of an
    earlier read. *)
Definition taint_protocol (hist : list event) (c : call) : Prop :=
  match c with
  | NewTicker _ | Select | CSINodeGet _ => True
  | NodeGet name => name = nodeName ∧ seen_registered hist
  | NodePatch name ops => name = nodeName ∧ seen_registered hist ∧
      ∃ ts, Ev (NodeGet nodeName) (Ok ts) ∈ hist ∧ ops = taint_patch ts
  | _ => False
  end.
#[local] Transparent wait_loop remove_loop tryRemoveNodeTaint.

Lemma seen_app hist hist' : seen_registered hist → seen_registered (hist ++ hist').
Proof. intros (r & Hr & ?). exists r. split; [|done]. apply elem_of_app. by left. Qed.

Lemma wait_protocol fuel hist :
  respects taint_protocol (wait_loop fuel) hist (λ e h, e = None → seen_registered h).
Proof.
  revert hist. induction fuel as [|fuel IH]; intros hist; [done|]. simpl.
  split; [done|]. intros r. destruct (registered r) eqn:E; simpl.
  { intros _. exists r. split; [|done]. apply elem_of_app. right. by left. }
  split; [done|]. intros []; simpl; try done.
Qed.

Lemma tryRemove_protocol hist :
  seen_registered hist → respects taint_protocol tryRemoveNodeTaint hist (λ _, seen_registered).
Proof.
  intros Hs. unfold tryRemoveNodeTaint. simpl. split; [done|].
  intros [ts|e]; simpl; [|by apply seen_app].
  destruct (Nat.eqb _ _); simpl; [by apply seen_app|]. split.
  - split; [done|]. split; [by apply seen_app|]. exists ts. split; [|done].
    apply elem_of_app. right. by left.
  - intros ?. by apply seen_app, seen_app.
Qed.

#[local] Opaque tryRemoveNodeTaint.

Lemma remove_protocol fuel hist :
  seen_registered hist → respects taint_protocol (remove_loop fuel) hist (λ _ _, True).
Proof.
  revert hist. induction fuel as [|fuel IH]; intros hist Hs; [done|]. simpl.
  apply respects_bind. eapply respects_mono; [|by apply tryRemove_protocol].
  intros [e|] h Hh; simpl; [|done]. split; [done|]. intros []; simpl; try done.
  by apply IH, seen_app.
Qed.

Lemma startup_protocol fuel : respects taint_protocol (RemoveStartupTaint fuel) [] (λ _ _, True).
Proof.
  unfold RemoveStartupTaint, waitForCSINodeDriver, removeNodeTaint. simpl. split; [done|]. intros [].
  apply (respects_bind _ (wait_loop fuel)). eapply respects_mono; [|apply wait_protocol].
  intros e h Hh. destruct e as [e|]; simpl; [done|]. split; [done|]. intros [].
  apply remove_protocol. apply seen_app. by apply Hh.
Qed.

(** C21. The startup taint is lifted only once the driver is registered, and without
    losing a concurrent change, whatever others do to the taints meanwhile, the
    startup taint included, and even if a patch reported as failed was applied. The
    node is patched only after its CSINode listed the driver; every patch that was
    applied took away the taints with the key, and nothing else, from the taints it
    found; success comes right after a read without the taint or after such a
    patch, and the only error is that of the context. *)
Theorem startup_taint_safe (h : env node_state) fuel s w :
  env_ok shared_node h →
  let o := run h (RemoveStartupTaint fuel) s w in
  (∃ new, patches (o_world o) = patches w ++ new ∧ Forall exact_patch new ∧
     taint_done (o_res o) new (o_trace o)) ∧
  ∀ pre e post, o_trace o = pre ++ e :: post → taint_protocol pre (ev_call e).
Proof.
  intros Hh o. split.
  - destruct (run_wp _ _ _ _ _ _ Hh (RemoveStartupTaint_spec fuel s w)) as (new & [Hp Hf] & Hd). by exists new.
  - exact (proj1 (respects_run _ h _ _ s w (startup_protocol fuel))).
Qed.

(** ** Progress *)

Definition ticks (tr : list event) : nat :=
  length (List.filter (λ e, match e with Ev Select CaseTick => true | _ => false end) tr).

Lemma ticks_app tr tr' : ticks (tr ++ tr') = (ticks tr + ticks tr')%nat.
Proof. unfold ticks. by rewrite List.filter_app, length_app. Qed.

Definition keeps_polling {A} (fuel : nat) (r : res A) (tr : list event) : Prop :=
  r ≠ Panicked ∧ (r = Exhausted → (fuel ≤ ticks tr)%nat).

Lemma polling_after {A} fuel (r : res A) tr tr' :
  keeps_polling fuel r tr' → keeps_polling fuel r (tr ++ tr').
Proof. intros [Hp He]. split; [done|]. intros Hr. rewrite ticks_app. specialize (He Hr). lia. Qed.

Lemma polling_tick {A} fuel (r : res A) tr tr' :
  keeps_polling fuel r tr' → keeps_polling (S fuel) r (tr ++ Ev Select CaseTick :: tr').
Proof.
  intros [Hp He]. split; [done|]. intros Hr. rewrite ticks_app. specialize (He Hr).
  change (ticks (Ev Select CaseTick :: tr')) with (S (ticks tr')). lia.
Qed.

Lemma wait_loop_polls {W} fuel s (w : W) :
  wp any (wait_loop fuel) s w (λ r _ _ tr, keeps_polling fuel r tr).
Proof.
  revert s w. induction fuel as [|fuel IH]; intros s w; [split; [done|simpl; lia]|]. simpl.
  intros r s1 w1 _. destruct (registered r); simpl; [done|].
  intros [] s2 w2 _; simpl; [done..|]. eapply wp_mono; [|apply IH].
  intros r' ? ? tr Hk. by apply (polling_tick fuel r' [Ev (CSINodeGet nodeName) r]).
Qed.

#[local] Transparent tryRemoveNodeTaint.

Lemma tryRemove_returns : returns tryRemoveNodeTaint.
Proof. unfold tryRemoveNodeTaint. go_returns. Qed.

#[local] Opaque tryRemoveNodeTaint.

Lemma remove_loop_polls {W} fuel s (w : W) :
  wp any (remove_loop fuel) s w (λ r _ _ tr, keeps_polling fuel r tr).
Proof.
  revert s w. induction fuel as [|fuel IH]; intros s w; [split; [done|simpl; lia]|]. simpl.
  apply wp_bind. eapply wp_mono; [|apply wp_returns, tryRemove_returns].
  intros r s1 w1 tr [e ->]. simpl. destruct e as [e|]; simpl; [|done].
  intros [] s2 w2 _; simpl; [done..|]. eapply wp_mono; [|apply IH].
  intros r' ? ? tr' Hk. by apply polling_tick.
Qed.

#[local] Opaque wait_loop remove_loop.

Lemma RemoveStartupTaint_polls {W} fuel s (w : W) :
  wp any (RemoveStartupTaint fuel) s w (λ r _ _ tr, keeps_polling fuel r tr).
Proof.
  unfold RemoveStartupTaint, waitForCSINodeDriver, removeNodeTaint. simpl. intros [] s1 w1 _.
  apply (wp_bind _ (wait_loop fuel)). eapply wp_mono; [|apply wait_loop_polls].
  intros r s2 w2 tr Hk. destruct r as [[e|]| |]; simpl; [done| |done|].
  - intros [] s3 w3 _. eapply wp_mono; [|apply remove_loop_polls]. intros r ? ? tr' Hk'.
    apply (polling_after fuel r (Ev _ _ :: tr)). by apply (polling_after fuel r [_]).
  - by apply (polling_after fuel Exhausted [_]).
Qed.

(** The removal keeps trying: whatever the API server answers, it never panics, and
    it is still running only if the ticker fired at least once for every unit of
    fuel, that is, as long as polls keep failing. *)
Theorem startup_taint_retries {W} (h : env W) fuel s w :
  let o := run h (RemoveStartupTaint fuel) s w in keeps_polling fuel (o_res o) (o_trace o).
Proof. exact (run_wp _ _ _ _ _ _ (env_ok_any h) (RemoveStartupTaint_polls fuel s w)). Qed.
End StartupTaint.

(** ** A concrete node *)

Section Demo.
#[local] Existing Instance z_quantities.

Definition demo_taint (key : string) : Taint :=
  {| TaintKey := key; TaintValue := ""; TaintEffect := "NoSchedule"; TaintTimeAdded := None |}.
Definition gpu_taint : Taint := demo_taint "nvidia.com/gpu".
Definition startup_taint : Taint := demo_taint DefaultStartupTaintKey.

(** A node that another controller taints between the first read and the patch. *)
Definition contended (ts : list Taint) : list Taint :=
  if decide (gpu_taint ∈ ts) then ts else ts ++ [gpu_taint].

Definition demo_node_api : env node_state := λ c s w,
  match c return ans c * mem * node_state with
  | CSINodeGet _ => (Ok ["ebs.csi.aws.com"; DriverName]%string, s, w)
  | NodeGet _ => (Ok (taints w), s, w)
  | NodePatch _ ops =>
      let before := contended (taints w) in
      match apply_patch ops before with
      | Some after => (None, s, {| taints := after; patches := patches w ++ [(before, after)] |})
      | None => (Some (ApiStatus Conflict), s, {| taints := before; patches := patches w |})
      end
  | Select => (CaseTick, s, w)
  | c => (idle c, s, w)
  end.

Lemma demo_node_api_ok : env_ok shared_node demo_node_api.
Proof.
  intros c s w. destruct c; try done. simpl. destruct (apply_patch ops _) as [after|] eqn:E; simpl.
  - split; [done|]. right. by eexists _, after.
  - split; [done|]. by left.
Qed.

(** The first patch fails, the second keeps the taint that was added. *)
Example startup_taint_safe_witness :
  let o := run demo_node_api (RemoveStartupTaint "node-1" DefaultStartupTaintKey 2) empty_mem
    {| taints := [startup_taint]; patches := [] |} in
  taints (o_world o) = [gpu_taint] ∧
  ∃ new, patches (o_world o) = [] ++ new ∧ Forall (exact_patch DefaultStartupTaintKey) new ∧
    taint_done "node-1" DefaultStartupTaintKey (o_res o) new (o_trace o).
Proof.
  split; [vm_compute; reflexivity|].
  exact (proj1 (startup_taint_safe "node-1" DefaultStartupTaintKey demo_node_api 2 empty_mem
    {| taints := [startup_taint]; patches := [] |} demo_node_api_ok)).
Defined.
End Demo.
