(* ===== verification/Driver.v ===== *)
(** * The driver process (pkg/driver/driver.go, identity.go, controller.go,
      cmd/hf-csi-driver/main.go)

    [ParseEndpoint], the start of the plugin ([Run]), the wiring of its goroutines
    ([runNode], [run_task]) and its shutdown, as a transition system of the two
    goroutines that share [d.srv]. *)
From S2P Require Import Prelude GoStrings Url GoTime GoErrors Unstructured Resources Names MountArgs.
From S2P Require Import Kube Effects History MountInfo Sweeper PodMounter PodLifecycle Mounter.
From S2P Require Import Sidecar Node VolData StartupTaint.
From Stdlib Require Import Ascii.

Local Open Scope Z_scope.

Definition DefaultCacheBase : string := "/var/lib/hf-csi-driver/cache".

Definition NewDriver (endpoint nodeID cacheBase : string) : Driver :=
  {| d_endpoint := endpoint; d_nodeID := nodeID;
     d_cacheBase := if String.eqb cacheBase "" then DefaultCacheBase else cacheBase |}.

(** ** ParseEndpoint *)

Definition ParseEndpoint `{AuthorityLib} (endpoint : string) : result (string * string) :=
  match Parse endpoint with
  | Err e => Err (Errorf "could not parse endpoint %q: %w" [endpoint] [e])
  | Ok u =>
      if negb (String.eqb (Scheme u) "unix")
      then Err (Errorf "unsupported endpoint scheme: %q (only unix is supported)" [Scheme u] [])
      else Ok (Scheme u, if String.eqb (Path u) "" then Host u else Path u)
  end.

(** ** Identity and controller services *)

Definition GetPluginInfo (version : string) : string * string := (DriverName, version).
Definition GetPluginCapabilities : list string := [].
Definition Probe : bool := true.
Definition ControllerGetCapabilities : list string := [].

(** ** Run *)

Section Run.
Context `{Mounter} `{AuthorityLib}.

Definition mode_700 : Z := 448.

Definition Run (d : Driver) : prog (option gerror) :=
  match ParseEndpoint (d_endpoint d) with
  | Err e => mret (Some e)
  | Ok (_, addr) =>
      r ← call_ (Remove addr);
      match fatal_remove r with
      | Some e => mret (Some (Errorf "failed to remove existing socket %s: %w" [addr] [e]))
      | None =>
          r ← call_ (MkdirAll (Dir addr) mode_750);
          match r with
          | Some e => mret (Some (Errorf "failed to create socket directory: %w" [] [e]))
          | None =>
              _ ← mounter_Start;
              _ ← call_ (Go TRecover);
              r ← call_ (Listen addr);
              match r with
              | Some e => mret (Some (Errorf "failed to listen on unix://%s: %w" [addr] [e]))
              | None =>
                  r ← call_ (Chmod addr mode_700);
                  match r with
                  | Some e => mret (Some (Errorf "failed to chmod socket: %w" [] [e]))
                  | None => call_ (Serve addr)
                  end
              end
          end
      end
  end.
End Run.

(** ** main *)

(** The flags of node mode. *)
Record NodeFlags := {
  f_endpoint : string;
  f_nodeID : string;
  f_cacheDir : string;
  f_mountImage : string;
  f_mountPullPolicy : string;
  f_mountPullSecrets : string;
  f_mountServiceAcct : string;
  f_namespace : string;
  f_mountHostNetwork : bool;
  f_mountReadyTimeout : Z;
  f_kubeletRoot : string;
  f_fuseSweepEnabled : bool;
  f_fuseSweepInterval : Z;
  f_startupTaintKey : string
}.

(** [--mount-pull-secrets]: comma-separated names, trimmed, empty ones dropped. *)
Definition pull_secrets (flag : string) : list string :=
  if String.eqb flag "" then []
  else List.filter (λ n, negb (String.eqb n "")) (TrimSpace <$> Split flag ",").

(** [err == grpc.ErrServerStopped]. *)
Definition is_ErrServerStopped (e : gerror) : bool :=
  match e with OtherErr msg => String.eqb msg "grpc: the server has been stopped" | _ => false end.

(** How the process ends: [main] returns, or [klog.Fatal]. *)
Inductive exit := Returned | Fatal (msg : string).

(** Whether client-go could make its configuration and clients. *)
Record api_clients := { inCluster : result unit; kubeClient : result unit; dynClient : result unit }.

Section Main.
Context `{QuantityLib} `{TimeLib} `{MountLib} `{AuthorityLib} `{UnicodeLower}.

(** The configuration of the mounter. *)
Definition mounter_config (f : NodeFlags) (node_id : string) (defaults : Defaults) : PMConfig :=
  NewPodMounter {|
    namespace := f_namespace f; nodeID := node_id; image := f_mountImage f;
    imagePullPolicy := f_mountPullPolicy f; imagePullSecrets := pull_secrets (f_mountPullSecrets f);
    serviceAccount := f_mountServiceAcct f; cacheDir := f_cacheDir f;
    hostNetwork := f_mountHostNetwork f; mountReadyTimeout := f_mountReadyTimeout f;
    pm_defaults := defaults |}.

Definition runNode (fuel : nat) (clients : api_clients) (defaults : Defaults) (f : NodeFlags)
  : prog exit :=
  id ← (if String.eqb (f_nodeID f) "" then call_ Hostname else mret (Ok (f_nodeID f)));
  match id with
  | Err e => mret (Fatal "Failed to get hostname: %v")
  | Ok node_id =>
      if String.eqb (f_mountImage f) "" then mret (Fatal "--mount-image is required")
      else match inCluster clients, kubeClient clients, dynClient clients with
      | Err _, _, _ => mret (Fatal "Failed to get in-cluster config: %v")
      | Ok _, Err _, _ => mret (Fatal "Failed to create Kubernetes client: %v")
      | Ok _, Ok _, Err _ => mret (Fatal "Failed to create dynamic Kubernetes client: %v")
      | Ok _, Ok _, Ok _ =>
          let mounter := PodMounter fuel (mounter_config f node_id defaults) in
          let drv := NewDriver (f_endpoint f) node_id (f_cacheDir f) in
          _ ← call_ (Go (TVolDataReconciler (f_kubeletRoot f) node_id DefaultVolDataReconcileInterval));
          _ ← (if f_fuseSweepEnabled f then call_ (Go (TFuseSweeper (f_fuseSweepInterval f)))
               else mret tt);
          _ ← (if String.eqb (f_startupTaintKey f) "" then mret tt
               else call_ (Go (TStartupTaint node_id (f_startupTaintKey f))));
          _ ← call_ (Go TSignalHandler);
          err ← Run drv;
          mret (match err with
                | None => Returned
                | Some e => if is_ErrServerStopped e then Returned
                            else Fatal "Failed to run driver: %v"
                end)
      end
  end.

(** What each goroutine runs.  The signal handler stops the server; see below. *)
Definition run_task (fuel : nat) (m : PMConfig) (t : task) : prog unit :=
  match t with
  | TRebindTargets p => rebindTargets p
  | TCleanupSource p => cleanupSource m p
  | TTryHealSource p => tryHealSource m fuel p
  | TLateAdopt p => lateAdopt p
  | TPeriodicCleanup => periodicCleanup m fuel
  | TSidecarHandoff h => sidecarHandoff h
  | TRecover => _ ← Recover m; mret tt
  | TVolDataReconciler root id interval =>
      StartVolDataReconciler fuel root id interval (NewNodeOwnedVolumeLister id)
  | TFuseSweeper interval => StartFuseSweeper fuel interval
  | TStartupTaint id key => _ ← RemoveStartupTaint id key fuel; mret tt
  | TSignalHandler => mret tt
  end.
End Main.

(** ** The endpoint *)

(** An endpoint [unix://] followed by an absolute path of plain bytes (no percent
    sign, question mark, hash or control byte) is served at exactly that path, and
    whatever else is accepted has the scheme unix. *)
Theorem ParseEndpoint_unix `{AuthorityLib} (p : string) :
  str_all plain_path_byte p = true → HasPrefix p "/" = true →
  ParseEndpoint ("unix://" +++ p) = Ok ("unix"%string, p) ∧
  ∀ endpoint scheme addr, ParseEndpoint endpoint = Ok (scheme, addr) → scheme = "unix"%string.
Proof.
  intros Hp Hr. split.
  - unfold ParseEndpoint. rewrite Parse_absolute by done. cbn. by destruct p.
  - intros endpoint scheme addr. unfold ParseEndpoint. destruct (Parse endpoint) as [u|]; [|done].
    destruct (String.eqb_spec (Scheme u) "unix"); [|done]. by intros [= <- _].
Qed.

Example ParseEndpoint_unix_witness :
  @ParseEndpoint (λ _, Ok ""%string) "unix:///var/lib/kubelet/plugins/hf.csi.huggingface.co/csi.sock"
  = Ok ("unix", "/var/lib/kubelet/plugins/hf.csi.huggingface.co/csi.sock")%string.
Proof.
  refine (proj1 (@ParseEndpoint_unix (λ _, Ok ""%string)
    "/var/lib/kubelet/plugins/hf.csi.huggingface.co/csi.sock" _ _)); by vm_compute.
Defined.

(** ** The start *)

Section Start.
Context `{QuantityLib} `{TimeLib} `{MountLib} `{AuthorityLib}.

(** What [Run] may call, and after what, for a socket at [addr]. *)
Definition start_protocol (addr : string) (hist : list event) (c : call) : Prop :=
  match c with
  | Remove a => a = addr
  | MkdirAll a _ => a = Dir addr
  | StartInformer _ _ | Go _ => True
  | Listen a => a = addr ∧ Ev (Go TRecover) tt ∈ hist ∧
                (Ev (Remove addr) None ∈ hist ∨ ∃ e, IsNotExist e = true ∧ Ev (Remove addr) (Some e) ∈ hist)
  | Chmod a mode => a = addr ∧ mode = mode_700 ∧ Ev (Listen addr) None ∈ hist
  | Serve a => a = addr ∧ Ev (Listen addr) None ∈ hist ∧ Ev (Chmod addr mode_700) None ∈ hist
  | _ => False
  end.

Lemma fatal_remove_ok r :
  fatal_remove r = None → r = None ∨ ∃ e, IsNotExist e = true ∧ r = Some e.
Proof.
  destruct r as [e|]; [|by left]. simpl. destruct (IsNotExist e) eqn:E; [|done]. right. by exists e.
Qed.

Lemma Run_protocol fuel m d scheme addr :
  ParseEndpoint (d_endpoint d) = Ok (scheme, addr) →
  respects (start_protocol addr) (@Run _ (PodMounter fuel m) _ d) []
    (λ r h, r = None → ∃ pre, h = pre ++ [Ev (Serve addr) None]).
Proof.
  intros Ha. unfold Run. rewrite Ha. cbn [mounter_Start PodMounter]. unfold PM_Start. simpl.
  split; [done|]. intros r. destruct (fatal_remove r) eqn:Er; simpl; [done|].
  split; [done|]. intros [e|]; simpl; [done|]. split; [done|]. intros []. split; [done|]. intros [].
  split; [done|]. intros []. split.
  { split; [done|]. split; [by in_hist|].
    destruct (fatal_remove_ok r Er) as [->|(e & He & ->)]; [left; by left|right].
    exists e. split; [done|]. by left. }
  intros [e|]; simpl; [done|]. split; [split_and!; [done|done|by in_hist]|].
  intros [e|]; simpl; [done|]. split; [split_and!; [done|by in_hist|by in_hist]|].
  intros r' ->. by eexists [_; _; _; _; _; _; _].
Qed.

(** C31. The plugin's socket opens without waiting for the API server, and never
    readable by others: [Run] makes no request to the API server itself (the
    informer and the recovery run beside it), listens only after a stale socket is
    gone, serves only once the socket is restricted to its owner, and returns
    without an error only after serving. *)
Theorem Run_start {W} (h : env W) fuel m d scheme addr s w :
  ParseEndpoint (d_endpoint d) = Ok (scheme, addr) →
  let o := run h (@Run _ (PodMounter fuel m) _ d) s w in
  (∀ pre e post, o_trace o = pre ++ e :: post → start_protocol addr pre (ev_call e)) ∧
  (o_res o = Done None → ∃ pre, o_trace o = pre ++ [Ev (Serve addr) None]).
Proof.
  intros Ha o. destruct (respects_run _ h _ _ s w (Run_protocol fuel m d scheme addr Ha)) as [Hp Hq].
  split; [exact Hp|]. intros Hr. by apply (Hq None Hr).
Qed.
End Start.

(** ** Shutdown

    [Run] (main goroutine) and the signal handler share [d.srv], which [Run] sets
    just before serving and [Stop] reads.  [Serve] returns once the server was
    stopped, also when that happened before it was entered; nothing handles a
    second signal. *)

Inductive run_pc := RStarting | RReady | RServing | RReturned.

Record process := {
  p_run : run_pc;
  p_stopClosed : bool;         (* d.stopCh is closed *)
  p_srvStopped : bool;         (* d.srv.GracefulStop or d.srv.Stop was called *)
  p_signal : bool              (* the signal handler has run *)
}.

Definition boot : process :=
  {| p_run := RStarting; p_stopClosed := false; p_srvStopped := false; p_signal := false |}.

(** [d.srv != nil]. *)
Definition srv_set (p : process) : bool := match p_run p with RStarting => false | _ => true end.

(** [Stop], in the signal handler. *)
Definition Stop (p : process) : process :=
  {| p_run := p_run p; p_stopClosed := true;
     p_srvStopped := if srv_set p then true else p_srvStopped p;
     p_signal := true |}.

Definition goto (pc : run_pc) (p : process) : process :=
  {| p_run := pc; p_stopClosed := p_stopClosed p; p_srvStopped := p_srvStopped p;
     p_signal := p_signal p |}.

(** A run of [Run] that fails ends the process by itself, before or after the
    server exists; the steps are those of a run in which nothing fails. *)
Inductive proc_step : process → process → Prop :=
| step_new_server p : p_run p = RStarting → proc_step p (goto RReady p)
| step_serve p : p_run p = RReady → proc_step p (goto RServing p)
| step_serve_returns p : p_run p = RServing → p_srvStopped p = true → proc_step p (goto RReturned p)
| step_signal p : p_signal p = false → proc_step p (Stop p).

(** Serving was stopped exactly by a signal that found the server. *)
Definition proc_ok (p : process) : Prop :=
  (p_signal p = false → p_srvStopped p = false) ∧
  p_stopClosed p = p_signal p ∧
  (p_run p = RStarting → p_srvStopped p = false) ∧
  (p_run p = RReturned → p_srvStopped p = true).

Lemma proc_ok_step p p' : proc_ok p → proc_step p p' → proc_ok p'.
Proof.
  intros (Hs & Hc & Hi & Hr) Hst. unfold proc_ok in *. inversion Hst; subst; simpl in *.
  - split_and!; [done|done|done|done].
  - split_and!; [done|done|done|done].
  - split_and!; [done|done|done|done].
  - unfold srv_set. split_and!; [done|done| |]; intros E; rewrite E; [by apply Hi|done].
Qed.

Lemma proc_ok_reachable p : rtc proc_step boot p → proc_ok p.
Proof.
  enough (∀ q, rtc proc_step q p → proc_ok q → proc_ok p) as Hq by (intros Hp; by apply (Hq boot)).
  induction 1 as [q|q r p Hst _ IH]; [done|]. intros Hq. by apply IH, (proc_ok_step q).
Qed.

(** The server once stopped, the process can return. *)
Lemma stopped_returns p :
  p_srvStopped p = true → srv_set p = true → ∃ p', rtc proc_step p p' ∧ p_run p' = RReturned.
Proof.
  intros Hs Hv. unfold srv_set in Hv. destruct (p_run p) eqn:E; [done| | |by exists p].
  - exists (goto RReturned (goto RServing p)). split; [|done].
    eapply rtc_l; [by apply step_serve|]. apply rtc_once. by apply (step_serve_returns (goto RServing p)).
  - exists (goto RReturned p). split; [|done]. apply rtc_once. by apply step_serve_returns.
Qed.

Lemma stopped_step p p' :
  proc_step p p' → p_srvStopped p = true ∧ srv_set p = true → p_srvStopped p' = true ∧ srv_set p' = true.
Proof.
  intros Hst [Hs Hv]. inversion Hst; subst; simpl in *; try done. unfold srv_set in *. simpl.
  split; [|done]. by destruct (p_run p).
Qed.

Lemma unstopped_step p p' :
  proc_step p p' → p_signal p = true ∧ p_srvStopped p = false ∧ p_run p ≠ RReturned →
  p_signal p' = true ∧ p_srvStopped p' = false ∧ p_run p' ≠ RReturned.
Proof. intros Hst (Hg & Hs & Hr). inversion Hst; subst; simpl in *; congruence || done. Qed.

Lemma stopped_steps p p' :
  rtc proc_step p p' → p_srvStopped p = true → srv_set p = true →
  p_srvStopped p' = true ∧ srv_set p' = true.
Proof.
  induction 1 as [p|p q p' Hst _ IH]; [done|]. intros Hs Hv.
  destruct (stopped_step _ _ Hst (conj Hs Hv)). by apply IH.
Qed.

Lemma unstopped_steps p p' :
  rtc proc_step p p' → p_signal p = true → p_srvStopped p = false → p_run p ≠ RReturned →
  p_run p' ≠ RReturned.
Proof.
  induction 1 as [p|p q p' Hst _ IH]; [done|]. intros Hg Hs Hr.
  destruct (unstopped_step _ _ Hst (conj Hg (conj Hs Hr))) as (? & ? & ?). by apply IH.
Qed.

(** C32. A termination signal ends the process exactly if the server exists when it is
    handled: then the process can return from every later state.  A signal handled
    earlier, while the socket is being set up, is lost: the process serves from
    then on and never returns. *)
Theorem signal_ends_process p :
  rtc proc_step boot p → p_signal p = false →
  if srv_set p
  then ∀ p', rtc proc_step (Stop p) p' → ∃ p'', rtc proc_step p' p'' ∧ p_run p'' = RReturned
  else ∀ p', rtc proc_step (Stop p) p' → p_run p' ≠ RReturned.
Proof.
  intros Hp Hg. apply proc_ok_reachable in Hp as (Hs & _ & _ & _). specialize (Hs Hg).
  destruct (srv_set p) eqn:Hv; intros p' Hp'.
  - apply stopped_steps in Hp' as [? ?]; [by apply stopped_returns| |by unfold srv_set, Stop in *].
    simpl. by rewrite Hv.
  - apply unstopped_steps in Hp'; [done|done| |].
    + simpl. by rewrite Hv.
    + simpl. unfold srv_set in Hv. by destruct (p_run p).
Qed.

Example signal_ends_process_witness :
  ∃ p, rtc proc_step (Stop (goto RReady boot)) p ∧ p_run p = RReturned.
Proof.
  assert (Hp : rtc proc_step boot (goto RReady boot)) by (by apply rtc_once, step_new_server).
  exact (signal_ends_process (goto RReady boot) Hp eq_refl _ (rtc_refl _ _)).
Defined.

Section Demo.
#[local] Existing Instance z_quantities.
#[local] Instance no_special_authority : AuthorityLib := λ _, Err (url_error "unsupported").
#[local] Instance no_corruption : MountLib := λ _, false.
#[local] Instance rfc_time : TimeLib := λ _, None.

Definition demo_mounter : PMConfig :=
  {| namespace := "kube-system"; nodeID := "node-1"; image := "hf-mount:1"; imagePullPolicy := "";
     imagePullSecrets := []; serviceAccount := ""; cacheDir := "/cache"; hostNetwork := true;
     mountReadyTimeout := 0; pm_defaults := @Build_Defaults z_quantities 10 100 50 |}.

Definition demo_start : outcome (option gerror) unit :=
  run (λ c s w, (idle c, s, w))
    (@Run _ (PodMounter 1 demo_mounter) _ (NewDriver "unix:///csi/csi.sock" "node-1" ""))
    empty_mem tt.

Example Run_start_witness : ∃ pre, o_trace demo_start = pre ++ [Ev (Serve "/csi/csi.sock") None].
Proof.
  refine (proj2 (Run_start _ 1 demo_mounter (NewDriver "unix:///csi/csi.sock" "node-1" "")
    "unix" "/csi/csi.sock" empty_mem tt _) _); [by vm_compute|].
  vm_compute. reflexivity.
Defined.
End Demo.
