(* ===== verification/Main.v ===== *)
(** * The program (cmd/hf-csi-driver/main.go)

    The flags with their default values, the choice of a mode, and the webhook's
    server.  Node mode is [runNode] of Driver.v.  Package flag fills [Flags]; the
    manager of controller-runtime is seen through the results of its calls. *)
From S2P Require Import Prelude GoStrings Url GoTime GoErrors Unstructured Resources Names MountArgs.
From S2P Require Import Kube Effects Sweeper PodMounter Mounter Driver.
From S2P Require Webhook.

Local Open Scope Z_scope.

(** ** Flags *)

Record Flags := {
  mode : string;
  node_flags : NodeFlags;
  defaultMemReq : string;
  defaultMemReqRO : string;
  webhookPort : Z;
  webhookCertDir : string;
  sidecarImage : string;
  sidecarLogFormat : string;
  showVersion : bool
}.

Definition default_node_flags : NodeFlags := {|
  f_endpoint := "unix:///var/lib/kubelet/plugins/hf.csi.huggingface.co/csi.sock";
  f_nodeID := "";
  f_cacheDir := DefaultCacheBase;
  f_mountImage := "";
  f_mountPullPolicy := "IfNotPresent";
  f_mountPullSecrets := "";
  f_mountServiceAcct := "hf-csi-driver";
  f_namespace := "kube-system";
  f_mountHostNetwork := true;
  f_mountReadyTimeout := DefaultMountReadyTimeout;
  f_kubeletRoot := "/var/lib/kubelet";
  f_fuseSweepEnabled := true;
  f_fuseSweepInterval := DefaultFuseSweepInterval;
  f_startupTaintKey := ""
|}.

(** Errors of [ctrl.NewManager], [AddReadyzCheck] and [Start]. *)
Record manager := {
  mgr_new : option gerror;
  mgr_readyz : option gerror;
  mgr_start : option gerror
}.

Section Program.
Context `{QuantityLib} `{TimeLib} `{MountLib} `{AuthorityLib} `{UnicodeLower}.

(** How the process ends: it printed its version and exited with 0, or died before a
    mode was chosen, or a mode ended.  [served] is the configuration of the injector
    registered at /inject, if it came to that. *)
Inductive ending :=
| PrintedVersion (line : string)
| Died (msg : string)
| NodeEnded (e : exit)
| WebhookEnded (served : option Webhook.Config) (e : exit).

(** [defaults]: the package variables of resources.go when [main] is entered. *)
Definition default_flags (defaults : Defaults) : Flags := {|
  mode := "node";
  node_flags := default_node_flags;
  defaultMemReq := QString (DefaultMountMemoryRequest defaults);
  defaultMemReqRO := QString (DefaultMountMemoryRequestReadOnly defaults);
  webhookPort := 22030;
  webhookCertDir := "/etc/tls-certs";
  sidecarImage := "";
  sidecarLogFormat := "";
  showVersion := false
|}.

(** [ctrl]: what controller-runtime answers for a port and a directory of
    certificates. *)
Definition runWebhook (ctrl : Z → string → manager) (defaults : Defaults) (port : Z)
    (certDir image_ logFormat : string) : option Webhook.Config * exit :=
  if String.eqb image_ "" then (None, Fatal "--sidecar-image is required in webhook mode")
  else
    let mgr := ctrl port certDir in
    match mgr_new mgr with
    | Some _ => (None, Fatal "Failed to create manager: %v")
    | None =>
        match mgr_readyz mgr with
        | Some _ => (None, Fatal "Failed to add readyz check: %v")
        | None =>
            let config := {| Webhook.SidecarImage := image_; Webhook.SidecarLogFormat := logFormat;
                             Webhook.wh_defaults := defaults |} in
            (Some config, match mgr_start mgr with
                          | Some _ => Fatal "Webhook server failed: %v"
                          | None => Returned
                          end)
        end
    end.

Definition main (fuel : nat) (version : string) (clients : api_clients)
    (ctrl : Z → string → manager) (defaults : Defaults) (f : Flags) : prog ending :=
  if showVersion f then mret (PrintedVersion ("hf-csi-driver " +++ version))
  else
    match SetDefaultMemoryRequests defaults (defaultMemReq f) (defaultMemReqRO f) with
    | Err _ => mret (Died "%v")
    | Ok defaults =>
        if String.eqb (mode f) "node" then
          e ← runNode fuel clients defaults (node_flags f);
          mret (NodeEnded e)
        else if String.eqb (mode f) "webhook" then
          let '(served, e) := runWebhook ctrl defaults (webhookPort f) (webhookCertDir f)
                                (sidecarImage f) (sidecarLogFormat f) in
          mret (WebhookEnded served e)
        else mret (Died "Unknown mode %q (must be 'node' or 'webhook')")
    end.

(** ** The memory flags *)

Definition same_amounts (d d' : Defaults) : Prop :=
  DefaultMountCPURequest d' = DefaultMountCPURequest d ∧
  Cmp (DefaultMountMemoryRequest d') (DefaultMountMemoryRequest d) = Eq ∧
  Cmp (DefaultMountMemoryRequestReadOnly d') (DefaultMountMemoryRequestReadOnly d) = Eq.

(** The printed defaults of the memory flags are accepted and mean the amounts they
    were printed from, so that leaving the flags out changes nothing, in both modes;
    and a memory flag that is not a quantity stops the program before it does
    anything. *)
Theorem memory_flags `{!QuantityLaws} fuel version clients ctrl (d : Defaults) f :
  showVersion f = false →
  (defaultMemReq f = defaultMemReq (default_flags d) →
   defaultMemReqRO f = defaultMemReqRO (default_flags d) →
   ∃ d', same_amounts d d' ∧
     (mode f = "node"%string → main fuel version clients ctrl d f =
        (runNode fuel clients d' (node_flags f) ≫= λ e, mret (NodeEnded e))) ∧
     (mode f = "webhook"%string → ∀ config e,
        main fuel version clients ctrl d f = mret (WebhookEnded (Some config) e) →
        Webhook.wh_defaults config = d')) ∧
  (ParseQuantity (defaultMemReq f) = None ∨ ParseQuantity (defaultMemReqRO f) = None →
   ∃ msg, main fuel version clients ctrl d f = mret (Died msg)).
Proof.
  intros Hv. unfold main. rewrite Hv. split.
  - intros -> ->. destruct (Parse_String (DefaultMountMemoryRequest d)) as (q & Hq & Cq).
    destruct (Parse_String (DefaultMountMemoryRequestReadOnly d)) as (q' & Hq' & Cq').
    unfold SetDefaultMemoryRequests. simpl. rewrite Hq, Hq'.
    exists (Build_Defaults (DefaultMountCPURequest d) q q'). split; [by split|]. split; intros ->; [done|].
    + intros config e. simpl. unfold runWebhook. repeat case_match; intros Heq; injection Heq; intros; by simplify_eq/=.
  - unfold SetDefaultMemoryRequests. intros [->| ->]; [by eexists|].
    destruct (ParseQuantity (defaultMemReq f)); by eexists.
Qed.
End Program.

(** ** A start with the printed defaults *)

Section Demo.
#[local] Existing Instance z_quantities.
#[local] Instance no_special_authority : AuthorityLib := λ _, Err (url_error "unsupported").
#[local] Instance no_corruption : MountLib := λ _, false.
#[local] Instance utc_only : TimeLib := λ _, None.
#[local] Instance ascii_text : UnicodeLower := λ s, s.

Definition demo_defaults : Defaults := @Build_Defaults z_quantities 10 100 50.
Definition clients_made : api_clients := {| inCluster := Ok tt; kubeClient := Ok tt; dynClient := Ok tt |}.
Definition quiet_manager : Z → string → manager := λ _ _,
  {| mgr_new := None; mgr_readyz := None; mgr_start := None |}.

Example memory_flags_witness :
  ∃ d', same_amounts demo_defaults d' ∧
    main 1 "dev" clients_made quiet_manager demo_defaults (default_flags demo_defaults) =
      (runNode 1 clients_made d' default_node_flags ≫= λ e, mret (NodeEnded e)).
Proof.
  destruct (proj1 (memory_flags 1 "dev" clients_made quiet_manager demo_defaults
    (default_flags demo_defaults) eq_refl) eq_refl eq_refl) as (d' & Hd & Hn & _).
  exact (ex_intro _ d' (conj Hd (Hn eq_refl))).
Defined.
End Demo.
